(* ===== verification/_CoqProject ===== *)
-Q . S2P
Prelude.v
Frames.v
Ring.v
FrameParser.v
FrameAssembler.v
Wire.v
Messenger.v
ControlChannel.v
Session.v
PlayQueue.v
WidgetTypes.v
GridRemap.v
WidgetGrid.v
ApiFramer.v
ApiAuth.v
ApiSession.v
ApiHandlers.v
DataRegistry.v
ApiDataBridge.v
Touch.v
