(* ===== verification/Prelude.v ===== *)
(** * OpenAuto Prodigy: a verification library

    OpenAuto Prodigy is a wireless Android Auto head unit: a C++/Qt program
    that speaks the Android Auto protocol with a phone, draws a grid of
    widgets, plays local media, routes touches, and serves an External API to
    companion apps. This library models the parts that carry state and rules
    of their own, as executable definitions, and proves what they promise.
    Paths are relative to src/.

    ** Parts and files

    The Android Auto transport (libs/prodigy-oaa-protocol), bottom up:
    - [Frames]: Messenger/FrameType, FrameHeader, FrameSerializer. The two-byte
      header, the size fields, the fragmentation of a message.
    - [Ring]: Messenger/CircularBuffer, as an array with a head and a size,
      and the class [ByteQueue] of the operations a parser needs.
    - [FrameParser]: Messenger/FrameParser, against [ByteQueue].
    - [FrameAssembler]: Messenger/FrameAssembler, one partial message per
      channel under two byte budgets.
    - [Wire]: the plaintext path from one end to the other.
    - [Messenger]: Messenger/Messenger and EncryptionPolicy: send queue, TLS
      handshake, encrypted receive path. TLS is the class [SecureChannel]; the
      code connected to its signals is a parameter.
    - [ControlChannel]: Channel/ControlChannel, the messages of channel 0.
    - [Session]: Session/AASession and SessionProtocolPolicy: the connection
      state machine, channels, ping liveness, version policy. Handlers and
      application may call back into the session inside every signal.

    The home screen (src/ui, src/core/widget):
    - [WidgetTypes]: WidgetTypes.hpp and WidgetRegistry; a widget's
      configuration against its schema.
    - [GridRemap]: the part of WidgetGridModel.cpp that computes occupancy and
      moves placements to another grid size.
    - [WidgetGrid]: the rest of WidgetGridModel: placing, resizing, pages,
      the remap deferred by a selection.

    Media and touch:
    - [PlayQueue]: src/plugins/media_player/PlayQueue.
    - [Touch]: src/core/aa/TouchRouter, EvdevCoordBridge, EvdevTouchReader:
      from the events of the touch device to the pointers the phone sees.

    The External API (src/core/api):
    - [ApiFramer]: ApiFramer, the length prefix of the TCP transport.
    - [ApiAuth]: ApiAuth (proofs), PairedClientStore (the YAML store) and
      PairingManager (the pairing window).
    - [ApiSession]: ApiSession and the session list of ApiServer: handshake,
      timers, subscriptions, backpressure, teardown.
    - [ApiHandlers]: ActionRegistry, NotificationService, ApiInboundState and
      ApiRequestHandlers, which implement the interface the sessions call.
    - [DataRegistry]: src/core/services/DataRegistry, live data of providers.
    - [ApiDataBridge]: ApiDataBridge, its subscribers behind the sessions.

    This file has what they share: tactics, bytes and big-endian fields,
    [memcpy], the record update [x <| f := v |>], sums over maps, hints.

    ** How the model follows the code

    A class is a Module with a Record [t] of its members (names kept) and one
    Definition per method. A method that emits signals or writes to another
    object appends to a log, or returns the signals, or is written against an
    interface: [ByteQueue] (Ring implements it), [SecureChannel], [Protobuf],
    [IApiTransport], [SinkClosed] and [SinkRequests] (ApiHandlers implements
    both), [Crypto], [Yaml], [StoreFile], [Entropy], [ZoneSort]. Each
    interface that is not implemented here has a concrete instance in a module
    [Sample] or in the examples, used by the witnesses.

    Re-entrancy is modelled where the code has it. The messenger's signals run
    a parameter that may send, stop or restart the messenger. The session's
    signals run arbitrary calls of its public methods, nested to any depth.
    A send of the data bridge may end any sessions, whose cleanup runs
    further fan-outs before the send returns.

    Integers are [Z] with their width written out where the code can reach it
    (frame sizes, the prefix of the framer, generations, revisions, budgets,
    mapping versions). [float] and [double] are [SpecFloat] numbers. Strings
    are [string]; Qt's UTF-16 and UTF-8 conversions are taken as the identity.

    ** Fuel and bounds

    - [FrameParser.process]: one more than the bytes available; every turn
      consumes a byte or emits a frame with an empty payload.
    - [Messenger]: the drain loop has one turn for each queued message, the
      receive loop those of the parser; [dataReceived_total] shows both enough.
    - [FrameSerializer.middleFrames], [CircularBuffer.growCapacity]: the size
      of the message, the doublings to the capacity; shown total.
    - [ApiFramer.feedLoop]: one more than the buffer; each frame consumes four
      bytes or more.
    - [GridRemap.spillLoop]: the code's own limit of 100 pages, against
      at most as many placements.
    - [Session.emitN]: the depth of nested callbacks is a parameter; the
      theorems hold at every depth.
    - [ApiDataBridge]: fuel bounds nesting and rounds; [data_subscribers_told]
      shows that some fuel is enough for every run, because each nested send
      that changes anything leaves one session fewer.

    ** What the theorems show

    Transport: [wire_roundtrip] and [secure_roundtrip] (messages arrive
    unchanged and in order for every slicing of the bytes),
    [parser_chunking_irrelevant] and [parser_roundtrip] (the optimised parser
    over the ring buffer against the reference on a plain list),
    [assembler_memory_bound] and [assembler_isolation] (at most 32 MiB, and a
    channel cannot affect another), [dataReceived_total],
    [failure_is_terminal], [sendMessage_interruptible],
    [reentrant_send_queues] and [sendRaw_checked].
    Session: [session_invariant] and [one_report_per_attempt] under arbitrary
    re-entrancy; [connection_established] (liveness with a compatible phone),
    [version_negotiation], [ping_deadline], [channel_open_request],
    [closed_cluster_deaf].
    Home screen: [grid_invariant] (no overlap, inside the grid, occupancy
    exact), [remap_sound], [remap_and_back], [deferred_remap],
    [first_available_cell], [reserved_pages_last], [singletons_stay],
    [validated_config].
    Media: [queue_invariant], [repeat_all_round], [previous_undoes_next],
    [purge_spec], [shuffle_keeps_current].
    Touch: [touch_stream] (the messages refine Android's pointer machine; the
    phone's pointers are the unclaimed fingers on the glass).
    External API: [framer_stream], [store_persistence], [pairing_completion],
    [ready_needs_proof] and [handshake_refinement] (no session becomes ready
    without what entitles it), [session_lifecycle], [client_ownership],
    [data_subscribers_told].

    ** Not modelled

    - The composition of [ApiDataBridge] with [ApiHandlers]: the request
      handlers are modelled with no data registry attached, and the bridge
      against sessions that may end in any send, which covers what
      [ApiSession] does.
    - ApiServer's listeners, start and stop; the socket adapters; publishers
      and serializers.
    - The channel handlers of the protocol library (audio, video, sensors,
      navigation, phone): mostly protobuf conversion; AndroidAutoOrchestrator,
      which supervises the session; service discovery.
    - OpenSSL, protobuf, Qt, yaml-cpp, FFmpeg, PipeWire and BlueZ, and the
      code that only drives them: Cryptor, transports, video decoding, audio
      and Bluetooth services, telephony. Where a model needs one it is an
      interface with laws.
    - Files and configuration (YamlConfig), themes, weather, plugin loading,
      web widgets, dashboards, navbar gestures, the media library; QML, the
      Python web panel and the installer. *)

From stdpp Require Export prelude list gmap.
From Stdlib Require Export ZArith Lia.
From Stdlib Require Strings.Byte.

#[global] Open Scope Z_scope.

(** * Tactics of the development *)

(** Split every [match] and [if] of the goal, naming the equations. *)
Ltac split_matches :=
  repeat match goal with
  | |- context [ match ?x with _ => _ end ] => destruct x eqn:?
  end.

(** The same for a hypothesis. *)
Ltac split_matches_in H :=
  repeat match type of H with
  | context [ match ?x with _ => _ end ] => destruct x eqn:?
  end.

(** Turn boolean integer tests into propositions. *)
Ltac breflect :=
  repeat match goal with
  | H : (_ && _)%bool = true |- _ => apply andb_prop in H; destruct H
  | H : (_ && _)%bool = false |- _ => apply andb_false_iff in H
  | H : (_ || _)%bool = true |- _ => apply orb_prop in H
  | H : (_ || _)%bool = false |- _ => apply orb_false_iff in H; destruct H
  | H : negb _ = true |- _ => apply negb_true_iff in H
  | H : negb _ = false |- _ => apply negb_false_iff in H
  | H : (_ <? _) = true |- _ => apply Z.ltb_lt in H
  | H : (_ <? _) = false |- _ => apply Z.ltb_ge in H
  | H : (_ <=? _) = true |- _ => apply Z.leb_le in H
  | H : (_ <=? _) = false |- _ => apply Z.leb_gt in H
  | H : (_ =? _) = true |- _ => apply Z.eqb_eq in H
  | H : (_ =? _) = false |- _ => apply Z.eqb_neq in H
  | H : bool_decide _ = true |- _ => apply bool_decide_eq_true in H
  | H : bool_decide _ = false |- _ => apply bool_decide_eq_false in H
  end.

(** * Bytes and byte strings

    [QByteArray] is [list byte]; an unsigned integer of the code is a [Z]
    with its width as a side condition. *)

Abbreviation byte := Byte.byte (only parsing).
Abbreviation bytes := (list Byte.byte).

#[export] Instance byte_eq_dec : EqDecision Byte.byte := Byte.byte_eq_dec.

(** [static_cast<uint8_t>(b)] *)
Definition bval (b : Byte.byte) : Z := Z.of_N (Byte.to_N b).

(** [static_cast<char>(z)]: the low eight bits. *)
Definition byte_of (z : Z) : Byte.byte :=
  default Byte.x00 (Byte.of_N (Z.to_N (z mod 256))).

Definition u8 (z : Z) : Prop := 0 <= z < 2 ^ 8.
Definition u16 (z : Z) : Prop := 0 <= z < 2 ^ 16.
Definition u32 (z : Z) : Prop := 0 <= z < 2 ^ 32.

(** The size of a byte string as the code's integer. *)
Definition blen {A} (l : list A) : Z := Z.of_nat (length l).

Lemma blen_nonneg {A} (l : list A) : 0 <= blen l.
Proof. unfold blen. lia. Qed.

Lemma blen_app {A} (l k : list A) : blen (l ++ k) = blen l + blen k.
Proof. unfold blen. rewrite length_app. lia. Qed.

Lemma blen_nil {A} : blen (@nil A) = 0.
Proof. reflexivity. Qed.

Lemma blen_cons {A} (x : A) l : blen (x :: l) = 1 + blen l.
Proof. unfold blen. simpl length. lia. Qed.

Lemma bval_range b : u8 (bval b).
Proof.
  unfold u8, bval. pose proof (Byte.to_N_bounded b). lia.
Qed.

Lemma byte_of_bval b : byte_of (bval b) = b.
Proof.
  unfold byte_of. rewrite Z.mod_small by apply bval_range.
  unfold bval. rewrite N2Z.id, Byte.of_to_N. reflexivity.
Qed.

Lemma bval_byte_of z : bval (byte_of z) = z mod 256.
Proof.
  unfold byte_of.
  pose proof (Z.mod_pos_bound z 256 ltac:(lia)) as Hb.
  destruct (Byte.of_N (Z.to_N (z mod 256))) as [b|] eqn:E; simpl.
  - apply Byte.to_of_N in E. unfold bval. rewrite E. lia.
  - apply Byte.of_N_None_iff in E. lia.
Qed.

(** * Big-endian fields *)

(** [be_decode l]: the bytes of [l] as one big-endian unsigned integer, the
    value [qFromBigEndian] reads from a field of [length l] bytes. *)
Definition be_decode (l : bytes) : Z :=
  fold_left (fun acc b => acc * 256 + bval b) l 0.

(** [be_encode n z]: the [n] low bytes of [z], most significant first. *)
Fixpoint be_encode (n : nat) (z : Z) : bytes :=
  match n with
  | O => []
  | S n' => be_encode n' (z / 256) ++ [byte_of z]
  end.

Lemma be_encode_length n z : length (be_encode n z) = n.
Proof.
  revert z; induction n as [|n IH]; intros z; simpl; [done|].
  rewrite length_app, IH. simpl. lia.
Qed.

Lemma be_decode_snoc l b : be_decode (l ++ [b]) = be_decode l * 256 + bval b.
Proof. unfold be_decode. rewrite fold_left_app. reflexivity. Qed.

Lemma be_decode_encode n z :
  be_decode (be_encode n z) = z mod 256 ^ Z.of_nat n.
Proof.
  revert z; induction n as [|n IH]; intros z.
  - simpl. rewrite Z.mod_1_r. reflexivity.
  - simpl be_encode. rewrite be_decode_snoc, IH, bval_byte_of.
    rewrite Nat2Z.inj_succ, Z.pow_succ_r by lia.
    rewrite Z.rem_mul_r by lia. lia.
Qed.

Lemma be_decode_encode_small n z :
  0 <= z < 256 ^ Z.of_nat n -> be_decode (be_encode n z) = z.
Proof. intros. rewrite be_decode_encode, Z.mod_small; [reflexivity|lia]. Qed.

Lemma be_decode_bound l : 0 <= be_decode l < 256 ^ blen l.
Proof.
  induction l as [|b l IH] using rev_ind; [unfold be_decode, blen; simpl; lia|].
  rewrite be_decode_snoc. unfold blen in *. rewrite length_app. simpl length.
  rewrite Nat2Z.inj_add, Z.pow_add_r by lia.
  pose proof (bval_range b) as Hb. unfold u8 in Hb. lia.
Qed.

(** [qToBigEndian] on [uint16_t] and [uint32_t], appended as raw bytes. *)
Definition be16 (z : Z) : bytes := be_encode 2 z.
Definition be32 (z : Z) : bytes := be_encode 4 z.

Lemma be16_length z : length (be16 z) = 2%nat.
Proof. apply be_encode_length. Qed.

Lemma blen_be16 z : blen (be16 z) = 2.
Proof. unfold blen. by rewrite be16_length. Qed.

Lemma be32_length z : length (be32 z) = 4%nat.
Proof. apply be_encode_length. Qed.

Lemma be_decode_be16 z : u16 z -> be_decode (be16 z) = z.
Proof. intros Hz. apply be_decode_encode_small. unfold u16 in Hz. simpl. lia. Qed.

Lemma be_decode_be32 z : u32 z -> be_decode (be32 z) = z.
Proof. intros Hz. apply be_decode_encode_small. unfold u32 in Hz. simpl. lia. Qed.

#[global] Opaque be16 be32.

(** * Lists as arrays *)

(** [memcpy(dst + off, src, len(src))] on an array held as a list. *)
Definition memcpy {A} (dst : list A) (off : nat) (src : list A) : list A :=
  take off dst ++ src ++ drop (off + length src) dst.

Lemma memcpy_length {A} (dst src : list A) off :
  (off + length src <= length dst)%nat ->
  length (memcpy dst off src) = length dst.
Proof.
  intros H. unfold memcpy. rewrite !length_app, length_take, length_drop. lia.
Qed.

Lemma memcpy_nil {A} (dst : list A) off : memcpy dst off [] = dst.
Proof. unfold memcpy. simpl. rewrite Nat.add_0_r. apply take_drop. Qed.

(** Looking up a concatenation by position. *)
Lemma lookup_app_dec {A} (l k : list A) i :
  (l ++ k) !! i = if decide (i < length l)%nat then l !! i
                  else k !! (i - length l)%nat.
Proof. case_decide; [apply lookup_app_l|apply lookup_app_r]; lia. Qed.

Lemma lookup_memcpy {A} (dst src : list A) off i :
  (off + length src <= length dst)%nat ->
  memcpy dst off src !! i =
    if decide (off <= i < off + length src)%nat then src !! (i - off)%nat
    else dst !! i.
Proof.
  intros H. unfold memcpy.
  rewrite lookup_app_dec, length_take, Nat.min_l by lia.
  destruct (decide (i < off)%nat).
  - rewrite lookup_take_lt by lia. by rewrite decide_False by lia.
  - rewrite lookup_app_dec. destruct (decide (i - off < length src)%nat).
    + by rewrite decide_True by lia.
    + rewrite decide_False, lookup_drop by lia. f_equal. lia.
Qed.

(** One step around a ring of [c] places. *)
Lemma mod_wrap a b c :
  (a < c)%nat -> (b <= c)%nat ->
  ((a + b) mod c = if decide (a + b < c) then a + b else a + b - c)%nat.
Proof.
  intros Ha Hb. case_decide.
  - by apply Nat.mod_small.
  - replace (a + b)%nat with ((a + b - c) + 1 * c)%nat at 1 by lia.
    rewrite Nat.Div0.mod_add. apply Nat.mod_small. lia.
Qed.

(** [l.mid(off, n)] *)
Definition mid {A} (l : list A) (off n : nat) : list A := take n (drop off l).

Lemma mid_length {A} (l : list A) off n :
  (off + n <= length l)%nat -> length (mid l off n) = n.
Proof. intros H. unfold mid. rewrite length_take, length_drop. lia. Qed.

Lemma lookup_mid {A} (l : list A) off n i :
  (i < n)%nat -> mid l off n !! i = l !! (off + i)%nat.
Proof. intros H. unfold mid. by rewrite lookup_take_lt, lookup_drop. Qed.

Lemma mid_split {A} (l : list A) off n :
  (off + n <= length l)%nat ->
  l = take off l ++ mid l off n ++ drop (off + n) l.
Proof.
  intros H. unfold mid.
  rewrite <- (take_drop off l) at 1. f_equal.
  rewrite <- (take_drop n (drop off l)) at 1. f_equal.
  by rewrite drop_drop.
Qed.

(** * Sets with one element more or less *)

Section gset_one.
Context `{Countable A}.
Implicit Types (x y : A) (X : gset A).

Lemma elem_of_add x X : x ∈ ({[x]} ∪ X : gset A).
Proof. set_solver. Qed.

Lemma elem_of_add_ne x y X : y <> x -> y ∈ ({[x]} ∪ X : gset A) <-> y ∈ X.
Proof. set_solver. Qed.

Lemma elem_of_remove_ne x y X : y <> x -> y ∈ (X ∖ {[x]} : gset A) <-> y ∈ X.
Proof. set_solver. Qed.
End gset_one.

(** * Record update

    [x <| field := v |>] and [x <| field ::= f |>], for a record type with a
    [Settable] instance: its eta-expansion, from which the setter of a field
    is computed. *)

Class Settable (R : Type) := { eta_record : R -> R }.
Class Setter {R A} (proj : R -> A) := { set_field : (A -> A) -> R -> R }.

Ltac solve_setter :=
  match goal with
  | |- @Setter ?R ?A ?proj =>
      let i := constr:(_ : Settable R) in
      let e := eval hnf in (@eta_record R i) in
      let p := eval pattern proj in e in
      lazymatch p with
      | ?g _ =>
          let s := eval cbv beta in
            (fun (h : A -> A) (r : R) => g (fun r' => h (proj r')) r) in
          exact (Build_Setter R A proj s)
      end
  end.

Definition record_set {R A} (proj : R -> A) `{!Setter proj}
    (f : A -> A) (r : R) : R := set_field f r.

#[export] Hint Extern 1 (Setter _) => solve_setter : typeclass_instances.

Declare Scope record_scope.
Delimit Scope record_scope with rec.
#[global] Open Scope record_scope.
#[warnings="-postfix-notation-not-level-1"]
Notation "x <| proj := v |>" := (record_set proj (fun _ => v) x)
  (at level 12, proj at level 0, v at level 99, left associativity,
   format "x  <| proj  :=  v  |>") : record_scope.
#[warnings="-postfix-notation-not-level-1"]
Notation "x <| proj ::= f |>" := (record_set proj f x)
  (at level 12, proj at level 0, f at level 99, left associativity,
   format "x  <| proj  ::=  f  |>") : record_scope.

(** * Sums over maps *)

Section map_sum.
Context `{Countable K} {A : Type} (f : A -> Z).

Definition map_sum (m : gmap K A) : Z :=
  map_fold (fun _ x acc => f x + acc) 0 m.

Lemma map_sum_empty : map_sum ∅ = 0.
Proof. apply map_fold_empty. Qed.

Lemma map_sum_insert m i x :
  m !! i = None -> map_sum (<[i:=x]> m) = f x + map_sum m.
Proof. intros Hi. unfold map_sum. rewrite map_fold_insert_L; [done|lia|done]. Qed.

Lemma map_sum_delete m i x :
  m !! i = Some x -> map_sum m = f x + map_sum (delete i m).
Proof. intros Hi. unfold map_sum. rewrite (map_fold_delete_L _ _ i x); [done|lia|done]. Qed.

(** Replacing one entry changes the sum by the difference. *)
Lemma map_sum_update m i x y :
  m !! i = Some x -> map_sum (<[i:=y]> m) = map_sum m - f x + f y.
Proof.
  intros Hi. rewrite (map_sum_delete m i x Hi), <- insert_delete_eq.
  rewrite map_sum_insert by apply lookup_delete_eq. lia.
Qed.

Lemma map_sum_nonneg m : map_Forall (fun _ x => 0 <= f x) m -> 0 <= map_sum m.
Proof.
  unfold map_sum. induction m as [|i x m Hi IH] using map_ind; intros Hm.
  - by rewrite map_fold_empty.
  - apply map_Forall_insert in Hm as [Hx Hm]; [|done].
    rewrite map_fold_insert_L by (done || lia). specialize (IH Hm). lia.
Qed.
End map_sum.

Lemma map_sum_mono `{Countable K} {A} (f g : A -> Z) (m : gmap K A) :
  map_Forall (fun _ x => f x <= g x) m -> map_sum f m <= map_sum g m.
Proof.
  induction m as [|i x m Hi IH] using map_ind; intros Hm.
  - by rewrite !map_sum_empty.
  - apply map_Forall_insert in Hm as [Hx Hm]; [|done].
    rewrite !map_sum_insert by done. specialize (IH Hm). lia.
Qed.

(** * Hint databases *)

Create HintDb prodigy.
Create Rewrite HintDb prodigy_len.
Create Rewrite HintDb prodigy_bytes.
#[export] Hint Resolve blen_nonneg bval_range : prodigy.
#[export] Hint Rewrite @blen_app @blen_nil @blen_cons blen_be16 be16_length be32_length
  be_encode_length @length_app @length_take @length_drop : prodigy_len.
#[export] Hint Rewrite byte_of_bval bval_byte_of : prodigy_bytes.

Ltac len_simpl := autorewrite with prodigy_len in *; simpl length in *.
