(* ===== verification/Frames.v ===== *)
(** The wire frames of the Android Auto transport: the two-byte header, the
    size fields and the fragmentation of a message into frames.

    Source: libs/prodigy-oaa-protocol, Messenger/FrameType.hpp,
    Messenger/FrameHeader and Messenger/FrameSerializer. *)

From S2P Require Import Prelude.

(** * FrameType.hpp *)

Inductive FrameType := Middle | First | Last | Bulk.
Inductive EncryptionType := Plain | Encrypted.
Inductive MessageType := Specific | Control.

#[export] Instance FrameType_eq_dec : EqDecision FrameType.
Proof. solve_decision. Defined.
#[export] Instance EncryptionType_eq_dec : EqDecision EncryptionType.
Proof. solve_decision. Defined.
#[export] Instance MessageType_eq_dec : EqDecision MessageType.
Proof. solve_decision. Defined.

(** The values of the enumerators, as [static_cast<uint8_t>] gives them. *)
Definition FrameType_val (t : FrameType) : Z :=
  match t with Middle => 0 | First => 1 | Last => 2 | Bulk => 3 end.
Definition EncryptionType_val (t : EncryptionType) : Z :=
  match t with Plain => 0 | Encrypted => 8 end.
Definition MessageType_val (t : MessageType) : Z :=
  match t with Specific => 0 | Control => 4 end.

(** [static_cast] in the other direction, on the masked header byte: the mask
    leaves an enumerator's value in every case. *)
Definition FrameType_of (z : Z) : FrameType :=
  if z =? 0 then Middle else if z =? 1 then First
  else if z =? 2 then Last else Bulk.
Definition EncryptionType_of (z : Z) : EncryptionType :=
  if z =? 0 then Plain else Encrypted.
Definition MessageType_of (z : Z) : MessageType :=
  if z =? 0 then Specific else Control.

(** * FrameHeader *)
Module FrameHeader.

Record t := mk {
  channelId : Z;
  frameType : FrameType;
  encryptionType : EncryptionType;
  messageType : MessageType;
  totalMessageSize : Z
}.

(** [FrameHeader::parse] reads [data[0]] and [data[1]]; [None] stands for
    the out-of-range access on shorter input. *)
Definition parse (data : bytes) : option t :=
  match data with
  | b0 :: b1 :: _ =>
      let byte0 := bval b0 in
      let byte1 := bval b1 in
      Some (mk byte0
               (FrameType_of (Z.land byte1 3))
               (EncryptionType_of (Z.land byte1 8))
               (MessageType_of (Z.land byte1 4))
               0)
  | _ => None
  end.

Definition serialize (h : t) : bytes :=
  [ byte_of (channelId h);
    byte_of (Z.lor (Z.lor (FrameType_val (frameType h))
                          (EncryptionType_val (encryptionType h)))
                   (MessageType_val (messageType h))) ].

Definition sizeFieldLength (type : FrameType) : nat :=
  if decide (type = First) then 6%nat else 2%nat.

Definition set_total (h : t) (n : Z) : t :=
  mk (channelId h) (frameType h) (encryptionType h) (messageType h) n.

Lemma serialize_length h : length (serialize h) = 2%nat.
Proof. reflexivity. Qed.

(** Parsing what [serialize] wrote gives the header back, its size metadata
    apart, whatever follows in the buffer. *)
Lemma parse_serialize h rest :
  u8 (channelId h) -> parse (serialize h ++ rest) = Some (set_total h 0).
Proof.
  destruct h as [ch ft et mt tot]. unfold u8. cbn [channelId]. intros Hch.
  unfold parse, serialize, set_total. cbn [app channelId frameType encryptionType messageType].
  rewrite !bval_byte_of, Z.mod_small by lia.
  by destruct ft, et, mt.
Qed.

(** The byte-level converse holds on the bits the protocol defines. *)
Lemma serialize_parse b0 b1 h :
  parse [b0; b1] = Some h ->
  serialize h = [b0; byte_of (Z.land (bval b1) 15)].
Proof.
  cbn. intros [= <-]. unfold serialize.
  cbn [channelId frameType encryptionType messageType].
  rewrite byte_of_bval. by destruct b1.
Qed.

End FrameHeader.

#[export] Hint Rewrite FrameHeader.serialize_length : prodigy_len.

(** * FrameSerializer *)
Module FrameSerializer.

Definition FRAME_MAX_PAYLOAD : Z := 16384.

(** [buildFrame]: header, size field (extended on FIRST), payload. The
    [uint16_t] and [uint32_t] casts are the truncation of [be16], [be32]. *)
Definition buildFrame (header : FrameHeader.t) (payload : bytes)
    (totalSize : Z) : bytes :=
  FrameHeader.serialize header
  ++ (if decide (FrameHeader.frameType header = First)
      then be16 (blen payload) ++ be32 totalSize
      else be16 (blen payload))
  ++ payload.

(** [mid] at the code's offsets: [payload.mid(offset, FRAME_MAX_PAYLOAD)]. *)
Definition chunk (payload : bytes) (offset : Z) : bytes :=
  mid payload (Z.to_nat offset) (Z.to_nat FRAME_MAX_PAYLOAD).

(** The [while] loop over the MIDDLE frames; [None] is running out of fuel.
    Returns the frames and the offset of the LAST frame. *)
Fixpoint middleFrames (fuel : nat) (header : FrameHeader.t) (payload : bytes)
    (totalSize offset : Z) : option (list bytes * Z) :=
  if FRAME_MAX_PAYLOAD <? totalSize - offset then
    match fuel with
    | O => None
    | S fuel' =>
        r ← middleFrames fuel' header payload totalSize
              (offset + FRAME_MAX_PAYLOAD);
        Some (buildFrame header (chunk payload offset) (-1) :: r.1, r.2)
    end
  else Some ([], offset).

Definition serialize (channelId : Z) (msgType : MessageType)
    (encType : EncryptionType) (payload : bytes) : option (list bytes) :=
  let hdr ft := FrameHeader.mk channelId ft encType msgType 0 in
  if blen payload <=? FRAME_MAX_PAYLOAD then
    Some [buildFrame (hdr Bulk) payload (-1)]
  else
    let totalSize := blen payload in
    let first := buildFrame (hdr First) (chunk payload 0) totalSize in
    r ← middleFrames (length payload) (hdr Middle) payload totalSize
          FRAME_MAX_PAYLOAD;
    let last := buildFrame (hdr Last) (drop (Z.to_nat r.2) payload) (-1) in
    Some (first :: r.1 ++ [last]).

(** ** The frames as header/payload pairs

    A receiver sees a sequence of (header, payload) pairs; [encodeFrame]
    is the byte string of one pair. *)
Definition frame : Type := FrameHeader.t * bytes.

Definition encodeFrame (f : frame) : bytes :=
  buildFrame f.1 f.2 (FrameHeader.totalMessageSize f.1).

(** What a correct fragmentation of a message is: one BULK frame, or FIRST
    (with the total), full MIDDLE frames and a non-empty LAST whose payloads
    concatenate to the message. *)
Inductive fragmentation (ch : Z) (mt : MessageType) (et : EncryptionType)
    (payload : bytes) : list frame -> Prop :=
| frag_bulk :
    blen payload <= FRAME_MAX_PAYLOAD ->
    fragmentation ch mt et payload
      [(FrameHeader.mk ch Bulk et mt 0, payload)]
| frag_multi c0 cs cl :
    payload = c0 ++ concat cs ++ cl ->
    blen c0 = FRAME_MAX_PAYLOAD ->
    Forall (fun c => blen c = FRAME_MAX_PAYLOAD) cs ->
    0 < blen cl <= FRAME_MAX_PAYLOAD ->
    fragmentation ch mt et payload
      ((FrameHeader.mk ch First et mt (blen payload), c0)
       :: map (pair (FrameHeader.mk ch Middle et mt 0)) cs
       ++ [(FrameHeader.mk ch Last et mt 0, cl)]).

(** Enough fuel for every loop of [serialize]: each turn consumes
    [FRAME_MAX_PAYLOAD] bytes of the payload. *)
Lemma middleFrames_total fuel hdr payload total offset :
  0 <= offset -> total - offset <= Z.of_nat fuel * FRAME_MAX_PAYLOAD ->
  is_Some (middleFrames fuel hdr payload total offset).
Proof.
  revert offset; induction fuel as [|fuel IH]; intros offset Ho Hf.
  - simpl. destruct (Z.ltb_spec FRAME_MAX_PAYLOAD (total - offset)); [|eauto].
    unfold FRAME_MAX_PAYLOAD in *; lia.
  - simpl. destruct (Z.ltb_spec FRAME_MAX_PAYLOAD (total - offset)); [|eauto].
    destruct (IH (offset + FRAME_MAX_PAYLOAD)) as [r Hr];
      [unfold FRAME_MAX_PAYLOAD in *; lia..|].
    rewrite Hr. simpl. eauto.
Qed.

Lemma serialize_total ch mt et payload :
  is_Some (serialize ch mt et payload).
Proof.
  unfold serialize.
  destruct (Z.leb_spec (blen payload) FRAME_MAX_PAYLOAD); [eauto|].
  destruct (middleFrames_total (length payload)
              (FrameHeader.mk ch Middle et mt 0) payload
              (blen payload) FRAME_MAX_PAYLOAD) as [r Hr];
    [unfold blen, FRAME_MAX_PAYLOAD in *; lia..|].
  rewrite Hr. simpl. eauto.
Qed.

Lemma chunk_full payload offset :
  0 <= offset -> FRAME_MAX_PAYLOAD < blen payload - offset ->
  blen (chunk payload offset) = FRAME_MAX_PAYLOAD
  /\ drop (Z.to_nat offset) payload
     = chunk payload offset
       ++ drop (Z.to_nat (offset + FRAME_MAX_PAYLOAD)) payload.
Proof.
  intros Ho Hl. unfold chunk, mid, blen in *. unfold FRAME_MAX_PAYLOAD in *.
  split.
  - rewrite length_take, length_drop. lia.
  - rewrite Z2Nat.inj_add, <- drop_drop by lia. by rewrite take_drop.
Qed.

Lemma middleFrames_spec fuel hdr payload offset fs off' :
  0 <= offset < blen payload ->
  middleFrames fuel hdr payload (blen payload) offset = Some (fs, off') ->
  exists cs,
    fs = map (fun c => buildFrame hdr c (-1)) cs
    /\ drop (Z.to_nat offset) payload
       = concat cs ++ drop (Z.to_nat off') payload
    /\ Forall (fun c => blen c = FRAME_MAX_PAYLOAD) cs
    /\ 0 <= off' < blen payload
    /\ blen payload - off' <= FRAME_MAX_PAYLOAD.
Proof.
  revert offset fs; induction fuel as [|fuel IH]; intros offset fs Ho Hm;
    simpl in Hm;
    destruct (Z.ltb_spec FRAME_MAX_PAYLOAD (blen payload - offset)) as [Hlt|Hge];
    simplify_eq.
  - exists []. simpl. repeat split; auto; lia.
  - destruct (middleFrames fuel _ _ _ _) as [[fs1 o1]|] eqn:E; simplify_eq/=.
    destruct (IH (offset + FRAME_MAX_PAYLOAD) fs1) as (cs & -> & Hd & Hf & Ho' & Hr);
      [unfold FRAME_MAX_PAYLOAD in *; lia|done|].
    destruct (chunk_full payload offset) as [Hc1 Hc2]; [lia..|].
    exists (chunk payload offset :: cs). simpl.
    rewrite Hc2, Hd, (assoc_L (++)). repeat split; auto; lia.
  - exists []. simpl. repeat split; auto; lia.
Qed.

(** The total is written on FIRST only. *)
Lemma buildFrame_total h p n :
  FrameHeader.frameType h <> First ->
  buildFrame h p n = encodeFrame (h, p).
Proof.
  intros Hf. unfold encodeFrame, buildFrame. cbn [fst snd].
  by destruct (decide (FrameHeader.frameType h = First)).
Qed.

Lemma middle_not_first : Middle <> First.
Proof. discriminate. Qed.

#[local] Opaque chunk.

(** [serialize] always returns, and returns the encoding of a correct
    fragmentation of its payload. *)
Lemma serialize_fragmentation ch mt et payload :
  exists fs, serialize ch mt et payload = Some (map encodeFrame fs)
             /\ fragmentation ch mt et payload fs.
Proof.
  destruct (serialize_total ch mt et payload) as [frames Hs].
  unfold serialize in *.
  destruct (Z.leb_spec (blen payload) FRAME_MAX_PAYLOAD) as [Hle|Hgt].
  - eexists. split; [|by apply frag_bulk].
    rewrite buildFrame_total by discriminate. done.
  - destruct (middleFrames _ _ _ _ _) as [[fs off']|] eqn:E; [|done].
    destruct (middleFrames_spec (length payload)
                (FrameHeader.mk ch Middle et mt 0) payload
                FRAME_MAX_PAYLOAD fs off')
      as (cs & -> & Hd & Hf & Ho' & Hr);
      [unfold FRAME_MAX_PAYLOAD in *; lia|done|].
    destruct (chunk_full payload 0) as [Hc1 Hc2]; [lia..|].
    rewrite Z.add_0_l in Hc2. change (drop (Z.to_nat 0) payload) with payload in Hc2.
    eexists. split; [|apply (frag_multi ch mt et payload (chunk payload 0) cs
                               (drop (Z.to_nat off') payload)); auto].
    + cbn [mbind option_bind fst snd map]. rewrite map_app, map_map.
      cbn [map].
      rewrite (buildFrame_total (FrameHeader.mk ch Last et mt 0))
        by (cbn; discriminate).
      by rewrite (map_ext _ _ (fun c => buildFrame_total
                    (FrameHeader.mk ch Middle et mt 0) c (-1) middle_not_first)).
    + rewrite Hc2 at 1. f_equal. rewrite Hd. reflexivity.
    + unfold blen in *. rewrite length_drop. lia.
Qed.

End FrameSerializer.
