(* ===== verification/Ring.v ===== *)
(** The receive buffer of the transport: a growing circular byte buffer, and
    the byte-queue interface it offers the frame parser.

    Source: libs/prodigy-oaa-protocol, Messenger/CircularBuffer.hpp. *)

From S2P Require Import Prelude.

#[local] Open Scope nat_scope.

(** * The interface

    What a client of the buffer relies on: a representation predicate that
    relates a buffer to the sequence of unread bytes, and one law for each
    operation. [bq_append] is partial because growing the buffer may fail to
    terminate; the law promises that it does terminate on a represented
    queue. *)
Class ByteQueue (Q : Type) := {
  bq_empty : Q;
  bq_append : Q -> bytes -> option Q;
  bq_available : Q -> nat;
  bq_peek : Q -> nat -> bytes;
  bq_consume : Q -> nat -> Q;
  bq_clear : Q -> Q;
  bq_repr : Q -> bytes -> Prop;
  bq_empty_repr : bq_repr bq_empty [];
  bq_append_repr q l src :
    bq_repr q l -> exists q', bq_append q src = Some q' /\ bq_repr q' (l ++ src);
  bq_available_repr q l : bq_repr q l -> bq_available q = length l;
  bq_peek_repr q l n : bq_repr q l -> n <= length l -> bq_peek q n = take n l;
  bq_consume_repr q l n :
    bq_repr q l -> n <= length l -> bq_repr (bq_consume q n) (drop n l);
  bq_clear_repr q l : bq_repr q l -> bq_repr (bq_clear q) []
}.

(** The reference implementation: the unread bytes themselves. *)
#[export] Program Instance list_ByteQueue : ByteQueue bytes := {|
  bq_empty := [];
  bq_append l src := Some (l ++ src);
  bq_available := length;
  bq_peek l n := take n l;
  bq_consume l n := drop n l;
  bq_clear _ := [];
  bq_repr q l := q = l
|}.
Solve Obligations with (simpl; intros; subst; eauto).

(** * CircularBuffer *)
Module CircularBuffer.

Record t := mk {
  m_data : bytes;
  m_capacity : nat;
  m_readPos : nat;
  m_writePos : nat;
  m_size : nat
}.

Definition create (initialCapacity : nat) : t :=
  mk (replicate initialCapacity Byte.x00) initialCapacity 0 0 0.

(** [while (newCapacity < minCapacity) newCapacity *= 2;] *)
Fixpoint growCapacity (fuel newCapacity minCapacity : nat) : option nat :=
  if decide (newCapacity < minCapacity) then
    match fuel with
    | O => None
    | S fuel' => growCapacity fuel' (newCapacity * 2) minCapacity
    end
  else Some newCapacity.

Definition grow (b : t) (minCapacity : nat) : option t :=
  newCapacity ← growCapacity minCapacity (m_capacity b) minCapacity;
  let newData := replicate newCapacity Byte.x00 in
  let newData :=
    if decide (0 < m_size b) then
      let firstChunk := Nat.min (m_size b) (m_capacity b - m_readPos b) in
      let d := memcpy newData 0 (mid (m_data b) (m_readPos b) firstChunk) in
      if decide (firstChunk < m_size b) then
        memcpy d firstChunk (mid (m_data b) 0 (m_size b - firstChunk))
      else d
    else newData in
  Some (mk newData newCapacity 0 (m_size b) (m_size b)).

(** The part of [append] after the growth test. *)
Definition appendNoGrow (b : t) (src : bytes) : t :=
  let len := length src in
  let firstChunk := Nat.min len (m_capacity b - m_writePos b) in
  let d := memcpy (m_data b) (m_writePos b) (take firstChunk src) in
  let d := if decide (firstChunk < len)
           then memcpy d 0 (drop firstChunk src) else d in
  mk d (m_capacity b) (m_readPos b)
     ((m_writePos b + len) mod m_capacity b) (m_size b + len).

Definition append (b : t) (src : bytes) : option t :=
  let len := length src in
  if decide (len = 0) then Some b
  else
    b ← (if decide (m_capacity b < m_size b + len)
         then grow b (m_size b + len) else Some b);
    Some (appendNoGrow b src).

Definition available (b : t) : nat := m_size b.

Definition clear (b : t) : t := mk (m_data b) (m_capacity b) 0 0 0.

(** [peek]: the assertion is compiled out of release builds, the [min]
    after it stays. *)
Definition peek (b : t) (len : nat) : bytes :=
  let len := Nat.min len (m_size b) in
  let firstChunk := Nat.min len (m_capacity b - m_readPos b) in
  mid (m_data b) (m_readPos b) firstChunk
  ++ (if decide (firstChunk < len) then mid (m_data b) 0 (len - firstChunk)
      else []).

(** [readPtr]: offset of the first unread byte ([None] for [nullptr]) and
    the number of contiguous bytes there. *)
Definition readPtr (b : t) : option nat * nat :=
  if decide (m_size b = 0) then (None, 0)
  else (Some (m_readPos b), Nat.min (m_size b) (m_capacity b - m_readPos b)).

Definition consume (b : t) (len : nat) : t :=
  let len := Nat.min len (m_size b) in
  let readPos := (m_readPos b + len) mod m_capacity b in
  let size := m_size b - len in
  if decide (size = 0) then mk (m_data b) (m_capacity b) 0 0 size
  else mk (m_data b) (m_capacity b) readPos (m_writePos b) size.

(** ** Invariant and abstraction *)

Record wf (b : t) : Prop := {
  wf_capacity : 0 < m_capacity b;
  wf_data : length (m_data b) = m_capacity b;
  wf_read : m_readPos b < m_capacity b;
  wf_size : m_size b <= m_capacity b;
  wf_write : m_writePos b = (m_readPos b + m_size b) mod m_capacity b
}.

(** Byte [i] of the unread bytes. *)
Definition repr (b : t) (l : bytes) : Prop :=
  wf b /\ length l = m_size b /\
  forall i, i < m_size b ->
    l !! i = m_data b !! ((m_readPos b + i) mod m_capacity b).

Ltac wrap_simpl := rewrite ?mod_wrap in * by lia; repeat case_decide; try lia.

(** Doubling reaches any bound within [minCapacity] turns... *)
Lemma growCapacity_total fuel c m :
  0 < c -> m <= fuel + c ->
  exists c', growCapacity fuel c m = Some c' /\ m <= c' /\ c <= c'.
Proof.
  revert c; induction fuel as [|fuel IH]; intros c Hc Hm; simpl; case_decide;
    try lia; try (eexists; split; [reflexivity|lia]).
  destruct (IH (c * 2)) as (c' & -> & ? & ?); [lia..|]. eauto with lia.
Qed.

(** ... except from a capacity of zero, where the loop never ends. *)
Lemma growCapacity_zero fuel m : 0 < m -> growCapacity fuel 0 m = None.
Proof. intros Hm. induction fuel as [|fuel IH]; simpl; case_decide; auto; lia. Qed.

Lemma grow_repr b l m :
  repr b l -> m_size b < m ->
  exists b', grow b m = Some b' /\ repr b' l /\ m <= m_capacity b'
             /\ m_size b' = m_size b.
Proof.
  intros [[Hc Hd Hr Hs Hw] [Hl Hi]] Hm. unfold grow.
  destruct (growCapacity_total m (m_capacity b) m) as (c' & -> & Hc1 & Hc2);
    [lia..|].
  simpl. eexists. split; [reflexivity|].
  set (fc := Nat.min (m_size b) (m_capacity b - m_readPos b)).
  assert (Hm1 : length (mid (m_data b) (m_readPos b) fc) = fc)
    by (apply mid_length; lia).
  assert (Hm2 : length (mid (m_data b) 0 (m_size b - fc)) = m_size b - fc)
    by (apply mid_length; lia).
  assert (Hrep : length (replicate c' Byte.x00) = c') by apply length_replicate.
  assert (Hcp : length (memcpy (replicate c' Byte.x00) 0
                          (mid (m_data b) (m_readPos b) fc)) = c')
    by (rewrite memcpy_length; lia).
  repeat split; simpl; try lia.
  - repeat case_decide; rewrite ?memcpy_length; lia.
  - rewrite Nat.mod_small; lia.
  - intros i Hlt. rewrite Hi by done. rewrite (Nat.mod_small i) by lia.
    rewrite mod_wrap by lia.
    rewrite (decide_True (P := 0 < m_size b)) by lia.
    destruct (decide (fc < m_size b)).
    + rewrite lookup_memcpy by lia. rewrite Hm2.
      repeat case_decide; try lia.
      * rewrite lookup_memcpy by lia. rewrite decide_True by lia.
        rewrite lookup_mid by lia. f_equal. lia.
      * rewrite lookup_mid by lia. f_equal. lia.
    + rewrite lookup_memcpy by lia. rewrite decide_True by lia.
      rewrite lookup_mid by lia. case_decide; f_equal; lia.
Qed.

Lemma appendNoGrow_repr b l src :
  repr b l -> m_size b + length src <= m_capacity b ->
  repr (appendNoGrow b src) (l ++ src).
Proof.
  intros [[Hc Hd Hr Hs Hw] [Hl Hi]] Hfit. unfold appendNoGrow.
  rewrite mod_wrap in Hw by lia.
  set (fc := Nat.min (length src) (m_capacity b - m_writePos b)).
  assert (Hwp : m_writePos b < m_capacity b) by (case_decide; lia).
  assert (Hl1 : length (take fc src) = fc) by (rewrite length_take; lia).
  assert (Hl2 : length (drop fc src) = length src - fc) by apply length_drop.
  assert (Hcp : length (memcpy (m_data b) (m_writePos b) (take fc src))
                = m_capacity b) by (rewrite memcpy_length; lia).
  repeat split; simpl; try lia.
  - destruct (decide (fc < length src)); [rewrite memcpy_length by lia|]; exact Hcp.
  - rewrite !mod_wrap by lia. repeat case_decide; lia.
  - rewrite length_app. lia.
  - intros i Hlt. rewrite lookup_app_dec, Hl.
    pose proof (mod_wrap (m_readPos b) i (m_capacity b) ltac:(lia) ltac:(lia))
      as Hp.
    destruct (decide (i < m_size b)) as [Hold|Hnew];
      [rewrite Hi by done|];
      remember ((m_readPos b + i) mod m_capacity b) as p eqn:Ep; clear Ep;
      repeat case_decide; rewrite ?(lookup_memcpy (memcpy _ _ _)) by lia;
      rewrite ?Hl2; repeat case_decide; try lia;
      rewrite ?lookup_memcpy by lia; repeat case_decide; try lia;
      rewrite ?lookup_take_lt, ?lookup_drop by lia; f_equal; lia.
Qed.

Lemma append_repr b l src :
  repr b l -> exists b', append b src = Some b' /\ repr b' (l ++ src).
Proof.
  intros Hr. unfold append.
  destruct (decide (length src = 0)) as [H0|H0].
  - apply nil_length_inv in H0 as ->. rewrite app_nil_r. eauto.
  - destruct (decide (m_capacity b < m_size b + length src)).
    + destruct (grow_repr b l (m_size b + length src)) as (b' & -> & Hr' & ? & ?);
        [done|lia|].
      simpl. eexists. split; [reflexivity|]. apply appendNoGrow_repr; [done|lia].
    + simpl. eexists. split; [reflexivity|]. apply appendNoGrow_repr; [done|lia].
Qed.

Lemma available_repr b l : repr b l -> available b = length l.
Proof. intros (_ & Hl & _). by rewrite Hl. Qed.

Lemma peek_repr b l n : repr b l -> n <= length l -> peek b n = take n l.
Proof.
  intros [[Hc Hd Hr Hs Hw] [Hl Hi]] Hn. unfold peek. rewrite (Nat.min_l n) by lia.
  set (fc := Nat.min n (m_capacity b - m_readPos b)).
  assert (Hm1 : length (mid (m_data b) (m_readPos b) fc) = fc)
    by (apply mid_length; lia).
  apply list_eq. intros i. rewrite lookup_app_dec, Hm1.
  destruct (decide (i < n)) as [Hin|Hout].
  - rewrite lookup_take_lt, Hi, mod_wrap by lia.
    destruct (decide (i < fc)).
    + rewrite lookup_mid, decide_True by lia. done.
    + rewrite (decide_True (P := fc < n)) by lia.
      rewrite lookup_mid, decide_False by lia. f_equal. lia.
  - rewrite lookup_take_ge by lia. rewrite decide_False by lia.
    case_decide; [|done].
    apply lookup_ge_None_2. rewrite mid_length; lia.
Qed.

Lemma consume_repr b l n :
  repr b l -> n <= length l -> repr (consume b n) (drop n l).
Proof.
  intros [[Hc Hd Hr Hs Hw] [Hl Hi]] Hn. unfold consume.
  rewrite (Nat.min_l n) by lia.
  destruct (decide (m_size b - n = 0)) as [H0|H0].
  - repeat split; simpl; rewrite ?length_drop; try lia.
    by rewrite H0, Nat.mod_small by lia.
  - rewrite mod_wrap in Hw by lia.
    pose proof (mod_wrap (m_readPos b) n (m_capacity b) ltac:(lia) ltac:(lia))
      as Hp.
    remember ((m_readPos b + n) mod m_capacity b) as p eqn:Ep; clear Ep.
    assert (p < m_capacity b) by (repeat case_decide; lia).
    repeat split; simpl; rewrite ?length_drop; try lia.
    + rewrite mod_wrap by lia. repeat case_decide; lia.
    + intros i Hlt. rewrite lookup_drop, Hi by lia. f_equal.
      rewrite !mod_wrap by lia. repeat case_decide; lia.
Qed.

Lemma clear_repr b l : repr b l -> repr (clear b) [].
Proof.
  intros [[Hc Hd Hr Hs Hw] _]. repeat split; simpl; try lia.
  by rewrite Nat.mod_small.
Qed.

Lemma create_repr n : 0 < n -> repr (create n) [].
Proof.
  intros Hn. repeat split; simpl; rewrite ?length_replicate; try lia.
  by rewrite Nat.mod_small.
Qed.

(** The contiguous run [readPtr] offers is a prefix of the unread bytes,
    empty only when the buffer is. *)
Lemma readPtr_repr b l :
  repr b l ->
  match readPtr b with
  | (None, n) => n = 0 /\ l = []
  | (Some p, n) => 0 < n <= length l /\ mid (m_data b) p n = take n l
  end.
Proof.
  intros Hrep. pose proof Hrep as [[Hc Hd Hr Hs Hw] [Hl Hi]]. unfold readPtr.
  case_decide as H0.
  - split; [done|]. apply nil_length_inv. lia.
  - set (fc := Nat.min (m_size b) (m_capacity b - m_readPos b)).
    split; [lia|]. rewrite <- (peek_repr b l fc) by (done || lia).
    unfold peek. rewrite (Nat.min_l fc) by lia. rewrite (Nat.min_l fc) by lia.
    rewrite decide_False by lia. by rewrite app_nil_r.
Qed.

End CircularBuffer.

(** The circular buffer implements the byte queue, created with the capacity
    of [FrameParser]'s member ([m_buffer{65536}]). *)
Lemma CircularBuffer_initial : (0 < Z.to_nat 65536)%nat.
Proof. lia. Qed.

#[export] Instance CircularBuffer_ByteQueue
  : ByteQueue CircularBuffer.t := {|
  bq_empty := CircularBuffer.create (Z.to_nat 65536);
  bq_append := CircularBuffer.append;
  bq_available := CircularBuffer.available;
  bq_peek := CircularBuffer.peek;
  bq_consume := CircularBuffer.consume;
  bq_clear := CircularBuffer.clear;
  bq_repr := CircularBuffer.repr;
  bq_empty_repr := CircularBuffer.create_repr _ CircularBuffer_initial;
  bq_append_repr := CircularBuffer.append_repr;
  bq_available_repr := CircularBuffer.available_repr;
  bq_peek_repr := CircularBuffer.peek_repr;
  bq_consume_repr := CircularBuffer.consume_repr;
  bq_clear_repr := CircularBuffer.clear_repr
|}.
