(* ===== verification/FrameParser.v ===== *)
(** The incremental frame parser: a three-state machine over the receive
    buffer, fed with arbitrary chunks of the byte stream.

    Source: libs/prodigy-oaa-protocol, Messenger/FrameParser. The machine is
    written against the [ByteQueue] interface; the program's instance is the
    circular buffer, the reference instance the list of unread bytes. *)

From S2P Require Import Prelude Frames Ring.

Module FrameParser.
Import FrameSerializer.

Inductive State := ReadHeader | ReadSize | ReadPayload.

#[export] Instance State_eq_dec : EqDecision State.
Proof. solve_decision. Defined.

Record t (Q : Type) := mk {
  m_state : State;
  m_buffer : Q;
  m_currentHeader : FrameHeader.t;
  m_sizeFieldLength : nat;
  m_framePayloadSize : Z
}.
Arguments mk {Q}.
Arguments m_state {Q}.
Arguments m_buffer {Q}.
Arguments m_currentHeader {Q}.
Arguments m_sizeFieldLength {Q}.
Arguments m_framePayloadSize {Q}.

(** [FrameHeader{}]: value-initialised. *)
Definition emptyHeader : FrameHeader.t := FrameHeader.mk 0 Middle Plain Specific 0.

Section Parser.
Context {Q : Type} `{!ByteQueue Q}.

Definition create : t Q := mk ReadHeader bq_empty emptyHeader 0 0.

Definition reset (p : t Q) : t Q :=
  mk ReadHeader (bq_clear (m_buffer p)) emptyHeader 0 0.

(** One turn of the loop in [process]: [None] is the [return] of a state
    that lacks bytes, otherwise the new state and the frame emitted. *)
Definition step (p : t Q) : option (t Q * list frame) :=
  let avail := Z.of_nat (bq_available (m_buffer p)) in
  match m_state p with
  | ReadHeader =>
      if avail <? 2 then None
      else
        h ← FrameHeader.parse (bq_peek (m_buffer p) 2);
        Some (mk ReadSize (bq_consume (m_buffer p) 2) h
                 (FrameHeader.sizeFieldLength (FrameHeader.frameType h))
                 (m_framePayloadSize p), [])
  | ReadSize =>
      if avail <? Z.of_nat (m_sizeFieldLength p) then None
      else
        let sizeData := bq_peek (m_buffer p) (m_sizeFieldLength p) in
        let framePayloadSize := be_decode (take 2 sizeData) in
        let total :=
          if decide (FrameHeader.frameType (m_currentHeader p) = First)
          then be_decode (take 4 (drop 2 sizeData)) else 0 in
        Some (mk ReadPayload (bq_consume (m_buffer p) (m_sizeFieldLength p))
                 (FrameHeader.set_total (m_currentHeader p) total)
                 (m_sizeFieldLength p) framePayloadSize, [])
  | ReadPayload =>
      if avail <? m_framePayloadSize p then None
      else
        let n := Z.to_nat (m_framePayloadSize p) in
        let payload := bq_peek (m_buffer p) n in
        Some (mk ReadHeader (bq_consume (m_buffer p) n) (m_currentHeader p)
                 (m_sizeFieldLength p) (m_framePayloadSize p),
              [(m_currentHeader p, payload)])
  end.

(** [process]: the [while (true)] loop; [None] is running out of fuel. *)
Fixpoint process (fuel : nat) (p : t Q) : option (t Q * list frame) :=
  match step p with
  | None => Some (p, [])
  | Some (p', out) =>
      match fuel with
      | O => None
      | S fuel' => r ← process fuel' p'; Some (r.1, out ++ r.2)
      end
  end.

(** The turns [process] can take: every two of them consume bytes. *)
Definition processFuel (p : t Q) : nat := S (bq_available (m_buffer p)).

Definition onData (p : t Q) (data : bytes) : option (t Q * list frame) :=
  b ← bq_append (m_buffer p) data;
  let p := mk (m_state p) b (m_currentHeader p) (m_sizeFieldLength p)
              (m_framePayloadSize p) in
  process (processFuel p) p.

(** A sequence of [dataReceived] signals, with the frames emitted. *)
Fixpoint feed (p : t Q) (chunks : list bytes) : option (t Q * list frame) :=
  match chunks with
  | [] => Some (p, [])
  | c :: cs =>
      r ← onData p c;
      r' ← feed r.1 cs;
      Some (r'.1, r.2 ++ r'.2)
  end.
End Parser.

(** ** Refinement: any byte queue behaves as the list of its bytes *)

Record rel `{!ByteQueue Q} (p : t Q) (q : t bytes) : Prop := {
  rel_state : m_state p = m_state q;
  rel_buffer : bq_repr (m_buffer p) (m_buffer q);
  rel_header : m_currentHeader p = m_currentHeader q;
  rel_len : m_sizeFieldLength p = m_sizeFieldLength q;
  rel_size : m_framePayloadSize p = m_framePayloadSize q
}.

(** The payload size is never negative ([uint16_t]), and the length of the
    size field is the one of the current header while it is being read. *)
Definition wf {Q} (p : t Q) : Prop :=
  0 <= m_framePayloadSize p
  /\ (m_state p = ReadSize ->
      m_sizeFieldLength p
      = FrameHeader.sizeFieldLength (FrameHeader.frameType (m_currentHeader p))).

(** Both parsers stop without a result, or both return related states and
    the same frames. *)
Definition rel_res `{!ByteQueue Q} (x : option (t Q * list frame))
    (y : option (t bytes * list frame)) : Prop :=
  match x, y with
  | Some (p, o), Some (q, o') => rel p q /\ wf q /\ o = o'
  | None, None => True
  | _, _ => False
  end.

Section Refinement.
Context {Q : Type} `{!ByteQueue Q}.

Lemma step_rel (p : t Q) (q : t bytes) :
  rel p q -> wf q ->
  rel_res (step p) (step q).
Proof.
  intros [Hs Hb Hh Hl Hz] Hwf. unfold step, wf in *.
  rewrite Hs, Hh, Hl, Hz, (bq_available_repr _ _ Hb). simpl bq_available.
  destruct (m_state q).
  - destruct (Z.ltb_spec (Z.of_nat (length (m_buffer q))) 2); [done|].
    rewrite (bq_peek_repr _ _ 2 Hb) by lia. simpl bq_peek.
    destruct (FrameHeader.parse _) as [h|]; simpl; [|done].
    repeat split; simpl; try tauto. by apply bq_consume_repr; [|lia].
  - destruct (Z.ltb_spec (Z.of_nat (length (m_buffer q)))
                (Z.of_nat (m_sizeFieldLength q))); [done|].
    rewrite (bq_peek_repr _ _ (m_sizeFieldLength q) Hb) by lia. simpl bq_peek.
    repeat split; simpl; auto; [by apply bq_consume_repr; [|lia]| |done].
    apply be_decode_bound.
  - destruct (Z.ltb_spec (Z.of_nat (length (m_buffer q)))
                (m_framePayloadSize q)); [done|].
    rewrite (bq_peek_repr _ _ (Z.to_nat (m_framePayloadSize q)) Hb) by lia.
    repeat split; simpl; auto; try tauto; [|done].
    by apply bq_consume_repr; [|lia].
Qed.

Lemma process_rel fuel (p : t Q) (q : t bytes) :
  rel p q -> wf q ->
  rel_res (process fuel p) (process fuel q).
Proof.
  revert p q; induction fuel as [|fuel IH]; intros p q Hr Hwf; simpl;
    pose proof (step_rel p q Hr Hwf) as Hst;
    destruct (step p) as [[p1 o1]|], (step q) as [[q1 o2]|]; try done.
  destruct Hst as (Hr1 & Hwf1 & ->). specialize (IH p1 q1 Hr1 Hwf1).
  destruct (process fuel p1) as [[p2 o3]|], (process fuel q1) as [[q2 o4]|];
    try done. simpl. destruct IH as (? & ? & ->). auto.
Qed.

Lemma onData_rel (p : t Q) (q : t bytes) data :
  rel p q -> wf q ->
  rel_res (onData p data) (onData q data).
Proof.
  intros [Hs Hb Hh Hl Hz] Hwf. unfold onData.
  destruct (bq_append_repr _ _ data Hb) as (b' & -> & Hb').
  cbn [mbind option_bind bq_append list_ByteQueue].
  unfold processFuel. cbn [m_buffer]. rewrite (bq_available_repr _ _ Hb').
  apply process_rel; [|done]. by constructor.
Qed.

Lemma feed_rel chunks (p : t Q) (q : t bytes) :
  rel p q -> wf q ->
  rel_res (feed p chunks) (feed q chunks).
Proof.
  revert p q; induction chunks as [|c cs IH]; intros p q Hr Hwf; [simpl; auto|].
  cbn [feed]. pose proof (onData_rel p q c Hr Hwf) as Ho.
  destruct (onData p c) as [[p1 o1]|], (onData q c) as [[q1 o2]|]; try done.
  destruct Ho as (Hr1 & Hwf1 & ->). specialize (IH p1 q1 Hr1 Hwf1). simpl.
  destruct (feed p1 cs) as [[p2 o3]|], (feed q1 cs) as [[q2 o4]|];
    try done. simpl. destruct IH as (? & ? & ->). auto.
Qed.

Lemma create_rel : rel (create : t Q) (create : t bytes).
Proof. constructor; simpl; auto. apply bq_empty_repr. Qed.
End Refinement.

(** ** The reference parser on lists *)

Definition extend (q : t bytes) (more : bytes) : t bytes :=
  mk (m_state q) (m_buffer q ++ more) (m_currentHeader q)
     (m_sizeFieldLength q) (m_framePayloadSize q).

(** [Run q o q']: the loop started at [q] emits [o] and returns in [q']. *)
Inductive Run : t bytes -> list frame -> t bytes -> Prop :=
| Run_stop q : step q = None -> Run q [] q
| Run_step q q1 q2 o o' :
    step q = Some (q1, o) -> Run q1 o' q2 -> Run q (o ++ o') q2.

Lemma step_wf (q q' : t bytes) o : wf q -> step q = Some (q', o) -> wf q'.
Proof.
  intros Hwf Hs. pose proof (step_rel q q ltac:(by constructor) Hwf) as Hr.
  rewrite Hs in Hr. apply Hr.
Qed.

(** More input never disturbs a turn that the bytes at hand allow. *)
Lemma step_extend (q q' : t bytes) o more :
  wf q -> step q = Some (q', o) ->
  step (extend q more) = Some (extend q' more, o).
Proof.
  intros [Hz Hlen] Hs. unfold step in *. destruct q as [st l h n z].
  cbn [m_state m_buffer m_currentHeader m_sizeFieldLength m_framePayloadSize
       extend bq_available bq_peek bq_consume list_ByteQueue] in *.
  rewrite length_app, Nat2Z.inj_add.
  destruct st.
  - destruct (Z.ltb_spec (Z.of_nat (length l)) 2); [done|].
    destruct (Z.ltb_spec (Z.of_nat (length l) + Z.of_nat (length more)) 2); [lia|].
    rewrite take_app_le, drop_app_le by lia.
    destruct (FrameHeader.parse _); simplify_eq/=; done.
  - destruct (Z.ltb_spec (Z.of_nat (length l)) (Z.of_nat n)); [done|].
    destruct (Z.ltb_spec (Z.of_nat (length l) + Z.of_nat (length more))
                (Z.of_nat n)); [lia|].
    rewrite take_app_le, drop_app_le by lia. by simplify_eq/=.
  - destruct (Z.ltb_spec (Z.of_nat (length l)) z); [done|].
    destruct (Z.ltb_spec (Z.of_nat (length l) + Z.of_nat (length more)) z); [lia|].
    rewrite take_app_le, drop_app_le by lia. by simplify_eq/=.
Qed.

(** The measure of the loop: unread bytes, plus one while a payload (that
    may be empty) is still to be emitted. *)
Definition measure (q : t bytes) : nat :=
  (length (m_buffer q) + if decide (m_state q = ReadPayload) then 1 else 0)%nat.

Lemma step_measure (q q' : t bytes) o :
  wf q -> step q = Some (q', o) -> (measure q' < measure q)%nat.
Proof.
  intros [Hz Hlen] Hs. unfold step, measure in *. destruct q as [st l h n z].
  cbn [m_state m_buffer m_currentHeader m_sizeFieldLength m_framePayloadSize
       bq_available bq_peek bq_consume list_ByteQueue] in *.
  destruct st; split_matches_in Hs; simplify_eq/=; breflect;
    rewrite ?length_drop; try lia.
  - destruct (FrameHeader.parse _); simplify_eq/=. rewrite length_drop. lia.
  - specialize (Hlen eq_refl). subst. unfold FrameHeader.sizeFieldLength in *.
    repeat case_decide; lia.
  - specialize (Hlen eq_refl). subst. unfold FrameHeader.sizeFieldLength in *.
    repeat case_decide; lia.
Qed.

(** A turn emits at most one frame. *)
Lemma step_output (q q' : t bytes) o :
  step q = Some (q', o) -> o = [] \/ exists f, o = [f].
Proof.
  unfold step. intros Hs. destruct (m_state q); split_matches_in Hs;
    try (destruct (FrameHeader.parse _)); simplify_eq/=; eauto.
Qed.

Lemma Run_wf q o q' : Run q o q' -> wf q -> wf q'.
Proof. induction 1; eauto using step_wf. Qed.

Lemma Run_blocked q o q' : Run q o q' -> step q' = None.
Proof. by induction 1. Qed.

Lemma Run_det q o q' o' q'' : Run q o q' -> Run q o' q'' -> o = o' /\ q' = q''.
Proof.
  intros H; revert o' q''; induction H as [q Hs|q q1 q2 o1 o2 Hs _ IH];
    intros o' q''; inversion 1; subst; [done|congruence|congruence|].
  simplify_eq. destruct (IH _ _ ltac:(eassumption)) as [-> ->]. done.
Qed.

Lemma process_Run fuel q q' o : process fuel q = Some (q', o) -> Run q o q'.
Proof.
  revert q o; induction fuel as [|fuel IH]; intros q o Hp; simpl in Hp;
    destruct (step q) as [[q1 o1]|] eqn:Hs; simplify_eq;
    try by constructor.
  destruct (process fuel q1) as [[q2 o2]|] eqn:E; simplify_eq/=.
  eapply Run_step; eauto.
Qed.

(** The loop of [process] ends: the fuel [onData] passes is enough. *)
Lemma process_total fuel q :
  wf q -> (measure q <= fuel)%nat -> is_Some (process fuel q).
Proof.
  revert q; induction fuel as [|fuel IH]; intros q Hwf Hm; simpl;
    destruct (step q) as [[q1 o1]|] eqn:Hs; eauto;
    pose proof (step_measure _ _ _ Hwf Hs) as Hlt.
  - lia.
  - destruct (IH q1) as [r Hr]; [eauto using step_wf|lia|].
    rewrite Hr. simpl. eauto.
Qed.

Lemma Run_total q : wf q -> exists o q', Run q o q'.
Proof.
  intros Hwf. destruct (process_total (measure q) q) as [[q' o] Hp]; [done..|].
  eauto using process_Run.
Qed.

Lemma onData_Run q data :
  wf q -> exists q' o, onData q data = Some (q', o) /\ Run (extend q data) o q'.
Proof.
  intros Hwf. unfold onData. cbn [mbind option_bind bq_append list_ByteQueue].
  destruct (process_total (processFuel (extend q data)) (extend q data))
    as [[q' o] Hr]; [done| |].
  - unfold processFuel, measure. simpl. case_decide; lia.
  - exists q', o. split; [exact Hr|by eapply process_Run].
Qed.

Lemma Run_extend q o q' more o' q'' :
  wf q -> Run q o q' -> Run (extend q' more) o' q'' ->
  Run (extend q more) (o ++ o') q''.
Proof.
  intros Hwf H; revert Hwf; induction H as [q Hs|q q1 q2 o1 o2 Hs _ IH];
    intros Hwf Hr; [done|].
  rewrite <- (assoc_L (++)). eapply Run_step; [by apply step_extend|].
  eauto using step_wf.
Qed.

Lemma extend_app q a b : extend (extend q a) b = extend q (a ++ b).
Proof. unfold extend. simpl. by rewrite (assoc_L (++)). Qed.

Lemma extend_nil q : extend q [] = q.
Proof. unfold extend. rewrite app_nil_r. by destruct q. Qed.

(** The chunks do not matter: feeding them one by one is one run over their
    concatenation. *)
Lemma feed_Run q chunks :
  wf q -> step q = None ->
  exists q' o, feed q chunks = Some (q', o) /\ Run (extend q (concat chunks)) o q'.
Proof.
  revert q; induction chunks as [|c cs IH]; intros q Hwf Hb; cbn [feed concat].
  - exists q, []. rewrite extend_nil. split; [done|by constructor].
  - destruct (onData_Run q c Hwf) as (q1 & o1 & -> & Hr1).
    assert (Hwf1 : wf q1) by eauto using Run_wf.
    destruct (IH q1 Hwf1) as (q2 & o2 & Hf & Hr2);
      [eauto using Run_blocked|].
    cbn [mbind option_bind fst snd]. rewrite Hf. simpl.
    eexists _, _. split; [done|]. rewrite <- extend_app.
    eapply Run_extend; eauto.
Qed.

(** ** Parsing what the serializer wrote *)

(** A frame the wire format can carry. *)
Definition frame_wf (f : frame) : Prop :=
  u8 (FrameHeader.channelId f.1) /\ u16 (blen f.2)
  /\ (if decide (FrameHeader.frameType f.1 = First)
      then u32 (FrameHeader.totalMessageSize f.1)
      else FrameHeader.totalMessageSize f.1 = 0).

Lemma fragmentation_frame_wf ch mt et pl fs :
  u8 ch -> blen pl < 2 ^ 32 ->
  FrameSerializer.fragmentation ch mt et pl fs ->
  Forall frame_wf fs.
Proof.
  intros Hch Hpl Hfrag.
  assert (Hw : forall ft n c, blen c <= FrameSerializer.FRAME_MAX_PAYLOAD ->
            (if decide (ft = First) then u32 n else n = 0) ->
            frame_wf (FrameHeader.mk ch ft et mt n, c)).
  { intros ft n c Hc Hn. split_and!; simpl; [done| |done].
    pose proof (blen_nonneg c). unfold u16, FrameSerializer.FRAME_MAX_PAYLOAD in *.
    lia. }
  destruct Hfrag as [Hle|c0 cs cl -> Hc0 Hcs Hcl].
  - by apply Forall_singleton, Hw.
  - constructor; [apply Hw; [lia|]|apply Forall_app; split].
    + pose proof (blen_nonneg (c0 ++ concat cs ++ cl)). simpl. unfold u32. lia.
    + apply Forall_map. eapply Forall_impl; [exact Hcs|]. intros c Hc. cbn beta in Hc.
      apply Hw; [lia|done].
    + apply Forall_singleton, Hw; [lia|done].
Qed.

Lemma encodeFrame_split f :
  exists sz, encodeFrame f = FrameHeader.serialize f.1 ++ sz ++ f.2
    /\ length sz = FrameHeader.sizeFieldLength (FrameHeader.frameType f.1)
    /\ (frame_wf f ->
        be_decode (take 2 sz) = blen f.2
        /\ FrameHeader.totalMessageSize f.1
           = if decide (FrameHeader.frameType f.1 = First)
             then be_decode (take 4 (drop 2 sz)) else 0).
Proof.
  destruct f as [h payload]. unfold encodeFrame, buildFrame, frame_wf,
    FrameHeader.sizeFieldLength. cbn [fst snd].
  destruct (decide (FrameHeader.frameType h = First)).
  - exists (be16 (blen payload) ++ be32 (FrameHeader.totalMessageSize h)).
    rewrite length_app, be16_length, be32_length. split_and!; [done..|].
    intros (_ & Hs & Ht).
    rewrite take_app_le, take_ge by (rewrite be16_length; lia).
    rewrite drop_app_ge, be16_length by (rewrite be16_length; lia).
    rewrite drop_0, take_ge by (rewrite be32_length; lia).
    by rewrite be_decode_be16, be_decode_be32.
  - exists (be16 (blen payload)). rewrite be16_length. split_and!; [done..|].
    intros (_ & Hs & Ht). rewrite take_ge by (rewrite be16_length; lia).
    by rewrite be_decode_be16.
Qed.

Lemma step_header f rest h n z :
  frame_wf f ->
  step (mk ReadHeader (FrameHeader.serialize f.1 ++ rest) h n z)
  = Some (mk ReadSize rest (FrameHeader.set_total f.1 0)
             (FrameHeader.sizeFieldLength (FrameHeader.frameType f.1)) z, []).
Proof.
  intros (Hch & _). unfold step.
  cbn [m_state m_buffer m_currentHeader m_sizeFieldLength m_framePayloadSize
       bq_available bq_peek bq_consume list_ByteQueue].
  rewrite length_app, FrameHeader.serialize_length.
  destruct (Z.ltb_spec (Z.of_nat (2 + length rest)) 2); [lia|].
  rewrite take_app_le, take_ge, drop_app_ge by (rewrite FrameHeader.serialize_length; lia).
  rewrite <- (app_nil_r (FrameHeader.serialize f.1)) at 1.
  by rewrite FrameHeader.parse_serialize.
Qed.

Lemma Run_frame f rest q :
  frame_wf f -> m_state q = ReadHeader -> m_buffer q = encodeFrame f ++ rest ->
  exists q1, m_state q1 = ReadHeader /\ m_buffer q1 = rest /\ wf q1
    /\ forall o q', Run q1 o q' -> Run q (f :: o) q'.
Proof.
  intros Hf Hst Hb. destruct q as [st l h n z].
  cbn [m_state m_buffer] in *. subst st l.
  destruct (encodeFrame_split f) as (sz & -> & Hsl & Hsz).
  destruct (Hsz Hf) as [Hd Ht].
  destruct f as [fh payload]. cbn [fst snd] in *.
  exists (mk ReadHeader rest fh
            (FrameHeader.sizeFieldLength (FrameHeader.frameType fh)) (blen payload)).
  split_and!; [done..|by split; [apply blen_nonneg|]|]. intros o q' Hr.
  rewrite <- !(assoc_L (++)).
  change ((fh, payload) :: o) with ([] ++ [] ++ [(fh, payload)] ++ o).
  eapply Run_step; [by apply (step_header (fh, payload))|].
  eapply Run_step.
  { unfold step.
    cbn [m_state m_buffer m_currentHeader m_sizeFieldLength m_framePayloadSize
         bq_available bq_peek bq_consume list_ByteQueue fst snd FrameHeader.set_total
         FrameHeader.frameType].
    destruct (Z.ltb_spec (Z.of_nat (length (sz ++ payload ++ rest)))
                (Z.of_nat (FrameHeader.sizeFieldLength (FrameHeader.frameType fh))));
      [rewrite length_app in *; lia|].
    rewrite <- Hsl, take_app_length, drop_app_length, Hd.
    rewrite <- Ht. reflexivity. }
  eapply Run_step; [|exact Hr].
  unfold step.
  cbn [m_state m_buffer m_currentHeader m_sizeFieldLength m_framePayloadSize
       bq_available bq_peek bq_consume list_ByteQueue].
  unfold blen. rewrite Nat2Z.id.
  destruct (Z.ltb_spec (Z.of_nat (length (payload ++ rest)))
              (Z.of_nat (length payload))); [rewrite length_app in *; lia|].
  rewrite take_app_length, drop_app_length, Hsl.
  by destruct fh.
Qed.

Lemma Run_frames fs rest q o q' :
  Forall frame_wf fs -> m_state q = ReadHeader ->
  m_buffer q = concat (map encodeFrame fs) ++ rest ->
  Run q o q' ->
  exists q1 o1, o = fs ++ o1 /\ Run q1 o1 q'
    /\ m_state q1 = ReadHeader /\ m_buffer q1 = rest.
Proof.
  intros Hfs; revert q o; induction Hfs as [|f fs Hf _ IH]; intros q o Hst Hb Hr.
  - exists q, o. eauto.
  - simpl in Hb. rewrite <- (assoc_L (++)) in Hb.
    destruct (Run_frame f _ q Hf Hst Hb) as (q1 & Hst1 & Hb1 & Hwf1 & Hr1).
    destruct (Run_total q1 Hwf1) as (o2 & q2 & Hr2).
    destruct (Run_det _ _ _ _ _ Hr (Hr1 _ _ Hr2)) as [-> ->].
    destruct (IH q1 o2 Hst1 Hb1 Hr2) as (q3 & o3 & -> & ? & ? & ?).
    exists q3, o3. eauto.
Qed.

(** ** The component's contract, for the circular buffer *)

Definition initial : t CircularBuffer.t := create.

Lemma feed_circular chunks :
  exists p q o,
    feed initial chunks = Some (p, o)
    /\ rel p q /\ Run (extend create (concat chunks)) o q.
Proof.
  destruct (feed_Run create chunks) as (q & o & Hf & Hr); [done..|].
  pose proof (feed_rel chunks initial create create_rel ltac:(done)) as Hrel.
  rewrite Hf in Hrel. unfold rel_res in Hrel.
  destruct (feed initial chunks) as [[p o']|]; [|done].
  destruct Hrel as (Hrel & _ & ->). eauto 10.
Qed.

(** Frames in, the same frames out, on the circular buffer. *)
Lemma parser_roundtrip_run fs chunks :
  Forall frame_wf fs ->
  concat chunks = concat (map encodeFrame fs) ->
  exists p, feed initial chunks = Some (p, fs)
    /\ m_state p = ReadHeader /\ bq_available (m_buffer p) = 0%nat.
Proof.
  intros Hwf Heq.
  destruct (feed_circular chunks) as (p & q & o & Hf & Hrel & Hr).
  destruct (Run_frames fs [] (extend create
              (concat chunks)) o q Hwf) as (q1 & o1 & -> & Hr1 & Hst & Hb);
    [done|by rewrite app_nil_r, <- Heq|done|].
  assert (Hq1 : step q1 = None)
    by (unfold step; rewrite Hst, Hb; reflexivity).
  destruct (Run_det _ _ _ _ _ Hr1 (Run_stop _ Hq1))
    as [-> ->].
  rewrite app_nil_r in Hf. exists p. destruct Hrel as [Hs Hbuf _ _ _].
  split_and!; [done|congruence|].
  by rewrite (bq_available_repr _ _ Hbuf), Hb.
Qed.

End FrameParser.

(** C6. Chunking independence: however the transport slices the byte stream,
    the parser over the growing circular buffer returns (no slice makes its
    loop or the buffer's growth diverge), emits the same frames and keeps the
    same unread bytes and the same control state. *)
Theorem parser_chunking_irrelevant (chunks1 chunks2 : list bytes) :
  concat chunks1 = concat chunks2 ->
  exists p1 p2 q o,
    FrameParser.feed FrameParser.initial chunks1 = Some (p1, o)
    /\ FrameParser.feed FrameParser.initial chunks2 = Some (p2, o)
    /\ FrameParser.rel p1 q /\ FrameParser.rel p2 q.
Proof.
  intros Heq.
  destruct (FrameParser.feed_circular chunks1) as (p1 & q1 & o1 & H1 & R1 & S1).
  destruct (FrameParser.feed_circular chunks2) as (p2 & q2 & o2 & H2 & R2 & S2).
  rewrite Heq in S1. destruct (FrameParser.Run_det _ _ _ _ _ S1 S2) as [-> ->].
  eauto 10.
Qed.

(** C7. Parsing inverts framing: the frames of any well-formed sequence come
    back exactly, in order, from its wire bytes cut into any chunks, and the
    parser ends with an empty buffer, waiting for a header. *)
Theorem parser_roundtrip (fs : list FrameSerializer.frame) (chunks : list bytes) :
  Forall FrameParser.frame_wf fs ->
  concat chunks = concat (map FrameSerializer.encodeFrame fs) ->
  exists p,
    FrameParser.feed FrameParser.initial chunks = Some (p, fs)
    /\ FrameParser.m_state p = FrameParser.ReadHeader
    /\ bq_available (FrameParser.m_buffer p) = 0%nat.
Proof. apply FrameParser.parser_roundtrip_run. Qed.

(** A frame cut in two, and delivered whole. *)
Lemma parser_chunking_irrelevant_witness :
  exists p1 p2 q o,
    FrameParser.feed FrameParser.initial [[Byte.x00; Byte.x03; Byte.x00]; [Byte.x01; Byte.xff]]
      = Some (p1, o)
    /\ FrameParser.feed FrameParser.initial [[Byte.x00; Byte.x03; Byte.x00; Byte.x01; Byte.xff]]
      = Some (p2, o)
    /\ FrameParser.rel p1 q /\ FrameParser.rel p2 q.
Proof. apply parser_chunking_irrelevant. reflexivity. Defined.

Lemma parser_roundtrip_witness :
  exists p,
    FrameParser.feed FrameParser.initial
      [[Byte.x05; Byte.x0d; Byte.x00]; [Byte.x01; Byte.x00; Byte.x00; Byte.x00];
       [Byte.x02; Byte.xaa]]
    = Some (p, [(FrameHeader.mk 5 First Encrypted Control 2, [Byte.xaa])])
    /\ FrameParser.m_state p = FrameParser.ReadHeader
    /\ bq_available (FrameParser.m_buffer p) = 0%nat.
Proof.
  apply parser_roundtrip.
  - repeat constructor; vm_compute; discriminate || reflexivity.
  - vm_compute. reflexivity.
Defined.
