(* ===== verification/FrameAssembler.v ===== *)
(** Reassembly of fragmented messages, one partial message per channel, under
    a per-message and an aggregate byte budget.

    Source: libs/prodigy-oaa-protocol, Messenger/FrameAssembler and the limits
    of Version.hpp. *)

From S2P Require Import Prelude Frames.

Definition MAX_ASSEMBLED_MESSAGE_SIZE : Z := 16 * 1024 * 1024.
Definition MAX_IN_FLIGHT_ASSEMBLY_SIZE : Z := 32 * 1024 * 1024.

Module FrameAssembler.

Record PartialMessage := mkPartial {
  payload : bytes;
  declaredSize : Z;
  messageType : MessageType;
  encryptionType : EncryptionType
}.

Record t := mk {
  m_partials : gmap Z PartialMessage;
  m_reservedBytes : Z;
  m_maxMessageSize : Z;
  m_maxAggregateSize : Z
}.

(** The diagnostics [fail] is called with, one constructor per text. *)
Inductive AssemblyError :=
| BulkInterrupted (channelId : Z)
| TotalCannotContainId (channelId : Z)
| TotalNotLargerThanPayload (channelId : Z)
| TotalExceedsMessageLimit (channelId : Z)
| TotalExceedsAggregateBudget (channelId : Z)
| ContinuationWithoutFirst (channelId : Z)
| ContinuationFlagsDiffer (channelId : Z)
| MiddleReachesTotal (channelId : Z)
| LastNotAtTotal (channelId : Z).

(** The two signals. *)
Inductive Event :=
| messageAssembled (channelId : Z) (mt : MessageType) (message : bytes)
| assemblyFailed (e : AssemblyError).

Definition createWith (maxMessageSize maxAggregateSize : Z) : t :=
  mk ∅ 0 maxMessageSize maxAggregateSize.

Definition create : t :=
  createWith MAX_ASSEMBLED_MESSAGE_SIZE MAX_IN_FLIGHT_ASSEMBLY_SIZE.

Definition reset (a : t) : t :=
  mk ∅ 0 (m_maxMessageSize a) (m_maxAggregateSize a).

(** [uint64_t] subtraction wraps. *)
Definition u64_sub (x y : Z) : Z := (x - y) mod 2 ^ 64.

Definition release (a : t) (channelId : Z) : t :=
  match m_partials a !! channelId with
  | None => a
  | Some it =>
      mk (delete channelId (m_partials a))
         (u64_sub (m_reservedBytes a) (declaredSize it))
         (m_maxMessageSize a) (m_maxAggregateSize a)
  end.

Definition fail (a : t) (e : AssemblyError) : t * list Event :=
  (reset a, [assemblyFailed e]).

Definition flagsMatch (p : PartialMessage) (h : FrameHeader.t) : bool :=
  bool_decide (messageType p = FrameHeader.messageType h)
  && bool_decide (encryptionType p = FrameHeader.encryptionType h).

Definition onFirst (a : t) (header : FrameHeader.t) (pl : bytes)
    : t * list Event :=
  let ch := FrameHeader.channelId header in
  let total := FrameHeader.totalMessageSize header in
  let a := match m_partials a !! ch with
           | Some _ => release a ch
           | None => a
           end in
  let payloadSize := blen pl mod 2 ^ 32 in
  if total <? 2 then fail a (TotalCannotContainId ch)
  else if total <=? payloadSize then fail a (TotalNotLargerThanPayload ch)
  else if m_maxMessageSize a <? total then fail a (TotalExceedsMessageLimit ch)
  else if u64_sub (m_maxAggregateSize a) (m_reservedBytes a) <? total
  then fail a (TotalExceedsAggregateBudget ch)
  else
    let partial := mkPartial pl total (FrameHeader.messageType header)
                     (FrameHeader.encryptionType header) in
    (mk (<[ch := partial]> (m_partials a))
        ((m_reservedBytes a + total) mod 2 ^ 64)
        (m_maxMessageSize a) (m_maxAggregateSize a), []).

Definition onContinuation (a : t) (header : FrameHeader.t) (pl : bytes)
    : t * list Event :=
  let ch := FrameHeader.channelId header in
  match m_partials a !! ch with
  | None => fail a (ContinuationWithoutFirst ch)
  | Some it =>
      if negb (flagsMatch it header) then fail a (ContinuationFlagsDiffer ch)
      else
        let nextSize := blen (payload it) + blen pl in
        let appended := mkPartial (payload it ++ pl) (declaredSize it)
                          (messageType it) (encryptionType it) in
        let a' := mk (<[ch := appended]> (m_partials a)) (m_reservedBytes a)
                     (m_maxMessageSize a) (m_maxAggregateSize a) in
        if bool_decide (FrameHeader.frameType header = Middle) then
          if declaredSize it <=? nextSize then fail a (MiddleReachesTotal ch)
          else (a', [])
        else if negb (nextSize =? declaredSize it)
        then fail a (LastNotAtTotal ch)
        else (release a' ch,
              [messageAssembled ch (messageType it) (payload appended)])
  end.

Definition onFrame (a : t) (header : FrameHeader.t) (pl : bytes)
    : t * list Event :=
  match FrameHeader.frameType header with
  | Bulk =>
      let ch := FrameHeader.channelId header in
      if decide (is_Some (m_partials a !! ch))
      then fail a (BulkInterrupted ch)
      else (a, [messageAssembled ch (FrameHeader.messageType header) pl])
  | First => onFirst a header pl
  | Middle | Last => onContinuation a header pl
  end.

(** A run of frames, with the signals in order. *)
Fixpoint onFrames (a : t) (fs : list FrameSerializer.frame) : t * list Event :=
  match fs with
  | [] => (a, [])
  | f :: fs' =>
      let r := onFrame a f.1 f.2 in
      let r' := onFrames r.1 fs' in
      (r'.1, r.2 ++ r'.2)
  end.

Lemma onFrames_app a fs fs' :
  onFrames a (fs ++ fs')
  = ((onFrames (onFrames a fs).1 fs').1,
     (onFrames a fs).2 ++ (onFrames (onFrames a fs).1 fs').2).
Proof.
  revert a; induction fs as [|f fs IH]; intros a; simpl.
  - by destruct (onFrames a fs').
  - rewrite IH. simpl. by rewrite (assoc_L (++)).
Qed.

(** ** Invariant *)

Definition partial_ok (maxMessage : Z) (p : PartialMessage) : Prop :=
  2 <= declaredSize p <= maxMessage /\ blen (payload p) < declaredSize p.

Record wf (a : t) : Prop := {
  wf_reserved : m_reservedBytes a = map_sum declaredSize (m_partials a);
  wf_budget : m_reservedBytes a <= m_maxAggregateSize a < 2 ^ 63;
  wf_partials : map_Forall (fun _ => partial_ok (m_maxMessageSize a)) (m_partials a);
  wf_limit : m_maxMessageSize a < 2 ^ 32;
  wf_max : 0 <= m_maxAggregateSize a
}.

(** Bytes actually buffered. *)
Definition buffered (a : t) : Z :=
  map_sum (fun p => blen (payload p)) (m_partials a).

Lemma create_wf : wf create.
Proof.
  constructor; simpl; [by rewrite map_sum_empty|
    unfold MAX_IN_FLIGHT_ASSEMBLY_SIZE; lia|apply map_Forall_empty|
    unfold MAX_ASSEMBLED_MESSAGE_SIZE; lia|
    unfold MAX_IN_FLIGHT_ASSEMBLY_SIZE; lia].
Qed.

Lemma reset_wf a : wf a -> wf (reset a).
Proof.
  intros [_ ? _ ? ?]. constructor; simpl; try lia.
  - by rewrite map_sum_empty.
  - apply map_Forall_empty.
Qed.

Lemma wf_reserved_nonneg a : wf a -> 0 <= m_reservedBytes a.
Proof.
  intros [-> _ Hp _]. apply map_sum_nonneg. intros i x Hx.
  destruct (Hp i x Hx) as [? _]. lia.
Qed.

(** Inside the invariant the [uint64_t] subtractions are exact. *)
Lemma release_spec a ch :
  wf a ->
  release a ch =
    mk (delete ch (m_partials a))
       (m_reservedBytes a
        - match m_partials a !! ch with Some p => declaredSize p | None => 0 end)
       (m_maxMessageSize a) (m_maxAggregateSize a).
Proof.
  intros Hwf. unfold release. destruct (m_partials a !! ch) as [p|] eqn:E.
  - f_equal. unfold u64_sub. pose proof (wf_reserved_nonneg a Hwf).
    destruct Hwf as [Hr Hb Hp Hl].
    pose proof (map_sum_delete declaredSize _ _ _ E) as Hd.
    assert (0 <= map_sum declaredSize (delete ch (m_partials a))).
    { apply map_sum_nonneg. apply map_Forall_delete.
      intros i x Hx. destruct (Hp i x Hx) as [? _]. lia. }
    destruct (Hp _ _ E) as [? _].
    rewrite Z.mod_small; lia.
  - rewrite delete_id by done. rewrite Z.sub_0_r. by destruct a.
Qed.

Lemma release_wf a ch : wf a -> wf (release a ch).
Proof.
  intros Hwf. rewrite release_spec by done.
  destruct (m_partials a !! ch) as [p|] eqn:E; destruct Hwf as [Hr Hb Hp Hl Hm].
  - pose proof (map_sum_delete declaredSize _ _ _ E). destruct (Hp _ _ E) as [? _].
    constructor; simpl; try lia. by apply map_Forall_delete.
  - rewrite delete_id, Z.sub_0_r by done. by constructor.
Qed.

(** The tests of [onFirst] without machine arithmetic: [Some e] when the
    frame is refused. *)
Definition firstError (a : t) (header : FrameHeader.t) (pl : bytes)
    : option AssemblyError :=
  let ch := FrameHeader.channelId header in
  let total := FrameHeader.totalMessageSize header in
  if total <? 2 then Some (TotalCannotContainId ch)
  else if total <=? blen pl then Some (TotalNotLargerThanPayload ch)
  else if m_maxMessageSize a <? total then Some (TotalExceedsMessageLimit ch)
  else if m_maxAggregateSize a - m_reservedBytes a <? total
  then Some (TotalExceedsAggregateBudget ch)
  else None.

Definition open_partial (a : t) (header : FrameHeader.t) (pl : bytes) : t :=
  mk (<[FrameHeader.channelId header :=
          mkPartial pl (FrameHeader.totalMessageSize header)
            (FrameHeader.messageType header) (FrameHeader.encryptionType header)]>
        (m_partials a))
     (m_reservedBytes a + FrameHeader.totalMessageSize header)
     (m_maxMessageSize a) (m_maxAggregateSize a).

(** No wrap-around: on a well-formed assembler [onFirst] is the plain
    specification, after the replacement of a duplicate FIRST. *)
Lemma onFirst_spec a header pl :
  wf a -> blen pl < 2 ^ 32 ->
  let a := release a (FrameHeader.channelId header) in
  onFirst a header pl =
    match firstError a header pl with
    | Some e => fail a e
    | None => (open_partial a header pl, [])
    end.
Proof.
  intros Hwf Hpl a1.
  assert (Hwf1 : wf a1) by by apply release_wf.
  assert (Hnone : m_partials a1 !! FrameHeader.channelId header = None)
    by (unfold a1; rewrite release_spec by done; apply lookup_delete_eq).
  clearbody a1. clear a Hwf.
  unfold onFirst, firstError. rewrite Hnone.
  pose proof (wf_reserved_nonneg a1 Hwf1). destruct Hwf1 as [Hr Hb Hp Hl Hm].
  pose proof (blen_nonneg pl).
  unfold u64_sub. rewrite (Z.mod_small (blen pl)) by lia.
  rewrite (Z.mod_small (m_maxAggregateSize a1 - _)) by lia.
  repeat (case_match; try done). breflect.
  unfold open_partial. by rewrite Z.mod_small by lia.
Qed.

Lemma release_lookup a ch : m_partials (release a ch) !! ch = None.
Proof.
  unfold release. destruct (m_partials a !! ch) eqn:E; [|done].
  apply lookup_delete_eq.
Qed.

(** [onFirst] starts by releasing the channel's partial message. *)
Lemma onFirst_release a header pl :
  onFirst a header pl
  = onFirst (release a (FrameHeader.channelId header)) header pl.
Proof.
  unfold onFirst. rewrite release_lookup.
  replace (match m_partials a !! FrameHeader.channelId header with
           | Some _ => release a (FrameHeader.channelId header)
           | None => a end)
    with (release a (FrameHeader.channelId header)); [done|].
  unfold release. by destruct (m_partials a !! _).
Qed.

Lemma onFirst_wf a header pl :
  wf a -> blen pl < 2 ^ 32 -> wf (onFirst a header pl).1.
Proof.
  intros Hwf Hpl. rewrite onFirst_release, onFirst_spec by done.
  pose proof (release_wf a (FrameHeader.channelId header) Hwf) as Hwf1.
  pose proof (release_lookup a (FrameHeader.channelId header)) as Hnone.
  revert Hwf1 Hnone. generalize (release a (FrameHeader.channelId header)).
  clear a Hwf. intros a Hwf Hnone.
  destruct (firstError a header pl) eqn:E; [by apply reset_wf|].
  unfold firstError in E. split_matches_in E; simplify_eq. breflect.
  destruct Hwf as [Hr Hb Hp Hl Hm]. constructor; simpl; try lia.
  - rewrite map_sum_insert by done. simpl. lia.
  - apply map_Forall_insert_2; [|done]. split; simpl; lia.
Qed.

Lemma onContinuation_wf a header pl : wf a -> wf (onContinuation a header pl).1.
Proof.
  intros Hwf. unfold onContinuation.
  destruct (m_partials a !! _) as [p|] eqn:E; [|by apply reset_wf].
  destruct (negb (flagsMatch p header)); [by apply reset_wf|].
  case_bool_decide as Hm.
  - destruct (Z.leb_spec (declaredSize p) (blen (payload p) + blen pl));
      [by apply reset_wf|].
    destruct Hwf as [Hr Hb Hp Hl]. destruct (Hp _ _ E).
    constructor; simpl; try lia.
    + rewrite (map_sum_update _ _ _ _ _ E). simpl. lia.
    + apply map_Forall_insert_2; [|done]. split; simpl; [lia|].
      rewrite blen_app. lia.
  - destruct (negb _); [by apply reset_wf|]. cbn [fst].
    unfold release. simpl. rewrite lookup_insert_eq, delete_insert_eq. simpl.
    pose proof (release_wf a (FrameHeader.channelId header) Hwf) as Hw.
    unfold release in Hw. by rewrite E in Hw.
Qed.

Lemma onFrame_wf a header pl :
  wf a -> blen pl < 2 ^ 32 -> wf (onFrame a header pl).1.
Proof.
  intros Hwf Hpl. unfold onFrame.
  destruct (FrameHeader.frameType header);
    auto using onFirst_wf, onContinuation_wf.
  case_decide; [by apply reset_wf|done].
Qed.

Lemma onFrames_wf a fs :
  wf a -> Forall (fun f => blen f.2 < 2 ^ 32) fs -> wf (onFrames a fs).1.
Proof.
  intros Hwf Hfs; revert a Hwf; induction Hfs as [|f fs Hf _ IH]; intros a Hwf;
    simpl; [done|]. apply IH, onFrame_wf; done.
Qed.

Lemma onFrame_limits a header pl :
  m_maxAggregateSize (onFrame a header pl).1 = m_maxAggregateSize a
  /\ m_maxMessageSize (onFrame a header pl).1 = m_maxMessageSize a.
Proof.
  unfold onFrame, onFirst, onContinuation, fail, release.
  repeat case_match; simpl; repeat case_match; done.
Qed.

Lemma onFrames_limits a fs :
  m_maxAggregateSize (onFrames a fs).1 = m_maxAggregateSize a
  /\ m_maxMessageSize (onFrames a fs).1 = m_maxMessageSize a.
Proof.
  revert a; induction fs as [|f fs IH]; intros a; simpl; [done|].
  destruct (IH (onFrame a f.1 f.2).1), (onFrame_limits a f.1 f.2). split; congruence.
Qed.

(** ** Reassembly of a fragmented message *)

(** ** Isolation of the channels

    [restrict c a] is the assembler as channel [c] sees it: only its own
    partial message, the whole budget otherwise free. *)
Definition restrict (c : Z) (a : t) : t :=
  match m_partials a !! c with
  | Some p => mk {[c := p]} (declaredSize p) (m_maxMessageSize a) (m_maxAggregateSize a)
  | None => mk ∅ 0 (m_maxMessageSize a) (m_maxAggregateSize a)
  end.

Definition no_failure (es : list Event) : Prop :=
  Forall (fun e => match e with assemblyFailed _ => False | _ => True end) es.

Definition with_partial (a : t) (ch : Z) (p : PartialMessage) : t :=
  mk (<[ch := p]> (m_partials a)) (m_reservedBytes a + declaredSize p)
     (m_maxMessageSize a) (m_maxAggregateSize a).

Lemma flagsMatch_refl pl total mt et ch ft n :
  flagsMatch (mkPartial pl total mt et) (FrameHeader.mk ch ft et mt n) = true.
Proof. unfold flagsMatch. simpl. by rewrite !bool_decide_true. Qed.

Lemma release_with_partial a ch p :
  wf a -> 0 <= declaredSize p -> m_reservedBytes a + declaredSize p < 2 ^ 64 ->
  m_partials a !! ch = None -> release (with_partial a ch p) ch = a.
Proof.
  intros Hwf Hd Hlt Hn. pose proof (wf_reserved_nonneg a Hwf).
  unfold release, with_partial. simpl. rewrite lookup_insert_eq. simpl.
  rewrite delete_insert_id by done. unfold u64_sub.
  rewrite Z.mod_small by lia. destruct a; simpl. f_equal. lia.
Qed.

Lemma onFrames_continue a ch acc cs cl mt et total :
  wf a -> m_partials a !! ch = None -> 0 < blen cl ->
  total = blen (acc ++ concat cs ++ cl) ->
  m_reservedBytes a + total < 2 ^ 64 ->
  onFrames (with_partial a ch (mkPartial acc total mt et))
    (map (pair (FrameHeader.mk ch Middle et mt 0)) cs
     ++ [(FrameHeader.mk ch Last et mt 0, cl)])
  = (a, [messageAssembled ch mt (acc ++ concat cs ++ cl)]).
Proof.
  intros Hwf Hn Hcl Ht Hlt. revert acc Ht.
  induction cs as [|c cs IH]; intros acc Ht;
    cbn [map app onFrames fst snd]; unfold onFrame;
    cbn [FrameHeader.frameType]; unfold onContinuation;
    cbn [FrameHeader.channelId FrameHeader.frameType m_partials m_reservedBytes
         m_maxMessageSize m_maxAggregateSize with_partial];
    rewrite lookup_insert_eq, flagsMatch_refl;
    cbn [negb payload declaredSize messageType encryptionType];
    simpl concat in *; simpl app in Ht.
  - rewrite bool_decide_false by done. rewrite blen_app in Ht.
    pose proof (blen_nonneg acc).
    destruct (Z.eqb_spec (blen acc + blen cl) total); [|lia].
    cbn [negb fst snd app]. rewrite insert_insert_eq.
    pose proof (release_with_partial a ch (mkPartial (acc ++ cl) total mt et)) as Hrel.
    unfold with_partial in Hrel. simpl in Hrel. rewrite Hrel by (done || lia). done.
  - rewrite bool_decide_true by done.
    pose proof Ht as Hlen. rewrite !blen_app in Hlen.
    pose proof (blen_nonneg (concat cs)).
    destruct (Z.leb_spec total (blen acc + blen c)); [lia|].
    cbn [fst snd app]. rewrite insert_insert_eq.
    specialize (IH (acc ++ c)). rewrite <- !(assoc_L (++)) in *.
    unfold with_partial in IH. simpl in IH. by rewrite IH.
Qed.

(** An accepted FIRST opens a partial message. *)
Lemma onFrame_first a ch mt et c0 total :
  wf a -> m_partials a !! ch = None -> 2 <= total -> blen c0 < total ->
  total <= m_maxMessageSize a ->
  m_reservedBytes a + total <= m_maxAggregateSize a ->
  onFrame a (FrameHeader.mk ch First et mt total) c0
  = (with_partial a ch (mkPartial c0 total mt et), []).
Proof.
  intros Hwf Hn H2 Hc Hmax Hagg. unfold onFrame. cbn [FrameHeader.frameType].
  pose proof Hwf as [_ _ _ Hl _].
  rewrite onFirst_release, onFirst_spec; [|done|lia]. cbn [FrameHeader.channelId].
  assert (Hrel : release a ch = a) by (unfold release; by rewrite Hn).
  rewrite !Hrel. unfold firstError.
  cbn [FrameHeader.totalMessageSize FrameHeader.channelId].
  repeat (case_match; breflect; try lia); done.
Qed.

Lemma onFrames_fragmentation a ch mt et pl fs :
  wf a -> m_partials a !! ch = None ->
  blen pl <= m_maxMessageSize a ->
  m_reservedBytes a + blen pl <= m_maxAggregateSize a ->
  FrameSerializer.fragmentation ch mt et pl fs ->
  onFrames a fs = (a, [messageAssembled ch mt pl]).
Proof.
  intros Hwf Hn Hmax Hagg Hfrag.
  destruct Hfrag as [Hle|c0 cs cl Hpl Hc0 _ Hcl]; cbn [onFrames fst snd].
  - unfold onFrame. cbn [FrameHeader.frameType FrameHeader.channelId].
    rewrite decide_False; [done|]. rewrite Hn. by apply is_Some_None.
  - pose proof Hwf as [_ Hb _ Hl _].
    assert (Hlen : blen pl = blen c0 + blen (concat cs) + blen cl)
      by (rewrite Hpl, !blen_app; lia).
    pose proof (blen_nonneg (concat cs)).
    rewrite (onFrame_first a ch mt et c0 (blen pl)) by
      (done || unfold FrameSerializer.FRAME_MAX_PAYLOAD in *; lia).
    cbn [fst snd app]. rewrite onFrames_continue; try done; try lia;
      rewrite <- Hpl; done.
Qed.

Lemma wf_buffered a : wf a -> buffered a <= m_maxAggregateSize a.
Proof.
  intros [Hr Hb Hp _ _]. unfold buffered. etrans; [|apply Hb]. rewrite Hr.
  apply map_sum_mono. intros i x Hx. destruct (Hp i x Hx). lia.
Qed.

(** ** Isolation, step by step *)

Lemma restrict_other c a a' :
  m_partials a' !! c = m_partials a !! c ->
  m_maxMessageSize a' = m_maxMessageSize a ->
  m_maxAggregateSize a' = m_maxAggregateSize a ->
  restrict c a' = restrict c a.
Proof. intros H1 H2 H3. unfold restrict. by rewrite H1, H2, H3. Qed.

Lemma restrict_lookup c a : m_partials (restrict c a) !! c = m_partials a !! c.
Proof.
  unfold restrict. destruct (m_partials a !! c) eqn:E; simpl;
    [apply lookup_singleton_eq|apply lookup_empty].
Qed.

Lemma restrict_wf c a : wf a -> wf (restrict c a).
Proof.
  intros Hwf. pose proof (wf_reserved_nonneg a Hwf).
  destruct Hwf as [Hr Hb Hp Hl Hm]. unfold restrict.
  destruct (m_partials a !! c) as [p|] eqn:E.
  - pose proof (map_sum_delete declaredSize _ _ _ E).
    assert (0 <= map_sum declaredSize (delete c (m_partials a))).
    { apply map_sum_nonneg, map_Forall_delete. intros i x Hx.
      destruct (Hp i x Hx). lia. }
    constructor; simpl; try lia.
    + rewrite <- insert_empty, map_sum_insert, map_sum_empty by done. lia.
    + rewrite <- insert_empty. apply map_Forall_insert_2; [|apply map_Forall_empty].
      by apply (Hp c).
  - constructor; simpl; try lia; [by rewrite map_sum_empty|apply map_Forall_empty].
Qed.

(** After the release both sides have the channel empty. *)
Lemma restrict_release c a : wf a -> restrict c (release a c) = release (restrict c a) c.
Proof.
  intros Hwf. rewrite (release_spec (restrict c a)) by by apply restrict_wf.
  unfold restrict at 1. rewrite release_lookup.
  rewrite release_spec by done. simpl.
  unfold restrict. destruct (m_partials a !! c) eqn:E; simpl.
  - rewrite lookup_singleton_eq, delete_singleton_eq. f_equal; lia.
  - rewrite lookup_empty, delete_empty. f_equal; lia.
Qed.

(** A frame of another channel that does not fail leaves the channel as it
    was. *)
Lemma onFrame_other c a header pl :
  wf a -> blen pl < 2 ^ 32 -> FrameHeader.channelId header <> c ->
  no_failure (onFrame a header pl).2 ->
  restrict c (onFrame a header pl).1 = restrict c a.
Proof.
  intros Hwf Hpl Hne Hok. unfold onFrame in *.
  destruct (FrameHeader.frameType header).
  2: { rewrite onFirst_release in Hok |- *. rewrite onFirst_spec in Hok |- * by done.
       destruct (firstError _ header pl); [by inversion Hok|]. simpl.
       apply restrict_other; simpl; [|by rewrite release_spec..].
       rewrite lookup_insert_ne, release_spec by done. simpl.
       by rewrite lookup_delete_ne. }
  3: { case_decide; [by inversion Hok|done]. }
  all: unfold onContinuation in *;
    destruct (m_partials a !! FrameHeader.channelId header) as [p|] eqn:E;
      [|by inversion Hok];
    destruct (negb (flagsMatch p header)); [by inversion Hok|];
    case_bool_decide; case_match; try (by inversion Hok); simpl.
  1, 3: by apply restrict_other; simpl; rewrite ?lookup_insert_ne by done.
  all: unfold release; simpl; rewrite lookup_insert_eq; simpl;
    apply restrict_other; simpl; try done;
    by rewrite delete_insert_eq, lookup_delete_ne.
Qed.

(** A frame of the channel itself, when it does not fail, acts on the
    restriction as it does on the whole assembler. *)
Lemma onFrame_restrict a header pl :
  wf a -> blen pl < 2 ^ 32 -> no_failure (onFrame a header pl).2 ->
  onFrame (restrict (FrameHeader.channelId header) a) header pl
  = (restrict (FrameHeader.channelId header) (onFrame a header pl).1,
     (onFrame a header pl).2).
Proof.
  intros Hwf Hpl Hok. set (c := FrameHeader.channelId header).
  assert (Hrl : m_partials (restrict c a) !! c = m_partials a !! c)
    by apply restrict_lookup.
  unfold onFrame in *. destruct (FrameHeader.frameType header) eqn:Hft.
  2: { rewrite (onFirst_release a) in Hok |- *. rewrite (onFirst_release (restrict c a)).
       rewrite (onFirst_spec (restrict c a)) by (done || by apply restrict_wf).
       rewrite onFirst_spec in Hok |- * by done. fold c in Hok |- *.
       rewrite <- restrict_release by done.
       pose proof (wf_reserved_nonneg _ (release_wf a c Hwf)) as Hpos.
       pose proof (release_lookup a c) as Hn.
       revert Hpos Hn Hok. generalize (release a c). intros b Hpos Hn Hok.
       destruct (firstError b header pl) eqn:E; [by inversion Hok|].
       assert (E' : firstError (restrict c b) header pl = None).
       { unfold firstError, restrict in *. rewrite Hn. simpl.
         split_matches_in E; simplify_eq. repeat case_match; breflect; done || lia. }
       rewrite E'. unfold open_partial, restrict. rewrite Hn. simpl.
       fold c. by rewrite lookup_insert_eq. }
  3: { fold c in Hok |- *. rewrite Hrl. case_decide; [by inversion Hok|done]. }
  all: unfold onContinuation in *; fold c in Hok |- *; rewrite Hrl;
    destruct (m_partials a !! c) as [p|] eqn:E; [|by inversion Hok];
    destruct (negb (flagsMatch p header)); [by inversion Hok|];
    rewrite Hft in *; cbn [bool_decide] in *; revert Hok.
  - case_bool_decide; [|done]. case_match; [by inversion 1|]. intros _. simpl.
    unfold restrict. rewrite E. simpl. rewrite lookup_insert_eq. simpl.
    by rewrite insert_singleton_eq.
  - case_bool_decide; [done|]. case_match; [by inversion 1|]. intros _. simpl.
    f_equal. unfold restrict, release. rewrite E. simpl.
    rewrite insert_singleton_eq, lookup_singleton_eq, lookup_insert_eq. simpl.
    rewrite delete_singleton_eq, delete_insert_eq, lookup_delete_eq.
    unfold u64_sub. by rewrite Z.sub_diag.
Qed.

Definition channel_frames (c : Z) (fs : list FrameSerializer.frame)
    : list FrameSerializer.frame :=
  filter (fun f => FrameHeader.channelId f.1 = c) fs.

(** The messages of one channel among the signals of a run. *)
Definition on_channel (c : Z) (e : Event) : bool :=
  match e with
  | messageAssembled ch _ _ => ch =? c
  | assemblyFailed _ => false
  end.

Definition channel_messages (c : Z) (es : list Event) : list Event :=
  filter (fun e => on_channel c e = true) es.

Lemma channel_frames_same f fs :
  channel_frames (FrameHeader.channelId f.1) (f :: fs)
  = f :: channel_frames (FrameHeader.channelId f.1) fs.
Proof. unfold channel_frames. by rewrite filter_cons_True. Qed.

Lemma channel_frames_other c f fs :
  FrameHeader.channelId f.1 <> c -> channel_frames c (f :: fs) = channel_frames c fs.
Proof. intros. unfold channel_frames. by rewrite filter_cons_False. Qed.

Lemma channel_messages_app c es es' :
  channel_messages c (es ++ es') = channel_messages c es ++ channel_messages c es'.
Proof. apply filter_app. Qed.

Lemma channel_messages_all c es :
  Forall (fun e => on_channel c e = true) es -> channel_messages c es = es.
Proof.
  induction 1 as [|e es He _ IH]; [done|].
  unfold channel_messages. rewrite filter_cons_True by done. by f_equal.
Qed.

Lemma channel_messages_none c es :
  Forall (fun e => on_channel c e = false) es -> channel_messages c es = [].
Proof.
  induction 1 as [|e es He _ IH]; [done|].
  unfold channel_messages. rewrite filter_cons_False by congruence. done.
Qed.

(** A frame that does not fail announces a message of its own channel only. *)
Lemma onFrame_event_channel a header pl :
  no_failure (onFrame a header pl).2 ->
  Forall (fun e => exists mt m,
            e = messageAssembled (FrameHeader.channelId header) mt m)
    (onFrame a header pl).2.
Proof.
  intros Hok.
  assert (Hcase : (onFrame a header pl).2 = [] \/ (exists e,
            (onFrame a header pl).2 = [assemblyFailed e]) \/ exists mt m,
            (onFrame a header pl).2
            = [messageAssembled (FrameHeader.channelId header) mt m]).
  { unfold onFrame, onFirst, onContinuation, fail. repeat case_match; simpl; eauto 8. }
  destruct Hcase as [-> | [[e He] | (mt & m & ->)]]; eauto.
  rewrite He in Hok. by inversion Hok.
Qed.

Lemma no_failure_app es es' :
  no_failure (es ++ es') <-> no_failure es /\ no_failure es'.
Proof. apply Forall_app. Qed.

Lemma onFrames_restrict c a fs :
  wf a -> Forall (fun f => blen f.2 < 2 ^ 32) fs ->
  no_failure (onFrames a fs).2 ->
  onFrames (restrict c a) (channel_frames c fs)
  = (restrict c (onFrames a fs).1, channel_messages c (onFrames a fs).2).
Proof.
  intros Hwf Hfs. revert a Hwf.
  induction Hfs as [|f fs Hf Hfs IH]; intros a Hwf; cbn [onFrames fst snd]; [done|].
  rewrite no_failure_app. intros [Hok Hoks].
  pose proof (onFrame_event_channel a f.1 f.2 Hok) as Hev.
  specialize (IH _ (onFrame_wf a f.1 f.2 Hwf Hf) Hoks).
  rewrite channel_messages_app.
  destruct (decide (FrameHeader.channelId f.1 = c)) as [<-|Hne].
  - rewrite channel_frames_same. cbn [onFrames]. rewrite onFrame_restrict by done.
    cbn [fst snd]. rewrite IH. cbn [fst snd]. 
    rewrite (channel_messages_all _ (onFrame a f.1 f.2).2); [done|].
    eapply Forall_impl; [exact Hev|]. intros e (mt & m & ->). apply Z.eqb_refl.
  - rewrite onFrame_other in IH by done. rewrite channel_frames_other by done.
    rewrite IH. rewrite (channel_messages_none c (onFrame a f.1 f.2).2); [done|].
    eapply Forall_impl; [exact Hev|]. intros e (mt & m & ->). by apply Z.eqb_neq.
Qed.

End FrameAssembler.

Import FrameAssembler.

(** C8. Memory safety of reassembly: whatever frames arrive, in whatever
    order, the assembler's accounting stays exact (no [uint64_t] wrap-around):
    the reserved bytes are the sum of the declared sizes, at most 32 MiB, every
    open message declares at most 16 MiB and holds less than it declared, and
    so the bytes buffered never exceed 32 MiB. *)
Theorem assembler_memory_bound (fs : list FrameSerializer.frame) :
  Forall (fun f => blen f.2 < 2 ^ 32) fs ->
  let a := (onFrames create fs).1 in
  m_reservedBytes a = map_sum declaredSize (m_partials a)
  /\ m_reservedBytes a <= MAX_IN_FLIGHT_ASSEMBLY_SIZE
  /\ map_Forall (fun _ p => 2 <= declaredSize p <= MAX_ASSEMBLED_MESSAGE_SIZE
                            /\ blen (payload p) < declaredSize p) (m_partials a)
  /\ buffered a <= MAX_IN_FLIGHT_ASSEMBLY_SIZE.
Proof.
  intros Hfs a. pose proof (onFrames_wf create fs create_wf Hfs) as Hwf.
  pose proof (wf_buffered _ Hwf) as Hbuf. fold a in Hwf, Hbuf.
  assert (m_maxAggregateSize a = MAX_IN_FLIGHT_ASSEMBLY_SIZE
          /\ m_maxMessageSize a = MAX_ASSEMBLED_MESSAGE_SIZE) as [HA HM].
  { unfold a. apply onFrames_limits. }
  destruct Hwf as [Hr Hb Hp _ _]. rewrite HA, HM in *. split_and!; auto; lia.
Qed.

(** C9. Isolation of channels: as long as no frame is refused, what a channel
    receives depends on its own frames only. Running the frames of channel [c]
    alone gives exactly the messages of channel [c] of the interleaved run, and
    the same partial message at the end. *)
Theorem assembler_isolation (c : Z) (fs : list FrameSerializer.frame) :
  Forall (fun f => blen f.2 < 2 ^ 32) fs ->
  no_failure (onFrames create fs).2 ->
  onFrames create (channel_frames c fs)
  = (restrict c (onFrames create fs).1, channel_messages c (onFrames create fs).2).
Proof.
  intros Hfs Hok. pose proof (onFrames_restrict c create fs create_wf Hfs Hok) as H.
  unfold restrict at 1 in H. simpl in H. by rewrite lookup_empty in H.
Qed.

Lemma assembler_memory_bound_witness :
  let a := (onFrames create
              [(FrameHeader.mk 4 First Plain Specific 4, [Byte.x01; Byte.x02])]).1 in
  m_reservedBytes a = map_sum declaredSize (m_partials a)
  /\ m_reservedBytes a <= MAX_IN_FLIGHT_ASSEMBLY_SIZE
  /\ map_Forall (fun _ p => 2 <= declaredSize p <= MAX_ASSEMBLED_MESSAGE_SIZE
                            /\ blen (payload p) < declaredSize p) (m_partials a)
  /\ buffered a <= MAX_IN_FLIGHT_ASSEMBLY_SIZE.
Proof.
  apply (assembler_memory_bound
           [(FrameHeader.mk 4 First Plain Specific 4, [Byte.x01; Byte.x02])]).
  repeat constructor.
Defined.

(** Two interleaved two-frame messages on channels 4 and 5. *)
Definition interleaved : list FrameSerializer.frame :=
  [ (FrameHeader.mk 4 First Plain Specific 3, [Byte.x01; Byte.x02]);
    (FrameHeader.mk 5 First Plain Specific 3, [Byte.x11; Byte.x12]);
    (FrameHeader.mk 4 Last Plain Specific 0, [Byte.x03]);
    (FrameHeader.mk 5 Last Plain Specific 0, [Byte.x13]) ].

Lemma assembler_isolation_witness :
  onFrames create (channel_frames 4 interleaved)
  = (restrict 4 (onFrames create interleaved).1,
     channel_messages 4 (onFrames create interleaved).2)
  /\ channel_messages 4 (onFrames create interleaved).2
     = [messageAssembled 4 Specific [Byte.x01; Byte.x02; Byte.x03]].
Proof.
  split; [|vm_compute; reflexivity].
  apply (assembler_isolation 4 interleaved).
  - repeat constructor.
  - vm_compute. repeat constructor.
Defined.
