(* ===== verification/Wire.v ===== *)
(** The plaintext wire path from end to end: FrameSerializer on the sending
    side; FrameParser over the circular buffer and FrameAssembler on the
    receiving side. *)

From S2P Require Import Prelude Frames Ring FrameParser FrameAssembler.
Import FrameAssembler.FrameAssembler.

(** A message as [Messenger::sendMessage] hands it to the serializer, the
    message id already in front of the payload. *)
Record message := mkMessage {
  msg_channel : Z;
  msg_type : MessageType;
  msg_enc : EncryptionType;
  msg_payload : bytes
}.

(** What the wire can carry: a channel id in one byte, at most 16 MiB. *)
Definition message_ok (m : message) : Prop :=
  u8 (msg_channel m) /\ blen (msg_payload m) <= MAX_ASSEMBLED_MESSAGE_SIZE.

(** The frames of a sequence of messages, in order. *)
Fixpoint send (ms : list message) : option (list bytes) :=
  match ms with
  | [] => Some []
  | m :: ms' =>
      fs ← FrameSerializer.serialize (msg_channel m) (msg_type m) (msg_enc m)
             (msg_payload m);
      fs' ← send ms';
      Some (fs ++ fs')
  end.

(** [dataReceived] into the parser, [frameParsed] into the assembler. *)
Definition receive (chunks : list bytes)
    : option (FrameParser.t CircularBuffer.t * FrameAssembler.t * list Event) :=
  r ← FrameParser.feed FrameParser.initial chunks;
  let a := FrameAssembler.onFrames FrameAssembler.create r.2 in
  Some (r.1, a.1, a.2).

(** The frames of a message sequence, as the receiver sees them. *)
Lemma send_spec ms :
  Forall message_ok ms ->
  exists fs, send ms = Some (map FrameSerializer.encodeFrame fs)
    /\ Forall FrameParser.frame_wf fs
    /\ forall a, wf a -> m_partials a = ∅ -> m_reservedBytes a = 0 ->
         m_maxMessageSize a = MAX_ASSEMBLED_MESSAGE_SIZE ->
         m_maxAggregateSize a = MAX_IN_FLIGHT_ASSEMBLY_SIZE ->
         onFrames a fs
         = (a, map (fun m => messageAssembled (msg_channel m) (msg_type m)
                               (msg_payload m)) ms).
Proof.
  induction 1 as [|m ms [Hch Hlen] _ (fs2 & Hs2 & Hwf2 & Hrun2)]; simpl.
  - exists []. eauto.
  - destruct (FrameSerializer.serialize_fragmentation (msg_channel m) (msg_type m)
                (msg_enc m) (msg_payload m)) as (fs1 & -> & Hfrag).
    simpl. rewrite Hs2. simpl. exists (fs1 ++ fs2). rewrite map_app. split_and!.
    + done.
    + apply Forall_app. split; [|done].
      eapply FrameParser.fragmentation_frame_wf; eauto.
      unfold MAX_ASSEMBLED_MESSAGE_SIZE in Hlen. lia.
    + intros a Hwf Hp Hr Hm Ha. rewrite onFrames_app.
      rewrite (onFrames_fragmentation a (msg_channel m) (msg_type m) (msg_enc m)
                 (msg_payload m) fs1) by
        (done || (rewrite ?Hp, ?Hr, ?Hm, ?Ha;
                  unfold MAX_IN_FLIGHT_ASSEMBLY_SIZE, MAX_ASSEMBLED_MESSAGE_SIZE in *;
                  (apply lookup_empty || lia))).
      cbn [fst snd]. by rewrite Hrun2.
Qed.

(** C5. The wire is faithful: any sequence of messages of at most 16 MiB,
    fragmented, concatenated and delivered in arbitrary slices, is received as
    exactly that sequence (channel, type and payload, in order), with no
    failure, nothing left over in the receive buffer and no partial message. *)
Theorem wire_roundtrip (ms : list message) (chunks : list bytes) :
  Forall message_ok ms ->
  (exists frames, send ms = Some frames /\ concat chunks = concat frames) ->
  exists p,
    receive chunks
    = Some (p, FrameAssembler.create,
            map (fun m => messageAssembled (msg_channel m) (msg_type m)
                            (msg_payload m)) ms)
    /\ bq_available (FrameParser.m_buffer p) = 0%nat.
Proof.
  intros Hms (frames & Hsend & Hcat).
  destruct (send_spec ms Hms) as (fs & Hs & Hwf & Hrun).
  rewrite Hsend in Hs. injection Hs as ->.
  destruct (FrameParser.parser_roundtrip_run fs chunks Hwf Hcat)
    as (p & Hf & Hst & Hb).
  exists p. split; [|done]. unfold receive. rewrite Hf. simpl.
  rewrite Hrun; done || apply create_wf.
Qed.

Lemma wire_roundtrip_witness :
  exists p, receive [[Byte.x01; Byte.x03]; [Byte.x00; Byte.x02; Byte.x80];
                     [Byte.x01]]
  = Some (p, FrameAssembler.create,
          [messageAssembled 1 Specific [Byte.x80; Byte.x01]])
  /\ bq_available (FrameParser.m_buffer p) = 0%nat.
Proof.
  apply (wire_roundtrip [mkMessage 1 Specific Plain [Byte.x80; Byte.x01]]).
  - repeat constructor; vm_compute; discriminate || reflexivity.
  - eexists. split; vm_compute; reflexivity.
Defined.
