(* ===== verification/Messenger.v ===== *)
(** The messenger: framing, encryption, the TLS handshake and the send queue
    between the session and the transport.

    Source: libs/prodigy-oaa-protocol, Messenger/Messenger and
    Messenger/EncryptionPolicy. The TLS wrapper is used through the interface
    [SecureChannel]; the reaction of the code connected to the signals is a
    parameter of the model (see [Reaction]). *)

From S2P Require Import Prelude Frames Ring FrameParser FrameAssembler.
Import FrameAssembler.FrameAssembler.

Inductive HandshakeResult := Complete | WantIo | Failed.

(** * The TLS interface

    What the messenger relies on in its [Cryptor]. The laws say that
    [deinit] ends the session, that traffic does not, and that the peer of a
    session in step decrypts every frame payload the session encrypts, both
    staying in step. *)
Class SecureChannel (K : Type) := {
  sc_init : K -> K * bool;
  sc_deinit : K -> K;
  sc_isActive : K -> bool;
  sc_doHandshake : K -> K * HandshakeResult;
  sc_readHandshakeBuffer : K -> K * option bytes;
  sc_writeHandshakeBuffer : K -> bytes -> K * bool;
  sc_encrypt : K -> bytes -> K * option bytes;
  sc_decrypt : K -> bytes -> K * option bytes;
  sc_insync : K -> K -> Prop;
  sc_deinit_inactive k : sc_isActive (sc_deinit k) = false;
  sc_insync_active k1 k2 :
    sc_insync k1 k2 -> sc_isActive k1 = true /\ sc_isActive k2 = true;
  sc_transfer k1 k2 p :
    sc_insync k1 k2 -> p <> [] -> blen p <= FrameSerializer.FRAME_MAX_PAYLOAD ->
    exists k1' k2' c,
      sc_encrypt k1 p = (k1', Some c) /\ u16 (blen c)
      /\ sc_decrypt k2 c = (k2', Some p) /\ sc_insync k1' k2'
}.

(** * EncryptionPolicy *)

Definition shouldEncrypt (channelId messageId : Z) (sslActive : bool) : bool :=
  if negb sslActive then false
  else if channelId =? 0 then
    negb ((messageId =? 0x1) || (messageId =? 0x2) || (messageId =? 0x3)
          || (messageId =? 0x4) || (messageId =? 0xb) || (messageId =? 0xc))
  else true.

Definition ChannelId_Input : Z := 1.

Module Messenger.

(** The signals, and the writes to the transport, in the order they happen. *)
Inductive ProtocolError :=
| NoMessageId (channelId : Z)
| Assembly (e : AssemblyError).

Inductive Event :=
| messageSent (channelId messageId : Z) (payload : bytes)
| wrote (frame : bytes)
| messageReceived (channelId messageId : Z) (payload : bytes) (dataOffset : Z)
    (mt : MessageType)
| handshakeComplete
| handshakeFailed
| tlsFailed
| protocolFailed (e : ProtocolError).

(** What the code connected to a signal, or the transport inside [write],
    does to the messenger before the emission returns: nothing, [stop()], or
    [stop()] and [start()] again. *)
Inductive Reaction := Continue | Stop | StopStart.

#[export] Instance Reaction_eq_dec : EqDecision Reaction.
Proof. solve_decision. Defined.

Section Messenger.
Context {K : Type} `{!SecureChannel K}.
Context (env : list Event -> Reaction).

Record t := mk {
  parser_ : FrameParser.t CircularBuffer.t;
  assembler_ : FrameAssembler.t;
  cryptor_ : K;
  sendQueue_ : list (list bytes);
  sending_ : bool;
  started_ : bool;
  handshakeFailureEmitted_ : bool;
  tlsFailureEmitted_ : bool;
  protocolFailureEmitted_ : bool;
  lifecycleGeneration_ : Z;
  log : list Event
}.

#[global] Instance t_settable : Settable t := {| eta_record r :=
  mk (parser_ r) (assembler_ r) (cryptor_ r) (sendQueue_ r) (sending_ r)
     (started_ r) (handshakeFailureEmitted_ r) (tlsFailureEmitted_ r)
     (protocolFailureEmitted_ r) (lifecycleGeneration_ r) (log r) |}.

(** The constructor; [k] is the fresh TLS wrapper. *)
Definition create (k : K) : t :=
  mk FrameParser.create FrameAssembler.create k [] false false false false false 0 [].

(** The state with neither queue nor partial data, as [start] and [stop]
    leave it. The signal connections are made exactly while [started_]. *)
Definition cleared (m : t) : t :=
  m <| parser_ ::= FrameParser.reset |> <| assembler_ ::= FrameAssembler.reset |>
    <| sendQueue_ := [] |> <| sending_ := false |>
    <| handshakeFailureEmitted_ := false |> <| tlsFailureEmitted_ := false |>
    <| protocolFailureEmitted_ := false |>.

Definition start (m : t) : t :=
  if started_ m then m else cleared m <| started_ := true |>.

Definition stop (m : t) : t :=
  cleared (m <| lifecycleGeneration_ ::= fun g => (g + 1) mod 2 ^ 64 |>
             <| started_ := false |>)
    <| cryptor_ ::= sc_deinit |>.

(** Emitting a signal: the event is logged, then the connected code runs. *)
Definition emit (e : Event) (m : t) : t :=
  let m := m <| log ::= fun l => l ++ [e] |> in
  match env (log m) with
  | Continue => m
  | Stop => stop m
  | StopStart => start (stop m)
  end.

(** [!started_ || generation != lifecycleGeneration_] *)
Definition interrupted (generation : Z) (m : t) : bool :=
  negb (started_ m) || negb (generation =? lifecycleGeneration_ m).

(** ** The send queue *)

(** The [for] loop over the frames of one item; [true] is its [return]. *)
Fixpoint writeFrames (generation : Z) (frames : list bytes) (m : t) : t * bool :=
  match frames with
  | [] => (m, false)
  | frame :: frames' =>
      if interrupted generation m then (m, true)
      else
        let m := emit (wrote frame) m in
        if interrupted generation m then (m, true)
        else writeFrames generation frames' m
  end.

(** The [while] loop; [None] is running out of fuel. *)
Fixpoint drain (fuel : nat) (generation : Z) (m : t) : option (t * bool) :=
  if interrupted generation m then Some (m, false)
  else
    match sendQueue_ m with
    | [] => Some (m, false)
    | item :: rest =>
        match fuel with
        | O => None
        | S fuel' =>
            let r := writeFrames generation item (m <| sendQueue_ := rest |>) in
            if r.2 then Some r else drain fuel' generation r.1
        end
    end.

Definition processSendQueue (m : t) : option t :=
  if sending_ m then Some m
  else
    let generation := lifecycleGeneration_ m in
    let m := m <| sending_ := true |> in
    '(m, returned) ← drain (length (sendQueue_ m)) generation m;
    if (returned : bool) then Some m
    else if generation =? lifecycleGeneration_ m
         then Some (m <| sending_ := false |>) else Some m.

(** ** Failures, each reported once *)

Definition failHandshake (m : t) : t :=
  if handshakeFailureEmitted_ m then m
  else emit handshakeFailed (m <| handshakeFailureEmitted_ := true |>).

Definition failTls (m : t) : t :=
  if tlsFailureEmitted_ m then m
  else emit tlsFailed (m <| tlsFailureEmitted_ := true |> <| sendQueue_ := [] |>).

Definition failProtocol (e : ProtocolError) (m : t) : t :=
  if protocolFailureEmitted_ m then m
  else emit (protocolFailed e)
         (m <| protocolFailureEmitted_ := true |> <| sendQueue_ := [] |>
            <| assembler_ ::= FrameAssembler.reset |>).

(** ** Sending *)

(** The body of the encryption loop on one frame: the payload is encrypted,
    the size field rewritten, the total of a FIRST frame kept. The outer
    [option] is [FrameHeader::parse] reading past the frame's end. *)
Definition encryptFrame (k : K) (frame : bytes) : option (K * option bytes) :=
  hdr ← FrameHeader.parse (take 2 frame);
  let sizeLen := FrameHeader.sizeFieldLength (FrameHeader.frameType hdr) in
  let headerLen := (2 + sizeLen)%nat in
  let frameHeader := take headerLen frame in
  let framePl := drop headerLen frame in
  let '(k, encrypted) := sc_encrypt k framePl in
  match encrypted with
  | None => Some (k, None)
  | Some data =>
      Some (k, Some (take 2 frameHeader
                     ++ (if decide (FrameHeader.frameType hdr = First)
                         then be16 (blen data) ++ mid frameHeader 4 4
                         else be16 (blen data))
                     ++ data))
  end.

(** The loop; [inr None] in the result is the [return] after a failure. *)
Fixpoint encryptFrames (k : K) (frames : list bytes)
    : option (K * option (list bytes)) :=
  match frames with
  | [] => Some (k, Some [])
  | frame :: frames' =>
      '(k, encrypted) ← encryptFrame k frame;
      match encrypted with
      | None => Some (k, None)
      | Some frame' =>
          r ← encryptFrames k frames';
          Some (r.1, option_map (cons frame') r.2)
      end
  end.

Definition messageTypeFor (channelId messageId : Z) : MessageType :=
  if channelId =? 0 then Specific
  else if messageId =? 0x8 then Control
  else Specific.

(** Queue and send: the input channel goes first. *)
Definition enqueueFrames (channelId : Z) (frames : list bytes) (m : t) : option t :=
  processSendQueue
    (if channelId =? ChannelId_Input
     then m <| sendQueue_ ::= cons frames |>
     else m <| sendQueue_ ::= fun q => q ++ [frames] |>).

Definition sendMessage (channelId messageId : Z) (payload : bytes) (m : t) : option t :=
  if negb (started_ m) then Some m
  else if tlsFailureEmitted_ m || protocolFailureEmitted_ m then Some m
  else
    let generation := lifecycleGeneration_ m in
    let m := emit (messageSent channelId messageId payload) m in
    if interrupted generation m then Some m
    else
      let fullPayload := be16 messageId ++ payload in
      let msgType := messageTypeFor channelId messageId in
      let encrypt := shouldEncrypt channelId messageId (sc_isActive (cryptor_ m)) in
      let encType := if encrypt then Encrypted else Plain in
      frames ← FrameSerializer.serialize channelId msgType encType fullPayload;
      if encrypt then
        '(k, encrypted) ← encryptFrames (cryptor_ m) frames;
        let m := m <| cryptor_ := k |> in
        match encrypted with
        | None => Some (failTls m)
        | Some frames => enqueueFrames channelId frames m
        end
      else enqueueFrames channelId frames m.

(** [sendRaw]'s acceptance test for the size fields. *)
Definition rawSizesOk (frameType : FrameType) (dataSize totalMessageSize : Z) : bool :=
  if 65535 <? dataSize then false
  else if decide (frameType = First) then
    negb ((totalMessageSize <? 2) || (totalMessageSize <=? dataSize)
          || (MAX_ASSEMBLED_MESSAGE_SIZE <? totalMessageSize))
  else totalMessageSize =? 0.

Definition sendRaw (channelId : Z) (data : bytes) (frameType : FrameType)
    (msgType : MessageType) (encType : EncryptionType) (totalMessageSize : Z)
    (m : t) : option t :=
  if negb (started_ m) then Some m
  else if negb (rawSizesOk frameType (blen data) totalMessageSize) then Some m
  else if tlsFailureEmitted_ m || protocolFailureEmitted_ m then Some m
  else
    let header := FrameHeader.mk channelId frameType encType msgType 0 in
    let frame :=
      FrameHeader.serialize header ++ be16 (blen data)
      ++ (if decide (frameType = First) then be32 totalMessageSize else [])
      ++ data in
    processSendQueue (m <| sendQueue_ ::= fun q => q ++ [[frame]] |>).

(** ** The handshake *)

Definition driveHandshake (m : t) : option t :=
  let '(k, result) := sc_doHandshake (cryptor_ m) in
  let '(k, outgoing) := sc_readHandshakeBuffer k in
  let m := m <| cryptor_ := k |> in
  match outgoing with
  | None => Some (failHandshake m)
  | Some data =>
      m ← (if decide (data = []) then Some m else sendMessage 0 0x3 data m);
      match result with
      | Complete => Some (emit handshakeComplete m)
      | Failed => Some (failHandshake m)
      | WantIo => Some m
      end
  end.

Definition startHandshake (m : t) : option t :=
  let m := m <| handshakeFailureEmitted_ := false |> in
  let '(k, ok) := sc_init (cryptor_ m) in
  let m := m <| cryptor_ := k |> in
  if ok then driveHandshake m else Some (failHandshake m).

Definition handleHandshakeData (data : bytes) (m : t) : option t :=
  let '(k, ok) := sc_writeHandshakeBuffer (cryptor_ m) data in
  let m := m <| cryptor_ := k |> in
  if ok then driveHandshake m else Some (failHandshake m).

(** ** Receiving *)

Definition onMessageAssembled (channelId : Z) (mt : MessageType) (payload : bytes)
    (m : t) : option t :=
  if blen payload <? 2 then Some (failProtocol (NoMessageId channelId) m)
  else
    let messageId := be_decode (take 2 payload) in
    if (channelId =? 0) && (messageId =? 0x3) && negb (sc_isActive (cryptor_ m))
    then handleHandshakeData (drop 2 payload) m
    else Some (emit (messageReceived channelId messageId payload 2 mt) m).

(** The assembler's signals, delivered while connected. *)
Definition onAssemblerEvent (e : FrameAssembler.Event) (m : t) : option t :=
  if negb (started_ m) then Some m
  else match e with
       | messageAssembled ch mt payload => onMessageAssembled ch mt payload m
       | assemblyFailed err => Some (failProtocol (Assembly err) m)
       end.

Fixpoint onAssemblerEvents (es : list FrameAssembler.Event) (m : t) : option t :=
  match es with
  | [] => Some m
  | e :: es' => m ← onAssemblerEvent e m; onAssemblerEvents es' m
  end.

Definition assemble (header : FrameHeader.t) (payload : bytes) (m : t) : option t :=
  let r := FrameAssembler.onFrame (assembler_ m) header payload in
  onAssemblerEvents r.2 (m <| assembler_ := r.1 |>).

Definition onFrameParsed (f : FrameSerializer.frame) (m : t) : option t :=
  if tlsFailureEmitted_ m || protocolFailureEmitted_ m then Some m
  else
    match FrameHeader.encryptionType f.1 with
    | Plain => assemble f.1 f.2 m
    | Encrypted =>
        let '(k, decrypted) := sc_decrypt (cryptor_ m) f.2 in
        let m := m <| cryptor_ := k |> in
        match decrypted with
        | None => Some (failTls m)
        | Some payload => assemble f.1 payload m
        end
    end.

(** The parser's [frameParsed] signal, delivered while connected. *)
Fixpoint onFramesParsed (fs : list FrameSerializer.frame) (m : t) : option t :=
  match fs with
  | [] => Some m
  | f :: fs' =>
      m ← (if started_ m then onFrameParsed f m else Some m);
      onFramesParsed fs' m
  end.

(** [FrameParser::process] with its signal connected to the messenger: the
    handlers run between two turns of the parser, and may have reset it. *)
Fixpoint receiveLoop (fuel : nat) (m : t) : option t :=
  match FrameParser.step (parser_ m) with
  | None => Some m
  | Some (p, out) =>
      match fuel with
      | O => None
      | S fuel' =>
          m ← onFramesParsed out (m <| parser_ := p |>);
          receiveLoop fuel' m
      end
  end.

(** [ITransport::dataReceived], connected to the parser while started. *)
Definition dataReceived (data : bytes) (m : t) : option t :=
  if negb (started_ m) then Some m
  else
    b ← bq_append (FrameParser.m_buffer (parser_ m)) data;
    let p := parser_ m in
    let p := FrameParser.mk (FrameParser.m_state p) b (FrameParser.m_currentHeader p)
               (FrameParser.m_sizeFieldLength p) (FrameParser.m_framePayloadSize p) in
    receiveLoop (FrameParser.processFuel p) (m <| parser_ := p |>).

Fixpoint dataReceiveds (chunks : list bytes) (m : t) : option t :=
  match chunks with
  | [] => Some m
  | c :: cs => m ← dataReceived c m; dataReceiveds cs m
  end.

Fixpoint sendMessages (ms : list (Z * Z * bytes)) (m : t) : option t :=
  match ms with
  | [] => Some m
  | (ch, id, payload) :: ms' =>
      m ← sendMessage ch id payload m; sendMessages ms' m
  end.

End Messenger.

(** * Any environment: every operation returns, and stops when told to *)

Section AnyEnvironment.
Context {K : Type} `{!SecureChannel K} (env : list Event -> Reaction).
Implicit Types m : t (K := K).

Lemma log_stop m : log (stop m) = log m.
Proof. reflexivity. Qed.

Lemma log_start m : log (start m) = log m.
Proof. unfold start. destruct (started_ m); reflexivity. Qed.

Lemma emit_log e m : log (emit env e m) = log m ++ [e].
Proof.
  unfold emit. cbv zeta.
  destruct (env _); rewrite ?log_start, ?log_stop; reflexivity.
Qed.

Lemma emit_continue e m :
  env (log m ++ [e]) = Continue -> emit env e m = m <| log := log m ++ [e] |>.
Proof.
  intros H. unfold emit. cbv zeta.
  change (log (m <| log ::= _ |>)) with (log m ++ [e]). rewrite H. reflexivity.
Qed.

Lemma generation_step g : (g + 1) mod 2 ^ 64 <> g.
Proof. pose proof (Z.div_mod (g + 1) (2 ^ 64)). lia. Qed.

(** A reaction that stops is noticed by the generation test. *)
Lemma emit_interrupted e m :
  env (log m ++ [e]) <> Continue ->
  interrupted (lifecycleGeneration_ m) (emit env e m) = true.
Proof.
  unfold emit, interrupted. cbv zeta.
  change (log (m <| log ::= _ |>)) with (log m ++ [e]).
  destruct (env _); [done| |]; intros _; [reflexivity|].
  - pose proof (generation_step (lifecycleGeneration_ m)).
    change (started_ (start (stop _))) with true.
    change (lifecycleGeneration_ (start (stop _)))
      with ((lifecycleGeneration_ m + 1) mod 2 ^ 64).
    apply orb_true_iff. right. apply negb_true_iff, Z.eqb_neq. congruence.
Qed.

Lemma interrupted_false g m :
  interrupted g m = false -> started_ m = true /\ lifecycleGeneration_ m = g.
Proof. unfold interrupted. intros ?. breflect. done. Qed.

(** [calm g m m']: what ran between [m] and [m'] logged events, none of them
    after one at which the environment interfered; if [m'] is not
    interrupted, the environment never did. *)
Definition calm (g : Z) (m m' : t (K := K)) : Prop :=
  exists new, log m' = log m ++ new
    /\ forall a e b, new = a ++ e :: b -> b <> [] \/ interrupted g m' = false ->
                     env (log m ++ a ++ [e]) = Continue.

Lemma calm_same g m m' : log m' = log m -> calm g m m'.
Proof.
  intros Hl. exists []. rewrite app_nil_r. split; [done|].
  intros a e b H. by destruct a.
Qed.

Lemma calm_log g m0 m m' : log m0 = log m -> calm g m0 m' -> calm g m m'.
Proof. unfold calm. by intros ->. Qed.

Lemma calm_emit g e m : lifecycleGeneration_ m = g -> calm g m (emit env e m).
Proof.
  intros <-. exists [e]. rewrite emit_log. split; [done|].
  intros [|x a] e' b H Hc; simplify_eq/=; [|by destruct a].
  destruct (decide (env (log m ++ [e']) = Continue)) as [|Hn]; [done|].
  destruct Hc as [|Hc]; [done|]. by rewrite (emit_interrupted _ _ Hn) in Hc.
Qed.

Lemma calm_trans g m m1 m2 :
  calm g m m1 -> interrupted g m1 = false -> calm g m1 m2 -> calm g m m2.
Proof.
  intros (n1 & Hl1 & H1) Hi (n2 & Hl2 & H2). exists (n1 ++ n2).
  rewrite Hl2, Hl1, <- (assoc_L (++)). split; [done|].
  intros a e b Heq Hc. apply app_eq_inv in Heq as [(k & Hk1 & Hk)|(k & Hk1 & Hk)]; subst.
  - destruct k as [|x k]; simplify_eq/=.
    + specialize (H2 [] e b eq_refl Hc). by rewrite Hl1, app_nil_r, <- (assoc_L (++)) in H2.
    + eapply (H1 a); eauto.
  - specialize (H2 k e b eq_refl Hc).
    by rewrite Hl1, <- (assoc_L (++)) in H2; rewrite <- (assoc_L (++)).
Qed.

Lemma calm_tail g m m1 m2 :
  calm g m m1 -> log m2 = log m1 ->
  (interrupted g m2 = false -> interrupted g m1 = false) -> calm g m m2.
Proof.
  intros (n1 & Hl1 & H1) Hl Hi. exists n1. rewrite Hl. split; [done|].
  intros a e b Heq [?|?]; eapply H1; eauto.
Qed.

Lemma writeFrames_calm g fs m :
  interrupted g m = false ->
  let r := writeFrames env g fs m in
  calm g m r.1
  /\ (r.2 = false -> interrupted g r.1 = false /\ sendQueue_ r.1 = sendQueue_ m)
  /\ (r.2 = true -> interrupted g r.1 = true).
Proof.
  revert m; induction fs as [|f fs IH]; intros m Hi; cbn [writeFrames].
  - split_and!; [by apply calm_same|done|done].
  - rewrite Hi. pose proof (interrupted_false _ _ Hi) as [_ Hg].
    pose proof (calm_emit g (wrote f) m Hg) as Hc.
    destruct (interrupted g (emit env (wrote f) m)) eqn:Hi1; cbn; [done|].
    destruct (IH _ Hi1) as (Hc1 & Hq & Ht). split_and!; [|intros Hr|done].
    + by eapply calm_trans.
    + destruct (Hq Hr) as [? ->]. split; [done|].
      rewrite emit_continue; [done|].
      destruct (decide (env (log m ++ [wrote f]) = Continue)) as [|Hn]; [done|].
      apply emit_interrupted in Hn. by rewrite Hg, Hi1 in Hn.
Qed.

(** The drain loop ends: an item leaves the queue on every turn. *)
Lemma drain_calm fuel g m :
  (length (sendQueue_ m) <= fuel)%nat -> lifecycleGeneration_ m = g ->
  exists m' r, drain env fuel g m = Some (m', r) /\ calm g m m'
    /\ (r = true -> interrupted g m' = true).
Proof.
  revert m; induction fuel as [|fuel IH]; intros m Hf Hg; cbn [drain];
    destruct (interrupted g m) eqn:Hi;
    try (exists m, false; split_and!; [done|by apply calm_same|done]);
    destruct (sendQueue_ m) as [|item rest] eqn:Hq; cbn in Hf;
    try (exists m, false; split_and!; [done|by apply calm_same|done]); [lia|].
  destruct (writeFrames_calm g item (m <| sendQueue_ := rest |>)) as (Hc & Hr & Hr');
    [exact Hi|].
  destruct (writeFrames env g item (m <| sendQueue_ := rest |>)) as [m1 [|]];
    cbn in *.
  - exists m1, true. split_and!; [done|exact (calm_log _ _ _ m1 eq_refl Hc)|auto].
  - destruct (Hr eq_refl) as [Hi1 Hq1].
    destruct (IH m1) as (m2 & r2 & -> & Hc2 & Hr2);
      [rewrite Hq1; cbn; lia|by apply interrupted_false|].
    exists m2, r2. split_and!; [done| |done].
    eapply calm_trans; [exact (calm_log _ _ _ m1 eq_refl Hc)|done..].
Qed.

Lemma processSendQueue_calm m :
  exists m', processSendQueue env m = Some m' /\ calm (lifecycleGeneration_ m) m m'.
Proof.
  unfold processSendQueue. destruct (sending_ m);
    [by eexists; split; [|apply calm_same]|].
  destruct (drain_calm (length (sendQueue_ (m <| sending_ := true |>)))
              (lifecycleGeneration_ m) (m <| sending_ := true |>))
    as (m' & r & -> & Hc & Hr); [done..|].
  assert (Hc' : calm (lifecycleGeneration_ m) m m') by (by eapply calm_log).
  cbn. destruct r; [by eauto|].
  destruct (lifecycleGeneration_ m =? lifecycleGeneration_ m');
    eexists; (split; [done|]); [|done].
  by eapply calm_tail.
Qed.

Lemma enqueueFrames_calm ch fs m :
  exists m', enqueueFrames env ch fs m = Some m'
             /\ calm (lifecycleGeneration_ m) m m'.
Proof.
  unfold enqueueFrames. destruct (ch =? ChannelId_Input);
    match goal with |- context [processSendQueue _ ?x] =>
      destruct (processSendQueue_calm x) as (m' & -> & Hc) end;
    exists m'; (split; [done|]); by eapply calm_log.
Qed.

(** The encryption loop never reads past a frame of the serializer. *)
Lemma encryptFrames_total k fs :
  is_Some (encryptFrames k (map FrameSerializer.encodeFrame fs)).
Proof.
  revert k; induction fs as [|f fs IH]; intros k;
    cbn [map encryptFrames]; [eauto|].
  unfold encryptFrame at 1.
  assert (exists h, FrameHeader.parse (take 2 (FrameSerializer.encodeFrame f)) = Some h)
    as [h ->].
  { destruct (FrameParser.encodeFrame_split f) as (sz & -> & _).
    rewrite take_app_le, take_ge by (rewrite FrameHeader.serialize_length; lia).
    cbn. eauto. }
  cbn [mbind option_bind].
  destruct (sc_encrypt _ _) as [k1 [data|]]; cbn [mbind option_bind]; [|eauto].
  destruct (IH k1) as [r ->]. cbn. eauto.
Qed.

Lemma failTls_calm m : calm (lifecycleGeneration_ m) m (failTls env m).
Proof.
  unfold failTls. destruct (tlsFailureEmitted_ m); [by apply calm_same|].
  eapply calm_log; [|apply calm_emit]; done.
Qed.

Lemma sendMessage_calm ch id payload m :
  exists m', sendMessage env ch id payload m = Some m'
             /\ calm (lifecycleGeneration_ m) m m'.
Proof.
  unfold sendMessage. destruct (started_ m) eqn:Hs; cbn [negb];
    [|by eexists; split; [|apply calm_same]].
  destruct (tlsFailureEmitted_ m || protocolFailureEmitted_ m);
    [by eexists; split; [|apply calm_same]|].
  set (m1 := emit env (messageSent ch id payload) m).
  assert (Hc : calm (lifecycleGeneration_ m) m m1) by (by apply calm_emit).
  destruct (interrupted (lifecycleGeneration_ m) m1) eqn:Hi; [by eauto|].
  destruct (interrupted_false _ _ Hi) as [_ Hg].
  destruct (FrameSerializer.serialize_fragmentation ch (messageTypeFor ch id)
     (if shouldEncrypt ch id (sc_isActive (cryptor_ m1)) then Encrypted else Plain)
     (be16 id ++ payload)) as (fs & -> & _).
  cbn [mbind option_bind].
  destruct (shouldEncrypt _ _ _).
  - destruct (encryptFrames_total (cryptor_ m1) fs) as [[k [fs'|]] ->];
      cbn [mbind option_bind].
    + destruct (enqueueFrames_calm ch fs' (m1 <| cryptor_ := k |>)) as (m' & -> & Hc').
      exists m'. split; [done|].
      change (lifecycleGeneration_ (m1 <| cryptor_ := k |>))
        with (lifecycleGeneration_ m1) in Hc'.
      rewrite Hg in Hc'.
      eapply calm_trans; [done..|]. exact (calm_log _ _ m1 _ eq_refl Hc').
    + eexists. split; [done|]. eapply calm_trans; [done..|].
      pose proof (failTls_calm (m1 <| cryptor_ := k |>)) as Hc'.
      change (lifecycleGeneration_ (m1 <| cryptor_ := k |>))
        with (lifecycleGeneration_ m1) in Hc'.
      rewrite Hg in Hc'. exact (calm_log _ _ m1 _ eq_refl Hc').
  - destruct (enqueueFrames_calm ch (map FrameSerializer.encodeFrame fs) m1)
      as (m' & -> & Hc').
    exists m'. split; [done|]. rewrite Hg in Hc'. by eapply calm_trans.
Qed.
(** ** Receiving returns

    The handlers leave the parser alone or reset it, so that a turn of the
    receive loop always brings its measure down. *)

Definition shrinks (m m' : t (K := K)) : Prop :=
  forall q, FrameParser.rel (parser_ m) q -> FrameParser.wf q ->
  exists q', FrameParser.rel (parser_ m') q' /\ FrameParser.wf q'
    /\ (FrameParser.measure q' <= FrameParser.measure q)%nat.

#[local] Instance shrinks_preorder : PreOrder shrinks.
Proof.
  split.
  - intros m q Hr Hwf. eauto.
  - intros m1 m2 m3 H12 H23 q Hr Hwf.
    destruct (H12 q Hr Hwf) as (q2 & Hr2 & Hwf2 & ?).
    destruct (H23 q2 Hr2 Hwf2) as (q3 & Hr3 & Hwf3 & ?).
    exists q3. split_and!; [done..|lia].
Qed.

Lemma shrinks_parser m m' : parser_ m' = parser_ m -> shrinks m m'.
Proof. intros Hp q. rewrite Hp. eauto. Qed.

Lemma reset_rel (p : FrameParser.t CircularBuffer.t) q :
  FrameParser.rel p q -> FrameParser.rel (FrameParser.reset p) FrameParser.create.
Proof.
  intros [_ Hb _ _ _]. constructor; try reflexivity.
  by eapply bq_clear_repr.
Qed.

Lemma cleared_shrinks m : shrinks m (cleared m).
Proof.
  intros q Hr Hwf. exists FrameParser.create.
  split_and!; [by apply (reset_rel _ q)|done|].
  change (FrameParser.measure FrameParser.create) with 0%nat. lia.
Qed.

Lemma stop_shrinks m : shrinks m (stop m).
Proof.
  set (m1 := m <| lifecycleGeneration_ ::= fun g => (g + 1) mod 2 ^ 64 |>
               <| started_ := false |>).
  transitivity m1; [by apply shrinks_parser|].
  transitivity (cleared m1); [apply cleared_shrinks|by apply shrinks_parser].
Qed.

Lemma start_shrinks m : shrinks m (start m).
Proof.
  unfold start. destruct (started_ m); [done|].
  transitivity (cleared m); [apply cleared_shrinks|by apply shrinks_parser].
Qed.

Lemma emit_shrinks e m : shrinks m (emit env e m).
Proof.
  unfold emit. cbv zeta.
  assert (shrinks m (m <| log ::= fun l => l ++ [e] |>))
    by (by apply shrinks_parser).
  destruct (env _); [done|..].
  - transitivity (m <| log ::= fun l => l ++ [e] |>); [done|apply stop_shrinks].
  - transitivity (m <| log ::= fun l => l ++ [e] |>); [done|].
    etransitivity; [apply stop_shrinks|apply start_shrinks].
Qed.

(** [returns m x]: the computation [x], started in [m], has a result. *)
Definition returns (m : t (K := K)) (x : option (t (K := K))) : Prop :=
  exists m', x = Some m' /\ shrinks m m'.

Lemma returns_ret m m' : shrinks m m' -> returns m (Some m').
Proof. unfold returns. eauto. Qed.

Lemma returns_bind m x f :
  returns m x -> (forall m', x = Some m' -> returns m' (f m')) ->
  returns m (x ≫= f).
Proof.
  intros (m1 & -> & H1) Hf. destruct (Hf m1 eq_refl) as (m2 & E & H2).
  exists m2. cbn [mbind option_bind]. split; [done|by etransitivity].
Qed.

Lemma returns_from m m0 x : shrinks m m0 -> returns m0 x -> returns m x.
Proof. intros H (m' & -> & H'). exists m'. split; [done|by etransitivity]. Qed.

Lemma writeFrames_shrinks g fs m : shrinks m (writeFrames env g fs m).1.
Proof.
  revert m; induction fs as [|f fs IH]; intros m; cbn [writeFrames]; [done|].
  destruct (interrupted g m); [done|].
  destruct (interrupted g (emit env (wrote f) m)); [apply emit_shrinks|].
  etransitivity; [apply emit_shrinks|apply IH].
Qed.

Lemma drain_shrinks fuel g m m' r :
  drain env fuel g m = Some (m', r) -> shrinks m m'.
Proof.
  revert m; induction fuel as [|fuel IH]; intros m; cbn [drain];
    destruct (interrupted g m); try (by intros [= <- _]);
    destruct (sendQueue_ m) as [|item rest]; try (by intros [= <- _]).
  pose proof (writeFrames_shrinks g item (m <| sendQueue_ := rest |>)) as H.
  intros Hd. assert (shrinks m (m <| sendQueue_ := rest |>)) by (by apply shrinks_parser).
  etransitivity; [done|].
  destruct (writeFrames env g item (m <| sendQueue_ := rest |>)) as [m1 [|]];
    cbn [fst snd] in *.
  { injection Hd as Hm _. rewrite <- Hm. exact H. }
  transitivity m1; [exact H|by apply IH].
Qed.

Lemma processSendQueue_returns m : returns m (processSendQueue env m).
Proof.
  unfold processSendQueue. destruct (sending_ m); [by apply returns_ret|].
  destruct (drain_calm (length (sendQueue_ (m <| sending_ := true |>)))
              (lifecycleGeneration_ m) (m <| sending_ := true |>))
    as (m' & r & E & _); [done..|].
  rewrite E. apply drain_shrinks in E.
  assert (shrinks m m') by (etransitivity; [|exact E]; by apply shrinks_parser).
  cbn. destruct r; [by apply returns_ret|].
  destruct (lifecycleGeneration_ m =? lifecycleGeneration_ m'); apply returns_ret;
    [|done]. etransitivity; [done|]. by apply shrinks_parser.
Qed.

Lemma enqueueFrames_returns ch fs m : returns m (enqueueFrames env ch fs m).
Proof.
  unfold enqueueFrames. eapply returns_from; [|apply processSendQueue_returns].
  destruct (ch =? ChannelId_Input); by apply shrinks_parser.
Qed.

Lemma failTls_shrinks m : shrinks m (failTls env m).
Proof.
  unfold failTls. destruct (tlsFailureEmitted_ m); [done|].
  etransitivity; [|apply emit_shrinks]. by apply shrinks_parser.
Qed.

Lemma failHandshake_shrinks m : shrinks m (failHandshake env m).
Proof.
  unfold failHandshake. destruct (handshakeFailureEmitted_ m); [done|].
  etransitivity; [|apply emit_shrinks]. by apply shrinks_parser.
Qed.

Lemma failProtocol_shrinks e m : shrinks m (failProtocol env e m).
Proof.
  unfold failProtocol. destruct (protocolFailureEmitted_ m); [done|].
  etransitivity; [|apply emit_shrinks]. by apply shrinks_parser.
Qed.

Lemma sendMessage_returns ch id payload m :
  returns m (sendMessage env ch id payload m).
Proof.
  unfold sendMessage. destruct (started_ m); cbn [negb]; [|by apply returns_ret].
  destruct (_ || _); [by apply returns_ret|]. cbv zeta.
  set (m1 := emit env (messageSent ch id payload) m).
  assert (H1 : shrinks m m1) by apply emit_shrinks.
  destruct (interrupted _ _); [by apply returns_ret|].
  destruct (FrameSerializer.serialize_fragmentation ch (messageTypeFor ch id)
     (if shouldEncrypt ch id (sc_isActive (cryptor_ m1)) then Encrypted else Plain)
     (be16 id ++ payload)) as (fs & -> & _).
  cbn [mbind option_bind]. eapply returns_from; [exact H1|].
  destruct (shouldEncrypt _ _ _); [|apply enqueueFrames_returns].
  destruct (encryptFrames_total (cryptor_ m1) fs) as [[k [fs'|]] ->];
    cbn [mbind option_bind].
  - eapply returns_from; [|apply enqueueFrames_returns]. by apply shrinks_parser.
  - apply returns_ret. etransitivity; [|apply failTls_shrinks].
    by apply shrinks_parser.
Qed.

Lemma driveHandshake_returns m : returns m (driveHandshake env m).
Proof.
  unfold driveHandshake. destruct (sc_doHandshake _) as [k result].
  destruct (sc_readHandshakeBuffer k) as [k1 [data|]].
  - apply (returns_from _ (m <| cryptor_ := k1 |>)); [by apply shrinks_parser|].
    cbv zeta. eapply returns_bind.
    + destruct (decide (data = [])); [by apply returns_ret|apply sendMessage_returns].
    + intros m' _. destruct result; apply returns_ret;
        [apply emit_shrinks|done|apply failHandshake_shrinks].
  - apply returns_ret. etransitivity; [|apply failHandshake_shrinks].
    by apply shrinks_parser.
Qed.

Lemma handleHandshakeData_returns data m : returns m (handleHandshakeData env data m).
Proof.
  unfold handleHandshakeData.
  destruct (sc_writeHandshakeBuffer _ _) as [k ok]. cbv zeta.
  apply (returns_from _ (m <| cryptor_ := k |>)); [by apply shrinks_parser|].
  destruct ok; [apply driveHandshake_returns|].
  apply returns_ret, failHandshake_shrinks.
Qed.

Lemma assemble_returns h payload m : returns m (assemble env h payload m).
Proof.
  unfold assemble.
  apply (returns_from _ (m <| assembler_ := (onFrame (assembler_ m) h payload).1 |>));
    [by apply shrinks_parser|]. cbv zeta.
  generalize (m <| assembler_ := (onFrame (assembler_ m) h payload).1 |>) as m1.
  generalize (onFrame (assembler_ m) h payload).2 as es. clear m h payload.
  induction es as [|e es IH]; intros m; cbn [onAssemblerEvents];
    [by apply returns_ret|].
  apply returns_bind; [|by intros].
  unfold onAssemblerEvent. destruct (started_ m); cbn [negb]; [|by apply returns_ret].
  destruct e as [ch mt pl|err]; [|apply returns_ret, failProtocol_shrinks].
  unfold onMessageAssembled.
  destruct (blen pl <? 2); [apply returns_ret, failProtocol_shrinks|].
  cbv zeta. destruct (_ && _ && _); [apply handleHandshakeData_returns|].
  apply returns_ret, emit_shrinks.
Qed.

Lemma onFrameParsed_returns f m : returns m (onFrameParsed env f m).
Proof.
  unfold onFrameParsed. destruct (_ || _); [by apply returns_ret|].
  destruct (FrameHeader.encryptionType f.1); [apply assemble_returns|].
  destruct (sc_decrypt _ _) as [k [payload|]]; cbv zeta;
    apply (returns_from _ (m <| cryptor_ := k |>)); try (by apply shrinks_parser).
  - apply assemble_returns.
  - apply returns_ret, failTls_shrinks.
Qed.

Lemma onFramesParsed_returns fs m : returns m (onFramesParsed env fs m).
Proof.
  revert m; induction fs as [|f fs IH]; intros m; cbn [onFramesParsed];
    [by apply returns_ret|].
  apply returns_bind; [|by intros].
  destruct (started_ m); [apply onFrameParsed_returns|by apply returns_ret].
Qed.

(** The parser is in a state that some sequence of unread bytes explains. *)
Definition parser_ok (m : t (K := K)) : Prop :=
  exists q, FrameParser.rel (parser_ m) q /\ FrameParser.wf q.

Lemma receiveLoop_returns fuel m q :
  FrameParser.rel (parser_ m) q -> FrameParser.wf q ->
  (FrameParser.measure q <= fuel)%nat ->
  exists m', receiveLoop env fuel m = Some m' /\ parser_ok m'.
Proof.
  revert m q; induction fuel as [|fuel IH]; intros m q Hr Hwf Hf; cbn [receiveLoop];
    pose proof (FrameParser.step_rel _ _ Hr Hwf) as Hst;
    destruct (FrameParser.step (parser_ m)) as [[p out]|],
      (FrameParser.step q) as [[q1 out']|] eqn:Hq; try done;
    try (by exists m; split; [|exists q]);
    destruct Hst as (Hr1 & Hwf1 & ->);
    pose proof (FrameParser.step_measure _ _ _ Hwf Hq); [lia|].
  destruct (onFramesParsed_returns out' (m <| parser_ := p |>)) as (m1 & -> & Hsh).
  cbn [mbind option_bind]. destruct (Hsh q1 Hr1 Hwf1) as (q2 & Hr2 & Hwf2 & ?).
  apply (IH m1 q2); [done..|lia].
Qed.

Lemma dataReceived_returns data m :
  parser_ok m -> exists m', dataReceived env data m = Some m' /\ parser_ok m'.
Proof.
  intros (q & Hr & Hwf). unfold dataReceived.
  destruct (started_ m); cbn [negb]; [|by exists m; split; [|exists q]].
  destruct (bq_append_repr _ _ data (FrameParser.rel_buffer _ _ Hr))
    as (b & -> & Hb). cbn [mbind option_bind]. cbv zeta.
  apply (receiveLoop_returns _ _ (FrameParser.extend q data)).
  - destruct Hr. by constructor.
  - done.
  - unfold FrameParser.processFuel, FrameParser.measure. cbn [FrameParser.m_buffer].
    rewrite (bq_available_repr _ _ Hb). cbn [FrameParser.extend FrameParser.m_buffer].
    case_decide; lia.
Qed.


End AnyEnvironment.

(** * The quiet environment: what the two ends do for each other *)

Definition quiet : list Event -> Reaction := fun _ => Continue.

(** Bytes handed to the transport. *)
Fixpoint writes (es : list Event) : list bytes :=
  match es with
  | [] => []
  | wrote frame :: es' => frame :: writes es'
  | _ :: es' => writes es'
  end.

Lemma writes_app es es' : writes (es ++ es') = writes es ++ writes es'.
Proof. induction es as [|[]]; simpl; rewrite ?IHes; done. Qed.

Lemma writes_wrote fs : writes (map wrote fs) = fs.
Proof. induction fs; simpl; congruence. Qed.

(** What the receiving side's client is told of a sent message. *)
Definition delivered (msg : Z * Z * bytes) : Event :=
  let '(ch, id, payload) := msg in
  messageReceived ch id (be16 id ++ payload) 2 (messageTypeFor ch id).

Definition sendable (msg : Z * Z * bytes) : Prop :=
  let '(ch, id, payload) := msg in
  u8 ch /\ u16 id /\ 2 + blen payload <= MAX_ASSEMBLED_MESSAGE_SIZE.

Definition received (e : FrameAssembler.Event) : Event :=
  match e with
  | messageAssembled ch mt pl =>
      messageReceived ch (be_decode (take 2 pl)) pl 2 mt
  | assemblyFailed err => protocolFailed (Assembly err)
  end.

Definition good (e : FrameAssembler.Event) : Prop :=
  match e with
  | messageAssembled _ _ pl => 2 <= blen pl
  | assemblyFailed _ => False
  end.

Section Quiet.
Context {K : Type} `{!SecureChannel K}.
Implicit Types m : t (K := K).

Record ready m : Prop := {
  ready_started : started_ m = true;
  ready_sending : sending_ m = false;
  ready_tls : tlsFailureEmitted_ m = false;
  ready_protocol : protocolFailureEmitted_ m = false;
  ready_queue : sendQueue_ m = []
}.

Record listening m : Prop := {
  listening_started : started_ m = true;
  listening_tls : tlsFailureEmitted_ m = false;
  listening_protocol : protocolFailureEmitted_ m = false;
  listening_assembler : assembler_ m = FrameAssembler.create;
  listening_parser : exists q,
    FrameParser.rel (parser_ m) q /\ FrameParser.wf q
    /\ FrameParser.m_state q = FrameParser.ReadHeader
    /\ FrameParser.m_buffer q = []
}.

Lemma interrupted_self m : started_ m = true -> interrupted (lifecycleGeneration_ m) m = false.
Proof. intros H. unfold interrupted. by rewrite H, Z.eqb_refl. Qed.

Lemma emit_quiet e m : emit quiet e m = m <| log := log m ++ [e] |>.
Proof. by apply emit_continue. Qed.

Lemma writeFrames_quiet fs m :
  started_ m = true ->
  writeFrames quiet (lifecycleGeneration_ m) fs m
  = (m <| log := log m ++ map wrote fs |>, false).
Proof.
  revert m; induction fs as [|f fs IH]; intros m Hs; cbn [writeFrames map].
  - rewrite app_nil_r. by destruct m.
  - rewrite emit_quiet, interrupted_self by done.
    change (interrupted (lifecycleGeneration_ m) (m <| log := log m ++ [wrote f] |>))
      with (interrupted (lifecycleGeneration_ m) m).
    rewrite interrupted_self by done.
    pose proof (IH (m <| log := log m ++ [wrote f] |>) Hs) as E.
    change (lifecycleGeneration_ (m <| log := _ |>))
      with (lifecycleGeneration_ m) in E.
    rewrite E. cbn. by rewrite <- (assoc_L (++)).
Qed.

(** An idle messenger writes what is queued, in order, and is idle again. *)
Lemma processSendQueue_quiet item m :
  started_ m = true -> sending_ m = false -> sendQueue_ m = [item] ->
  processSendQueue quiet m
  = Some (m <| sendQueue_ := [] |> <| log := log m ++ map wrote item |>).
Proof.
  intros Hs Hn Hq. unfold processSendQueue. rewrite Hn. cbv zeta.
  change (sendQueue_ (m <| sending_ := true |>)) with (sendQueue_ m).
  rewrite Hq. cbn [length drain].
  change (interrupted _ (m <| sending_ := true |>))
    with (interrupted (lifecycleGeneration_ m) m).
  change (sendQueue_ (m <| sending_ := true |>)) with (sendQueue_ m).
  rewrite interrupted_self, Hq by done.
  pose proof (writeFrames_quiet item
    (m <| sending_ := true |> <| sendQueue_ := [] |>) Hs) as Hw.
  cbn in Hw |- *. rewrite Hw. cbn.
  unfold interrupted. cbn. rewrite Hs, Z.eqb_refl. cbn. rewrite Z.eqb_refl.
  by destruct m; cbn in *; subst.
Qed.

Lemma enqueueFrames_quiet ch fs m :
  ready m ->
  enqueueFrames quiet ch fs m = Some (m <| log := log m ++ map wrote fs |>).
Proof.
  intros [Hs Hn _ _ Hq]. unfold enqueueFrames.
  assert (Hst : m <| sendQueue_ := [fs] |> = (if ch =? ChannelId_Input
     then m <| sendQueue_ ::= cons fs |>
     else m <| sendQueue_ ::= fun q => q ++ [fs] |>)).
  { cbn. rewrite Hq. by destruct (ch =? ChannelId_Input). }
  rewrite <- Hst. rewrite (processSendQueue_quiet fs); [|done..].
  by destruct m; cbn in *; subst.
Qed.

(** ** Encrypted frames and their decryption *)

(** [deciphers k fs' fs k']: the receiver turns the frames on the wire [fs']
    into the plaintext frames [fs]; its session is active all along. *)
Inductive deciphers :
    K -> list FrameSerializer.frame -> list FrameSerializer.frame -> K -> Prop :=
| deciphers_nil k : sc_isActive k = true -> deciphers k [] [] k
| deciphers_plain k k' f fs' fs :
    FrameHeader.encryptionType f.1 = Plain -> sc_isActive k = true ->
    deciphers k fs' fs k' -> deciphers k (f :: fs') (f :: fs) k'
| deciphers_encrypted k k1 k' h c p fs' fs :
    FrameHeader.encryptionType h = Encrypted ->
    sc_decrypt k c = (k1, Some p) -> sc_isActive k1 = true ->
    deciphers k1 fs' fs k' -> deciphers k ((h, c) :: fs') ((h, p) :: fs) k'.

Lemma deciphers_app k k1 k2 fs' gs' fs gs :
  deciphers k fs' fs k1 -> deciphers k1 gs' gs k2 ->
  deciphers k (fs' ++ gs') (fs ++ gs) k2.
Proof. induction 1; simpl; eauto using deciphers. Qed.

Lemma deciphers_active k fs' fs k' : deciphers k fs' fs k' -> sc_isActive k' = true.
Proof. by induction 1. Qed.

Lemma deciphers_app_inv k k2 fs' gs' hs :
  deciphers k (fs' ++ gs') hs k2 -> sc_isActive k = true ->
  exists fs gs k1, hs = fs ++ gs /\ deciphers k fs' fs k1 /\ deciphers k1 gs' gs k2.
Proof.
  revert k hs; induction fs' as [|f fs' IH]; intros k hs H Ha; simpl in *.
  - exists [], hs, k. eauto using deciphers.
  - inversion H as [|? ? ? ? gs1 ? ? H1|? k1 ? h c p ? gs1 ? ? Ha1 H1]; subst.
    + destruct (IH _ _ H1 Ha) as (a & b & k1 & -> & ? & ?).
      exists (f :: a), b, k1. eauto using deciphers.
    + destruct (IH _ _ H1 Ha1) as (a & b & k3 & -> & ? & ?).
      exists ((h, p) :: a), b, k3. eauto using deciphers.
Qed.

(** The loop body rebuilds the frame around the encrypted payload. *)
Lemma encryptFrame_encode k k' h p c :
  u8 (FrameHeader.channelId h) -> sc_encrypt k p = (k', Some c) ->
  encryptFrame k (FrameSerializer.encodeFrame (h, p))
  = Some (k', Some (FrameSerializer.encodeFrame (h, c))).
Proof.
  intros Hch He. unfold encryptFrame, FrameSerializer.encodeFrame,
    FrameSerializer.buildFrame. cbn [fst snd].
  pose proof (FrameHeader.serialize_length h) as Hl.
  rewrite (take_app_le (FrameHeader.serialize h)), take_ge by lia.
  rewrite <- (app_nil_r (FrameHeader.serialize h)) at 1.
  rewrite FrameHeader.parse_serialize by done. cbn [mbind option_bind].
  unfold FrameHeader.set_total. cbn [FrameHeader.frameType].
  unfold FrameHeader.sizeFieldLength.
  destruct (decide (FrameHeader.frameType h = First)).
  - set (sz := be16 (blen p)). set (tot := be32 (FrameHeader.totalMessageSize h)).
    assert (length sz = 2%nat) by apply be16_length.
    assert (length tot = 4%nat) by apply be32_length.
    set (hd := FrameHeader.serialize h) in *.
    replace (hd ++ (sz ++ tot) ++ p) with ((hd ++ sz ++ tot) ++ p)
      by (by rewrite <- !(assoc_L (++))).
    rewrite (drop_app_length' (hd ++ sz ++ tot)) by (rewrite !length_app; lia).
    rewrite (take_app_length' (hd ++ sz ++ tot)) by (rewrite !length_app; lia).
    rewrite He. unfold mid.
    rewrite (take_app_length' hd) by done.
    rewrite (assoc_L (++) hd sz tot), (drop_app_length' (hd ++ sz)) by
      (rewrite length_app; lia).
    rewrite (take_ge tot) by lia. done.
  - set (hd := FrameHeader.serialize h) in *.
    rewrite (assoc_L (++) hd).
    rewrite (drop_app_length' (hd ++ be16 (blen p))) by
      (rewrite length_app, be16_length; lia).
    rewrite (take_app_length' (hd ++ be16 (blen p))) by
      (rewrite length_app, be16_length; lia).
    rewrite He. by rewrite (take_app_length' hd) by done.
Qed.

(** A frame of the encrypting sender: payload neither empty nor too long. *)
Definition encryptable (f : FrameSerializer.frame) : Prop :=
  FrameHeader.encryptionType f.1 = Encrypted /\ FrameParser.frame_wf f
  /\ f.2 <> [] /\ blen f.2 <= FrameSerializer.FRAME_MAX_PAYLOAD.

Lemma encryptFrames_deciphers fs k1 k2 :
  sc_insync k1 k2 -> Forall encryptable fs ->
  exists k1' k2' fs',
    encryptFrames k1 (map FrameSerializer.encodeFrame fs)
      = Some (k1', Some (map FrameSerializer.encodeFrame fs'))
    /\ sc_insync k1' k2' /\ Forall FrameParser.frame_wf fs'
    /\ deciphers k2 fs' fs k2'.
Proof.
  intros Hs Hfs. revert k1 k2 Hs.
  induction Hfs as [|[h p] fs (He & (Hch & Hp & Ht) & Hne & Hmax) _ IH];
    intros k1 k2 Hs; cbn [map encryptFrames].
  - exists k1, k2, []. split_and!; [done..|]. constructor.
    by apply (sc_insync_active k1 k2).
  - destruct (sc_transfer k1 k2 p Hs Hne Hmax) as (k1' & k2' & c & Hen & Hc & Hde & Hs').
    cbn [fst snd] in *.
    rewrite (encryptFrame_encode _ _ _ _ _ Hch Hen). cbn [mbind option_bind].
    destruct (IH k1' k2' Hs') as (k3 & k4 & fs' & -> & Hs3 & Hwf & Hd).
    exists k3, k4, ((h, c) :: fs'). cbn [mbind option_bind fst snd option_map map].
    split_and!; [done|done| |].
    + constructor; [|done]. by split_and!.
    + eapply deciphers_encrypted; eauto. by apply (sc_insync_active k1' k2').
Qed.


(** ** The sender *)

Lemma fragmentation_payloads ch mt et pl fs :
  u8 ch -> 0 < blen pl < 2 ^ 32 ->
  FrameSerializer.fragmentation ch mt et pl fs ->
  Forall (fun f => FrameHeader.encryptionType f.1 = et /\ FrameParser.frame_wf f
    /\ f.2 <> [] /\ blen f.2 <= FrameSerializer.FRAME_MAX_PAYLOAD) fs.
Proof.
  intros Hch Hpl Hfrag. pose proof (FrameParser.fragmentation_frame_wf ch mt et pl fs Hch
    (proj2 Hpl) Hfrag) as Hwf.
  assert (Hne : forall c : bytes, 0 < blen c -> c <> []) by (by intros [|]).
  assert (HM : 0 < FrameSerializer.FRAME_MAX_PAYLOAD) by reflexivity.
  rewrite Forall_forall in Hwf. apply Forall_forall. intros f Hf.
  specialize (Hwf f Hf).
  cut (FrameHeader.encryptionType f.1 = et
       /\ 0 < blen f.2 <= FrameSerializer.FRAME_MAX_PAYLOAD).
  { intros (? & ? & ?). auto. }
  clear Hwf. destruct Hfrag as [Hle|c0 cs cl _ Hc0 Hcs Hcl].
  - apply list_elem_of_singleton in Hf as ->. split; [done|cbn [snd]; lia].
  - rewrite elem_of_cons, elem_of_app, list_elem_of_singleton in Hf.
    destruct Hf as [->|[Hf| ->]]; cbn [fst snd FrameHeader.encryptionType].
    + split; [done|lia].
    + apply list_elem_of_In, in_map_iff in Hf as (c & <- & Hc).
      apply list_elem_of_In in Hc. rewrite Forall_forall in Hcs.
      cbn [fst snd FrameHeader.encryptionType]. split; [done|].
      specialize (Hcs c Hc). lia.
    + done.
Qed.

Lemma plain_deciphers k fs :
  sc_isActive k = true ->
  Forall (fun f => FrameHeader.encryptionType f.1 = Plain) fs -> deciphers k fs fs k.
Proof. induction 2; eauto using deciphers. Qed.

(** One message, sent by an idle messenger: its frames are written, and the
    peer turns them back into a fragmentation of the message. *)
Lemma sendMessage_quiet m k2 ch id payload :
  ready m -> sc_insync (cryptor_ m) k2 -> sendable (ch, id, payload) ->
  exists k1' k2' fs' fs et,
    sendMessage quiet ch id payload m
      = Some (m <| cryptor_ := k1' |>
                <| log := log m ++ messageSent ch id payload
                            :: map wrote (map FrameSerializer.encodeFrame fs') |>)
    /\ sc_insync k1' k2' /\ Forall FrameParser.frame_wf fs'
    /\ deciphers k2 fs' fs k2'
    /\ FrameSerializer.fragmentation ch (messageTypeFor ch id) et
         (be16 id ++ payload) fs.
Proof.
  intros Hr Hs (Hch & Hid & Hlen). pose proof Hr as [Hst _ Ht Hp _].
  unfold sendMessage. rewrite Hst, Ht, Hp. cbn [negb orb]. cbv zeta.
  rewrite emit_quiet. set (m1 := m <| log := log m ++ [messageSent ch id payload] |>).
  change (interrupted (lifecycleGeneration_ m) m1)
    with (interrupted (lifecycleGeneration_ m) m).
  rewrite interrupted_self by done.
  assert (Hr1 : ready m1) by (by destruct Hr).
  change (cryptor_ m1) with (cryptor_ m).
  destruct (sc_insync_active _ _ Hs) as [Ha1 Ha2].
  set (et := if shouldEncrypt ch id (sc_isActive (cryptor_ m)) then Encrypted else Plain).
  destruct (FrameSerializer.serialize_fragmentation ch (messageTypeFor ch id) et
              (be16 id ++ payload)) as (fs & -> & Hfrag).
  cbn [mbind option_bind].
  assert (Hb : 0 < blen (be16 id ++ payload) < 2 ^ 32).
  { rewrite blen_app, blen_be16. pose proof (blen_nonneg payload).
    unfold MAX_ASSEMBLED_MESSAGE_SIZE in Hlen. lia. }
  pose proof (fragmentation_payloads _ _ _ _ _ Hch Hb Hfrag) as Hfs.
  assert (Hlog : forall k (l : list bytes),
    (m1 <| cryptor_ := k |>) <| log := log m1 ++ map wrote l |>
    = m <| cryptor_ := k |>
        <| log := log m ++ messageSent ch id payload :: map wrote l |>).
  { intros. cbn. by rewrite <- (assoc_L (++)). }
  destruct (shouldEncrypt ch id (sc_isActive (cryptor_ m))) eqn:He; subst et.
  - destruct (encryptFrames_deciphers fs _ _ Hs) as (k1' & k2' & fs' & -> & ? & ? & ?);
      [done|].
    cbn [mbind option_bind]. rewrite enqueueFrames_quiet by (by destruct Hr1).
    exists k1', k2', fs', fs, Encrypted. split_and!; [|done..].
    f_equal. apply Hlog.
  - rewrite enqueueFrames_quiet by done.
    exists (cryptor_ m), k2, fs, fs, Plain. split_and!; [|done| | |done].
    + f_equal. rewrite <- Hlog. by destruct m.
    + eapply Forall_impl; [exact Hfs|]. by intros f (_ & ? & _).
    + apply plain_deciphers; [done|].
      eapply Forall_impl; [exact Hfs|]. by intros f (? & _).
Qed.

(** ** The receiver *)

Lemma onAssemblerEvents_quiet es m :
  started_ m = true -> sc_isActive (cryptor_ m) = true -> Forall good es ->
  onAssemblerEvents quiet es m = Some (m <| log := log m ++ map received es |>).
Proof.
  intros Hs Ha Hes; revert m Hs Ha.
  induction Hes as [|e es He _ IH]; intros m Hs Ha; cbn [onAssemblerEvents map].
  - rewrite app_nil_r. by destruct m.
  - unfold onAssemblerEvent. rewrite Hs. cbn [negb].
    destruct e as [ch mt pl|]; [|done]. cbn [good] in He.
    unfold onMessageAssembled. destruct (Z.ltb_spec (blen pl) 2); [lia|].
    cbv zeta. rewrite Ha, andb_false_r. cbn [negb mbind option_bind].
    rewrite emit_quiet.
    pose proof (IH (m <| log := log m ++ [received (messageAssembled ch mt pl)] |>)
                  Hs Ha) as E.
    cbn [received] in E. rewrite E. cbn. by rewrite <- (assoc_L (++)).
Qed.

(** The state after receiving frames that decrypt and assemble well. *)
Definition absorbed m (k : K) (a : FrameAssembler.t) (es : list FrameAssembler.Event) : t :=
  m <| cryptor_ := k |> <| assembler_ := a |> <| log := log m ++ map received es |>.

Lemma absorbed_absorbed m k1 a1 es1 k a es :
  absorbed (absorbed m k1 a1 es1) k a es = absorbed m k a (es1 ++ es).
Proof. unfold absorbed. cbn. by rewrite map_app, (assoc_L (++)). Qed.

Definition unfailed m : Prop :=
  started_ m = true /\ tlsFailureEmitted_ m = false /\ protocolFailureEmitted_ m = false.

Lemma onFrameParsed_quiet f f' k' m :
  unfailed m -> deciphers (cryptor_ m) [f'] [f] k' ->
  Forall good (onFrame (assembler_ m) f.1 f.2).2 ->
  onFrameParsed quiet f' m
  = Some (absorbed m k' (onFrame (assembler_ m) f.1 f.2).1
            (onFrame (assembler_ m) f.1 f.2).2).
Proof.
  intros (Hs & Ht & Hp) Hd Hg. unfold onFrameParsed. rewrite Ht, Hp. cbn [orb].
  inversion Hd as [|? ? ? ? ? He Ha Hd1|? k1 ? h c p ? ? He Hc Ha Hd1]; subst;
    inversion Hd1; subst; cbn [fst snd] in *; rewrite He.
  - unfold assemble. cbv zeta. rewrite onAssemblerEvents_quiet by done.
    unfold absorbed. by destruct m.
  - rewrite Hc. cbv zeta. unfold assemble.
    change (assembler_ (m <| cryptor_ := k' |>)) with (assembler_ m). cbv zeta.
    rewrite onAssemblerEvents_quiet by done. reflexivity.
Qed.

(** The receive loop over a run of the parser. *)
Lemma receiveLoop_quiet fuel m q o q' fs k' a' es :
  FrameParser.rel (parser_ m) q -> FrameParser.wf q ->
  (FrameParser.measure q <= fuel)%nat -> FrameParser.Run q o q' ->
  unfailed m -> sc_isActive (cryptor_ m) = true ->
  deciphers (cryptor_ m) o fs k' ->
  onFrames (assembler_ m) fs = (a', es) -> Forall good es ->
  exists p', receiveLoop quiet fuel m = Some (absorbed m k' a' es <| parser_ := p' |>)
    /\ FrameParser.rel p' q'.
Proof.
  intros Hrel Hwf Hf Hrun. revert fuel m fs es Hrel Hwf Hf.
  induction Hrun as [q Hq|q q1 q2 o1 o2 Hq _ IH];
    intros fuel m fs es Hrel Hwf Hf Hm Ha Hd Hon Hg;
    pose proof (FrameParser.step_rel _ _ Hrel Hwf) as Hst; rewrite Hq in Hst;
    destruct fuel as [|fuel]; cbn [receiveLoop];
    destruct (FrameParser.step (parser_ m)) as [[p out]|] eqn:Hp; try done.
  1,2: inversion Hd; subst; simplify_eq/=; exists (parser_ m);
       (split; [|done]); f_equal; unfold absorbed; cbn; rewrite app_nil_r; by destruct m.
  { pose proof (FrameParser.step_measure _ _ _ Hwf Hq). lia. }
  destruct Hst as (Hr1 & Hwf1 & ->).
  pose proof (FrameParser.step_measure _ _ _ Hwf Hq) as Hlt.
  destruct (deciphers_app_inv _ _ _ _ _ Hd Ha) as (fs1 & fs2 & k1 & -> & Hd1 & Hd2).
  rewrite onFrames_app in Hon. injection Hon as <- <-.
  apply Forall_app in Hg as [Hg1 Hg2].
  assert (E : onFramesParsed quiet o1 (m <| parser_ := p |>)
    = Some (absorbed m k1 (onFrames (assembler_ m) fs1).1
              (onFrames (assembler_ m) fs1).2 <| parser_ := p |>)).
  { destruct (FrameParser.step_output _ _ _ Hq) as [->|[f ->]];
      cbn [onFramesParsed].
    - inversion Hd1; subst. f_equal. unfold absorbed. cbn. rewrite app_nil_r.
      by destruct m.
    - destruct Hm as (Hs & Ht & Hpr).
      change (started_ (m <| parser_ := p |>)) with (started_ m). rewrite Hs.
      assert (exists f0, fs1 = [f0]) as [f0 ->].
      { inversion Hd1 as [|? ? ? ? ? ? ? Hn|? ? ? ? ? ? ? ? ? ? ? Hn]; subst;
          inversion Hn; subst; eauto. }
      cbn [onFrames fst snd] in Hg1 |- *. rewrite app_nil_r in Hg1 |- *.
      rewrite (onFrameParsed_quiet f0 f k1 (m <| parser_ := p |>)) by done.
      reflexivity. }
  rewrite E. cbn [mbind option_bind].
  destruct (IH fuel (absorbed m k1 (onFrames (assembler_ m) fs1).1
              (onFrames (assembler_ m) fs1).2 <| parser_ := p |>) fs2
              (onFrames (onFrames (assembler_ m) fs1).1 fs2).2)
    as (p' & E' & Hrel'); [done|done|lia|done| |done| |done|].
  - by eapply deciphers_active.
  - change (assembler_ (absorbed m k1 ?a ?e <| parser_ := p |>)) with a.
    apply surjective_pairing.
  - exists p'. split; [|done]. rewrite E'. f_equal.
    unfold absorbed. cbn. by rewrite map_app, (assoc_L (++)).
Qed.


Lemma dataReceived_quiet c m q o q' fs k' a' es :
  FrameParser.rel (parser_ m) q -> FrameParser.wf q ->
  FrameParser.Run (FrameParser.extend q c) o q' ->
  unfailed m -> sc_isActive (cryptor_ m) = true ->
  deciphers (cryptor_ m) o fs k' ->
  onFrames (assembler_ m) fs = (a', es) -> Forall good es ->
  exists p', dataReceived quiet c m = Some (absorbed m k' a' es <| parser_ := p' |>)
    /\ FrameParser.rel p' q'.
Proof.
  intros Hr Hwf Hrun Hm Ha Hd Hon Hg. unfold dataReceived.
  rewrite (proj1 Hm). cbn [negb].
  destruct (bq_append_repr _ _ c (FrameParser.rel_buffer _ _ Hr)) as (b & -> & Hb).
  cbn [mbind option_bind]. cbv zeta.
  set (p := FrameParser.mk _ b _ _ _).
  assert (Hrp : FrameParser.rel p (FrameParser.extend q c))
    by (destruct Hr; by constructor).
  set (m1 := m <| parser_ := p |>).
  destruct (receiveLoop_quiet (FrameParser.processFuel p) m1 _ o q' fs k' a' es Hrp Hwf)
    as (p' & E & Hr'); [|done..|].
  - unfold FrameParser.processFuel, FrameParser.measure.
    change (FrameParser.m_buffer p) with b.
    rewrite (bq_available_repr _ _ Hb). case_decide; simpl; lia.
  - exists p'. split; [|done]. rewrite E. reflexivity.
Qed.

(** Any slicing of the bytes of a run. *)
Lemma dataReceiveds_quiet chunks m q o q' fs k' a' es :
  FrameParser.rel (parser_ m) q -> FrameParser.wf q -> FrameParser.step q = None ->
  FrameParser.Run (FrameParser.extend q (concat chunks)) o q' ->
  unfailed m -> sc_isActive (cryptor_ m) = true ->
  deciphers (cryptor_ m) o fs k' ->
  onFrames (assembler_ m) fs = (a', es) -> Forall good es ->
  exists p', dataReceiveds quiet chunks m
             = Some (absorbed m k' a' es <| parser_ := p' |>)
    /\ FrameParser.rel p' q'.
Proof.
  revert m q o fs es. induction chunks as [|c cs IH];
    intros m q o fs es Hr Hwf Hb Hrun Hm Ha Hd Hon Hg;
    cbn [dataReceiveds concat] in *.
  - rewrite FrameParser.extend_nil in Hrun.
    destruct (FrameParser.Run_det _ _ _ _ _ Hrun (FrameParser.Run_stop _ Hb)) as [-> ->].
    inversion Hd; subst. simplify_eq/=. exists (parser_ m). split; [|done].
    f_equal. unfold absorbed. cbn. rewrite app_nil_r. by destruct m.
  - destruct (FrameParser.Run_total (FrameParser.extend q c)) as (o1 & q1 & Hr1); [done|].
    pose proof (FrameParser.Run_wf _ _ _ Hr1 Hwf) as Hwf1.
    destruct (FrameParser.Run_total (FrameParser.extend q1 (concat cs)))
      as (o2 & q2 & Hr2); [done|].
    pose proof (FrameParser.Run_extend (FrameParser.extend q c) _ _ _ _ _ Hwf Hr1 Hr2) as Hr12.
    rewrite FrameParser.extend_app in Hr12.
    destruct (FrameParser.Run_det _ _ _ _ _ Hrun Hr12) as [-> ->].
    destruct (deciphers_app_inv _ _ _ _ _ Hd Ha) as (fs1 & fs2 & k1 & -> & Hd1 & Hd2).
    rewrite onFrames_app in Hon. injection Hon as <- <-.
    apply Forall_app in Hg as [Hg1 Hg2].
    destruct (dataReceived_quiet c m q o1 q1 fs1 k1 _ _ Hr Hwf Hr1 Hm Ha Hd1
                (surjective_pairing _) Hg1) as (p1 & -> & Hrel1).
    cbn [mbind option_bind].
    set (m1 := absorbed m k1 (onFrames (assembler_ m) fs1).1
                 (onFrames (assembler_ m) fs1).2 <| parser_ := p1 |>).
    destruct (IH m1 q1 o2 fs2
                (onFrames (onFrames (assembler_ m) fs1).1 fs2).2)
      as (p' & E & Hrel'); [done|done| |done|done| |done| |done|].
    + by eapply FrameParser.Run_blocked.
    + by eapply deciphers_active.
    + apply surjective_pairing.
    + exists p'. split; [|done]. rewrite E. f_equal.
      unfold absorbed. cbn. by rewrite map_app, (assoc_L (++)).
Qed.

(** A whole conversation: what the sender writes, and how it reads. *)
Lemma sendMessages_quiet ms m k2 :
  ready m -> sc_insync (cryptor_ m) k2 -> Forall sendable ms ->
  exists m' k2' fs' fs w,
    sendMessages quiet ms m = Some m' /\ log m' = log m ++ w /\ ready m'
    /\ writes w = map FrameSerializer.encodeFrame fs'
    /\ sc_insync (cryptor_ m') k2' /\ Forall FrameParser.frame_wf fs'
    /\ deciphers k2 fs' fs k2'
    /\ exists es, onFrames FrameAssembler.create fs = (FrameAssembler.create, es)
         /\ Forall good es /\ map received es = map delivered ms.
Proof.
  intros Hr Hs Hms; revert m k2 Hr Hs.
  induction Hms as [|[[ch id] payload] ms Hm _ IH]; intros m k2 Hr Hs;
    cbn [sendMessages].
  - exists m, k2, [], [], []. rewrite app_nil_r. split_and!; try done.
    + constructor. by apply (sc_insync_active (cryptor_ m)).
    + exists []. done.
  - destruct (sendMessage_quiet m k2 ch id payload Hr Hs Hm)
      as (k1' & k2' & fs' & fs & et & -> & Hs' & Hwf & Hd & Hfrag).
    cbn [mbind option_bind].
    set (m1 := m <| cryptor_ := k1' |> <| log := _ |>).
    assert (Hr1 : ready m1) by (destruct Hr; by constructor).
    destruct (IH m1 k2' Hr1 Hs') as (m' & k3 & gs' & gs & w & -> & Hl & Hr' & Hw &
                                     Hs3 & Hwf2 & Hd2 & es & Hon & Hg & Hes).
    exists m', k3, (fs' ++ gs'), (fs ++ gs),
      (messageSent ch id payload :: map wrote (map FrameSerializer.encodeFrame fs') ++ w).
    split_and!; [done| |done| |done|by apply Forall_app|by eapply deciphers_app|].
    + rewrite Hl. cbn. by rewrite <- (assoc_L (++)).
    + cbn [writes]. by rewrite writes_app, writes_wrote, Hw, map_app.
    + destruct Hm as (Hch & Hid & Hlen).
      assert (Hb : blen (be16 id ++ payload) <= MAX_ASSEMBLED_MESSAGE_SIZE)
        by (by rewrite blen_app, blen_be16).
      assert (Hon1 : onFrames FrameAssembler.create fs
        = (FrameAssembler.create,
           [messageAssembled ch (messageTypeFor ch id) (be16 id ++ payload)])).
      { eapply onFrames_fragmentation; [apply create_wf|done|done| |done].
        change (m_reservedBytes FrameAssembler.create) with 0.
        change (m_maxAggregateSize FrameAssembler.create) with (32 * 1024 * 1024).
        unfold MAX_ASSEMBLED_MESSAGE_SIZE in Hb. lia. }
      rewrite onFrames_app, Hon1. cbn [fst snd]. rewrite Hon. cbn [fst snd app].
      eexists. split; [done|]. split.
      * constructor; [|done]. cbn [good]. rewrite blen_app, blen_be16.
        pose proof (blen_nonneg payload). lia.
      * cbn [map]. rewrite Hes. f_equal. cbn [received delivered].
        rewrite take_app_le, take_ge by (rewrite be16_length; lia).
        by rewrite be_decode_be16.
Qed.

(** Both ends of a conversation. *)
Lemma conversation ms (m1 m2 : t (K := K)) :
  ready m1 -> listening m2 -> sc_insync (cryptor_ m1) (cryptor_ m2) ->
  Forall sendable ms ->
  exists m1' w,
    sendMessages quiet ms m1 = Some m1' /\ log m1' = log m1 ++ w /\ ready m1'
    /\ forall chunks, concat chunks = concat (writes w) ->
       exists m2', dataReceiveds quiet chunks m2 = Some m2'
         /\ log m2' = log m2 ++ map delivered ms
         /\ listening m2' /\ sc_insync (cryptor_ m1') (cryptor_ m2').
Proof.
  intros Hr [Hst Ht Hp Ha (q & Hq & Hwf & Hrh & Hb)] Hs Hms.
  destruct (sendMessages_quiet ms m1 (cryptor_ m2) Hr Hs Hms)
    as (m1' & k2' & fs' & fs & w & Hsend & Hl & Hr' & Hw & Hs' & Hfw & Hd & es & Hon & Hg & Hes).
  exists m1', w. split_and!; [done..|]. intros chunks Hc.
  destruct (FrameParser.Run_total (FrameParser.extend q (concat chunks)) Hwf)
    as (o & q' & Hrun).
  destruct (FrameParser.Run_frames fs' [] (FrameParser.extend q (concat chunks)) o q' Hfw)
    as (q1 & o1 & -> & Hr1 & Hst1 & Hb1); [done| |done|].
  { cbn [FrameParser.extend FrameParser.m_buffer].
    by rewrite Hb, Hc, Hw, app_nil_r. }
  assert (Hq1 : FrameParser.step q1 = None)
    by (unfold FrameParser.step; rewrite Hst1, Hb1; reflexivity).
  destruct (FrameParser.Run_det _ _ _ _ _ Hr1 (FrameParser.Run_stop _ Hq1)) as [-> ->].
  rewrite app_nil_r in Hrun.
  assert (Hq0 : FrameParser.step q = None)
    by (unfold FrameParser.step; rewrite Hrh, Hb; reflexivity).
  rewrite <- Ha in Hon.
  destruct (dataReceiveds_quiet chunks m2 q fs' q1 fs k2' (assembler_ m2) es Hq Hwf Hq0
              Hrun) as (p' & E & Hrel'); [done| |done..|].
  { by apply (sc_insync_active (cryptor_ m1)). }
  eexists. split; [exact E|]. split_and!.
  - unfold absorbed. cbn. by rewrite Hes.
  - constructor; [done..|]. exists q1. split_and!; try done.
    eapply FrameParser.Run_wf; [exact Hrun|done].
  - done.
Qed.

End Quiet.

(** ** A sample session: the peers count the records *)

#[global] Program Instance counting_channel : SecureChannel (bool * nat) := {|
  sc_init k := ((false, 0%nat), true);
  sc_deinit k := (false, 0%nat);
  sc_isActive k := k.1;
  sc_doHandshake k := ((true, k.2), Complete);
  sc_readHandshakeBuffer k := (k, Some []);
  sc_writeHandshakeBuffer k data := (k, true);
  sc_encrypt k p := ((k.1, S k.2), Some (byte_of (Z.of_nat k.2) :: p));
  sc_decrypt k c :=
    match c with
    | b :: p => if decide (b = byte_of (Z.of_nat k.2))
                then ((k.1, S k.2), Some p) else (k, None)
    | [] => (k, None)
    end;
  sc_insync k1 k2 := k1 = k2 /\ k1.1 = true
|}.
Next Obligation. done. Qed.
Next Obligation. by intros ? ? [-> ?]. Qed.
Next Obligation.
  intros [a n] ? p [<- Ha] _ Hp. simpl in *.
  exists (a, S n), (a, S n), (byte_of (Z.of_nat n) :: p). split_and!; [done| | |done|done].
  - rewrite blen_cons. pose proof (blen_nonneg p).
    unfold u16, FrameSerializer.FRAME_MAX_PAYLOAD in *. lia.
  - by destruct (decide (byte_of (Z.of_nat n) = byte_of (Z.of_nat n))) as [|[]].
Qed.

Section Branches.
Context {K : Type} `{!SecureChannel K} (env : list Event -> Reaction).
Implicit Types m : t (K := K).

Definition failed m : Prop := tlsFailureEmitted_ m || protocolFailureEmitted_ m = true.

Lemma onFramesParsed_failed fs m : failed m -> onFramesParsed env fs m = Some m.
Proof.
  intros Hf. induction fs as [|f fs IH]; cbn [onFramesParsed]; [done|].
  unfold onFrameParsed. rewrite Hf. by destruct (started_ m); cbn [mbind option_bind].
Qed.

Lemma receiveLoop_failed fuel m m' :
  failed m -> receiveLoop env fuel m = Some m' -> exists p, m' = m <| parser_ := p |>.
Proof.
  revert m; induction fuel as [|fuel IH]; intros m Hf; cbn [receiveLoop];
    destruct (FrameParser.step (parser_ m)) as [[p out]|];
    intros H; simplify_eq;
    try (exists (parser_ m'); by destruct m').
  rewrite onFramesParsed_failed in H by done. cbn [mbind option_bind] in H.
  apply IH in H as [p' ->]; [|done]. by exists p'.
Qed.

Lemma dataReceiveds_failed chunks m :
  failed m -> parser_ok m ->
  exists p, dataReceiveds env chunks m = Some (m <| parser_ := p |>).
Proof.
  revert m; induction chunks as [|c cs IH]; intros m Hf Hp; cbn [dataReceiveds].
  - exists (parser_ m). by destruct m.
  - destruct (dataReceived_returns env c m Hp) as (m1 & E & Hp1). rewrite E.
    cbn [mbind option_bind].
    assert (exists p, m1 = m <| parser_ := p |>) as [p ->].
    { unfold dataReceived in E. destruct (started_ m); cbn [negb] in E.
      - destruct (bq_append _ _); cbn [mbind option_bind] in E; [|done].
        apply receiveLoop_failed in E as [p ->]; [|done]. by exists p.
      - simplify_eq. exists (parser_ m1). by destruct m1. }
    destruct (IH (m <| parser_ := p |>)) as [p' ->]; [done|done|]. by exists p'.
Qed.

Lemma rawSizesOk_wf ch ft mt et data total :
  u8 ch -> 0 <= total -> rawSizesOk ft (blen data) total = true ->
  FrameParser.frame_wf (FrameHeader.mk ch ft et mt total, data).
Proof.
  intros Hch Ht. pose proof (blen_nonneg data).
  unfold rawSizesOk, FrameParser.frame_wf, u16, u32, MAX_ASSEMBLED_MESSAGE_SIZE.
  cbn [fst snd FrameHeader.channelId FrameHeader.frameType FrameHeader.totalMessageSize].
  destruct (Z.ltb_spec 65535 (blen data)); [done|].
  destruct (decide (ft = First)); intros Hok; breflect; (split; [done|]); lia.
Qed.

(** The frame [sendRaw] lays out by hand is the serializer's. *)
Lemma raw_frame_encode ch ft mt et data total :
  FrameHeader.serialize (FrameHeader.mk ch ft et mt 0)
    ++ be16 (blen data) ++ (if decide (ft = First) then be32 total else []) ++ data
  = FrameSerializer.encodeFrame (FrameHeader.mk ch ft et mt total, data).
Proof.
  unfold FrameSerializer.encodeFrame, FrameSerializer.buildFrame.
  cbn [fst snd FrameHeader.frameType FrameHeader.totalMessageSize].
  change (FrameHeader.serialize (FrameHeader.mk ch ft et mt 0))
    with (FrameHeader.serialize (FrameHeader.mk ch ft et mt total)).
  f_equal. destruct (decide (ft = First)); by rewrite <- ?(assoc_L (++)).
Qed.

Lemma parser_ok_failed m : parser_ok m -> parser_ok (m <| tlsFailureEmitted_ := true |>).
Proof. intros H. exact H. Qed.

(** A messenger just started around an established session. *)
Lemma start_create_listening (k : K) : listening (start (create k)).
Proof.
  constructor; try reflexivity. exists FrameParser.create. split_and!; try reflexivity.
  - apply (reset_rel _ FrameParser.create), FrameParser.create_rel.
  - done.
Qed.

Lemma start_create_ready (k : K) : ready (start (create k)).
Proof. constructor; reflexivity. Qed.

Lemma start_create_parser_ok (k : K) : parser_ok (start (create k)).
Proof.
  destruct (start_create_listening k) as [_ _ _ _ (q & ? & ? & _)]. by exists q.
Qed.
End Branches.

(** The sample messenger of the witnesses: started, its session active. *)
Definition sample : t (K := bool * nat) := start (create (true, 0%nat)).
End Messenger.

(** C1. The encrypted path is faithful: whatever an idle messenger sends to a
    peer whose TLS session is in step with its own (messages of up to 16 MiB
    on any channel, control messages exempt from encryption included), the
    peer's client receives exactly, in order, however the transport slices
    the bytes; both ends are left ready for the next exchange, in step. *)
Theorem secure_roundtrip {K : Type} `{!SecureChannel K}
    (ms : list (Z * Z * bytes)) (m1 m2 : Messenger.t (K := K)) :
  Messenger.ready m1 -> Messenger.listening m2 ->
  sc_insync (Messenger.cryptor_ m1) (Messenger.cryptor_ m2) ->
  Forall Messenger.sendable ms ->
  exists m1' w,
    Messenger.sendMessages Messenger.quiet ms m1 = Some m1'
    /\ Messenger.log m1' = Messenger.log m1 ++ w /\ Messenger.ready m1'
    /\ forall chunks, concat chunks = concat (Messenger.writes w) ->
       exists m2', Messenger.dataReceiveds Messenger.quiet chunks m2 = Some m2'
         /\ Messenger.log m2'
            = Messenger.log m2 ++ map Messenger.delivered ms
         /\ Messenger.listening m2'
         /\ sc_insync (Messenger.cryptor_ m1') (Messenger.cryptor_ m2').
Proof. apply Messenger.conversation. Qed.

(** C4. Sending can be interrupted: whatever the code behind the signals and
    the transport does ([stop()], or [stop()] and [start()], at any point),
    [sendMessage] returns, and after the first event at which the messenger
    was stopped it emits and writes nothing more, even when restarted. *)
Theorem sendMessage_interruptible {K : Type} `{!SecureChannel K}
    (env : list Messenger.Event -> Messenger.Reaction) (ch id : Z)
    (payload : bytes) (m : Messenger.t (K := K)) :
  exists m' new, Messenger.sendMessage env ch id payload m = Some m'
    /\ Messenger.log m' = Messenger.log m ++ new
    /\ forall a e b, new = a ++ e :: b ->
         env (Messenger.log m ++ a ++ [e]) <> Messenger.Continue -> b = [].
Proof.
  destruct (Messenger.sendMessage_calm env ch id payload m)
    as (m' & E & new & Hl & H).
  exists m', new. split_and!; [done..|]. intros a e b Heq Hn.
  destruct b as [|x b]; [done|]. destruct Hn. eapply H; eauto.
Qed.


(** C11. A TLS or protocol failure is terminal: until the next [stop()],
    incoming bytes change nothing but the parser's own state (no signal, no
    decryption, no assembly), and neither [sendMessage] nor [sendRaw] has any
    effect. *)
Theorem failure_is_terminal {K : Type} `{!SecureChannel K}
    (env : list Messenger.Event -> Messenger.Reaction) (m : Messenger.t (K := K)) :
  Messenger.failed m -> Messenger.parser_ok m ->
  (forall chunks, exists p, Messenger.dataReceiveds env chunks m
                            = Some (m <| Messenger.parser_ := p |>))
  /\ (forall ch id payload, Messenger.sendMessage env ch id payload m = Some m)
  /\ (forall ch data ft mt et total,
        Messenger.sendRaw env ch data ft mt et total m = Some m).
Proof.
  intros Hf Hp. split_and!.
  - intros chunks. by apply Messenger.dataReceiveds_failed.
  - intros. unfold Messenger.sendMessage. rewrite Hf.
    by destruct (Messenger.started_ m).
  - intros. unfold Messenger.sendRaw. rewrite Hf.
    destruct (Messenger.started_ m); [|done].
    by destruct (Messenger.rawSizesOk _ _ _).
Qed.

(** C12. [sendRaw] is checked: on an idle messenger it writes exactly the
    serializer's encoding of the requested frame, a frame every parser takes
    back, when the sizes fit the fields; otherwise it does nothing. *)
Theorem sendRaw_checked {K : Type} `{!SecureChannel K} (ch : Z) (data : bytes)
    (ft : FrameType) (mt : MessageType) (et : EncryptionType) (total : Z)
    (m : Messenger.t (K := K)) :
  u8 ch -> 0 <= total -> Messenger.ready m ->
  let f := (FrameHeader.mk ch ft et mt total, data) in
  Messenger.sendRaw Messenger.quiet ch data ft mt et total m
    = Some (if Messenger.rawSizesOk ft (blen data) total
            then m <| Messenger.log := Messenger.log m
                        ++ [Messenger.wrote (FrameSerializer.encodeFrame f)] |>
            else m)
  /\ (Messenger.rawSizesOk ft (blen data) total = true -> FrameParser.frame_wf f).
Proof.
  intros Hch Ht Hr f. split; [|by apply Messenger.rawSizesOk_wf].
  pose proof Hr as [Hs Hn Htl Hp Hq]. unfold Messenger.sendRaw.
  rewrite Hs, Htl, Hp. cbn [negb orb]. cbv zeta.
  destruct (Messenger.rawSizesOk _ _ _); cbn [negb]; [|done].
  rewrite Messenger.raw_frame_encode.
  erewrite (Messenger.processSendQueue_quiet [_]); [|done|done|].
  - cbn. by destruct m; cbn in *; subst.
  - cbn. by rewrite Hq.
Qed.


(** ** Witnesses *)

(** A ping in plaintext and an encrypted video message, in one exchange. *)
Lemma secure_roundtrip_witness :
  exists m1' w,
    Messenger.sendMessages Messenger.quiet [(0, 11, [Byte.x2a]); (3, 1, [])]
      Messenger.sample = Some m1'
    /\ Messenger.log m1' = Messenger.log Messenger.sample ++ w
    /\ Messenger.ready m1'
    /\ forall chunks, concat chunks = concat (Messenger.writes w) ->
       exists m2', Messenger.dataReceiveds Messenger.quiet chunks Messenger.sample = Some m2'
         /\ Messenger.log m2' = Messenger.log Messenger.sample
              ++ map Messenger.delivered [(0, 11, [Byte.x2a]); (3, 1, [])]
         /\ Messenger.listening m2'
         /\ sc_insync (Messenger.cryptor_ m1') (Messenger.cryptor_ m2').
Proof.
  apply secure_roundtrip.
  - apply Messenger.start_create_ready.
  - apply Messenger.start_create_listening.
  - by split.
  - repeat constructor; vm_compute; discriminate || reflexivity.
Defined.


Lemma failure_is_terminal_witness :
  let m := Messenger.sample <| Messenger.tlsFailureEmitted_ := true |> in
  (forall chunks, exists p, Messenger.dataReceiveds Messenger.quiet chunks m
                            = Some (m <| Messenger.parser_ := p |>))
  /\ (forall ch id payload, Messenger.sendMessage Messenger.quiet ch id payload m = Some m)
  /\ (forall ch data ft mt et total,
        Messenger.sendRaw Messenger.quiet ch data ft mt et total m = Some m).
Proof.
  intros m. apply failure_is_terminal; [reflexivity|].
  apply Messenger.parser_ok_failed, Messenger.start_create_parser_ok.
Defined.

Lemma sendRaw_checked_witness :
  let f := (FrameHeader.mk 3 First Plain Specific 9, [Byte.x07]) in
  Messenger.sendRaw Messenger.quiet 3 [Byte.x07] First Specific Plain 9 Messenger.sample
    = Some (if Messenger.rawSizesOk First (blen [Byte.x07]) 9
            then Messenger.sample <| Messenger.log := Messenger.log Messenger.sample
                   ++ [Messenger.wrote (FrameSerializer.encodeFrame f)] |>
            else Messenger.sample)
  /\ (Messenger.rawSizesOk First (blen [Byte.x07]) 9 = true -> FrameParser.frame_wf f).
Proof.
  apply (sendRaw_checked 3 [Byte.x07] First Specific Plain 9 Messenger.sample);
    [vm_compute; split; [discriminate|reflexivity]|discriminate|
     apply Messenger.start_create_ready].
Defined.

