(* ===== verification/ControlChannel.v ===== *)
(** Channel 0 of the session: the control messages, and the protobuf
    payloads they carry.

    Source: libs/prodigy-oaa-protocol, Channel/ControlChannel. The channel
    keeps no state: a message becomes a list of signals, a request to send
    becomes a message. The protobuf classes are generated from a submodule,
    so their parsers and serializers are the operations of [ControlProto]. *)

From S2P Require Import Prelude.

(** The enumerations the code branches on. *)
Inductive AudioFocusType :=
| FOCUS_GAIN | FOCUS_GAIN_TRANSIENT | FOCUS_GAIN_TRANSIENT_MAY_DUCK | FOCUS_RELEASE
| FOCUS_OTHER (value : Z).

Inductive AudioFocusState :=
| STATE_GAIN | STATE_GAIN_TRANSIENT | STATE_GAIN_TRANSIENT_GUIDANCE_ONLY
| STATE_LOSS | STATE_INVALID.

Inductive Status := OK | AUTHENTICATION_FAILURE | INVALID_CHANNEL.

#[export] Instance Status_eq_dec : EqDecision Status.
Proof. solve_decision. Defined.
#[export] Instance AudioFocusState_eq_dec : EqDecision AudioFocusState.
Proof. solve_decision. Defined.

(** [ParseFromArray] is partial; a getter's default is part of the parser. *)
Class ControlProto := {
  parse_ChannelOpenRequest : bytes -> option Z;
  parse_PingRequest : bytes -> option Z;
  parse_PingResponse : bytes -> option Z;
  parse_ShutdownRequest : bytes -> option Z;
  parse_AudioFocusRequest : bytes -> option AudioFocusType;
  AudioFocusType_int : AudioFocusType -> Z;
  ser_AuthCompleteIndication : Status -> bytes;
  ser_ChannelOpenResponse : Status -> bytes;
  ser_PingRequest : Z -> bytes;
  ser_PingResponse : Z -> bytes;
  ser_ShutdownRequest : Z -> bytes;
  ser_ByeByeResponse : bytes;
  ser_AudioFocusResponse : AudioFocusState -> bytes;
  ser_CallAvailabilityStatus : bool -> bytes;
  ser_VoiceSessionRequest : Z -> bytes
}.

Module ControlChannel.

Definition MSG_VERSION_REQUEST : Z := 0x1.
Definition MSG_VERSION_RESPONSE : Z := 0x2.
Definition MSG_SSL_HANDSHAKE : Z := 0x3.
Definition MSG_AUTH_COMPLETE : Z := 0x4.
Definition MSG_SERVICE_DISCOVERY_REQUEST : Z := 0x5.
Definition MSG_CHANNEL_OPEN_REQUEST : Z := 0x7.
Definition MSG_CHANNEL_OPEN_RESPONSE : Z := 0x8.
Definition MSG_CHANNEL_CLOSE : Z := 0x9.
Definition MSG_PING_REQUEST : Z := 0xb.
Definition MSG_PING_RESPONSE : Z := 0xc.
Definition MSG_NAV_FOCUS_REQUEST : Z := 0xd.
Definition MSG_SHUTDOWN_REQUEST : Z := 0xf.
Definition MSG_SHUTDOWN_RESPONSE : Z := 0x10.
Definition MSG_VOICE_SESSION_REQUEST : Z := 0x11.
Definition MSG_AUDIO_FOCUS_REQUEST : Z := 0x12.
Definition MSG_CALL_AVAILABILITY : Z := 0x18.
Definition MSG_SERVICE_DISCOVERY_UPDATE : Z := 0x1a.

(** The signals of the channel; [sendRequested] is the inherited one. *)
Inductive Signal :=
| sendRequested (channelId messageId : Z) (payload : bytes)
| versionReceived (major minor rawStatus : Z) (trailingBytes : bytes)
| versionResponseMalformed (payloadSize : Z)
| sslHandshakeData (data : bytes)
| serviceDiscoveryRequested (payload : bytes)
| channelOpenRequested (channelId : Z) (payload : bytes)
| pingReceived (timestamp : Z)
| pongReceived (timestamp : Z)
| navigationFocusRequested (payload : bytes)
| shutdownRequested (reason : Z)
| shutdownAcknowledged
| voiceSessionRequested (payload : bytes)
| audioFocusRequested (payload : bytes)
| voiceSessionSent (sessionType : Z)
| unknownMessage (messageId : Z) (payload : bytes).

Section ControlChannel.
Context `{!ControlProto}.

Definition sendVersionRequest (major minor : Z) : Signal :=
  sendRequested 0 MSG_VERSION_REQUEST (be16 major ++ be16 minor).

Definition sendAuthComplete (success : bool) : Signal :=
  sendRequested 0 MSG_AUTH_COMPLETE
    (ser_AuthCompleteIndication (if success then OK else AUTHENTICATION_FAILURE)).

Definition sendChannelOpenResponse (targetChannelId : Z) (accepted : bool) : Signal :=
  sendRequested targetChannelId MSG_CHANNEL_OPEN_RESPONSE
    (ser_ChannelOpenResponse (if accepted then OK else INVALID_CHANNEL)).

Definition sendPingRequest (timestamp : Z) : Signal :=
  sendRequested 0 MSG_PING_REQUEST (ser_PingRequest timestamp).

Definition sendPingResponse (timestamp : Z) : Signal :=
  sendRequested 0 MSG_PING_RESPONSE (ser_PingResponse timestamp).

Definition sendShutdownRequest (reason : Z) : Signal :=
  sendRequested 0 MSG_SHUTDOWN_REQUEST (ser_ShutdownRequest reason).

Definition sendShutdownResponse : Signal :=
  sendRequested 0 MSG_SHUTDOWN_RESPONSE ser_ByeByeResponse.

Definition sendAudioFocusResponse (payload : bytes) : Signal :=
  sendRequested 0 0x13 payload.

Definition sendNavigationFocusResponse (payload : bytes) : Signal :=
  sendRequested 0 0xe payload.

Definition sendCallAvailability (available : bool) : Signal :=
  sendRequested 0 MSG_CALL_AVAILABILITY (ser_CallAvailabilityStatus available).

Definition sendVoiceSessionRequest (sessionType : Z) : list Signal :=
  [sendRequested 0 MSG_VOICE_SESSION_REQUEST (ser_VoiceSessionRequest sessionType);
   voiceSessionSent sessionType].

(** [onMessage]: the signals a message gives rise to, in order. *)
Definition onMessage (messageId : Z) (payload : bytes) (dataOffset : nat)
    : list Signal :=
  let data := drop dataOffset payload in
  let dataSize := blen data in
  if messageId =? MSG_VERSION_RESPONSE then
    if dataSize <? 6 then [versionResponseMalformed dataSize]
    else [versionReceived (be_decode (mid data 0 2)) (be_decode (mid data 2 2))
            (be_decode (mid data 4 2)) (drop 6 data)]
  else if messageId =? MSG_SSL_HANDSHAKE then [sslHandshakeData data]
  else if messageId =? MSG_SERVICE_DISCOVERY_REQUEST then
    [serviceDiscoveryRequested data]
  else if messageId =? MSG_CHANNEL_OPEN_REQUEST then
    match parse_ChannelOpenRequest data with
    | Some channelId => [channelOpenRequested channelId data]
    | None => []
    end
  else if messageId =? MSG_PING_REQUEST then
    match parse_PingRequest data with
    | Some ts => [sendPingResponse ts; pingReceived ts]
    | None => []
    end
  else if messageId =? MSG_PING_RESPONSE then
    match parse_PingResponse data with
    | Some ts => [pongReceived ts]
    | None => []
    end
  else if messageId =? MSG_NAV_FOCUS_REQUEST then [navigationFocusRequested data]
  else if messageId =? MSG_SHUTDOWN_REQUEST then
    match parse_ShutdownRequest data with
    | Some reason => [shutdownRequested reason]
    | None => [shutdownRequested 0]
    end
  else if messageId =? MSG_SHUTDOWN_RESPONSE then [shutdownAcknowledged]
  else if messageId =? MSG_VOICE_SESSION_REQUEST then [voiceSessionRequested data]
  else if messageId =? MSG_AUDIO_FOCUS_REQUEST then [audioFocusRequested data]
  else if (messageId =? MSG_CHANNEL_CLOSE) || (messageId =? MSG_CALL_AVAILABILITY)
          || (messageId =? MSG_SERVICE_DISCOVERY_UPDATE) then []
  else [unknownMessage messageId data].

End ControlChannel.
End ControlChannel.
