(* ===== verification/Session.v ===== *)
(** The Android Auto session: the connection state machine, the channels and
    their handlers, ping liveness and the version policy.

    Source: libs/prodigy-oaa-protocol, Session/AASession, SessionState.hpp,
    SessionConfig.hpp and SessionProtocolPolicy.hpp. Handlers, messenger and
    application are reached through calls and signals, which are the events
    of the model; each may call back into the session before it returns, so
    every operation is written against the function [emit] that raises an
    event, and the recursion is tied in [emitN], to any depth. *)

From S2P Require Import Prelude Frames ControlChannel.
Import ControlChannel.ControlChannel.

(** * SessionProtocolPolicy *)

Record ProtocolVersion := mkVersion { major : Z; minor : Z }.

#[export] Instance ProtocolVersion_eq_dec : EqDecision ProtocolVersion.
Proof. solve_decision. Defined.

Definition version_lt (v w : ProtocolVersion) : bool :=
  (major v <? major w) || ((major v =? major w) && (minor v <? minor w)).

Definition version_ge (v w : ProtocolVersion) : bool := negb (version_lt v w).

Definition kGalVersion4_3 : ProtocolVersion := mkVersion 4 3.
Definition kGalVersion5_0 : ProtocolVersion := mkVersion 5 0.
Definition kGalVersion5_1 : ProtocolVersion := mkVersion 5 1.
Definition kGalVersion6_0 : ProtocolVersion := mkVersion 6 0.

(** The policy object is the version requested. *)
Definition atLeast (requested threshold : ProtocolVersion) : bool :=
  version_ge requested threshold.
Definition requiresMinimumCompatibleResponse (p : ProtocolVersion) : bool :=
  atLeast p kGalVersion4_3.
Definition usesModernDisplayPolicy (p : ProtocolVersion) : bool :=
  atLeast p kGalVersion4_3.
Definition usesAcklessAudio (p : ProtocolVersion) : bool := atLeast p kGalVersion5_0.
Definition requiresSingleVideoCodecPerDisplay (p : ProtocolVersion) : bool :=
  atLeast p kGalVersion5_0.
Definition acceptsAudioMediaOptions (p : ProtocolVersion) : bool :=
  atLeast p kGalVersion5_1.
Definition acceptsVehicleEnergyForecast (p : ProtocolVersion) : bool :=
  atLeast p kGalVersion5_1.
Definition acceptsVideoMediaOptions (p : ProtocolVersion) : bool :=
  atLeast p kGalVersion6_0.

(** * Data *)

Inductive SessionState :=
| Idle | Connecting | VersionExchange | TLSHandshake | ServiceDiscovery
| Active | ShuttingDown | Disconnected.

Inductive DisconnectReason :=
| Normal | PingTimeout | TransportError | VersionMismatch | Timeout
| UserRequested | HandshakeError | TlsError | ProtocolError.

#[export] Instance SessionState_eq_dec : EqDecision SessionState.
Proof. solve_decision. Defined.
#[export] Instance DisconnectReason_eq_dec : EqDecision DisconnectReason.
Proof. solve_decision. Defined.

Definition ClusterVideo : Z := 12.
Definition ClusterInput : Z := 13.

Definition supportsExplicitReopenLifecycle (channelId : Z) : bool :=
  (channelId =? ClusterVideo) || (channelId =? ClusterInput).

Definition CHANNEL_OPEN_REQUEST : Z := 0x7.
Definition CHANNEL_CLOSE_NOTIFICATION : Z := 0x9.

(** [SessionConfig]; the strings are their UTF-8 bytes. *)
Record SessionConfig := mkConfig {
  protocolMajor : Z;
  protocolMinor : Z;
  headUnitName : bytes;
  carModel : bytes;
  carYear : bytes;
  carSerial : bytes;
  leftHandDrive : bool;
  manufacturer : bytes;
  model : bytes;
  swBuild : bytes;
  swVersion : bytes;
  canPlayNativeMediaDuringVr : bool;
  sessionConfiguration : Z;
  versionTimeout : Z;
  handshakeTimeout : Z;
  discoveryTimeout : Z;
  pingInterval : Z;
  pingTimeout : Z;
  channels : list (Z * bytes)
}.

Definition protocolPolicy (c : SessionConfig) : ProtocolVersion :=
  mkVersion (protocolMajor c) (protocolMinor c).

(** The fields [buildServiceDiscoveryResponse] sets. *)
Record DiscoveryResponse := mkDiscovery {
  head_unit_name : bytes;
  car_model : bytes;
  car_year : bytes;
  car_serial : bytes;
  driver_left : bool;
  headunit_manufacturer : bytes;
  headunit_model : bytes;
  sw_build : bytes;
  sw_version : bytes;
  can_play_native_media_during_vr : bool;
  session_configuration : option Z;
  descriptors : list bytes
}.

(** The remaining generated code: the response's serializer, which embeds
    the descriptors it is given. *)
Class SessionProto := {
  ser_ServiceDiscoveryResponse : DiscoveryResponse -> bytes
}.

Module Session.

(** What leaves the session: signals, calls of the messenger, and virtual
    calls of the channel handlers (a handler is a number). *)
Inductive Event :=
| stateChanged (newState : SessionState)
| disconnected (reason : DisconnectReason)
| channelOpened (channelId : Z)
| channelClosed (channelId : Z)
| channelOpenRejected (channelId : Z)
| audioFocusChanged (focusType : Z)
| sendMessage (channelId messageId : Z) (payload : bytes)
| startHandshake
| configureSession (handler : nat) (policy : ProtocolVersion)
| onChannelOpened (handler : nat)
| onChannelClosed (handler : nat)
| onMediaData (handler : nat) (data : bytes) (timestamp : Z)
| onHandlerMessage (handler : nat) (messageId : Z) (payload : bytes) (dataOffset : nat).

#[export] Instance Event_eq_dec : EqDecision Event.
Proof. solve_decision. Defined.

(** [messengerStarted_] is whether the messenger is between its [start] and
    [stop]; [connected_] the handlers whose [sendRequested] is connected to
    it; [history] the values [state_] takes, a ghost. A timer is [None] while
    inactive; the state and ping timers carry their interval, the pong
    deadline the time it is due. *)
Record t := mk {
  config_ : SessionConfig;
  channels_ : gmap Z nat;
  openChannels_ : gset Z;
  connected_ : gset nat;
  state_ : SessionState;
  messengerStarted_ : bool;
  stateTimer_ : option Z;
  pingTimer_ : option Z;
  pongDeadlineTimer_ : option Z;
  lastPingTimestamp_ : Z;
  outstandingPingTimestamps_ : gset Z;
  warnedNonControlOpenChannels_ : gset Z;
  warnedLegacyCloseChannels_ : gset Z;
  channelsClosed_ : bool;
  finalized_ : bool;
  log : list Event;
  history : list SessionState
}.

#[global] Instance t_settable : Settable t := {| eta_record r :=
  mk (config_ r) (channels_ r) (openChannels_ r) (connected_ r) (state_ r)
     (messengerStarted_ r) (stateTimer_ r) (pingTimer_ r) (pongDeadlineTimer_ r)
     (lastPingTimestamp_ r) (outstandingPingTimestamps_ r)
     (warnedNonControlOpenChannels_ r) (warnedLegacyCloseChannels_ r)
     (channelsClosed_ r) (finalized_ r) (log r) (history r) |}.

(** The constructor replaces an invalid ping configuration by the defaults. *)
Definition sanitizeConfig (c : SessionConfig) : SessionConfig :=
  mkConfig (protocolMajor c) (protocolMinor c) (headUnitName c) (carModel c)
    (carYear c) (carSerial c) (leftHandDrive c) (manufacturer c) (model c)
    (swBuild c) (swVersion c) (canPlayNativeMediaDuringVr c)
    (sessionConfiguration c) (versionTimeout c) (handshakeTimeout c)
    (discoveryTimeout c)
    (if pingInterval c <=? 0 then 5000 else pingInterval c)
    (if pingTimeout c <=? 0 then 15000 else pingTimeout c)
    (channels c).

Definition create (c : SessionConfig) : t :=
  mk (sanitizeConfig c) ∅ ∅ ∅ Idle false None None None 0 ∅ ∅ ∅ true false [] [Idle].

Section Session.
Context {CP : ControlProto} {SP : SessionProto}.
Context (isAVHandler : nat -> bool).

Definition is_state (s : t) (st : SessionState) : bool := bool_decide (state_ s = st).

(** [state_ = st], recorded. *)
Definition assign_state (st : SessionState) (s : t) : t :=
  s <| state_ := st |> <| history ::= fun h => h ++ [st] |>.

Definition startStateTimer (timeoutMs : Z) (s : t) : t :=
  s <| stateTimer_ := Some timeoutMs |>.

Definition stopStateTimer (s : t) : t := s <| stateTimer_ := None |>.

Definition stopLivenessTimers (s : t) : t :=
  s <| pingTimer_ := None |> <| pongDeadlineTimer_ := None |>
    <| outstandingPingTimestamps_ := ∅ |>.

Definition connectHandler (h : nat) (s : t) : t :=
  s <| connected_ ::= fun c => {[h]} ∪ c |>.

Definition disconnectHandler (h : nat) (s : t) : t :=
  s <| connected_ ::= fun c => c ∖ {[h]} |>.

Definition buildServiceDiscoveryResponse (c : SessionConfig) : bytes :=
  ser_ServiceDiscoveryResponse
    (mkDiscovery (headUnitName c) (carModel c) (carYear c) (carSerial c)
       (leftHandDrive c) (manufacturer c) (model c) (swBuild c) (swVersion c)
       (canPlayNativeMediaDuringVr c)
       (if sessionConfiguration c =? 0 then None else Some (sessionConfiguration c))
       (map snd (channels c))).

(** ** Operations, over the raising of an event *)
Section Operations.
Context (emit : Event -> t -> t).

(** The loop over the registered handlers, over a snapshot of [channels_]. *)
Fixpoint closeHandlers (hs : list nat) (s : t) : t :=
  match hs with
  | [] => s
  | h :: hs' => closeHandlers hs' (emit (onChannelClosed h) (disconnectHandler h s))
  end.

Definition handlers (s : t) : list nat := map snd (map_to_list (channels_ s)).

Definition closeChannels (s : t) : t :=
  let s := stopLivenessTimers (stopStateTimer s) in
  let s := s <| messengerStarted_ := false |> in
  if channelsClosed_ s then s
  else
    let s := s <| channelsClosed_ := true |> in
    let s := closeHandlers (handlers s) s in
    s <| openChannels_ := ∅ |>.

Definition setState (newState : SessionState) (s : t) : t :=
  if is_state s newState then s
  else
    let s := assign_state newState s in
    let s := if bool_decide (newState = Disconnected) then closeChannels s else s in
    emit (stateChanged newState) s.

(** The common ending of the handlers that give the session up. *)
Definition disconnect (reason : DisconnectReason) (s : t) : t :=
  emit (disconnected reason) (setState Disconnected s).

Definition closeServiceChannel (channelId : Z) (s : t) : t :=
  if negb (bool_decide (channelId ∈ openChannels_ s)) then s
  else
    match channels_ s !! channelId with
    | None => s <| openChannels_ ::= fun o => o ∖ {[channelId]} |>
    | Some handler =>
        let s := s <| openChannels_ ::= fun o => o ∖ {[channelId]} |> in
        let s := disconnectHandler handler s in
        let s := emit (onChannelClosed handler) s in
        if finalized_ s then s else emit (channelClosed channelId) s
    end.

(** A request of the control channel to send, connected to the messenger. *)
Definition sendSignal (sig : Signal) (s : t) : t :=
  match sig with
  | sendRequested ch id payload => emit (sendMessage ch id payload) s
  | _ => s
  end.

Definition onTransportConnected (s : t) : t :=
  if negb (is_state s Connecting) then s
  else
    let s := setState VersionExchange s in
    if finalized_ s || negb (is_state s VersionExchange) then s
    else
      let s := startStateTimer (versionTimeout (config_ s)) s in
      sendSignal (sendVersionRequest (protocolMajor (config_ s))
                    (protocolMinor (config_ s))) s.

Definition start (transportIsConnected : bool) (s : t) : t :=
  if finalized_ s then s
  else if negb (is_state s Idle) && negb (is_state s Disconnected) then s
  else
    let s := s <| messengerStarted_ := true |> <| channelsClosed_ := false |>
               <| warnedNonControlOpenChannels_ := ∅ |>
               <| warnedLegacyCloseChannels_ := ∅ |> in
    let s := setState Connecting s in
    if transportIsConnected then onTransportConnected s else s.

Definition stop (reason : Z) (s : t) : t :=
  if is_state s Disconnected || is_state s Idle then s
  else if is_state s Active then
    let s := stopLivenessTimers s in
    let s := setState ShuttingDown s in
    if finalized_ s || negb (is_state s ShuttingDown) then s
    else
      let s := startStateTimer 5000 s in
      sendSignal (sendShutdownRequest reason) s
  else
    let s := stopLivenessTimers (stopStateTimer s) in
    disconnect UserRequested s.

Definition finalize (s : t) : t :=
  if finalized_ s then s
  else
    let s := s <| finalized_ := true |> in
    let publishStateChange := negb (is_state s Idle) && negb (is_state s Disconnected) in
    let s := if publishStateChange then assign_state Disconnected s else s in
    let s := stopLivenessTimers (stopStateTimer s) in
    let s := s <| messengerStarted_ := false |> in
    let s := closeChannels s in
    let s := foldl (fun s h => disconnectHandler h s) s (handlers s) in
    let s := s <| channels_ := ∅ |> in
    if publishStateChange then emit (stateChanged (state_ s)) s else s.

Definition registerChannel (channelId : Z) (handler : option nat) (s : t) : t :=
  match handler with
  | None => s
  | Some handler =>
      if finalized_ s then s
      else
        let s := emit (configureSession handler (protocolPolicy (config_ s))) s in
        match channels_ s !! channelId with
        | Some existing =>
            if bool_decide (existing = handler)
            then s <| channels_ ::= <[channelId := handler]> |>
            else
              let wasOpen := bool_decide (channelId ∈ openChannels_ s) in
              let s := disconnectHandler existing s in
              let s := if wasOpen then emit (onChannelClosed existing) s else s in
              let s := s <| openChannels_ ::= fun o => o ∖ {[channelId]} |> in
              let s := s <| channels_ ::= <[channelId := handler]> |> in
              if wasOpen && negb (finalized_ s) && is_state s Active then
                let s := connectHandler handler s in
                let s := s <| openChannels_ ::= fun o => {[channelId]} ∪ o |> in
                emit (onChannelOpened handler) s
              else s
        | None => s <| channels_ ::= <[channelId := handler]> |>
        end
  end.

Definition onTransportFailure (s : t) : t :=
  if is_state s Disconnected then s else disconnect TransportError s.

Definition onVersionReceived (maj min rawStatus : Z) (s : t) : t :=
  if negb (is_state s VersionExchange) then s
  else
    let s := stopStateTimer s in
    let statusMatches := rawStatus =? 0 in
    let reportedVersionIsCompatible :=
      (protocolMajor (config_ s) <? maj)
      || ((maj =? protocolMajor (config_ s)) && (protocolMinor (config_ s) <=? min)) in
    if negb statusMatches
       || (requiresMinimumCompatibleResponse (protocolPolicy (config_ s))
           && negb reportedVersionIsCompatible)
    then disconnect VersionMismatch s
    else
      let s := setState TLSHandshake s in
      if finalized_ s || negb (is_state s TLSHandshake) then s
      else
        let s := startStateTimer (handshakeTimeout (config_ s)) s in
        emit startHandshake s.

Definition onVersionResponseMalformed (s : t) : t :=
  if negb (is_state s VersionExchange) then s
  else disconnect VersionMismatch (stopStateTimer s).

Definition onHandshakeComplete (s : t) : t :=
  if negb (is_state s TLSHandshake) then s
  else
    let s := stopStateTimer s in
    let s := setState ServiceDiscovery s in
    if finalized_ s || negb (is_state s ServiceDiscovery) then s
    else
      let s := startStateTimer (discoveryTimeout (config_ s)) s in
      sendSignal (sendAuthComplete true) s.

Definition onHandshakeFailed (s : t) : t :=
  if negb (is_state s TLSHandshake) then s
  else disconnect HandshakeError (stopStateTimer s).

Definition onTlsFailed (s : t) : t :=
  if is_state s Idle || is_state s Disconnected then s
  else if is_state s TLSHandshake then onHandshakeFailed s
  else disconnect TlsError (stopLivenessTimers (stopStateTimer s)).

Definition onProtocolFailed (s : t) : t :=
  if is_state s Idle || is_state s Disconnected then s
  else disconnect ProtocolError (stopLivenessTimers (stopStateTimer s)).

Definition onPingTick (now : Z) (s : t) : t :=
  if negb (is_state s Active) then s
  else
    let s := s <| lastPingTimestamp_ := now |>
               <| outstandingPingTimestamps_ ::= fun o => {[now]} ∪ o |> in
    let s := sendSignal (sendPingRequest (lastPingTimestamp_ s)) s in
    if is_state s Active
       && bool_decide (lastPingTimestamp_ s ∈ outstandingPingTimestamps_ s)
       && negb (bool_decide (is_Some (pongDeadlineTimer_ s)))
    then s <| pongDeadlineTimer_ := Some (now + pingTimeout (config_ s)) |>
    else s.

Definition onServiceDiscoveryRequested (now : Z) (s : t) : t :=
  if negb (is_state s ServiceDiscovery) then s
  else
    let s := stopStateTimer s in
    let s := emit (sendMessage 0 0x6 (buildServiceDiscoveryResponse (config_ s))) s in
    if finalized_ s || negb (is_state s ServiceDiscovery) then s
    else
      let s := setState Active s in
      if finalized_ s || negb (is_state s Active) then s
      else
        let s := s <| pingTimer_ := Some (pingInterval (config_ s)) |> in
        onPingTick now s.

(** The guard repeated after every call that can re-enter. *)
Definition stillCurrent (channelId : Z) (handler : nat) (s : t) : bool :=
  negb (finalized_ s || negb (is_state s Active)
        || negb (bool_decide (channels_ s !! channelId = Some handler))).

(** Opening a registered channel, the same code on both request paths. *)
Definition openChannel (channelId : Z) (handler : nat) (s : t) : t :=
  let reopen := bool_decide (channelId ∈ openChannels_ s)
                && supportsExplicitReopenLifecycle channelId in
  let s := if reopen then closeServiceChannel channelId s else s in
  if reopen && negb (stillCurrent channelId handler s) then s
  else
    let s := sendSignal (sendChannelOpenResponse channelId true) s in
    if negb (stillCurrent channelId handler s) then s
    else
      let s := connectHandler handler s in
      let s := s <| openChannels_ ::= fun o => {[channelId]} ∪ o |> in
      let s := emit (onChannelOpened handler) s in
      if negb (stillCurrent channelId handler s) then s
      else emit (channelOpened channelId) s.

Definition onChannelOpenRequested (channelId : Z) (s : t) : t :=
  if negb (is_state s Active) then s
  else if (channelId <=? 0) || (255 <? channelId)
  then emit (channelOpenRejected channelId) s
  else
    match channels_ s !! channelId with
    | Some handler => openChannel channelId handler s
    | None =>
        let s := sendSignal (sendChannelOpenResponse channelId false) s in
        emit (channelOpenRejected channelId) s
    end.

Definition onPongReceived (timestamp : Z) (s : t) : t :=
  if negb (is_state s Active)
     || negb (bool_decide (timestamp ∈ outstandingPingTimestamps_ s)) then s
  else s <| outstandingPingTimestamps_ := ∅ |> <| pongDeadlineTimer_ := None |>.

Definition onPongDeadline (s : t) : t :=
  if negb (is_state s Active) then s
  else disconnect PingTimeout (stopLivenessTimers s).

Definition onShutdownRequested (s : t) : t :=
  let s := sendSignal sendShutdownResponse s in
  if finalized_ s || is_state s Disconnected then s
  else disconnect Normal s.

Definition onShutdownAcknowledged (s : t) : t :=
  if negb (is_state s ShuttingDown) then s else disconnect Normal s.

Definition onStateTimeout (s : t) : t := disconnect Timeout s.

(** The lambda connected to [audioFocusRequested]. *)
Definition focusState (type : AudioFocusType) : AudioFocusState :=
  match type with
  | FOCUS_GAIN => STATE_GAIN
  | FOCUS_GAIN_TRANSIENT => STATE_GAIN_TRANSIENT
  | FOCUS_GAIN_TRANSIENT_MAY_DUCK => STATE_GAIN_TRANSIENT_GUIDANCE_ONLY
  | FOCUS_RELEASE => STATE_LOSS
  | FOCUS_OTHER _ => STATE_INVALID
  end.

Definition onAudioFocusRequested (payload : bytes) (s : t) : t :=
  match parse_AudioFocusRequest payload with
  | None => s
  | Some type =>
      let s := sendSignal (sendAudioFocusResponse
                             (ser_AudioFocusResponse (focusState type))) s in
      emit (audioFocusChanged (AudioFocusType_int type)) s
  end.

(** The constructor's connections of the control channel's signals. *)
Definition onControlSignal (now : Z) (sig : Signal) (s : t) : t :=
  match sig with
  | sendRequested _ _ _ => sendSignal sig s
  | versionReceived maj min status _ => onVersionReceived maj min status s
  | versionResponseMalformed _ => onVersionResponseMalformed s
  | serviceDiscoveryRequested _ => onServiceDiscoveryRequested now s
  | channelOpenRequested channelId _ => onChannelOpenRequested channelId s
  | pongReceived timestamp => onPongReceived timestamp s
  | shutdownRequested _ => onShutdownRequested s
  | shutdownAcknowledged => onShutdownAcknowledged s
  | audioFocusRequested payload => onAudioFocusRequested payload s
  | navigationFocusRequested payload => sendSignal (sendNavigationFocusResponse payload) s
  | _ => s
  end.

(** CHANNEL_OPEN_REQUEST on the target channel itself. *)
Definition onOpenRequestMessage (channelId : Z) (data : bytes) (s : t) : t :=
  if negb (is_state s Active) then s
  else
    match parse_ChannelOpenRequest data with
    | None => s
    | Some requestedChannel =>
        if (requestedChannel <=? 0) || (255 <? requestedChannel)
           || negb (requestedChannel =? channelId)
        then emit (channelOpenRejected requestedChannel) s
        else
          match channels_ s !! requestedChannel with
          | Some handler => openChannel requestedChannel handler s
          | None =>
              let s := sendSignal (sendChannelOpenResponse requestedChannel false) s in
              emit (channelOpenRejected requestedChannel) s
          end
    end.

(** The last part of [onMessage]: to the handler of a registered channel. *)
Definition dispatch (channelId messageId : Z) (payload : bytes) (dataOffset : nat)
    (s : t) : t :=
  match channels_ s !! channelId with
  | None => s
  | Some handler =>
      let data := drop dataOffset payload in
      if ((messageId =? 0) || (messageId =? 1)) && isAVHandler handler then
        if (messageId =? 0) && (8 <=? blen data)
        then emit (onMediaData handler (drop 8 data) (be_decode (take 8 data))) s
        else emit (onMediaData handler data 0) s
      else emit (onHandlerMessage handler messageId payload dataOffset) s
  end.

Definition onMessage (now : Z) (channelId messageId : Z) (payload : bytes)
    (dataOffset : nat) (messageType : MessageType) (s : t) : t :=
  let data := drop dataOffset payload in
  let control := bool_decide (messageType = Control) in
  if channelId =? 0 then
    foldl (fun s sig => onControlSignal now sig s) s
      (ControlChannel.onMessage messageId payload dataOffset)
  else if (messageId =? CHANNEL_CLOSE_NOTIFICATION) && control
          && supportsExplicitReopenLifecycle channelId then
    if is_state s Active then closeServiceChannel channelId s else s
  else
    let s :=
      if (messageId =? CHANNEL_CLOSE_NOTIFICATION) && control
         && bool_decide (is_Some (channels_ s !! channelId))
         && negb (bool_decide (channelId ∈ warnedLegacyCloseChannels_ s))
      then s <| warnedLegacyCloseChannels_ ::= fun w => {[channelId]} ∪ w |>
      else s in
    if (messageId =? CHANNEL_OPEN_REQUEST) && control
    then onOpenRequestMessage channelId data s
    else if negb (bool_decide (channelId ∈ openChannels_ s))
            && supportsExplicitReopenLifecycle channelId then
      if bool_decide (is_Some (channels_ s !! channelId))
         && (messageId =? CHANNEL_OPEN_REQUEST)
         && bool_decide (parse_ChannelOpenRequest data = Some channelId)
         && negb (bool_decide (channelId ∈ warnedNonControlOpenChannels_ s))
      then s <| warnedNonControlOpenChannels_ ::= fun w => {[channelId]} ∪ w |>
      else s
    else dispatch channelId messageId payload dataOffset s.

End Operations.

(** ** Re-entrancy

    Everything that can call into the session: its public functions, the
    signals it is connected to, its timers. Messages arrive only while the
    messenger is started, a timer fires only while active, a handler's
    [sendRequested] only while connected. *)
Inductive Input :=
| InStart (transportIsConnected : bool)
| InStop (reason : Z)
| InFinalize
| InRegister (channelId : Z) (handler : option nat)
| InTransportConnected
| InTransportFailure
| InMessage (now channelId messageId : Z) (payload : bytes) (dataOffset : nat)
    (mt : MessageType)
| InHandshakeComplete
| InHandshakeFailed
| InTlsFailed
| InProtocolFailed
| InPingTick (now : Z)
| InPongDeadline
| InStateTimeout
| InHandlerSend (handler : nat) (channelId messageId : Z) (payload : bytes).

Definition step (emit : Event -> t -> t) (i : Input) (s : t) : t :=
  match i with
  | InStart c => start emit c s
  | InStop reason => stop emit reason s
  | InFinalize => finalize emit s
  | InRegister ch h => registerChannel emit ch h s
  | InTransportConnected => onTransportConnected emit s
  | InTransportFailure => onTransportFailure emit s
  | InMessage now ch id payload off mt =>
      if messengerStarted_ s then onMessage emit now ch id payload off mt s else s
  | InHandshakeComplete => onHandshakeComplete emit s
  | InHandshakeFailed => onHandshakeFailed emit s
  | InTlsFailed => onTlsFailed emit s
  | InProtocolFailed => onProtocolFailed emit s
  | InPingTick now =>
      if bool_decide (is_Some (pingTimer_ s)) then onPingTick emit now s else s
  | InPongDeadline =>
      if bool_decide (is_Some (pongDeadlineTimer_ s))
      then onPongDeadline emit (s <| pongDeadlineTimer_ := None |>) else s
  | InStateTimeout =>
      if bool_decide (is_Some (stateTimer_ s))
      then onStateTimeout emit (s <| stateTimer_ := None |>) else s
  | InHandlerSend h ch id payload =>
      if bool_decide (h ∈ connected_ s) then emit (sendMessage ch id payload) s else s
  end.

(** [emitN env n]: the event is logged, then the code behind it makes the
    calls [env] answers it with, nested to depth [n]. *)
Fixpoint emitN (env : list Event -> list Input) (n : nat) (e : Event) (s : t) : t :=
  let s := s <| log ::= fun l => l ++ [e] |> in
  match n with
  | O => s
  | S n' => foldl (fun s i => step (emitN env n') i s) s (env (log s))
  end.

Definition run (env : list Event -> list Input) (n : nat) (inputs : list Input) (s : t) : t :=
  foldl (fun s i => step (emitN env n) i s) s inputs.

(** Nobody calls back. *)
Definition logged (e : Event) (s : t) : t := emitN (fun _ => []) 0 e s.

(** ** The invariant *)

Definition dead (st : SessionState) : Prop := st = Idle \/ st = Disconnected.

#[local] Instance dead_dec st : Decision (dead st).
Proof. unfold dead. apply _. Defined.

(** The transitions of the connection. *)
Inductive transition : SessionState -> SessionState -> Prop :=
| t_start st : dead st -> transition st Connecting
| t_connected : transition Connecting VersionExchange
| t_version : transition VersionExchange TLSHandshake
| t_tls : transition TLSHandshake ServiceDiscovery
| t_discovery : transition ServiceDiscovery Active
| t_shutdown : transition Active ShuttingDown
| t_disconnect st : st <> Disconnected -> transition st Disconnected.

(** [path h st]: the history [h] starts in [Idle], ends in [st] and only
    makes transitions. *)
Inductive path : list SessionState -> SessionState -> Prop :=
| path_idle : path [Idle] Idle
| path_step h st st' : path h st -> transition st st' -> path (h ++ [st']) st'.

(** What holds whenever the session's code hands over control. *)
Record inv (s : t) : Prop := {
  inv_finalized : finalized_ s = true -> dead (state_ s);
  inv_dead : dead (state_ s) ->
    stateTimer_ s = None /\ messengerStarted_ s = false /\ channelsClosed_ s = true;
  inv_live : ~ dead (state_ s) -> channelsClosed_ s = false;
  inv_ping : is_Some (pingTimer_ s) -> state_ s = Active;
  inv_pong : is_Some (pongDeadlineTimer_ s) ->
    state_ s = Active /\ outstandingPingTimestamps_ s <> ∅;
  inv_path : path (history s) (state_ s)
}.

(** What holds in addition when no call is in progress. *)
Definition quiescent (s : t) : Prop := dead (state_ s) -> openChannels_ s = ∅.

(** The balance of connection attempts and reports of their end; a session
    that is not [Disconnected] still owes a report. *)
Definition weight (e : Event) : Z :=
  match e with
  | stateChanged Connecting => 1
  | disconnected _ => -1
  | _ => 0
  end.

Definition balance (es : list Event) : Z := foldr (fun e z => weight e + z) 0 es.

Definition owed (st : SessionState) : Z := if decide (st = Disconnected) then 0 else 1.

Definition score (s : t) : Z := balance (log s) - owed (state_ s).

Lemma balance_snoc es e : balance (es ++ [e]) = balance es + weight e.
Proof. unfold balance. induction es; simpl; lia. Qed.

(** [gains k s s']: what code may do between [s] and [s']: it preserves both
    invariants, and improves the balance by at least [k]. *)
Definition gains (k : Z) (s s' : t) : Prop :=
  inv s -> inv s' /\ (quiescent s -> quiescent s') /\ score s + k <= score s'.

Abbreviation keeps := (gains 0).

#[local] Instance keeps_preorder : PreOrder keeps.
Proof.
  split; unfold gains; [intros s Hs; split_and!; auto; lia|].
  intros a b c Hab Hbc Ha. destruct (Hab Ha) as (Hb & ? & ?).
  destruct (Hbc Hb) as (? & ? & ?). split_and!; auto; lia.
Qed.

Lemma gains_then j k s s1 s2 : gains j s s1 -> gains k s1 s2 -> gains (j + k) s s2.
Proof.
  intros H1 H2 Hs. destruct (H1 Hs) as (Hs1 & ? & ?).
  destruct (H2 Hs1) as (? & ? & ?). split_and!; auto; lia.
Qed.

Lemma gains_weaken j k s s' : k <= j -> gains j s s' -> gains k s s'.
Proof. intros ? H Hs. destruct (H Hs) as (? & ? & ?). split_and!; auto; lia. Qed.

Lemma is_state_true s st : is_state s st = true <-> state_ s = st.
Proof. unfold is_state. by rewrite bool_decide_eq_true. Qed.

Lemma is_state_false s st : is_state s st = false <-> state_ s <> st.
Proof. unfold is_state. by rewrite bool_decide_eq_false. Qed.

Lemma create_inv c : inv (create c) /\ quiescent (create c).
Proof.
  split; [|done]. constructor; simpl; try done; try (by intros []).
  - intros []. by left.
  - constructor.
Qed.

(** Updates of fields the invariant does not constrain. *)
Ltac same_score :=
  match goal with |- score ?s + 0 <= score ?s' => change (score s') with (score s); lia end.
Ltac keeps_field := intros [? ? ? ? ? ?]; split; [by constructor|split; [done|same_score]].

Lemma gains_log e s : gains (weight e) s (s <| log ::= fun l => l ++ [e] |>).
Proof.
  intros [? ? ? ? ? ?]; split; [by constructor|]. split; [done|].
  unfold score. cbn. rewrite balance_snoc. lia.
Qed.
Lemma keeps_connected f s : keeps s (s <| connected_ ::= f |>).
Proof. keeps_field. Qed.
Lemma keeps_channels f s : keeps s (s <| channels_ ::= f |>).
Proof. keeps_field. Qed.
Lemma keeps_warned1 f s : keeps s (s <| warnedNonControlOpenChannels_ ::= f |>).
Proof. keeps_field. Qed.
Lemma keeps_warned2 f s : keeps s (s <| warnedLegacyCloseChannels_ ::= f |>).
Proof. keeps_field. Qed.

Lemma keeps_open_remove ch s : keeps s (s <| openChannels_ ::= fun o => o ∖ {[ch]} |>).
Proof.
  intros [? ? ? ? ? ?]; split; [by constructor|]. split; [|same_score].
  intros Hq Hx. simpl. rewrite (Hq Hx).
  apply subseteq_empty_difference_L, empty_subseteq.
Qed.

Lemma keeps_open_insert ch s :
  ~ dead (state_ s) -> keeps s (s <| openChannels_ ::= fun o => {[ch]} ∪ o |>).
Proof.
  intros Hl [? ? ? ? ? ?]; split; [by constructor|]. split; [by intros _ ?|same_score].
Qed.

Lemma keeps_stopStateTimer s : keeps s (stopStateTimer s).
Proof.
  intros [? Hd ? ? ? ?]; split; [|split; [done|same_score]].
  constructor; try done. simpl.
  intros Hx. by destruct (Hd Hx) as (_ & ? & ?).
Qed.

Lemma keeps_stopLivenessTimers s : keeps s (stopLivenessTimers s).
Proof.
  intros [? ? ? ? ? ?]; split; [|split; [done|same_score]].
  constructor; try done; simpl; by intros [].
Qed.

Lemma keeps_startStateTimer n s : ~ dead (state_ s) -> keeps s (startStateTimer n s).
Proof. intros Hl [? ? ? ? ? ?]; split; [by constructor|split; [done|same_score]]. Qed.

Section Keeps.
Context (emit : Event -> t -> t).
Context (emit_gains : forall e s, gains (weight e) s (emit e s)).

Lemma emit_keeps e s : 0 <= weight e -> keeps s (emit e s).
Proof. intros. eapply gains_weaken; [|apply emit_gains]. done. Qed.

Lemma closeHandlers_keeps hs s :
  inv s -> inv (closeHandlers emit hs s) /\ score s <= score (closeHandlers emit hs s).
Proof.
  revert s; induction hs as [|h hs IH]; intros s Hs; cbn [closeHandlers]; [done|].
  destruct (keeps_connected (fun c => c ∖ {[h]}) s Hs) as (H1 & _ & ?).
  destruct (emit_keeps (onChannelClosed h) (disconnectHandler h s)) as (H2 & _ & H3);
    [done|done|].
  destruct (IH _ H2) as [? ?]. split; [done|]. unfold disconnectHandler in *. lia.
Qed.

Lemma dead_inv s :
  dead (state_ s) -> path (history s) (state_ s) ->
  inv (stopLivenessTimers (stopStateTimer s) <| messengerStarted_ := false |>
         <| channelsClosed_ := true |>).
Proof. intros Hd Hp. constructor; simpl; auto; by intros []. Qed.

Lemma inv_open o s : inv s -> inv (s <| openChannels_ := o |>).
Proof. intros [? ? ? ? ? ?]. by constructor. Qed.

(** [closeChannels] on a session that is dead already, or just died. *)
Lemma closeChannels_dead s :
  dead (state_ s) -> path (history s) (state_ s) ->
  let s' := closeChannels emit s in
  inv s' /\ score s <= score s'
  /\ (channelsClosed_ s = true -> quiescent s -> quiescent s')
  /\ (channelsClosed_ s = false -> quiescent s').
Proof.
  intros Hd Hp. pose proof (dead_inv s Hd Hp) as Hi. cbv zeta. unfold closeChannels.
  set (s1 := stopLivenessTimers (stopStateTimer s) <| messengerStarted_ := false |>) in *.
  assert (Hs1 : channelsClosed_ s1 = channelsClosed_ s) by reflexivity.
  assert (Ho : openChannels_ s1 = openChannels_ s) by reflexivity.
  assert (Hst : state_ s1 = state_ s) by reflexivity.
  assert (Hsc : score s1 = score s) by reflexivity.
  clearbody s1. cbv zeta. rewrite Hs1. destruct (channelsClosed_ s) eqn:Hc.
  - assert (s1 = s1 <| channelsClosed_ := true |>) as Hs
      by (destruct s1; cbn in *; congruence).
    rewrite <- Hs in Hi. split_and!; [done|lia| |done].
    intros _ Hq Hd'. rewrite Ho. apply Hq. congruence.
  - apply (closeHandlers_keeps (handlers (s1 <| channelsClosed_ := true |>))) in Hi
      as [H1 H2].
    split_and!; [by apply inv_open| |done|done].
    rewrite <- Hsc. exact H2.
Qed.

Lemma score_assign st s : score (assign_state st s) = score s + owed (state_ s) - owed st.
Proof.
  change (score (assign_state st s)) with (balance (log s) - owed st). unfold score. lia.
Qed.

(** Entering a state of the live session. *)
Lemma setState_live st s :
  inv s -> ~ dead st -> st <> state_ s -> transition (state_ s) st ->
  channelsClosed_ s = false -> finalized_ s = false ->
  pingTimer_ s = None -> pongDeadlineTimer_ s = None ->
  inv (setState emit st s) /\ quiescent (setState emit st s)
  /\ score s + weight (stateChanged st) + owed (state_ s) - 1 <= score (setState emit st s).
Proof.
  intros Hi Hl Hne Ht Hc Hf Hpi Hpo. unfold setState.
  assert (is_state s st = false) as -> by (by apply is_state_false).
  cbv zeta. rewrite bool_decide_false by (intros ->; apply Hl; by right).
  assert (inv (assign_state st s)) as H1.
  { destruct Hi as [? ? ? ? ? Hp].
    constructor; simpl; rewrite ?Hf, ?Hpi, ?Hpo; try done; try (by intros []).
    by apply (path_step _ (state_ s)). }
  destruct (emit_gains (stateChanged st) (assign_state st s) H1) as (H2 & H3 & H4).
  split; [done|]. split; [apply H3; intros Hx; by destruct (Hl Hx)|].
  rewrite score_assign in H4. revert H4. unfold owed at 2.
  rewrite decide_False by (intros ->; apply Hl; by right). lia.
Qed.

Lemma setState_disconnected s : gains (owed (state_ s)) s (setState emit Disconnected s).
Proof.
  unfold setState. destruct (is_state s Disconnected) eqn:Hs.
  { apply is_state_true in Hs. unfold owed. by rewrite Hs. }
  apply is_state_false in Hs. cbv zeta. rewrite bool_decide_true by done.
  intros Hi. destruct (closeChannels_dead (assign_state Disconnected s))
    as (H1 & Hsc & H2 & H3).
  { by right. }
  { simpl. apply (path_step _ (state_ s)); [by apply Hi|by constructor]. }
  assert (Hw : 0 <= weight (stateChanged Disconnected)) by (cbn; lia).
  destruct (emit_keeps (stateChanged Disconnected) _ Hw H1) as (H4 & H5 & H6).
  split; [done|]. split.
  2:{ rewrite score_assign in Hsc. change (owed Disconnected) with 0 in Hsc. lia. }
  intros Hq. apply H5.
  change (channelsClosed_ (assign_state Disconnected s)) with (channelsClosed_ s) in *.
  destruct (channelsClosed_ s) eqn:Hc; [|by apply H3].
  apply H2; [done|]. intros _. apply Hq.
  destruct (decide (dead (state_ s))) as [|Hl]; [done|].
  apply (inv_live _ Hi) in Hl. congruence.
Qed.

(** Chaining. *)
Lemma keeps_then s s1 s2 : keeps s s1 -> keeps s1 s2 -> keeps s s2.
Proof. intros. by transitivity s1. Qed.

(** Giving up is reported once: the session must not be disconnected yet. *)
Lemma disconnect_keeps reason s :
  state_ s <> Disconnected -> keeps s (disconnect emit reason s).
Proof.
  intros Hs. unfold disconnect.
  apply (gains_weaken (owed (state_ s) + weight (disconnected reason))).
  - unfold owed. rewrite decide_False by done. done.
  - eapply gains_then; [apply setState_disconnected|apply emit_gains].
Qed.

Lemma sendSignal_keeps sig s : keeps s (sendSignal emit sig s).
Proof. destruct sig; cbn [sendSignal]; by try apply emit_keeps. Qed.

Lemma closeServiceChannel_keeps ch s : keeps s (closeServiceChannel emit ch s).
Proof.
  unfold closeServiceChannel. destruct (bool_decide _); cbn [negb]; [|done].
  destruct (channels_ s !! ch) as [h|]; [|apply keeps_open_remove].
  cbv zeta. eapply keeps_then; [apply (keeps_open_remove ch)|].
  eapply keeps_then; [apply (keeps_connected (fun c => c ∖ {[h]}))|].
  eapply keeps_then; [by apply (emit_keeps (onChannelClosed h))|].
  destruct (finalized_ _); [done|by apply emit_keeps].
Qed.

(** The handshake steps: from the state just tested to the next one. *)
Lemma advance_keeps st st' s :
  state_ s = st -> ~ dead st -> ~ dead st' -> st <> Active -> st <> st' ->
  transition st st' -> keeps s (setState emit st' s).
Proof.
  intros Hs Hl Hl' Ha Hne Ht Hi. subst st.
  destruct (setState_live st' s) as (H1 & H2 & H3); auto.
  - by apply (inv_live _ Hi).
  - destruct (finalized_ s) eqn:E; [|done]. by apply (inv_finalized _ Hi) in E.
  - destruct (pingTimer_ s) eqn:E; [|done]. destruct Ha.
    apply (inv_ping _ Hi). by rewrite E.
  - destruct (pongDeadlineTimer_ s) eqn:E; [|done]. destruct Ha.
    apply (inv_pong _ Hi). by rewrite E.
  - split_and!; [done..|]. revert H3. unfold owed. rewrite decide_False.
    + destruct st'; cbn [weight]; lia.
    + intros E. apply Hl. by right.
Qed.

Ltac not_dead := let H := fresh in intros [H|H]; discriminate H || congruence.

(** The guard after a transition, then a timer and a last event. *)
Lemma guarded_keeps st n e s :
  ~ dead st -> 0 <= weight e ->
  keeps s (if finalized_ s || negb (is_state s st) then s
           else emit e (startStateTimer n s)).
Proof.
  intros Hl He. destruct (finalized_ s); cbn [orb]; [done|].
  destruct (is_state s st) eqn:Hs; cbn [negb]; [|done].
  apply is_state_true in Hs. eapply keeps_then; [|by apply emit_keeps].
  apply keeps_startStateTimer. by rewrite Hs.
Qed.

Lemma onTransportConnected_keeps s : keeps s (onTransportConnected emit s).
Proof.
  unfold onTransportConnected. destruct (is_state s Connecting) eqn:Hs; cbn [negb]; [|done].
  apply is_state_true in Hs. cbv zeta. unfold sendSignal, sendVersionRequest.
  eapply keeps_then; [|apply guarded_keeps; [not_dead|done]].
  eapply advance_keeps; try done; try not_dead. constructor.
Qed.

Lemma dead_test s :
  negb (is_state s Idle) && negb (is_state s Disconnected) = negb (bool_decide (dead (state_ s))).
Proof. unfold is_state, dead. by destruct (state_ s). Qed.

Lemma start_keeps c s : keeps s (start emit c s).
Proof.
  unfold start. destruct (finalized_ s) eqn:Hf; [done|].
  rewrite dead_test. destruct (bool_decide (dead (state_ s))) eqn:Hd; cbn [negb]; [|done].
  apply bool_decide_eq_true in Hd. cbv zeta.
  match goal with |- keeps _ (if c then onTransportConnected _ (setState _ _ ?x) else _) =>
    cut (keeps s (setState emit Connecting x)) end.
  { intros Hk. destruct c; [|done]. eapply keeps_then; [exact Hk|].
    apply onTransportConnected_keeps. }
  intros Hi. destruct (inv_dead _ Hi Hd) as (Ht & Hm & Hc).
  unfold setState. rewrite (proj2 (is_state_false _ _)) by (cbn; destruct Hd; congruence).
  cbv zeta. rewrite bool_decide_false by done.
  match goal with |- inv (emit _ ?x) /\ _ => assert (inv x) as Hx end.
  { destruct Hi as [? ? ? Hpi Hpo Hp]. constructor; simpl; try congruence; try not_dead.
    - intros Hx. specialize (Hpi Hx). destruct Hd; congruence.
    - intros Hx. specialize (Hpo Hx). destruct Hd, Hpo; congruence.
    - apply (path_step _ (state_ s)); [done|by constructor]. }
  destruct (emit_gains (stateChanged Connecting) _ Hx) as (H1 & H2 & H3).
  split; [done|]. split; [intros _; apply H2; not_dead|].
  rewrite score_assign in H3. change (owed Connecting) with 1 in H3. cbn [weight] in H3.
  match type of H3 with score ?x + _ - _ + _ <= _ =>
    change (score x) with (score s) in H3; change (state_ x) with (state_ s) in H3 end.
  revert H3. unfold owed. destruct (decide _); lia.
Qed.

Lemma stop_keeps reason s : keeps s (stop emit reason s).
Proof.
  unfold stop. destruct (_ || _) eqn:Hd; [done|]. breflect.
  rewrite is_state_false in *.
  destruct (is_state s Active) eqn:Ha; cbv zeta.
  - apply is_state_true in Ha. unfold sendSignal, sendShutdownRequest.
    eapply keeps_then; [|apply guarded_keeps; [not_dead|done]].
    intros Hi. destruct (keeps_stopLivenessTimers s Hi) as (H1 & H2 & _).
    destruct (setState_live ShuttingDown (stopLivenessTimers s)) as (? & ? & Hsc); auto;
      try done; try not_dead.
    + simpl. rewrite Ha. done.
    + simpl. rewrite Ha. constructor.
    + apply (inv_live _ Hi). rewrite Ha. not_dead.
    + simpl. destruct (finalized_ s) eqn:E; [|done].
      apply (inv_finalized _ Hi) in E. rewrite Ha in E. by destruct E.
    + split_and!; [done|done|].
      change (score (stopLivenessTimers s)) with (score s) in Hsc.
      change (state_ (stopLivenessTimers s)) with (state_ s) in Hsc.
      rewrite Ha in Hsc. change (owed Active) with 1 in Hsc. cbn [weight] in Hsc. lia.
  - eapply keeps_then; [apply keeps_stopStateTimer|].
    eapply keeps_then; [apply keeps_stopLivenessTimers|]. by apply disconnect_keeps.
Qed.

Lemma disconnects_keep hs s :
  inv s -> let s' := foldl (fun s h => disconnectHandler h s) s hs in
  inv s' /\ (quiescent s -> quiescent s') /\ score s' = score s.
Proof.
  revert s; induction hs as [|h hs IH]; intros s Hi; cbn [foldl]; [auto|].
  destruct (keeps_connected (fun c => c ∖ {[h]}) s Hi) as (H1 & H2 & _).
  destruct (IH _ H1) as (H3 & H4 & H5). split_and!; [done|auto|exact H5].
Qed.

Lemma finalize_keeps s : keeps s (finalize emit s).
Proof.
  unfold finalize. destruct (finalized_ s) eqn:Hf; [done|]. cbv zeta.
  change (is_state (s <| finalized_ := true |>)) with (is_state s).
  change (negb (is_state (s <| finalized_ := true |>) Idle)) with (negb (is_state s Idle)).
  change (is_state (s <| finalized_ := true |>) Disconnected) with (is_state s Disconnected).
  rewrite dead_test. set (live := negb (bool_decide (dead (state_ s)))).
  intros Hi.
  set (s0 := if live then assign_state Disconnected (s <| finalized_ := true |>)
             else s <| finalized_ := true |>).
  assert (Hd0 : dead (state_ s0) /\ path (history s0) (state_ s0)
                /\ openChannels_ s0 = openChannels_ s
                /\ (channelsClosed_ s0 = true -> quiescent s -> quiescent s0)
                /\ score s <= score s0).
  { unfold s0, live. destruct (bool_decide (dead (state_ s))) eqn:Hd; cbn [negb].
    - apply bool_decide_eq_true in Hd. split_and!; [exact Hd|exact (inv_path _ Hi)|done|intros _ Hq; exact Hq|].
      change (score s <= score s). lia.
    - apply bool_decide_eq_false in Hd. split_and!; [by right| |done| |].
      + cbn. apply (path_step _ (state_ s)); [by apply Hi|].
        constructor. intros E. apply Hd. by right.
      + cbn. rewrite (inv_live _ Hi Hd). done.
      + rewrite score_assign. change (owed Disconnected) with 0.
        change (score (s <| finalized_ := true |>)) with (score s).
        unfold owed. destruct (decide _); lia. }
  clearbody s0. destruct Hd0 as (Hd & Hp & Ho & Hq & Hsc).
  set (s1 := stopLivenessTimers (stopStateTimer s0) <| messengerStarted_ := false |>).
  assert (Hs1 : state_ s1 = state_ s0 /\ history s1 = history s0
                /\ channelsClosed_ s1 = channelsClosed_ s0
                /\ openChannels_ s1 = openChannels_ s0 /\ score s1 = score s0) by done.
  clearbody s1. destruct Hs1 as (E1 & E2 & E3 & E4 & E5).
  destruct (closeChannels_dead s1) as (H1 & Hsc2 & H2 & H3); [congruence|congruence|].
  set (s2 := closeChannels emit s1) in *. clearbody s2.
  destruct (disconnects_keep (handlers s2) s2 H1) as (H4 & H5 & Hsc3).
  set (s3 := foldl _ s2 (handlers s2)) in *. clearbody s3.
  destruct (keeps_channels (fun _ => ∅) s3 H4) as (H6 & H7 & Hsc4).
  set (s4 := s3 <| channels_ := ∅ |>).
  change (s3 <| channels_ ::= fun _ => ∅ |>) with s4 in H6, H7, Hsc4.
  assert (Hk : inv s4 /\ (quiescent s -> quiescent s4) /\ score s + 0 <= score s4).
  { split_and!; [exact H6| |lia]. intros Hqs. apply H7, H5.
    destruct (channelsClosed_ s1) eqn:Hc; [|by apply H3].
    apply H2; [done|]. intros Hd1. rewrite E4. apply Hq; [congruence|done|congruence]. }
  clearbody s4. destruct live; [|exact Hk].
  assert (Hw : 0 <= weight (stateChanged (state_ s4))) by (destruct (state_ s4); cbn; lia).
  destruct (emit_keeps (stateChanged (state_ s4)) _ Hw (proj1 Hk)) as (H8 & H9 & H10).
  destruct Hk as (_ & Hk1 & Hk2). split_and!; [done|auto|lia].
Qed.

Lemma registerChannel_keeps ch h s : keeps s (registerChannel emit ch h s).
Proof.
  unfold registerChannel. destruct h as [h|]; [|done].
  destruct (finalized_ s); [done|]. cbv zeta.
  eapply keeps_then; [by apply (emit_keeps (configureSession h (protocolPolicy (config_ s))))|].
  generalize (emit (configureSession h (protocolPolicy (config_ s))) s). clear s. intros s.
  destruct (channels_ s !! ch) as [e|]; [|apply keeps_channels].
  destruct (bool_decide (e = h)); [apply keeps_channels|].
  set (wasOpen := bool_decide (ch ∈ openChannels_ s)). clearbody wasOpen.
  set (s1 := if wasOpen then _ else _).
  assert (H1 : keeps s s1).
  { unfold s1. eapply keeps_then; [apply (keeps_connected (fun c => c ∖ {[e]}))|].
    destruct wasOpen; [by apply emit_keeps|done]. }
  clearbody s1. eapply keeps_then; [exact H1|].
  eapply keeps_then; [apply (keeps_open_remove ch)|].
  eapply keeps_then; [apply (keeps_channels <[ch:=h]>)|].
  match goal with |- keeps ?x _ => generalize x end. clear -emit_gains. intros s.
  destruct (wasOpen && negb (finalized_ s) && is_state s Active) eqn:Hb; [|done].
  breflect. apply is_state_true in H0.
  eapply keeps_then; [apply (keeps_connected (fun c => {[h]} ∪ c))|].
  eapply keeps_then; [apply (keeps_open_insert ch); cbn; rewrite H0; not_dead|].
  by apply emit_keeps.
Qed.

Lemma onTransportFailure_keeps s : keeps s (onTransportFailure emit s).
Proof.
  unfold onTransportFailure. destruct (is_state _ _) eqn:Hs; [done|].
  by apply disconnect_keeps, is_state_false.
Qed.

Lemma onVersionReceived_keeps maj min st s : keeps s (onVersionReceived emit maj min st s).
Proof.
  unfold onVersionReceived. destruct (is_state s VersionExchange) eqn:Hs; cbn [negb]; [|done].
  apply is_state_true in Hs. cbv zeta.
  eapply keeps_then; [apply keeps_stopStateTimer|].
  destruct (_ || _); [apply disconnect_keeps; cbn; congruence|].
  eapply keeps_then; [|apply guarded_keeps; [not_dead|done]].
  eapply advance_keeps; [exact Hs|not_dead|not_dead|done|done|constructor].
Qed.

Lemma onVersionResponseMalformed_keeps s : keeps s (onVersionResponseMalformed emit s).
Proof.
  unfold onVersionResponseMalformed. destruct (is_state s VersionExchange) eqn:Hs; cbn [negb]; [|done].
  apply is_state_true in Hs. eapply keeps_then; [apply keeps_stopStateTimer|].
  apply disconnect_keeps. cbn. congruence.
Qed.

Lemma onHandshakeComplete_keeps s : keeps s (onHandshakeComplete emit s).
Proof.
  unfold onHandshakeComplete. destruct (is_state s TLSHandshake) eqn:Hs; cbn [negb]; [|done].
  apply is_state_true in Hs. cbv zeta. unfold sendSignal, sendAuthComplete.
  eapply keeps_then; [apply keeps_stopStateTimer|].
  eapply keeps_then; [|apply guarded_keeps; [not_dead|done]].
  eapply advance_keeps; [exact Hs|not_dead|not_dead|done|done|constructor].
Qed.

Lemma onHandshakeFailed_keeps s : keeps s (onHandshakeFailed emit s).
Proof.
  unfold onHandshakeFailed. destruct (is_state s TLSHandshake) eqn:Hs; cbn [negb]; [|done].
  apply is_state_true in Hs. eapply keeps_then; [apply keeps_stopStateTimer|].
  apply disconnect_keeps. cbn. congruence.
Qed.

Lemma give_up_keeps reason s :
  state_ s <> Disconnected ->
  keeps s (disconnect emit reason (stopLivenessTimers (stopStateTimer s))).
Proof.
  intros Hs. eapply keeps_then; [apply keeps_stopStateTimer|].
  eapply keeps_then; [apply keeps_stopLivenessTimers|by apply disconnect_keeps].
Qed.

Lemma onTlsFailed_keeps s : keeps s (onTlsFailed emit s).
Proof.
  unfold onTlsFailed. destruct (_ || _) eqn:Hd; [done|]. breflect.
  rewrite is_state_false in *.
  destruct (is_state s TLSHandshake); [apply onHandshakeFailed_keeps|by apply give_up_keeps].
Qed.

Lemma onProtocolFailed_keeps s : keeps s (onProtocolFailed emit s).
Proof.
  unfold onProtocolFailed. destruct (_ || _) eqn:Hd; [done|]. breflect.
  rewrite is_state_false in *. by apply give_up_keeps.
Qed.

Lemma onPingTick_keeps now s : keeps s (onPingTick emit now s).
Proof.
  unfold onPingTick. destruct (is_state s Active) eqn:Hs; cbn [negb]; [|done]. cbv zeta.
  apply is_state_true in Hs.
  match goal with |- keeps _ (if is_state (sendSignal _ _ ?x) _ && _ && _ then _ else _) =>
    set (s1 := x) end.
  assert (H1 : keeps s s1).
  { intros [? ? ? ? Hpo ?]. split; [|split; [done|same_score]].
    constructor; try done. simpl. intros Hx.
    split; [done|]. intros E.
    apply (not_elem_of_empty (C := gset Z) now). rewrite <- E. apply elem_of_add. }
  clearbody s1. eapply keeps_then; [exact H1|].
  eapply keeps_then; [apply (sendSignal_keeps (sendPingRequest (lastPingTimestamp_ s1)))|].
  generalize (sendSignal emit (sendPingRequest (lastPingTimestamp_ s1)) s1).
  clear -emit_gains. intros s.
  destruct (_ && _ && _) eqn:Hb; [|done]. breflect. apply is_state_true in H.
  intros [? ? ? ? ? ?]. split; [|split; [done|same_score]]. constructor; try done; simpl.
  intros _. split; [done|]. intros E.
  apply (not_elem_of_empty (C := gset Z) (lastPingTimestamp_ s)). by rewrite <- E.
Qed.

Lemma onServiceDiscoveryRequested_keeps now s :
  keeps s (onServiceDiscoveryRequested emit now s).
Proof.
  unfold onServiceDiscoveryRequested.
  destruct (is_state s ServiceDiscovery); cbn [negb]; [|done]. cbv zeta.
  eapply keeps_then; [apply keeps_stopStateTimer|].
  match goal with |- keeps _ (if _ (emit ?e ?x) || _ then _ else _) =>
    apply (keeps_then _ (emit e x)); [by apply emit_keeps|]; generalize (emit e x) end.
  clear s. intros s. destruct (finalized_ s); [done|].
  destruct (is_state s ServiceDiscovery) eqn:Hs; cbn [orb negb]; [|done].
  apply is_state_true in Hs.
  eapply keeps_then; [eapply (advance_keeps _ Active); [exact Hs|not_dead|not_dead|done|done|constructor]|].
  generalize (setState emit Active s). clear s Hs. intros s.
  destruct (finalized_ s); [done|].
  destruct (is_state s Active) eqn:Hs; cbn [orb negb]; [|done].
  apply is_state_true in Hs.
  eapply keeps_then; [|apply onPingTick_keeps].
  intros [? ? ? ? ? ?]. split; [by constructor|split; [done|same_score]].
Qed.

Lemma openChannel_keeps ch h s : keeps s (openChannel emit ch h s).
Proof.
  unfold openChannel. cbv zeta.
  set (reopen := bool_decide (ch ∈ openChannels_ s) && _). clearbody reopen.
  set (s1 := if reopen then _ else s).
  assert (H1 : keeps s s1)
    by (unfold s1; destruct reopen; [apply closeServiceChannel_keeps|done]).
  clearbody s1. eapply keeps_then; [exact H1|]. clear H1 s.
  destruct (reopen && negb (stillCurrent ch h s1)); [done|].
  eapply keeps_then; [apply (sendSignal_keeps (sendChannelOpenResponse ch true))|].
  generalize (sendSignal emit (sendChannelOpenResponse ch true) s1).
  clear -emit_gains. intros s.
  destruct (stillCurrent ch h s) eqn:Hc; cbn [negb]; [|done].
  assert (Ha : state_ s = Active).
  { unfold stillCurrent in Hc. breflect. by apply is_state_true. }
  eapply keeps_then; [apply (keeps_connected (fun c => {[h]} ∪ c))|].
  change (s <| connected_ ::= fun c => {[h]} ∪ c |>) with (connectHandler h s).
  eapply keeps_then; [apply (keeps_open_insert ch); cbn; rewrite Ha; not_dead|].
  eapply keeps_then; [by apply (emit_keeps (onChannelOpened h))|].
  match goal with |- keeps ?x _ => generalize x end. clear -emit_gains. intros s.
  destruct (stillCurrent ch h s); cbn [negb]; [by apply emit_keeps|done].
Qed.

Lemma rejected_keeps ch z s :
  keeps s (emit (channelOpenRejected z) (sendSignal emit (sendChannelOpenResponse ch false) s)).
Proof. eapply keeps_then; [apply sendSignal_keeps|by apply emit_keeps]. Qed.

Lemma onChannelOpenRequested_keeps ch s : keeps s (onChannelOpenRequested emit ch s).
Proof.
  unfold onChannelOpenRequested. destruct (negb _); [done|].
  destruct (_ || _); [by apply emit_keeps|].
  destruct (channels_ s !! ch); [apply openChannel_keeps|apply rejected_keeps].
Qed.

Lemma onPongReceived_keeps ts s : keeps s (onPongReceived ts s).
Proof.
  unfold onPongReceived. destruct (_ || _); [done|].
  intros [? ? ? ? ? ?]. split; [|split; [done|same_score]]. constructor; try done; simpl; by intros [].
Qed.

Lemma onPongDeadline_keeps s :
  keeps s (onPongDeadline emit (s <| pongDeadlineTimer_ := None |>)).
Proof.
  eapply keeps_then.
  - instantiate (1 := s <| pongDeadlineTimer_ := None |>).
    intros [? ? ? ? ? ?]. split; [|split; [done|same_score]]. constructor; try done; simpl; by intros [].
  - unfold onPongDeadline.
    destruct (is_state _ Active) eqn:Hs; cbn [negb]; [|done]. apply is_state_true in Hs.
    eapply keeps_then; [apply keeps_stopLivenessTimers|].
    apply disconnect_keeps. cbn in *. congruence.
Qed.

Lemma onShutdownRequested_keeps s : keeps s (onShutdownRequested emit s).
Proof.
  unfold onShutdownRequested. cbv zeta. eapply keeps_then; [apply sendSignal_keeps|].
  destruct (_ || _) eqn:Hd; [done|]. breflect.
  by apply disconnect_keeps, is_state_false.
Qed.

Lemma onControlSignal_keeps now sig s : keeps s (onControlSignal emit now sig s).
Proof.
  destruct sig; cbn [onControlSignal]; try done; try apply sendSignal_keeps;
    [apply onVersionReceived_keeps|apply onVersionResponseMalformed_keeps
    |apply onServiceDiscoveryRequested_keeps|apply onChannelOpenRequested_keeps
    |apply onPongReceived_keeps|apply onShutdownRequested_keeps| | ].
  - unfold onShutdownAcknowledged.
    destruct (is_state s ShuttingDown) eqn:Hs; cbn [negb]; [|done].
    apply is_state_true in Hs. apply disconnect_keeps. congruence.
  - unfold onAudioFocusRequested. destruct (parse_AudioFocusRequest _); [|done].
    cbv zeta. eapply keeps_then; [apply sendSignal_keeps|by apply emit_keeps].
Qed.

Lemma foldl_keeps {A} (f : t -> A -> t) l s :
  (forall a s, keeps s (f s a)) -> keeps s (foldl f s l).
Proof.
  intros Hf. revert s; induction l as [|a l IH]; intros s; cbn [foldl]; [done|].
  eapply keeps_then; [apply Hf|apply IH].
Qed.

Lemma dispatch_keeps ch id payload off s :
  keeps s (dispatch emit ch id payload off s).
Proof.
  unfold dispatch. destruct (channels_ s !! ch); [|done].
  cbv zeta. destruct (_ && _); [|by apply emit_keeps].
  destruct (_ && _); by apply emit_keeps.
Qed.

Lemma onMessage_keeps now ch id payload off mt s :
  keeps s (onMessage emit now ch id payload off mt s).
Proof.
  unfold onMessage. cbv zeta. destruct (ch =? 0).
  { apply foldl_keeps. intros. apply onControlSignal_keeps. }
  destruct (_ && _ && _).
  { destruct (is_state s Active); [apply closeServiceChannel_keeps|done]. }
  match goal with |- keeps s (if _ then onOpenRequestMessage _ _ _ ?x else _) =>
    set (s1 := x) end.
  assert (H1 : keeps s s1).
  { unfold s1. destruct (_ && _ && _ && _); [apply keeps_warned2|done]. }
  clearbody s1. eapply keeps_then; [exact H1|]. clear H1 s.
  destruct (_ && _).
  { unfold onOpenRequestMessage. destruct (negb _); [done|].
    destruct (parse_ChannelOpenRequest _) as [r|]; [|done].
    destruct (_ || _); [by apply emit_keeps|].
    destruct (channels_ s1 !! r); [apply openChannel_keeps|apply rejected_keeps]. }
  destruct (_ && _); [|apply dispatch_keeps].
  destruct (_ && _ && _ && _); [apply keeps_warned1|done].
Qed.

Lemma step_keeps i s : keeps s (step emit i s).
Proof.
  destruct i; cbn [step];
    try match goal with |- context [if ?b then _ else _] => destruct b eqn:Ht; [|done] end.
  - apply start_keeps.
  - apply stop_keeps.
  - apply finalize_keeps.
  - apply registerChannel_keeps.
  - apply onTransportConnected_keeps.
  - apply onTransportFailure_keeps.
  - apply onMessage_keeps.
  - apply onHandshakeComplete_keeps.
  - apply onHandshakeFailed_keeps.
  - apply onTlsFailed_keeps.
  - apply onProtocolFailed_keeps.
  - apply onPingTick_keeps.
  - apply onPongDeadline_keeps.
  - intros Hi. apply (keeps_then _ (stopStateTimer s)); [apply keeps_stopStateTimer| |done].
    apply disconnect_keeps. cbn. intros Hs.
    destruct (inv_dead _ Hi) as (E & _); [by right|]. by rewrite E in Ht.
  - by apply emit_keeps.
Qed.

End Keeps.

Lemma emitN_gains env n e s : gains (weight e) s (emitN env n e s).
Proof.
  revert e s; induction n as [|n IH]; intros e s; cbn [emitN];
    [apply gains_log|].
  rewrite <- (Z.add_0_r (weight e)).
  apply (gains_then _ _ _ (s <| log ::= fun l => l ++ [e] |>)); [apply gains_log|].
  apply foldl_keeps. intros i s'. apply step_keeps. apply IH.
Qed.

Lemma run_keeps env n inputs s : keeps s (run env n inputs s).
Proof.
  apply foldl_keeps. intros i s'. apply step_keeps. apply emitN_gains.
Qed.



(** ** Counting reports *)

Definition is_attempt (e : Event) : bool :=
  match e with stateChanged Connecting => true | _ => false end.
Definition is_report (e : Event) : bool :=
  match e with disconnected _ => true | _ => false end.

(** Connection attempts and [disconnected] signals in an event log. *)
Definition attempts (es : list Event) : Z := blen (List.filter is_attempt es).
Definition reports (es : list Event) : Z := blen (List.filter is_report es).

Lemma balance_count es : balance es = attempts es - reports es.
Proof.
  unfold attempts, reports. induction es as [|e es IH]; [done|].
  cbn [balance foldr List.filter]. fold (balance es). rewrite IH.
  destruct e as [[]| | | | | | | | | | | | ]; cbn [is_attempt is_report weight];
    rewrite ?blen_cons; lia.
Qed.

(** ** Without call-backs *)

Abbreviation quiet_run := (run (fun _ => []) 0).
Abbreviation quiet := (emitN (fun _ => []) 0).

Lemma quiet_emit e s : quiet e s = s <| log ::= fun l => l ++ [e] |>.
Proof. reflexivity. Qed.

(** [VERSION_RESPONSE] on the control channel. *)
Lemma versionResponse_signal hd maj min st rest :
  length hd = 2%nat -> u16 maj -> u16 min -> u16 st ->
  ControlChannel.onMessage MSG_VERSION_RESPONSE
    (hd ++ be16 maj ++ be16 min ++ be16 st ++ rest) 2
  = [versionReceived maj min st rest].
Proof.
  intros Hh Hma Hmi Hst. unfold ControlChannel.onMessage.
  change (MSG_VERSION_RESPONSE =? MSG_VERSION_RESPONSE) with true. cbv iota zeta.
  rewrite (drop_app_length' hd) by done. unfold mid.
  rewrite !blen_app, !blen_be16. pose proof (blen_nonneg rest).
  destruct (Z.ltb_spec (2 + (2 + (2 + blen rest))) 6); [lia|].
  rewrite drop_0, (take_app_length' (be16 maj)) by (by rewrite be16_length).
  rewrite (drop_app_length' (be16 maj)) by (by rewrite be16_length).
  rewrite (take_app_length' (be16 min)) by (by rewrite be16_length).
  rewrite (assoc_L (++) (be16 maj)), (drop_app_length' (be16 maj ++ be16 min))
    by (rewrite length_app, !be16_length; done).
  rewrite (take_app_length' (be16 st)) by (by rewrite be16_length).
  rewrite (assoc_L (++) (be16 maj ++ be16 min)),
    (drop_app_length' ((be16 maj ++ be16 min) ++ be16 st))
    by (rewrite !length_app, !be16_length; done).
  by rewrite !be_decode_be16.
Qed.

(** The negotiation succeeds on status 0, and for recent protocol versions
    only if the phone reports at least the requested version. *)
Definition negotiated (c : SessionConfig) (maj min status : Z) : Prop :=
  status = 0
  /\ (version_ge (protocolPolicy c) kGalVersion4_3 = true ->
      protocolMajor c < maj \/ (protocolMajor c = maj /\ protocolMinor c <= min)).

#[local] Instance negotiated_dec c maj min st : Decision (negotiated c maj min st).
Proof. unfold negotiated. apply _. Defined.

Lemma closeHandlers_quiet hs s :
  let s' := closeHandlers quiet hs s in
  s' = s <| connected_ := connected_ s' |>
         <| log := log s ++ map onChannelClosed hs |>.
Proof.
  revert s; induction hs as [|h hs IH]; intros s; cbn [closeHandlers map].
  - rewrite app_nil_r. by destruct s.
  - rewrite quiet_emit. cbv zeta in IH.
    rewrite (IH (disconnectHandler h s <| log ::= fun l => l ++ [onChannelClosed h] |>)) at 1.
    cbn. by rewrite <- (assoc_L (++)).
Qed.

(** The handlers' goodbye: one call each. *)
Definition goodbyes (s : t) : list Event :=
  if channelsClosed_ s then [] else map onChannelClosed (handlers s).

(** Giving up, step by step. *)
Lemma disconnect_quiet reason s :
  state_ s <> Disconnected ->
  let s' := disconnect quiet reason s in
  state_ s' = Disconnected /\ stateTimer_ s' = None /\ pingTimer_ s' = None
  /\ pongDeadlineTimer_ s' = None /\ messengerStarted_ s' = false
  /\ (channelsClosed_ s = false -> openChannels_ s' = ∅)
  /\ log s' = log s ++ goodbyes s ++ [stateChanged Disconnected; disconnected reason].
Proof.
  intros Hs. unfold disconnect, setState.
  rewrite (proj2 (is_state_false _ _) Hs), bool_decide_true by done.
  rewrite !quiet_emit. unfold closeChannels, goodbyes. cbv zeta.
  set (s1 := stopLivenessTimers (stopStateTimer (assign_state Disconnected s))
               <| messengerStarted_ := false |>).
  change (channelsClosed_ s1) with (channelsClosed_ s).
  destruct (channelsClosed_ s).
  - split_and!; try done. cbn. by rewrite <- (assoc_L (++)).
  - rewrite closeHandlers_quiet. cbv zeta.
    split_and!; try done. cbn. by rewrite <- !(assoc_L (++)).
Qed.

(** The test of the version response decides [negotiated]. *)
Lemma version_test c maj min st :
  negb (st =? 0)
  || (requiresMinimumCompatibleResponse (protocolPolicy c)
      && negb ((protocolMajor c <? maj)
               || ((maj =? protocolMajor c) && (protocolMinor c <=? min))))
  = negb (bool_decide (negotiated c maj min st)).
Proof.
  unfold requiresMinimumCompatibleResponse, atLeast.
  destruct (Z.eqb_spec st 0), (version_ge _ _) eqn:Hv, (Z.ltb_spec (protocolMajor c) maj),
    (Z.eqb_spec maj (protocolMajor c)), (Z.leb_spec (protocolMinor c) min);
    cbn [negb orb andb];
    (rewrite bool_decide_true; [done|]; unfold negotiated; rewrite ?Hv;
       (split; [lia|intros; lia || done]))
    || (rewrite bool_decide_false; [done|]; unfold negotiated; rewrite ?Hv;
        intros [? Hx]; try (destruct (Hx eq_refl)); lia).
Qed.

Lemma onVersionReceived_accept maj min st s :
  state_ s = VersionExchange -> finalized_ s = false ->
  negotiated (config_ s) maj min st ->
  onVersionReceived quiet maj min st s
  = s <| stateTimer_ := Some (handshakeTimeout (config_ s)) |>
      <| state_ := TLSHandshake |> <| history ::= fun h => h ++ [TLSHandshake] |>
      <| log ::= fun l => l ++ [stateChanged TLSHandshake; startHandshake] |>.
Proof.
  intros Hs Hf Hn. unfold onVersionReceived.
  rewrite (proj2 (is_state_true _ _) Hs). cbn [negb]. cbv zeta.
  change (config_ (stopStateTimer s)) with (config_ s).
  rewrite version_test, bool_decide_true by done. cbn [negb].
  unfold setState. rewrite (proj2 (is_state_false _ _)) by (cbn; congruence).
  rewrite bool_decide_false by done. rewrite !quiet_emit. cbn.
  rewrite Hf. cbn. by rewrite <- (assoc_L (++)).
Qed.

Lemma onVersionReceived_quiet maj min st s :
  state_ s = VersionExchange -> finalized_ s = false ->
  let s' := onVersionReceived quiet maj min st s in
  if decide (negotiated (config_ s) maj min st)
  then state_ s' = TLSHandshake
       /\ stateTimer_ s' = Some (handshakeTimeout (config_ s))
       /\ log s' = log s ++ [stateChanged TLSHandshake; startHandshake]
  else state_ s' = Disconnected /\ stateTimer_ s' = None
       /\ log s' = log s ++ goodbyes s
                      ++ [stateChanged Disconnected; disconnected VersionMismatch].
Proof.
  intros Hs Hf. cbv zeta. destruct (decide (negotiated (config_ s) maj min st)) as [Hn|Hn].
  - by rewrite onVersionReceived_accept.
  - unfold onVersionReceived.
    rewrite (proj2 (is_state_true _ _) Hs). cbn [negb]. cbv zeta.
    change (config_ (stopStateTimer s)) with (config_ s).
    rewrite version_test, bool_decide_false by done. cbn [negb].
    destruct (disconnect_quiet VersionMismatch (stopStateTimer s))
      as (H1 & H2 & _ & _ & _ & _ & H3); [cbn; congruence|].
    split_and!; [done|done|]. exact H3.
Qed.

(** ** Liveness of the peer *)

Inductive beat := Tick (now : Z) | Pong (timestamp : Z).

Definition onBeat (s : t) (b : beat) : t :=
  match b with
  | Tick now => onPingTick quiet now s
  | Pong timestamp => onPongReceived timestamp s
  end.

(** Ticks do not go back in time. *)
Fixpoint monotone (from : Z) (bs : list beat) : Prop :=
  match bs with
  | [] => True
  | Tick now :: bs' => from <= now /\ monotone now bs'
  | Pong _ :: bs' => monotone from bs'
  end.

(** The deadline is that of the oldest ping without an answer. *)
Definition deadline_ok (from : Z) (s : t) : Prop :=
  state_ s = Active
  /\ (forall q, q ∈ outstandingPingTimestamps_ s -> q <= from)
  /\ match pongDeadlineTimer_ s with
     | None => outstandingPingTimestamps_ s = ∅
     | Some d => exists p, d = p + pingTimeout (config_ s)
         /\ p ∈ outstandingPingTimestamps_ s
         /\ forall q, q ∈ outstandingPingTimestamps_ s -> p <= q
     end.

Lemma onPingTick_quiet from now s :
  deadline_ok from s -> from <= now ->
  deadline_ok now (onPingTick quiet now s)
  /\ config_ (onPingTick quiet now s) = config_ s.
Proof.
  intros (Hs & Hle & Hd) Hn. unfold onPingTick.
  rewrite (proj2 (is_state_true _ _) Hs). cbn [negb]. cbv zeta.
  unfold sendSignal, sendPingRequest. rewrite quiet_emit.
  match goal with |- context [if ?b then _ else _] =>
    assert (Hb : b = negb (bool_decide (is_Some (pongDeadlineTimer_ s)))) end.
  { rewrite (proj2 (is_state_true _ _)) by done.
    rewrite bool_decide_true by apply elem_of_add. done. }
  rewrite Hb. destruct (pongDeadlineTimer_ s) as [d|] eqn:Hp.
  - rewrite bool_decide_true by eauto. cbn [negb]. split; [|done].
    destruct Hd as (p & -> & Hin & Hmin). split_and!; cbn; [done| |].
    + intros q [->%elem_of_singleton|Hq]%elem_of_union; [lia|]. specialize (Hle q Hq). lia.
    + rewrite Hp. exists p. split_and!; [done|by apply elem_of_union_r|].
      intros q [->%elem_of_singleton|Hq]%elem_of_union; [|by apply Hmin].
      specialize (Hle p Hin). lia.
  - rewrite bool_decide_false by (by intros [? ?]). cbn [negb]. split; [|done].
    split_and!; cbn; [done| |].
    + intros q [->%elem_of_singleton|Hq]%elem_of_union; [lia|]. specialize (Hle q Hq). lia.
    + exists now. rewrite Hd. split_and!; [done|apply elem_of_add|].
      intros q [->%elem_of_singleton|Hq]%elem_of_union; [lia|].
      by apply not_elem_of_empty in Hq.
Qed.

Lemma onPongReceived_ok from ts s :
  deadline_ok from s ->
  deadline_ok from (onPongReceived ts s)
  /\ config_ (onPongReceived ts s) = config_ s.
Proof.
  intros (Hs & Hle & Hd). unfold onPongReceived.
  rewrite (proj2 (is_state_true _ _) Hs). cbn [negb orb].
  destruct (bool_decide _); cbn [negb]; [|by split_and!].
  split; [|done]. split_and!; cbn; [done| |done]. intros q Hq.
  by apply not_elem_of_empty in Hq.
Qed.

Lemma beats_ok bs from s :
  deadline_ok from s -> monotone from bs ->
  (exists till, deadline_ok till (foldl onBeat s bs))
  /\ config_ (foldl onBeat s bs) = config_ s.
Proof.
  revert from s; induction bs as [|b bs IH]; intros from s Hd Hm; cbn [foldl];
    [by split; [exists from|]|].
  destruct b as [now|ts]; cbn [monotone onBeat] in *.
  - destruct Hm as [Hle Hm].
    destruct (onPingTick_quiet from now s Hd Hle) as [H1 <-]. by apply (IH now).
  - destruct (onPongReceived_ok from ts s Hd) as [H1 <-]. by apply (IH from).
Qed.


(** ** Opening channels *)







(** A closed cluster channel is deaf. *)
Lemma onMessage_closed_cluster emit now ch id payload off mt s :
  supportsExplicitReopenLifecycle ch = true -> ch ∉ openChannels_ s ->
  ~ (id = CHANNEL_OPEN_REQUEST /\ mt = Control) ->
  let s' := onMessage emit now ch id payload off mt s in
  s' = s \/ s' = s <| warnedNonControlOpenChannels_ ::= fun w => {[ch]} ∪ w |>.
Proof.
  intros Hsup Ho Hid. unfold onMessage. cbv zeta. rewrite Hsup.
  assert (ch <> 0) as Hz by (intros ->; discriminate).
  rewrite (proj2 (Z.eqb_neq ch 0) Hz), andb_true_r.
  destruct ((id =? CHANNEL_CLOSE_NOTIFICATION) && bool_decide (mt = Control)); cbn [andb].
  - unfold closeServiceChannel. rewrite bool_decide_false by done.
    destruct (is_state s Active); by left.
  - destruct ((id =? CHANNEL_OPEN_REQUEST) && bool_decide (mt = Control)) eqn:Hb.
    { breflect. by destruct Hid. }
    rewrite (bool_decide_false (ch ∈ openChannels_ s)) by done. cbn [negb andb].
    destruct (_ && _ && _ && _); [by right|by left].
Qed.

(** ** From the cable to the first ping *)

(** The phone's side of a successful connection, as inputs. *)
Definition connecting_inputs (maj min now : Z) (discovery : bytes) : list Input :=
  [InStart true;
   InMessage now 0 MSG_VERSION_RESPONSE
     (be16 MSG_VERSION_RESPONSE ++ be16 maj ++ be16 min ++ be16 0) 2 Specific;
   InHandshakeComplete;
   InMessage now 0 MSG_SERVICE_DISCOVERY_REQUEST
     (be16 MSG_SERVICE_DISCOVERY_REQUEST ++ discovery) 2 Specific].

Definition connecting_events (c : SessionConfig) (now : Z) : list Event :=
  [stateChanged Connecting;
   stateChanged VersionExchange;
   sendMessage 0 MSG_VERSION_REQUEST (be16 (protocolMajor c) ++ be16 (protocolMinor c));
   stateChanged TLSHandshake;
   startHandshake;
   stateChanged ServiceDiscovery;
   sendMessage 0 MSG_AUTH_COMPLETE (ser_AuthCompleteIndication OK);
   sendMessage 0 0x6 (buildServiceDiscoveryResponse c);
   stateChanged Active;
   sendMessage 0 MSG_PING_REQUEST (ser_PingRequest now)].

Lemma connection c maj min now discovery :
  u16 maj -> u16 min -> negotiated c maj min 0 ->
  let s := quiet_run (connecting_inputs maj min now discovery) (create c) in
  state_ s = Active /\ log s = connecting_events (sanitizeConfig c) now
  /\ pingTimer_ s = Some (pingInterval (sanitizeConfig c))
  /\ pongDeadlineTimer_ s = Some (now + pingTimeout (sanitizeConfig c)).
Proof.
  intros Hma Hmi Hn. cbv zeta. unfold connecting_inputs, run. cbn [foldl].
  set (c' := sanitizeConfig c). set (es := connecting_events c' now).
  (* Idle to VersionExchange *)
  set (s1 := step quiet (InStart true) (create c)).
  assert (E1 : s1 = mk c' ∅ ∅ ∅ VersionExchange true
    (Some (versionTimeout c)) None None 0 ∅ ∅ ∅ false false (firstn 3 es)
    [Idle; Connecting; VersionExchange]) by reflexivity.
  clearbody s1.
  (* VersionExchange to TLSHandshake *)
  set (s2 := step quiet (InMessage _ _ MSG_VERSION_RESPONSE _ _ _) s1).
  assert (E2 : s2 = mk c' ∅ ∅ ∅ TLSHandshake true
    (Some (handshakeTimeout c)) None None 0 ∅ ∅ ∅ false false (firstn 5 es)
    [Idle; Connecting; VersionExchange; TLSHandshake]).
  { pose proof (versionResponse_signal (be16 MSG_VERSION_RESPONSE) maj min 0 []
      (be16_length _) Hma Hmi ltac:(done)) as Hv.
    rewrite app_nil_r in Hv.
    assert (s2 = foldl (fun s sig => onControlSignal quiet now sig s) s1
      (ControlChannel.onMessage MSG_VERSION_RESPONSE
        (be16 MSG_VERSION_RESPONSE ++ be16 maj ++ be16 min ++ be16 0) 2)) as ->
      by (subst s2; rewrite E1; reflexivity).
    rewrite Hv. cbn [foldl onControlSignal].
    rewrite onVersionReceived_accept; rewrite E1; [reflexivity|done|done|exact Hn]. }
  clearbody s2. subst s1.
  (* TLSHandshake to ServiceDiscovery *)
  set (s3 := step quiet InHandshakeComplete s2).
  assert (E3 : s3 = mk c' ∅ ∅ ∅ ServiceDiscovery true
    (Some (discoveryTimeout c)) None None 0 ∅ ∅ ∅ false false (firstn 7 es)
    [Idle; Connecting; VersionExchange; TLSHandshake; ServiceDiscovery])
    by (subst s3; rewrite E2; reflexivity).
  clearbody s3. subst s2.
  (* ServiceDiscovery to Active *)
  set (s4 := step quiet _ s3).
  assert (E4 : s4 = onPingTick quiet now (mk c' ∅ ∅ ∅ Active true
    None (Some (pingInterval c')) None 0 ∅ ∅ ∅ false false (firstn 9 es)
    [Idle; Connecting; VersionExchange; TLSHandshake; ServiceDiscovery; Active]))
    by (subst s4; rewrite E3; reflexivity).
  clearbody s4. rewrite E4. unfold onPingTick.
  change (is_state (mk _ _ _ _ Active _ _ _ _ _ _ _ _ _ _ _ _) Active) with true.
  cbn [negb]. cbv zeta. unfold sendSignal, sendPingRequest. rewrite quiet_emit.
  match goal with |- context [if ?b then _ else _] => assert (Hb : b = true) end.
  { cbn. rewrite bool_decide_true by apply elem_of_add. reflexivity. }
  rewrite Hb. split_and!; reflexivity.
Qed.

End Session.
End Session.

(** C2. The session is safe whatever calls back into it: from its creation,
    for every sequence of calls, messages and timer events, and however the
    application, the handlers and the transport re-enter it from inside its
    signals (to any depth), a finalized session stays disconnected; a session
    that is not connected has no timer running, its messenger stopped and no
    channel open; the liveness timers run only while it is active, a pong is
    only awaited for an outstanding ping; and its states only ever follow the
    connection's state diagram. *)
Theorem session_invariant {CP : ControlProto} {SP : SessionProto}
    (isAVHandler : nat -> bool) (env : list Session.Event -> list Session.Input)
    (depth : nat) (inputs : list Session.Input) (c : SessionConfig) :
  let s := Session.run isAVHandler env depth inputs (Session.create c) in
  Session.inv s /\ Session.quiescent s.
Proof.
  destruct (Session.create_inv c) as [Hi Hq].
  destruct (Session.run_keeps isAVHandler env depth inputs (Session.create c) Hi)
    as (? & ? & _). auto.
Qed.

(** C3. Every session is reported ended at most once: under the same
    circumstances, there are never more [disconnected] signals than connection
    attempts (one more if the session was given up before its first start),
    and while the session is not disconnected its report is still to come. *)
Theorem one_report_per_attempt {CP : ControlProto} {SP : SessionProto}
    (isAVHandler : nat -> bool) (env : list Session.Event -> list Session.Input)
    (depth : nat) (inputs : list Session.Input) (c : SessionConfig) :
  let s := Session.run isAVHandler env depth inputs (Session.create c) in
  Session.reports (Session.log s)
    + (if decide (Session.state_ s = Disconnected) then 0 else 1)
  <= Session.attempts (Session.log s) + 1.
Proof.
  cbv zeta. destruct (Session.create_inv c) as [Hi _].
  destruct (Session.run_keeps isAVHandler env depth inputs (Session.create c) Hi)
    as (_ & _ & Hs).
  unfold Session.score, Session.owed in Hs. rewrite !Session.balance_count in Hs.
  change (Session.attempts (Session.log (Session.create c))) with 0 in Hs.
  change (Session.reports (Session.log (Session.create c))) with 0 in Hs.
  change (Session.state_ (Session.create c)) with Idle in Hs.
  destruct (decide (Idle = Disconnected)); [done|]. lia.
Qed.

(** C14. A compatible phone gets connected: started on a connected transport,
    answered with a compatible version, a completed TLS handshake and a
    discovery request, the session reaches [Active], having sent exactly the
    version request, the authentication result, the discovery response and
    the first ping, in that order, with the ping timer and the pong deadline
    running. *)
Theorem connection_established {CP : ControlProto} {SP : SessionProto}
    (isAVHandler : nat -> bool) (c : SessionConfig) (maj min now : Z)
    (discovery : bytes) :
  u16 maj -> u16 min -> Session.negotiated c maj min 0 ->
  let s := Session.run isAVHandler (fun _ => []) 0
             (Session.connecting_inputs maj min now discovery) (Session.create c) in
  Session.state_ s = Active
  /\ Session.log s = Session.connecting_events (Session.sanitizeConfig c) now
  /\ Session.pingTimer_ s = Some (pingInterval (Session.sanitizeConfig c))
  /\ Session.pongDeadlineTimer_ s = Some (now + pingTimeout (Session.sanitizeConfig c)).
Proof. apply Session.connection. Qed.

(** C15. Version negotiation: the VERSION_RESPONSE received while versions
    are exchanged leads to the TLS handshake exactly when its status is 0
    and, from protocol 4.3 on, the reported version is at least the requested
    one in the order of (major, minor); otherwise every registered handler is
    told, once, and the session ends with [VersionMismatch]. *)
Theorem version_negotiation {CP : ControlProto} {SP : SessionProto}
    (isAVHandler : nat -> bool) (now maj min status : Z) (hd rest : bytes)
    (mt : MessageType) (s : Session.t) :
  Session.state_ s = VersionExchange -> Session.finalized_ s = false ->
  length hd = 2%nat -> u16 maj -> u16 min -> u16 status ->
  let s' := Session.onMessage isAVHandler (Session.emitN isAVHandler (fun _ => []) 0)
              now 0 MSG_VERSION_RESPONSE
              (hd ++ be16 maj ++ be16 min ++ be16 status ++ rest) 2 mt s in
  if decide (Session.negotiated (Session.config_ s) maj min status)
  then Session.state_ s' = TLSHandshake
       /\ Session.stateTimer_ s' = Some (handshakeTimeout (Session.config_ s))
       /\ Session.log s'
          = Session.log s ++ [Session.stateChanged TLSHandshake; Session.startHandshake]
  else Session.state_ s' = Disconnected /\ Session.stateTimer_ s' = None
       /\ Session.log s'
          = Session.log s ++ Session.goodbyes s
            ++ [Session.stateChanged Disconnected; Session.disconnected VersionMismatch].
Proof.
  intros Hs Hf Hh Hma Hmi Hst. unfold Session.onMessage. cbv zeta.
  change (0 =? 0) with true. cbv iota.
  rewrite Session.versionResponse_signal by done. cbn [foldl Session.onControlSignal].
  by apply Session.onVersionReceived_quiet.
Qed.

(** C16. The pong deadline is the oldest ping's: through any sequence of ping
    ticks (not going back in time) and pongs, answering or not, from an
    active session that awaits none, the deadline is running exactly while
    pings are unanswered, and is due [pingTimeout] after the first of them;
    a pong that matches no outstanding ping leaves it untouched. *)
Theorem ping_deadline {CP : ControlProto} {SP : SessionProto}
    (isAVHandler : nat -> bool) (bs : list Session.beat) (from : Z) (s : Session.t) :
  Session.state_ s = Active -> Session.outstandingPingTimestamps_ s = ∅ ->
  Session.pongDeadlineTimer_ s = None -> Session.monotone from bs ->
  let s' := foldl (Session.onBeat isAVHandler) s bs in
  match Session.pongDeadlineTimer_ s' with
  | None => Session.outstandingPingTimestamps_ s' = ∅
  | Some d => exists p, d = p + pingTimeout (Session.config_ s)
      /\ p ∈ Session.outstandingPingTimestamps_ s'
      /\ forall q, q ∈ Session.outstandingPingTimestamps_ s' -> p <= q
  end.
Proof.
  intros Hs Ho Hp Hm. cbv zeta.
  destruct (Session.beats_ok isAVHandler bs from s) as [[till (_ & _ & Hd)] Hc].
  - split_and!; [done| |by rewrite Hp]. rewrite Ho. intros q Hq.
    by apply not_elem_of_empty in Hq.
  - done.
  - rewrite <- Hc. exact Hd.
Qed.


(** C18. A closed cluster channel is deaf: nothing that arrives on it but an
    open request has any effect, whatever the handlers would do; no handler,
    signal or send is reached (a log-once marker may be set). *)
Theorem closed_cluster_deaf {CP : ControlProto} {SP : SessionProto}
    (isAVHandler : nat -> bool) (emit : Session.Event -> Session.t -> Session.t)
    (now ch id : Z) (payload : bytes) (off : nat) (mt : MessageType) (s : Session.t) :
  supportsExplicitReopenLifecycle ch = true -> ch ∉ Session.openChannels_ s ->
  ~ (id = CHANNEL_OPEN_REQUEST /\ mt = Control) ->
  let s' := Session.onMessage isAVHandler emit now ch id payload off mt s in
  s' = s
  \/ s' = s <| Session.warnedNonControlOpenChannels_ ::= fun w => {[ch]} ∪ w |>.
Proof. apply Session.onMessage_closed_cluster. Qed.

(** ** Witnesses *)

(** Sample protobuf codecs: one byte per field. *)
Definition sample_control : ControlProto := {|
  parse_ChannelOpenRequest b := bval <$> head b;
  parse_PingRequest b := bval <$> head b;
  parse_PingResponse b := bval <$> head b;
  parse_ShutdownRequest b := bval <$> head b;
  parse_AudioFocusRequest b := (fun x => FOCUS_OTHER (bval x)) <$> head b;
  AudioFocusType_int t := match t with FOCUS_OTHER z => z | _ => 0 end;
  ser_AuthCompleteIndication st := [if decide (st = OK) then Byte.x00 else Byte.x01];
  ser_ChannelOpenResponse st := [if decide (st = OK) then Byte.x00 else Byte.x01];
  ser_PingRequest ts := [byte_of ts];
  ser_PingResponse ts := [byte_of ts];
  ser_ShutdownRequest r := [byte_of r];
  ser_ByeByeResponse := [];
  ser_AudioFocusResponse _ := [];
  ser_CallAvailabilityStatus _ := [];
  ser_VoiceSessionRequest z := [byte_of z]
|}.

Definition sample_session : SessionProto :=
  {| ser_ServiceDiscoveryResponse r := head_unit_name r |}.

Definition sample_config : SessionConfig :=
  mkConfig 4 3 [Byte.x41] [] [] [] true [] [] [] [] true 0 5000 10000 10000 5000 15000 [].

Lemma connection_established_witness :
  let s := @Session.run sample_control sample_session (fun _ => false) (fun _ => []) 0
             (Session.connecting_inputs 4 3 7 []) (Session.create sample_config) in
  Session.state_ s = Active
  /\ Session.log s
     = @Session.connecting_events sample_control sample_session
         (Session.sanitizeConfig sample_config) 7
  /\ Session.pingTimer_ s = Some (pingInterval (Session.sanitizeConfig sample_config))
  /\ Session.pongDeadlineTimer_ s
     = Some (7 + pingTimeout (Session.sanitizeConfig sample_config)).
Proof.
  apply (@connection_established sample_control sample_session (fun _ => false)
           sample_config 4 3 7 []).
  - split; [discriminate|reflexivity].
  - split; [discriminate|reflexivity].
  - split; [reflexivity|]. intros _. right. split; [reflexivity|discriminate].
Defined.

(** A phone that reports version 4.2 when 4.3 was requested. *)
Lemma version_negotiation_witness :
  let s := Session.create sample_config <| Session.state_ := VersionExchange |> in
  let s' := @Session.onMessage sample_control sample_session (fun _ => false)
              (@Session.emitN sample_control sample_session (fun _ => false) (fun _ => []) 0)
              0 0 MSG_VERSION_RESPONSE
              ([Byte.x00; Byte.x02] ++ be16 4 ++ be16 2 ++ be16 0 ++ []) 2 Specific s in
  if decide (Session.negotiated (Session.config_ s) 4 2 0)
  then Session.state_ s' = TLSHandshake
       /\ Session.stateTimer_ s' = Some (handshakeTimeout (Session.config_ s))
       /\ Session.log s'
          = Session.log s ++ [Session.stateChanged TLSHandshake; Session.startHandshake]
  else Session.state_ s' = Disconnected /\ Session.stateTimer_ s' = None
       /\ Session.log s'
          = Session.log s ++ Session.goodbyes s
            ++ [Session.stateChanged Disconnected; Session.disconnected VersionMismatch].
Proof.
  apply (@version_negotiation sample_control sample_session);
    reflexivity || (split; [discriminate|reflexivity]).
Defined.

Lemma ping_deadline_witness :
  let s := Session.create sample_config <| Session.state_ := Active |> in
  let s' := foldl (@Session.onBeat sample_control sample_session (fun _ => false)) s
              [Session.Tick 1; Session.Pong 2; Session.Tick 5] in
  match Session.pongDeadlineTimer_ s' with
  | None => Session.outstandingPingTimestamps_ s' = ∅
  | Some d => exists p, d = p + pingTimeout (Session.config_ s)
      /\ p ∈ Session.outstandingPingTimestamps_ s'
      /\ forall q, q ∈ Session.outstandingPingTimestamps_ s' -> p <= q
  end.
Proof.
  intros s. apply (@ping_deadline sample_control sample_session (fun _ => false)
    [Session.Tick 1; Session.Pong 2; Session.Tick 5] 0 s);
    [reflexivity|reflexivity|reflexivity|].
  repeat split; discriminate.
Defined.


Lemma closed_cluster_deaf_witness :
  let s := Session.create sample_config <| Session.state_ := Active |>
             <| Session.channels_ := {[12 := 0%nat]} |> in
  let s' := @Session.onMessage sample_control sample_session (fun _ => true)
              (fun _ s => s) 0 12 0 [Byte.xff] 0 Specific s in
  s' = s
  \/ s' = s <| Session.warnedNonControlOpenChannels_ ::= fun w => {[12]} ∪ w |>.
Proof.
  intros s. apply (@closed_cluster_deaf sample_control sample_session).
  - reflexivity.
  - apply not_elem_of_empty.
  - intros [H _]. discriminate H.
Defined.
