(* ===== verification/PlayQueue.v ===== *)
(** The play queue of the local media player: play order, shuffle, repeat
    modes and the purge of the tracks of a removed volume.

    Source: src/plugins/media_player/PlayQueue. Indices the code keeps in an
    [int] with the sentinel -1 are [Z]; the entries of the traversal order
    are never negative and are [nat]. Qt's random generator is a parameter. *)

From S2P Require Import Prelude.

(** [QRandomGenerator]: seeding, and [bounded(n)], which is below [n]. *)
Class Random (G : Type) := {
  rng_seed : Z -> G;
  rng_bounded : G -> nat -> G * nat;
  rng_bounded_lt g n : (0 < n)%nat -> ((rng_bounded g n).2 < n)%nat
}.

Inductive RepeatMode := RepeatOff | RepeatAll | RepeatOne.

#[export] Instance RepeatMode_eq_dec : EqDecision RepeatMode.
Proof. solve_decision. Defined.

Module PlayQueue.

Inductive Signal := currentChanged | queueChanged | shuffleChanged | repeatModeChanged.

Section PlayQueue.
Context {G : Type} `{!Random G}.

Record t := mk {
  tracks_ : list bytes;
  order_ : list nat;
  orderPos_ : Z;
  currentIndex_ : Z;
  shuffle_ : bool;
  repeatMode_ : RepeatMode;
  rng_ : G
}.

#[global] Instance t_settable : Settable t := {| eta_record r :=
  mk (tracks_ r) (order_ r) (orderPos_ r) (currentIndex_ r) (shuffle_ r)
     (repeatMode_ r) (rng_ r) |}.

Definition create (g : G) : t := mk [] [] (-1) (-1) false RepeatOff g.

(** [std::swap(l[i], l[j])]; nothing out of range, which the code excludes. *)
Definition swap (i j : nat) (l : list nat) : list nat :=
  match l !! i, l !! j with
  | Some a, Some b => <[i := b]> (<[j := a]> l)
  | _, _ => l
  end.

(** The Fisher-Yates loop, [i] counting down to 1. *)
Fixpoint shuffleLoop (i : nat) (g : G) (l : list nat) : G * list nat :=
  match i with
  | O => (g, l)
  | S i' =>
      let '(g, j) := rng_bounded g (i + 1) in
      shuffleLoop i' g (swap i j l)
  end.

(** [indexOf]: the first position, or -1. *)
Definition indexOf (l : list nat) (x : Z) : Z :=
  match list_find (fun y => Z.of_nat y = x) l with
  | Some (i, _) => Z.of_nat i
  | None => -1
  end.

Definition rebuildOrder (q : t) : t :=
  let n := length (tracks_ q) in
  let order := seq 0 n in
  let q :=
    if shuffle_ q && (1 <? n)%nat then
      let '(g, order) := shuffleLoop (n - 1) (rng_ q) order in
      let cur := indexOf order (currentIndex_ q) in
      let order := if 0 <? cur then swap 0 (Z.to_nat cur) order else order in
      q <| order_ := order |> <| rng_ := g |> <| orderPos_ := 0 |>
    else q <| order_ := order |> <| orderPos_ := Z.max 0 (currentIndex_ q) |> in
  if decide (order_ q = []) then q <| orderPos_ := -1 |> else q.

(** [qBound(0, x, hi)] *)
Definition qBound0 (x hi : Z) : Z := Z.max 0 (Z.min hi x).

Definition setTracks (paths : list bytes) (startIndex : Z) (q : t) : t * list Signal :=
  let q := q <| tracks_ := paths |>
             <| currentIndex_ := if decide (paths = []) then -1
                                 else qBound0 startIndex (blen paths - 1) |> in
  (rebuildOrder q, [queueChanged; currentChanged]).

Definition clear (q : t) : t * list Signal :=
  (q <| tracks_ := [] |> <| order_ := [] |> <| orderPos_ := -1 |>
     <| currentIndex_ := -1 |>, [queueChanged; currentChanged]).

(** [QString()] outside the range. *)
Definition currentTrack (q : t) : bytes :=
  if (0 <=? currentIndex_ q) && (currentIndex_ q <? blen (tracks_ q))
  then default [] (tracks_ q !! Z.to_nat (currentIndex_ q)) else [].

Definition setShuffle (on : bool) (q : t) : t * list Signal :=
  if bool_decide (shuffle_ q = on) then (q, [])
  else (rebuildOrder (q <| shuffle_ := on |>), [shuffleChanged]).

Definition setRepeatMode (mode : RepeatMode) (q : t) : t * list Signal :=
  if decide (repeatMode_ q = mode) then (q, [])
  else (q <| repeatMode_ := mode |>, [repeatModeChanged]).

Definition setShuffleSeed (seed : Z) (q : t) : t * list Signal :=
  let q := q <| rng_ := rng_seed seed |> in
  (if shuffle_ q then rebuildOrder q else q, []).

(** [order_.at(orderPos_)] *)
Definition land (q : t) (pos : Z) : t :=
  q <| orderPos_ := pos |>
    <| currentIndex_ := match order_ q !! Z.to_nat pos with
                        | Some i => Z.of_nat i | None => -1 end |>.

Definition advance (manual : bool) (q : t) : t * bool * list Signal :=
  if decide (tracks_ q = []) then (q, false, [])
  else if bool_decide (repeatMode_ q = RepeatOne) && negb manual
  then (q, true, [currentChanged])
  else if orderPos_ q + 1 <? blen (order_ q)
  then (land q (orderPos_ q + 1), true, [currentChanged])
  else if bool_decide (repeatMode_ q = RepeatAll)
          || (bool_decide (repeatMode_ q = RepeatOne) && manual)
  then (land q 0, true, [currentChanged])
  else (q, false, []).

Definition retreat (q : t) : t * bool * list Signal :=
  if decide (tracks_ q = []) then (q, false, [])
  else if 0 <? orderPos_ q then (land q (orderPos_ q - 1), true, [currentChanged])
  else if bool_decide (repeatMode_ q = RepeatAll)
  then (land q (blen (order_ q) - 1), true, [currentChanged])
  else (q, false, []).

Definition jumpTo (index : Z) (q : t) : t * list Signal :=
  if (index <? 0) || (blen (tracks_ q) <=? index) then (q, [])
  else
    let pos := indexOf (order_ q) index in
    (q <| currentIndex_ := index |>
       <| orderPos_ := if pos <? 0 then 0 else pos |>, [currentChanged]).

Definition removedBy (pathPrefix : bytes) (path : bytes) : Prop :=
  pathPrefix `prefix_of` path.

(** The first loop: old index to new index, [None] for -1; the next new
    index is the number of survivors so far. *)
Fixpoint oldToNew (pathPrefix : bytes) (next : nat) (tracks : list bytes)
    : list (option nat) :=
  match tracks with
  | [] => []
  | p :: ps =>
      if decide (removedBy pathPrefix p) then None :: oldToNew pathPrefix next ps
      else Some next :: oldToNew pathPrefix (S next) ps
  end.

(** [oldToNew[i]] *)
Definition remap (m : list (option nat)) (i : nat) : option nat := mjoin (m !! i).

Definition removeTracksUnder (pathPrefix : bytes) (q : t) : t * Z * list Signal :=
  if decide (tracks_ q = []) then (q, 0, [])
  else
    let m := oldToNew pathPrefix 0 (tracks_ q) in
    let newTracks := filter (fun p => ~ removedBy pathPrefix p) (tracks_ q) in
    let removed := blen (tracks_ q) - blen newTracks in
    if removed =? 0 then (q, 0, [])
    else
      let oldCurrent := currentIndex_ q in
      let mapped := if 0 <=? oldCurrent then remap m (Z.to_nat oldCurrent) else None in
      let successor :=
        match mapped with
        | None => if 0 <=? oldCurrent
                  then head (omap (remap m) (drop (Z.to_nat (orderPos_ q + 1)) (order_ q)))
                  else None
        | Some _ => None
        end in
      let newOrder := omap (remap m) (order_ q) in
      let q := q <| tracks_ := newTracks |> <| order_ := newOrder |> in
      let q :=
        if decide (newTracks = []) then q <| currentIndex_ := -1 |> <| orderPos_ := -1 |>
        else
          let current := match mapped, successor, head newOrder with
                         | Some i, _, _ => Z.of_nat i
                         | None, Some i, _ => Z.of_nat i
                         | None, None, Some i => Z.of_nat i
                         | None, None, None => -1
                         end in
          q <| currentIndex_ := current |> <| orderPos_ := indexOf newOrder current |> in
      (q, removed, [queueChanged; currentChanged]).


(** ** The invariant *)

(** The order is a permutation of the indices; the position points at the
    current track. *)
Record wf (q : t) : Prop := {
  wf_order : order_ q ≡ₚ seq 0 (length (tracks_ q));
  wf_empty : tracks_ q = [] -> orderPos_ q = -1 /\ currentIndex_ q = -1;
  wf_pos : tracks_ q <> [] -> exists p c,
    orderPos_ q = Z.of_nat p /\ currentIndex_ q = Z.of_nat c /\ order_ q !! p = Some c
}.

Lemma wf_length q : wf q -> length (order_ q) = length (tracks_ q).
Proof. intros [H _ _]. by rewrite H, length_seq. Qed.

Lemma wf_NoDup q : wf q -> NoDup (order_ q).
Proof. intros [H _ _]. rewrite H. apply NoDup_seq. Qed.

Lemma order_in_range order n i c :
  order ≡ₚ seq 0 n -> order !! i = Some c -> (c < n)%nat.
Proof.
  intros H Hi. apply list_elem_of_lookup_2 in Hi. rewrite H, elem_of_seq in Hi. lia.
Qed.

Lemma swap_Permutation i j l : swap i j l ≡ₚ l.
Proof.
  unfold swap. destruct (l !! i) as [a|] eqn:Hi, (l !! j) as [b|] eqn:Hj; try done.
  by apply Permutation_insert_swap.
Qed.

Lemma shuffleLoop_Permutation i g l : (shuffleLoop i g l).2 ≡ₚ l.
Proof.
  revert g l; induction i as [|i IH]; intros g l; cbn [shuffleLoop]; [done|].
  destruct (rng_bounded g (S i + 1)) as [g' j]. by rewrite IH, swap_Permutation.
Qed.

Lemma indexOf_Some l i c : NoDup l -> l !! i = Some c -> indexOf l (Z.of_nat c) = Z.of_nat i.
Proof.
  intros Hnd Hi. unfold indexOf.
  destruct (list_find _ l) as [[j y]|] eqn:E.
  - apply list_find_Some in E as (Hj & Hy & _). apply Nat2Z.inj in Hy as ->.
    by rewrite (NoDup_lookup l i j c Hnd Hi Hj).
  - apply list_find_None in E. rewrite Forall_forall in E.
    destruct (E c); [by eapply list_elem_of_lookup_2|done].
Qed.

(** A queue whose current index fits its tracks. *)
Definition current_ok (q : t) : Prop :=
  if decide (tracks_ q = []) then currentIndex_ q = -1
  else 0 <= currentIndex_ q < blen (tracks_ q).

Lemma rebuildOrder_wf q : current_ok q -> wf (rebuildOrder q).
Proof.
  unfold current_ok, rebuildOrder, blen. intros Hc.
  destruct (shuffle_ q && (1 <? length (tracks_ q))%nat) eqn:Hs.
  - apply andb_prop in Hs as [_ Hn]. apply Nat.ltb_lt in Hn.
    destruct (decide (tracks_ q = [])) as [E|_]; [by rewrite E in Hn; simpl in Hn; lia|].
    pose proof (shuffleLoop_Permutation (length (tracks_ q) - 1) (rng_ q)
                  (seq 0 (length (tracks_ q)))) as Hp.
    destruct (shuffleLoop _ _ _) as [g order]. cbn [snd] in Hp.
    assert (Hin : Z.to_nat (currentIndex_ q) ∈ order)
      by (rewrite Hp, elem_of_seq; lia).
    apply list_elem_of_lookup in Hin as [i Hi].
    assert (Hidx : indexOf order (currentIndex_ q) = Z.of_nat i).
    { rewrite <- (indexOf_Some order i _) with (2 := Hi);
        [f_equal; lia|]. rewrite Hp. apply NoDup_seq. }
    set (order' := if 0 <? indexOf order (currentIndex_ q)
                   then swap 0 (Z.to_nat (indexOf order (currentIndex_ q))) order
                   else order).
    assert (Hp' : order' ≡ₚ seq 0 (length (tracks_ q)))
      by (unfold order'; destruct (0 <? _); rewrite ?swap_Permutation; done).
    assert (H0 : order' !! 0%nat = Some (Z.to_nat (currentIndex_ q))).
    { unfold order'. rewrite Hidx. destruct (Z.ltb_spec 0 (Z.of_nat i)).
      - rewrite Nat2Z.id. unfold swap. rewrite Hi.
        destruct order as [|a order]; [done|]. by destruct i.
      - assert (i = 0%nat) as -> by lia. done. }
    clearbody order'. cbv zeta. cbn [order_ record_set set_field].
    destruct (decide (order' = [])) as [->|_]; [done|].
    constructor; cbn; [done|intros E; by rewrite E in Hn; simpl in Hn; lia|].
    intros _. exists 0%nat, (Z.to_nat (currentIndex_ q)). split_and!; [done|lia|done].
  - cbv zeta. cbn [order_ record_set set_field]. clear Hs.
    destruct (decide (seq 0 (length (tracks_ q)) = [])) as [E|E].
    + assert (Ht : tracks_ q = []) by (destruct (tracks_ q); done).
      rewrite Ht in *. constructor; cbn; rewrite ?Ht; done.
    + constructor; cbn; [done|intros Ht; by rewrite Ht in E|].
      intros Ht. destruct (decide (tracks_ q = [])) as [|_]; [done|].
      exists (Z.to_nat (currentIndex_ q)), (Z.to_nat (currentIndex_ q)).
      split_and!; [lia|lia|]. apply lookup_seq. lia.
Qed.

Lemma wf_current_ok q : wf q -> current_ok q.
Proof.
  intros Hwf. unfold current_ok, blen. destruct (decide (tracks_ q = [])) as [E|E].
  - by apply (wf_empty q Hwf).
  - destruct (wf_pos q Hwf E) as (p & c & _ & -> & Hp).
    pose proof (order_in_range _ _ _ _ (wf_order q Hwf) Hp). lia.
Qed.

Lemma create_queue_wf g : wf (create g).
Proof. constructor; cbn; done. Qed.

Lemma setTracks_wf paths i q : wf (setTracks paths i q).1.
Proof.
  apply rebuildOrder_wf. unfold current_ok. cbn [tracks_ currentIndex_ record_set set_field].
  destruct (decide (paths = [])); [done|].
  unfold qBound0, blen. destruct paths; [done|]. cbn [length]. lia.
Qed.

Lemma setShuffle_wf on q : wf q -> wf (setShuffle on q).1.
Proof.
  intros Hwf. unfold setShuffle. destruct (bool_decide _); [done|].
  apply rebuildOrder_wf. by apply wf_current_ok in Hwf.
Qed.

Lemma setShuffleSeed_wf seed q : wf q -> wf (setShuffleSeed seed q).1.
Proof.
  intros Hwf. unfold setShuffleSeed. cbn [fst].
  destruct (shuffle_ _).
  - apply rebuildOrder_wf. by apply wf_current_ok in Hwf.
  - destruct Hwf. by constructor.
Qed.

Lemma land_wf p q : wf q -> (p < length (order_ q))%nat -> wf (land q (Z.of_nat p)).
Proof.
  intros Hwf Hp. destruct (lookup_lt_is_Some_2 _ _ Hp) as [c Hc].
  pose proof (wf_length q Hwf) as Hl. destruct Hwf as [Ho He _].
  constructor; cbn; [done| |].
  - intros E. rewrite E in Hl. simpl in Hl. lia.
  - intros _. exists p, c. rewrite Nat2Z.id, Hc. done.
Qed.

Lemma jumpTo_wf i q : wf q -> wf (jumpTo i q).1.
Proof.
  intros Hwf. unfold jumpTo. destruct (_ || _) eqn:Hb; [done|]. breflect.
  pose proof Hwf as [Ho _ _]. unfold blen in *.
  assert (Hin : Z.to_nat i ∈ order_ q) by (rewrite Ho, elem_of_seq; lia).
  apply list_elem_of_lookup in Hin as [p Hp].
  assert (Hidx : indexOf (order_ q) i = Z.of_nat p).
  { rewrite <- (indexOf_Some (order_ q) p _ (wf_NoDup q Hwf) Hp). f_equal. lia. }
  cbv zeta. rewrite Hidx. destruct (Z.ltb_spec (Z.of_nat p) 0); [lia|]. cbn [fst].
  constructor; cbn; [done| |].
  - intros E. rewrite E in *. simpl in *. lia.
  - intros _. exists p, (Z.to_nat i). split_and!; [done|lia|done].
Qed.

(** ** Walking the order *)

(** [land] at the position it is on changes nothing. *)
Lemma land_id q : wf q -> tracks_ q <> [] -> land q (orderPos_ q) = q.
Proof.
  intros Hwf Ht. destruct (wf_pos q Hwf Ht) as (p & c & Hp & Hc & Hl).
  unfold land. rewrite Hp, Nat2Z.id, Hl. destruct q; cbn in *; congruence.
Qed.

Lemma land_land q p p' : land (land q p) p' = land q p'.
Proof. by destruct q. Qed.

Lemma order_nonempty q : wf q -> tracks_ q <> [] -> (0 < length (order_ q))%nat.
Proof. intros Hwf Ht. rewrite (wf_length q Hwf). destruct (tracks_ q); [done|]. simpl. lia. Qed.

(** One turn of the wheel under RepeatAll. *)
Lemma advance_wheel manual q :
  wf q -> tracks_ q <> [] -> repeatMode_ q = RepeatAll ->
  advance manual q
  = (land q ((orderPos_ q + 1) mod blen (order_ q)), true, [currentChanged]).
Proof.
  intros Hwf Ht Hr. unfold advance. rewrite Hr.
  destruct (decide (tracks_ q = [])); [done|].
  rewrite (bool_decide_false (RepeatAll = RepeatOne)) by done. cbn [andb orb].
  destruct (wf_pos q Hwf Ht) as (p & c & Hp & _ & Hl). apply lookup_lt_Some in Hl.
  rewrite Hp. unfold blen. rewrite (bool_decide_true (RepeatAll = RepeatAll)) by done.
  destruct (Z.ltb_spec (Z.of_nat p + 1) (Z.of_nat (length (order_ q)))).
  - by rewrite Z.mod_small by lia.
  - replace (Z.of_nat p + 1) with (Z.of_nat (length (order_ q))) by lia.
    by rewrite Z.mod_same by lia.
Qed.

Lemma retreat_wheel q :
  wf q -> tracks_ q <> [] -> repeatMode_ q = RepeatAll ->
  retreat q = (land q ((orderPos_ q - 1) mod blen (order_ q)), true, [currentChanged]).
Proof.
  intros Hwf Ht Hr. unfold retreat. rewrite Hr.
  destruct (decide (tracks_ q = [])); [done|].
  destruct (wf_pos q Hwf Ht) as (p & c & Hp & _ & Hl). apply lookup_lt_Some in Hl.
  rewrite Hp. unfold blen. rewrite (bool_decide_true (RepeatAll = RepeatAll)) by done.
  destruct (Z.ltb_spec 0 (Z.of_nat p)).
  - by rewrite Z.mod_small by lia.
  - assert (p = 0%nat) as -> by lia.
    replace (Z.of_nat 0 - 1) with ((Z.of_nat (length (order_ q)) - 1)
      + (-1) * Z.of_nat (length (order_ q))) by lia.
    by rewrite Z.mod_add, Z.mod_small by lia.
Qed.

Lemma advance_wf manual q : wf q -> wf (advance manual q).1.1.
Proof.
  intros Hwf. unfold advance. destruct (decide (tracks_ q = [])) as [|Ht]; [done|].
  destruct (wf_pos q Hwf Ht) as (p & c & Hp & _ & Hl). apply lookup_lt_Some in Hl.
  destruct (_ && _); [done|]. rewrite Hp.
  destruct (Z.ltb_spec (Z.of_nat p + 1) (blen (order_ q))) as [Hlt|]; unfold blen in *.
  - replace (Z.of_nat p + 1) with (Z.of_nat (p + 1)) by lia. apply land_wf; [done|lia].
  - destruct (_ || _); [|done]. apply (land_wf 0); [done|]. by apply order_nonempty.
Qed.

Lemma retreat_wf q : wf q -> wf (retreat q).1.1.
Proof.
  intros Hwf. unfold retreat. destruct (decide (tracks_ q = [])) as [|Ht]; [done|].
  destruct (wf_pos q Hwf Ht) as (p & c & Hp & _ & Hl). apply lookup_lt_Some in Hl.
  pose proof (order_nonempty q Hwf Ht). rewrite Hp.
  destruct (Z.ltb_spec 0 (Z.of_nat p)).
  - replace (Z.of_nat p - 1) with (Z.of_nat (p - 1)) by lia. apply land_wf; [done|lia].
  - destruct (bool_decide _); [|done]. unfold blen.
    replace (Z.of_nat (length (order_ q)) - 1) with (Z.of_nat (length (order_ q) - 1)) by lia.
    apply land_wf; [done|lia].
Qed.

(** [k] times the next button. *)
Fixpoint advances (manual : bool) (k : nat) (q : t) : t :=
  match k with
  | O => q
  | S k' => (advance manual (advances manual k' q)).1.1
  end.

Lemma advances_wheel manual k q :
  wf q -> tracks_ q <> [] -> repeatMode_ q = RepeatAll ->
  advances manual k q = land q ((orderPos_ q + Z.of_nat k) mod blen (order_ q)).
Proof.
  intros Hwf Ht Hr. pose proof (order_nonempty q Hwf Ht) as Hn.
  assert (Hb : 0 < blen (order_ q)) by (unfold blen; lia).
  induction k as [|k IH]; cbn [advances].
  - rewrite Z.add_0_r, Z.mod_small, land_id; [done|done|done|].
    destruct (wf_pos q Hwf Ht) as (p & c & -> & _ & Hl). apply lookup_lt_Some in Hl.
    unfold blen. lia.
  - rewrite IH.
    set (j := (orderPos_ q + Z.of_nat k) mod blen (order_ q)).
    pose proof (Z.mod_pos_bound (orderPos_ q + Z.of_nat k) (blen (order_ q)) Hb) as Hj.
    fold j in Hj.
    assert (Hwf' : wf (land q j)).
    { replace j with (Z.of_nat (Z.to_nat j)) by lia. apply land_wf; [done|].
      unfold blen in Hj. lia. }
    rewrite advance_wheel by done. cbn [fst]. rewrite land_land. f_equal.
    change (orderPos_ (land q j)) with j. change (order_ (land q j)) with (order_ q).
    unfold j. rewrite Zplus_mod_idemp_l. f_equal. lia.
Qed.


(** ** The tracks in playing order *)

Definition pathAt (q : t) (i : nat) : option bytes := tracks_ q !! i.

Definition traversal (q : t) : list bytes := omap (pathAt q) (order_ q).

Lemma omap_lookup_seq {A} (l : list A) :
  omap (fun i => l !! i) (seq 0 (length l)) = l.
Proof.
  induction l as [|x l IH] using rev_ind; [done|].
  rewrite length_app, Nat.add_1_r, seq_S, omap_app. cbn.
  rewrite lookup_app_r, Nat.sub_diag by lia. cbn. f_equal.
  rewrite <- IH at 2. apply list_omap_ext, Forall_Forall2_diag, Forall_forall.
  intros i Hi%elem_of_seq. apply lookup_app_l. lia.
Qed.

(** Every track once. *)
Lemma traversal_Permutation q : wf q -> traversal q ≡ₚ tracks_ q.
Proof.
  intros Hwf. unfold traversal, pathAt.
  rewrite (wf_order q Hwf). by rewrite omap_lookup_seq.
Qed.

(** When all entries are in range, the traversal keeps the positions. *)
Lemma omap_lookup_total {A} (l : list A) (ks : list nat) p c :
  Forall (fun i => (i < length l)%nat) ks -> ks !! p = Some c ->
  omap (fun i => l !! i) ks !! p = l !! c.
Proof.
  revert p; induction ks as [|i ks IH]; intros p Hf Hp; [done|].
  apply Forall_cons in Hf as [Hi Hf].
  destruct (lookup_lt_is_Some_2 l i Hi) as [x Hx]. cbn [omap list_omap]. rewrite Hx.
  destruct p as [|p]; cbn in *; [by simplify_eq|]. by apply IH.
Qed.

Lemma order_Forall q : wf q -> Forall (fun i => (i < length (tracks_ q))%nat) (order_ q).
Proof. intros Hwf. rewrite (wf_order q Hwf). apply Forall_forall. intros i Hi%elem_of_seq. lia. Qed.

Lemma currentTrack_land q p c :
  wf q -> order_ q !! p = Some c ->
  currentTrack (land q (Z.of_nat p)) = default [] (traversal q !! p).
Proof.
  intros Hwf Hp. pose proof (order_in_range _ _ _ _ (wf_order q Hwf) Hp) as Hc.
  unfold traversal, pathAt. rewrite (omap_lookup_total _ _ p c (order_Forall q Hwf) Hp).
  unfold currentTrack, land. cbn. rewrite Nat2Z.id, Hp.
  rewrite Nat2Z.id. unfold blen.
  destruct (Z.leb_spec 0 (Z.of_nat c)), (Z.ltb_spec (Z.of_nat c) (Z.of_nat (length (tracks_ q))));
    try lia. done.
Qed.

Lemma traversal_length q : wf q -> length (traversal q) = length (order_ q).
Proof. intros Hwf. by rewrite (traversal_Permutation q Hwf), (wf_length q Hwf). Qed.

(** What plays over one round: the traversal, rotated to the position. *)
Lemma round_plays manual q :
  wf q -> tracks_ q <> [] -> repeatMode_ q = RepeatAll ->
  map (fun k => currentTrack (advances manual k q)) (seq 0 (length (tracks_ q)))
  = drop (Z.to_nat (orderPos_ q)) (traversal q) ++ take (Z.to_nat (orderPos_ q)) (traversal q).
Proof.
  intros Hwf Ht Hr. destruct (wf_pos q Hwf Ht) as (p & c & Hp & _ & Hl).
  apply lookup_lt_Some in Hl. rewrite Hp, Nat2Z.id.
  pose proof (traversal_length q Hwf) as Htl.
  assert (Hlen : length (tracks_ q) = length (order_ q)) by (by rewrite wf_length).
  apply list_eq. intros k. rewrite Hlen.
  destruct (decide (k < length (order_ q))%nat) as [Hk|Hk].
  - rewrite list_lookup_fmap, lookup_seq_lt by lia. cbn [fmap option_fmap option_map].
    rewrite advances_wheel by done. rewrite Hp. unfold blen.
    rewrite <- Nat2Z.inj_add, <- Nat2Z.inj_mod.
    assert (Hm : ((p + (0 + k)) mod length (order_ q) < length (order_ q))%nat)
      by (apply Nat.mod_upper_bound; lia).
    destruct (lookup_lt_is_Some_2 _ _ Hm) as [d Hd].
    rewrite (currentTrack_land q _ d Hwf Hd).
    rewrite mod_wrap by lia. rewrite lookup_app_dec, length_drop, Htl.
    assert (Hlt : ((if decide (p + (0 + k) < length (order_ q)) then p + (0 + k)
                    else p + (0 + k) - length (order_ q)) < length (traversal q))%nat)
      by (destruct (decide _); lia).
    destruct (lookup_lt_is_Some_2 _ _ Hlt) as [x Hx]. rewrite Hx.
    change (default [] (Some x)) with x.
    destruct (decide (p + (0 + k) < length (order_ q))%nat),
      (decide (k < length (order_ q) - p)%nat); try lia.
    + rewrite lookup_drop. by rewrite <- Hx.
    + rewrite lookup_take_lt by lia. rewrite <- Hx. f_equal. lia.
  - rewrite !lookup_ge_None_2; [done| |].
    + rewrite length_app, length_drop, length_take. lia.
    + rewrite length_map, length_seq. lia.
Qed.

(** ** Removing a volume *)

Section Remove.
Context (pathPrefix : bytes).
Abbreviation keep := (fun p => ~ removedBy pathPrefix p).

(** The index map sends every survivor to its place among the survivors. *)
Lemma remap_lookup next l i :
  remap (oldToNew pathPrefix next l) i ≫= (fun j => filter keep l !! (j - next)%nat)
  = (l !! i ≫= fun p => if decide (removedBy pathPrefix p) then None else Some p)
  /\ (forall j, remap (oldToNew pathPrefix next l) i = Some j -> (next <= j)%nat).
Proof.
  unfold remap. revert next i; induction l as [|p l IH]; intros next i; [done|].
  cbn [oldToNew]. rewrite filter_cons.
  destruct (decide (removedBy pathPrefix p)) as [Hr|Hr].
  - rewrite decide_False by (by intros []).
    destruct i as [|i]; cbn; [by destruct (decide _)|apply IH].
  - rewrite decide_True by done. destruct i as [|i]; cbn.
    + rewrite Nat.sub_diag. destruct (decide _); [done|]. split; [done|].
      by intros j [= <-].
    + destruct (IH (S next) i) as [H1 H2]. split.
      * etransitivity; [|exact H1]. destruct (mjoin _) as [j|] eqn:E; [|done]. cbn.
        specialize (H2 j eq_refl). by replace (j - next)%nat with (S (j - S next)) by lia.
      * intros j E. specialize (H2 j E). lia.
Qed.

Lemma omap_after_fmap {A B C} (f : B -> option C) (g : A -> B) (l : list A) :
  omap f (g <$> l) = omap (fun x => f (g x)) l.
Proof.
  induction l as [|x l IH]; [done|]. cbn [fmap list_fmap omap list_omap].
  by rewrite <- IH.
Qed.

(** Remapping all indices enumerates the survivors. *)
Lemma remap_seq next l :
  omap (remap (oldToNew pathPrefix next l)) (seq 0 (length l))
  = seq next (length (filter keep l)).
Proof.
  revert next; induction l as [|p l IH]; intros next; [done|].
  cbn [length seq oldToNew]. rewrite <- fmap_S_seq.
  cbn [omap list_omap]. rewrite filter_cons.
  destruct (decide (removedBy pathPrefix p)) as [Hr|Hr].
  - rewrite decide_False by (by intros []).
    etransitivity; [apply omap_after_fmap|exact (IH next)].
  - rewrite decide_True by done. cbn [length seq]. f_equal.
    etransitivity; [apply omap_after_fmap|exact (IH (S next))].
Qed.

(** In range, remapping an index is filtering its path. *)
Lemma remap_path l i p :
  l !! i = Some p ->
  match remap (oldToNew pathPrefix 0 l) i with
  | Some j => ~ removedBy pathPrefix p /\ filter keep l !! j = Some p
  | None => removedBy pathPrefix p
  end.
Proof.
  intros Hi. destruct (remap_lookup 0 l i) as [H _]. rewrite Hi in H. cbn in H.
  destruct (remap _ i) as [j|] eqn:E; cbn in H.
  - rewrite Nat.sub_0_r in H. destruct (decide (removedBy pathPrefix p)) as [Hr|Hr].
    + (* a survivor's new index is in range *)
      exfalso. assert (Hj : j ∈ omap (remap (oldToNew pathPrefix 0 l)) (seq 0 (length l))).
      { apply list_elem_of_omap. exists i. split; [|done]. rewrite elem_of_seq.
        apply lookup_lt_Some in Hi. lia. }
      rewrite remap_seq, elem_of_seq in Hj.
      apply lookup_ge_None in H. lia.
    + done.
  - by destruct (decide (removedBy pathPrefix p)).
Qed.

(** Filtering paths and remapping indices commute. *)
Lemma remap_traverse l ks :
  Forall (fun i => (i < length l)%nat) ks ->
  omap (fun j => filter keep l !! j) (omap (remap (oldToNew pathPrefix 0 l)) ks)
  = filter keep (omap (fun i => l !! i) ks).
Proof.
  induction 1 as [|i ks Hi _ IH]; [done|].
  destruct (lookup_lt_is_Some_2 l i Hi) as [p Hp].
  pose proof (remap_path l i p Hp) as Hr. cbn [omap list_omap]. rewrite Hp.
  rewrite filter_cons. destruct (remap _ i) as [j|].
  - destruct Hr as [Hk Hj]. rewrite decide_True by done.
    cbn [omap list_omap]. rewrite Hj. by f_equal.
  - rewrite decide_False by (intros Hk; by apply Hk). done.
Qed.

Lemma head_omap_total {A B} (f : A -> option B) (l : list A) :
  Forall (fun x => is_Some (f x)) l -> head (omap f l) = head l ≫= f.
Proof. destruct 1 as [|x l' [y Hy] _]; cbn; by rewrite ?Hy. Qed.

End Remove.

(** The index the purge moves to, in one formula: the first survivor from the
    current position on, wrapping around. *)
Definition nextIndex (pathPrefix : bytes) (q : t) : option nat :=
  head (omap (remap (oldToNew pathPrefix 0 (tracks_ q)))
          (drop (Z.to_nat (orderPos_ q)) (order_ q) ++ order_ q)).

Lemma remap_Forall_lookup pathPrefix l ks :
  Forall (fun i => (i < length l)%nat) ks ->
  Forall (fun j => is_Some (filter (fun p => ~ removedBy pathPrefix p) l !! j))
    (omap (remap (oldToNew pathPrefix 0 l)) ks).
Proof.
  intros Hk. apply Forall_forall. intros j (i & Hi & Hj)%list_elem_of_omap.
  rewrite Forall_forall in Hk. destruct (lookup_lt_is_Some_2 l i (Hk i Hi)) as [p Hp].
  pose proof (remap_path pathPrefix l i p Hp) as Hr. rewrite Hj in Hr.
  exists p. apply Hr.
Qed.

(** A purge that removes something, and leaves something. *)
Lemma removeTracksUnder_some pathPrefix q :
  wf q -> tracks_ q <> [] ->
  filter (fun p => ~ removedBy pathPrefix p) (tracks_ q) <> [] ->
  blen (filter (fun p => ~ removedBy pathPrefix p) (tracks_ q)) <> blen (tracks_ q) ->
  exists j, nextIndex pathPrefix q = Some j
    /\ (removeTracksUnder pathPrefix q).1.1
       = q <| tracks_ := filter (fun p => ~ removedBy pathPrefix p) (tracks_ q) |>
           <| order_ := omap (remap (oldToNew pathPrefix 0 (tracks_ q))) (order_ q) |>
           <| currentIndex_ := Z.of_nat j |>
           <| orderPos_ :=
                indexOf (omap (remap (oldToNew pathPrefix 0 (tracks_ q))) (order_ q))
                  (Z.of_nat j) |>.
Proof.
  intros Hwf Ht Hn Hrem. unfold removeTracksUnder.
  destruct (decide (tracks_ q = [])) as [|_]; [done|].
  destruct (Z.eqb_spec (blen (tracks_ q)
    - blen (filter (fun p => ~ removedBy pathPrefix p) (tracks_ q))) 0); [lia|].
  cbn [fst]. destruct (decide (_ = [])) as [|_]; [done|].
  set (f := remap (oldToNew pathPrefix 0 (tracks_ q))).
  destruct (wf_pos q Hwf Ht) as (p & c & Hp & Hc & Hl).
  rewrite Hp, Hc. destruct (Z.leb_spec 0 (Z.of_nat c)); [|lia].
  rewrite Nat2Z.id. replace (Z.to_nat (Z.of_nat p + 1)) with (S p) by lia.
  unfold nextIndex. fold f. rewrite Hp, Nat2Z.id.
  rewrite (drop_S _ _ _ Hl). cbn [app].
  change (omap f (c :: drop (S p) (order_ q) ++ order_ q))
    with (match f c with
          | Some y => y :: omap f (drop (S p) (order_ q) ++ order_ q)
          | None => omap f (drop (S p) (order_ q) ++ order_ q)
          end).
  destruct (f c) as [j|] eqn:Hfc.
  - exists j. done.
  - rewrite omap_app, head_app.
    destruct (head (omap f (drop (S p) (order_ q)))) as [j|] eqn:Hs.
    + exists j. done.
    + destruct (head (omap f (order_ q))) as [j|] eqn:Hh; [by exists j|].
      exfalso. apply Hn. apply head_None in Hh.
      pose proof (omap_Permutation f _ _ (wf_order q Hwf)) as Hperm.
      unfold f in Hperm at 2. rewrite remap_seq, Hh in Hperm.
      apply Permutation_nil_l in Hperm. by destruct (filter _ (tracks_ q)).
Qed.

(** The specification of a purge: the survivors, in the same playing order;
    the current one is the first survivor from the old position on. *)
Definition purged (pathPrefix : bytes) (q q' : t) : Prop :=
  let kept l := filter (fun p => ~ removedBy pathPrefix p) l in
  tracks_ q' = kept (tracks_ q)
  /\ traversal q' = kept (traversal q)
  /\ currentTrack q'
     = default [] (head (kept (drop (Z.to_nat (orderPos_ q)) (traversal q) ++ traversal q)))
  /\ wf q'.

Lemma drop_traversal q p :
  wf q -> (p <= length (order_ q))%nat ->
  drop p (traversal q) = omap (pathAt q) (drop p (order_ q)).
Proof.
  intros Hwf Hp. unfold traversal. rewrite <- (take_drop p (order_ q)) at 1.
  rewrite omap_app, drop_app_length'; [done|].
  assert (Hl : forall ks, Forall (fun i => (i < length (tracks_ q))%nat) ks ->
                 length (omap (pathAt q) ks) = length ks).
  { clear. induction 1 as [|i ks Hi _ IH]; [done|].
    destruct (lookup_lt_is_Some_2 _ _ Hi) as [x Hx].
    cbn [omap list_omap]. unfold pathAt at 1. rewrite Hx. cbn [length].
    by f_equal. }
  rewrite Hl; [rewrite length_take; lia|]. apply Forall_take, (order_Forall q Hwf).
Qed.

Lemma currentTrack_head q :
  wf q -> tracks_ q <> [] ->
  currentTrack q = default [] (head (drop (Z.to_nat (orderPos_ q)) (traversal q)))
  /\ drop (Z.to_nat (orderPos_ q)) (traversal q) <> [].
Proof.
  intros Hwf Ht. destruct (wf_pos q Hwf Ht) as (p & c & Hp & Hc & Hl).
  rewrite <- (land_id q Hwf Ht) at 1. rewrite Hp, Nat2Z.id.
  rewrite (currentTrack_land q p c Hwf Hl).
  assert (Hlt : (p < length (traversal q))%nat)
    by (rewrite (traversal_length q Hwf); by apply lookup_lt_Some in Hl).
  destruct (lookup_lt_is_Some_2 _ _ Hlt) as [x Hx].
  rewrite (drop_S _ _ _ Hx), Hx. done.
Qed.

(** Nothing to remove. *)
Lemma purged_none pathPrefix q :
  wf q -> blen (filter (fun p => ~ removedBy pathPrefix p) (tracks_ q)) = blen (tracks_ q) ->
  purged pathPrefix q q.
Proof.
  intros Hwf Hl. unfold blen in Hl. apply Nat2Z.inj in Hl.
  assert (Hk : Forall (fun p => ~ removedBy pathPrefix p) (tracks_ q)).
  { revert Hl. clear. induction (tracks_ q) as [|p l IH]; [by constructor|].
    rewrite filter_cons. pose proof (length_filter (fun p => ~ removedBy pathPrefix p) l).
    destruct (decide _); cbn [length]; intros; [|lia]. constructor; [done|].
    apply IH. lia. }
  assert (Hall : forall l, l ⊆ tracks_ q ->
    filter (fun p => ~ removedBy pathPrefix p) l = l).
  { intros l Hsub. induction l as [|x l IHl]; [done|]. rewrite filter_cons_True.
    - f_equal. apply IHl. set_solver.
    - rewrite Forall_forall in Hk. apply Hk. set_solver. }
  assert (Htr : traversal q ⊆ tracks_ q)
    by (intros x Hx; by rewrite (traversal_Permutation q Hwf) in Hx).
  assert (Hd : drop (Z.to_nat (orderPos_ q)) (traversal q) ⊆ tracks_ q)
    by (intros x Hx; apply Htr; by eapply subseteq_drop).
  unfold purged. cbv zeta. rewrite filter_app, !Hall by done.
  split_and!; [done|done| |done].
  destruct (decide (tracks_ q = [])) as [E|E].
  - unfold currentTrack, traversal, pathAt.
    destruct (wf_empty q Hwf E) as [_ ->].
    pose proof (wf_order q Hwf) as Ho. rewrite E in Ho.
    apply Permutation_nil_r in Ho. rewrite Ho. by destruct (Z.to_nat _).
  - destruct (currentTrack_head q Hwf E) as [-> Hne]. rewrite head_app.
    by destruct (drop _ _).
Qed.

Lemma filter_nil_Permutation pathPrefix (l k : list bytes) :
  l ≡ₚ k -> filter (fun p => ~ removedBy pathPrefix p) k = [] ->
  filter (fun p => ~ removedBy pathPrefix p) l = [].
Proof.
  intros Hp Hk. apply Permutation_nil_r. rewrite <- Hk. by apply filter_Permutation.
Qed.

Lemma removeTracksUnder_purged pathPrefix q :
  wf q -> purged pathPrefix q (removeTracksUnder pathPrefix q).1.1.
Proof.
  intros Hwf.
  destruct (decide (tracks_ q = [])) as [E|Ht].
  { assert ((removeTracksUnder pathPrefix q).1.1 = q) as ->
      by (unfold removeTracksUnder; by destruct (decide (tracks_ q = []))).
    apply purged_none; [done|]. by rewrite E. }
  set (kept := filter (fun p => ~ removedBy pathPrefix p) (tracks_ q)).
  destruct (decide (blen kept = blen (tracks_ q))) as [Hl|Hl].
  { assert ((removeTracksUnder pathPrefix q).1.1 = q) as ->.
    { unfold removeTracksUnder. destruct (decide (tracks_ q = [])); [done|].
      fold kept. by rewrite Hl, Z.sub_diag. }
    by apply purged_none. }
  destruct (decide (kept = [])) as [Hn|Hn].
  - (* the queue empties *)
    assert (Ho : omap (remap (oldToNew pathPrefix 0 (tracks_ q))) (order_ q) = []).
    { apply Permutation_nil_r. rewrite (omap_Permutation _ _ _ (wf_order q Hwf)), remap_seq.
      fold kept. by rewrite Hn. }
    assert (Hq : (removeTracksUnder pathPrefix q).1.1
      = q <| tracks_ := [] |> <| order_ := [] |> <| currentIndex_ := -1 |>
          <| orderPos_ := -1 |>).
    { unfold removeTracksUnder. destruct (decide (tracks_ q = [])); [done|].
      fold kept. destruct (Z.eqb_spec (blen (tracks_ q) - blen kept) 0); [lia|].
      cbn [fst]. rewrite Hn, Ho. by destruct (decide ([] = [])). }
    rewrite Hq. unfold purged. cbv zeta. fold kept.
    pose proof (filter_nil_Permutation pathPrefix _ _ (traversal_Permutation q Hwf) Hn) as Htr.
    split_and!; [by rewrite Hn|by rewrite Htr| |].
    + rewrite filter_app, Htr, app_nil_r.
      assert (filter (fun p => ~ removedBy pathPrefix p)
                (drop (Z.to_nat (orderPos_ q)) (traversal q)) = []) as ->; [|done].
      rewrite <- (take_drop (Z.to_nat (orderPos_ q)) (traversal q)), filter_app in Htr.
      by apply app_eq_nil in Htr as [_ ?].
    + by constructor.
  - destruct (removeTracksUnder_some pathPrefix q Hwf Ht Hn Hl) as (j & Hj & Hq).
    fold kept in Hq. rewrite Hq. set (f := remap (oldToNew pathPrefix 0 (tracks_ q))) in *.
    pose proof (order_Forall q Hwf) as Hf.
    assert (Hperm : omap f (order_ q) ≡ₚ seq 0 (length kept)).
    { rewrite (omap_Permutation f _ _ (wf_order q Hwf)). unfold f. by rewrite remap_seq. }
    assert (Hjin : j ∈ omap f (order_ q)).
    { unfold nextIndex in Hj. fold f in Hj. rewrite omap_app in Hj.
      apply head_Some_elem_of in Hj. rewrite elem_of_app in Hj.
      destruct Hj as [(i & Hi & Hfi)%list_elem_of_omap|]; [|done].
      apply list_elem_of_omap. exists i. split; [|done]. by eapply subseteq_drop. }
    apply list_elem_of_lookup in Hjin as [p Hp].
    assert (Hjl : (j < length kept)%nat) by (by eapply order_in_range).
    assert (Hidx : indexOf (omap f (order_ q)) (Z.of_nat j) = Z.of_nat p).
    { apply indexOf_Some; [|done]. rewrite Hperm. apply NoDup_seq. }
    unfold purged. cbv zeta. fold kept.
    destruct (wf_pos q Hwf Ht) as (p0 & c0 & Hp0 & _ & Hl0).
    split_and!.
    + done.
    + unfold traversal at 1, pathAt. cbn [tracks_ order_ record_set set_field].
      unfold kept, f. by rewrite remap_traverse.
    + rewrite Hp0, Nat2Z.id.
      rewrite drop_traversal by (done || (apply lookup_lt_Some in Hl0; lia)).
      unfold traversal. rewrite <- omap_app. unfold pathAt.
      rewrite <- remap_traverse by (apply Forall_app; split; [by apply Forall_drop|done]).
      fold kept f. rewrite head_omap_total by (apply remap_Forall_lookup, Forall_app;
        split; [by apply Forall_drop|done]).
      unfold nextIndex in Hj. rewrite Hp0, Nat2Z.id in Hj. fold f in Hj. rewrite Hj.
      unfold currentTrack. cbn [currentIndex_ tracks_ record_set set_field mbind option_bind].
      unfold blen. destruct (Z.leb_spec 0 (Z.of_nat j)), (Z.ltb_spec (Z.of_nat j)
        (Z.of_nat (length kept))); try lia. cbn [andb]. by rewrite Nat2Z.id.
    + constructor; cbn [tracks_ order_ currentIndex_ orderPos_ record_set set_field];
        [done|done|]. intros _. exists p, j. done.
Qed.



(** ** Any use of the queue *)

Inductive op :=
| SetTracks (paths : list bytes) (startIndex : Z)
| Clear
| SetShuffle (on : bool)
| SetRepeatMode (mode : RepeatMode)
| SetShuffleSeed (seed : Z)
| Advance (manual : bool)
| Retreat
| JumpTo (index : Z)
| RemoveTracksUnder (pathPrefix : bytes).

Definition perform (o : op) (q : t) : t :=
  match o with
  | SetTracks paths i => (setTracks paths i q).1
  | Clear => (clear q).1
  | SetShuffle on => (setShuffle on q).1
  | SetRepeatMode mode => (setRepeatMode mode q).1
  | SetShuffleSeed seed => (setShuffleSeed seed q).1
  | Advance manual => (advance manual q).1.1
  | Retreat => (retreat q).1.1
  | JumpTo i => (jumpTo i q).1
  | RemoveTracksUnder prefix => (removeTracksUnder prefix q).1.1
  end.

Lemma perform_wf o q : wf q -> wf (perform o q).
Proof.
  intros Hwf. destruct o; cbn [perform].
  - apply setTracks_wf.
  - constructor; done.
  - by apply setShuffle_wf.
  - unfold setRepeatMode. destruct (decide _); [done|]. destruct Hwf. by constructor.
  - by apply setShuffleSeed_wf.
  - by apply advance_wf.
  - by apply retreat_wf.
  - by apply jumpTo_wf.
  - by apply removeTracksUnder_purged.
Qed.

(** The traversal after [rebuildOrder] starts with the current track. *)
Lemma rebuildOrder_current q :
  shuffle_ q = true -> (1 < length (tracks_ q))%nat -> current_ok q ->
  orderPos_ (rebuildOrder q) = 0
  /\ currentIndex_ (rebuildOrder q) = currentIndex_ q
  /\ tracks_ (rebuildOrder q) = tracks_ q.
Proof.
  intros Hs Hn Hc. unfold rebuildOrder. rewrite Hs.
  destruct (Nat.ltb_spec 1 (length (tracks_ q))); [|lia]. cbn [andb].
  pose proof (shuffleLoop_Permutation (length (tracks_ q) - 1) (rng_ q)
                (seq 0 (length (tracks_ q)))) as Hp.
  destruct (shuffleLoop _ _ _) as [g order]. cbn [snd] in Hp. cbv zeta.
  set (order' := if 0 <? _ then _ else order).
  assert (Hp' : order' ≡ₚ seq 0 (length (tracks_ q)))
    by (unfold order'; destruct (0 <? _); rewrite ?swap_Permutation; done).
  clearbody order'. cbn [order_ record_set set_field].
  destruct (decide (order' = [])) as [->|]; [|done].
  apply Permutation_nil_l in Hp'. destruct (tracks_ q); simpl in *; [lia|done].
Qed.

(** The button pressed by mistake: back again. *)
Lemma advance_retreat manual q :
  wf q -> tracks_ q <> [] ->
  ~ (repeatMode_ q = RepeatOne /\ manual = false) ->
  repeatMode_ q = RepeatAll \/ orderPos_ q + 1 < blen (order_ q) ->
  let q' := (advance manual q).1.1 in
  (advance manual q).1.2 = true /\ (retreat q').1 = (q, true).
Proof.
  intros Hwf Ht Hone Hcase. cbv zeta.
  destruct (wf_pos q Hwf Ht) as (p & c & Hp & _ & Hl). apply lookup_lt_Some in Hl.
  assert (Hb : bool_decide (repeatMode_ q = RepeatOne) && negb manual = false).
  { destruct manual; [by rewrite andb_false_r|]. rewrite bool_decide_false; [done|].
    intros E. by apply Hone. }
  destruct (Z.ltb_spec (orderPos_ q + 1) (blen (order_ q))) as [Hlt|Hge].
  - assert (Ha : advance manual q = (land q (orderPos_ q + 1), true, [currentChanged])).
    { unfold advance. destruct (decide (tracks_ q = [])); [done|]. rewrite Hb.
      destruct (Z.ltb_spec (orderPos_ q + 1) (blen (order_ q))); [done|lia]. }
    rewrite Ha. cbn [fst snd]. split; [done|]. unfold retreat.
    change (tracks_ (land q (orderPos_ q + 1))) with (tracks_ q).
    change (orderPos_ (land q (orderPos_ q + 1))) with (orderPos_ q + 1).
    destruct (decide (tracks_ q = [])); [done|].
    destruct (Z.ltb_spec 0 (orderPos_ q + 1)); [|lia]. cbn [fst].
    rewrite land_land, Z.add_simpl_r, land_id by done. done.
  - assert (Hr : repeatMode_ q = RepeatAll) by (destruct Hcase; [done|lia]).
    rewrite advance_wheel by done. cbn [fst snd]. split; [done|].
    assert (Hpos : orderPos_ q + 1 = blen (order_ q)) by (unfold blen in *; lia).
    rewrite Hpos, Z.mod_same by (unfold blen in *; lia).
    rewrite retreat_wheel; [|apply (land_wf 0); [done|by apply order_nonempty]|done|done].
    cbn [fst]. rewrite land_land.
    change (orderPos_ (land q 0)) with 0. change (order_ (land q 0)) with (order_ q).
    replace (0 - 1) with ((blen (order_ q) - 1) + (-1) * blen (order_ q)) by lia.
    rewrite Z.mod_add, Z.mod_small by (unfold blen in *; lia).
    replace (blen (order_ q) - 1) with (orderPos_ q) by lia. by rewrite land_id.
Qed.

End PlayQueue.
End PlayQueue.

(** C19. The play queue is always consistent: after any sequence of its
    operations, from an empty queue and with any random generator, the
    traversal order is a permutation of the track indices, and the position
    in it and the current index denote the same track (both -1 exactly when
    the queue is empty). *)
Theorem queue_invariant {G : Type} `{!Random G} (g : G) (ops : list PlayQueue.op) :
  PlayQueue.wf (foldl (fun q o => PlayQueue.perform o q) (PlayQueue.create g) ops).
Proof.
  assert (H : forall q, PlayQueue.wf q ->
    PlayQueue.wf (foldl (fun q o => PlayQueue.perform o q) q ops)).
  { induction ops as [|o ops IH]; intros q Hq; cbn [foldl]; [done|].
    by apply IH, PlayQueue.perform_wf. }
  apply H, PlayQueue.create_queue_wf.
Qed.

(** C20. Under RepeatAll every track plays exactly once per round: the tracks
    of as many presses of the next button as there are tracks are the
    traversal, rotated to the current position, a permutation of the queue;
    after a round the queue is back where it was. *)
Theorem repeat_all_round {G : Type} `{!Random G} (manual : bool)
    (q : PlayQueue.t (G := G)) :
  PlayQueue.wf q -> PlayQueue.tracks_ q <> [] -> PlayQueue.repeatMode_ q = RepeatAll ->
  let n := length (PlayQueue.tracks_ q) in
  let played := map (fun k => PlayQueue.currentTrack (PlayQueue.advances manual k q))
                    (seq 0 n) in
  played = drop (Z.to_nat (PlayQueue.orderPos_ q)) (PlayQueue.traversal q)
           ++ take (Z.to_nat (PlayQueue.orderPos_ q)) (PlayQueue.traversal q)
  /\ played ≡ₚ PlayQueue.tracks_ q
  /\ PlayQueue.advances manual n q = q.
Proof.
  intros Hwf Ht Hr. cbv zeta. rewrite PlayQueue.round_plays by done.
  split; [done|]. split.
  - rewrite (comm (++)), take_drop. by apply PlayQueue.traversal_Permutation.
  - rewrite PlayQueue.advances_wheel by done.
    rewrite <- (PlayQueue.wf_length q Hwf).
    pose proof (PlayQueue.order_nonempty q Hwf Ht).
    destruct (PlayQueue.wf_pos q Hwf Ht) as (p & c & Hp & _ & Hl).
    apply lookup_lt_Some in Hl. unfold blen.
    rewrite <- (Z.mul_1_l (Z.of_nat (length _))) at 1.
    rewrite Z.mod_add, Z.mod_small by lia. by apply PlayQueue.land_id.
Qed.

(** C21. Previous undoes next: whenever next moves on (not a replay under
    RepeatOne, not stopped at the end, not a wrap-around outside RepeatAll),
    previous restores the queue exactly. *)
Theorem previous_undoes_next {G : Type} `{!Random G} (manual : bool)
    (q : PlayQueue.t (G := G)) :
  PlayQueue.wf q -> PlayQueue.tracks_ q <> [] ->
  ~ (PlayQueue.repeatMode_ q = RepeatOne /\ manual = false) ->
  PlayQueue.repeatMode_ q = RepeatAll
    \/ PlayQueue.orderPos_ q + 1 < blen (PlayQueue.order_ q) ->
  let q' := (PlayQueue.advance manual q).1.1 in
  (PlayQueue.advance manual q).1.2 = true
  /\ (PlayQueue.retreat q').1 = (q, true).
Proof. apply PlayQueue.advance_retreat. Qed.

(** C22. Removing a volume: the tracks under its path go, the others stay in
    the same playing order, and playback continues at the first survivor from
    the current position on, wrapping around (the current track itself when it
    survives); the number of removed tracks is returned. *)
Theorem purge_spec {G : Type} `{!Random G} (pathPrefix : bytes)
    (q : PlayQueue.t (G := G)) :
  PlayQueue.wf q ->
  PlayQueue.purged pathPrefix q (PlayQueue.removeTracksUnder pathPrefix q).1.1
  /\ (PlayQueue.removeTracksUnder pathPrefix q).1.2
     = blen (PlayQueue.tracks_ q)
       - blen (PlayQueue.tracks_ (PlayQueue.removeTracksUnder pathPrefix q).1.1).
Proof.
  intros Hwf. pose proof (PlayQueue.removeTracksUnder_purged pathPrefix q Hwf) as Hp.
  split; [done|]. destruct Hp as (-> & _).
  unfold PlayQueue.removeTracksUnder.
  destruct (decide (PlayQueue.tracks_ q = [])) as [->|]; [done|].
  destruct (Z.eqb_spec (blen (PlayQueue.tracks_ q)
    - blen (filter (fun p => ~ PlayQueue.removedBy pathPrefix p) (PlayQueue.tracks_ q))) 0)
    as [E|]; cbn [fst snd]; [by rewrite E|done].
Qed.

(** C23. Shuffling keeps the music playing: switching shuffle on re-orders
    the traversal only; the current track stays current and becomes the first
    of the new order, so that every other track is still to come. *)
Theorem shuffle_keeps_current {G : Type} `{!Random G} (q : PlayQueue.t (G := G)) :
  PlayQueue.wf q -> PlayQueue.shuffle_ q = false ->
  (1 < length (PlayQueue.tracks_ q))%nat ->
  let q' := (PlayQueue.setShuffle true q).1 in
  PlayQueue.tracks_ q' = PlayQueue.tracks_ q
  /\ PlayQueue.currentTrack q' = PlayQueue.currentTrack q
  /\ head (PlayQueue.traversal q') = Some (PlayQueue.currentTrack q)
  /\ PlayQueue.orderPos_ q' = 0
  /\ PlayQueue.traversal q' ≡ₚ PlayQueue.tracks_ q.
Proof.
  intros Hwf Hs Hn. cbv zeta. pose proof (PlayQueue.setShuffle_wf true q Hwf) as Hwf'.
  unfold PlayQueue.setShuffle in *. rewrite Hs in *.
  rewrite bool_decide_false in * by done. cbn [fst] in *.
  set (q1 := q <| PlayQueue.shuffle_ := true |>) in *.
  destruct (PlayQueue.rebuildOrder_current q1) as (H1 & H2 & H3); [done|done| |].
  { by apply PlayQueue.wf_current_ok in Hwf. }
  assert (Hcur : PlayQueue.currentTrack (PlayQueue.rebuildOrder q1) = PlayQueue.currentTrack q)
    by (unfold PlayQueue.currentTrack; by rewrite H2, H3).
  assert (Ht : PlayQueue.tracks_ (PlayQueue.rebuildOrder q1) <> []).
  { rewrite H3. intros E. change (PlayQueue.tracks_ q1) with (PlayQueue.tracks_ q) in E.
    rewrite E in Hn. simpl in Hn. lia. }
  destruct (PlayQueue.currentTrack_head _ Hwf' Ht) as [Hh Hne].
  rewrite H1, drop_0 in Hh, Hne. split_and!; [done|done| |done|].
  - rewrite <- Hcur, Hh. by destruct (PlayQueue.traversal _).
  - rewrite (PlayQueue.traversal_Permutation _ Hwf'). by rewrite H3.
Qed.

(** ** Witnesses *)

(** A generator that always picks the highest position. *)
#[export] Program Instance sample_random : Random unit := {|
  rng_seed _ := tt;
  rng_bounded g n := (g, n - 1)%nat
|}.
Next Obligation. intros. simpl. lia. Qed.

Definition sample_queue : PlayQueue.t (G := unit) :=
  PlayQueue.perform (PlayQueue.SetRepeatMode RepeatAll)
    (PlayQueue.perform (PlayQueue.SetTracks [[Byte.x61; Byte.x31]; [Byte.x62]; [Byte.x61]] 1)
       (PlayQueue.create tt)).

Lemma sample_queue_wf : PlayQueue.wf sample_queue.
Proof. apply PlayQueue.perform_wf, PlayQueue.perform_wf, PlayQueue.create_queue_wf. Qed.

Lemma repeat_all_round_witness :
  let n := length (PlayQueue.tracks_ sample_queue) in
  let played := map (fun k => PlayQueue.currentTrack
                                (PlayQueue.advances false k sample_queue)) (seq 0 n) in
  played = drop (Z.to_nat (PlayQueue.orderPos_ sample_queue))
                (PlayQueue.traversal sample_queue)
           ++ take (Z.to_nat (PlayQueue.orderPos_ sample_queue))
                (PlayQueue.traversal sample_queue)
  /\ played ≡ₚ PlayQueue.tracks_ sample_queue
  /\ PlayQueue.advances false n sample_queue = sample_queue.
Proof. apply repeat_all_round; [apply sample_queue_wf|discriminate|reflexivity]. Defined.

Lemma previous_undoes_next_witness :
  let q' := (PlayQueue.advance true sample_queue).1.1 in
  (PlayQueue.advance true sample_queue).1.2 = true
  /\ (PlayQueue.retreat q').1 = (sample_queue, true).
Proof.
  apply previous_undoes_next; [apply sample_queue_wf|discriminate| |left; reflexivity].
  intros [_ H]. discriminate H.
Defined.

(** The current track is under the removed path. *)
Lemma purge_spec_witness :
  PlayQueue.purged [Byte.x62] sample_queue
    (PlayQueue.removeTracksUnder [Byte.x62] sample_queue).1.1
  /\ (PlayQueue.removeTracksUnder [Byte.x62] sample_queue).1.2
     = blen (PlayQueue.tracks_ sample_queue)
       - blen (PlayQueue.tracks_ (PlayQueue.removeTracksUnder [Byte.x62] sample_queue).1.1).
Proof. apply purge_spec, sample_queue_wf. Defined.

Lemma shuffle_keeps_current_witness :
  let q' := (PlayQueue.setShuffle true sample_queue).1 in
  PlayQueue.tracks_ q' = PlayQueue.tracks_ sample_queue
  /\ PlayQueue.currentTrack q' = PlayQueue.currentTrack sample_queue
  /\ head (PlayQueue.traversal q') = Some (PlayQueue.currentTrack sample_queue)
  /\ PlayQueue.orderPos_ q' = 0
  /\ PlayQueue.traversal q' ≡ₚ PlayQueue.tracks_ sample_queue.
Proof.
  apply shuffle_keeps_current; [apply sample_queue_wf|reflexivity|].
  change (1 < 3)%nat. lia.
Defined.
