(* ===== verification/WidgetTypes.v ===== *)
(** The data of the widget grid, the widget registry and the validation of a
    widget's configuration against its schema.

    Source: src/core/widget/WidgetTypes.hpp, src/core/widget/WidgetRegistry,
    and [validateConfig] of src/ui/WidgetGridModel.cpp. [QString] is [string],
    [QMap] and [QVariantMap] are finite maps, [QVariant] is a parameter with
    the conversions the code uses. *)

From S2P Require Import Prelude.
From stdpp Require Export strings pretty.
From Stdlib Require Export SpecFloat.

#[global] Open Scope Z_scope.

(** [QVariant]: its equality, the type tests and conversions of the code.
    [v_toInt] is [toInt(&ok)], [None] when [ok] is false. *)
Class Variant (V : Type) := {
  v_eq_dec :: EqDecision V;
  v_bool : V -> option bool;        (* typeId() == Bool *)
  v_string : V -> option string;    (* typeId() == QString *)
  v_toLower : string -> string;
  v_toInt : V -> option Z;
  v_ofBool : bool -> V;
  v_ofInt : Z -> V;
  v_bool_ofBool b : v_bool (v_ofBool b) = Some b;
  v_toInt_ofInt z : - 2 ^ 31 <= z < 2 ^ 31 -> v_toInt (v_ofInt z) = Some z
}.

(** A C++ [int]. *)
Definition int32 (z : Z) : Prop := - 2 ^ 31 <= z < 2 ^ 31.

(** [qBound(lo, x, hi)] on integers *)
Definition qBound (lo x hi : Z) : Z := Z.max lo (Z.min x hi).

Inductive ConfigFieldType := Enum | Bool | IntRange.

Inductive DashboardContributionKind := Widget | LiveSurfaceWidget | WebWidget.

#[export] Instance ContributionKind_eq_dec : EqDecision DashboardContributionKind.
Proof. solve_decision. Defined.

(** [double] in IEEE binary64. *)
Abbreviation double := spec_float (only parsing).
Definition dbl_of_Z (z : Z) : double := binary_normalize 53 1024 z 0 false.
Definition dbl_quarter : double := SFdiv 53 1024 (dbl_of_Z 1) (dbl_of_Z 4).
Definition dbl_half : double := SFdiv 53 1024 (dbl_of_Z 1) (dbl_of_Z 2).

Section WidgetTypes.
Context {V : Type} `{!Variant V}.

Record ConfigSchemaField := mkField {
  key : string;
  label : string;
  type : ConfigFieldType;
  options : list string;
  values : list V;
  rangeMin : Z;
  rangeMax : Z;
  rangeStep : Z
}.

Record WidgetDescriptor := mkDescriptor {
  id : string;
  displayName : string;
  iconName : string;
  category : string;
  description : string;
  qmlComponent : string;
  pluginId : string;
  contributionKind : DashboardContributionKind;
  defaultConfig : gmap string V;
  configSchema : list ConfigSchemaField;
  minCols : Z;
  minRows : Z;
  maxCols : Z;
  maxRows : Z;
  defaultCols : Z;
  defaultRows : Z;
  singleton : bool
}.

Record GridPlacement := mkPlacement {
  instanceId : string;
  widgetId : string;
  col : Z;
  row : Z;
  colSpan : Z;
  rowSpan : Z;
  opacity : double;
  page : Z;
  visible : bool;
  config : gmap string V
}.

Record DashboardConfig := mkDashboard {
  dashId : string;
  dashName : string;
  dashNextInstanceId : Z;
  dashPageCount : Z;
  dashPlacements : list GridPlacement
}.

#[global] Instance GridPlacement_settable : Settable GridPlacement := {|
  eta_record p := mkPlacement (instanceId p) (widgetId p) (col p) (row p)
    (colSpan p) (rowSpan p) (opacity p) (page p) (visible p) (config p) |}.

(** * The registry *)

Definition WidgetRegistry : Type := gmap string WidgetDescriptor.

Definition registerWidget (d : WidgetDescriptor) (r : WidgetRegistry)
    : WidgetRegistry * bool :=
  match r !! id d with
  | Some _ => (r, false)
  | None => (<[id d := d]> r, true)
  end.

Definition unregisterWidget (widgetId : string) (r : WidgetRegistry) : WidgetRegistry :=
  delete widgetId r.

(** [registry_->descriptor(widgetId)] behind the test for a null pointer. *)
Definition descriptor (r : option WidgetRegistry) (widgetId : string)
    : option WidgetDescriptor :=
  match r with Some r => r !! widgetId | None => None end.

Definition fitsPicker (availCols availRows : Z) (d : WidgetDescriptor) : Prop :=
  minCols d <= availCols /\ minRows d <= availRows /\ qmlComponent d <> ""%string /\
  (contributionKind d = Widget \/ contributionKind d = WebWidget) /\
  singleton d = false.

#[global] Instance fitsPicker_dec c r d : Decision (fitsPicker c r d).
Proof. unfold fitsPicker. apply _. Defined.

(** The entries the code lists; it lists them in the order of the keys. *)
Definition widgetsFittingSpace (availCols availRows : Z) (r : WidgetRegistry)
    : WidgetRegistry :=
  filter (fun kd => fitsPicker availCols availRows kd.2) r.

Definition descriptorsByKind (kind : DashboardContributionKind) (r : WidgetRegistry)
    : WidgetRegistry :=
  filter (fun kd => contributionKind kd.2 = kind) r.

(** * Configuration *)

(** [schemaMap]: of two fields with one key the later one counts. *)
Definition schemaMap (fields : list ConfigSchemaField) : gmap string ConfigSchemaField :=
  foldl (fun m f => <[key f := f]> m) ∅ fields.

(** The [switch] on the type of the field: the value kept, if any. *)
Definition validateValue (f : ConfigSchemaField) (v : V) : option V :=
  match type f with
  | Bool =>
      match v_bool v with
      | Some b => Some (v_ofBool b)
      | None =>
          match v_string v with
          | Some s =>
              let s := v_toLower s in
              if decide (s = "true"%string) then Some (v_ofBool true)
              else if decide (s = "false"%string) then Some (v_ofBool false)
              else None
          | None => None
          end
      end
  | IntRange =>
      match v_toInt v with
      | Some val => Some (v_ofInt (qBound (rangeMin f) val (rangeMax f)))
      | None => None
      end
  | Enum => if decide (v ∈ values f) then Some v else None
  end.

Definition validateConfig (r : option WidgetRegistry) (widgetId : string)
    (raw : gmap string V) : gmap string V :=
  match descriptor r widgetId with
  | Some d =>
      match configSchema d with
      | [] => ∅
      | fields =>
          map_imap (fun k v => schemaMap fields !! k ≫= fun f => validateValue f v) raw
      end
  | None => ∅
  end.

(** [defaultConfig] of the widget with the entries of [cfg] over it. *)
Definition effectiveConfig (r : option WidgetRegistry) (widgetId : string)
    (cfg : gmap string V) : gmap string V :=
  cfg ∪ match descriptor r widgetId with Some d => defaultConfig d | None => ∅ end.

Definition defaultConfigForWidget (r : option WidgetRegistry) (widgetId : string)
    : gmap string V :=
  match descriptor r widgetId with Some d => defaultConfig d | None => ∅ end.

(** * What a validated value is *)

Definition conforms (f : ConfigSchemaField) (v : V) : Prop :=
  match type f with
  | Bool => is_Some (v_bool v)
  | IntRange => exists z, v = v_ofInt z /\ rangeMin f <= z /\
                (rangeMin f <= rangeMax f -> z <= rangeMax f)
  | Enum => v ∈ values f
  end.

(** The bounds of an integer field are ints. *)
Definition field_ok (f : ConfigSchemaField) : Prop :=
  type f = IntRange -> int32 (rangeMin f) /\ int32 (rangeMax f).

Lemma validateValue_conforms f v w : validateValue f v = Some w -> conforms f w.
Proof.
  unfold validateValue, conforms. intros H. destruct (type f).
  - by case_decide; simplify_eq.
  - split_matches_in H; simplify_eq; rewrite ?v_bool_ofBool; eauto.
  - destruct (v_toInt v) as [z|]; simplify_eq. exists (qBound (rangeMin f) z (rangeMax f)).
    split; [done|]. unfold qBound. lia.
Qed.

Lemma validateValue_idem f v w :
  field_ok f -> (forall z, v_toInt v = Some z -> int32 z) ->
  validateValue f v = Some w -> validateValue f w = Some w.
Proof.
  unfold validateValue, field_ok, int32. intros Hok Hv H. destruct (type f) eqn:E.
  - case_decide; simplify_eq. by rewrite decide_True.
  - split_matches_in H; simplify_eq; by rewrite v_bool_ofBool.
  - destruct (v_toInt v) as [z|]; simplify_eq.
    specialize (Hv _ eq_refl). destruct (Hok eq_refl).
    assert (Hb : int32 (qBound (rangeMin f) z (rangeMax f))) by (unfold int32, qBound; lia).
    rewrite v_toInt_ofInt by done. do 2 f_equal. unfold qBound. lia.
Qed.

Lemma schemaMap_elem fields k f : schemaMap fields !! k = Some f -> f ∈ fields /\ key f = k.
Proof.
  unfold schemaMap. rewrite <- (rev_involutive fields). generalize (rev fields) as l.
  intros l.
  induction l as [|g l IH] in k |- *; simpl; [by rewrite lookup_empty|].
  rewrite foldl_app. simpl. destruct (decide (key g = k)) as [<-|Hne].
  - rewrite lookup_insert_eq. intros [= <-]. rewrite elem_of_app. set_solver.
  - rewrite lookup_insert_ne by done. intros [Hf Hk]%IH. rewrite elem_of_app. auto.
Qed.

Lemma lookup_validateConfig r wid raw k w :
  validateConfig r wid raw !! k = Some w <->
  exists d f v, descriptor r wid = Some d /\ schemaMap (configSchema d) !! k = Some f /\
                raw !! k = Some v /\ validateValue f v = Some w.
Proof.
  unfold validateConfig. destruct (descriptor r wid) as [d|]; [|set_solver].
  destruct (configSchema d) as [|f0 fs] eqn:E.
  { rewrite lookup_empty. split; [done|]. intros (d' & f & v & ? & Hf & _). simplify_eq.
    rewrite E in Hf. cbn in Hf. by rewrite lookup_empty in Hf. }
  rewrite map_lookup_imap. rewrite bind_Some. setoid_rewrite bind_Some. rewrite <- E. split.
  - intros (v & Hv & f & Hf & Hw). by exists d, f, v.
  - intros (d' & f & v & [= <-] & Hf & Hv & Hw). by exists v; split; [|exists f].
Qed.

(** [None] when the widget has no schema. *)
Lemma validateConfig_no_schema r wid raw :
  (forall d, descriptor r wid = Some d -> configSchema d = []) ->
  validateConfig r wid raw = ∅.
Proof.
  intros H. unfold validateConfig. destruct (descriptor r wid) as [d|]; [|done].
  by rewrite (H d eq_refl).
Qed.

End WidgetTypes.

Arguments ConfigSchemaField : clear implicits.
Arguments WidgetDescriptor : clear implicits.
Arguments GridPlacement : clear implicits.
Arguments DashboardConfig : clear implicits.
Arguments WidgetRegistry : clear implicits.

(** A small [QVariant], for the witnesses. *)
Inductive SampleVariant := SBool (b : bool) | SInt (z : Z) | SString (s : string).

#[export] Instance SampleVariant_eq_dec : EqDecision SampleVariant.
Proof. solve_decision. Defined.

#[export, refine] Instance sample_variant : Variant SampleVariant := {|
  v_bool v := match v with SBool b => Some b | _ => None end;
  v_string v := match v with SString s => Some s | _ => None end;
  v_toLower s := s;
  v_toInt v := match v with SInt z => Some z | _ => None end;
  v_ofBool := SBool;
  v_ofInt := SInt
|}.
Proof. all: done. Defined.

(** * Properties *)

(** C31. A validated configuration holds only keys of the widget's schema, each
    with a value its field admits; validating it again changes nothing. *)
Theorem validated_config `{!Variant V} (r : option (WidgetRegistry V)) wid raw :
  (forall d f, descriptor r wid = Some d -> f ∈ configSchema d -> field_ok f) ->
  (forall k v z, raw !! k = Some v -> v_toInt v = Some z -> int32 z) ->
  let cfg := validateConfig r wid raw in
  map_Forall (fun k v => exists d f, descriptor r wid = Some d /\
    f ∈ configSchema d /\ key f = k /\ conforms f v) cfg /\
  validateConfig r wid cfg = cfg.
Proof.
  intros Hok Hint cfg. split.
  - intros k w (d & f & v & Hd & Hf & Hv & Hw)%lookup_validateConfig.
    destruct (schemaMap_elem _ _ _ Hf). exists d, f. eauto using validateValue_conforms.
  - apply map_eq. intros k. destruct (cfg !! k) as [w|] eqn:E.
    + destruct (proj1 (lookup_validateConfig _ _ _ _ _) E) as (d & f & v & Hd & Hf & Hv & Hw).
      apply lookup_validateConfig. exists d, f, w. split_and!; try done.
      destruct (schemaMap_elem _ _ _ Hf). eapply validateValue_idem; eauto.
    + apply eq_None_not_Some. intros [w' (d & f & v & _ & _ & Hv & _)%lookup_validateConfig].
      congruence.
Qed.

Definition sample_field : ConfigSchemaField SampleVariant :=
  mkField "size" "Size" IntRange [] [] 1 5 1.

Definition sample_descriptor : WidgetDescriptor SampleVariant :=
  mkDescriptor "clock" "Clock" "" "status" "" "qrc" "" Widget ∅ [sample_field] 1 1 6 4 1 1 false.

Definition sample_registry : option (WidgetRegistry SampleVariant) :=
  Some {["clock"%string := sample_descriptor]}.

(** An integer above the range comes down to its upper bound, an unknown key
    goes. *)
Lemma validated_config_witness :
  validateConfig sample_registry "clock"
    {["size"%string := SInt 9; "color"%string := SInt 1]} = {["size"%string := SInt 5]} /\
  validateConfig sample_registry "clock" {["size"%string := SInt 5]} =
    {["size"%string := SInt 5]}.
Proof.
  assert (E : validateConfig sample_registry "clock"
    {["size"%string := SInt 9; "color"%string := SInt 1]} = {["size"%string := SInt 5]})
    by (vm_compute; reflexivity).
  split; [exact E|]. rewrite <- E.
  refine (proj2 (validated_config sample_registry "clock"
    {["size"%string := SInt 9; "color"%string := SInt 1]} _ _)).
  - intros d f [= <-] Hf. cbn in Hf. apply list_elem_of_singleton in Hf as ->.
    intros _. unfold int32. cbn. lia.
  - intros k v z Hk Hz. unfold int32.
    apply lookup_insert_Some in Hk as [[_ <-]|[_ Hk]]; [injection Hz as <-; lia|].
    apply lookup_singleton_Some in Hk as [_ <-]. injection Hz as <-. lia.
Defined.
