(* ===== verification/GridRemap.v ===== *)
(** Occupancy of the widget grid and the remap of the placements when the
    grid changes its dimensions: proportional position, clamping, the spiral
    search for a free place and the spill to later pages.

    Source: src/ui/WidgetGridModel.cpp ([remapPlacements], [spiralNudge],
    [spillToNextPage], [markOccupied], [moveReservedPagesToTail]). An [int] is
    a [Z]; a grid stays far below the range of an [int]. *)

From stdpp Require Import sorting.
From S2P Require Import Prelude WidgetTypes.

Module GridRemap.

(** The flat grid of instance ids, row by row, an empty id for a free cell;
    and [pageOccupancy], the grids of the pages met so far. *)
Abbreviation Occupancy := (list string) (only parsing).
Abbreviation PageOcc := (gmap Z (list string)) (only parsing).

(** [qRound]: to the nearest integer, halves away from zero. The values
    without one (a division by zero) give 0. *)
Definition qRound (d : double) : Z :=
  match d with
  | S754_finite s m e =>
      let v := if 0 <=? e then Z.pos m * 2 ^ e
               else (2 * Z.pos m + 2 ^ (- e)) / 2 ^ (- e + 1) in
      if s then - v else v
  | _ => 0
  end.

(** [qRound(static_cast<double>(base) * newDim / saved)] *)
Definition scaled (base newDim saved : Z) : Z :=
  qRound (SFdiv 53 1024 (SFmul 53 1024 (dbl_of_Z base) (dbl_of_Z newDim))
                        (dbl_of_Z saved)).

Section GridRemap.
Context {V : Type} `{!Variant V}.
Implicit Types (p q : GridPlacement V) (placed : list (GridPlacement V)).

(** * Cells *)

(** The two nested loops over the rectangle, columns first. *)
Definition cellsOf p : list (Z * Z) :=
  c ← seqZ (col p) (colSpan p);
  (fun r => (c, r)) <$> seqZ (row p) (rowSpan p).

Definition emptyOccupancy (cols rows : Z) : Occupancy :=
  replicate (Z.to_nat (cols * rows)) ""%string.

Definition occAt (occ : Occupancy) (cols c r : Z) : string :=
  default ""%string (occ !! Z.to_nat (r * cols + c)).

(** [occ[r * cols + c] = id]; a negative index is outside the vector. *)
Definition occSet (cols : Z) (c r : Z) (i : string) (occ : Occupancy) : Occupancy :=
  if 0 <=? r * cols + c then <[Z.to_nat (r * cols + c) := i]> occ else occ.

Definition markCells (cols rows : Z) (i : string) (cells : list (Z * Z))
    (occ : Occupancy) : Occupancy :=
  foldl (fun o '(c, r) => if (c <? cols) && (r <? rows) then occSet cols c r i o else o)
    occ cells.

Definition markPlacement (cols rows : Z) p (occ : Occupancy) : Occupancy :=
  markCells cols rows (instanceId p) (cellsOf p) occ.

(** Step 6: a cell inside the grid that is taken. *)
Definition overlaps (cols rows : Z) (occ : Occupancy) p : bool :=
  existsb (fun '(c, r) => (c <? cols) && (r <? rows) &&
                          negb (bool_decide (occAt occ cols c r = ""%string)))
    (cellsOf p).

(** * [spiralNudge] *)

Definition ring (p : GridPlacement V) (radius : Z) : list (Z * Z) :=
  dc ← seqZ (- radius) (2 * radius + 1);
  dr ← seqZ (- radius) (2 * radius + 1);
  if negb (Z.abs dc =? radius) && negb (Z.abs dr =? radius) then []
  else [(col p + dc, row p + dr)].

Definition at_cell p (cell : Z * Z) : GridPlacement V :=
  p <| col := cell.1 |> <| row := cell.2 |>.

Definition fits (cols rows : Z) (occ : Occupancy) p (cell : Z * Z) : bool :=
  (0 <=? cell.1) && (0 <=? cell.2) &&
  (cell.1 + colSpan p <=? cols) && (cell.2 + rowSpan p <=? rows) &&
  forallb (fun '(c, r) => bool_decide (occAt occ cols c r = ""%string))
    (cellsOf (at_cell p cell)).

Definition spiralNudge (cols rows : Z) (occ : Occupancy) p : option (GridPlacement V) :=
  at_cell p <$> List.find (fits cols rows occ p)
                  (seqZ 1 (Z.max cols rows) ≫= ring p).

(** * [spillToNextPage] *)

Definition occOf (cols rows : Z) (po : PageOcc) (pg : Z) : Occupancy :=
  default (emptyOccupancy cols rows) (po !! pg).

Definition ensurePage (cols rows : Z) (pg : Z) (po : PageOcc) : PageOcc :=
  match po !! pg with
  | Some _ => po
  | None => <[pg := emptyOccupancy cols rows]> po
  end.

Fixpoint spillLoop (cols rows : Z) (attempts : nat) (nextPage : Z) p (po : PageOcc)
    : PageOcc * GridPlacement V :=
  match attempts with
  | O => (po, p)
  | S n =>
      let po := ensurePage cols rows nextPage po in
      let occ := occOf cols rows po nextPage in
      let p := p <| page := nextPage |> <| col := 0 |> <| row := 0 |> in
      if negb (overlaps cols rows occ p) then (po, p)
      else match spiralNudge cols rows occ p with
           | Some p' => (po, p')
           | None => spillLoop cols rows n (nextPage + 1) p po
           end
  end.

Definition spillToNextPage (cols rows : Z) p (po : PageOcc) : PageOcc * GridPlacement V :=
  spillLoop cols rows 100 (page p + 1) p po.

(** * [remapPlacements] *)

Section Remap.
Variables (registry : option (WidgetRegistry V)) (savedCols savedRows newCols newRows : Z).

Definition clampSpan (min : WidgetDescriptor V -> Z) (d : option (WidgetDescriptor V))
    (span newDim : Z) : Z :=
  if newDim <? span
  then match d with Some d => Z.max newDim (min d) | None => newDim end
  else span.

(** Steps 2 to 4. *)
Definition scalePlacement (base : GridPlacement V) (targetPage : Z) : GridPlacement V :=
  let d := descriptor registry (widgetId base) in
  let cs := clampSpan minCols d (colSpan base) newCols in
  let rs := clampSpan minRows d (rowSpan base) newRows in
  base <| page := targetPage |> <| colSpan := cs |> <| rowSpan := rs |>
       <| col := Z.min (scaled (col base) newCols savedCols) (Z.max 0 (newCols - cs)) |>
       <| row := Z.min (scaled (row base) newRows savedRows) (Z.max 0 (newRows - rs)) |>.

(** Step 1: the grid is smaller than the widget's minimum. *)
Definition tooLarge (d : option (WidgetDescriptor V)) : bool :=
  match d with
  | Some d => (newCols <? minCols d) || (newRows <? minRows d)
  | None => false
  end.

(** Steps 5 to 8. *)
Definition findPlace (p : GridPlacement V) (po : PageOcc) : PageOcc * GridPlacement V :=
  let po := ensurePage newCols newRows (page p) po in
  let occ := occOf newCols newRows po (page p) in
  if overlaps newCols newRows occ p then
    match spiralNudge newCols newRows occ p with
    | Some p' => (po, p')
    | None => spillToNextPage newCols newRows p po
    end
  else (po, p).

Definition remapOne (base : GridPlacement V) (targetPage : Z) (po : PageOcc)
    : PageOcc * GridPlacement V :=
  if tooLarge (descriptor registry (widgetId base))
  then (po, base <| page := targetPage |> <| visible := false |>)
  else
    let '(po, p) := findPlace (scalePlacement base targetPage) po in
    let p := p <| visible := true |> in
    (<[page p := markPlacement newCols newRows p (occOf newCols newRows po (page p))]> po, p).

(** One of the two loops: [result[i] = remapOne(base, target)] for the
    placements [target] selects, the others left as they are. *)
Fixpoint remapPass (target : GridPlacement V -> option Z)
    (bases results : list (GridPlacement V)) (po : PageOcc)
    : PageOcc * list (GridPlacement V) :=
  match bases, results with
  | base :: bases, cur :: results =>
      let '(po, cur) := match target base with
                        | Some pg => remapOne base pg po
                        | None => (po, cur)
                        end in
      let '(po, results) := remapPass target bases results po in
      (po, cur :: results)
  | _, _ => (po, results)
  end.

Definition isSingleton p : bool :=
  match descriptor registry (widgetId p) with Some d => singleton d | None => false end.

(** The pages that hold a singleton widget. *)
Definition reservedPages (ps : list (GridPlacement V)) : gset Z :=
  list_to_set (page <$> filter (fun p => isSingleton p = true) ps).

Definition normalTarget (reserved : gset Z) (base : GridPlacement V) : option Z :=
  if decide (page base ∈ reserved) then None else Some (page base).

(** [highestNormalPage] *)
Fixpoint highestNormal (reserved : gset Z) (bases results : list (GridPlacement V)) : Z :=
  match bases, results with
  | base :: bases, r :: results =>
      let h := highestNormal reserved bases results in
      if decide (page base ∈ reserved) then h else Z.max (page r) h
  | _, _ => -1
  end.

Definition sortedPages (reserved : gset Z) : list Z := merge_sort Z.le (elements reserved).

(** [reservedTargets] *)
Definition reservedTargets (reserved : gset Z) (first : Z) : gmap Z Z :=
  let order := sortedPages reserved in
  list_to_map (zip order (seqZ first (blen order))).

Definition reservedTarget (reserved : gset Z) (first : Z) (base : GridPlacement V)
    : option Z :=
  if decide (page base ∈ reserved)
  then Some (default 0 (reservedTargets reserved first !! page base)) else None.

Definition remapAll (bases : list (GridPlacement V)) (basePageCount : Z)
    : list (GridPlacement V) :=
  let reserved := reservedPages bases in
  let '(po, result) := remapPass (normalTarget reserved) bases bases ∅ in
  let highestNormalPage := highestNormal reserved bases result in
  let first := Z.max (highestNormalPage + 1)
                     (basePageCount - blen (sortedPages reserved)) in
  (remapPass (reservedTarget reserved first) bases result po).2.

End Remap.

(** * [requiredPageCount] and [moveReservedPagesToTail] *)

Definition requiredPageCount (ps : list (GridPlacement V)) : Z :=
  foldl (fun required p => Z.max required (page p + 1)) 1 ps.

Definition orderedPages (reserved : gset Z) (pageCount : Z) : list Z :=
  filter (fun pg => pg ∉ reserved) (seqZ 0 pageCount) ++
  filter (fun pg => pg ∈ reserved) (seqZ 0 pageCount).

Definition remappedPages (reserved : gset Z) (pageCount : Z) : gmap Z Z :=
  let order := orderedPages reserved pageCount in
  list_to_map (zip order (seqZ 0 (blen order))).

(** [remappedPages.value(page, page)] *)
Definition tailPage (reserved : gset Z) (pageCount pg : Z) : Z :=
  default pg (remappedPages reserved pageCount !! pg).

(** The placements and whether one of them changed its page. *)
Definition moveReservedPagesToTail (registry : option (WidgetRegistry V))
    (ps : list (GridPlacement V)) (pageCount : Z) : list (GridPlacement V) * bool :=
  let reserved := reservedPages registry ps in
  if (pageCount <? 2) || bool_decide (reserved = ∅) then (ps, false)
  else
    let move p := p <| page := tailPage reserved pageCount (page p) |> in
    (move <$> ps,
     existsb (fun p => negb (page p =? tailPage reserved pageCount (page p))) ps).

End GridRemap.

(** * Lemmas on doubles *)

Definition dbl_nonneg (d : double) : Prop :=
  match d with
  | S754_zero s | S754_infinity s | S754_finite s _ _ => s = false
  | S754_nan => False
  end.

Lemma binary_round_aux_nonneg prec emax m e l :
  dbl_nonneg (binary_round_aux prec emax false m e l) \/
  binary_round_aux prec emax false m e l = S754_nan.
Proof.
  unfold binary_round_aux.
  destruct (shr_fexp _ _ _ _ _) as [r1 e1]. destruct (shr_fexp _ _ _ _ _) as [r2 e2].
  destruct (shr_m r2); [by left| |by right]. destruct (_ <=? _)%Z; by left.
Qed.

Definition notNegative (d : double) : Prop := dbl_nonneg d \/ d = S754_nan.

Lemma dbl_of_Z_notNegative z : 0 <= z -> notNegative (dbl_of_Z z).
Proof.
  unfold dbl_of_Z, binary_normalize, notNegative. destruct z as [|m|m]; [by left| |lia].
  intros _. unfold binary_round. destruct (shl_align _ _ _) as [mz ez].
  by apply binary_round_aux_nonneg.
Qed.

Lemma SFmul_notNegative x y : notNegative x -> notNegative y -> notNegative (SFmul 53 1024 x y).
Proof.
  unfold notNegative. intros [Hx| ->] [Hy| ->]; [|destruct x|destruct y|];
    [destruct x, y; cbn in Hx, Hy |- *; subst; try by auto|..]; auto.
  by apply binary_round_aux_nonneg.
Qed.

Lemma SFdiv_notNegative x y : notNegative x -> notNegative y -> notNegative (SFdiv 53 1024 x y).
Proof.
  unfold notNegative. intros [Hx| ->] [Hy| ->]; [|destruct x|destruct y|];
    [destruct x, y; cbn in Hx, Hy |- *; subst; try by auto|..]; auto.
  destruct (SFdiv_core_binary _ _ _ _ _ _) as [[mz ez] lz].
  by apply binary_round_aux_nonneg.
Qed.

Lemma qRound_nonneg d : notNegative d -> 0 <= qRound d.
Proof.
  intros [Hd| ->]; [|done]. destruct d as [s|s| |s m e]; cbn in *; [done..|]. subst s.
  case_match eqn:E; breflect; [lia|]. apply Z.div_pos; [lia|]. apply Z.pow_pos_nonneg; lia.
Qed.

Lemma scaled_nonneg base newDim saved :
  0 <= base -> 0 <= newDim -> 0 <= saved -> 0 <= scaled base newDim saved.
Proof.
  intros. apply qRound_nonneg, SFdiv_notNegative; [apply SFmul_notNegative|];
    by apply dbl_of_Z_notNegative.
Qed.

Example scaled_half : scaled 1 9 6 = 2.
Proof. vm_compute. reflexivity. Qed.

Example scaled_third : scaled 4 4 6 = 3.
Proof. vm_compute. reflexivity. Qed.

Section Proofs.
Context {V : Type} `{!Variant V}.
Implicit Types (p q : GridPlacement V) (placed : list (GridPlacement V)) (po : PageOcc).

(** * Cells *)

(** [p] occupies the cell. *)
Definition covers p (c r : Z) : Prop :=
  col p <= c < col p + colSpan p /\ row p <= r < row p + rowSpan p.

Lemma elem_of_cellsOf p c r : (c, r) ∈ cellsOf p <-> covers p c r.
Proof.
  unfold cellsOf, covers. rewrite list_elem_of_bind. split.
  - intros (c' & (r' & [= -> ->] & Hr%elem_of_seqZ)%list_elem_of_fmap & Hc%elem_of_seqZ). lia.
  - intros [? ?]. exists c. rewrite elem_of_seqZ, list_elem_of_fmap. split; [|lia].
    exists r. rewrite elem_of_seqZ. split; [done|lia].
Qed.

(** Inside a grid of [cols] by [rows]. *)
Definition inGrid (cols rows : Z) p : Prop :=
  0 <= col p /\ 0 <= row p /\ col p + colSpan p <= cols /\ row p + rowSpan p <= rows.

Lemma index_inj cols c r c' r' :
  0 <= c < cols -> 0 <= c' < cols -> r * cols + c = r' * cols + c' -> c = c' /\ r = r'.
Proof.
  intros Hc Hc' E. destruct (Z.div_mod_unique cols r r' c c'); [lia..| |done]. lia.
Qed.

Lemma index_range cols rows c r :
  0 <= c < cols -> 0 <= r < rows -> 0 <= r * cols + c < cols * rows.
Proof. nia. Qed.

Lemma occSet_length cols c r i occ : length (occSet cols c r i occ) = length occ.
Proof. unfold occSet. case_match; [apply length_insert|done]. Qed.

Lemma occAt_occSet cols rows c r c' r' i occ :
  0 <= c < cols -> 0 <= r < rows -> 0 <= c' < cols -> 0 <= r' < rows ->
  length occ = Z.to_nat (cols * rows) ->
  occAt (occSet cols c' r' i occ) cols c r =
    if decide ((c, r) = (c', r')) then i else occAt occ cols c r.
Proof.
  intros Hc Hr Hc' Hr' Hl. unfold occAt, occSet.
  pose proof (index_range cols rows c r Hc Hr). pose proof (index_range cols rows c' r' Hc' Hr').
  rewrite (proj2 (Z.leb_le 0 _)) by lia. case_decide as E.
  - simplify_eq. rewrite list_lookup_insert_eq; [done|lia].
  - rewrite list_lookup_insert_ne; [done|]. intros ?. apply E.
    destruct (index_inj cols c' r' c r) as [-> ->]; [lia..|done].
Qed.

Lemma markCells_length cols rows i cells occ :
  length (markCells cols rows i cells occ) = length occ.
Proof.
  unfold markCells. revert occ. induction cells as [|[c r] cells IH]; intros occ; [done|].
  simpl. rewrite IH. case_match; [apply occSet_length|done].
Qed.

Lemma occAt_markCells cols rows i cells occ c r :
  0 <= c < cols -> 0 <= r < rows -> length occ = Z.to_nat (cols * rows) ->
  Forall (fun cell => 0 <= cell.1 /\ 0 <= cell.2) cells ->
  occAt (markCells cols rows i cells occ) cols c r =
    if decide ((c, r) ∈ cells) then i else occAt occ cols c r.
Proof.
  intros Hc Hr. unfold markCells. revert occ.
  induction cells as [|[c' r'] cells IH]; intros occ Hl HF; cbn [foldl].
  { rewrite decide_False by set_solver. done. }
  apply Forall_cons in HF as [[? ?] HF]. cbn [fst snd] in *.
  destruct ((c' <? cols) && (r' <? rows)) eqn:E.
  - apply andb_prop in E as [? ?]. breflect. rewrite IH by (rewrite ?occSet_length; done).
    rewrite (occAt_occSet cols rows) by lia.
    destruct (decide ((c, r) ∈ cells)); [by rewrite decide_True by set_solver|].
    destruct (decide ((c, r) = (c', r'))); [by rewrite decide_True by set_solver|].
    by rewrite decide_False by set_solver.
  - rewrite IH by done. destruct (decide ((c, r) ∈ cells)); [by rewrite decide_True by set_solver|].
    rewrite decide_False; [done|]. rewrite elem_of_cons. intros [[= -> ->]|]; [|done].
    apply andb_false_iff in E as [?|?]; breflect; lia.
Qed.

Lemma occAt_markPlacement cols rows p occ c r :
  0 <= c < cols -> 0 <= r < rows -> length occ = Z.to_nat (cols * rows) ->
  0 <= col p -> 0 <= row p ->
  (covers p c r -> occAt (markPlacement cols rows p occ) cols c r = instanceId p) /\
  (~ covers p c r ->
   occAt (markPlacement cols rows p occ) cols c r = occAt occ cols c r).
Proof.
  intros. unfold markPlacement. rewrite occAt_markCells; [|done..|].
  - rewrite <- elem_of_cellsOf. by case_decide.
  - apply Forall_forall. intros [c' r'] Hin%elem_of_cellsOf. unfold covers in Hin. simpl. lia.
Qed.

Lemma occAt_empty cols rows c r : occAt (emptyOccupancy cols rows) cols c r = ""%string.
Proof.
  unfold occAt, emptyOccupancy. destruct (replicate _ _ !! _) as [s|] eqn:E; [|done].
  by apply lookup_replicate in E as [-> _].
Qed.

(** * Placements that do not overlap *)

(** Two visible placements of one page share no cell. *)
Definition disj p q : Prop :=
  visible p = true -> visible q = true -> page p = page q ->
  forall c r, covers p c r -> covers q c r -> False.

Lemma disj_sym p q : disj p q -> disj q p.
Proof. unfold disj. intros H ??? c r ??. by apply (H ltac:(done) ltac:(done) ltac:(done) c r). Qed.

Fixpoint apart (ps : list (GridPlacement V)) : Prop :=
  match ps with
  | [] => True
  | p :: ps => Forall (disj p) ps /\ apart ps
  end.

#[global] Instance apart_perm : Proper ((≡ₚ) ==> iff) apart.
Proof.
  intros l k Hlk. induction Hlk as [|p l k Hlk IH|p q l|l1 l2 l3 _ IH1 _ IH2]; simpl.
  - done.
  - by rewrite IH, Hlk.
  - rewrite !Forall_cons. assert (disj p q <-> disj q p) by (split; apply disj_sym). tauto.
  - by rewrite IH1.
Qed.

Lemma apart_app l k :
  apart (l ++ k) <-> apart l /\ apart k /\ Forall (fun p => Forall (disj p) k) l.
Proof.
  induction l as [|p l IH]; simpl; [rewrite Forall_nil; tauto|].
  rewrite IH, Forall_app, Forall_cons. tauto.
Qed.

Lemma apart_lookup ps i j p q :
  apart ps -> i <> j -> ps !! i = Some p -> ps !! j = Some q -> disj p q.
Proof.
  revert i j. induction ps as [|x ps IH]; intros i j Hap Hne Hi Hj; [done|].
  destruct Hap as [Hx Hps].
  destruct i as [|i], j as [|j]; simplify_eq/=; [|..].
  - by eapply Forall_lookup_1.
  - apply disj_sym. by eapply Forall_lookup_1.
  - eapply (IH i j); [done|congruence|done..].
Qed.

(** The tests of the code see overlap through a non-empty id. *)
Definition named p : Prop := instanceId p <> ""%string.

Section Dims.
Variables cols rows : Z.

(** [po] holds the ids of the visible ones of [placed], and no others. *)
Definition OccInv po placed : Prop :=
  forall pg, length (occOf cols rows po pg) = Z.to_nat (cols * rows) /\
  forall c r, 0 <= c < cols -> 0 <= r < rows ->
    (occAt (occOf cols rows po pg) cols c r <> ""%string <->
     exists q, q ∈ placed /\ visible q = true /\ page q = pg /\ covers q c r).

Lemma OccInv_empty : OccInv ∅ [].
Proof.
  intros pg. unfold occOf. rewrite lookup_empty. cbn [default].
  split; [by unfold emptyOccupancy; rewrite length_replicate|].
  intros c r _ _. rewrite occAt_empty. split; [done|]. by intros (q & Hq%elem_of_nil & _).
Qed.

Lemma occOf_ensure pg pg' po : occOf cols rows (ensurePage cols rows pg po) pg' = occOf cols rows po pg'.
Proof.
  unfold occOf, ensurePage. destruct (po !! pg) eqn:E; [done|].
  destruct (decide (pg = pg')) as [<-|]; [by rewrite lookup_insert_eq, E|].
  by rewrite lookup_insert_ne.
Qed.

Lemma occOf_insert pg pg' o po :
  occOf cols rows (<[pg := o]> po) pg' = if decide (pg = pg') then o else occOf cols rows po pg'.
Proof.
  unfold occOf. case_decide; [subst; by rewrite lookup_insert_eq|by rewrite lookup_insert_ne].
Qed.

Lemma OccInv_ensure pg po placed : OccInv po placed -> OccInv (ensurePage cols rows pg po) placed.
Proof. intros H pg'. by rewrite occOf_ensure. Qed.

Lemma OccInv_hidden po placed p :
  visible p = false -> OccInv po placed -> OccInv po (p :: placed).
Proof.
  intros Hp H pg. destruct (H pg) as [Hl Ho]. split; [done|]. intros c r Hc Hr.
  rewrite (Ho c r Hc Hr). split; intros (q & Hq & Hv & ?).
  - exists q. by rewrite elem_of_cons; auto.
  - apply elem_of_cons in Hq as [->|]; [congruence|]. by exists q.
Qed.

Lemma OccInv_mark po placed p :
  visible p = true -> named p -> 0 <= col p -> 0 <= row p -> OccInv po placed ->
  OccInv (<[page p := markPlacement cols rows p (occOf cols rows po (page p))]> po)
         (p :: placed).
Proof.
  intros Hv Hn Hc0 Hr0 H pg. destruct (H pg) as [Hl Ho].
  rewrite occOf_insert. destruct (decide (page p = pg)) as [<-|Hne].
  - unfold markPlacement at 1. rewrite markCells_length. split; [done|]. intros c r Hc Hr.
    destruct (occAt_markPlacement cols rows p (occOf cols rows po (page p)) c r) as [Hin Hout];
      [done..|]. destruct (decide ((c, r) ∈ cellsOf p)) as [E|E]; rewrite elem_of_cellsOf in E.
    + rewrite (Hin E). split; [|done]. intros _. exists p. by rewrite elem_of_cons; auto.
    + rewrite (Hout E), (Ho c r Hc Hr). split; intros (q & Hq & ? & ? & ?).
      * exists q. by rewrite elem_of_cons; auto.
      * apply elem_of_cons in Hq as [->|]; [done|]. by exists q.
  - split; [done|]. intros c r Hc Hr. rewrite (Ho c r Hc Hr).
    split; intros (q & Hq & ? & ? & ?).
    + exists q. by rewrite elem_of_cons; auto.
    + apply elem_of_cons in Hq as [->|]; [done|]. by exists q.
Qed.

(** [p] lies on free cells of its page. *)
Definition free po p : Prop :=
  inGrid cols rows p /\
  forall c r, covers p c r -> occAt (occOf cols rows po (page p)) cols c r = ""%string.

Lemma free_disj po placed p :
  OccInv po placed -> free po p -> Forall (disj p) placed.
Proof.
  intros H [Hg Hf]. apply Forall_forall. intros q Hq _ Hv Hpg c r Hpc Hqc.
  destruct (H (page p)) as [_ Ho]. specialize (Hf c r Hpc).
  destruct Hg as (? & ? & ? & ?), Hpc as [? ?].
  apply (proj2 (Ho c r ltac:(lia) ltac:(lia))); [|done]. by exists q.
Qed.

Lemma overlaps_free po p :
  inGrid cols rows p -> overlaps cols rows (occOf cols rows po (page p)) p = false -> free po p.
Proof.
  intros Hg Ho. split; [done|]. intros c r Hc. unfold overlaps in Ho.
  destruct (decide (occAt (occOf cols rows po (page p)) cols c r = ""%string)) as [|E]; [done|].
  exfalso. apply not_true_iff_false in Ho. apply Ho, existsb_exists. exists (c, r).
  split; [by apply list_elem_of_In, elem_of_cellsOf|].
  destruct Hg as (? & ? & ? & ?), Hc as [? ?].
  rewrite !andb_true_iff, negb_true_iff, bool_decide_eq_false. repeat split; [lia|lia|done].
Qed.

Lemma overlaps_taken po p :
  inGrid cols rows p -> overlaps cols rows (occOf cols rows po (page p)) p = true ->
  exists c r, covers p c r /\ occAt (occOf cols rows po (page p)) cols c r <> ""%string.
Proof.
  intros Hg Ho. apply existsb_exists in Ho as ([c r] & Hin%list_elem_of_In%elem_of_cellsOf & E).
  rewrite !andb_true_iff, negb_true_iff, bool_decide_eq_false in E. destruct E as [_ E].
  by exists c, r.
Qed.

(** The placement but for its place. *)
Definition sameWidget p q : Prop :=
  instanceId q = instanceId p /\ widgetId q = widgetId p /\ opacity q = opacity p /\
  config q = config p.

Definition moved p q : Prop :=
  sameWidget p q /\ colSpan q = colSpan p /\ rowSpan q = rowSpan p.

Lemma spiralNudge_free po p p' :
  spiralNudge cols rows (occOf cols rows po (page p)) p = Some p' ->
  free po p' /\ moved p p' /\ page p' = page p.
Proof.
  unfold spiralNudge. intros ([nc nr] & Hf & ->)%fmap_Some.
  apply List.find_some in Hf as [_ Hf]. unfold fits in Hf. cbn [fst snd] in Hf.
  rewrite !andb_true_iff, forallb_forall in Hf. destruct Hf as ((((? & ?) & ?) & ?) & Hf).
  breflect. split; [|by split_and!; cbn]. split; [by cbn; unfold inGrid; cbn|].
  intros c r Hc%elem_of_cellsOf. specialize (Hf (c, r) (proj1 (list_elem_of_In _ _) Hc)).
  by apply bool_decide_eq_true in Hf.
Qed.

(** Each of [n] pages after the other is taken, or the search ends well. *)
Lemma spillLoop_spec n nextPage p po placed :
  OccInv po placed -> colSpan p <= cols -> rowSpan p <= rows -> 0 <= cols -> 0 <= rows ->
  let '(po', p') := spillLoop cols rows n nextPage p po in
  OccInv po' placed /\
  ((free po' p' /\ moved p p' /\ nextPage <= page p') \/
   forall k, (k < n)%nat -> nextPage + Z.of_nat k ∈ page <$> placed).
Proof.
  revert nextPage p po. induction n as [|n IH]; intros nextPage p po HO Hc Hr H0c H0r.
  { cbn. split; [done|]. right. lia. }
  cbn [spillLoop].
  set (po1 := ensurePage cols rows nextPage po).
  set (p1 := p <| page := nextPage |> <| col := 0 |> <| row := 0 |>).
  assert (HO1 : OccInv po1 placed) by by apply OccInv_ensure.
  assert (Hg : inGrid cols rows p1) by (unfold inGrid, p1; cbn; lia).
  assert (Hm : moved p p1) by (by repeat split).
  destruct (overlaps cols rows (occOf cols rows po1 nextPage) p1) eqn:E; cbn [negb].
  - destruct (spiralNudge _ _ _ p1) as [p2|] eqn:Hs.
    + apply (spiralNudge_free po1 p1) in Hs as (Hf & Hm2 & Hp). split; [done|]. left.
      split; [done|]. split; [|rewrite Hp; cbn; lia].
      destruct Hm as [(? & ? & ? & ?) ?], Hm2 as [(? & ? & ? & ?) ?].
      unfold moved, sameWidget. intuition congruence.
    + specialize (IH (nextPage + 1) p1 po1 HO1 Hc Hr H0c H0r).
      destruct (spillLoop cols rows n (nextPage + 1) p1 po1) as [po' p'].
      destruct IH as [HO' [(Hf & Hm2 & Hp)|Hall]]; (split; [done|]).
      * left. split; [done|]. split; [|lia].
        destruct Hm as [(? & ? & ? & ?) ?], Hm2 as [(? & ? & ? & ?) ?].
        unfold moved, sameWidget. intuition congruence.
      * right. intros [|k] Hk.
        -- apply (overlaps_taken po1 p1) in E as (c & r & Hcr & Hne); [|done].
           destruct (HO1 nextPage) as [_ Ho]. destruct Hg as (? & ? & ? & ?), (Hcr) as [? ?].
           apply (Ho c r) in Hne as (q & Hq & _ & Hpq & _); [|lia..].
           rewrite Z.add_0_r, <- Hpq. by apply list_elem_of_fmap_2.
        -- replace (nextPage + Z.of_nat (S k)) with (nextPage + 1 + Z.of_nat k) by lia.
           apply Hall. lia.
  - split; [done|]. left. split; [|split; [done|cbn; lia]].
    by apply (overlaps_free po1 p1).
Qed.

(** Fewer placements than attempts: one of the pages is free. *)
Lemma spillLoop_free n nextPage p po placed po' p' :
  OccInv po placed -> colSpan p <= cols -> rowSpan p <= rows -> 0 <= cols -> 0 <= rows ->
  (length placed < n)%nat -> spillLoop cols rows n nextPage p po = (po', p') ->
  OccInv po' placed /\ free po' p' /\ moved p p' /\ nextPage <= page p'.
Proof.
  intros HO Hc Hr H0c H0r Hn E.
  pose proof (spillLoop_spec n nextPage p po placed HO Hc Hr H0c H0r) as H. rewrite E in H.
  destruct H as [HO' [H|Hall]]; [done|]. exfalso.
  assert (Hs : seqZ nextPage (Z.of_nat n) ⊆+ (page <$> placed)).
  { apply NoDup_submseteq; [apply NoDup_seqZ|]. intros x Hx%elem_of_seqZ.
    replace x with (nextPage + Z.of_nat (Z.to_nat (x - nextPage))) by lia. apply Hall. lia. }
  apply submseteq_length in Hs. rewrite length_seqZ, length_fmap in Hs. lia.
Qed.

End Dims.

(** * The remap *)

(** What the code relies on of a stored placement. *)
Definition placeable p : Prop := named p /\ 0 <= col p /\ 0 <= row p /\ 0 <= page p.

Section RemapProofs.
Variables (registry : option (WidgetRegistry V)) (savedCols savedRows newCols newRows : Z).
Hypothesis saved_nonneg : 0 <= savedCols /\ 0 <= savedRows.
Hypothesis new_nonneg : 0 <= newCols /\ 0 <= newRows.

Abbreviation remapOne := (remapOne registry savedCols savedRows newCols newRows).
Abbreviation remapPass := (remapPass registry savedCols savedRows newCols newRows).
Abbreviation tooLarge := (tooLarge newCols newRows).

(** What the remap makes of a placement sent to page [pg]. *)
Record remapped (base : GridPlacement V) (pg : Z) (p : GridPlacement V) : Prop := {
  remapped_same : sameWidget base p;
  remapped_visible : visible p = negb (tooLarge (descriptor registry (widgetId base)));
  remapped_inGrid : visible p = true -> inGrid newCols newRows p;
  remapped_span : visible p = true ->
    colSpan p = Z.min (colSpan base) newCols /\ rowSpan p = Z.min (rowSpan base) newRows;
  remapped_page : pg <= page p;
  remapped_placeable : placeable p
}.

Lemma findPlace_spec p po placed po' p' :
  OccInv newCols newRows po placed -> inGrid newCols newRows p ->
  colSpan p <= newCols -> rowSpan p <= newRows -> (length placed < 100)%nat ->
  findPlace newCols newRows p po = (po', p') ->
  OccInv newCols newRows po' placed /\ free newCols newRows po' p' /\ moved p p' /\
  page p <= page p'.
Proof.
  intros HO Hg Hc Hr Hn E. unfold findPlace in E.
  set (po1 := ensurePage newCols newRows (page p) po) in *.
  assert (HO1 : OccInv newCols newRows po1 placed) by by apply OccInv_ensure.
  destruct (overlaps _ _ _ p) eqn:Eo.
  - destruct (spiralNudge _ _ _ p) as [p1|] eqn:Es.
    + injection E as <- <-. apply (spiralNudge_free _ _ po1) in Es as (? & ? & ->).
      auto using Z.le_refl.
    + eapply spillLoop_free in E as (? & ? & ? & ?); [|done..|lia|lia|done].
      split_and!; auto. lia.
  - injection E as <- <-. split; [done|].
    split; [by apply overlaps_free|]. split; [by repeat split|lia].
Qed.

Lemma clampSpan_min (min : WidgetDescriptor V -> Z) d span newDim :
  (forall d', d = Some d' -> min d' <= newDim) -> clampSpan min d span newDim = Z.min span newDim.
Proof.
  intros H. unfold clampSpan. case_match eqn:E; breflect; [|lia].
  destruct d as [d'|]; [|lia]. specialize (H d' eq_refl). lia.
Qed.

Lemma scalePlacement_spec base pg :
  placeable base -> tooLarge (descriptor registry (widgetId base)) = false ->
  let p := scalePlacement registry savedCols savedRows newCols newRows base pg in
  inGrid newCols newRows p /\ colSpan p = Z.min (colSpan base) newCols /\
  rowSpan p = Z.min (rowSpan base) newRows /\ sameWidget base p /\ page p = pg.
Proof.
  intros (Hn & Hc & Hr & Hp) Ht p.
  assert (colSpan p = Z.min (colSpan base) newCols /\
                rowSpan p = Z.min (rowSpan base) newRows) as [Hcs Hrs].
  { split; cbn; apply clampSpan_min; intros d E; rewrite E in Ht; cbn in Ht; breflect; lia. }
  split_and!; try done. unfold inGrid. rewrite Hcs, Hrs.
  pose proof (scaled_nonneg (col base) newCols savedCols).
  pose proof (scaled_nonneg (row base) newRows savedRows).
  cbn. cbn in Hcs, Hrs. rewrite Hcs, Hrs. lia.
Qed.

Lemma remapOne_spec base pg po placed po' p :
  OccInv newCols newRows po placed -> placeable base -> 0 <= pg -> (length placed < 100)%nat ->
  remapOne base pg po = (po', p) ->
  OccInv newCols newRows po' (p :: placed) /\ Forall (disj p) placed /\ remapped base pg p.
Proof.
  intros HO Hb Hpg Hn E. unfold GridRemap.remapOne in E.
  destruct (tooLarge (descriptor registry (widgetId base))) eqn:Et.
  - simplify_eq. split; [by apply OccInv_hidden|]. split.
    + apply Forall_forall. intros q _ Hv. done.
    + destruct Hb as (? & ? & ? & ?). split; cbn; try done; by rewrite Et.
  - destruct (scalePlacement_spec base pg Hb Et) as (Hg & Hcs & Hrs & Hs & Hp).
    destruct (findPlace _ _ _ po) as [po1 p1] eqn:Ef. simplify_eq.
    eapply findPlace_spec in Ef as (HO1 & Hf & [Hs1 [Hc1 Hr1]] & Hp1); [|done..|lia|lia|done].
    destruct (Hf) as [(? & ? & ? & ?) ?], Hb as (Hnb & ? & ? & ?).
    assert (Hs2 : sameWidget base p1) by (unfold sameWidget in *; intuition congruence).
    split_and!.
    + apply (OccInv_mark newCols newRows po1 placed (p1 <| visible := true |>)); try done.
      unfold named. cbn. destruct Hs2 as (-> & _). done.
    + apply (free_disj newCols newRows po1); [done|]. by destruct Hf.
    + split; cbn; try done.
      1: by rewrite Et. 1: by intros _; split; congruence.
      split_and!; cbn; try done; [|lia]. unfold named. cbn. by destruct Hs2 as (-> & _).
Qed.

(** The results of the selected placements. *)
Fixpoint picked (target : GridPlacement V -> option Z) (bases rs : list (GridPlacement V))
    : list (GridPlacement V) :=
  match bases, rs with
  | b :: bases, r :: rs =>
      if target b is Some _ then r :: picked target bases rs else picked target bases rs
  | _, _ => []
  end.

Definition passed (target : GridPlacement V -> option Z) (b cur r : GridPlacement V) : Prop :=
  match target b with Some pg => remapped b pg r | None => r = cur end.

Lemma remapPass_spec target bases rs po placed :
  length rs = length bases -> Forall placeable bases ->
  Forall (fun b => forall pg, target b = Some pg -> 0 <= pg) bases ->
  OccInv newCols newRows po placed -> apart placed ->
  (length placed + length (omap target bases) <= 100)%nat ->
  let '(po', rs') := remapPass target bases rs po in
  Forall3 (passed target) bases rs rs' /\
  exists placed', placed' ≡ₚ picked target bases rs' ++ placed /\
    OccInv newCols newRows po' placed' /\ apart placed'.
Proof.
  revert rs po placed. induction bases as [|b bases IH];
    intros [|cur rs] po placed Hl Hb Ht HO Ha Hn; try discriminate Hl.
  { cbn. split; [constructor|]. by exists placed. }
  apply Forall_cons in Hb as [Hb Hbs]. apply Forall_cons in Ht as [Ht Hts].
  cbn [GridRemap.remapPass]. cbn in Hn, Hl.
  destruct (target b) as [pg|] eqn:Etb; cbn [length] in Hn.
  - destruct (remapOne b pg po) as [po1 r] eqn:Er.
    apply (remapOne_spec b pg po placed) in Er as (HO1 & Hd & Hrm); [|done|done|by apply Ht|lia].
    specialize (IH rs po1 (r :: placed) ltac:(lia) Hbs Hts HO1 (conj Hd Ha) ltac:(cbn; lia)).
    destruct (remapPass target bases rs po1) as [po2 rs'].
    destruct IH as (HF & placed' & Hp & HO2 & Ha2). split.
    + constructor; [|done]. unfold passed. by rewrite Etb.
    + exists placed'. split; [|done]. cbn. rewrite Etb, Hp. by rewrite <- Permutation_middle.
  - specialize (IH rs po placed ltac:(lia) Hbs Hts HO Ha ltac:(lia)).
    destruct (remapPass target bases rs po) as [po2 rs'].
    destruct IH as (HF & placed' & Hp & HO2 & Ha2). split.
    + constructor; [|done]. unfold passed. by rewrite Etb.
    + exists placed'. cbn. by rewrite Etb.
Qed.

Lemma picked_length target bases rs :
  length rs = length bases -> length (picked target bases rs) = length (omap target bases).
Proof.
  revert rs. induction bases as [|b bases IH]; intros [|r rs] Hl; try done. cbn.
  injection Hl as Hl. destruct (target b); cbn; by rewrite IH.
Qed.

Lemma length_omap_le {A B} (f : A -> option B) l : (length (omap f l) <= length l)%nat.
Proof. induction l as [|x l IH]; cbn; [lia|]. destruct (f x); cbn; lia. Qed.

Lemma omap_split_length (t1 t2 : GridPlacement V -> option Z) bases :
  Forall (fun b => is_Some (t1 b) <-> t2 b = None) bases ->
  (length (omap t1 bases) + length (omap t2 bases) = length bases)%nat.
Proof.
  induction 1 as [|b bases Hb _ IH]; [done|]. cbn.
  destruct (t1 b), (t2 b); cbn; try lia.
  - destruct Hb as [Hb _]. discriminate Hb. eauto.
  - destruct Hb as [_ Hb]. by destruct (Hb eq_refl).
Qed.

(** Two passes that between them select every placement once. *)
Lemma picked_split t1 t2 bases rs1 rs2 :
  Forall (fun b => is_Some (t1 b) <-> t2 b = None) bases ->
  Forall3 (passed t2) bases rs1 rs2 ->
  picked t2 bases rs2 ++ picked t1 bases rs1 ≡ₚ rs2.
Proof.
  intros Ht H. revert Ht. induction H as [|b r1 r2 bases rs1 rs2 Hp H IH]; intros Ht; [done|].
  apply Forall_cons in Ht as [Ht Hts]. specialize (IH Hts). cbn. unfold passed in Hp.
  destruct (t2 b) as [pg|].
  - destruct (t1 b); [|cbn; by rewrite IH].
    destruct Ht as [Ht _]. discriminate Ht. eauto.
  - subst. destruct (proj2 Ht eq_refl) as [pg ->]. cbn. by rewrite <- Permutation_middle, IH.
Qed.

Lemma highestNormal_ge reserved (bases rs : list (GridPlacement V)) i b r :
  bases !! i = Some b -> rs !! i = Some r -> page b ∉ reserved ->
  page r <= highestNormal reserved bases rs.
Proof.
  revert rs i. induction bases as [|b0 bases IH]; intros [|r0 rs] [|i] Hb Hr Hn; simplify_eq/=.
  - rewrite decide_False by done. lia.
  - specialize (IH rs i Hb Hr Hn). case_decide; lia.
Qed.

Lemma highestNormal_lower reserved (bases rs : list (GridPlacement V)) : -1 <= highestNormal reserved bases rs.
Proof.
  revert rs. induction bases as [|b bases IH]; intros [|r rs]; cbn; try lia.
  specialize (IH rs). case_decide; lia.
Qed.

Lemma elem_of_sortedPages reserved pg : pg ∈ sortedPages reserved <-> pg ∈ reserved.
Proof. unfold sortedPages. rewrite merge_sort_Permutation. apply elem_of_elements. Qed.

Lemma reservedTarget_lookup reserved first (b : GridPlacement V) k :
  sortedPages reserved !! k = Some (page b) ->
  reservedTarget reserved first b = Some (first + Z.of_nat k).
Proof.
  intros Hk. unfold reservedTarget.
  rewrite decide_True by (apply elem_of_sortedPages; by eapply list_elem_of_lookup_2).
  unfold reservedTargets. rewrite (elem_of_list_to_map_1 _ _ (first + Z.of_nat k)); [done|..].
  - rewrite fst_zip by (rewrite length_seqZ; unfold blen; lia).
    unfold sortedPages. rewrite merge_sort_Permutation. apply NoDup_elements.
  - apply list_elem_of_lookup. exists k. apply lookup_zip_with_Some.
    exists (page b), (first + Z.of_nat k). split; [done|]. split; [done|].
    apply lookup_seqZ. apply lookup_lt_Some in Hk. unfold blen. lia.
Qed.

Lemma reservedTarget_spec reserved first (b : GridPlacement V) :
  page b ∈ reserved -> exists t, reservedTarget reserved first b = Some t /\ first <= t.
Proof.
  intros Hin. apply elem_of_sortedPages, list_elem_of_lookup in Hin as [k Hk].
  exists (first + Z.of_nat k). split; [by apply reservedTarget_lookup|lia].
Qed.

(** The placements a remap produces: each of the same widget, in the same
    order; visible unless the grid is too small for it, inside the grid and
    apart from one another; every reserved page after every other page. *)
Lemma remapAll_spec bases basePageCount :
  Forall placeable bases -> (length bases <= 100)%nat ->
  let rs := remapAll registry savedCols savedRows newCols newRows bases basePageCount in
  let reserved := reservedPages registry bases in
  apart rs /\
  Forall2 (fun b r => exists pg, remapped b pg r /\ (page b ∉ reserved -> pg = page b)) bases rs /\
  (forall i j bi bj ri rj, bases !! i = Some bi -> bases !! j = Some bj ->
     rs !! i = Some ri -> rs !! j = Some rj ->
     page bi ∉ reserved -> page bj ∈ reserved -> page ri < page rj) /\
  (reserved <> ∅ -> exists r, r ∈ rs /\ basePageCount <= page r + 1).
Proof.
  intros Hb Hn rs reserved. unfold remapAll in rs. fold reserved in rs.
  pose proof (remapPass_spec (normalTarget reserved) bases bases ∅ [] eq_refl Hb) as H1.
  destruct (remapPass (normalTarget reserved) bases bases ∅) as [po1 rs1].
  destruct H1 as (HF1 & placed1 & Hp1 & HO1 & Ha1).
  { eapply Forall_impl; [exact Hb|]. intros b (_ & _ & _ & ?) pg. unfold normalTarget.
    case_decide; [done|]. by intros [= <-]. }
  { apply OccInv_empty. } { done. }
  { cbn [length]. pose proof (length_omap_le (normalTarget reserved) bases). lia. }
  rewrite app_nil_r in Hp1.
  set (first := Z.max _ _) in rs.
  assert (Hfirst : 0 <= first).
  { pose proof (highestNormal_lower reserved bases rs1). lia. }
  assert (Ht2 : Forall (fun b => forall pg, reservedTarget reserved first b = Some pg -> 0 <= pg) bases).
  { apply Forall_true. intros b pg E.
    destruct (decide (page b ∈ reserved)) as [Hin|Hin].
    - destruct (reservedTarget_spec reserved first b Hin) as (t & Et & ?). rewrite Et in E. simplify_eq. lia.
    - unfold reservedTarget in E. by rewrite decide_False in E. }
  assert (Hs : Forall (fun b => is_Some (normalTarget reserved b) <->
                                reservedTarget reserved first b = None) bases).
  { apply Forall_true. intros b. unfold normalTarget, reservedTarget.
    case_decide; split; try done; eauto. }
  pose proof (Forall3_length_lm _ _ _ _ HF1) as Hl1.
  pose proof (Forall3_length_lr _ _ _ _ HF1) as Hl1'.
  assert (Hpl : length placed1 = length (omap (normalTarget reserved) bases)).
  { rewrite Hp1. by apply picked_length. }
  pose proof (omap_split_length _ _ _ Hs) as Hsl.
  pose proof (remapPass_spec (reservedTarget reserved first) bases rs1 po1 placed1
    (eq_sym Hl1') Hb Ht2 HO1 Ha1 ltac:(lia)) as H2.
  subst rs. destruct (remapPass (reservedTarget reserved first) bases rs1 po1) as [po2 rs2].
  destruct H2 as (HF2 & placed2 & Hp2 & HO2 & Ha2). cbn [snd].
  assert (Hi : forall i b r, bases !! i = Some b -> rs2 !! i = Some r ->
    (((page b ∉ reserved) /\ remapped b (page b) r /\ rs1 !! i = Some r) \/
     (page b ∈ reserved /\ exists t, first <= t /\ remapped b t r /\
        reservedTarget reserved first b = Some t))).
  { intros i b r Hib Hir.
    destruct (Forall3_lookup_r _ _ _ _ _ _ HF2 Hir) as (b' & r1 & Hib' & Hir1 & Hq). simplify_eq.
    destruct (Forall3_lookup_r _ _ _ _ _ _ HF1 Hir1) as (b1 & b2 & Hb1 & Hb2 & Hq1). simplify_eq.
    destruct (decide (page b ∈ reserved)) as [Hin|Hin].
    - right. split; [done|]. destruct (reservedTarget_spec reserved first b Hin) as (t & Et & ?).
      exists t. split; [done|]. unfold passed in Hq. by rewrite Et in Hq.
    - left. unfold passed, normalTarget, reservedTarget in *.
      rewrite decide_False in Hq, Hq1 by done. by subst. }
  split_and!.
  - rewrite Hp2, Hp1, (picked_split _ _ _ _ _ Hs HF2) in Ha2. done.
  - apply Forall2_same_length_lookup_2.
    { rewrite <- (Forall3_length_lr _ _ _ _ HF2). done. }
    intros i b r Hib Hir. destruct (Hi i b r Hib Hir) as [(? & ? & _)|(? & t & _ & ? & _)];
      [by exists (page b)|by exists t].
  - intros i j bi bj ri rj Hbi Hbj Hri Hrj Hni Hnj.
    destruct (Hi i bi ri Hbi Hri) as [(_ & _ & Hr1)|(? & _)]; [|done].
    destruct (Hi j bj rj Hbj Hrj) as [(? & _)|(_ & t & Ht & [] & _)]; [done|].
    pose proof (highestNormal_ge reserved bases rs1 i bi ri Hbi Hr1 Hni). lia.
  - intros Hne.
    assert (exists k pg, sortedPages reserved !! k = Some pg /\
                         blen (sortedPages reserved) = Z.of_nat k + 1) as (k & pg & Hk & Hlen).
    { destruct (sortedPages reserved) as [|x l] eqn:E using rev_ind.
      - destruct Hne. apply set_eq. intros x. rewrite <- elem_of_sortedPages, E. set_solver.
      - exists (length l), x. rewrite lookup_app_r, Nat.sub_diag by done.
        rewrite blen_app. by unfold blen. }
    assert (Hpg : pg ∈ reserved) by (apply elem_of_sortedPages; by eapply list_elem_of_lookup_2).
    apply elem_of_list_to_set, list_elem_of_fmap in Hpg as (b & -> & [_ Hbin]%list_elem_of_filter).
    apply list_elem_of_lookup in Hbin as [i Hib].
    destruct (lookup_lt_is_Some_2 rs2 i) as [r Hir].
    { rewrite <- (Forall3_length_lr _ _ _ _ HF2). by eapply lookup_lt_Some. }
    exists r. split; [by eapply list_elem_of_lookup_2|].
    destruct (Hi i b r Hib Hir) as [(Hni & _)|(_ & t & _ & [] & Ht)].
    { destruct Hni. apply elem_of_sortedPages. by eapply list_elem_of_lookup_2. }
    rewrite (reservedTarget_lookup _ _ _ _ Hk) in Ht. injection Ht as <-. lia.
Qed.

End RemapProofs.

(** * Edits of a list of placements *)

Lemma apart_intro ps :
  (forall i j p q, i <> j -> ps !! i = Some p -> ps !! j = Some q -> disj p q) -> apart ps.
Proof.
  induction ps as [|x ps IH]; intros H; [done|]. split.
  - apply Forall_lookup. intros i q Hi. by apply (H 0%nat (S i)).
  - apply IH. intros i j p q Hne Hi Hj. apply (H (S i) (S j)); [congruence|done..].
Qed.

Lemma apart_insert ps i p' :
  apart ps -> (forall j q, j <> i -> ps !! j = Some q -> disj p' q) -> apart (<[i := p']> ps).
Proof.
  intros Ha Hp. apply apart_intro. intros j k p q Hne Hj Hk.
  rewrite list_lookup_insert_Some in Hj, Hk.
  destruct Hj as [(<- & <- & _)|[Hj Hj']], Hk as [(<- & <- & _)|[Hk Hk']].
  - done.
  - by apply (Hp k).
  - apply disj_sym. by apply (Hp j).
  - by apply (apart_lookup ps j k).
Qed.

Lemma apart_sublist ps ps' : ps' `sublist_of` ps -> apart ps -> apart ps'.
Proof.
  induction 1 as [|p ps' ps Hs IH|p ps' ps Hs IH]; [done|..].
  - intros [Hp Ha]. split; [|by apply IH].
    rewrite Forall_forall in Hp |- *. intros q Hq. by eapply Hp, elem_of_sublist.
  - intros [_ Ha]. by apply IH.
Qed.

Lemma apart_fmap f ps :
  (forall p q, p ∈ ps -> q ∈ ps -> disj p q -> disj (f p) (f q)) -> apart ps -> apart (f <$> ps).
Proof.
  intros Hf. induction ps as [|x ps IH]; [done|]. intros [Hx Ha]. split.
  - apply Forall_fmap, Forall_forall. intros q Hq. cbn. apply Hf; [by left|by right|].
    rewrite Forall_forall in Hx. by apply Hx.
  - apply IH; [|done]. intros p q Hp Hq. apply Hf; by right.
Qed.

(** Moving whole pages, no two of them to one page. *)
Lemma apart_repage (g : Z -> Z) ps :
  (forall p q, p ∈ ps -> q ∈ ps -> g (page p) = g (page q) -> page p = page q) ->
  apart ps -> apart ((fun p => p <| page := g (page p) |>) <$> ps).
Proof.
  intros Hg. apply apart_fmap. intros p q Hp Hq Hd Hv1 Hv2 Hpq.
  apply Hd; [done..|]. by apply Hg.
Qed.

(** * [moveReservedPagesToTail] *)

Lemma NoDup_orderedPages reserved n : NoDup (orderedPages reserved n).
Proof.
  unfold orderedPages. apply NoDup_app. split_and!.
  - apply NoDup_filter, NoDup_seqZ.
  - intros x [? _]%list_elem_of_filter [? _]%list_elem_of_filter. done.
  - apply NoDup_filter, NoDup_seqZ.
Qed.

Lemma elem_of_orderedPages reserved n pg : pg ∈ orderedPages reserved n <-> 0 <= pg < n.
Proof.
  unfold orderedPages. rewrite elem_of_app, !list_elem_of_filter, elem_of_seqZ.
  destruct (decide (pg ∈ reserved)); intuition lia.
Qed.

Lemma orderedPages_length reserved n : 0 <= n -> blen (orderedPages reserved n) = n.
Proof.
  intros Hn. assert (E : orderedPages reserved n ≡ₚ seqZ 0 n).
  { apply NoDup_Permutation; [apply NoDup_orderedPages|apply NoDup_seqZ|].
    intros x. rewrite elem_of_orderedPages, elem_of_seqZ. lia. }
  unfold blen. rewrite E, length_seqZ. lia.
Qed.

Lemma remappedPages_spec reserved n pg i :
  remappedPages reserved n !! pg = Some i <->
  0 <= i /\ orderedPages reserved n !! Z.to_nat i = Some pg.
Proof.
  unfold remappedPages. rewrite <- elem_of_list_to_map; last first.
  { rewrite fst_zip by (rewrite length_seqZ; unfold blen; lia). apply NoDup_orderedPages. }
  rewrite list_elem_of_lookup. split.
  - intros (k & Hk%lookup_zip_with_Some). destruct Hk as (? & ? & [= <- <-] & Ho & Hs).
    apply lookup_seqZ in Hs as [-> ?]. rewrite Z.add_0_l, Nat2Z.id. split; [lia|done].
  - intros [Hi Ho]. exists (Z.to_nat i). apply lookup_zip_with_Some. exists pg, i.
    split; [done|]. split; [done|]. apply lookup_seqZ. apply lookup_lt_Some in Ho.
    unfold blen. lia.
Qed.

Lemma tailPage_in reserved n pg :
  0 <= pg < n ->
  orderedPages reserved n !! Z.to_nat (tailPage reserved n pg) = Some pg /\
  0 <= tailPage reserved n pg < n.
Proof.
  intros Hpg. unfold tailPage. destruct (remappedPages reserved n !! pg) as [i|] eqn:E; cbn.
  - apply remappedPages_spec in E as [? E]. split; [done|]. apply lookup_lt_Some in E.
    pose proof (orderedPages_length reserved n). unfold blen in *. lia.
  - exfalso. apply (elem_of_orderedPages reserved) in Hpg.
    apply list_elem_of_lookup in Hpg as [k Hk].
    assert (remappedPages reserved n !! pg = Some (Z.of_nat k)); [|congruence].
    apply remappedPages_spec. rewrite Nat2Z.id. split; [lia|done].
Qed.

Lemma tailPage_out reserved n pg : ~ (0 <= pg < n) -> tailPage reserved n pg = pg.
Proof.
  intros Hpg. unfold tailPage. destruct (remappedPages reserved n !! pg) as [i|] eqn:E; [|done].
  apply remappedPages_spec in E as [_ E]. apply list_elem_of_lookup_2 in E.
  by apply elem_of_orderedPages in E.
Qed.

Lemma tailPage_inj reserved n pg pg' : tailPage reserved n pg = tailPage reserved n pg' -> pg = pg'.
Proof.
  intros E. destruct (decide (0 <= pg < n)) as [H|H], (decide (0 <= pg' < n)) as [H'|H'].
  - destruct (tailPage_in reserved n pg H) as [E1 _].
    destruct (tailPage_in reserved n pg' H') as [E2 _]. rewrite E in E1. congruence.
  - destruct (tailPage_in reserved n pg H) as [_ ?]. rewrite (tailPage_out reserved n pg') in E by done. lia.
  - destruct (tailPage_in reserved n pg' H') as [_ ?]. rewrite (tailPage_out reserved n pg) in E by done. lia.
  - by rewrite !tailPage_out in E.
Qed.

(** The reserved pages come last. *)
Lemma tailPage_order reserved n pg pg' :
  0 <= pg < n -> 0 <= pg' < n -> pg ∉ reserved -> pg' ∈ reserved ->
  tailPage reserved n pg < tailPage reserved n pg'.
Proof.
  intros H H' Hn Hr. destruct (tailPage_in reserved n pg H) as [E1 ?].
  destruct (tailPage_in reserved n pg' H') as [E2 ?]. unfold orderedPages in E1, E2.
  apply lookup_app_Some in E1 as [E1|[_ E1]]; last first.
  { apply list_elem_of_lookup_2, list_elem_of_filter in E1. by destruct E1. }
  apply lookup_app_Some in E2 as [E2|[E2 _]].
  { apply list_elem_of_lookup_2, list_elem_of_filter in E2. by destruct E2. }
  apply lookup_lt_Some in E1. lia.
Qed.

Lemma requiredPageCount_spec ps n :
  requiredPageCount ps <= n <-> 1 <= n /\ Forall (fun p => page p < n) ps.
Proof.
  unfold requiredPageCount.
  assert (H : forall b, foldl (fun required p => Z.max required (page p + 1)) b ps <= n <->
                        b <= n /\ Forall (fun p => page p < n) ps).
  { induction ps as [|p ps IH]; intros b; cbn; [rewrite Forall_nil; tauto|].
    assert (page p + 1 <= n <-> page p < n) by lia.
    rewrite IH, Forall_cons, Z.max_lub_iff. tauto. }
  apply H.
Qed.

Lemma elem_of_reservedPages registry ps pg :
  pg ∈ reservedPages registry ps <-> exists p, p ∈ ps /\ page p = pg /\ isSingleton registry p = true.
Proof.
  unfold reservedPages. rewrite elem_of_list_to_set, list_elem_of_fmap. split.
  - intros (p & -> & [? ?]%list_elem_of_filter). by exists p.
  - intros (p & ? & <- & ?). exists p. split; [done|]. by apply list_elem_of_filter.
Qed.

(** The pages of the placements after the move. *)
Lemma moveReservedPagesToTail_spec registry ps n :
  exists g, (moveReservedPagesToTail registry ps n).1 = (fun p => p <| page := g (page p) |>) <$> ps /\
    (forall a b, g a = g b -> a = b) /\ (forall a, 0 <= a < n -> 0 <= g a < n) /\
    (forall a, ~ (0 <= a < n) -> g a = a).
Proof.
  unfold moveReservedPagesToTail.
  destruct ((n <? 2) || bool_decide (reservedPages registry ps = ∅)) eqn:E; cbn [fst].
  - exists (fun a => a). split; [|done]. rewrite <- (list_fmap_id ps) at 1.
    apply list_fmap_ext. intros _ p _. by destruct p.
  - exists (tailPage (reservedPages registry ps) n). split_and!; [done|..].
    + apply tailPage_inj.
    + intros a Ha. by apply tailPage_in.
    + intros a Ha. by apply tailPage_out.
Qed.

Lemma moveReservedPagesToTail_apart registry ps n :
  apart ps -> apart (moveReservedPagesToTail registry ps n).1.
Proof.
  destruct (moveReservedPagesToTail_spec registry ps n) as (g & -> & Hg & _).
  apply apart_repage. intros p q _ _. apply Hg.
Qed.

Lemma requiredPageCount_elem ps p : p ∈ ps -> page p + 1 <= requiredPageCount ps.
Proof.
  intros Hp. pose proof (proj1 (requiredPageCount_spec ps (requiredPageCount ps)) ltac:(lia)) as [_ HF].
  rewrite Forall_forall in HF. specialize (HF p Hp). cbn in HF. lia.
Qed.

Lemma requiredPageCount_pos (ps : list (GridPlacement V)) : 1 <= requiredPageCount ps.
Proof. by apply (requiredPageCount_spec ps (requiredPageCount ps)). Qed.

Lemma requiredPageCount_mono (ps qs : list (GridPlacement V)) :
  Forall2 (fun p q => page p <= page q) ps qs -> requiredPageCount ps <= requiredPageCount qs.
Proof.
  unfold requiredPageCount. intros H.
  cut (forall n, foldl (fun a p => Z.max a (page p + 1)) n ps <=
                 foldl (fun a p => Z.max a (page p + 1)) n qs); [intros E; apply E|].
  induction H as [|p q ps qs Hpq H IH]; intros n; cbn.
  - lia.
  - assert (Hm : forall l a b, a <= b -> foldl (fun n p => Z.max n (page p + 1)) a l <=
                                         foldl (fun n p => Z.max n (page (V:=V) p + 1)) b l).
    { clear. induction l as [|x l IH]; intros a b Hab; cbn; [done|]. apply IH. lia. }
    etransitivity; [apply IH|apply Hm; lia].
Qed.

(** Some page is reserved: the last page is one of them after the move. *)
Lemma moveReservedPagesToTail_last registry ps n p :
  2 <= n -> Forall (fun q => 0 <= page q < n) ps -> p ∈ ps -> isSingleton registry p = true ->
  n <= requiredPageCount (moveReservedPagesToTail registry ps n).1.
Proof.
  intros Hn HF Hp Hs. set (reserved := reservedPages registry ps).
  assert (Hpr : page p ∈ reserved) by (apply elem_of_reservedPages; eauto).
  assert (Hpg : 0 <= page p < n) by (rewrite Forall_forall in HF; by apply HF).
  assert (exists k pg, orderedPages reserved n !! k = Some pg /\ n = Z.of_nat k + 1 /\
                       pg ∈ reserved) as (k & pg & Hk & -> & Hpgr).
  { pose proof (orderedPages_length reserved n ltac:(lia)) as Hlen. revert Hlen.
    unfold orderedPages.
    destruct (filter (fun pg => pg ∈ reserved) (seqZ 0 n)) as [|x l] eqn:E using rev_ind.
    - intros _. exfalso. eapply not_elem_of_nil. rewrite <- E.
      apply list_elem_of_filter. split; [exact Hpr|]. by apply elem_of_seqZ.
    - intros Hlen. rewrite app_assoc in *. eexists _, x. split.
      + apply list_lookup_middle. reflexivity.
      + rewrite blen_app in Hlen. unfold blen in Hlen. cbn in Hlen. split; [lia|].
        assert (Hx : x ∈ l ++ [x]) by set_solver. rewrite <- E in Hx.
        by apply list_elem_of_filter in Hx as [? _]. }
  apply elem_of_reservedPages in Hpgr as (q & Hq & <- & Hqs).
  transitivity (tailPage reserved (Z.of_nat k + 1) (page q) + 1).
  { unfold tailPage. rewrite (proj2 (remappedPages_spec _ _ _ (Z.of_nat k))); [cbn; lia|].
    rewrite Nat2Z.id. split; [lia|done]. }
  unfold moveReservedPagesToTail. fold reserved.
  rewrite (proj2 (Z.ltb_ge _ 2) Hn), bool_decide_eq_false_2 by set_solver. cbn [orb fst].
  set (move := fun q : GridPlacement V => q <| page := tailPage reserved (Z.of_nat k + 1) (page q) |>).
  change (page (move q) + 1 <= requiredPageCount (move <$> ps)).
  apply requiredPageCount_elem. by apply list_elem_of_fmap_2.
Qed.
End Proofs.

End GridRemap.

(** * Properties *)

Import GridRemap.

(** C25. The remap to a new grid: no two visible widgets share a cell; every
    widget keeps its identity, its place in the list, its settings and as much
    of its span as fits; it is hidden exactly when the grid is below its
    minimum size and lies inside the grid otherwise; no widget moves to an
    earlier page; and the pages reserved for singleton widgets come after all
    the others. A hundred spill attempts are enough for a hundred placements. *)
Theorem remap_sound `{!Variant V} (registry : option (WidgetRegistry V))
    savedCols savedRows newCols newRows bases basePageCount :
  0 <= savedCols -> 0 <= savedRows -> 0 <= newCols -> 0 <= newRows ->
  Forall placeable bases -> (length bases <= 100)%nat ->
  let rs := remapAll registry savedCols savedRows newCols newRows bases basePageCount in
  let reserved := reservedPages registry bases in
  (forall i j p q, i <> j -> rs !! i = Some p -> rs !! j = Some q ->
     visible p = true -> visible q = true -> page p = page q ->
     forall c r, covers p c r -> covers q c r -> False) /\
  Forall2 (fun b p =>
    sameWidget b p /\
    visible p = negb (tooLarge newCols newRows (descriptor registry (widgetId b))) /\
    (visible p = true -> inGrid newCols newRows p /\
       colSpan p = Z.min (colSpan b) newCols /\ rowSpan p = Z.min (rowSpan b) newRows) /\
    (page b ∉ reserved -> page b <= page p)) bases rs /\
  (forall i j bi bj ri rj, bases !! i = Some bi -> bases !! j = Some bj ->
     rs !! i = Some ri -> rs !! j = Some rj ->
     page bi ∉ reserved -> page bj ∈ reserved -> page ri < page rj).
Proof.
  intros Hsc Hsr Hnc Hnr Hb Hn rs reserved.
  destruct (remapAll_spec registry savedCols savedRows newCols newRows (conj Hsc Hsr)
    (conj Hnc Hnr) bases basePageCount Hb Hn) as (Ha & HF & Ho & _).
  split_and!; [|eapply Forall2_impl; [exact HF|]|exact Ho].
  - intros i j p q Hne Hp Hq. by apply (apart_lookup rs i j p q).
  - intros b p (pg & [] & Hpg). split_and!; auto. intros Hin. by rewrite <- (Hpg Hin).
Qed.

Definition sample_placement (i : string) (c r cs rs pg : Z) : GridPlacement SampleVariant :=
  mkPlacement i "clock" c r cs rs dbl_quarter pg true ∅.

(** From a 6 by 4 grid to a 3 by 2 one: the second widget is nudged, the
    third one spills to the next page. *)
Definition sample_bases : list (GridPlacement SampleVariant) :=
  [sample_placement "a" 0 0 2 2 0; sample_placement "b" 2 0 1 1 0;
   sample_placement "c" 4 2 2 2 0].

Example remap_sample :
  (fun p => (col p, row p, page p)) <$> remapAll sample_registry 6 4 3 2 sample_bases 2 =
  [(0, 0, 0); (2, 0, 0); (0, 0, 1)].
Proof. vm_compute. reflexivity. Qed.

Lemma remap_sound_witness :
  Forall2 (fun b p =>
    sameWidget b p /\
    visible p = negb (tooLarge 3 2 (descriptor sample_registry (widgetId b))) /\
    (visible p = true -> inGrid 3 2 p /\
       colSpan p = Z.min (colSpan b) 3 /\ rowSpan p = Z.min (rowSpan b) 2) /\
    (page b ∉ reservedPages sample_registry sample_bases -> page b <= page p))
    sample_bases (remapAll sample_registry 6 4 3 2 sample_bases 2).
Proof.
  refine (proj1 (proj2 (remap_sound sample_registry 6 4 3 2 sample_bases 2 _ _ _ _ _ _)));
    [lia..| |cbn; lia].
  unfold sample_bases. repeat constructor; done.
Defined.

(** C30. Moving the reserved pages to the end permutes the pages: placements
    on one page stay together and apart from the others, every page stays in
    range, and a page without a singleton widget comes before a page with one. *)
Theorem reserved_pages_last `{!Variant V} (registry : option (WidgetRegistry V)) ps n p q p' q' i j :
  2 <= n -> Forall (fun p => 0 <= page p < n) ps ->
  ps !! i = Some p -> ps !! j = Some q ->
  (moveReservedPagesToTail registry ps n).1 !! i = Some p' ->
  (moveReservedPagesToTail registry ps n).1 !! j = Some q' ->
  (page p' = page q' <-> page p = page q) /\ 0 <= page p' < n /\
  (page p ∉ reservedPages registry ps -> page q ∈ reservedPages registry ps ->
   page p' < page q').
Proof.
  intros Hn HF Hi Hj. pose proof (Forall_lookup_1 _ _ _ _ HF Hi) as Hp.
  pose proof (Forall_lookup_1 _ _ _ _ HF Hj) as Hq. cbn beta in Hp, Hq.
  unfold moveReservedPagesToTail. rewrite (proj2 (Z.ltb_ge n 2) Hn). cbn [orb].
  case_bool_decide as E; cbn [fst]; intros Hi' Hj'.
  - simplify_eq. rewrite E. split; [done|]. split; [done|]. set_solver.
  - rewrite list_lookup_fmap in Hi', Hj'. rewrite Hi in Hi'. rewrite Hj in Hj'.
    injection Hi' as <-. injection Hj' as <-. cbn. split_and!.
    + split; [apply tailPage_inj|by intros ->].
    + by apply tailPage_in.
    + by apply tailPage_in.
    + by apply tailPage_order.
Qed.

(** Two pages, the singleton on the first one: it moves to the second. *)
Definition sample_launcher_registry : option (WidgetRegistry SampleVariant) :=
  Some {["launcher"%string :=
    mkDescriptor "launcher" "" "" "" "" "" "" Widget ∅ [] 1 1 6 4 1 1 true]}.

Definition sample_launcher (pg : Z) : GridPlacement SampleVariant :=
  mkPlacement "l" "launcher" 0 0 1 1 dbl_quarter pg true ∅.

Lemma reserved_pages_last_witness :
  (moveReservedPagesToTail sample_launcher_registry
     [sample_launcher 0; sample_placement "a" 0 0 1 1 1] 2).1 =
    [sample_launcher 1; sample_placement "a" 0 0 1 1 0] /\ 0 < 1.
Proof.
  assert (E : (moveReservedPagesToTail sample_launcher_registry
     [sample_launcher 0; sample_placement "a" 0 0 1 1 1] 2).1 =
    [sample_launcher 1; sample_placement "a" 0 0 1 1 0]) by (vm_compute; reflexivity).
  split; [exact E|].
  refine (proj2 (proj2 (reserved_pages_last sample_launcher_registry
    [sample_launcher 0; sample_placement "a" 0 0 1 1 1] 2
    (sample_placement "a" 0 0 1 1 1) (sample_launcher 0)
    (sample_placement "a" 0 0 1 1 0) (sample_launcher 1) 1 0 _ _ eq_refl eq_refl _ _)) _ _).
  - done.
  - repeat constructor; cbn; lia.
  - by rewrite E.
  - by rewrite E.
  - by vm_compute.
  - vm_compute. done.
Defined.
