(* ===== verification/WidgetGrid.v ===== *)
(** The widget grid of a dashboard: placing, moving, resizing and removing
    widgets, their configuration, the pages, and the switch to another grid
    size, deferred while a widget is selected.

    Source: src/ui/WidgetGridModel. The signals and the notifications of
    [QAbstractListModel] are collected in [emitted], in their order; a slot
    connected to one of them runs between two steps of this model. *)

From stdpp Require Import sorting.
From S2P Require Import Prelude WidgetTypes GridRemap.

Import GridRemap.

Inductive Roles :=
  WidgetIdRole | InstanceIdRole | ColumnRole | RowRole | ColSpanRole | RowSpanRole
| OpacityRole | QmlComponentRole | VisibleRole | MinColsRole | MinRowsRole
| MaxColsRole | MaxRowsRole | DefaultColsRole | DefaultRowsRole | PageRole
| SingletonRole | ConfigRole | HasConfigSchemaRole | DisplayNameRole | IconNameRole.

Module WidgetGridModel.

Section WidgetGridModel.
Context {V : Type} `{!Variant V}.
Implicit Types (p : GridPlacement V).

Inductive Signal :=
| gridDimensionsChanged | placementsChanged | activePageChanged | pageCountChanged
| baselineChanged | widgetConfigChanged (instanceId : string) (effective : gmap string V)
| widgetDeselectedFromCpp
| rowsInserted (first : nat) | rowsRemoved (first : nat)
| dataChanged (row : nat) (roles : list Roles) | modelReset.

Record t := mk {
  registry_ : option (WidgetRegistry V);
  livePlacements_ : list (GridPlacement V);
  basePlacements_ : list (GridPlacement V);
  occupancy_ : list string;
  cols_ : Z;
  rows_ : Z;
  savedCols_ : Z;
  savedRows_ : Z;
  nextInstanceId_ : Z;
  activePage_ : Z;
  pageCount_ : Z;
  basePageCount_ : Z;
  widgetSelected_ : bool;
  remapPending_ : bool;
  pendingCols_ : Z;
  pendingRows_ : Z;
  emitted : list Signal
}.

#[global] Instance t_settable : Settable t := {| eta_record m :=
  mk (registry_ m) (livePlacements_ m) (basePlacements_ m) (occupancy_ m) (cols_ m)
     (rows_ m) (savedCols_ m) (savedRows_ m) (nextInstanceId_ m) (activePage_ m)
     (pageCount_ m) (basePageCount_ m) (widgetSelected_ m) (remapPending_ m)
     (pendingCols_ m) (pendingRows_ m) (emitted m) |}.

Definition create (registry : option (WidgetRegistry V)) : t :=
  mk registry [] [] [] 0 0 0 0 0 0 2 2 false false 0 0 [].

Definition emit (s : Signal) (m : t) : t := m <| emitted ::= fun l => l ++ [s] |>.

(** * Queries *)

Definition rowCount (m : t) : Z := blen (livePlacements_ m).

(** The values a role yields. *)
Inductive RoleValue :=
| VString (s : string) | VInt (z : Z) | VDouble (d : double) | VBool (b : bool)
| VConfig (c : gmap string V) | VNone.

(** What a role takes from the widget's descriptor, if there is one. *)
Definition fromDescriptor (m : t) (wid : string)
    (get : WidgetDescriptor V -> RoleValue) (missing : RoleValue) : RoleValue :=
  match descriptor (registry_ m) wid with Some d => get d | None => missing end.

Definition data (m : t) (row : nat) (role : Roles) : RoleValue :=
  match livePlacements_ m !! row with
  | None => VNone
  | Some p =>
      let fromDescriptor := fromDescriptor m (widgetId p) in
      match role with
      | WidgetIdRole => VString (widgetId p)
      | InstanceIdRole => VString (instanceId p)
      | ColumnRole => VInt (col p)
      | RowRole => VInt (WidgetTypes.row p)
      | ColSpanRole => VInt (colSpan p)
      | RowSpanRole => VInt (rowSpan p)
      | OpacityRole => VDouble (opacity p)
      | VisibleRole => VBool (visible p)
      | PageRole => VInt (page p)
      | SingletonRole => fromDescriptor (fun d => VBool (singleton d)) (VBool false)
      | ConfigRole => VConfig (config p)
      | HasConfigSchemaRole =>
          fromDescriptor (fun d => VBool (negb (bool_decide (length (configSchema d) = 0%nat))))
                         (VBool false)
      | DisplayNameRole => fromDescriptor (fun d => VString (displayName d)) VNone
      | IconNameRole => fromDescriptor (fun d => VString (iconName d)) VNone
      | QmlComponentRole => fromDescriptor (fun d => VString (qmlComponent d)) VNone
      | MinColsRole => fromDescriptor (fun d => VInt (minCols d)) (VInt 1)
      | MinRowsRole => fromDescriptor (fun d => VInt (minRows d)) (VInt 1)
      | MaxColsRole => fromDescriptor (fun d => VInt (maxCols d)) (VInt 6)
      | MaxRowsRole => fromDescriptor (fun d => VInt (maxRows d)) (VInt 4)
      | DefaultColsRole => fromDescriptor (fun d => VInt (defaultCols d)) (VInt 1)
      | DefaultRowsRole => fromDescriptor (fun d => VInt (defaultRows d)) (VInt 1)
      end
  end.

(** The first placement with the id, with its index. *)
Definition findPlacement (m : t) (iid : string) : option (nat * GridPlacement V) :=
  list_find (fun p => instanceId p = iid) (livePlacements_ m).

(** The code's test of two rectangles. *)
Definition rectsOverlap (c r cs rs : Z) p : bool :=
  (c <? col p + colSpan p) && (col p <? c + cs) &&
  (r <? row p + rowSpan p) && (row p <? r + rs).

Definition canPlaceOnPage (m : t) (c r cs rs pg : Z) (exclude : string) : bool :=
  if (c <? 0) || (r <? 0) then false
  else if (cols_ m <? c + cs) || (rows_ m <? r + rs) then false
  else forallb (fun p =>
         if negb (page p =? pg) || negb (visible p) then true
         else if negb (bool_decide (exclude = ""%string)) &&
                 bool_decide (instanceId p = exclude) then true
         else negb (rectsOverlap c r cs rs p)) (livePlacements_ m).

Definition canPlace (m : t) (c r cs rs : Z) (exclude : string) : bool :=
  canPlaceOnPage m c r cs rs (activePage_ m) exclude.

(** Row by row from the top left; (-1, -1) when there is no place. *)
Definition findFirstAvailableCell (m : t) (cs rs : Z) : Z * Z :=
  default (-1, -1)
    (List.find (fun '(c, r) => canPlace m c r cs rs ""%string)
       (r ← seqZ 0 (rows_ m - rs + 1); (fun c => (c, r)) <$> seqZ 0 (cols_ m - cs + 1))).

Definition pageHasSingleton (m : t) (pg : Z) : bool :=
  existsb (fun p => (page p =? pg) && isSingleton (registry_ m) p) (livePlacements_ m).

Definition isReservedPage := pageHasSingleton.

Definition widgetCountOnPage (m : t) (pg : Z) : Z :=
  blen (filter (fun p => page p = pg /\ visible p = true) (livePlacements_ m)).

Definition totalWidgetCountOnPage (m : t) (pg : Z) : Z :=
  blen (filter (fun p => page p = pg) (livePlacements_ m)).

Definition widgetConfig (m : t) (iid : string) : gmap string V :=
  match findPlacement m iid with Some (_, p) => config p | None => ∅ end.

Definition effectiveWidgetConfig (m : t) (iid : string) : gmap string V :=
  match findPlacement m iid with
  | Some (_, p) => effectiveConfig (registry_ m) (widgetId p) (config p)
  | None => ∅
  end.

(** [widgetMeta]: the ids, and the descriptor's part when it is known. *)
Definition widgetMeta (m : t) (iid : string)
    : option (string * string * option (string * string * bool * bool)) :=
  match findPlacement m iid with
  | Some (_, p) =>
      Some (widgetId p, instanceId p,
            (fun d => (displayName d, iconName d,
                       negb (bool_decide (length (configSchema d) = 0%nat)), singleton d))
              <$> descriptor (registry_ m) (widgetId p))
  | None => None
  end.

Definition cellOwner (m : t) (c r : Z) : string :=
  if (c <? 0) || (cols_ m <=? c) || (r <? 0) || (rows_ m <=? r) then ""%string
  else occAt (occupancy_ m) (cols_ m) c r.

(** * Occupancy *)

Definition clearOccupancy (m : t) : t :=
  m <| occupancy_ := emptyOccupancy (cols_ m) (rows_ m) |>.

Definition markOccupied p (m : t) : t :=
  m <| occupancy_ ::= markPlacement (cols_ m) (rows_ m) p |>.

Definition rebuildOccupancy (m : t) : t :=
  foldl (fun m p => if visible p && (page p =? activePage_ m) then markOccupied p m else m)
    (clearOccupancy m) (livePlacements_ m).

(** * Page count *)

Definition setCurrentPageCount (count : Z) (m : t) : t :=
  let count := Z.max 1 count in
  let pageCountChangedValue := negb (pageCount_ m =? count) in
  let m := m <| pageCount_ := count |> in
  let clamped := qBound 0 (activePage_ m) (pageCount_ m - 1) in
  let activePageChangedValue := negb (activePage_ m =? clamped) in
  let m := m <| activePage_ := clamped |> in
  let m := if activePageChangedValue then rebuildOccupancy m else m in
  let m := if pageCountChangedValue then emit pageCountChanged m else m in
  if activePageChangedValue then emit activePageChanged m else m.

(** * Baseline and remap *)

Definition adoptLiveAsBaseline (m : t) : t :=
  m <| basePlacements_ := livePlacements_ m |> <| basePageCount_ := pageCount_ m |>
    <| savedCols_ := cols_ m |> <| savedRows_ := rows_ m |>.

Definition promoteToBase (m : t) : t := emit baselineChanged (adoptLiveAsBaseline m).

(** The identity copy from the baseline. *)
Definition restoreBase (m : t) : t :=
  setCurrentPageCount (basePageCount_ m)
    (emit modelReset (m <| livePlacements_ := basePlacements_ m |>)).

Definition remapPlacements (newCols newRows : Z) (m : t) : t :=
  let result := remapAll (registry_ m) (savedCols_ m) (savedRows_ m) newCols newRows
                  (basePlacements_ m) (basePageCount_ m) in
  let m := emit modelReset (m <| livePlacements_ := result |>) in
  setCurrentPageCount (Z.max (basePageCount_ m) (requiredPageCount (livePlacements_ m))) m.

(** No baseline yet: nothing loaded and no dimensions saved. *)
Definition uninitialised (m : t) : bool :=
  bool_decide (length (basePlacements_ m) = 0%nat) && (savedCols_ m =? 0).

Definition applyPendingRemap (m : t) : t :=
  if negb (remapPending_ m) then m
  else
    let m := m <| remapPending_ := false |> in
    if uninitialised m then m
    else
      let m :=
        if savedCols_ m =? 0
        then restoreBase (m <| savedCols_ := cols_ m |> <| savedRows_ := rows_ m |>)
        else if (cols_ m =? savedCols_ m) && (rows_ m =? savedRows_ m)
        then restoreBase m
        else remapPlacements (cols_ m) (rows_ m) m in
      emit placementsChanged (rebuildOccupancy m).

Definition setGridDimensions (cols rows : Z) (m : t) : t :=
  if (cols =? cols_ m) && (rows =? rows_ m) then m
  else if widgetSelected_ m then
    emit gridDimensionsChanged
      (m <| pendingCols_ := cols |> <| pendingRows_ := rows |> <| remapPending_ := true |>
         <| cols_ := cols |> <| rows_ := rows |>)
  else
    let m := m <| cols_ := cols |> <| rows_ := rows |> in
    if uninitialised m then emit gridDimensionsChanged (clearOccupancy m)
    else if savedCols_ m =? 0 then
      emit placementsChanged (emit gridDimensionsChanged (rebuildOccupancy
        (restoreBase (m <| savedCols_ := cols |> <| savedRows_ := rows |>))))
    else if (cols =? savedCols_ m) && (rows =? savedRows_ m) then
      emit placementsChanged (emit gridDimensionsChanged (rebuildOccupancy (restoreBase m)))
    else
      emit modelReset (emit placementsChanged (emit gridDimensionsChanged
        (rebuildOccupancy (remapPlacements cols rows m)))).

Definition setWidgetSelected (selected : bool) (m : t) : t :=
  if bool_decide (widgetSelected_ m = selected) then m
  else
    let m := m <| widgetSelected_ := selected |> in
    if selected then m else applyPendingRemap (emit widgetDeselectedFromCpp m).

Definition setSavedDimensions (cols rows : Z) (m : t) : t :=
  m <| savedCols_ := cols |> <| savedRows_ := rows |>.

Definition setNextInstanceId (n : Z) (m : t) : t := m <| nextInstanceId_ := n |>.

(** * Edits *)

(** [livePlacements_[idx] = f(livePlacements_[idx])] *)
Definition alterLive (idx : nat) (f : GridPlacement V -> GridPlacement V) (m : t) : t :=
  m <| livePlacements_ ::= alter f idx |>.

(** The tail of every edit. *)
Definition edited (m : t) : t := emit placementsChanged (promoteToBase m).

Definition newInstanceId (wid : string) (n : Z) : string := wid +:+ "-" +:+ pretty n.

Definition placeWidget (wid : string) (c r cs rs : Z) (m : t) : t * bool :=
  let m := applyPendingRemap m in
  if decide (wid = ""%string) then (m, false)
  else if negb (canPlace m c r cs rs ""%string) then (m, false)
  else
    let p := mkPlacement (newInstanceId wid (nextInstanceId_ m)) wid c r cs rs
               dbl_quarter (activePage_ m) true ∅ in
    let m := m <| nextInstanceId_ ::= Z.succ |> in
    let row := length (livePlacements_ m) in
    let m := emit (rowsInserted row)
               (markOccupied p (m <| livePlacements_ ::= fun l => l ++ [p] |>)) in
    let m := if pageCount_ m <? requiredPageCount (livePlacements_ m)
             then setCurrentPageCount (requiredPageCount (livePlacements_ m)) m else m in
    (edited m, true).


(** Outside the limits of the widget's descriptor. *)
Definition spanRejected (m : t) (wid : string) (cs rs : Z) : bool :=
  match descriptor (registry_ m) wid with
  | Some d => (cs <? minCols d) || (maxCols d <? cs) || (rs <? minRows d) || (maxRows d <? rs)
  | None => false
  end.


Definition resizeWidgetFromEdge (iid : string) (c r cs rs : Z) (m : t) : t * bool :=
  let m := applyPendingRemap m in
  match findPlacement m iid with
  | None => (m, false)
  | Some (idx, p) =>
      if (c <? 0) || (r <? 0) then (m, false)
      else if (cols_ m <? c + cs) || (rows_ m <? r + rs) then (m, false)
      else if (cs <? 1) || (rs <? 1) then (m, false)
      else if spanRejected m (widgetId p) cs rs then (m, false)
      else if negb (canPlaceOnPage m c r cs rs (page p) iid) then (m, false)
      else
        let m := rebuildOccupancy
                   (alterLive idx (fun p => p <| col := c |> <| row := r |>
                                              <| colSpan := cs |> <| rowSpan := rs |>) m) in
        (edited (emit (dataChanged idx [ColumnRole; RowRole; ColSpanRole; RowSpanRole]) m), true)
  end.

Definition removeWidget (iid : string) (m : t) : t :=
  let m := applyPendingRemap m in
  match findPlacement m iid with
  | None => m
  | Some (idx, p) =>
      if isSingleton (registry_ m) p then m
      else edited (rebuildOccupancy
             (emit (rowsRemoved idx) (m <| livePlacements_ ::= delete idx |>)))
  end.




(** * Pages *)




Definition shiftDown (from pg : Z) : Z := if from <? pg then pg - 1 else pg.

Definition repage (g : Z -> Z) : list (GridPlacement V) -> list (GridPlacement V) :=
  fmap (fun p => p <| page := g (page p) |>).


Definition dropPage (pg : Z) : list (GridPlacement V) -> list (GridPlacement V) :=
  filter (fun p => page p <> pg).

Definition removePage (pg : Z) (m : t) : t * bool :=
  let m := applyPendingRemap m in
  if (pg <=? 0) || (pageCount_ m <=? pg) then (m, false)
  else if pageHasSingleton m pg then (m, false)
  else
    let m := emit modelReset
               (m <| livePlacements_ ::= fun l => repage (shiftDown pg) (dropPage pg l) |>) in
    let m := m <| pageCount_ ::= Z.pred |> in
    let m := if pageCount_ m <=? activePage_ m
             then emit activePageChanged (m <| activePage_ := pageCount_ m - 1 |>) else m in
    let m := promoteToBase (rebuildOccupancy m) in
    (emit placementsChanged (emit pageCountChanged m), true).

Definition removeAllWidgetsOnPage (pg : Z) (m : t) : t :=
  let m := applyPendingRemap m in
  let m := emit modelReset (m <| livePlacements_ ::= dropPage pg |>) in
  edited (rebuildOccupancy m).

(** * Loading *)

Definition setPlacements (ps : list (GridPlacement V)) (reg : option (WidgetRegistry V))
    (m : t) : t :=
  let m := match reg with Some _ => m <| registry_ := reg |> | None => m end in
  let ps := (fun p => p <| page := Z.max 0 (page p) |>) <$> ps in
  let ps := match registry_ m with
            | Some _ => (fun p =>
                if decide (config p = ∅) then p
                else p <| config := validateConfig (registry_ m) (widgetId p) (config p) |>) <$> ps
            | None => ps
            end in
  let adoptedPageCount := Z.max (pageCount_ m) (requiredPageCount ps) in
  let ps := (moveReservedPagesToTail (registry_ m) ps adoptedPageCount).1 in
  let m := emit modelReset (m <| livePlacements_ := ps |> <| basePlacements_ := ps |>) in
  let m := m <| basePageCount_ := adoptedPageCount |> in
  emit placementsChanged (rebuildOccupancy (setCurrentPageCount adoptedPageCount m)).

End WidgetGridModel.

(** * Instance ids *)




Lemma list_ascii_app s s' :
  String.list_ascii_of_string (s +:+ s') =
  String.list_ascii_of_string s ++ String.list_ascii_of_string s'.
Proof. induction s as [|c s IH]; [done|]. exact (f_equal (cons c) IH). Qed.






Section Proofs.
Context {V : Type} `{!Variant V}.
Implicit Types (p q : GridPlacement V) (m : @t V).

(** * Occupancy as a function of the placements *)

Definition occ_of (cols rows pg : Z) (ps : list (GridPlacement V)) : list string :=
  foldl (fun o p => if visible p && (page p =? pg) then markPlacement cols rows p o else o)
    (emptyOccupancy cols rows) ps.

Lemma rebuildOccupancy_eq m :
  rebuildOccupancy m =
  m <| occupancy_ := occ_of (cols_ m) (rows_ m) (activePage_ m) (livePlacements_ m) |>.
Proof.
  unfold rebuildOccupancy, occ_of, clearOccupancy.
  generalize (emptyOccupancy (cols_ m) (rows_ m)) as o.
  induction (livePlacements_ m) as [|p ps IH] in |- *; intros o; [done|]. cbn [foldl].
  cbn -[markPlacement]. destruct (visible p && (page p =? activePage_ m)); apply IH.
Qed.




(** The placements that are apart each own their cells. *)
Lemma occ_of_spec cols rows pg ps c r :
  0 <= c < cols -> 0 <= r < rows -> Forall placeable ps -> apart ps ->
  length (occ_of cols rows pg ps) = Z.to_nat (cols * rows) /\
  ((exists p, p ∈ ps /\ visible p = true /\ page p = pg /\ covers p c r /\
     occAt (occ_of cols rows pg ps) cols c r = instanceId p) \/
   ((forall p, p ∈ ps -> visible p = true -> page p = pg -> ~ covers p c r) /\
    occAt (occ_of cols rows pg ps) cols c r = ""%string)).
Proof.
  intros Hc Hr Hp Ha. unfold occ_of. induction ps as [|p ps IH] using rev_ind.
  { cbn. split; [apply length_replicate|]. right. rewrite occAt_empty. split; [|done]. set_solver. }
  apply Forall_app in Hp as [Hp Hq]. apply Forall_singleton in Hq as (_ & ? & ? & _).
  apply apart_app in Ha as (Ha & _ & Hd). destruct (IH Hp Ha) as [Hl IH']. clear IH.
  rewrite foldl_app. cbn [foldl]. set (o := foldl _ _ ps) in *.
  destruct (visible p && (page p =? pg)) eqn:E.
  - apply andb_prop in E as [Hv Hpg%Z.eqb_eq].
    destruct (occAt_markPlacement cols rows p o c r) as [Hin Hout]; [done..|].
    split; [by unfold markPlacement; rewrite markCells_length|].
    destruct (decide ((c, r) ∈ cellsOf p)) as [Hcv|Hcv]; rewrite elem_of_cellsOf in Hcv.
    + left. exists p. split_and!; auto. apply elem_of_app. right. by left.
    + rewrite (Hout Hcv). destruct IH' as [(q & ? & ? & ? & ? & ?)|[Hno ?]].
      * left. exists q. split_and!; auto. apply elem_of_app. by left.
      * right. split; [|done]. intros q [Hq| ->%list_elem_of_singleton]%elem_of_app; auto.
  - split; [done|]. destruct IH' as [(q & ? & ? & ? & ? & ?)|[Hno ?]].
    + left. exists q. split_and!; auto. apply elem_of_app. by left.
    + right. split; [|done]. intros q [Hq| ->%list_elem_of_singleton]%elem_of_app; [auto|].
      intros Hv Hpg. rewrite Hv, Hpg, Z.eqb_refl in E. done.
Qed.

(** * The invariant *)

Definition onGrid (cols rows : Z) (ps : list (GridPlacement V)) : Prop :=
  Forall (fun p => visible p = true -> inGrid cols rows p) ps.

Definition pagesBelow (n : Z) (ps : list (GridPlacement V)) : Prop :=
  Forall (fun p => page p < n) ps.

Definition ids (ps : list (GridPlacement V)) : list string := instanceId <$> ps.

#[local] Arguments ids _ : simpl never.

Record wf m : Prop := {
  wf_placeable : Forall placeable (livePlacements_ m);
  wf_apart : apart (livePlacements_ m);
  wf_onGrid : remapPending_ m = false -> onGrid (cols_ m) (rows_ m) (livePlacements_ m);
  wf_ids : NoDup (ids (livePlacements_ m));
  wf_fresh : forall w n, nextInstanceId_ m <= n -> newInstanceId w n ∉ ids (livePlacements_ m);
  wf_next : 0 <= nextInstanceId_ m;
  wf_few : (length (livePlacements_ m) <= 100)%nat;
  wf_dims : 0 < cols_ m /\ 0 < rows_ m;
  wf_active : 0 <= activePage_ m < pageCount_ m;
  wf_pages : pagesBelow (pageCount_ m) (livePlacements_ m);
  wf_base_placeable : Forall placeable (basePlacements_ m);
  wf_base_apart : apart (basePlacements_ m);
  wf_base_onGrid : onGrid (savedCols_ m) (savedRows_ m) (basePlacements_ m);
  wf_base_same : Forall2 sameWidget (basePlacements_ m) (livePlacements_ m);
  wf_base_dims : 0 < savedCols_ m /\ 0 < savedRows_ m;
  wf_base_count : 1 <= basePageCount_ m;
  wf_base_pages : pagesBelow (basePageCount_ m) (basePlacements_ m);
  wf_base_required : requiredPageCount (basePlacements_ m) <= requiredPageCount (livePlacements_ m);
  wf_occupancy : remapPending_ m = false ->
    occupancy_ m = occ_of (cols_ m) (rows_ m) (activePage_ m) (livePlacements_ m)
}.

(** [setCurrentPageCount] but for the signals. *)
Lemma setCurrentPageCount_eq count m :
  exists sigs, setCurrentPageCount count m =
    m <| pageCount_ := Z.max 1 count |>
      <| activePage_ := qBound 0 (activePage_ m) (Z.max 1 count - 1) |>
      <| occupancy_ :=
           if activePage_ m =? qBound 0 (activePage_ m) (Z.max 1 count - 1) then occupancy_ m
           else occ_of (cols_ m) (rows_ m) (qBound 0 (activePage_ m) (Z.max 1 count - 1))
                  (livePlacements_ m) |>
      <| emitted ::= fun l => l ++ sigs |>.
Proof.
  unfold setCurrentPageCount. rewrite rebuildOccupancy_eq. cbn -[Z.max qBound Z.eqb].
  destruct (pageCount_ m =? _), (activePage_ m =? _) eqn:E; cbn -[Z.max qBound Z.eqb];
    [exists []|exists [activePageChanged]|exists [pageCountChanged]
    |exists [pageCountChanged; activePageChanged]];
    destruct m; cbn in *; rewrite ?app_nil_r, <- ?app_assoc; try done.
Qed.

(** * Lemmas on lists of placements *)

Lemma ids_same (ps qs : list (GridPlacement V)) : Forall2 sameWidget ps qs -> ids ps = ids qs.
Proof.
  induction 1 as [|p q ps qs (E & _) _ IH]; [done|]. exact (f_equal2 cons (eq_sym E) IH).
Qed.

Lemma sameWidget_refl p : sameWidget p p.
Proof. by repeat split. Qed.

Lemma sameWidget_list_refl (ps : list (GridPlacement V)) : Forall2 sameWidget ps ps.
Proof. induction ps; constructor; auto using sameWidget_refl. Qed.

Lemma sameWidget_list_trans (ps qs rs : list (GridPlacement V)) :
  Forall2 sameWidget ps qs -> Forall2 sameWidget ps rs -> Forall2 sameWidget rs qs.
Proof.
  intros H. revert rs. induction H as [|p q ps qs Hpq H IH]; intros rs Hrs.
  - by apply Forall2_nil_inv_l in Hrs as ->.
  - apply Forall2_cons_inv_l in Hrs as (r & rs' & Hpr & Hrs & ->). constructor; [|by apply IH].
    destruct Hpq as (? & ? & ? & ?), Hpr as (? & ? & ? & ?). unfold sameWidget. intuition congruence.
Qed.

Lemma pagesBelow_required n (ps : list (GridPlacement V)) : 1 <= n -> pagesBelow n ps <-> requiredPageCount ps <= n.
Proof. intros Hn. rewrite requiredPageCount_spec. unfold pagesBelow. tauto. Qed.






Lemma repage_id (ps : list (GridPlacement V)) : repage (fun a => a) ps = ps.
Proof.
  unfold repage. rewrite <- (list_fmap_id ps) at 2. apply list_fmap_ext.
  intros _ p _. by destruct p.
Qed.

(** * The live half of the invariant *)





Lemma wf_emit s m : wf (emit s m) <-> wf m.
Proof. split; intros []; split; auto. Qed.





Lemma qBound_page a n : 1 <= n -> 0 <= qBound 0 a (n - 1) < n.
Proof. unfold qBound. lia. Qed.

(** * Laying the widgets out anew *)

(** New live placements of the widgets of the baseline. *)
Lemma relaid_wf m m1 ps count b cols rows :
  wf m -> m1 = m <| remapPending_ := b |> <| cols_ := cols |> <| rows_ := rows |> ->
  0 < cols -> 0 < rows ->
  Forall placeable ps -> apart ps -> onGrid cols rows ps ->
  Forall2 sameWidget (basePlacements_ m) ps ->
  requiredPageCount (basePlacements_ m) <= requiredPageCount ps <= count ->
  wf (rebuildOccupancy (setCurrentPageCount count
        (emit modelReset (m1 <| livePlacements_ := ps |>)))).
Proof.
  intros [] -> Hcols Hrows Hp Ha Hg Hsame Hreq.
  pose proof (requiredPageCount_pos ps) as Hpos.
  assert (E : ids ps = ids (livePlacements_ m)).
  { rewrite <- (ids_same _ _ wf_base_same0). symmetry. by apply ids_same. }
  rewrite rebuildOccupancy_eq.
  set (m2 := emit modelReset _). destruct (setCurrentPageCount_eq count m2) as [sigs ->].
  assert (Hc : 1 <= Z.max 1 count) by lia.
  split; cbn -[Z.max qBound occ_of Z.eqb requiredPageCount]; try done.
  - by rewrite E.
  - by rewrite E.
  - apply Forall2_length in Hsame, wf_base_same0. lia.
  - by apply qBound_page.
  - apply pagesBelow_required; lia.
  - lia.
Qed.

Lemma remap_relaid m cols rows :
  wf m -> 0 < cols -> 0 < rows ->
  let ps := remapAll (registry_ m) (savedCols_ m) (savedRows_ m) cols rows
              (basePlacements_ m) (basePageCount_ m) in
  Forall placeable ps /\ apart ps /\ onGrid cols rows ps /\
  Forall2 sameWidget (basePlacements_ m) ps /\
  requiredPageCount (basePlacements_ m) <= requiredPageCount ps.
Proof.
  intros [] Hc Hr ps.
  destruct (remapAll_spec (registry_ m) (savedCols_ m) (savedRows_ m) cols rows
    ltac:(lia) ltac:(lia) (basePlacements_ m) (basePageCount_ m)) as (Ha & HF & _ & Hres);
    [done|apply Forall2_length in wf_base_same0; lia|]. fold ps in Ha, HF, Hres.
  split_and!.
  - apply Forall_lookup. intros i p Hi.
    destruct (Forall2_lookup_r _ _ _ _ _ HF Hi) as (q & _ & pg & [] & _). done.
  - done.
  - apply Forall_lookup. intros i p Hi.
    destruct (Forall2_lookup_r _ _ _ _ _ HF Hi) as (q & _ & pg & [] & _). done.
  - eapply Forall2_impl; [exact HF|]. by intros p q (pg & [] & _).
  - destruct (decide (reservedPages (registry_ m) (basePlacements_ m) = ∅)) as [E|E].
    + apply requiredPageCount_mono. eapply Forall2_impl; [exact HF|].
      intros p q (pg & [] & Hpg). rewrite <- (Hpg ltac:(set_solver)). done.
    + destruct (Hres E) as (r & Hr' & Hpr). apply requiredPageCount_elem in Hr'.
      apply (pagesBelow_required (basePageCount_ m)) in wf_base_pages0; lia.
Qed.

Lemma wf_initialised m : wf m -> uninitialised m = false /\ (savedCols_ m =? 0) = false.
Proof.
  intros []. assert (E : (savedCols_ m =? 0) = false) by (apply Z.eqb_neq; lia).
  unfold uninitialised. by rewrite E, andb_false_r.
Qed.

(** The remap of [m], or the identity copy, with [m1] carrying the new
    dimensions. *)
Lemma layout_wf m m1 b cols rows :
  wf m -> m1 = m <| remapPending_ := b |> <| cols_ := cols |> <| rows_ := rows |> ->
  0 < cols -> 0 < rows ->
  wf (rebuildOccupancy
        (if (cols =? savedCols_ m) && (rows =? savedRows_ m) then restoreBase m1
         else remapPlacements cols rows m1)).
Proof.
  intros Hwf Hm1 Hc Hr. pose proof Hwf as []. case_match eqn:E.
  - breflect. subst cols rows. unfold restoreBase.
    replace (basePlacements_ m1) with (basePlacements_ m) by by rewrite Hm1.
    replace (basePageCount_ m1) with (basePageCount_ m) by by rewrite Hm1.
    apply (relaid_wf m m1 _ _ b (savedCols_ m) (savedRows_ m)); auto using sameWidget_list_refl.
    split; [lia|]. by apply pagesBelow_required.
  - destruct (remap_relaid m cols rows Hwf Hc Hr) as (H1 & H2 & H3 & H4 & H5).
    unfold remapPlacements.
    set (ps := remapAll (registry_ m1) _ _ _ _ _ _).
    assert (Hps : ps = remapAll (registry_ m) (savedCols_ m) (savedRows_ m) cols rows
                         (basePlacements_ m) (basePageCount_ m)) by (unfold ps; by rewrite Hm1).
    rewrite <- Hps in H1, H2, H3, H4, H5.
    apply (relaid_wf m m1 ps _ b cols rows); auto. split; [done|].
    change (requiredPageCount ps <= Z.max (basePageCount_ m1) (requiredPageCount ps)). lia.
Qed.






Lemma setGridDimensions_wf cols rows m :
  0 < cols -> 0 < rows -> wf m -> wf (setGridDimensions cols rows m).
Proof.
  intros Hc Hr Hwf. unfold setGridDimensions. case_match; [done|].
  destruct (widgetSelected_ m).
  - apply wf_emit. destruct Hwf. by split.
  - destruct (wf_initialised m Hwf) as [E1 E2].
    set (m1 := m <| cols_ := cols |> <| rows_ := rows |>).
    change (uninitialised m1) with (uninitialised m). change (savedCols_ m1) with (savedCols_ m).
    change (savedRows_ m1) with (savedRows_ m). rewrite E1, E2.
    pose proof (layout_wf m m1 (remapPending_ m) cols rows Hwf ltac:(by destruct m) Hc Hr) as Hl.
    case_match; by rewrite !wf_emit.
Qed.


(** * Placing *)

Lemma rectsOverlap_covers c r cs rs p c' r' :
  rectsOverlap c r cs rs p = false -> c <= c' < c + cs -> r <= r' < r + rs -> ~ covers p c' r'.
Proof.
  unfold rectsOverlap, covers. intros E ?? [? ?].
  apply andb_false_iff in E as [E|?]; [|breflect; lia].
  apply andb_false_iff in E as [E|?]; [|breflect; lia].
  apply andb_false_iff in E as [?|?]; breflect; lia.
Qed.

(** The rectangle is inside the grid and misses every visible widget of the
    page but the excluded one. *)
Lemma canPlaceOnPage_spec m c r cs rs pg ex :
  canPlaceOnPage m c r cs rs pg ex = true <->
  (0 <= c /\ 0 <= r /\ c + cs <= cols_ m /\ r + rs <= rows_ m) /\
  forall p, p ∈ livePlacements_ m -> page p = pg -> visible p = true ->
    (ex <> ""%string /\ instanceId p = ex) \/ rectsOverlap c r cs rs p = false.
Proof.
  unfold canPlaceOnPage.
  destruct ((c <? 0) || (r <? 0)) eqn:E1.
  { split; [done|]. intros [? _]. apply orb_prop in E1 as [?|?]; breflect; lia. }
  destruct ((cols_ m <? c + cs) || (rows_ m <? r + rs)) eqn:E2.
  { split; [done|]. intros [? _]. apply orb_prop in E2 as [?|?]; breflect; lia. }
  breflect. rewrite forallb_forall. split.
  - intros HF. split; [lia|]. intros p Hp <- Hv. specialize (HF p (proj1 (list_elem_of_In _ _) Hp)).
    rewrite Z.eqb_refl, Hv in HF. cbn [negb orb] in HF. case_match eqn:E; [|by apply negb_true_iff in HF; auto].
    breflect. auto.
  - intros [_ HF] p Hp. destruct (page p =? pg) eqn:Ep; [|done].
    destruct (visible p) eqn:Ev; [|done]. cbn [negb orb]. breflect.
    destruct (HF p (proj2 (list_elem_of_In _ _) Hp) Ep Ev) as [[? ?]| ->].
    + by rewrite (bool_decide_eq_false_2 (ex = ""%string)),
        (bool_decide_eq_true_2 (instanceId p = ex)) by done.
    + by case_match.
Qed.


Lemma findPlacement_Some m iid idx p :
  findPlacement m iid = Some (idx, p) -> livePlacements_ m !! idx = Some p /\ instanceId p = iid.
Proof. intros (? & ? & _)%list_find_Some. done. Qed.








Lemma setCurrentPageCount_live count m :
  livePlacements_ (setCurrentPageCount count m) = livePlacements_ m.
Proof. by destruct (setCurrentPageCount_eq count m) as [sigs ->]. Qed.







(** * Removing *)




(** * Opacity and configuration *)





(** * Pages *)










(** * The user's edits *)







(** Who owns a cell of the active page. *)
Lemma wf_cellOwner m c r :
  wf m -> remapPending_ m = false -> 0 <= c < cols_ m -> 0 <= r < rows_ m ->
  (exists p, p ∈ livePlacements_ m /\ visible p = true /\ page p = activePage_ m /\
     covers p c r /\ cellOwner m c r = instanceId p) \/
  ((forall p, p ∈ livePlacements_ m -> visible p = true -> page p = activePage_ m ->
      ~ covers p c r) /\ cellOwner m c r = ""%string).
Proof.
  intros Hwf Hp Hc Hr. unfold cellOwner.
  rewrite (proj2 (Z.ltb_ge c 0)), (proj2 (Z.leb_gt _ c)), (proj2 (Z.ltb_ge r 0)),
    (proj2 (Z.leb_gt _ r)) by lia. cbn [orb]. rewrite (wf_occupancy _ Hwf Hp).
  by apply occ_of_spec; [..|apply Hwf|apply Hwf].
Qed.

(** * Deferred and repeated remaps *)

(** What a user sees of the model. *)
Definition view m :=
  (livePlacements_ m, basePlacements_ m, (cols_ m, rows_ m), (savedCols_ m, savedRows_ m),
   (pageCount_ m, basePageCount_ m), activePage_ m, occupancy_ m, nextInstanceId_ m,
   widgetSelected_ m, remapPending_ m).

Lemma view_emit s m : view (emit s m) = view m.
Proof. done. Qed.

(** Equal but for the signals and the remembered pending dimensions. *)
Definition sameModel m1 m2 : Prop := view m1 = view m2 /\ registry_ m1 = registry_ m2.

Lemma sameModel_setCurrentPageCount count m1 m2 :
  sameModel m1 m2 -> sameModel (setCurrentPageCount count m1) (setCurrentPageCount count m2).
Proof.
  intros [Hv Hr]. destruct (setCurrentPageCount_eq count m1) as [s1 ->].
  destruct (setCurrentPageCount_eq count m2) as [s2 ->].
  unfold view in Hv. injection Hv as E1 E2 E3 E4 E5 E6 E7 E8 E9 E10 E11 E12 E13.
  split; [|exact Hr]. unfold view. cbn -[Z.max qBound occ_of Z.eqb].
  by rewrite ?E1, ?E2, ?E3, ?E4, ?E5, ?E6, ?E8, ?E9, ?E10, ?E11, ?E12, ?E13.
Qed.

Lemma sameModel_rebuild m1 m2 :
  sameModel m1 m2 -> sameModel (rebuildOccupancy m1) (rebuildOccupancy m2).
Proof.
  intros [Hv Hr]. rewrite !rebuildOccupancy_eq.
  unfold view in Hv. injection Hv as E1 E2 E3 E4 E5 E6 E7 E8 E9 E10 E11 E12 E13.
  split; [|exact Hr]. unfold view. cbn -[occ_of]. congruence.
Qed.

Lemma sameModel_refl m : sameModel m m.
Proof. done. Qed.

Lemma sameModel_emit_l s m1 m2 : sameModel m1 m2 -> sameModel (emit s m1) m2.
Proof. done. Qed.

Lemma sameModel_trans m1 m2 m3 : sameModel m1 m2 -> sameModel m3 m2 -> sameModel m1 m3.
Proof. intros [E1 E2] [E3 E4]. split; congruence. Qed.

Lemma sameModel_emit s1 s2 m1 m2 : sameModel m1 m2 -> sameModel (emit s1 m1) (emit s2 m2).
Proof. done. Qed.

Lemma sameModel_live ps m1 m2 :
  sameModel m1 m2 -> sameModel (m1 <| livePlacements_ := ps |>) (m2 <| livePlacements_ := ps |>).
Proof.
  intros [Hv Hr]. unfold view in Hv. injection Hv as E1 E2 E3 E4 E5 E6 E7 E8 E9 E10 E11 E12 E13.
  split; [|exact Hr]. unfold view. cbn. congruence.
Qed.

Lemma sameModel_layout cols rows m1 m2 :
  sameModel m1 m2 ->
  sameModel
    (rebuildOccupancy (if (cols =? savedCols_ m1) && (rows =? savedRows_ m1)
                       then restoreBase m1 else remapPlacements cols rows m1))
    (rebuildOccupancy (if (cols =? savedCols_ m2) && (rows =? savedRows_ m2)
                       then restoreBase m2 else remapPlacements cols rows m2)).
Proof.
  intros H. apply sameModel_rebuild. pose proof H as [Hv Hr].
  unfold view in Hv. injection Hv as E1 E2 E3 E4 E5 E6 E7 E8 E9 E10 E11 E12 E13.
  unfold restoreBase, remapPlacements. rewrite E2, E5, E6, E8, Hr. case_match.
  - by apply sameModel_setCurrentPageCount, sameModel_emit, sameModel_live.
  - set (ps := remapAll _ _ _ _ _ _ _).
    change (sameModel
      (setCurrentPageCount (Z.max (basePageCount_ m1) (requiredPageCount ps))
         (emit modelReset (m1 <| livePlacements_ := ps |>)))
      (setCurrentPageCount (Z.max (basePageCount_ m2) (requiredPageCount ps))
         (emit modelReset (m2 <| livePlacements_ := ps |>)))).
    rewrite E8. by apply sameModel_setCurrentPageCount, sameModel_emit, sameModel_live.
Qed.

(** [setGridDimensions] to other dimensions, nothing selected. *)
Lemma setGridDimensions_layout cols rows m :
  wf m -> widgetSelected_ m = false -> (cols =? cols_ m) && (rows =? rows_ m) = false ->
  let m1 := m <| cols_ := cols |> <| rows_ := rows |> in
  sameModel (setGridDimensions cols rows m)
    (rebuildOccupancy (if (cols =? savedCols_ m1) && (rows =? savedRows_ m1)
                       then restoreBase m1 else remapPlacements cols rows m1)).
Proof.
  intros Hwf Hsel Hne m1. unfold setGridDimensions. rewrite Hne, Hsel.
  destruct (wf_initialised m Hwf) as [E1 E2]. fold m1.
  change (uninitialised m1) with (uninitialised m). change (savedCols_ m1) with (savedCols_ m).
  change (savedRows_ m1) with (savedRows_ m). rewrite E1, E2.
  case_match.
  - do 2 apply sameModel_emit_l. apply sameModel_refl.
  - do 3 apply sameModel_emit_l. apply sameModel_refl.
Qed.

Lemma deferred_layout cols rows m :
  wf m -> widgetSelected_ m = false -> remapPending_ m = false ->
  sameModel (setWidgetSelected false (setGridDimensions cols rows (setWidgetSelected true m)))
    (setGridDimensions cols rows m).
Proof.
  intros Hwf Hsel Hpend.
  assert (E : setWidgetSelected true m = m <| widgetSelected_ := true |>).
  { unfold setWidgetSelected. by rewrite Hsel, bool_decide_eq_false_2. }
  rewrite E. set (m0 := m <| widgetSelected_ := true |>).
  destruct ((cols =? cols_ m) && (rows =? rows_ m)) eqn:Hne.
  - unfold setGridDimensions at 1 2.
    change (cols_ m0) with (cols_ m). change (rows_ m0) with (rows_ m). rewrite Hne.
    unfold setWidgetSelected, applyPendingRemap.
    change (remapPending_ (emit _ _)) with (remapPending_ m). rewrite Hpend.
    split; [|done]. unfold view. cbn. by rewrite Hsel.
  - pose proof (setGridDimensions_layout cols rows m Hwf Hsel Hne) as HR. cbv zeta in HR.
    set (m1 := m <| cols_ := cols |> <| rows_ := rows |>) in HR.
    destruct (wf_initialised m Hwf) as [E1 E2].
    set (m2 := emit widgetDeselectedFromCpp (emit gridDimensionsChanged
      (m0 <| pendingCols_ := cols |> <| pendingRows_ := rows |> <| remapPending_ := false |>
          <| cols_ := cols |> <| rows_ := rows |>) <| widgetSelected_ := false |>)).
    assert (EL : setWidgetSelected false (setGridDimensions cols rows m0) =
      emit placementsChanged (rebuildOccupancy
        (if (cols =? savedCols_ m2) && (rows =? savedRows_ m2)
         then restoreBase m2 else remapPlacements cols rows m2))).
    { unfold setGridDimensions. change (cols_ m0) with (cols_ m).
      change (rows_ m0) with (rows_ m). rewrite Hne.
      change (widgetSelected_ m0) with true. cbn iota.
      unfold setWidgetSelected. change (bool_decide (widgetSelected_ _ = false)) with false.
      cbn iota. unfold applyPendingRemap.
      match goal with |- context [negb (remapPending_ ?x)] =>
        change (remapPending_ x) with true end. cbn iota.
      match goal with |- context [uninitialised ?x] =>
        change (uninitialised x) with (uninitialised m); change x with m2 end.
      rewrite E1. change (savedCols_ m2) with (savedCols_ m). by rewrite E2. }
    rewrite EL. apply (sameModel_trans _ _ _ (sameModel_emit_l _ _ _
      (sameModel_layout cols rows m2 m1 ltac:(split; [unfold view; cbn; by rewrite Hsel, Hpend|done])))).
    exact HR.
Qed.

(** * Going through other sizes and back *)

(** What the automatic remaps of [m0] leave alone, and the layout they give
    back at the saved dimensions. *)
Record baseOf (m0 m : @t V) : Prop := {
  bo_wf : wf m;
  bo_idle : widgetSelected_ m = false /\ remapPending_ m = false;
  bo_base : basePlacements_ m = basePlacements_ m0;
  bo_dims : savedCols_ m = savedCols_ m0 /\ savedRows_ m = savedRows_ m0;
  bo_count : basePageCount_ m = basePageCount_ m0;
  bo_active : activePage_ m = activePage_ m0;
  bo_pages : activePage_ m0 < basePageCount_ m0;
  bo_next : nextInstanceId_ m = nextInstanceId_ m0;
  bo_same : cols_ m = savedCols_ m -> rows_ m = savedRows_ m ->
    livePlacements_ m = basePlacements_ m /\ pageCount_ m = basePageCount_ m
}.

(** The fields after [setCurrentPageCount] to a count that keeps the active
    page. *)
Lemma setCurrentPageCount_view count m :
  1 <= count -> 0 <= activePage_ m < count ->
  view (setCurrentPageCount count m) = view (m <| pageCount_ := count |>).
Proof.
  intros Hc Ha. destruct (setCurrentPageCount_eq count m) as [sigs ->].
  rewrite (Z.max_r 1 count) by done.
  replace (qBound 0 (activePage_ m) (count - 1)) with (activePage_ m) by (unfold qBound; lia).
  rewrite Z.eqb_refl. done.
Qed.

Lemma relayout_view cols rows m1 :
  1 <= basePageCount_ m1 -> 0 <= activePage_ m1 < basePageCount_ m1 ->
  let same := (cols =? savedCols_ m1) && (rows =? savedRows_ m1) in
  let ps := if same then basePlacements_ m1
            else remapAll (registry_ m1) (savedCols_ m1) (savedRows_ m1) cols rows
                   (basePlacements_ m1) (basePageCount_ m1) in
  let count := if same then basePageCount_ m1
               else Z.max (basePageCount_ m1) (requiredPageCount ps) in
  view (rebuildOccupancy (if same then restoreBase m1 else remapPlacements cols rows m1)) =
  view (m1 <| livePlacements_ := ps |> <| pageCount_ := count |>
           <| occupancy_ := occ_of (cols_ m1) (rows_ m1) (activePage_ m1) ps |>).
Proof.
  intros Hc Ha same ps count.
  transitivity (view (rebuildOccupancy (setCurrentPageCount count
    (emit modelReset (m1 <| livePlacements_ := ps |>))))).
  { unfold count, ps. by destruct same. }
  rewrite rebuildOccupancy_eq.
  assert (Hcount : 1 <= count /\ basePageCount_ m1 <= count) by (unfold count; case_match; lia).
  assert (Hv : view (setCurrentPageCount count (emit modelReset (m1 <| livePlacements_ := ps |>))) =
    view (emit modelReset (m1 <| livePlacements_ := ps |>) <| pageCount_ := count |>)).
  { apply setCurrentPageCount_view; [lia|]. cbn [activePage_]. cbn. lia. }
  clearbody ps count. revert Hv.
  generalize (setCurrentPageCount count (emit modelReset (m1 <| livePlacements_ := ps |>))).
  intros m2 Hv. unfold view in Hv |- *. cbn -[occ_of] in Hv |- *.
  congruence.
Qed.

Lemma baseOf_setGridDimensions m0 m cols rows :
  0 < cols -> 0 < rows -> baseOf m0 m -> baseOf m0 (setGridDimensions cols rows m).
Proof.
  intros Hc Hr Hbo. destruct ((cols =? cols_ m) && (rows =? rows_ m)) eqn:Hne.
  { unfold setGridDimensions. by rewrite Hne. }
  assert (Hwf : wf (setGridDimensions cols rows m)) by (by apply setGridDimensions_wf; [..|apply Hbo]).
  destruct Hbo as [Hm [Hsel Hpend] Hb [Hd1 Hd2] Hcnt Hact Hpg Hnext Hsame].
  destruct (setGridDimensions_layout cols rows m Hm Hsel Hne) as [Hv _].
  set (m1 := m <| cols_ := cols |> <| rows_ := rows |>) in Hv.
  rewrite relayout_view in Hv; [|apply (wf_base_count _ Hm)|].
  2: { change (0 <= activePage_ m < basePageCount_ m). rewrite Hcnt.
       destruct (wf_active _ Hm). rewrite Hact in *. lia. }
  set (m2 := setGridDimensions cols rows m) in *. clearbody m2.
  unfold view in Hv. cbn -[occ_of Z.max] in Hv.
  injection Hv as E1 E2 E3 E4 E5 E6 E7 E8 E9 E10 E11 E12 E13.
  split; try done.
  - by rewrite E12, E13.
  - by rewrite E2.
  - by rewrite E5, E6.
  - by rewrite E8.
  - by rewrite E9.
  - by rewrite E11.
  - rewrite E1, E2, E3, E4, E5, E6, E7, E8. intros -> ->. by rewrite !Z.eqb_refl.
Qed.

Definition setAllDimensions (sizes : list (Z * Z)) (m : @t V) : @t V :=
  foldl (fun m '(cols, rows) => setGridDimensions cols rows m) m sizes.

Lemma baseOf_all m0 m sizes :
  Forall (fun s => 0 < s.1 /\ 0 < s.2) sizes -> baseOf m0 m -> baseOf m0 (setAllDimensions sizes m).
Proof.
  unfold setAllDimensions. revert m. induction sizes as [|[c r] sizes IH]; intros m HF Hbo; [done|].
  apply Forall_cons in HF as [[??] HF]. apply IH; [done|]. by apply baseOf_setGridDimensions.
Qed.

(** Two states over one baseline, both at its dimensions, look the same. *)
Lemma baseOf_view m0 m1 m2 :
  baseOf m0 m1 -> baseOf m0 m2 ->
  cols_ m1 = savedCols_ m0 -> rows_ m1 = savedRows_ m0 ->
  cols_ m2 = savedCols_ m0 -> rows_ m2 = savedRows_ m0 -> view m1 = view m2.
Proof.
  intros [W1 [S1 P1] B1 [D1 D1'] C1 A1 _ N1 L1] [W2 [S2 P2] B2 [D2 D2'] C2 A2 _ N2 L2] H1 H2 H3 H4.
  destruct L1 as [L1 L1']; [congruence..|]. destruct L2 as [L2 L2']; [congruence..|].
  pose proof (wf_occupancy _ W1 P1) as O1. pose proof (wf_occupancy _ W2 P2) as O2.
  unfold view. congruence.
Qed.

Lemma setGridDimensions_dims cols rows m :
  wf m -> widgetSelected_ m = false ->
  cols_ (setGridDimensions cols rows m) = cols /\ rows_ (setGridDimensions cols rows m) = rows.
Proof.
  intros Hm Hsel. destruct ((cols =? cols_ m) && (rows =? rows_ m)) eqn:Hne.
  { unfold setGridDimensions. rewrite Hne. breflect. done. }
  destruct (setGridDimensions_layout cols rows m Hm Hsel Hne) as [Hv _].
  set (m1 := m <| cols_ := cols |> <| rows_ := rows |>) in Hv.
  assert (E : cols_ m1 = cols /\ rows_ m1 = rows) by done.
  assert (F : forall c m, cols_ (setCurrentPageCount c m) = cols_ m /\
                          rows_ (setCurrentPageCount c m) = rows_ m).
  { intros c m'. by destruct (setCurrentPageCount_eq c m') as [sigs ->]. }
  assert (G1 : forall m, cols_ (restoreBase m) = cols_ m /\ rows_ (restoreBase m) = rows_ m)
    by (intros m'; split; (etransitivity; [apply F|reflexivity])).
  assert (G2 : forall m, cols_ (remapPlacements cols rows m) = cols_ m /\
                         rows_ (remapPlacements cols rows m) = rows_ m) by (intros m'; split; (etransitivity; [apply F|reflexivity])).
  apply (f_equal (fun v => v.1.1.1.1.1.1.1.2)) in Hv.
  rewrite rebuildOccupancy_eq in Hv. apply pair_equal_spec in Hv as [-> ->].
  destruct ((cols =? savedCols_ m1) && (rows =? savedRows_ m1)); [exact (G1 m1)|exact (G2 m1)].
Qed.

(** Nothing selected, and the live placements are the baseline. *)
Definition atBaseline m : Prop :=
  widgetSelected_ m = false /\ remapPending_ m = false /\
  livePlacements_ m = basePlacements_ m /\ pageCount_ m = basePageCount_ m /\
  cols_ m = savedCols_ m /\ rows_ m = savedRows_ m.

Lemma sizes_and_back sizes m :
  wf m -> atBaseline m -> Forall (fun s => 0 < s.1 /\ 0 < s.2) sizes ->
  view (setGridDimensions (cols_ m) (rows_ m) (setAllDimensions sizes m)) = view m.
Proof.
  intros Hwf (Hs & Hp & Hl & Hc & Hd1 & Hd2) HF.
  assert (Hb0 : baseOf m m).
  { split; try done. rewrite <- Hc. apply (wf_active _ Hwf). }
  pose proof (baseOf_all m m sizes HF Hb0) as Hb1.
  destruct (wf_dims _ Hwf) as [? ?].
  pose proof (baseOf_setGridDimensions m _ (cols_ m) (rows_ m) ltac:(done) ltac:(done) Hb1) as Hb2.
  apply (baseOf_view m); try done.
  - rewrite <- Hd1. apply (setGridDimensions_dims (cols_ m) (rows_ m) _ (bo_wf _ _ Hb1)).
    apply (bo_idle _ _ Hb1).
  - rewrite <- Hd2. apply (setGridDimensions_dims (cols_ m) (rows_ m) _ (bo_wf _ _ Hb1)).
    apply (bo_idle _ _ Hb1).
Qed.

(** * Searching a place *)

Lemma find_sorted {A} (R : relation A) (f : A -> bool) l :
  StronglySorted R l ->
  match List.find f l with
  | Some x => f x = true /\ forall y, y ∈ l -> f y = true -> y = x \/ R x y
  | None => forall y, y ∈ l -> f y = false
  end.
Proof.
  induction 1 as [|x l Hs IH Hx]; cbn; [by intros y ?%elem_of_nil|].
  rewrite Forall_forall in Hx. destruct (f x) eqn:E.
  - split; [done|]. intros y [->|Hy]%elem_of_cons _; auto.
  - destruct (List.find f l) as [z|].
    + destruct IH as [? IH]. split; [done|]. intros y [->|Hy]%elem_of_cons Hf; [congruence|auto].
    + intros y [->|Hy]%elem_of_cons; auto.
Qed.

(** Row by row: the order of the search. *)
Definition before (x y : Z * Z) : Prop := x.2 < y.2 \/ (x.2 = y.2 /\ x.1 < y.1).

Lemma StronglySorted_seqZ a n : StronglySorted Z.lt (seqZ a n).
Proof.
  revert a. induction n as [|n ? IH|] using (Z.succ_pred_induction 0); intros a.
  - constructor.
  - rewrite seqZ_cons, Z.pred_succ by lia. constructor; [apply IH|].
    apply Forall_forall. intros x Hx%elem_of_seqZ. lia.
  - rewrite seqZ_nil by lia. constructor.
Qed.

Lemma StronglySorted_cells cs rs :
  StronglySorted Z.lt cs -> StronglySorted Z.lt rs ->
  StronglySorted before (r ← rs; (fun c => (c, r)) <$> cs).
Proof.
  intros Hc. induction 1 as [|r rs Hs IH Hr]; cbn; [constructor|].
  apply StronglySorted_app_2; [| |exact IH].
  - intros x1 x2 (c1 & -> & _)%list_elem_of_fmap
      (r2 & (c2 & -> & _)%list_elem_of_fmap & Hr2)%list_elem_of_bind.
    rewrite Forall_forall in Hr. left. by apply Hr.
  - eapply StronglySorted_fmap; [|exact Hc]. intros x y ?. by right.
Qed.

Lemma canPlace_bounds m c r cs rs ex :
  canPlace m c r cs rs ex = true -> 0 <= c <= cols_ m - cs /\ 0 <= r <= rows_ m - rs.
Proof. intros [H _]%canPlaceOnPage_spec. lia. Qed.

Lemma findFirst_spec m cs rs c r :
  findFirstAvailableCell m cs rs = (c, r) ->
  (canPlace m c r cs rs "" = true /\
   forall c' r', canPlace m c' r' cs rs "" = true -> (c', r') = (c, r) \/ before (c, r) (c', r')) \/
  ((c, r) = (-1, -1) /\ forall c' r', canPlace m c' r' cs rs "" = false).
Proof.
  unfold findFirstAvailableCell.
  pose proof (find_sorted before (fun '(c, r) => canPlace m c r cs rs "") _
    (StronglySorted_cells _ _ (StronglySorted_seqZ 0 (cols_ m - cs + 1))
                              (StronglySorted_seqZ 0 (rows_ m - rs + 1)))) as Hf.
  set (cells := r ← seqZ 0 (rows_ m - rs + 1); _) in *.
  assert (Hin : forall c' r', canPlace m c' r' cs rs "" = true -> (c', r') ∈ cells).
  { intros c' r' H%canPlace_bounds. apply list_elem_of_bind. exists r'.
    split; [|apply elem_of_seqZ; lia]. apply list_elem_of_fmap. exists c'.
    split; [done|apply elem_of_seqZ; lia]. }
  destruct (List.find _ cells) as [[c0 r0]|]; cbn [default]; intros [= <- <-].
  - left. destruct Hf as [H1 H2]. split; [done|]. intros c' r' H. apply (H2 (c', r')); auto.
  - right. split; [done|]. intros c' r'. destruct (canPlace m c' r' cs rs "") eqn:E; [|done].
    pose proof (Hf _ (Hin _ _ E)) as H. cbn in H. congruence.
Qed.

(** Two rectangles of at least one cell overlap in a cell. *)
Lemma rectsOverlap_cell c r cs rs p :
  1 <= cs -> 1 <= rs -> 1 <= colSpan p -> 1 <= rowSpan p ->
  rectsOverlap c r cs rs p = true ->
  exists c' r', c <= c' < c + cs /\ r <= r' < r + rs /\ covers p c' r'.
Proof.
  unfold rectsOverlap, covers. rewrite !andb_true_iff. intros ???? [[[??]?]?]. breflect.
  exists (Z.max c (col p)), (Z.max r (row p)). lia.
Qed.

(** A place is accepted exactly when all its cells are free. *)
Lemma canPlace_free m c r cs rs :
  wf m -> remapPending_ m = false ->
  Forall (fun p => 1 <= colSpan p /\ 1 <= rowSpan p) (livePlacements_ m) ->
  1 <= cs -> 1 <= rs ->
  canPlace m c r cs rs "" = true <->
  (0 <= c /\ 0 <= r /\ c + cs <= cols_ m /\ r + rs <= rows_ m) /\
  forall c' r', c <= c' < c + cs -> r <= r' < r + rs -> cellOwner m c' r' = ""%string.
Proof.
  intros Hwf Hpend HF Hcs Hrs. unfold canPlace. rewrite canPlaceOnPage_spec. split.
  - intros [Hb Hp]. split; [done|]. intros c' r' Hc' Hr'.
    destruct (wf_cellOwner m c' r' Hwf Hpend) as [(p & Hin & Hv & Hpg & Hcov & _)|[_ ?]];
      [lia|lia| |done].
    destruct (Hp p Hin Hpg Hv) as [[? _]|Ho]; [done|].
    by destruct (rectsOverlap_covers _ _ _ _ _ _ _ Ho Hc' Hr').
  - intros [Hb Hfree]. split; [done|]. intros p Hin Hpg Hv. right.
    destruct (rectsOverlap c r cs rs p) eqn:E; [|done]. exfalso.
    rewrite Forall_forall in HF. destruct (HF p Hin).
    apply rectsOverlap_cell in E as (c' & r' & Hc' & Hr' & Hcov); [|done..].
    destruct (wf_cellOwner m c' r' Hwf Hpend) as [(q & Hq & _ & _ & _ & Hown)|[Hno _]];
      [lia|lia| |by eapply Hno].
    rewrite (Hfree c' r' Hc' Hr') in Hown.
    pose proof (wf_placeable _ Hwf) as Hpl. rewrite Forall_forall in Hpl.
    destruct (Hpl q Hq) as (Hn & _). by destruct Hn.
Qed.

(** * Singletons *)

(** Every singleton widget is still there. *)
Definition keepsSingletons (m m' : @t V) : Prop :=
  forall p, p ∈ livePlacements_ m -> isSingleton (registry_ m) p = true ->
    exists q, q ∈ livePlacements_ m' /\ sameWidget p q.

Lemma removeWidget_singletons iid m :
  keepsSingletons (applyPendingRemap m) (removeWidget iid m).
Proof.
  unfold keepsSingletons, removeWidget. set (m1 := applyPendingRemap m). clearbody m1.
  intros p Hp Hs. destruct (findPlacement m1 iid) as [[idx p0]|] eqn:Hf;
    [|exists p; by auto using sameWidget_refl].
  destruct (isSingleton (registry_ m1) p0) eqn:E; [exists p; by auto using sameWidget_refl|].
  exists p. split; [|apply sameWidget_refl].
  change (p ∈ livePlacements_ (rebuildOccupancy (emit (rowsRemoved idx)
    (m1 <| livePlacements_ ::= delete idx |>)))).
  rewrite rebuildOccupancy_eq. cbn.
  apply list_elem_of_lookup in Hp as [i Hi]. apply findPlacement_Some in Hf as [Hf _].
  assert (i <> idx) by congruence.
  apply list_elem_of_lookup. destruct (decide (i < idx)%nat).
  - exists i. by rewrite list_lookup_delete_lt.
  - exists (i - 1)%nat. rewrite list_lookup_delete_ge by lia. by replace (S (i - 1)) with i by lia.
Qed.

Lemma removePage_singletons pg m :
  keepsSingletons (applyPendingRemap m) (removePage pg m).1.
Proof.
  unfold keepsSingletons, removePage. set (m1 := applyPendingRemap m). clearbody m1.
  intros p Hp Hs. case_match; [exists p; by auto using sameWidget_refl|].
  destruct (pageHasSingleton m1 pg) eqn:E; [exists p; by auto using sameWidget_refl|]. cbn [fst].
  exists (p <| page := shiftDown pg (page p) |>). split; [|done].
  assert (Hne : page p <> pg).
  { intros Hpg. apply not_true_iff_false in E. apply E. unfold pageHasSingleton.
    apply existsb_exists. exists p. split; [by apply list_elem_of_In|].
    by rewrite Hpg, Z.eqb_refl, Hs. }
  set (m2 := emit modelReset
    (m1 <| livePlacements_ ::= fun l => repage (shiftDown pg) (dropPage pg l) |>)
      <| pageCount_ ::= Z.pred |>).
  assert (Hin : p <| page := shiftDown pg (page p) |> ∈ livePlacements_ m2).
  { cbn [livePlacements_]. apply (list_elem_of_fmap_2
      (fun p => p <| page := shiftDown pg (page p) |>) (dropPage pg (livePlacements_ m1)) p).
    by apply list_elem_of_filter. }
  match goal with |- _ ∈ livePlacements_ (emit _ (emit _ (promoteToBase (rebuildOccupancy ?x)))) =>
    change (p <| page := shiftDown pg (page p) |> ∈ livePlacements_ (rebuildOccupancy x)) end.
  rewrite rebuildOccupancy_eq. by case_match.
Qed.
End Proofs. End WidgetGridModel.

Import WidgetGridModel.

(** * A sample model *)

Definition sample_placements : list (GridPlacement SampleVariant) :=
  [sample_placement "a" 0 0 2 2 0; sample_placement "b" 2 0 1 1 0].

(** Two widgets on the first page of a 6 by 4 grid, adopted as the baseline. *)
Definition sample_model : @WidgetGridModel.t SampleVariant :=
  adoptLiveAsBaseline
    (setPlacements sample_placements sample_registry (setGridDimensions 6 4 (create None))).

Lemma sample_live : livePlacements_ sample_model = sample_placements.
Proof. vm_compute. reflexivity. Qed.

Lemma sample_base : basePlacements_ sample_model = sample_placements.
Proof. vm_compute. reflexivity. Qed.

Lemma sample_apart : apart sample_placements.
Proof.
  split; [|by repeat constructor]. apply Forall_singleton.
  intros _ _ _ c r [Hc _] [Hc' _]. cbn in *. lia.
Qed.

Lemma sample_placeable : Forall placeable sample_placements.
Proof. repeat constructor; done. Qed.

Lemma sample_onGrid : onGrid 6 4 sample_placements.
Proof. repeat constructor; cbn; lia. Qed.

Lemma sample_model_wf : wf sample_model.
Proof.
  split; rewrite ?sample_live, ?sample_base.
  - exact sample_placeable.
  - exact sample_apart.
  - intros _. exact sample_onGrid.
  - change (NoDup ["a"; "b"]%string). apply NoDup_cons; split; [|apply NoDup_singleton].
    by rewrite list_elem_of_singleton.
  - intros w n _. change (newInstanceId w n ∉ ["a"; "b"]%string).
    rewrite !elem_of_cons, elem_of_nil. unfold newInstanceId.
    intros [E|[E|[]]]; apply (f_equal String.list_ascii_of_string) in E;
      rewrite !list_ascii_app in E; cbn in E;
      destruct (String.list_ascii_of_string w) as [|? []]; cbn in E; discriminate.
  - by vm_compute.
  - cbn. lia.
  - by vm_compute.
  - by vm_compute.
  - repeat constructor.
  - exact sample_placeable.
  - exact sample_apart.
  - exact sample_onGrid.
  - apply sameWidget_list_refl.
  - by vm_compute.
  - by vm_compute.
  - repeat constructor.
  - reflexivity.
  - intros _. vm_compute. reflexivity.
Qed.

(** * Properties *)




(** C28. A place is accepted exactly when it lies inside the grid and all its
    cells are free; the search for the first such place returns it, the first
    one row by row, or (-1, -1) when there is none. *)
Theorem first_available_cell `{!Variant V} (m : @WidgetGridModel.t V) cs rs c r :
  wf m -> remapPending_ m = false ->
  Forall (fun p => 1 <= colSpan p /\ 1 <= rowSpan p) (livePlacements_ m) ->
  1 <= cs -> 1 <= rs -> findFirstAvailableCell m cs rs = (c, r) ->
  let freeAt c r :=
    (0 <= c /\ 0 <= r /\ c + cs <= cols_ m /\ r + rs <= rows_ m) /\
    forall c' r', c <= c' < c + cs -> r <= r' < r + rs -> cellOwner m c' r' = ""%string in
  (freeAt c r /\ forall c' r', freeAt c' r' -> r < r' \/ (r = r' /\ c <= c')) \/
  ((c, r) = (-1, -1) /\ forall c' r', ~ freeAt c' r').
Proof.
  intros Hwf Hp HF Hcs Hrs Hfind freeAt.
  assert (Hiff : forall c r, canPlace m c r cs rs "" = true <-> freeAt c r)
    by (intros; by apply canPlace_free).
  destruct (findFirst_spec m cs rs c r Hfind) as [[H1 H2]|[H1 H2]].
  - left. split; [by apply Hiff|]. intros c' r' H%Hiff%H2. unfold before in H. cbn in H.
    destruct H as [[= -> ->]|[?|?]]; lia.
  - right. split; [done|]. intros c' r' H%Hiff. congruence.
Qed.

Lemma first_available_cell_witness :
  findFirstAvailableCell sample_model 3 1 = (3, 0) /\
  forall c' r', (0 <= c' /\ 0 <= r' /\ c' + 3 <= 6 /\ r' + 1 <= 4) /\
    (forall c r, c' <= c < c' + 3 -> r' <= r < r' + 1 -> cellOwner sample_model c r = ""%string) ->
    0 < r' \/ (0 = r' /\ 3 <= c').
Proof.
  split; [by vm_compute|].
  destruct (first_available_cell sample_model 3 1 3 0) as [[_ H]|[H _]];
    [exact sample_model_wf|by vm_compute| |lia|lia|by vm_compute|exact H|discriminate H].
  rewrite sample_live. repeat constructor; cbn; lia.
Defined.

(** C27. A change of the grid while a widget is selected, applied when the
    selection ends, leaves the model as the same change without a selection. *)
Theorem deferred_remap `{!Variant V} (m : @WidgetGridModel.t V) cols rows :
  wf m -> widgetSelected_ m = false -> remapPending_ m = false ->
  view (setWidgetSelected false (setGridDimensions cols rows (setWidgetSelected true m))) =
  view (setGridDimensions cols rows m).
Proof. intros. by apply deferred_layout. Qed.

Lemma deferred_remap_witness :
  view (setWidgetSelected false (setGridDimensions 3 2 (setWidgetSelected true sample_model))) =
  view (setGridDimensions 3 2 sample_model).
Proof. apply (deferred_remap sample_model); [exact sample_model_wf|by vm_compute..]. Defined.

(** C26. The automatic remap loses nothing: after any sequence of grid sizes,
    the return to the size of the baseline restores every placement, the page
    count, the active page and the occupancy. *)
Theorem remap_and_back `{!Variant V} (m : @WidgetGridModel.t V) sizes :
  wf m -> atBaseline m -> Forall (fun s => 0 < s.1 /\ 0 < s.2) sizes ->
  view (setGridDimensions (cols_ m) (rows_ m) (setAllDimensions sizes m)) = view m.
Proof. apply sizes_and_back. Qed.

Lemma remap_and_back_witness :
  view (setGridDimensions 6 4 (setAllDimensions [(2, 1); (8, 5)] sample_model)) = view sample_model.
Proof.
  apply (remap_and_back sample_model [(2, 1); (8, 5)]); [exact sample_model_wf|by vm_compute|].
  repeat constructor; cbn; lia.
Defined.

(** C29. Neither the removal of a widget nor the removal of a page removes a
    singleton widget. *)
Theorem singletons_stay `{!Variant V} (m : @WidgetGridModel.t V) iid pg :
  keepsSingletons (applyPendingRemap m) (removeWidget iid m) /\
  keepsSingletons (applyPendingRemap m) (removePage pg m).1.
Proof. split; [apply removeWidget_singletons|apply removePage_singletons]. Qed.

(** * What modelling showed *)

(** [removeAllWidgetsOnPage] has no such guard. *)
Example removeAll_drops_singletons :
  let m := setPlacements [sample_launcher 0] sample_launcher_registry
             (setGridDimensions 6 4 (create None)) in
  livePlacements_ (removeAllWidgetsOnPage 1 m) = [] /\
  (page <$> livePlacements_ m) = [1].
Proof. vm_compute. split; reflexivity. Qed.

(** Dimensions set for the first time while a widget is selected leave the
    occupancy without cells, so that a later edit writes outside of it. *)
Example first_dimensions_deferred :
  let m := setWidgetSelected false (setGridDimensions 6 4
             (setWidgetSelected true (create sample_registry))) in
  (cols_ m, rows_ m) = (6, 4) /\ occupancy_ m = [] /\ canPlace m 0 0 1 1 "" = true.
Proof. vm_compute. split_and!; reflexivity. Qed.

(** A span of zero is accepted when a widget is placed, not when it is
    resized from an edge. *)
Example empty_span_placed :
  (placeWidget "clock" 5 3 0 0 sample_model).2 = true /\
  (resizeWidgetFromEdge "a" 0 0 0 0 sample_model).2 = false.
Proof. vm_compute. split; reflexivity. Qed.
