(* ===== verification/ApiFramer.v ===== *)
(** The length-prefix framing of the External API's TCP transport.

    Source: src/core/api/ApiFramer. A frame is a four-byte big-endian length
    and that many payload bytes; the length 0 and a length above the limit are
    protocol violations, after which the framer ignores its input. *)

From S2P Require Import Prelude.

Module ApiFramer.

Record t := mk {
  buffer_ : bytes;
  maxFrameBytes_ : Z;
  violated_ : bool
}.

#[global] Instance t_settable : Settable t := {| eta_record r :=
  mk (buffer_ r) (maxFrameBytes_ r) (violated_ r) |}.

Definition create (maxFrameBytes : Z) : t := mk [] maxFrameBytes false.

(** [static_cast<quint32>] and the conversion of a [quint32] to [int]. *)
Definition to_u32 (z : Z) : Z := z mod 2 ^ 32.
Definition to_i32 (z : Z) : Z := (z + 2 ^ 31) mod 2 ^ 32 - 2 ^ 31.

Definition encode (payload : bytes) : bytes :=
  let n := to_u32 (blen payload) in
  [byte_of (Z.land (Z.shiftr n 24) 255)] ++ [byte_of (Z.land (Z.shiftr n 16) 255)]
  ++ [byte_of (Z.land (Z.shiftr n 8) 255)] ++ [byte_of (Z.land n 255)]
  ++ payload.

(** The four bytes of the prefix, combined. *)
Definition prefixLength (d : bytes) : Z :=
  let b i := bval (default Byte.x00 (d !! i)) in
  Z.lor (Z.lor (Z.lor (Z.shiftl (b 0%nat) 24) (Z.shiftl (b 1%nat) 16))
               (Z.shiftl (b 2%nat) 8)) (b 3%nat).

(** The loop of [feed]; every turn that continues removes at least the
    prefix, so the buffer's length is enough fuel. *)
Fixpoint feedLoop (fuel : nat) (f : t) (frames : list bytes) : t * list bytes :=
  match fuel with
  | O => (f, frames)
  | S fuel' =>
      if blen (buffer_ f) <? 4 then (f, frames)
      else
        let len := prefixLength (buffer_ f) in
        if (len =? 0) || (maxFrameBytes_ f <? len)
        then (f <| violated_ := true |> <| buffer_ := [] |>, frames)
        else if to_u32 (blen (buffer_ f)) <? to_u32 (4 + len) then (f, frames)
        else
          feedLoop fuel'
            (f <| buffer_ := drop (Z.to_nat (4 + to_i32 len)) (buffer_ f) |>)
            (frames ++ [mid (buffer_ f) 4 (Z.to_nat len)])
  end.

Definition feed (chunk : bytes) (f : t) : t * list bytes :=
  if violated_ f then (f, [])
  else
    let f := f <| buffer_ := buffer_ f ++ chunk |> in
    feedLoop (S (length (buffer_ f))) f [].

Definition violated (f : t) : bool := violated_ f.

(** ** The framer as a function of the byte stream *)

(** The limits under which the code's 32-bit casts keep their values. *)
Definition sized (f : t) : Prop :=
  0 <= maxFrameBytes_ f < 2 ^ 31 - 4 /\ blen (buffer_ f) < 2 ^ 32.

(** Feeding chunk after chunk. *)
Fixpoint feedAll (chunks : list bytes) (f : t) : t * list bytes :=
  match chunks with
  | [] => (f, [])
  | c :: cs =>
      let '(f, fr) := feed c f in
      let '(f, frs) := feedAll cs f in (f, fr ++ frs)
  end.

Lemma to_u32_small z : 0 <= z < 2 ^ 32 -> to_u32 z = z.
Proof. intros. unfold to_u32. apply Z.mod_small. lia. Qed.

Lemma to_i32_small z : 0 <= z < 2 ^ 31 -> to_i32 z = z.
Proof. intros. unfold to_i32. rewrite Z.mod_small by lia. lia. Qed.

Lemma byte_shift n k :
  0 <= k -> byte_of (Z.land (Z.shiftr n k) 255) = byte_of (n / 2 ^ k).
Proof.
  intros Hk. change 255 with (Z.ones 8). rewrite Z.land_ones, Z.shiftr_div_pow2 by lia.
  unfold byte_of. rewrite Z.mod_mod by lia. reflexivity.
Qed.

(** The prefix is the big-endian field of the shared library. *)
Lemma encode_prefix payload :
  encode payload = be_encode 4 (to_u32 (blen payload)) ++ payload.
Proof.
  unfold encode. set (n := to_u32 (blen payload)). rewrite !byte_shift by lia.
  change 255 with (Z.ones 8). rewrite Z.land_ones by lia.
  cbn [be_encode app]. rewrite !Z.div_div by lia.
  replace (byte_of (n mod 2 ^ 8)) with (byte_of n); [reflexivity|].
  unfold byte_of. change (2 ^ 8) with 256. rewrite Z.mod_mod by lia. reflexivity.
Qed.

Lemma lor_shiftl_add a b k :
  0 <= k -> 0 <= b < 2 ^ k -> Z.lor (Z.shiftl a k) b = a * 2 ^ k + b.
Proof.
  intros Hk Hb. rewrite <- Z.shiftl_mul_pow2 by lia.
  pose proof (Z.add_lor_land (Z.shiftl a k) b) as E.
  assert (Z.land (Z.shiftl a k) b = 0) as Z0; [|lia].
  apply Z.bits_inj'. intros i Hi. rewrite Z.land_spec, Z.bits_0.
  destruct (decide (i < k)).
  - rewrite Z.shiftl_spec_low by lia. reflexivity.
  - rewrite <- (Z.mod_small b (2 ^ k)) by lia.
    rewrite Z.mod_pow2_bits_high by lia. apply andb_false_r.
Qed.

Lemma prefixLength_decode d :
  (4 <= length d)%nat -> prefixLength d = be_decode (take 4 d).
Proof.
  destruct d as [|a [|b [|c [|e d]]]]; cbn [length]; intros; [lia..|].
  unfold prefixLength, be_decode. cbn [take fold_left lookup list_lookup default].
  pose proof (bval_range a) as Ha. pose proof (bval_range b) as Hb.
  pose proof (bval_range c) as Hc. pose proof (bval_range e) as He.
  unfold u8 in *. cbn -[bval Z.shiftl Z.lor Z.pow Z.mul Z.add].
  replace (Z.shiftl (bval a) 24) with (Z.shiftl (Z.shiftl (Z.shiftl (bval a) 8) 8) 8)
    by (rewrite !Z.shiftl_shiftl by lia; reflexivity).
  replace (Z.shiftl (bval b) 16) with (Z.shiftl (Z.shiftl (bval b) 8) 8)
    by (rewrite !Z.shiftl_shiftl by lia; reflexivity).
  rewrite <- !Z.shiftl_lor, !lor_shiftl_add by lia.
  rewrite take_0. cbn [fold_left]. lia.
Qed.

Lemma be_encode_decode l : be_encode (length l) (be_decode l) = l.
Proof.
  induction l as [|b l IH] using rev_ind; [done|].
  rewrite length_app, Nat.add_comm. cbn [length Nat.add be_encode].
  pose proof (bval_range b) as Hb. unfold u8 in Hb.
  rewrite be_decode_snoc, Z.div_add_l, Z.div_small, Z.add_0_r, IH by lia.
  f_equal. f_equal. rewrite <- (byte_of_bval b) at 2. unfold byte_of.
  rewrite Z.add_comm, Z.mod_add by lia. done.
Qed.

(** ** The frames of a stream *)

(** One frame off the front of a buffer, in the three ways a turn can end. *)
Inductive turn (max : Z) (b : bytes) : option (option (bytes * bytes)) -> Prop :=
| turn_wait :
    blen b < 4 \/ (4 <= blen b /\ 0 < be_decode (take 4 b) <= max /\
                   blen b < 4 + be_decode (take 4 b)) -> turn max b None
| turn_violation :
    4 <= blen b -> (be_decode (take 4 b) = 0 \/ max < be_decode (take 4 b)) ->
    turn max b (Some None)
| turn_frame p rest :
    0 < blen p <= max -> b = be_encode 4 (blen p) ++ p ++ rest ->
    turn max b (Some (Some (p, rest))).

Lemma feedLoop_turn fuel f frames :
  sized f ->
  exists r, turn (maxFrameBytes_ f) (buffer_ f) r /\
  feedLoop (S fuel) f frames =
    match r with
    | None => (f, frames)
    | Some None => (f <| violated_ := true |> <| buffer_ := [] |>, frames)
    | Some (Some (p, rest)) =>
        feedLoop fuel (f <| buffer_ := rest |>) (frames ++ [p])
    end.
Proof.
  destruct f as [b mx v]; intros [Hm Hb]; cbn in Hm, Hb. cbn [feedLoop buffer_ maxFrameBytes_].
  destruct (blen b <? 4) eqn:E4; breflect.
  { exists None. split; [apply turn_wait; left; done|done]. }
  assert ((4 <= length b)%nat) as Hl by (unfold blen in E4; lia).
  rewrite prefixLength_decode by done.
  pose proof (be_decode_bound (take 4 b)) as Hd.
  unfold blen in Hd at 1. rewrite length_take_le in Hd by done.
  destruct ((be_decode (take 4 b) =? 0) || (mx <? be_decode (take 4 b))) eqn:Ev; breflect.
  { exists (Some None). split; [|done]. apply turn_violation; [lia|].
    destruct Ev; breflect; auto. }
  rewrite !to_u32_small, to_i32_small by (pose proof (blen_nonneg b); lia).
  destruct (blen b <? 4 + be_decode (take 4 b)) eqn:Ew; breflect.
  { exists None. split; [apply turn_wait; right; lia|done]. }
  set (n := be_decode (take 4 b)) in *.
  assert (length (mid b 4 (Z.to_nat n)) = Z.to_nat n) as Hn
    by (rewrite mid_length; unfold blen in Ew; lia).
  exists (Some (Some (mid b 4 (Z.to_nat n), drop (Z.to_nat (4 + n)) b))).
  split; [|done]. apply turn_frame.
  - unfold blen. rewrite Hn. lia.
  - unfold blen. rewrite Hn, Z2Nat.id by lia. unfold n at 1.
    rewrite <- (take_drop 4 b) at 1. f_equal.
    + rewrite <- (be_encode_decode (take 4 b)) at 1.
      rewrite length_take_le by done. done.
    + replace (Z.to_nat (4 + n)) with (4 + Z.to_nat n)%nat by lia.
      rewrite <- drop_drop. unfold mid. rewrite take_drop. done.
Qed.

Lemma frame_prefix mx p rest :
  mx < 2 ^ 32 -> 0 < blen p <= mx ->
  be_decode (take 4 (be_encode 4 (blen p) ++ p ++ rest)) = blen p.
Proof.
  intros Hm Hp. rewrite take_app_le by (rewrite be_encode_length; lia).
  rewrite take_ge by (rewrite be_encode_length; lia).
  apply be_decode_encode_small. lia.
Qed.

Lemma blen_be_encode n z : blen (be_encode n z) = Z.of_nat n.
Proof. unfold blen. rewrite be_encode_length. done. Qed.

Lemma turn_det mx b r r' : mx < 2 ^ 32 -> turn mx b r -> turn mx b r' -> r = r'.
Proof.
  intros Hm. destruct 1 as [H|H H'|p rest H H']; destruct 1 as [K|K K'|q rest' K K'];
    try done; try lia; subst; rewrite ?(frame_prefix mx) in * by done;
    try (rewrite ?blen_app, ?blen_be_encode in *; pose proof (blen_nonneg rest);
         pose proof (blen_nonneg rest'); lia).
  all: try (rewrite ?blen_app, ?blen_be_encode in *; pose proof (blen_nonneg rest'); lia).
  all: try (rewrite ?blen_app, ?blen_be_encode in *; pose proof (blen_nonneg rest); lia).
  assert (blen p = blen q) as E.
  { rewrite <- (frame_prefix mx p rest), <- (frame_prefix mx q rest') by done.
    rewrite K'. done. }
  rewrite E in K'. apply app_inv_head in K'.
  apply app_inj_1 in K' as [-> ->]; [done|]. unfold blen in E. lia.
Qed.

(** What a turn decided stands when more bytes follow. *)
Lemma turn_app mx b c x :
  mx < 2 ^ 32 -> turn mx b (Some x) ->
  turn mx (b ++ c)
    (Some (match x with Some (p, rest) => Some (p, rest ++ c) | None => None end)).
Proof.
  intros Hm Ht. inversion Ht as [| H H' E | p rest H H' E]; subst.
  - assert (take 4 (b ++ c) = take 4 b) as Et
      by (apply take_app_le; unfold blen in H; lia).
    apply turn_violation; rewrite ?Et; [|done].
    rewrite blen_app. pose proof (blen_nonneg c). lia.
  - apply turn_frame; [done|]. rewrite <- !app_assoc. done.
Qed.

Lemma turn_shrinks mx b p rest :
  turn mx b (Some (Some (p, rest))) -> (length rest < length b)%nat.
Proof.
  intros Ht. inversion Ht; subst. rewrite !length_app, be_encode_length. lia.
Qed.

Lemma feedLoop_step fuel f frames r :
  sized f -> turn (maxFrameBytes_ f) (buffer_ f) r ->
  feedLoop (S fuel) f frames =
    match r with
    | None => (f, frames)
    | Some None => (f <| violated_ := true |> <| buffer_ := [] |>, frames)
    | Some (Some (p, rest)) =>
        feedLoop fuel (f <| buffer_ := rest |>) (frames ++ [p])
    end.
Proof.
  intros Hs Ht. destruct (feedLoop_turn fuel f frames Hs) as (r' & Ht' & ->).
  enough (r = r') as -> by done.
  eapply turn_det; [|exact Ht|exact Ht']. destruct Hs; lia.
Qed.

Lemma sized_rest f p rest :
  sized f -> turn (maxFrameBytes_ f) (buffer_ f) (Some (Some (p, rest))) ->
  sized (f <| buffer_ := rest |>).
Proof.
  intros [Hm Hb] Ht. apply turn_shrinks in Ht. split; [done|].
  cbn. unfold blen in *. lia.
Qed.

(** The frames found earlier come first. *)
Lemma feedLoop_acc n f a b :
  feedLoop n f (a ++ b) = let '(f', r) := feedLoop n f b in (f', a ++ r).
Proof.
  revert f b. induction n as [|n IH]; intros f b; [done|]. cbn [feedLoop].
  split_matches; try done; simplify_eq.
  rewrite <- app_assoc, IH. split_matches. congruence.
Qed.

Lemma feedLoop_fuel n m f frames :
  sized f -> (length (buffer_ f) < n)%nat -> (length (buffer_ f) < m)%nat ->
  feedLoop n f frames = feedLoop m f frames.
Proof.
  revert m f frames. induction n as [|n IH]; intros m f frames Hs Hn Hm; [lia|].
  destruct m as [|m]; [lia|].
  destruct (feedLoop_turn n f frames Hs) as (r & Ht & ->).
  rewrite (feedLoop_step m f frames r) by done.
  destruct r as [[[p rest]|]|]; [|done..].
  pose proof (turn_shrinks _ _ _ _ Ht) as Hr.
  pose proof (sized_rest _ _ _ Hs Ht) as Hs'.
  apply IH; cbn; done || lia.
Qed.

(** The loop as [feed] starts it. *)
Definition run (f : t) : t * list bytes := feedLoop (S (length (buffer_ f))) f [].

Lemma feed_run c f :
  violated_ f = false -> feed c f = run (f <| buffer_ ::= fun b => b ++ c |>).
Proof. intros Hv. unfold feed. rewrite Hv. done. Qed.

Lemma run_turn f r :
  sized f -> turn (maxFrameBytes_ f) (buffer_ f) r ->
  run f =
    match r with
    | None => (f, [])
    | Some None => (f <| violated_ := true |> <| buffer_ := [] |>, [])
    | Some (Some (p, rest)) =>
        let '(f', fr) := run (f <| buffer_ := rest |>) in (f', p :: fr)
    end.
Proof.
  intros Hs Ht. unfold run at 1. rewrite (feedLoop_step _ _ [] r) by done.
  destruct r as [[[p rest]|]|]; [|done..].
  pose proof (sized_rest _ _ _ Hs Ht) as Hs'.
  pose proof (turn_shrinks _ _ _ _ Ht) as Hr.
  change ([] ++ [p]) with ([p] ++ []). rewrite feedLoop_acc. unfold run.
  rewrite (feedLoop_fuel (length (buffer_ f)) (S (length rest))) by (cbn; done || lia).
  done.
Qed.

Lemma run_app f c :
  violated_ f = false -> sized (f <| buffer_ ::= fun b => b ++ c |>) ->
  run (f <| buffer_ ::= fun b => b ++ c |>) =
    let '(f1, r1) := run f in let '(f2, r2) := feed c f1 in (f2, r1 ++ r2).
Proof.
  remember (length (buffer_ f)) as n eqn:Hn.
  revert f Hn. induction n as [n IH] using (well_founded_induction Nat.lt_wf_0).
  intros f -> Hv Hs.
  assert (maxFrameBytes_ f < 2 ^ 32) as Hm by (destruct Hs; cbn in *; lia).
  assert (sized f) as Hs1.
  { destruct Hs as [? Hb]; split; [done|]. cbn in Hb.
    rewrite blen_app in Hb. pose proof (blen_nonneg c). lia. }
  destruct (feedLoop_turn 0 f [] Hs1) as (r & Ht & _).
  rewrite (run_turn f r) by done.
  destruct r as [x|]; [|cbv beta iota zeta; rewrite feed_run by done; destruct (run _); done].
  pose proof (turn_app _ _ c _ Hm Ht) as Ht'.
  rewrite (run_turn _ _ Hs Ht').
  destruct x as [[p rest]|]; [|done].
  pose proof (turn_shrinks _ _ _ _ Ht) as Hr.
  specialize (IH _ Hr (f <| buffer_ := rest |>) eq_refl Hv).
  change (f <| buffer_ ::= (fun b => b ++ c) |> <| buffer_ := rest ++ c |>)
    with (f <| buffer_ := rest |> <| buffer_ ::= (fun b => b ++ c) |>).
  rewrite IH by exact (sized_rest _ _ _ Hs Ht').
  destruct (run (f <| buffer_ := rest |>)) as [f1 r1].
  destruct (feed c f1) as [f2 r2]. done.
Qed.

(** Two chunks give what their concatenation gives. *)
Lemma feed_app c1 c2 f :
  sized (f <| buffer_ ::= fun b => b ++ c1 ++ c2 |>) ->
  feed (c1 ++ c2) f =
    let '(f, r1) := feed c1 f in let '(f, r2) := feed c2 f in (f, r1 ++ r2).
Proof.
  intros Hs. destruct (violated_ f) eqn:Hv.
  { unfold feed at 1 2. rewrite Hv. unfold feed. rewrite Hv. done. }
  rewrite !(feed_run _ f) by done.
  rewrite <- run_app; [|done|].
  - destruct f. cbn. rewrite <- app_assoc. done.
  - destruct f. cbn in *. unfold sized in *. cbn in *. rewrite <- app_assoc. done.
Qed.

(** A loop's buffer never grows, its limit never changes. *)
Lemma feedLoop_bounds n f frames f' r :
  feedLoop n f frames = (f', r) ->
  maxFrameBytes_ f' = maxFrameBytes_ f /\ (length (buffer_ f') <= length (buffer_ f))%nat.
Proof.
  revert f frames. induction n as [|n IH]; intros f frames; cbn [feedLoop].
  { intros [= <- <-]. done. }
  split_matches; intros E; simplify_eq; try (split; [done|cbn; lia]).
  apply IH in E as [E1 E2]. cbn in *. rewrite length_drop in E2. split; [done|lia].
Qed.

Lemma feed_bounds c f f' r :
  feed c f = (f', r) ->
  maxFrameBytes_ f' = maxFrameBytes_ f /\ blen (buffer_ f') <= blen (buffer_ f) + blen c.
Proof.
  unfold feed. destruct (violated_ f).
  { intros [= <- <-]. pose proof (blen_nonneg c). split; [done|lia]. }
  intros E. apply feedLoop_bounds in E as [-> E]. split; [done|].
  rewrite <- blen_app. cbn in E. unfold blen. lia.
Qed.

(** Any chunking of a stream gives what feeding it whole gives. *)
Lemma feedAll_concat c cs f :
  0 <= maxFrameBytes_ f < 2 ^ 31 - 4 ->
  blen (buffer_ f) + blen (c ++ concat cs) < 2 ^ 32 ->
  feedAll (c :: cs) f = feed (c ++ concat cs) f.
Proof.
  revert c f. induction cs as [|c' cs IH]; intros c f Hm Hb.
  - cbn. rewrite app_nil_r. destruct (feed c f) as [f' r]. rewrite app_nil_r. done.
  - cbn [concat] in *. rewrite feed_app.
    2: { split; [done|]. cbn. rewrite blen_app. done. }
    remember (c' :: cs) as cs'. cbn [feedAll]. subst cs'.
    destruct (feed c f) as [f1 r1] eqn:E. apply feed_bounds in E as [E1 E2].
    rewrite IH; [done|rewrite E1; done|]. rewrite !blen_app in *. lia.
Qed.

(** A prefix the receiver with limit [mx] refuses. *)
Definition bad_prefix (mx : Z) (b : bytes) : Prop :=
  4 <= blen b /\ (be_decode (take 4 b) = 0 \/ mx < be_decode (take 4 b)).

(** The framer over a whole stream: good frames, then the end or a refusal. *)
Lemma run_stream mx ps tl :
  0 <= mx < 2 ^ 31 - 4 ->
  Forall (fun p : bytes => 0 < blen p <= mx) ps ->
  blen (concat (map encode ps) ++ tl) < 2 ^ 32 ->
  tl = [] \/ bad_prefix mx tl ->
  run (mk (concat (map encode ps) ++ tl) mx false) =
    (mk [] mx (negb (bool_decide (tl = []))), ps).
Proof.
  intros Hm Hps Hb Ht. induction Hps as [|p ps Hp _ IH].
  - cbn [map concat app]. destruct Ht as [->|Ht]; [done|].
    rewrite (run_turn _ (Some None)); [|split; [done|exact Hb]|destruct Ht; by constructor].
    rewrite bool_decide_eq_false_2; [done|].
    intros ->. destruct Ht as [H _]. unfold blen in H. cbn in H. lia.
  - cbn [map concat] in *. rewrite <- app_assoc in *. rewrite encode_prefix in *.
    rewrite to_u32_small in * by lia. rewrite <- app_assoc in *.
    rewrite (run_turn _ (Some (Some (p, concat (map encode ps) ++ tl)))).
    + cbn -[run]. change (mk _ mx false <| buffer_ := ?b |>) with (mk b mx false).
      rewrite IH; [done|]. rewrite !blen_app in *. pose proof (blen_nonneg p).
      rewrite blen_be_encode in Hb. lia.
    + split; [done|exact Hb].
    + apply turn_frame; done.
Qed.

(** C33. The TCP framing is lossless however the network cuts the stream:
    when the chunks that arrive concatenate to the encodings of a list of
    payloads, each within the limit and none empty, followed by nothing or by
    a prefix announcing an empty or oversized frame, then the frames handed on
    over all the chunks are exactly those payloads in order, nothing stays
    buffered, and the framer reports a violation exactly when there was a bad
    prefix; from then on further input produces nothing. *)
Theorem framer_stream (mx : Z) (ps cs : list bytes) (tl : bytes) :
  0 <= mx < 2 ^ 31 - 4 ->
  Forall (fun p : bytes => 0 < blen p <= mx) ps ->
  concat cs = concat (map encode ps) ++ tl ->
  blen (concat cs) < 2 ^ 32 ->
  tl = [] \/ bad_prefix mx tl ->
  let v := negb (bool_decide (tl = [])) in
  feedAll cs (create mx) = (mk [] mx v, ps) /\
  (v = true -> forall c, feed c (mk [] mx v) = (mk [] mx v, [])).
Proof.
  intros Hm Hps E Hb Ht v. split; [|intros -> c; done].
  assert (feedAll cs (create mx) = run (mk (concat cs) mx false)) as ->.
  { destruct cs as [|c cs]; [done|].
    rewrite feedAll_concat; [|done|exact Hb]. rewrite feed_run by done. done. }
  rewrite E in *. apply run_stream; done.
Qed.

Lemma framer_stream_witness :
  feedAll [take 3 (encode [Byte.x41; Byte.x42]);
           drop 3 (encode [Byte.x41; Byte.x42]) ++ [Byte.x00; Byte.x00; Byte.x00];
           [Byte.x00; Byte.x07]] (create 16)
  = (mk [] 16 true, [[Byte.x41; Byte.x42]]).
Proof.
  refine (proj1 (framer_stream 16 [[Byte.x41; Byte.x42]] _
                   [Byte.x00; Byte.x00; Byte.x00; Byte.x00; Byte.x07] _ _ _ _ _)).
  - lia.
  - repeat constructor; unfold blen; cbn; lia.
  - reflexivity.
  - unfold blen. cbn. lia.
  - right. split; [unfold blen; cbn; lia|left; reflexivity].
Defined.

End ApiFramer.
