(* ===== verification/ApiAuth.v ===== *)
(** Credentials of the External API: proofs of possession, the persisted store
    of paired clients, and the pairing window.

    Source: src/core/api/ApiAuth and src/core/api/PairingManager. [QByteArray]
    is [bytes], [QString] and [std::string] are [string] (UTF-8). The hash and
    HMAC of Qt, the YAML text format and the file are parameters; a YAML
    document is the tree of nodes the code walks. *)

From stdpp Require Import strings pretty.
From Stdlib Require Import Ascii String.
From S2P Require Import Prelude ApiFramer.

#[global] Open Scope string_scope.
#[global] Open Scope list_scope.
#[global] Open Scope Z_scope.

(** ** What the code calls *)

(** [QCryptographicHash] with Sha256 and [QMessageAuthenticationCode]. *)
Class Crypto := {
  sha256 : bytes -> bytes;
  hmac_sha256 : bytes -> bytes -> bytes;    (* message, key *)
  sha256_length m : List.length (sha256 m) = 32%nat
}.

(** [YAML::Node] *)
#[warnings="-register-all"]
Inductive Node :=
| Null
| Scalar (s : string)
| Sequence (l : list Node)
| Map (m : list (string * Node)).

(** The text format and conversions of yaml-cpp, [QString::trimmed]. *)
Class Yaml := {
  yaml_dump : Node -> bytes;
  yaml_int : string -> option Z;             (* as<int>(), may throw *)
  trimmed : string -> string;
  yaml_int_pretty z : - 2 ^ 31 <= z < 2 ^ 31 -> yaml_int (pretty z) = Some z;
  yaml_int_range s z : yaml_int s = Some z -> - 2 ^ 31 <= z < 2 ^ 31
}.

(** The file at [path_], read by [YAML::LoadFile] (no value: an exception)
    and written through [QSaveFile], which replaces it on [commit] only. *)
Class StoreFile `{!Yaml} (S : Type) := {
  file_exists : S -> bool;
  file_load : S -> option Node;
  sf_open : S -> bool;
  sf_write : S -> bytes -> Z;
  sf_setPermissions : S -> bool;
  sf_permissions : S -> Z;
  sf_commit : S -> bytes -> option S;
  sf_commit_exists s b s' : sf_commit s b = Some s' -> file_exists s' = true;
  sf_commit_load s doc s' :
    sf_commit s (yaml_dump doc) = Some s' -> file_load s' = Some doc
}.

(** [QRandomGenerator::system()], [QUuid::createUuid] without braces and the
    current UTC time in [Qt::ISODate] format. *)
Class Entropy (G : Type) := {
  generate32 : G -> G * Z;
  bounded : G -> Z -> G * Z;
  createUuid : G -> G * string;
  currentUtcIso : G -> string;
  generate32_range g : u32 (generate32 g).2;
  bounded_range g n : 0 < n -> 0 <= (bounded g n).2 < n
}.

(** ** A concrete environment

    Instances of the parameters on which the theorems can be evaluated: a toy
    hash, decimal integers, documents written as the bits of their encoding, a
    file that accepts every write and counters as the random source. *)
Module Sample.

Definition pad32 (m : bytes) : bytes := take 32 (m ++ replicate 32 Byte.x00).

#[export] Program Instance crypto : Crypto := {|
  sha256 m := pad32 m;
  hmac_sha256 m k := pad32 (k ++ m)
|}.
Next Obligation. intros m. unfold pad32. rewrite length_take, length_app, length_replicate. lia. Qed.

(** The value of a run of decimal digits after [acc]. *)
Fixpoint digitsValue (acc : N) (s : string) : N :=
  match s with
  | EmptyString => acc
  | String c s => digitsValue (10 * acc + (N_of_ascii c - 48)) s
  end%N.

Definition parseInt (s : string) : option Z :=
  let z := match s with
           | String "-"%char r => - Z.of_N (digitsValue 0 r)
           | _ => Z.of_N (digitsValue 0 s)
           end in
  if (- 2 ^ 31 <=? z) && (z <? 2 ^ 31) then Some z else None.

Lemma digitsValue_go x s : digitsValue 0 (pretty_N_go x s) = digitsValue x s.
Proof.
  revert s. induction x as [x IH] using (well_founded_induction N.lt_wf_0); intros s.
  destruct (decide (0 < x)%N) as [Hx|Hx].
  - rewrite pretty_N_go_step by done. rewrite IH by (apply N.div_lt; lia).
    cbn [digitsValue]. f_equal. rewrite (N.div_mod x 10) at 3 by lia. f_equal.
    pose proof (N.mod_lt x 10 ltac:(lia)) as Hm. clear -Hm.
    assert (Forall (fun n => (N_of_ascii (pretty_N_char (N.of_nat n)) - 48)%N = N.of_nat n)
              (seq 0 10)) as F by (repeat constructor).
    rewrite List.Forall_forall in F. specialize (F (N.to_nat (x mod 10))).
    rewrite N2Nat.id in F. apply F, in_seq. clear F. set (r := (x mod 10)%N) in *. lia.
  - assert (x = 0%N) as -> by lia. done.
Qed.

Lemma digitsValue_pretty n : digitsValue 0 (pretty n) = n.
Proof.
  unfold pretty, pretty_N. destruct (decide (n = 0%N)) as [->|Hn]; [done|].
  rewrite digitsValue_go. done.
Qed.

Lemma parseInt_pretty z : - 2 ^ 31 <= z < 2 ^ 31 -> parseInt (pretty z) = Some z.
Proof.
  intros Hz. unfold parseInt.
  assert ((match pretty z with
           | String "-"%char r => - Z.of_N (digitsValue 0 r)
           | _ => Z.of_N (digitsValue 0 (pretty z))
           end) = z) as ->.
  { destruct z as [|p|p]; [done| |].
    - change (pretty (Z.pos p)) with (pretty (N.pos p)).
      assert (forall r, pretty (N.pos p) <> "-" +:+ r) as Hd.
      { intros r. apply pretty_N_go_ne_dash. done. }
      destruct (pretty (N.pos p)) as [|c r] eqn:E.
      { rewrite <- E, digitsValue_pretty. done. }
      rewrite <- E, digitsValue_pretty.
      destruct (decide (c = "-"%char)) as [->|Hc]; [by destruct (Hd r)|].
      destruct c as [[] [] [] [] [] [] [] []]; done.
    - change (pretty (Z.neg p)) with (String "-"%char (pretty (N.pos p))).
      cbv beta iota.
      rewrite digitsValue_pretty. done. }
  destruct ((- 2 ^ 31 <=? z) && (z <? 2 ^ 31)) eqn:E; breflect; [done|].
  destruct E; breflect; lia.
Qed.

Lemma parseInt_range s z : parseInt s = Some z -> - 2 ^ 31 <= z < 2 ^ 31.
Proof.
  unfold parseInt. set (v := match s with _ => _ end).
  destruct (_ && _) eqn:E; [|done]. intros [= <-]. breflect. lia.
Qed.

(** Documents as trees, trees as positives, positives as bits. *)
Fixpoint nodeTree (n : Node) : gen_tree string :=
  match n with
  | Null => GenNode 0 []
  | Scalar s => GenLeaf s
  | Sequence l => GenNode 1 (map nodeTree l)
  | Map m => GenNode 2 (flat_map (fun '(k, v) => [GenLeaf k; nodeTree v]) m)
  end.

Fixpoint treeNode (t : gen_tree string) : Node :=
  match t with
  | GenLeaf s => Scalar s
  | GenNode 1 l => Sequence (map treeNode l)
  | GenNode 2 l =>
      Map ((fix go (l : list (gen_tree string)) :=
              match l with
              | GenLeaf k :: v :: r => (k, treeNode v) :: go r
              | _ => []
              end) l)
  | GenNode _ _ => Null
  end.

Lemma treeNode_nodeTree n : treeNode (nodeTree n) = n.
Proof.
  revert n. fix FIX 1. intros [|s|l|m]; [done..| |].
  - cbn. f_equal. induction l as [|n l IH]; [done|]. cbn. rewrite FIX, IH. done.
  - cbn. f_equal. induction m as [|[k v] m IH]; [done|]. cbn. rewrite FIX, IH. done.
Qed.

Fixpoint posBytes (p : positive) : bytes :=
  match p with
  | xH => []
  | xO p => Byte.x00 :: posBytes p
  | xI p => Byte.x01 :: posBytes p
  end.

Fixpoint bytesPos (l : bytes) : positive :=
  match l with
  | [] => xH
  | Byte.x00 :: l => xO (bytesPos l)
  | _ :: l => xI (bytesPos l)
  end.

Lemma bytesPos_posBytes p : bytesPos (posBytes p) = p.
Proof. induction p as [p IH|p IH|]; cbn; rewrite ?IH; done. Qed.

Definition parseDoc (b : bytes) : option Node :=
  treeNode <$> decode (bytesPos b).

#[export] Instance yaml : Yaml := {|
  yaml_dump n := posBytes (encode (nodeTree n));
  yaml_int := parseInt;
  trimmed s := s;
  yaml_int_pretty := parseInt_pretty;
  yaml_int_range := parseInt_range
|}.

(** No file, or a file's content. *)
#[export] Program Instance storeFile : StoreFile (option bytes) := {|
  file_exists f := bool_decide (is_Some f);
  file_load f := f ≫= parseDoc;
  sf_open _ := true;
  sf_write _ b := blen b;
  sf_setPermissions _ := true;
  sf_permissions _ := 0x6000;
  sf_commit _ b := Some (Some b)
|}.
Next Obligation. intros s b s' [= <-]. done. Qed.
Next Obligation.
  intros s doc s' [= <-]. cbn. unfold parseDoc.
  rewrite bytesPos_posBytes, decode_encode. cbn. rewrite treeNode_nodeTree. done.
Qed.

(** The counter is the seed of the next answer. *)
#[export] Program Instance entropy : Entropy Z := {|
  generate32 g := (g + 1, g mod 2 ^ 32);
  bounded g n := (g + 1, g mod n);
  createUuid g := (g + 1, "id" +:+ pretty g);
  currentUtcIso _ := "2026-01-01T00:00:00Z"
|}.
Next Obligation. intros g. unfold u32. cbn -[Z.pow Z.modulo]. apply Z.mod_pos_bound. lia. Qed.
Next Obligation. intros g n Hn. cbn -[Z.modulo]. apply Z.mod_pos_bound. lia. Qed.

End Sample.

(** ** Proofs *)

Definition toUtf8 (s : string) : bytes := list_byte_of_string s.

Section Crypto.
Context `{!Crypto}.

Definition deriveSecret (pairingCode : string) (salt : bytes) : bytes :=
  sha256 (toUtf8 pairingCode ++ salt).

Definition hmacProof (secret nonce : bytes) : bytes := hmac_sha256 nonce secret.

End Crypto.

(** The loop accumulates in an [unsigned char]. *)
Definition constantTimeEquals (a b : bytes) : bool :=
  if negb (blen a =? blen b) then false
  else
    fold_left (fun diff '(x, y) => Z.lor diff (Z.lxor (bval x) (bval y)))
      (zip a b) 0 =? 0.

Lemma constantTimeEquals_diff a b d :
  0 <= d -> List.length a = List.length b ->
  fold_left (fun diff '(x, y) => Z.lor diff (Z.lxor (bval x) (bval y))) (zip a b) d = 0
  <-> d = 0 /\ a = b.
Proof.
  revert b d. induction a as [|x a IH]; intros [|y b] d Hd Hl; try done; cbn -[bval].
  { naive_solver. }
  pose proof (bval_range x) as Hx. pose proof (bval_range y) as Hy. unfold u8 in *.
  assert (0 <= Z.lxor (bval x) (bval y)) by (apply Z.lxor_nonneg; lia).
  rewrite IH; [|apply Z.lor_nonneg; lia|cbn in Hl; lia].
  rewrite Z.lor_eq_0_iff, Z.lxor_eq_0_iff. split; [|intros [? [= -> ->]]; done].
  intros [[? E] ->]. apply (f_equal byte_of) in E. rewrite !byte_of_bval in E.
  by subst.
Qed.

(** The comparison that does not leak its position decides equality. *)
Lemma constantTimeEquals_spec a b : constantTimeEquals a b = bool_decide (a = b).
Proof.
  unfold constantTimeEquals. destruct (blen a =? blen b) eqn:E; breflect; cbn [negb].
  - unfold blen in E. destruct (_ =? 0) eqn:D; breflect; symmetry.
    + apply bool_decide_eq_true. apply constantTimeEquals_diff in D as [_ D]; [done..|lia].
    + apply bool_decide_eq_false. intros ->. apply D.
      apply constantTimeEquals_diff; [done..|]. done.
  - symmetry. apply bool_decide_eq_false. intros ->. done.
Qed.

(** ** Hexadecimal text *)

Definition hexDigit (n : Z) : ascii :=
  ascii_of_N (Z.to_N (if n <? 10 then 48 + n else 87 + n)).

Definition toHex (l : bytes) : string :=
  string_of_list_ascii
    (flat_map (fun b => [hexDigit (bval b / 16); hexDigit (bval b mod 16)]) l).

Definition asciiVal (c : ascii) : Z := Z.of_N (N_of_ascii c).

Definition hexValue (c : ascii) : option Z :=
  let v := asciiVal c in
  if (48 <=? v) && (v <=? 57) then Some (v - 48)
  else if (97 <=? v) && (v <=? 102) then Some (v - 87)
  else if (65 <=? v) && (v <=? 70) then Some (v - 55)
  else None.

(** Digits from the end, two to a byte; other characters are skipped. *)
Fixpoint fromHexRev (digits : list Z) : bytes :=
  match digits with
  | lo :: hi :: ds => fromHexRev ds ++ [byte_of (hi * 16 + lo)]
  | [lo] => [byte_of lo]
  | [] => []
  end.

Definition fromHex (s : string) : bytes :=
  fromHexRev (reverse (omap hexValue (list_ascii_of_string s))).

Definition isValidSecretHex (value : string) : bool :=
  if negb (Z.of_nat (String.length value) =? 64) then false
  else
    forallb (fun c =>
      let v := asciiVal c in
      ((48 <=? v) && (v <=? 57)) || ((97 <=? v) && (v <=? 102))
      || ((65 <=? v) && (v <=? 70)))
      (list_ascii_of_string value).

Lemma hexValue_hexDigit n :
  0 <= n < 16 -> hexValue (hexDigit n) = Some n.
Proof.
  intros Hn.
  assert (Forall (fun k => hexValue (hexDigit (Z.of_nat k)) = Some (Z.of_nat k))
            (seq 0 16)) as F by (repeat constructor).
  rewrite List.Forall_forall in F. specialize (F (Z.to_nat n)).
  rewrite Z2Nat.id in F by lia. apply F, in_seq. lia.
Qed.

Lemma nibbles b : 0 <= bval b / 16 < 16 /\ 0 <= bval b mod 16 < 16.
Proof.
  pose proof (bval_range b) as H. unfold u8 in H.
  pose proof (Z.mod_pos_bound (bval b) 16 ltac:(lia)).
  split; [split; [apply Z.div_pos|apply Z.div_lt_upper_bound]|]; lia.
Qed.

Lemma hexDigits_toHex l :
  omap hexValue (list_ascii_of_string (toHex l))
  = flat_map (fun b => [bval b / 16; bval b mod 16]) l.
Proof.
  unfold toHex. rewrite list_ascii_of_string_of_list_ascii.
  induction l as [|b l IH]; [done|]. cbn [flat_map]. rewrite omap_app, IH.
  destruct (nibbles b). cbn [omap list_omap].
  rewrite !hexValue_hexDigit by done. done.
Qed.

Lemma fromHex_toHex l : fromHex (toHex l) = l.
Proof.
  unfold fromHex. rewrite hexDigits_toHex.
  induction l as [|b l IH] using rev_ind; [done|].
  rewrite flat_map_app, reverse_app. cbn [flat_map app].
  change (reverse [?x; ?y]) with [y; x]. cbn [app fromHexRev]. rewrite IH.
  replace (bval b / 16 * 16 + bval b mod 16) with (bval b)
    by (rewrite (Z.div_mod (bval b) 16) at 1 by lia; lia).
  rewrite byte_of_bval. done.
Qed.

Lemma length_list_ascii s : List.length (list_ascii_of_string s) = String.length s.
Proof. induction s as [|c s IH]; cbn; congruence. Qed.

Lemma isValidSecretHex_toHex l :
  List.length l = 32%nat -> isValidSecretHex (toHex l) = true.
Proof.
  intros Hl. unfold isValidSecretHex. rewrite <- length_list_ascii. unfold toHex.
  rewrite list_ascii_of_string_of_list_ascii.
  assert (List.length (flat_map (fun b => [hexDigit (bval b / 16);
            hexDigit (bval b mod 16)]) l) = (2 * List.length l)%nat) as ->.
  { clear. induction l as [|b l IH]; [done|]. cbn [flat_map].
    rewrite List.length_app, IH. cbn. lia. }
  rewrite Hl. cbn [negb Nat.mul Nat.add Z.of_nat]. apply forallb_forall.
  intros c (b & _ & Hc)%in_flat_map.
  assert (exists v, hexValue c = Some v) as [v Hv].
  { destruct (nibbles b). destruct Hc as [<-|[<-|[]]];
      (eexists; apply hexValue_hexDigit; done). }
  unfold hexValue in Hv.
  destruct ((48 <=? asciiVal c) && _); [done|].
  destruct ((97 <=? asciiVal c) && _); [done|].
  destruct ((65 <=? asciiVal c) && _); done.
Qed.

Definition kLegacyCredentialGeneration : Z := 1.
Definition kSecureCodeCredentialGeneration : Z := 2.

Definition isKnownCredentialGeneration (generation : Z) : bool :=
  (generation =? kLegacyCredentialGeneration)
  || (generation =? kSecureCodeCredentialGeneration).

(** ** The store of paired clients *)

Record PairedClient := mkClient {
  clientId : string;
  secret : bytes;
  name : string;
  kind : Z;
  pairedAtIso : string;
  credentialGeneration : Z
}.

#[export] Instance PairedClient_eq_dec : EqDecision PairedClient.
Proof. solve_decision. Defined.

Module PairedClientStore.

Record t := mk {
  clients_ : list PairedClient;
  loadedSuccessfully_ : bool
}.

#[global] Instance t_settable : Settable t := {| eta_record r :=
  mk (clients_ r) (loadedSuccessfully_ r) |}.

Definition create : t := mk [] false.

Definition find (cid : string) (st : t) : option PairedClient :=
  snd <$> list_find (fun c => clientId c = cid) (clients_ st).

(** [removeAt] of the first entry with the id. *)
Definition removeFirst (cid : string) (l : list PairedClient) : list PairedClient :=
  match list_find (fun c => clientId c = cid) l with
  | Some (i, _) => delete i l
  | None => l
  end.

Definition upsert (c : PairedClient) (st : t) : t :=
  st <| clients_ ::= fun l => removeFirst (clientId c) l ++ [c] |>.

Definition remove (cid : string) (st : t) : t * bool :=
  match list_find (fun c => clientId c = cid) (clients_ st) with
  | Some (i, _) => (st <| clients_ ::= delete i |>, true)
  | None => (st, false)
  end.

Definition all (st : t) : list PairedClient := clients_ st.

Section Store.
Context {yaml : Yaml} {S : Type} {storeFile : StoreFile S}.

(** [node[key]], no value when undefined. *)
Definition mapGet (k : string) (n : Node) : option Node :=
  match n with
  | Map m =>
      match list_find (fun e : string * Node => e.1 = k) m with
      | Some (_, (_, v)) => Some v
      | None => None
      end
  | _ => None
  end.

(** [!node[key] || !node[key].IsScalar()], then [as<std::string>()]. *)
Definition scalarGet (k : string) (n : Node) : option string :=
  match mapGet k n with Some (Scalar s) => Some s | _ => None end.

(** One client of the sequence: [None] where the code fails the load, by a
    check or by the exception of a failed conversion. *)
Definition loadClient (seen : gset string) (node : Node) : option PairedClient :=
  match node with
  | Map _ =>
      cid ← scalarGet "id" node;
      hexSecret ← scalarGet "secret_hex" node;
      nm ← scalarGet "name" node;
      kindText ← scalarGet "kind" node;
      pairedAt ← scalarGet "paired_at" node;
      if bool_decide (trimmed cid = "") || bool_decide (cid ∈ seen) then None
      else if negb (isValidSecretHex hexSecret) then None
      else if negb (blen (fromHex hexSecret) =? 32) then None
      else
        kd ← yaml_int kindText;
        gen ← match mapGet "credential_generation" node with
              | None => Some kLegacyCredentialGeneration
              | Some (Scalar s) => yaml_int s
              | Some _ => None
              end;
        if negb (isKnownCredentialGeneration gen) then None
        else Some (mkClient cid (fromHex hexSecret) nm kd pairedAt gen)
  | _ => None
  end.

Fixpoint loadClients (nodes : list Node) (seen : gset string)
    (loaded : list PairedClient) : option (list PairedClient) :=
  match nodes with
  | [] => Some loaded
  | node :: rest =>
      c ← loadClient seen node;
      loadClients rest ({[clientId c]} ∪ seen) (loaded ++ [c])
  end.

Definition load (file : S) (st : t) : t * bool :=
  if negb (file_exists file) then (mk [] true, true)
  else
    let failed := (st <| loadedSuccessfully_ := false |>, false) in
    match file_load file with
    | Some (Map m) =>
        match mapGet "clients" (Map m) with
        | Some Null => (mk [] true, true)
        | Some (Sequence nodes) =>
            match loadClients nodes ∅ [] with
            | Some loaded => (mk loaded true, true)
            | None => failed
            end
        | _ => failed
        end
    | _ => failed
    end.

Definition clientNode (c : PairedClient) : Node :=
  Map [("id", Scalar (clientId c)); ("secret_hex", Scalar (toHex (secret c)));
       ("name", Scalar (name c)); ("kind", Scalar (pretty (kind c)));
       ("paired_at", Scalar (pairedAtIso c));
       ("credential_generation", Scalar (pretty (credentialGeneration c)))].

Definition storeDoc (l : list PairedClient) : Node :=
  Map [("clients", Sequence (map clientNode l))].

(** [ReadOwner | WriteOwner], and the nine permission bits of the mask. *)
Definition storePermissions : Z := Z.lor 0x4000 0x2000.
Definition permissionMask : Z :=
  Z.lor 0x4000 (Z.lor 0x2000 (Z.lor 0x1000 (Z.lor 0x0040 (Z.lor 0x0020
    (Z.lor 0x0010 (Z.lor 0x0004 (Z.lor 0x0002 0x0001))))))).

(** The file afterwards, and success; every failure leaves it as it was. *)
Definition save (st : t) (file : S) : S * bool :=
  if negb (loadedSuccessfully_ st) then (file, false)
  else
    let yamlContent := yaml_dump (storeDoc (clients_ st)) in
    if negb (sf_open file) then (file, false)
    else if negb (sf_write file yamlContent =? blen yamlContent) then (file, false)
    else if negb (sf_setPermissions file)
         || negb (Z.land (sf_permissions file) permissionMask =? storePermissions)
    then (file, false)
    else match sf_commit file yamlContent with
         | Some file' => (file', true)
         | None => (file, false)
         end.

(** *** What a well-formed store is *)

Definition client_ok (c : PairedClient) : Prop :=
  trimmed (clientId c) <> "" /\ List.length (secret c) = 32%nat /\
  - 2 ^ 31 <= kind c < 2 ^ 31 /\
  isKnownCredentialGeneration (credentialGeneration c) = true.

Definition clients_ok (l : list PairedClient) : Prop :=
  Forall client_ok l /\ NoDup (clientId <$> l).

Lemma known_generation_int g :
  isKnownCredentialGeneration g = true -> yaml_int (pretty g) = Some g.
Proof.
  unfold isKnownCredentialGeneration, kLegacyCredentialGeneration,
    kSecureCodeCredentialGeneration.
  intros H. apply yaml_int_pretty. breflect. destruct H; breflect; subst; lia.
Qed.

Lemma clientNode_get c :
  scalarGet "id" (clientNode c) = Some (clientId c) /\
  scalarGet "secret_hex" (clientNode c) = Some (toHex (secret c)) /\
  scalarGet "name" (clientNode c) = Some (name c) /\
  scalarGet "kind" (clientNode c) = Some (pretty (kind c)) /\
  scalarGet "paired_at" (clientNode c) = Some (pairedAtIso c) /\
  mapGet "credential_generation" (clientNode c)
    = Some (Scalar (pretty (credentialGeneration c))).
Proof. done. Qed.

Lemma loadClient_clientNode seen c :
  client_ok c -> clientId c ∉ seen -> loadClient seen (clientNode c) = Some c.
Proof.
  intros (Ht & Hl & Hk & Hg) Hs.
  destruct (clientNode_get c) as (E1 & E2 & E3 & E4 & E5 & E6).
  unfold loadClient. rewrite E1, E2, E3, E4, E5, E6. cbn [clientNode mbind option_bind].
  rewrite !bool_decide_eq_false_2 by done. cbn [orb].
  rewrite isValidSecretHex_toHex, fromHex_toHex by done. cbn [negb].
  unfold blen. rewrite Hl. change (negb (Z.of_nat 32 =? 32)) with false. cbn iota.
  rewrite (yaml_int_pretty (kind c)) by exact Hk. cbn [mbind option_bind].
  rewrite known_generation_int by done.
  cbn [mbind option_bind]. rewrite Hg. destruct c. done.
Qed.

Lemma loadClients_map l seen acc :
  Forall client_ok l -> NoDup (clientId <$> l) ->
  (forall c, c ∈ l -> clientId c ∉ seen) ->
  loadClients (map clientNode l) seen acc = Some (acc ++ l).
Proof.
  intros Hok. revert seen acc. induction Hok as [|c l Hc Hok IH]; intros seen acc Hnd Hs.
  { rewrite app_nil_r. done. }
  cbn [map loadClients]. rewrite fmap_cons, NoDup_cons in Hnd. destruct Hnd as [Hn Hnd].
  rewrite loadClient_clientNode by (done || apply Hs; left).
  cbn. rewrite IH; [rewrite <- app_assoc; done|done|].
  intros d Hd. apply not_elem_of_union. split.
  - rewrite elem_of_singleton. intros E. apply Hn. rewrite <- E.
    apply list_elem_of_fmap_2. done.
  - apply Hs. right. done.
Qed.

Lemma save_load st file file' :
  clients_ok (clients_ st) -> save st file = (file', true) ->
  forall st0, load file' st0 = (mk (clients_ st) true, true).
Proof.
  intros [Hok Hnd] Hsave st0. unfold save in Hsave.
  destruct (loadedSuccessfully_ st); [|done]. cbn [negb] in Hsave.
  destruct (sf_open file); [|done]. cbn [negb] in Hsave.
  destruct (_ =? blen _); [|done]. cbn [negb] in Hsave.
  destruct (_ || _); [done|].
  destruct (sf_commit _ _) as [f|] eqn:Ec; simplify_eq.
  unfold load. rewrite (sf_commit_exists _ _ _ Ec), (sf_commit_load _ _ _ Ec).
  unfold storeDoc. cbn [negb].
  assert (forall l, mapGet "clients" (Map [("clients", Sequence l)]) = Some (Sequence l))
    as -> by done.
  rewrite loadClients_map; [done|done|done|].
  intros c _. apply not_elem_of_empty.
Qed.

Lemma save_failed st file file' : save st file = (file', false) -> file' = file.
Proof. unfold save. split_matches; congruence. Qed.

Lemma load_failed file st st' :
  load file st = (st', false) -> st' = st <| loadedSuccessfully_ := false |>.
Proof. unfold load. split_matches; congruence. Qed.

(** A load that succeeds yields a well-formed store. *)
Lemma loadClient_ok seen node c :
  loadClient seen node = Some c -> client_ok c /\ clientId c ∉ seen.
Proof.
  unfold loadClient. destruct node as [| | |m]; try done.
  destruct (scalarGet "id" _) as [cid|]; [|done]. cbn -[bool_decide].
  destruct (scalarGet "secret_hex" _) as [hx|]; [|done]. cbn -[bool_decide].
  destruct (scalarGet "name" _) as [nm|]; [|done]. cbn -[bool_decide].
  destruct (scalarGet "kind" _) as [kt|]; [|done]. cbn -[bool_decide].
  destruct (scalarGet "paired_at" _) as [pa|]; [|done]. cbn -[bool_decide].
  destruct (_ || _) eqn:E1; [done|]. breflect.
  destruct (isValidSecretHex hx); [|done]. cbn [negb].
  destruct (_ =? 32) eqn:E2; [|done]. cbn [negb]. breflect.
  destruct (yaml_int kt) as [kd|] eqn:Ek; [|done]. cbn -[isKnownCredentialGeneration].
  match goal with |- ?o ≫= _ = _ -> _ => destruct o as [gen|]; [|done] end.
  cbn -[isKnownCredentialGeneration].
  destruct (isKnownCredentialGeneration gen) eqn:Eg; [|done]. intros [= <-]. cbn.
  split; [|done]. split; [done|]. split; [unfold blen in E2; cbn; lia|].
  split; [|done]. cbn. apply (yaml_int_range kt). done.
Qed.

Lemma loadClients_ok nodes seen acc l :
  clients_ok acc -> (forall c, c ∈ acc -> clientId c ∈ seen) ->
  loadClients nodes seen acc = Some l -> clients_ok l.
Proof.
  revert seen acc. induction nodes as [|n nodes IH]; cbn; intros seen acc [Ha Hn] Hs E.
  { simplify_eq. done. }
  destruct (loadClient seen n) as [c|] eqn:Ec; [|done]. cbn in E.
  apply loadClient_ok in Ec as [Hc Hseen]. eapply IH; [| |exact E].
  - split; [apply Forall_app; split; [done|by constructor]|].
    rewrite fmap_app. apply NoDup_app. split_and!; [done| |apply NoDup_singleton].
    intros x (d & -> & Hd)%list_elem_of_fmap_1 Ed%list_elem_of_singleton.
    apply Hseen. cbn in Ed. rewrite <- Ed. apply Hs. done.
  - intros d [Hd|Hd%list_elem_of_singleton]%elem_of_app; apply elem_of_union.
    + right. apply Hs. done.
    + left. subst. apply elem_of_singleton. done.
Qed.

Lemma load_ok file st st' : load file st = (st', true) -> clients_ok (clients_ st').
Proof.
  assert (clients_ok []) as Hnil by (split; constructor).
  unfold load. destruct (negb _); [intros [= <-]; done|].
  destruct (file_load file) as [[| | |m]|]; try done.
  destruct (mapGet _ _) as [[| |nodes|]|]; try done; [intros [= <-]; done|].
  destruct (loadClients nodes ∅ []) as [l|] eqn:E; [|done].
  intros [= <-]. cbn. eapply loadClients_ok; [done| |exact E].
  intros c Hc. inversion Hc.
Qed.

(** *** Insertion and removal *)

Lemma removeFirst_fresh cid l :
  (forall c, c ∈ l -> clientId c <> cid) -> removeFirst cid l = l.
Proof.
  intros H. unfold removeFirst.
  destruct (list_find _ l) as [[i c]|] eqn:E; [|done].
  apply list_find_Some in E as (Hi & Hc & _).
  exfalso. eapply H; [eapply list_elem_of_lookup_2; exact Hi|done].
Qed.

Lemma find_upsert c st :
  find (clientId c) (upsert c st) = Some c \/ clientId c ∈ clientId <$> clients_ st.
Proof.
  destruct (decide (clientId c ∈ clientId <$> clients_ st)) as [H|H]; [by right|left].
  unfold find, upsert. cbn.
  rewrite removeFirst_fresh.
  2: { intros d Hd E. apply H. rewrite <- E. apply list_elem_of_fmap_2. done. }
  rewrite list_find_app_r.
  - cbn. rewrite decide_True by done. done.
  - apply list_find_None, Forall_forall. intros d Hd E. apply H. rewrite <- E.
    apply list_elem_of_fmap_2. done.
Qed.

(** Undoing an insertion under a new id restores the store. *)
Lemma remove_upsert c st :
  clientId c ∉ clientId <$> clients_ st -> remove (clientId c) (upsert c st) = (st, true).
Proof.
  intros H.
  assert (forall d, d ∈ clients_ st -> clientId d <> clientId c) as Hf.
  { intros d Hd E. apply H. rewrite <- E. apply list_elem_of_fmap_2. done. }
  unfold remove, upsert. destruct st as [l ok]. cbn in *.
  rewrite removeFirst_fresh by done. rewrite list_find_app_r.
  2: { apply list_find_None, Forall_forall. done. }
  cbn. rewrite decide_True by done. cbn.
  rewrite (delete_middle l [] c), app_nil_r. done.
Qed.

Lemma upsert_ok c st :
  clients_ok (clients_ st) -> client_ok c -> clientId c ∉ clientId <$> clients_ st ->
  clients_ok (clients_ (upsert c st)).
Proof.
  intros [Ha Hn] Hc H. unfold upsert. cbn. rewrite removeFirst_fresh.
  2: { intros d Hd E. apply H. rewrite <- E. apply list_elem_of_fmap_2. done. }
  split; [apply Forall_app; split; [done|by constructor]|].
  rewrite fmap_app. apply NoDup_app. split_and!; [done| |apply NoDup_singleton].
  intros x Hx Ex%list_elem_of_singleton. cbn in Ex. subst. done.
Qed.

(** C34. The credential file is never lost or damaged. A save that reports
    success leaves a file from which every later load restores exactly the
    clients of the store (hexadecimal secrets decode to the same 32 bytes,
    kinds and generations to the same integers), provided the store is
    well-formed; a save that reports failure leaves the file as it was. A load
    that succeeds yields a well-formed store with unique ids. After a load
    that fails, the clients in memory are unchanged and saving is refused, so
    an unreadable file is never overwritten. *)
Theorem store_persistence (st : t) (file : S) :
  (forall file', clients_ok (clients_ st) -> save st file = (file', true) ->
     forall st0, load file' st0 = (mk (clients_ st) true, true)) /\
  (forall file', save st file = (file', false) -> file' = file) /\
  (forall st', load file st = (st', true) ->
     clients_ok (clients_ st') /\ loadedSuccessfully_ st' = true) /\
  (forall st', load file st = (st', false) ->
     clients_ st' = clients_ st /\ forall file', save st' file' = (file', false)).
Proof.
  split; [intros file' Hok Hs; exact (save_load _ _ _ Hok Hs)|].
  split; [exact (save_failed st file)|]. split.
  - intros st' E. split; [exact (load_ok _ _ _ E)|].
    unfold load in E. split_matches_in E; simplify_eq; done.
  - intros st' E. apply load_failed in E. subst. done.
Qed.

End Store.

Import Sample.

Definition sample_store : t :=
  mk [mkClient "a" (replicate 32 Byte.x2a) "phone" 1 "2026-01-01" 2] true.

Lemma sample_store_ok : clients_ok (clients_ sample_store).
Proof.
  split; [|apply NoDup_singleton]. constructor; [|constructor].
  split; [done|]. split; [done|]. split; [cbn; lia|done].
Qed.

Lemma store_persistence_witness :
  save sample_store None = (Some (yaml_dump (storeDoc (clients_ sample_store))), true) /\
  load (Some (yaml_dump (storeDoc (clients_ sample_store)))) create = (sample_store, true).
Proof.
  assert (save sample_store (None : option bytes)
          = (Some (yaml_dump (storeDoc (clients_ sample_store))), true)) as E
    by (vm_compute; reflexivity).
  split; [exact E|].
  exact (proj1 (store_persistence sample_store None) _ sample_store_ok E create).
Defined.

End PairedClientStore.

(** ** The pairing window *)

Module PairingManager.

Section Pairing.
Context {crypto : Crypto} {yaml : Yaml} {S : Type} {storeFile : StoreFile S}.
Context {G : Type} {entropy : Entropy G}.

Record t := mk {
  timer_ : option Z;                 (* interval of the running timer *)
  windowOpen_ : bool;
  code_ : string;
  salt_ : bytes;
  codeGenerator_ : option (G -> G * string)
}.

#[global] Instance t_settable : Settable t := {| eta_record r :=
  mk (timer_ r) (windowOpen_ r) (code_ r) (salt_ r) (codeGenerator_ r) |}.

Inductive Signal := windowChanged.

(** What the pairing and the sessions share: the manager, the store it points
    to with its file, and the system's random source. *)
Record keyring := mkKeyring {
  pairing : t;
  store : option PairedClientStore.t;
  file : S;
  rng : G;
  signals : list Signal
}.

#[global] Instance keyring_settable : Settable keyring := {| eta_record r :=
  mkKeyring (pairing r) (store r) (file r) (rng r) (signals r) |}.

(** [count] words of the generator, in memory order. *)
Fixpoint fillRange (count : nat) (g : G) : G * bytes :=
  match count with
  | O => (g, [])
  | Datatypes.S n =>
      let '(g, w) := generate32 g in
      let '(g, l) := fillRange n g in
      (g, reverse (be_encode 4 w) ++ l)
  end.

Fixpoint boundedBytes (count : nat) (g : G) : G * bytes :=
  match count with
  | O => (g, [])
  | Datatypes.S n =>
      let '(g, b) := bounded g 256 in
      let '(g, l) := boundedBytes n g in (g, byte_of b :: l)
  end.

Definition randomBytes (count : nat) (g : G) : G * bytes :=
  let wholeWords := (count / 4)%nat in
  let '(g, l) := fillRange wholeWords g in
  let '(g, l') := boundedBytes (count - wholeWords * 4) g in
  (g, l ++ l').

Definition kAlphabet : string := "ABCDEFGHIJKLMNOPQRSTUVWXYZ234567".

Fixpoint codeLoop (count : nat) (g : G) : G * string :=
  match count with
  | O => (g, "")
  | Datatypes.S n =>
      let '(g, i) := bounded g 32 in
      let '(g, s) := codeLoop n g in
      (g, String (default Ascii.zero (String.get (Z.to_nat i) kAlphabet)) s)
  end.

Definition randomPairingCode (g : G) : G * string := codeLoop 24 g.

Definition create : t := mk None false "" [] (Some randomPairingCode).

Definition codeChar (c : ascii) : bool :=
  let u := asciiVal c in
  ((65 <=? u) && (u <=? 90)) || ((50 <=? u) && (u <=? 55)).

Definition isValidCode (code : string) : bool :=
  if negb (Z.of_nat (String.length code) =? 24) then false
  else forallb codeChar (list_ascii_of_string code).

(** A dash before every fourth character but the first. *)
Fixpoint group (i : Z) (code : string) : string :=
  match code with
  | EmptyString => ""
  | String c rest =>
      let tail := String c (group (i + 1) rest) in
      if (0 <? i) && (i mod 4 =? 0) then String "-" tail else tail
  end.

Definition formatCode (code : string) : string :=
  if bool_decide (code = "") then "" else group 0 code.

Definition startWindow (timeoutSeconds : Z) (k : keyring) : keyring * bool :=
  match store k with
  | None => (k, false)
  | Some st =>
      if negb (PairedClientStore.loadedSuccessfully_ st) then (k, false)
      else
        let '(g, generated) :=
          match codeGenerator_ (pairing k) with
          | Some gen => gen (rng k)
          | None => (rng k, "")
          end in
        if negb (isValidCode generated) then (k <| rng := g |>, false)
        else
          let '(g, salt) := randomBytes 16 g in
          let pm := pairing k <| code_ := generated |> <| salt_ := salt |>
                      <| windowOpen_ := true |>
                      <| timer_ := Some (ApiFramer.to_i32 (timeoutSeconds * 1000)) |> in
          (k <| rng := g |> <| pairing := pm |>
             <| signals ::= fun l => l ++ [windowChanged] |>, true)
  end.

Definition cancelWindow (k : keyring) : keyring :=
  let pm := pairing k <| timer_ := None |> <| windowOpen_ := false |>
              <| code_ := "" |> <| salt_ := [] |> in
  k <| pairing := pm |> <| signals ::= fun l => l ++ [windowChanged] |>.

(** The single-shot timer fires only while it runs. *)
Definition timeout (k : keyring) : keyring :=
  match timer_ (pairing k) with Some _ => cancelWindow k | None => k end.

Definition windowOpen (k : keyring) : bool := windowOpen_ (pairing k).
Definition currentCode (k : keyring) : string := code_ (pairing k).
Definition displayCode (k : keyring) : string := formatCode (code_ (pairing k)).
Definition currentSalt (k : keyring) : bytes := salt_ (pairing k).

Definition makeNonce (k : keyring) : keyring * bytes :=
  let '(g, nonce) := randomBytes 32 (rng k) in (k <| rng := g |>, nonce).

(** [None] for [std::nullopt]. The window opens only with a store present
    (see [open_ok]), so the last case is never taken. *)
Definition completePairing (nonce proof : bytes) (clientName : string)
    (clientKind : Z) (k : keyring) : keyring * option string :=
  if negb (windowOpen_ (pairing k)) then (k, None)
  else
    let secret := deriveSecret (code_ (pairing k)) (salt_ (pairing k)) in
    let expected := hmacProof secret nonce in
    if negb (constantTimeEquals expected proof) then (k, None)
    else
      let '(g, cid) := createUuid (rng k) in
      let client := mkClient cid secret clientName clientKind
                      (currentUtcIso g ++ "Z") kSecureCodeCredentialGeneration in
      let k := k <| rng := g |> in
      match store k with
      | Some st =>
          let st := PairedClientStore.upsert client st in
          let '(f, saved) := PairedClientStore.save st (file k) in
          let k := k <| store := Some st |> <| file := f |> in
          if negb saved then
            (k <| store := Some (PairedClientStore.remove cid st).1 |>, None)
          else (cancelWindow k, Some cid)
      | None => (k, None)
      end.

(** *** The window's invariant *)

Definition open_ok (k : keyring) : Prop :=
  if windowOpen k then
    isValidCode (currentCode k) = true /\ List.length (currentSalt k) = 16%nat /\
    exists st, store k = Some st /\ PairedClientStore.loadedSuccessfully_ st = true
  else currentCode k = "" /\ currentSalt k = [] /\ timer_ (pairing k) = None.

Lemma fillRange_length n g : List.length (fillRange n g).2 = (4 * n)%nat.
Proof.
  revert g. induction n as [|n IH]; intros g; [done|]. cbn [fillRange].
  destruct (generate32 g) as [g1 w]. specialize (IH g1).
  destruct (fillRange n g1) as [g2 l]. cbn [snd] in *.
  rewrite length_app, length_reverse, be_encode_length, IH. lia.
Qed.

Lemma boundedBytes_length n g : List.length (boundedBytes n g).2 = n.
Proof.
  revert g. induction n as [|n IH]; intros g; [done|]. cbn [boundedBytes].
  destruct (bounded g 256) as [g1 w]. specialize (IH g1).
  destruct (boundedBytes n g1) as [g2 l]. cbn in *. lia.
Qed.

Lemma randomBytes_length n g : List.length (randomBytes n g).2 = n.
Proof.
  unfold randomBytes. pose proof (fillRange_length (n / 4) g) as H1.
  destruct (fillRange (n / 4) g) as [g1 l].
  pose proof (boundedBytes_length (n - n / 4 * 4) g1) as H2.
  destruct (boundedBytes _ g1) as [g2 l']. cbn [snd] in *.
  rewrite length_app, H1, H2.
  pose proof (Nat.div_mod_eq n 4). lia.
Qed.

Lemma alphabet_ok i :
  0 <= i < 32 -> codeChar (default Ascii.zero (String.get (Z.to_nat i) kAlphabet)) = true.
Proof.
  intros Hi.
  assert (Forall (fun n => codeChar (default Ascii.zero (String.get n kAlphabet)) = true)
            (seq 0 32)) as F by (repeat constructor).
  rewrite List.Forall_forall in F. apply F, in_seq. lia.
Qed.

(** The default generator's codes are valid. *)
Lemma codeLoop_ok n g :
  String.length (codeLoop n g).2 = n /\
  forallb codeChar (list_ascii_of_string (codeLoop n g).2) = true.
Proof.
  revert g. induction n as [|n IH]; intros g; [done|]. cbn [codeLoop].
  pose proof (bounded_range g 32 ltac:(lia)) as Hb.
  destruct (bounded g 32) as [g1 i]. destruct (IH g1) as [IH1 IH2].
  destruct (codeLoop n g1) as [g2 s]. cbn [snd] in *.
  cbn [String.length list_ascii_of_string forallb].
  rewrite IH1, IH2, alphabet_ok by done. done.
Qed.

Lemma randomPairingCode_ok g : isValidCode (randomPairingCode g).2 = true.
Proof.
  unfold isValidCode, randomPairingCode. destruct (codeLoop_ok 24 g) as [-> ->]. done.
Qed.

Lemma startWindow_open_ok secs k : open_ok k -> open_ok (startWindow secs k).1.
Proof.
  intros H. unfold startWindow. destruct (store k) as [st|] eqn:Es; [|done].
  destruct (PairedClientStore.loadedSuccessfully_ st) eqn:El; [|done]. cbn [negb].
  destruct (match codeGenerator_ (pairing k) with
            | Some gen => gen (rng k) | None => (rng k, "") end) as [g code].
  destruct (isValidCode code) eqn:Ec; [|done]. cbn [negb].
  pose proof (randomBytes_length 16 g) as Hl. destruct (randomBytes 16 g) as [g' salt].
  split; [exact Ec|]. split; [exact Hl|]. exists st. done.
Qed.

Lemma cancelWindow_open_ok k : open_ok (cancelWindow k).
Proof. done. Qed.

(** C35. Completing a pairing either grants a credential or changes nothing
    that outlives the call. It fails exactly when no window is open, or the
    proof is not the HMAC of the issued nonce under the secret derived from
    the displayed code and salt, or the new client cannot be saved; then the
    window stays as it was, and the store and its file hold exactly the
    clients they held before. When it succeeds, the granted id names a client
    with that secret and the current credential generation in the store, the
    file holds the store, and the window is closed with its code and salt
    wiped, so no second pairing can use the code. *)
Theorem pairing_completion (nonce proof : bytes) (nm : string) (kd : Z) (k : keyring)
    (st : PairedClientStore.t) :
  open_ok k -> store k = Some st ->
  PairedClientStore.clients_ok (PairedClientStore.clients_ st) ->
  - 2 ^ 31 <= kd < 2 ^ 31 ->
  let cid := (createUuid (rng k)).2 in
  cid ∉ clientId <$> PairedClientStore.clients_ st -> trimmed cid <> "" ->
  let secret := deriveSecret (currentCode k) (currentSalt k) in
  let client := mkClient cid secret nm kd
                  (currentUtcIso (createUuid (rng k)).1 ++ "Z")
                  kSecureCodeCredentialGeneration in
  let '(k', granted) := completePairing nonce proof nm kd k in
  (granted = None <->
     windowOpen k = false \/ proof <> hmacProof secret nonce \/
     (PairedClientStore.save (PairedClientStore.upsert client st) (file k)).2 = false) /\
  match granted with
  | None => pairing k' = pairing k /\ store k' = Some st /\ file k' = file k
  | Some id =>
      id = cid /\ windowOpen k' = false /\ currentCode k' = "" /\ currentSalt k' = [] /\
      exists st', store k' = Some st' /\
        PairedClientStore.find id st' = Some client /\
        PairedClientStore.load (file k') PairedClientStore.create = (st', true) /\
        forall nonce2 proof2 nm2 kd2,
          (completePairing nonce2 proof2 nm2 kd2 k').2 = None
  end.
Proof.
  intros Ho Hst Hok Hkd cid Hfresh Htrim secret client.
  unfold completePairing. fold (windowOpen k). unfold open_ok in Ho.
  destruct (windowOpen k) eqn:Ew; cbn [negb].
  2: { split; [|done]. split; [by left|done]. }
  rewrite constantTimeEquals_spec. fold (currentCode k) (currentSalt k) secret.
  destruct (bool_decide (hmacProof secret nonce = proof)) eqn:Ep; breflect; cbn [negb].
  2: { split; [|done]. split; [intros _; right; left; congruence|done]. }
  subst cid client. destruct (createUuid (rng k)) as [g cid] eqn:Eu. cbn [fst snd] in *.
  set (client := mkClient _ _ _ _ _ _) in *.
  change (store (k <| rng := g |>)) with (store k).
  change (file (k <| rng := g |>)) with (file k). rewrite Hst.
  destruct Ho as (_ & _ & st0 & Es & Hl). simplify_eq.
  assert (PairedClientStore.client_ok client) as Hc.
  { split; [exact Htrim|]. split; [apply sha256_length|]. done. }
  pose proof (PairedClientStore.upsert_ok client st0 Hok Hc Hfresh) as Hok'.
  destruct (PairedClientStore.save _ _) as [f ok] eqn:Esave.
  destruct ok; cbn -[PairedClientStore.upsert PairedClientStore.remove].
  - split; [split; [done|intros [?|[?|?]]; done]|].
    split_and!; try done. eexists. split; [done|].
    pose proof (PairedClientStore.find_upsert client st0) as [Hf|Hf]; [|done].
    split_and!; [exact Hf| |done].
    rewrite (PairedClientStore.save_load _ _ _ Hok' Esave). cbn. rewrite Hl. done.
  - split; [split; [intros _; right; right; done|done]|].
    change (PairedClientStore.remove cid) with (PairedClientStore.remove (clientId client)).
    rewrite (PairedClientStore.remove_upsert client) by done.
    apply PairedClientStore.save_failed in Esave. subst. done.
Qed.

End Pairing.

Import Sample.

Definition sample_keyring : keyring (S := option bytes) (G := Z) :=
  (startWindow 120
     (mkKeyring create (Some PairedClientStore.sample_store) None 7 [])).1.

Lemma pairing_completion_witness :
  let nonce := replicate 32 Byte.x07 in
  let proof := hmacProof (deriveSecret (currentCode sample_keyring)
                            (currentSalt sample_keyring)) nonce in
  let '(k', granted) := completePairing nonce proof "tablet" 3 sample_keyring in
  granted = Some (createUuid (rng sample_keyring)).2 /\ windowOpen k' = false.
Proof.
  intros nonce proof.
  assert (open_ok sample_keyring) as Ho
    by (apply startWindow_open_ok; done).
  assert (store sample_keyring = Some PairedClientStore.sample_store) as Hs
    by (vm_compute; reflexivity).
  pose proof (pairing_completion nonce proof "tablet" 3 sample_keyring _ Ho Hs
                PairedClientStore.sample_store_ok ltac:(lia)
                ltac:(apply (bool_decide_unpack _); vm_compute; exact I)
                ltac:(vm_compute; done)) as H.
  destruct (completePairing nonce proof "tablet" 3 sample_keyring) as [k' granted] eqn:E.
  destruct H as [_ H]. destruct granted as [id|].
  - destruct H as (-> & H & _). split; [done|exact H].
  - exfalso. assert ((completePairing nonce proof "tablet" 3 sample_keyring).2 <> None) as N
      by (vm_compute; done). rewrite E in N. done.
Defined.

End PairingManager.

