(* ===== verification/ApiSession.v ===== *)
(** One connection of the External API: the handshake, subscriptions and
    outbound backpressure.

    Source: src/core/api/ApiSession, the wire schema proto/api (api.proto,
    common.proto, actions.proto, notifications.proto, companion.proto and
    phone.proto) and the session list of src/core/api/ApiServer. The sessions
    are the objects of a [World]: they share the pairing manager and the
    client store, and forward requests to one sink, of which this file knows
    only the interface [IApiRequestSink]. The protobuf codec and the transport
    are interfaces too. *)

From stdpp Require Import strings.
From S2P Require Import Prelude ApiFramer ApiAuth.
From Stdlib Require Import SpecFloat.

#[global] Open Scope Z_scope.

(** ** The messages *)

Module pb.

Inductive ErrorCode :=
| ERROR_CODE_UNSPECIFIED | ERROR_CODE_INVALID_REQUEST | ERROR_CODE_UNSUPPORTED_VERSION
| ERROR_CODE_NOT_AUTHENTICATED | ERROR_CODE_AUTH_FAILED | ERROR_CODE_PAIRING_WINDOW_CLOSED
| ERROR_CODE_NOT_FOUND | ERROR_CODE_UNKNOWN_ACTION | ERROR_CODE_REJECTED
| ERROR_CODE_UNAVAILABLE | ERROR_CODE_INTERNAL.

Inductive AuthRejectCode :=
| AUTH_REJECT_CODE_UNSPECIFIED | AUTH_REJECT_CODE_CREDENTIAL_UPGRADE_REQUIRED.

Inductive PairingSecretFormat :=
| PAIRING_SECRET_FORMAT_UNSPECIFIED | PAIRING_SECRET_FORMAT_LEGACY_SIX_DIGIT
| PAIRING_SECRET_FORMAT_BASE32_120.

Inductive PhoneCommandResult :=
| PHONE_COMMAND_RESULT_UNSPECIFIED | PHONE_COMMAND_RESULT_OK
| PHONE_COMMAND_RESULT_UNAVAILABLE | PHONE_COMMAND_RESULT_FAILED.

(** An open enum on the wire: the numbers of [Topic]. *)
Definition TOPIC_UNSPECIFIED : Z := 0.
Definition TOPIC_MEDIA : Z := 1.
Definition TOPIC_NAVIGATION : Z := 2.
Definition TOPIC_PROJECTION : Z := 3.
Definition TOPIC_PHONE : Z := 4.
Definition TOPIC_SYSTEM : Z := 5.

Record AuthCredentials := mkAuth { auth_client_id : string; pairing_request : bool }.

(** [phone] is all-false in v1 and only its presence is set. *)
Record Capabilities := mkCapabilities {
  supported_topics : list Z;
  phone : bool;
  data_provider_bridge : option bool;
  secure_pairing_code : option bool
}.

Record TopicSubscriptionResult := mkTopicResult {
  topic : Z; accepted : bool; reason : string
}.

Record ActionInfo := mkActionInfo {
  action_id : string; action_label : string; client_owned : bool
}.

Record ActionSpec := mkActionSpec { spec_id : string; spec_label : string }.

Record ActionRegistrationResult := mkRegResult {
  reg_id : string; reg_accepted : bool; reg_reason : string
}.

Record GpsReport := mkGps {
  latitude : spec_float; longitude : spec_float; speed_mps : spec_float;
  bearing_deg : spec_float; accuracy_m : spec_float; age_ms : Z
}.

Record ServerHello := mkServerHello {
  api_version_major : Z; api_version_minor : Z; server_name : string;
  app_version : string; session_id : string; granted_client_id : option string;
  capabilities : option Capabilities; server_id : option string
}.

(** The oneof of [ApiMessage]. The five status payloads and the data-bridge
    messages (fields 80 to 94) pass through here unread. *)
Inductive Payload :=
| Error (code : ErrorCode) (message : string)
| Ack | Ping | Pong
| ClientHello (requested_api_version_major requested_api_version_minor : Z)
    (client_name : string) (client_kind : Z) (auth : AuthCredentials)
| ServerHello_ (hello : ServerHello)
| AuthRequired (nonce : bytes)
| AuthResponse (client_id : string) (proof : bytes)
| AuthReject (reason : string) (code : AuthRejectCode)
| PairingChallenge (nonce salt : bytes) (secret_format : PairingSecretFormat)
| PairingResponse (proof : bytes)
| SubscribeRequest (topics : list Z)
| SubscribeResponse (results : list TopicSubscriptionResult)
| UnsubscribeRequest (topics : list Z)
| GetCapabilitiesRequest
| CapabilitiesResponse (caps : option Capabilities)
| MediaStatus (raw : bytes)
| NavigationStatus (raw : bytes)
| ProjectionStatus (raw : bytes)
| PhoneStatus (raw : bytes)
| SystemStatus (raw : bytes)
| ListActionsRequest
| ListActionsResponse (actions : list ActionInfo)
| DispatchActionRequest (id : string) (payload_json : option string)
| DispatchActionResponse (dispatched : bool)
| RegisterActionsRequest (actions : list ActionSpec)
| RegisterActionsResponse (results : list ActionRegistrationResult)
| UnregisterActionsRequest (ids : list string)
| ActionInvoked (id : string) (payload_json : option string)
| PostNotificationRequest (kind : Z) (message : string) (priority : option Z) (ttl_ms : Z)
| PostNotificationResponse (notification_id : string)
| DismissNotificationRequest (notification_id : string)
| DialRequest (number : string)
| AnswerCallRequest
| HangupRequest
| SendDtmfRequest (tones : string)
| PhoneCommandResponse (result : PhoneCommandResult) (detail : string)
| GpsReport_ (r : GpsReport)
| BatteryReport (percent : Z) (charging : bool)
| ConnectivityReport (internet_available socks5_active : bool) (socks5_port : Z)
    (socks5_password : option string)
| TimeReport (unix_time_ms : Z) (timezone_id : option string)
| Data (field : Z) (raw : bytes).

(** No payload is [PAYLOAD_NOT_SET]. *)
Record ApiMessage := mkMessage { request_id : Z; payload : option Payload }.

End pb.

(** [SerializeToString] and [ParseFromArray]. *)
Class Protobuf := {
  serialize : pb.ApiMessage -> bytes;
  parse : bytes -> option pb.ApiMessage
}.

(** [IApiTransport]. Closing and aborting also tell whether [closed] is
    emitted before the call returns. *)
Class IApiTransport (T : Type) := {
  t_sendMessage : bytes -> T -> T;
  t_bytesToWrite : T -> Z;
  t_close : T -> T * bool;
  t_abort : T -> T * bool;
  t_isLoopback : T -> bool;
  t_peerHost : T -> string
}.

(** The part of [IApiRequestSink] that teardown calls. *)
Class SinkClosed (K : Type) := { sessionClosed : nat -> K -> K }.

Module ApiSession.

Inductive State := ExpectHello | AuthPending | PairingPending | Ready | Closed.

#[export] Instance State_eq_dec : EqDecision State.
Proof. solve_decision. Defined.

Inductive CloseMode := Graceful | Discard.

Inductive Event := becameReady (sid : nat) | sinkClosed (sid : nat) | terminated (sid : nat).

#[export] Instance Event_eq_dec : EqDecision Event.
Proof. solve_decision. Defined.

Section Session.
Context {proto : Protobuf} {T : Type} {transport : IApiTransport T}.
Context {crypto : Crypto} {yaml : Yaml} {S : Type} {storeFile : StoreFile S}.
Context {G : Type} {entropy : Entropy G} {K : Type} {sinkc : SinkClosed K}.

Abbreviation keyring := (@PairingManager.keyring S G).

(** [pairing], [store] and [requests] tell whether the pointer is set; the
    objects are those of the world. *)
Record ApiSessionDeps := mkDeps {
  d_pairing : bool;
  d_store : bool;
  d_capabilities : option (K -> pb.Capabilities);
  d_snapshotFor : option (K -> Z -> bytes);
  d_requests : bool;
  d_serverName : string;
  d_appVersion : string;
  d_serverId : string;
  d_maxQueueBytes : Z;
  d_handshakeTimeoutMs : Z
}.

Record t := mk {
  transport_ : option T;
  deps_ : ApiSessionDeps;
  state_ : State;
  handshakeTimer_ : option Z;
  tornDown_ : bool;
  peerTrustOverride_ : option bool;
  nonce_ : bytes;
  authClientId_ : string;
  helloName_ : string;
  helloKind_ : Z;
  clientId_ : string;
  clientName_ : string;
  subscriptions_ : gset Z
}.

#[global] Instance t_settable : Settable t := {| eta_record r :=
  mk (transport_ r) (deps_ r) (state_ r) (handshakeTimer_ r) (tornDown_ r)
     (peerTrustOverride_ r) (nonce_ r) (authClientId_ r) (helloName_ r) (helloKind_ r)
     (clientId_ r) (clientName_ r) (subscriptions_ r) |}.

Definition create (tr : option T) (deps : ApiSessionDeps) : t :=
  mk tr deps ExpectHello (Some (d_handshakeTimeoutMs deps)) false None [] "" "" 0 "" "" ∅.

(** The session objects by address, the server's list of sessions, what they
    share, and the signals emitted and sink notifications, in order. *)
Record World := mkWorld {
  objects : gmap nat t;
  sessions_ : list nat;
  keys : keyring;
  sink : K;
  log : list Event
}.

#[global] Instance World_settable : Settable World := {| eta_record r :=
  mkWorld (objects r) (sessions_ r) (keys r) (sink r) (log r) |}.

(** ** Access to an object *)

Definition noDeps : ApiSessionDeps :=
  mkDeps false false None None false "" "" "" 0 0.

(** Nothing lives at an unused address: a closed session without transport. *)
Definition nobody : t :=
  mk None noDeps Closed None true None [] "" "" 0 "" "" ∅.

Definition ses (w : World) (sid : nat) : t := default nobody (objects w !! sid).

Definition upd (sid : nat) (f : t -> t) (w : World) : World :=
  w <| objects ::= alter f sid |>.

Definition emit (e : Event) (w : World) : World := w <| log ::= fun l => l ++ [e] |>.

(** ** Teardown and writes *)

(** [sessions_.removeOne(session)] *)
Fixpoint removeOne (x : nat) (l : list nat) : list nat :=
  match l with
  | [] => []
  | y :: l => if decide (x = y) then l else y :: removeOne x l
  end.

(** [terminated] and the server's slot. *)
Definition emitTerminated (sid : nat) (w : World) : World :=
  emit (terminated sid) w <| sessions_ ::= removeOne sid |>.

(** Closing the transport; [reenter] is what a [closed] emitted during the
    call runs. *)
Definition closeTransport (reenter : World -> World) (mode : CloseMode) (sid : nat)
    (w : World) : World :=
  match transport_ (ses w sid) with
  | None => w
  | Some tr =>
      let '(tr, closed) := match mode with
                           | Discard => t_abort tr
                           | Graceful => t_close tr
                           end in
      let w := upd sid (fun s => s <| transport_ := Some tr |>) w in
      if closed then reenter w else w
  end.

Definition teardownWith (reenter : World -> World) (mode : CloseMode) (sid : nat)
    (w : World) : World :=
  if tornDown_ (ses w sid) then w
  else
    let w := upd sid (fun s => s <| tornDown_ := true |> <| state_ := Closed |>
                                 <| handshakeTimer_ := None |>) w in
    let w := if d_requests (deps_ (ses w sid))
             then emit (sinkClosed sid) (w <| sink ::= sessionClosed sid |>) else w in
    emitTerminated sid (closeTransport reenter mode sid w).

(** [onTransportClosed] re-enters [teardown] once at most, and finds
    [tornDown_] set. *)
Definition teardown (mode : CloseMode) (sid : nat) (w : World) : World :=
  teardownWith (teardownWith (fun w => w) Graceful sid) mode sid w.

Definition onTransportClosed (sid : nat) (w : World) : World := teardown Graceful sid w.

Definition writeOrTeardown (bs : bytes) (sid : nat) (w : World) : World :=
  let s := ses w sid in
  match transport_ s with
  | Some tr =>
      if tornDown_ s then w
      else if d_maxQueueBytes (deps_ s) <? t_bytesToWrite tr + blen bs
      then teardown Discard sid w
      else upd sid (fun s => s <| transport_ := Some (t_sendMessage bs tr) |>) w
  | None => w
  end.

Definition sendMessage (requestId : Z) (msg : pb.Payload) (sid : nat) (w : World) : World :=
  writeOrTeardown (serialize (pb.mkMessage requestId (Some msg))) sid w.

Definition sendRaw (msg : pb.ApiMessage) (sid : nat) (w : World) : World :=
  let s := ses w sid in
  match transport_ s with
  | Some tr =>
      if tornDown_ s then w
      else upd sid (fun s => s <| transport_ := Some (t_sendMessage (serialize msg) tr) |>) w
  | None => w
  end.

Definition closeWithError (requestId : Z) (code : pb.ErrorCode) (text : string)
    (sid : nat) (w : World) : World :=
  let w := sendRaw (pb.mkMessage requestId (Some (pb.Error code text))) sid w in
  teardown Graceful sid w.

Definition sendAuthReject (requestId : Z) (reason : string) (code : pb.AuthRejectCode)
    (sid : nat) (w : World) : World :=
  let w := sendRaw (pb.mkMessage requestId (Some (pb.AuthReject reason code))) sid w in
  teardown Graceful sid w.

(** ** The handshake *)

Definition trusted (s : t) : bool :=
  match peerTrustOverride_ s with
  | Some b => b
  | None => match transport_ s with Some tr => t_isLoopback tr | None => false end
  end.

Definition peerHost (s : t) : string :=
  match transport_ s with Some tr => t_peerHost tr | None => "" end.

Definition subscribedTo (tp : Z) (s : t) : bool := bool_decide (tp ∈ subscriptions_ s).

(** [count] bytes, each drawn below 256. *)
Definition randomBytes (count : nat) (g : G) : G * bytes :=
  PairingManager.boundedBytes count g.

Definition nonEmpty (s : string) : option string :=
  if bool_decide (s = "") then None else Some s.

Definition goReady (requestId : Z) (grantedClientId : string) (sid : nat)
    (w : World) : World :=
  let w := upd sid (fun s => s <| state_ := Ready |> <| handshakeTimer_ := None |>) w in
  let d := deps_ (ses w sid) in
  let '(g, uuid) := createUuid (PairingManager.rng (keys w)) in
  let w := w <| keys ::= fun k => k <| PairingManager.rng := g |> |> in
  let hello := pb.mkServerHello 1 2 (d_serverName d) (d_appVersion d) uuid
                 (nonEmpty grantedClientId)
                 ((fun c => c (sink w)) <$> d_capabilities d)
                 (nonEmpty (d_serverId d)) in
  let w := sendMessage requestId (pb.ServerHello_ hello) sid w in
  if decide (state_ (ses w sid) = Ready) then emit (becameReady sid) w else w.

(** [deps_.store ? deps_.store->find(cid) : nullopt] *)
Definition storeFind (cid : string) (sid : nat) (w : World) : option PairedClient :=
  if d_store (deps_ (ses w sid))
  then st ← PairingManager.store (keys w); PairedClientStore.find cid st
  else None.

Definition startTimer (st : State) (sid : nat) (w : World) : World :=
  if decide (state_ (ses w sid) = ExpectHello)
  then upd sid (fun s => s <| state_ := st |>
                           <| handshakeTimer_ := Some (d_handshakeTimeoutMs (deps_ s)) |>) w
  else w.

Definition challengeClient (requestId : Z) (cid : string) (sid : nat) (w : World) : World :=
  let w := upd sid (fun s => s <| authClientId_ := cid |>) w in
  let '(g, nonce) := randomBytes 32 (PairingManager.rng (keys w)) in
  let w := w <| keys ::= fun k => k <| PairingManager.rng := g |> |> in
  let w := upd sid (fun s => s <| nonce_ := nonce |>) w in
  let w := sendMessage requestId (pb.AuthRequired nonce) sid w in
  startTimer AuthPending sid w.

Definition challengePairing (requestId : Z) (sid : nat) (w : World) : World :=
  let '(k, nonce) := PairingManager.makeNonce (keys w) in
  let w := w <| keys := k |> in
  let w := upd sid (fun s => s <| nonce_ := nonce |>) w in
  let salt := PairingManager.currentSalt (keys w) in
  let w := sendMessage requestId
             (pb.PairingChallenge nonce salt pb.PAIRING_SECRET_FORMAT_BASE32_120) sid w in
  startTimer PairingPending sid w.

Definition handleExpectHello (m : pb.ApiMessage) (sid : nat) (w : World) : World :=
  match pb.payload m with
  | Some (pb.ClientHello major _ name kind auth) =>
      let id := pb.request_id m in
      if negb (major =? 1) then
        closeWithError id pb.ERROR_CODE_UNSUPPORTED_VERSION "unsupported api version" sid w
      else
        let w := upd sid (fun s => s <| helloName_ := name |> <| helloKind_ := kind |>) w in
        if trusted (ses w sid) then
          let w := upd sid (fun s => s <| clientId_ := "" |>
                                       <| clientName_ := helloName_ s |>) w in
          goReady id "" sid w
        else if negb (bool_decide (pb.auth_client_id auth = "")) then
          let cid := pb.auth_client_id auth in
          match storeFind cid sid w with
          | None => sendAuthReject id "unknown client" pb.AUTH_REJECT_CODE_UNSPECIFIED sid w
          | Some client =>
              if credentialGeneration client <? kSecureCodeCredentialGeneration then
                sendAuthReject id "credential upgrade required"
                  pb.AUTH_REJECT_CODE_CREDENTIAL_UPGRADE_REQUIRED sid w
              else challengeClient id cid sid w
          end
        else if pb.pairing_request auth then
          if negb (d_pairing (deps_ (ses w sid))) || negb (PairingManager.windowOpen (keys w))
          then closeWithError id pb.ERROR_CODE_PAIRING_WINDOW_CLOSED
                 "Pairing window closed" sid w
          else challengePairing id sid w
        else sendAuthReject id "authentication required" pb.AUTH_REJECT_CODE_UNSPECIFIED sid w
  | _ => closeWithError 0 pb.ERROR_CODE_INVALID_REQUEST "expected client_hello" sid w
  end.

Definition handleAuthPending (m : pb.ApiMessage) (sid : nat) (w : World) : World :=
  match pb.payload m with
  | Some (pb.AuthResponse _ proof) =>
      let id := pb.request_id m in
      match storeFind (authClientId_ (ses w sid)) sid w with
      | None => sendAuthReject id "unknown client" pb.AUTH_REJECT_CODE_UNSPECIFIED sid w
      | Some client =>
          if credentialGeneration client <? kSecureCodeCredentialGeneration then
            sendAuthReject id "credential upgrade required"
              pb.AUTH_REJECT_CODE_CREDENTIAL_UPGRADE_REQUIRED sid w
          else
            let expected := hmacProof (secret client) (nonce_ (ses w sid)) in
            if constantTimeEquals expected proof then
              let w := upd sid (fun s => s <| clientId_ := authClientId_ s |>
                                           <| clientName_ := name client |>) w in
              goReady id "" sid w
            else sendAuthReject id "authentication failed" pb.AUTH_REJECT_CODE_UNSPECIFIED sid w
      end
  | _ => closeWithError 0 pb.ERROR_CODE_INVALID_REQUEST "expected auth_response" sid w
  end.

Definition handlePairingPending (m : pb.ApiMessage) (sid : nat) (w : World) : World :=
  match pb.payload m with
  | Some (pb.PairingResponse proof) =>
      let id := pb.request_id m in
      let s := ses w sid in
      if negb (d_pairing (deps_ s)) then
        sendAuthReject id "pairing unavailable" pb.AUTH_REJECT_CODE_UNSPECIFIED sid w
      else
        let '(k, granted) :=
          PairingManager.completePairing (nonce_ s) proof (helloName_ s) (helloKind_ s) (keys w) in
        let w := w <| keys := k |> in
        match granted with
        | Some cid =>
            let w := upd sid (fun s => s <| clientId_ := cid |>
                                         <| clientName_ := helloName_ s |>) w in
            goReady id cid sid w
        | None => sendAuthReject id "pairing failed" pb.AUTH_REJECT_CODE_UNSPECIFIED sid w
        end
  | _ => closeWithError 0 pb.ERROR_CODE_INVALID_REQUEST "expected pairing_response" sid w
  end.

Definition onHandshakeTimeout (sid : nat) (w : World) : World :=
  closeWithError 0 pb.ERROR_CODE_INVALID_REQUEST "handshake timeout" sid w.

(** ** Requests of a ready session *)

(** The rest of [IApiRequestSink]: it acts on the world, through the calls
    [sink_step] lists. *)
Class SinkRequests := {
  handleRequest : nat -> Z -> pb.ApiMessage -> World -> World
}.

Context {sinkr : SinkRequests}.

(** The results in the order asked, the topics accepted with their snapshots. *)
Definition subscribeOne (snapshotFor : option (K -> Z -> bytes)) (w : World) (tp : Z)
    : pb.TopicSubscriptionResult * option bytes :=
  let snap := match snapshotFor with Some f => f (sink w) tp | None => [] end in
  if bool_decide (snap = [])
  then (pb.mkTopicResult tp false "topic unavailable", None)
  else (pb.mkTopicResult tp true "", Some snap).

(** The loop that sends the snapshots, stopping at a teardown. *)
Fixpoint sendSnapshots (snaps : list bytes) (sid : nat) (w : World) : World :=
  match snaps with
  | [] => w
  | snap :: rest =>
      if tornDown_ (ses w sid) then w
      else sendSnapshots rest sid (writeOrTeardown snap sid w)
  end.

Definition handleSubscribe (id : Z) (topics : list Z) (sid : nat) (w : World) : World :=
  let results := map (subscribeOne (d_snapshotFor (deps_ (ses w sid))) w) topics in
  let acceptedTopics := omap (fun '(r, _) => if pb.accepted r then Some (pb.topic r)
                                             else None) results in
  let w := upd sid (fun s => s <| subscriptions_ ::= fun x => list_to_set acceptedTopics ∪ x |>) w in
  let w := sendMessage id (pb.SubscribeResponse (map fst results)) sid w in
  sendSnapshots (omap snd results) sid w.

Definition handleUnsubscribe (id : Z) (topics : list Z) (sid : nat) (w : World) : World :=
  let w := upd sid (fun s => s <| subscriptions_ ::= fun x => x ∖ list_to_set topics |>) w in
  sendMessage id pb.Ack sid w.

Definition handleGetCapabilities (id : Z) (sid : nat) (w : World) : World :=
  sendMessage id (pb.CapabilitiesResponse
                    ((fun c => c (sink w)) <$> d_capabilities (deps_ (ses w sid)))) sid w.

Definition handlePing (id : Z) (sid : nat) (w : World) : World :=
  sendMessage id pb.Pong sid w.

Definition forwardToSink (m : pb.ApiMessage) (sid : nat) (w : World) : World :=
  if negb (d_requests (deps_ (ses w sid)))
  then closeWithError (pb.request_id m) pb.ERROR_CODE_INTERNAL "no handler" sid w
  else handleRequest sid (pb.request_id m) m w.

Definition handleReady (m : pb.ApiMessage) (sid : nat) (w : World) : World :=
  let id := pb.request_id m in
  match pb.payload m with
  | Some (pb.SubscribeRequest topics) => handleSubscribe id topics sid w
  | Some (pb.UnsubscribeRequest topics) => handleUnsubscribe id topics sid w
  | Some pb.GetCapabilitiesRequest => handleGetCapabilities id sid w
  | Some pb.Ping => handlePing id sid w
  | _ => forwardToSink m sid w
  end.

Definition onMessageReceived (serialized : bytes) (sid : nat) (w : World) : World :=
  match state_ (ses w sid) with
  | Closed => w
  | st =>
      match parse serialized with
      | None => closeWithError 0 pb.ERROR_CODE_INVALID_REQUEST "parse failure" sid w
      | Some m =>
          match st with
          | ExpectHello => handleExpectHello m sid w
          | AuthPending => handleAuthPending m sid w
          | PairingPending => handlePairingPending m sid w
          | Ready => handleReady m sid w
          | Closed => w
          end
      end
  end.

(** ** Status delivery *)

Definition topicForPayload (p : option pb.Payload) : Z :=
  match p with
  | Some (pb.MediaStatus _) => pb.TOPIC_MEDIA
  | Some (pb.NavigationStatus _) => pb.TOPIC_NAVIGATION
  | Some (pb.ProjectionStatus _) => pb.TOPIC_PROJECTION
  | Some (pb.PhoneStatus _) => pb.TOPIC_PHONE
  | Some (pb.SystemStatus _) => pb.TOPIC_SYSTEM
  | _ => pb.TOPIC_UNSPECIFIED
  end.

Definition deliver (envelope : bytes) (sid : nat) (w : World) : World :=
  if negb (bool_decide (state_ (ses w sid) = Ready)) then w
  else
    match parse envelope with
    | None => w
    | Some m =>
        let tp := topicForPayload (pb.payload m) in
        if (tp =? pb.TOPIC_UNSPECIFIED) || negb (subscribedTo tp (ses w sid)) then w
        else writeOrTeardown envelope sid w
    end.

(** The fan-out of a publisher's [statusReady] over a copy of the list. *)
Definition statusReady (tp : Z) (bs : bytes) (w : World) : World :=
  foldl (fun w sid =>
    if bool_decide (state_ (ses w sid) = Ready) && subscribedTo tp (ses w sid)
    then deliver bs sid w else w) w (sessions_ w).

(** [adoptSession], at an address that was never used. *)
Definition adoptSession (sid : nat) (tr : T) (deps : ApiSessionDeps) (w : World) : World :=
  w <| objects ::= <[sid := create (Some tr) deps]> |>
    <| sessions_ ::= fun l => l ++ [sid] |>.

(** ** Objects *)

Definition has (w : World) (sid : nat) : Prop := is_Some (objects w !! sid).

Lemma ses_upd_eq sid f w : has w sid -> ses (upd sid f w) sid = f (ses w sid).
Proof.
  intros [s Hs]. unfold ses, upd. cbn. rewrite lookup_alter_eq, Hs. done.
Qed.

Lemma ses_upd_ne sid j f w : j <> sid -> ses (upd sid f w) j = ses w j.
Proof. intros H. unfold ses, upd. cbn. rewrite lookup_alter_ne by done. done. Qed.

Lemma has_upd sid f w j : has (upd sid f w) j <-> has w j.
Proof.
  unfold has, upd. cbn. destruct (decide (j = sid)) as [->|H].
  - rewrite lookup_alter_eq, fmap_is_Some. done.
  - rewrite lookup_alter_ne by done. done.
Qed.

Lemma ses_none w sid : ~ has w sid -> ses w sid = nobody.
Proof.
  unfold has, ses. destruct (objects w !! sid); [|done]. intros []. done.
Qed.

(** A session that is not torn down is an object. *)
Lemma alive_has w sid : tornDown_ (ses w sid) = false -> has w sid.
Proof.
  unfold ses, has. destruct (objects w !! sid); done.
Qed.

(** ** What a teardown does *)

Definition shut (tr : option T) (s : t) : t :=
  s <| tornDown_ := true |> <| state_ := Closed |> <| handshakeTimer_ := None |>
    <| transport_ := tr |>.

Record killed (sid : nat) (w w' : World) : Prop := {
  k_self : exists tr, ses w' sid = shut tr (ses w sid);
  k_other j : j <> sid -> ses w' j = ses w j;
  k_has j : has w' j <-> has w j;
  k_sessions : sessions_ w' = removeOne sid (sessions_ w);
  k_keys : keys w' = keys w;
  k_log : log w' = log w ++
            (if d_requests (deps_ (ses w sid)) then [sinkClosed sid] else [])
            ++ [terminated sid]
}.

Lemma teardownWith_torn re mode sid w :
  tornDown_ (ses w sid) = true -> teardownWith re mode sid w = w.
Proof. intros H. unfold teardownWith. rewrite H. done. Qed.

Lemma teardown_torn mode sid w :
  tornDown_ (ses w sid) = true -> teardown mode sid w = w.
Proof. apply teardownWith_torn. Qed.

(** Nothing but the object at [sid] differs, in the fields of [f]. *)
Lemma teardown_killed mode sid w :
  tornDown_ (ses w sid) = false -> killed sid w (teardown mode sid w).
Proof.
  intros Ha. pose proof (alive_has _ _ Ha) as Hh.
  unfold teardown. unfold teardownWith at 1. rewrite Ha. clear Ha.
  set (w1 := upd sid _ w).
  assert (ses w1 sid = shut (transport_ (ses w sid)) (ses w sid)) as E1
    by (unfold w1; rewrite ses_upd_eq by done; destruct (ses w sid); done).
  assert (forall j, j <> sid -> ses w1 j = ses w j) as N1
    by (intros; apply ses_upd_ne; done).
  assert (forall j, has w1 j <-> has w j) as H1 by (intros; apply has_upd).
  rewrite E1. cbn [deps_ shut set_field record_set].
  set (w2 := if d_requests _ then _ else w1).
  assert (objects w2 = objects w1 /\ sessions_ w2 = sessions_ w /\ keys w2 = keys w /\
          log w2 = log w ++ (if d_requests (deps_ (ses w sid)) then [sinkClosed sid] else []))
    as (Eo & Es & Ek & El).
  { unfold w2. cbn. destruct (d_requests _); cbn; rewrite ?app_nil_r; done. }
  assert (forall j, ses w2 j = ses w1 j) as E2 by (intros; unfold ses; rewrite Eo; done).
  assert (forall j, has w2 j <-> has w j) as H2
    by (intros j; rewrite <- H1; unfold has; rewrite Eo; done).
  clearbody w2.
  set (w3 := closeTransport _ mode sid w2).
  assert ((exists tr, ses w3 sid = shut tr (ses w sid)) /\
          (forall j, j <> sid -> ses w3 j = ses w j) /\ (forall j, has w3 j <-> has w j) /\
          sessions_ w3 = sessions_ w /\ keys w3 = keys w /\ log w3 = log w2)
    as (? & ? & ? & E3 & ? & L3).
  { unfold w3, closeTransport. rewrite E2, E1. cbn [transport_ shut set_field record_set].
    destruct (transport_ (ses w sid)) as [tr|].
    - destruct (match mode with Discard => t_abort tr | Graceful => t_close tr end)
        as [tr' closed].
      set (w4 := upd sid _ w2).
      assert (ses w4 sid = shut (Some tr') (ses w sid)) as E4.
      { unfold w4. rewrite ses_upd_eq by (apply H2; done). rewrite E2, E1.
        destruct (ses w sid). done. }
      replace (if closed then _ else w4) with w4.
      2: { destruct closed; [|done]. rewrite teardownWith_torn by (rewrite E4; done). done. }
      split; [by eexists|]. split.
      { intros j Hj. unfold w4. rewrite ses_upd_ne by done. rewrite E2. auto. }
      split; [|split_and!; done].
      intros j. unfold w4. rewrite has_upd. apply H2.
    - split; [eexists; rewrite E2; exact E1|]. split.
      { intros j Hj. rewrite E2. auto. }
      split; [exact H2|split_and!; done]. }
  clearbody w3. unfold emitTerminated, emit.
  split; try done; cbn; [congruence|]. rewrite L3, El, <- app_assoc. done.
Qed.

(** ** The abstract handshake *)

(** Where a session stands: the client it challenged with which nonce, the
    nonce of a pairing, authorised, or gone. *)
Inductive Phase :=
| PHello
| PChallenge (cid : string) (nonce : bytes)
| PPairing (nonce : bytes)
| PAuthorized
| PGone.

Definition phase (s : t) : Phase :=
  match state_ s with
  | ExpectHello => PHello
  | AuthPending => PChallenge (authClientId_ s) (nonce_ s)
  | PairingPending => PPairing (nonce_ s)
  | Ready => PAuthorized
  | Closed => PGone
  end.

(** ** Moves: what may happen beside the handshake *)

Definition core (s : t) : Phase * bool * option Z * ApiSessionDeps :=
  (phase s, tornDown_ s, handshakeTimer_ s, deps_ s).

Inductive move (w : World) : World -> Prop :=
| mv_touch sid f : core (f (ses w sid)) = core (ses w sid) -> move w (upd sid f w)
| mv_env k ks : move w (w <| sink := k |> <| keys := ks |>)
| mv_kill sid w' : tornDown_ (ses w sid) = false -> killed sid w w' -> move w w'.

Abbreviation moves := (rtc move).

Lemma teardown_moves mode sid w : moves w (teardown mode sid w).
Proof.
  destruct (tornDown_ (ses w sid)) eqn:E.
  - rewrite teardown_torn by done. done.
  - apply rtc_once. eapply mv_kill; [done|]. apply teardown_killed. done.
Qed.

Lemma touch_moves sid f w :
  (forall s, core (f s) = core s) -> moves w (upd sid f w).
Proof. intros H. apply rtc_once, mv_touch, H. Qed.

Lemma writeOrTeardown_moves bs sid w : moves w (writeOrTeardown bs sid w).
Proof.
  unfold writeOrTeardown. destruct (transport_ _) as [tr|]; [|done].
  destruct (tornDown_ _); [done|]. destruct (_ <? _); [apply teardown_moves|].
  apply touch_moves. done.
Qed.

Lemma sendMessage_moves id m sid w : moves w (sendMessage id m sid w).
Proof. apply writeOrTeardown_moves. Qed.

Lemma sendRaw_moves m sid w : moves w (sendRaw m sid w).
Proof.
  unfold sendRaw. destruct (transport_ _) as [tr|]; [|done].
  destruct (tornDown_ _); [done|]. apply touch_moves. done.
Qed.

Lemma closeWithError_moves id c tx sid w : moves w (closeWithError id c tx sid w).
Proof. etransitivity; [apply sendRaw_moves|apply teardown_moves]. Qed.

Lemma sendAuthReject_moves id r c sid w : moves w (sendAuthReject id r c sid w).
Proof. etransitivity; [apply sendRaw_moves|apply teardown_moves]. Qed.

Lemma sendSnapshots_moves l sid w : moves w (sendSnapshots l sid w).
Proof.
  revert w. induction l as [|b l IH]; intros w; [done|]. cbn [sendSnapshots].
  destruct (tornDown_ _); [done|]. etransitivity; [apply writeOrTeardown_moves|apply IH].
Qed.

Lemma deliver_moves bs sid w : moves w (deliver bs sid w).
Proof.
  unfold deliver. destruct (negb _); [done|]. destruct (parse bs); [|done].
  destruct (_ || _); [done|]. apply writeOrTeardown_moves.
Qed.

Lemma statusReady_moves tp bs w : moves w (statusReady tp bs w).
Proof.
  unfold statusReady. generalize (sessions_ w) as l. intros l. revert w.
  induction l as [|sid l IH]; intros w; [done|]. cbn [foldl].
  etransitivity; [|apply IH]. destruct (_ && _); [apply deliver_moves|done].
Qed.

(** ** The sink's contract *)

(** What a request sink may do besides changing its own state. *)
Inductive sink_step (w : World) : World -> Prop :=
| ss_sink k : sink_step w (w <| sink := k |>)
| ss_send id m sid : sink_step w (sendMessage id m sid w)
| ss_close id c tx sid : sink_step w (closeWithError id c tx sid w)
| ss_startPairing secs :
    sink_step w (w <| keys ::= fun k => (PairingManager.startWindow secs k).1 |>)
| ss_cancelPairing : sink_step w (w <| keys ::= PairingManager.cancelWindow |>)
| ss_random g : sink_step w (w <| keys ::= fun k => k <| PairingManager.rng := g |> |>).

Class SinkLaws := {
  handleRequest_steps sid id m w : rtc sink_step w (handleRequest sid id m w)
}.

Lemma sink_step_moves w w' : sink_step w w' -> moves w w'.
Proof.
  destruct 1 as [k|id m sid|id c tx sid|secs| |g].
  - apply rtc_once. apply (mv_env w k (keys w)).
  - apply sendMessage_moves.
  - apply closeWithError_moves.
  - apply rtc_once. apply (mv_env w (sink w) _).
  - apply rtc_once. apply (mv_env w (sink w) _).
  - apply rtc_once. apply (mv_env w (sink w) _).
Qed.

Lemma sink_steps_moves w w' : rtc sink_step w w' -> moves w w'.
Proof.
  induction 1 as [|x y z H _ IH]; [done|].
  etransitivity; [apply sink_step_moves; exact H|exact IH].
Qed.

Context {laws : SinkLaws}.

Lemma handleReady_moves m sid w : moves w (handleReady m sid w).
Proof.
  unfold handleReady.
  assert (moves w (forwardToSink m sid w)) as Hf.
  { unfold forwardToSink. destruct (negb _); [apply closeWithError_moves|].
    apply sink_steps_moves, handleRequest_steps. }
  destruct (pb.payload m) as [p|]; [|done]. destruct p; try exact Hf.
  - apply sendMessage_moves.
  - unfold handleSubscribe. etransitivity; [|apply sendSnapshots_moves].
    etransitivity; [|apply sendMessage_moves]. apply touch_moves. done.
  - unfold handleUnsubscribe. etransitivity; [|apply sendMessage_moves].
    apply touch_moves. done.
  - apply sendMessage_moves.
Qed.

(** ** What moves keep *)

Definition count (e : Event) (l : list Event) : nat := length (filter (e =.) l).

Lemma count_app e l k : count e (l ++ k) = (count e l + count e k)%nat.
Proof. unfold count. rewrite filter_app, length_app. done. Qed.

Lemma count_one e x : count e [x] = if decide (e = x) then 1%nat else 0%nat.
Proof. unfold count. rewrite filter_cons. destruct (decide (e = x)); done. Qed.

(** The events of a teardown. *)
Lemma count_killed e sid w w' :
  killed sid w w' ->
  count e (log w') =
    (count e (log w)
     + (if decide (e = sinkClosed sid)
        then if d_requests (deps_ (ses w sid)) then 1 else 0 else 0)
     + (if decide (e = terminated sid) then 1 else 0))%nat.
Proof.
  intros []. rewrite k_log0, !count_app, count_one.
  destruct (d_requests _); [rewrite count_one|]; split_matches; cbn; lia.
Qed.

Lemma move_session w w' j :
  move w w' ->
  core (ses w' j) = core (ses w j) \/
  (tornDown_ (ses w j) = false /\ exists tr, ses w' j = shut tr (ses w j)).
Proof.
  destruct 1 as [sid f Hf|k ks|sid w' Ha [[tr Hs] Ho _ _ _ _]]; [| by left|].
  - left. destruct (decide (j = sid)) as [->|Hj]; [|by rewrite ses_upd_ne].
    destruct (decide (has w sid)) as [Hh|Hh]; [by rewrite ses_upd_eq|].
    rewrite !ses_none; [done|done|]. rewrite has_upd. done.
  - destruct (decide (j = sid)) as [->|Hj]; [|left; by rewrite Ho].
    right. split; [done|]. exists tr. done.
Qed.

Lemma move_has w w' j : move w w' -> has w' j <-> has w j.
Proof. destruct 1 as [sid f Hf|k ks|sid w' Ha []]; [apply has_upd|done|done]. Qed.

Lemma moves_has w w' j : moves w w' -> has w' j <-> has w j.
Proof. induction 1 as [|x y z H _ IH]; [done|]. rewrite IH. by apply move_has. Qed.

(** A session's phase stays or ends. *)
Lemma moves_phase w w' j :
  moves w w' -> phase (ses w' j) = phase (ses w j) \/ phase (ses w' j) = PGone.
Proof.
  induction 1 as [w|w w1 w2 H _ [IH|IH]]; [by left| |by right].
  rewrite IH. destruct (move_session _ _ j H) as [E|[_ [tr ->]]]; [left|right; done].
  unfold core in E. congruence.
Qed.

Lemma move_becameReady w w' j :
  move w w' -> count (becameReady j) (log w') = count (becameReady j) (log w).
Proof.
  destruct 1 as [sid f Hf|k ks|sid w' Ha Hk]; [done..|].
  rewrite (count_killed _ _ _ _ Hk), !decide_False by done. lia.
Qed.

Lemma moves_becameReady w w' j :
  moves w w' -> count (becameReady j) (log w') = count (becameReady j) (log w).
Proof. induction 1 as [|x y z H _ IH]; [done|]. rewrite IH. by apply move_becameReady. Qed.

(** ** The life of a session *)

Record lifecycle (w : World) : Prop := {
  l_torn j : tornDown_ (ses w j) = true <-> phase (ses w j) = PGone;
  l_timer j : is_Some (handshakeTimer_ (ses w j)) <->
                phase (ses w j) <> PAuthorized /\ phase (ses w j) <> PGone;
  l_nodup : NoDup (sessions_ w);
  l_live j : j ∈ sessions_ w <-> tornDown_ (ses w j) = false;
  l_terminated j : count (terminated j) (log w) =
    if decide (has w j) then if tornDown_ (ses w j) then 1%nat else 0%nat else 0%nat;
  l_sinkClosed j : count (sinkClosed j) (log w) =
    if decide (has w j) then
      if tornDown_ (ses w j) && d_requests (deps_ (ses w j)) then 1%nat else 0%nat
    else 0%nat
}.

(** [becameReady] is emitted once by a session that is ready. *)
Definition ready_once (w : World) (j : nat) : Prop :=
  match phase (ses w j) with
  | PAuthorized => count (becameReady j) (log w) = 1%nat
  | PGone => (count (becameReady j) (log w) <= if decide (has w j) then 1 else 0)%nat
  | _ => count (becameReady j) (log w) = 0%nat
  end.

Lemma removeOne_notin x l : x ∉ l -> removeOne x l = l.
Proof.
  induction l as [|y l IH]; intros H; [done|]. cbn. apply not_elem_of_cons in H as [H1 H2].
  rewrite decide_False by done. rewrite IH by done. done.
Qed.

Lemma removeOne_spec x l :
  NoDup l -> NoDup (removeOne x l) /\ forall y, y ∈ removeOne x l <-> y ∈ l /\ y <> x.
Proof.
  induction 1 as [|z l Hz Hl [IH1 IH2]]; [split; [constructor|set_solver]|]. cbn.
  destruct (decide (x = z)) as [->|Hx].
  - split; [done|]. set_solver.
  - split; [constructor; [rewrite IH2; naive_solver|done]|].
    intros y. rewrite !elem_of_cons, IH2. naive_solver.
Qed.

Lemma has_iff w w' j :
  (has w' j <-> has w j) -> forall n : nat,
  (if decide (has w' j) then n else 0%nat) = (if decide (has w j) then n else 0%nat).
Proof. intros H n. destruct (decide (has w' j)), (decide (has w j)); tauto || done. Qed.

(** Whatever keeps every core, the list and the log keeps the invariant. *)
Lemma lifecycle_same w w' :
  (forall j, core (ses w' j) = core (ses w j)) -> (forall j, has w' j <-> has w j) ->
  sessions_ w' = sessions_ w -> log w' = log w -> lifecycle w -> lifecycle w'.
Proof.
  intros Hc Hh Hs Hl [].
  assert (forall j, phase (ses w' j) = phase (ses w j) /\
            tornDown_ (ses w' j) = tornDown_ (ses w j) /\
            handshakeTimer_ (ses w' j) = handshakeTimer_ (ses w j) /\
            deps_ (ses w' j) = deps_ (ses w j)) as E.
  { intros j. specialize (Hc j). unfold core in Hc. split_and!; congruence. }
  split; intros; rewrite ?Hs, ?Hl;
    try (destruct (E j) as (E1 & E2 & E3 & E4); rewrite ?E1, ?E2, ?E3, ?E4); auto.
  - rewrite (has_iff _ _ _ (Hh j)). auto.
  - rewrite (has_iff _ _ _ (Hh j)). auto.
Qed.

Lemma lifecycle_killed sid w w' :
  tornDown_ (ses w sid) = false -> killed sid w w' -> lifecycle w -> lifecycle w'.
Proof.
  intros Ha Hk [].
  pose proof (alive_has _ _ Ha) as Hh.
  destruct (removeOne_spec sid (sessions_ w) l_nodup0) as [R1 R2].
  destruct Hk as [[tr Es] Eo Eh Esess Ek El] eqn:Hk'. clear Hk'.
  assert (forall j, (j = sid /\ phase (ses w' j) = PGone /\ tornDown_ (ses w' j) = true /\
             handshakeTimer_ (ses w' j) = None /\ deps_ (ses w' j) = deps_ (ses w j)) \/
            (j <> sid /\ ses w' j = ses w j)) as C.
  { intros j. destruct (decide (j = sid)) as [->|Hj]; [left|right; auto].
    rewrite Es. done. }
  split.
  - intros j. destruct (C j) as [(-> & -> & -> & _)|[_ ->]]; [split; done|auto].
  - intros j. destruct (C j) as [(-> & -> & _ & -> & _)|[_ ->]]; [|auto].
    split; [intros [? [=]]|tauto].
  - rewrite Esess. done.
  - intros j. rewrite Esess, R2, l_live0.
    destruct (C j) as [(-> & _ & -> & _)|[Hj ->]]; naive_solver.
  - intros j. rewrite (has_iff _ _ _ (Eh j)).
    rewrite (count_killed _ sid w) by (split; eauto). rewrite l_terminated0.
    rewrite (decide_False (P := terminated j = sinkClosed sid)) by done.
    destruct (C j) as [(-> & _ & -> & _)|[Hj ->]].
    + rewrite !(decide_True (P := has w sid)), Ha, decide_True by done. done.
    + rewrite (decide_False (P := terminated j = terminated sid)) by congruence. lia.
  - intros j. rewrite (has_iff _ _ _ (Eh j)).
    rewrite (count_killed _ sid w) by (split; eauto). rewrite l_sinkClosed0.
    rewrite (decide_False (P := sinkClosed j = terminated sid)) by done.
    destruct (C j) as [(-> & _ & -> & _ & ->)|[Hj ->]].
    + rewrite !(decide_True (P := has w sid)), Ha, decide_True by done. cbn.
      destruct (d_requests _); done.
    + rewrite (decide_False (P := sinkClosed j = sinkClosed sid)) by congruence. lia.
Qed.

Lemma move_lifecycle w w' : move w w' -> lifecycle w -> lifecycle w'.
Proof.
  intros Hm. destruct Hm as [sid f Hf|k ks|sid w' Ha Hk] eqn:E.
  - apply lifecycle_same; [|apply has_upd|done|done].
    intros j. destruct (decide (j = sid)) as [->|Hj]; [|by rewrite ses_upd_ne].
    destruct (decide (has w sid)) as [Hh|Hh]; [by rewrite ses_upd_eq|].
    rewrite !ses_none; [done|done|]. rewrite has_upd. done.
  - apply lifecycle_same; done.
  - apply (lifecycle_killed sid); done.
Qed.

Lemma moves_lifecycle w w' : moves w w' -> lifecycle w -> lifecycle w'.
Proof. induction 1 as [|x y z H _ IH]; eauto using move_lifecycle. Qed.

Lemma phase_has w j : phase (ses w j) <> PGone -> has w j.
Proof.
  intros H. destruct (decide (has w j)) as [|Hn]; [done|].
  rewrite ses_none in H by done. done.
Qed.

Lemma moves_ready_once w w' j : moves w w' -> ready_once w j -> ready_once w' j.
Proof.
  intros H. unfold ready_once. rewrite (moves_becameReady _ _ j H).
  rewrite (has_iff _ _ _ (moves_has _ _ j H)).
  destruct (moves_phase _ _ j H) as [->| ->]; [done|].
  pose proof (phase_has w j) as Hh.
  destruct (phase (ses w j)); try done; rewrite decide_True by (apply Hh; done); lia.
Qed.

(** ** The handshake's transitions *)

Lemma lifecycle_upd sid f w :
  tornDown_ (ses w sid) = false -> tornDown_ (f (ses w sid)) = false ->
  phase (f (ses w sid)) <> PGone ->
  (is_Some (handshakeTimer_ (f (ses w sid))) <-> phase (f (ses w sid)) <> PAuthorized) ->
  deps_ (f (ses w sid)) = deps_ (ses w sid) ->
  lifecycle w -> lifecycle (upd sid f w).
Proof.
  intros Ha Hf Hp Ht Hd []. pose proof (alive_has _ _ Ha) as Hh.
  assert (forall j, (j = sid /\ ses (upd sid f w) j = f (ses w sid)) \/
                    (j <> sid /\ ses (upd sid f w) j = ses w j)) as C.
  { intros j. destruct (decide (j = sid)) as [->|Hj]; [left|right].
    - rewrite ses_upd_eq by done. done.
    - rewrite ses_upd_ne by done. done. }
  split.
  - intros j. destruct (C j) as [[-> ->]|[_ ->]]; [|auto]. rewrite Hf. done.
  - intros j. destruct (C j) as [[-> ->]|[_ ->]]; [|auto]. tauto.
  - done.
  - intros j. change (sessions_ (upd sid f w)) with (sessions_ w). rewrite l_live0.
    destruct (C j) as [[-> ->]|[_ ->]]; [|auto]. rewrite Ha, Hf. done.
  - intros j. change (log (upd sid f w)) with (log w). rewrite l_terminated0.
    rewrite (has_iff _ _ _ (has_upd sid f w j)).
    destruct (C j) as [[-> ->]|[_ ->]]; [|auto]. rewrite Ha, Hf. done.
  - intros j. change (log (upd sid f w)) with (log w). rewrite l_sinkClosed0.
    rewrite (has_iff _ _ _ (has_upd sid f w j)).
    destruct (C j) as [[-> ->]|[_ ->]]; [|auto]. rewrite Ha, Hf. done.
Qed.

Lemma killed_other sid w w' j : killed sid w w' -> j <> sid -> ses w' j = ses w j.
Proof. intros []. auto. Qed.

Lemma teardown_other mode sid w j : j <> sid -> ses (teardown mode sid w) j = ses w j.
Proof.
  intros H. destruct (tornDown_ (ses w sid)) eqn:E; [by rewrite teardown_torn|].
  apply (killed_other sid); [by apply teardown_killed|done].
Qed.

Lemma writeOrTeardown_other bs sid w j :
  j <> sid -> ses (writeOrTeardown bs sid w) j = ses w j.
Proof.
  intros H. unfold writeOrTeardown. destruct (transport_ _); [|done].
  destruct (tornDown_ _); [done|].
  destruct (_ <? _); [by apply teardown_other|by apply ses_upd_ne].
Qed.

Lemma sendMessage_other id m sid w j : j <> sid -> ses (sendMessage id m sid w) j = ses w j.
Proof. apply writeOrTeardown_other. Qed.

Lemma sendRaw_other m sid w j : j <> sid -> ses (sendRaw m sid w) j = ses w j.
Proof.
  intros H. unfold sendRaw. destruct (transport_ _); [|done].
  destruct (tornDown_ _); [done|]. by apply ses_upd_ne.
Qed.

Lemma teardown_gone mode sid w :
  lifecycle w -> phase (ses (teardown mode sid w) sid) = PGone.
Proof.
  intros L. destruct (tornDown_ (ses w sid)) eqn:E.
  - rewrite teardown_torn by done. apply L. done.
  - destruct (teardown_killed mode sid w E) as [[tr ->] _ _ _ _ _]. done.
Qed.

(** The closing replies end the session and touch no other. *)
Definition ends (sid : nat) (w w' : World) : Prop :=
  moves w w' /\ phase (ses w' sid) = PGone /\ forall j, j <> sid -> ses w' j = ses w j.

Lemma close_ends sid m mode w :
  lifecycle w -> ends sid w (teardown mode sid (sendRaw m sid w)).
Proof.
  intros L. pose proof (sendRaw_moves m sid w) as Hm. split; [|split].
  - etransitivity; [exact Hm|apply teardown_moves].
  - apply teardown_gone. eapply moves_lifecycle; eassumption.
  - intros j Hj. rewrite teardown_other, sendRaw_other by done. done.
Qed.

Lemma closeWithError_ends id c tx sid w : lifecycle w -> ends sid w (closeWithError id c tx sid w).
Proof. apply close_ends. Qed.

Lemma sendAuthReject_ends id r c sid w : lifecycle w -> ends sid w (sendAuthReject id r c sid w).
Proof. apply close_ends. Qed.

(** What a handshake message leads to: the others are untouched, and the
    invariants hold. *)
Record settled (sid : nat) (w w' : World) : Prop := {
  a_other j : j <> sid -> ses w' j = ses w j;
  a_lifecycle : lifecycle w';
  a_ready j : ready_once w' j
}.

(** A reply that the outbound queue cannot take. *)
Definition overflows (sid : nat) (w : World) : Prop :=
  exists tr m, transport_ (ses w sid) = Some tr /\
    d_maxQueueBytes (deps_ (ses w sid)) < t_bytesToWrite tr + blen (serialize m).

(** The session reached phase [p], or its reply was dropped with it. *)
Definition advances (sid : nat) (p : Phase) (w w' : World) : Prop :=
  settled sid w w' /\
  (phase (ses w' sid) = p \/ (phase (ses w' sid) = PGone /\ overflows sid w)).

Definition sound (w : World) : Prop := lifecycle w /\ forall j, ready_once w j.

Lemma ends_settled sid w w' : sound w -> ends sid w w' -> settled sid w w'.
Proof.
  intros [L R] (Hm & Hp & Ho). split; [done| |].
  - eapply moves_lifecycle; eassumption.
  - intros j. eapply moves_ready_once; [eassumption|auto].
Qed.

(** A reply leaves the session as it is but for the transport, or the queue
    overflows. *)
Lemma sendMessage_self id m sid w :
  (exists tr, ses (sendMessage id m sid w) sid = ses w sid <| transport_ := tr |>) \/
  (phase (ses (sendMessage id m sid w) sid) = PGone /\ overflows sid w).
Proof.
  unfold sendMessage, writeOrTeardown.
  assert (exists tr, ses w sid = ses w sid <| transport_ := tr |>) as Hs
    by (exists (transport_ (ses w sid)); destruct (ses w sid); done).
  destruct (transport_ _) as [tr|] eqn:Et; [|by left].
  destruct (tornDown_ _) eqn:Ea; [by left|].
  destruct (_ <? _) eqn:Eo; breflect.
  - right. destruct (teardown_killed Discard sid w Ea) as [[tr' ->] _ _ _ _ _].
    split; [done|]. eexists tr, _. split; [done|exact Eo].
  - left. rewrite ses_upd_eq by (apply alive_has; done). eexists. done.
Qed.

Lemma sendMessage_phase id m sid w :
  phase (ses (sendMessage id m sid w) sid) = phase (ses w sid) \/
  (phase (ses (sendMessage id m sid w) sid) = PGone /\ overflows sid w).
Proof. destruct (sendMessage_self id m sid w) as [[tr ->]|H]; [by left|by right]. Qed.

Lemma ready_once_other w w' j :
  ses w' j = ses w j -> count (becameReady j) (log w') = count (becameReady j) (log w) ->
  (has w' j <-> has w j) -> ready_once w j -> ready_once w' j.
Proof.
  intros E1 E2 Hh. unfold ready_once. rewrite E1, E2, (has_iff _ _ _ Hh). done.
Qed.

(** A session still in its handshake. *)
Definition handshaking (s : t) : Prop := phase s <> PAuthorized /\ phase s <> PGone.

Lemma handshaking_facts w sid :
  sound w -> handshaking (ses w sid) ->
  tornDown_ (ses w sid) = false /\ has w sid /\ count (becameReady sid) (log w) = 0%nat.
Proof.
  intros [L R] [H1 H2].
  assert (tornDown_ (ses w sid) = false) as Ha
    by (apply not_true_iff_false; rewrite (l_torn w L); done).
  split; [done|]. split; [by apply alive_has|].
  specialize (R sid). unfold ready_once in R. destruct (phase _); done.
Qed.

Lemma goReady_advances id g sid w :
  sound w -> handshaking (ses w sid) -> advances sid PAuthorized w (goReady id g sid w).
Proof.
  intros Hs Hh. destruct (handshaking_facts _ _ Hs Hh) as (Ha & Hhas & Hc).
  destruct Hs as [L R]. unfold goReady.
  set (w1 := upd sid _ w).
  assert (ses w1 sid = ses w sid <| state_ := Ready |> <| handshakeTimer_ := None |>) as E1
    by (apply ses_upd_eq; done).
  assert (lifecycle w1) as L1.
  { apply lifecycle_upd; try done. split; [intros []; done|done]. }
  destruct (createUuid _) as [gen uuid].
  set (w2 := w1 <| keys ::= _ |>).
  assert (moves w1 w2) as M2 by (apply rtc_once; apply (mv_env w1 (sink w1))).
  match goal with |- context [sendMessage id ?m sid w2] => set (hello := m) end.
  pose proof (sendMessage_phase id hello sid w2) as P3.
  change (phase (ses w2 sid)) with (phase (ses w1 sid)) in P3. rewrite E1 in P3.
  set (w3 := sendMessage _ _ sid w2) in *.
  assert (moves w1 w3) as M3 by (etransitivity; [exact M2|apply sendMessage_moves]).
  assert (forall j, j <> sid -> ses w3 j = ses w j) as O3.
  { intros j Hj. unfold w3. rewrite sendMessage_other by done.
    change (ses w2 j) with (ses w1 j). apply ses_upd_ne. done. }
  assert (forall j, count (becameReady j) (log w3) = count (becameReady j) (log w)) as C3
    by (intros j; rewrite (moves_becameReady _ _ j M3); done).
  pose proof (moves_lifecycle _ _ M3 L1) as L3.
  assert (phase (ses w3 sid) = PAuthorized \/ (phase (ses w3 sid) = PGone /\ overflows sid w))
    as P3'.
  { destruct P3 as [P3|[P3 (tr & m & O)]]; [left; exact P3|right; split; [exact P3|]].
    exists tr, m. change (ses w2 sid) with (ses w1 sid) in O. rewrite E1 in O. exact O. }
  clearbody w3 hello. destruct (decide (state_ (ses w3 sid) = Ready)) as [Er|Er].
  - split; [split; [exact O3| |]|exact P3'].
    + destruct L3. split; [done..| |]; intros j;
        change (log (emit (becameReady sid) w3)) with (log w3 ++ [becameReady sid]);
        rewrite count_app, count_one, decide_False by done; rewrite Nat.add_0_r; auto.
    + intros j.
      assert (count (becameReady j) (log (emit (becameReady sid) w3))
              = (count (becameReady j) (log w) + if decide (j = sid) then 1 else 0)%nat) as Ec.
      { change (log (emit (becameReady sid) w3)) with (log w3 ++ [becameReady sid]).
        rewrite count_app, count_one, C3. f_equal.
        destruct (decide (j = sid)) as [->|Hj]; [by rewrite decide_True|].
        rewrite decide_False by congruence. done. }
      destruct (decide (j = sid)) as [->|Hj].
      * unfold ready_once. rewrite Ec. change (ses (emit _ w3) sid) with (ses w3 sid).
        unfold phase. rewrite Er. lia.
      * eapply ready_once_other; [apply O3; done|rewrite Ec; lia| |apply R].
        transitivity (has w3 j); [done|]. rewrite (moves_has _ _ j M3). apply has_upd.
  - split; [split; [exact O3|exact L3|]|exact P3'].
    intros j. destruct (decide (j = sid)) as [->|Hj].
    + unfold ready_once. rewrite C3, Hc. destruct P3' as [P'|[P' _]]; rewrite P'; [|apply Nat.le_0_l].
      exfalso. apply Er. unfold phase in P'. destruct (state_ (ses w3 sid)); done.
    + eapply ready_once_other; [apply O3; done|apply C3| |apply R].
      rewrite (moves_has _ _ j M3). apply has_upd.
Qed.

Lemma sound_moves w w' : moves w w' -> sound w -> sound w'.
Proof.
  intros M [L R]. split; [by eapply moves_lifecycle|].
  intros j. eapply moves_ready_once; [exact M|auto].
Qed.

(** Sending a challenge and waiting for its answer. *)
Lemma challenge_advances id m st sid w :
  sound w -> phase (ses w sid) = PHello -> st = AuthPending \/ st = PairingPending ->
  advances sid (phase (ses w sid <| state_ := st |>)) w
    (startTimer st sid (sendMessage id m sid w)).
Proof.
  intros Hs Hp Hst. pose proof (sendMessage_moves id m sid w) as M.
  pose proof (sendMessage_self id m sid w) as P.
  assert (forall j, j <> sid -> ses (sendMessage id m sid w) j = ses w j) as O
    by (intros; apply sendMessage_other; done).
  set (w1 := sendMessage id m sid w) in *. clearbody w1.
  pose proof (sound_moves _ _ M Hs) as Hs1.
  unfold startTimer. destruct (decide (state_ (ses w1 sid) = ExpectHello)) as [Es|Es].
  - destruct P as [[tr E]|[E _]]; [|unfold phase in E; rewrite Es in E; done].
    destruct (handshaking_facts w1 sid Hs1) as (Ha & Hh & Hc).
    { unfold handshaking, phase. rewrite Es. done. }
    split; [split|].
    + intros j Hj. rewrite ses_upd_ne by done. auto.
    + apply lifecycle_upd; [done|exact Ha| | |done|apply Hs1];
        destruct Hst as [->| ->]; cbn; try done.
    + intros j. destruct (decide (j = sid)) as [->|Hj].
      * unfold ready_once. change (log (upd _ _ w1)) with (log w1). rewrite Hc.
        rewrite ses_upd_eq by done. destruct Hst as [->| ->]; done.
      * eapply ready_once_other; [by apply ses_upd_ne|done|apply has_upd|apply Hs1].
    + left. rewrite ses_upd_eq by done. rewrite E. destruct (ses w sid). done.
  - split; [split; [exact O|apply Hs1|apply Hs1]|]. right.
    destruct P as [[tr E]|P]; [|exact P]. exfalso. apply Es. rewrite E. cbn.
    unfold phase in Hp. destruct (state_ (ses w sid)); done.
Qed.

(** ** The specification of a handshake message *)

(** The messages the abstract machine accepts in a phase. *)
Definition known (cid : string) (sid : nat) (w : World) : option PairedClient :=
  match storeFind cid sid w with
  | Some c => if kSecureCodeCredentialGeneration <=? credentialGeneration c
              then Some c else None
  | None => None
  end.

Definition accepts (w : World) (sid : nat) (p : option pb.Payload) (ph : Phase) : bool :=
  match ph, p with
  | PHello, Some (pb.ClientHello major _ _ _ auth) =>
      (major =? 1) &&
      (trusted (ses w sid) ||
       if bool_decide (pb.auth_client_id auth = "")
       then pb.pairing_request auth && d_pairing (deps_ (ses w sid))
            && PairingManager.windowOpen (keys w)
       else bool_decide (is_Some (known (pb.auth_client_id auth) sid w)))
  | PChallenge cid nonce, Some (pb.AuthResponse _ proof) =>
      match known cid sid w with
      | Some c => bool_decide (proof = hmacProof (secret c) nonce)
      | None => false
      end
  | PPairing nonce, Some (pb.PairingResponse proof) =>
      d_pairing (deps_ (ses w sid)) &&
      bool_decide (is_Some (PairingManager.completePairing nonce proof
        (helloName_ (ses w sid)) (helloKind_ (ses w sid)) (keys w)).2)
  | _, _ => false
  end.

(** Where an accepted message leads. *)
Inductive next (w : World) (sid : nat) : option pb.Payload -> Phase -> Phase -> Prop :=
| next_trusted major minor nm kd auth :
    trusted (ses w sid) = true ->
    next w sid (Some (pb.ClientHello major minor nm kd auth)) PHello PAuthorized
| next_challenge major minor nm kd auth nonce :
    trusted (ses w sid) = false -> pb.auth_client_id auth <> "" ->
    length nonce = 32%nat ->
    next w sid (Some (pb.ClientHello major minor nm kd auth)) PHello
      (PChallenge (pb.auth_client_id auth) nonce)
| next_pairing major minor nm kd auth nonce :
    trusted (ses w sid) = false -> pb.auth_client_id auth = "" ->
    length nonce = 32%nat ->
    next w sid (Some (pb.ClientHello major minor nm kd auth)) PHello (PPairing nonce)
| next_proof cid nonce x proof :
    next w sid (Some (pb.AuthResponse x proof)) (PChallenge cid nonce) PAuthorized
| next_paired nonce proof :
    next w sid (Some (pb.PairingResponse proof)) (PPairing nonce) PAuthorized.

(** One message, in the abstract: accepted and on to the next phase, unless
    the reply overflows the queue; anything else ends the session. *)
Definition spec_step (w : World) (sid : nat) (p : option pb.Payload) (ph ph' : Phase) : Prop :=
  if accepts w sid p ph
  then next w sid p ph ph' \/ (ph' = PGone /\ overflows sid w)
  else ph' = PGone.

(** ** The handlers meet it *)

Lemma settled_trans sid w1 w2 w3 : settled sid w1 w2 -> settled sid w2 w3 -> settled sid w1 w3.
Proof. intros [O1 _ _] [O2 L R]. split; [intros j Hj; rewrite O2, O1; done|done|done]. Qed.

Lemma settled_sound sid w w' : settled sid w w' -> sound w'.
Proof. intros []. split; done. Qed.

Lemma settled_touch sid f w :
  sound w -> (forall s, core (f s) = core s) -> settled sid w (upd sid f w).
Proof.
  intros Hs Hf. pose proof (sound_moves _ _ (touch_moves sid f w Hf) Hs) as [L R].
  split; [intros; by apply ses_upd_ne|done|done].
Qed.

Lemma settled_keys sid f w : sound w -> settled sid w (w <| keys ::= f |>).
Proof.
  intros Hs. assert (moves w (w <| keys ::= f |>)) as M
    by (apply rtc_once; apply (mv_env w (sink w))).
  destruct (sound_moves _ _ M Hs) as [L R]. split; done.
Qed.

(** A refusal after steps that left the session in its handshake. *)
Lemma refuse sid w w1 w2 p ph :
  sound w -> settled sid w w1 -> ends sid w1 w2 -> accepts w sid p ph = false ->
  settled sid w w2 /\ spec_step w sid p ph (phase (ses w2 sid)).
Proof.
  intros Hs H1 H2 Ha. split.
  - eapply settled_trans; [exact H1|]. eapply ends_settled; [|exact H2].
    eapply settled_sound. exact H1.
  - unfold spec_step. rewrite Ha. apply H2.
Qed.

(** Steps that touch the session's data first. *)
Definition data_step (sid : nat) (w w1 : World) : Prop :=
  settled sid w w1 /\ phase (ses w1 sid) = phase (ses w sid) /\
  transport_ (ses w1 sid) = transport_ (ses w sid) /\ deps_ (ses w1 sid) = deps_ (ses w sid).

Lemma data_trans sid w1 w2 w3 : data_step sid w1 w2 -> data_step sid w2 w3 -> data_step sid w1 w3.
Proof.
  intros (S1 & P1 & T1 & D1) (S2 & P2 & T2 & D2).
  split; [by eapply settled_trans|split_and!; congruence].
Qed.

Lemma data_sound sid w w1 : data_step sid w w1 -> sound w1.
Proof. intros [H _]. by eapply settled_sound. Qed.

Lemma data_upd sid f w :
  sound w -> has w sid -> (forall s, core (f s) = core s /\ transport_ (f s) = transport_ s) ->
  data_step sid w (upd sid f w).
Proof.
  intros Hs Hh Hf. split; [apply settled_touch; [done|apply Hf]|].
  rewrite ses_upd_eq by done. destruct (Hf (ses w sid)) as [Hc Ht].
  unfold core in Hc. split_and!; congruence.
Qed.

(** The data a phase is made of may change while it is not looked at. *)
Lemma data_hello sid f w :
  sound w -> phase (ses w sid) = PHello ->
  (forall s, state_ (f s) = state_ s /\ tornDown_ (f s) = tornDown_ s /\
     handshakeTimer_ (f s) = handshakeTimer_ s /\ deps_ (f s) = deps_ s /\
     transport_ (f s) = transport_ s) ->
  data_step sid w (upd sid f w).
Proof.
  intros Hs Hp Hf.
  destruct (handshaking_facts w sid Hs) as (Ha & Hh & _); [by unfold handshaking; rewrite Hp|].
  destruct (Hf (ses w sid)) as (F1 & F2 & F3 & F4 & F5).
  assert (phase (f (ses w sid)) = PHello) as Hp'.
  { unfold phase in *. rewrite F1. destruct (state_ (ses w sid)); done. }
  assert (core (f (ses w sid)) = core (ses w sid)) as Hc
    by (unfold core; rewrite Hp, Hp', F2, F3, F4; done).
  pose proof (rtc_once _ _ (mv_touch w sid f Hc)) as M.
  destruct (sound_moves _ _ M Hs) as [L R].
  split; [split; [intros; by apply ses_upd_ne|done|done]|].
  rewrite ses_upd_eq by done. rewrite Hp, Hp'. done.
Qed.

Lemma data_keys sid f w : sound w -> data_step sid w (w <| keys ::= f |>).
Proof. intros Hs. split; [by apply settled_keys|done]. Qed.

Lemma advances_after sid p w w1 w2 :
  data_step sid w w1 -> advances sid p w1 w2 -> advances sid p w w2.
Proof.
  intros (S1 & P1 & T1 & D1) [S2 P2]. split; [by eapply settled_trans|].
  unfold overflows in *. rewrite T1, D1 in P2. exact P2.
Qed.

(** An acceptance. *)
Lemma accept sid w w1 w2 p ph ph' :
  data_step sid w w1 -> advances sid ph' w1 w2 ->
  accepts w sid p ph = true -> next w sid p ph ph' ->
  settled sid w w2 /\ spec_step w sid p ph (phase (ses w2 sid)).
Proof.
  intros H1 H2 Ha Hn. destruct (advances_after _ _ _ _ _ H1 H2) as [H3 H4].
  split; [done|]. unfold spec_step. rewrite Ha. destruct H4 as [->|[-> O]]; auto.
Qed.

Lemma challengeClient_advances id cid sid w :
  sound w -> phase (ses w sid) = PHello ->
  exists nonce, length nonce = 32%nat /\
    advances sid (PChallenge cid nonce) w (challengeClient id cid sid w).
Proof.
  intros Hs Hp. unfold challengeClient.
  set (w1 := upd sid _ w).
  assert (data_step sid w w1) as D1 by (apply data_hello; done).
  pose proof (PairingManager.boundedBytes_length 32 (PairingManager.rng (keys w1))) as Hl.
  unfold randomBytes. destruct (PairingManager.boundedBytes 32 _) as [g nonce]. cbn in Hl.
  exists nonce. split; [exact Hl|].
  set (w2 := w1 <| keys ::= _ |>).
  assert (data_step sid w w2) as D2
    by (eapply data_trans; [exact D1|apply data_keys; by eapply data_sound]).
  set (w3 := upd sid _ w2).
  assert (phase (ses w2 sid) = PHello) as Hp2
    by (destruct D2 as (_ & -> & _); exact Hp).
  assert (data_step sid w w3) as D3.
  { eapply data_trans; [exact D2|]. apply data_hello; [by eapply data_sound|done|done]. }
  destruct (handshaking_facts w sid Hs) as (Ha & Hh & _); [by unfold handshaking; rewrite Hp|].
  assert (phase (ses w3 sid <| state_ := AuthPending |>) = PChallenge cid nonce) as <-.
  { unfold w3. rewrite ses_upd_eq by (apply has_upd; exact Hh).
    change (ses w2 sid) with (ses w1 sid). unfold w1. rewrite ses_upd_eq by exact Hh. done. }
  eapply advances_after; [exact D3|]. apply challenge_advances; [by eapply data_sound| |by left].
  destruct D3 as (_ & -> & _). exact Hp.
Qed.

Lemma challengePairing_advances id sid w :
  sound w -> phase (ses w sid) = PHello ->
  exists nonce, length nonce = 32%nat /\
    advances sid (PPairing nonce) w (challengePairing id sid w).
Proof.
  intros Hs Hp. unfold challengePairing.
  destruct (PairingManager.makeNonce (keys w)) as [k nonce] eqn:En.
  exists nonce. split.
  { unfold PairingManager.makeNonce in En.
    pose proof (PairingManager.randomBytes_length 32 (PairingManager.rng (keys w))) as R.
    destruct (PairingManager.randomBytes 32 _). simplify_eq. exact R. }
  set (w2 := w <| keys := k |>).
  assert (data_step sid w w2) as D2 by (apply (data_keys sid (fun _ => k)); done).
  set (w3 := upd sid _ w2).
  assert (data_step sid w w3) as D3.
  { eapply data_trans; [exact D2|]. apply data_hello; [by eapply data_sound|exact Hp|done]. }
  destruct (handshaking_facts w sid Hs) as (Ha & Hh & _); [by unfold handshaking; rewrite Hp|].
  assert (phase (ses w3 sid <| state_ := PairingPending |>) = PPairing nonce) as <-.
  { unfold w3. rewrite ses_upd_eq by exact Hh. done. }
  eapply advances_after; [exact D3|]. apply challenge_advances; [by eapply data_sound| |by right].
  destruct D3 as (_ & -> & _). exact Hp.
Qed.

Lemma handleExpectHello_spec m sid w :
  sound w -> phase (ses w sid) = PHello ->
  settled sid w (handleExpectHello m sid w) /\
  spec_step w sid (pb.payload m) PHello (phase (ses (handleExpectHello m sid w) sid)).
Proof.
  intros Hs Hp.
  destruct (handshaking_facts w sid Hs) as (Ha & Hh & _); [by unfold handshaking; rewrite Hp|].
  assert (settled sid w w) as Hrefl by (destruct Hs; split; done).
  unfold handleExpectHello.
  destruct (pb.payload m) as [[]|] eqn:Em;
    try (eapply refuse; [done|done|apply closeWithError_ends; apply Hs|done]).
  rename requested_api_version_major into major.
  destruct (major =? 1) eqn:Emaj; cbn [negb].
  2: { eapply refuse; [done|done|apply closeWithError_ends; apply Hs|].
       cbn. rewrite Emaj. done. }
  set (w1 := upd sid _ w).
  assert (data_step sid w w1) as D1 by (apply data_hello; done).
  assert (ses w1 sid = ses w sid <| helloName_ := client_name |> <| helloKind_ := client_kind |>)
    as E1 by (apply ses_upd_eq; done).
  pose proof (data_sound _ _ _ D1) as Hs1. pose proof (proj1 Hs1) as L1.
  assert (phase (ses w1 sid) = PHello) as Hp1 by (destruct D1 as (_ & -> & _); exact Hp).
  assert (trusted (ses w1 sid) = trusted (ses w sid)) as -> by (rewrite E1; done).
  assert (forall c, storeFind c sid w1 = storeFind c sid w) as Ef
    by (intros c; unfold storeFind; rewrite E1; done).
  assert (d_pairing (deps_ (ses w1 sid)) = d_pairing (deps_ (ses w sid))) as ->
    by (rewrite E1; done).
  rewrite Ef. change (keys w1) with (keys w). clear Ef E1.
  assert (accepts w sid (Some (pb.ClientHello major requested_api_version_minor client_name
            client_kind auth)) PHello = _) as Eacc by (cbn; rewrite Emaj; done).
  destruct (trusted (ses w sid)) eqn:Etr.
  { eapply (accept sid w _ _ _ _ PAuthorized); [|apply goReady_advances|exact Eacc|by constructor].
    - eapply data_trans; [exact D1|apply data_hello; done].
    - eapply data_sound, (data_hello sid _ w1); done.
    - unfold handshaking. destruct (data_hello sid (fun s => s <| clientId_ := "" |>
        <| clientName_ := helloName_ s |>) w1 Hs1 Hp1) as (_ & -> & _); [done|].
      rewrite Hp1. done. }
  destruct (bool_decide (pb.auth_client_id auth = "")) eqn:Ecid; cbn [negb]; breflect.
  - destruct (pb.pairing_request auth) eqn:Epr.
    2: { eapply refuse; [done|apply D1|apply sendAuthReject_ends; done|exact Eacc]. }
    destruct (d_pairing _), (PairingManager.windowOpen _); cbn [negb orb];
      try (eapply refuse; [done|apply D1|apply closeWithError_ends; done|exact Eacc]).
    destruct (challengePairing_advances (pb.request_id m) sid w1 Hs1 Hp1) as (nonce & Hl & Hadv).
    eapply accept; [exact D1|exact Hadv|exact Eacc|by constructor].
  - destruct (storeFind _ sid w) as [c|] eqn:Ec.
    2: { eapply refuse; [done|apply D1|apply sendAuthReject_ends; done|].
         rewrite Eacc. unfold known. rewrite Ec. done. }
    destruct (_ <? _) eqn:Eg; breflect.
    { eapply refuse; [done|apply D1|apply sendAuthReject_ends; done|].
      rewrite Eacc. unfold known. rewrite Ec.
      rewrite (proj2 (Z.leb_gt _ _)) by done. done. }
    destruct (challengeClient_advances (pb.request_id m) (pb.auth_client_id auth) sid w1
                Hs1 Hp1) as (nonce & Hl & Hadv).
    eapply accept; [exact D1|exact Hadv| |by constructor].
    rewrite Eacc. unfold known. rewrite Ec. rewrite (proj2 (Z.leb_le _ _)) by done. done.
Qed.

Lemma phase_Ready s : phase s = PAuthorized <-> state_ s = Ready.
Proof. unfold phase. destruct (state_ s); done. Qed.

Lemma phase_Closed s : phase s = PGone <-> state_ s = Closed.
Proof. unfold phase. destruct (state_ s); done. Qed.

Lemma phase_challenge s cid nonce :
  phase s = PChallenge cid nonce ->
  state_ s = AuthPending /\ authClientId_ s = cid /\ nonce_ s = nonce.
Proof. unfold phase. destruct (state_ s); naive_solver. Qed.

Lemma phase_pairing s nonce :
  phase s = PPairing nonce -> state_ s = PairingPending /\ nonce_ s = nonce.
Proof. unfold phase. destruct (state_ s); naive_solver. Qed.

Lemma sound_refl sid w : sound w -> settled sid w w.
Proof. intros []. split; done. Qed.

(** Naming the client keeps a session in its handshake. *)
Lemma data_name sid f w :
  sound w -> has w sid ->
  (forall s, core (f s) = core s /\ transport_ (f s) = transport_ s) ->
  handshaking (ses w sid) ->
  data_step sid w (upd sid f w) /\ handshaking (ses (upd sid f w) sid).
Proof.
  intros Hs Hh Hf Hk. pose proof (data_upd sid f w Hs Hh Hf) as D. split; [done|].
  unfold handshaking. destruct D as (_ & -> & _). exact Hk.
Qed.

Lemma handleAuthPending_spec m sid w cid nonce :
  sound w -> phase (ses w sid) = PChallenge cid nonce ->
  settled sid w (handleAuthPending m sid w) /\
  spec_step w sid (pb.payload m) (PChallenge cid nonce)
    (phase (ses (handleAuthPending m sid w) sid)).
Proof.
  intros Hs Hp. pose proof (proj1 Hs) as L.
  assert (handshaking (ses w sid)) as Hk by (unfold handshaking; rewrite Hp; done).
  destruct (handshaking_facts w sid Hs Hk) as (Ha & Hh & _).
  destruct (phase_challenge _ _ _ Hp) as (Est & <- & <-).
  pose proof (sound_refl sid w Hs) as Hrefl. unfold handleAuthPending.
  destruct (pb.payload m) as [[]|] eqn:Em;
    try (eapply refuse; [done|done|apply closeWithError_ends; done|done]).
  destruct (storeFind _ sid w) as [c|] eqn:Ec.
  2: { eapply refuse; [done|done|apply sendAuthReject_ends; done|].
       cbn. unfold known. rewrite Ec. done. }
  destruct (_ <? _) eqn:Eg; breflect.
  { eapply refuse; [done|done|apply sendAuthReject_ends; done|].
    cbn. unfold known. rewrite Ec, (proj2 (Z.leb_gt _ _)) by done. done. }
  rewrite constantTimeEquals_spec.
  destruct (bool_decide (_ = proof)) eqn:Eb; breflect.
  - destruct (data_name sid (fun s => s <| clientId_ := authClientId_ s |>
                                        <| clientName_ := name c |>) w) as [D Hk'];
      [done..|].
    eapply accept; [exact D|apply goReady_advances; [by eapply data_sound|exact Hk']| |constructor].
    cbn. unfold known. rewrite Ec, (proj2 (Z.leb_le _ _)) by done.
    apply bool_decide_eq_true. done.
  - eapply refuse; [done|done|apply sendAuthReject_ends; done|].
    cbn. unfold known. rewrite Ec, (proj2 (Z.leb_le _ _)) by done.
    apply bool_decide_eq_false. congruence.
Qed.

Lemma handlePairingPending_spec m sid w nonce :
  sound w -> phase (ses w sid) = PPairing nonce ->
  settled sid w (handlePairingPending m sid w) /\
  spec_step w sid (pb.payload m) (PPairing nonce)
    (phase (ses (handlePairingPending m sid w) sid)).
Proof.
  intros Hs Hp. pose proof (proj1 Hs) as L.
  assert (handshaking (ses w sid)) as Hk by (unfold handshaking; rewrite Hp; done).
  destruct (handshaking_facts w sid Hs Hk) as (Ha & Hh & _).
  destruct (phase_pairing _ _ Hp) as (Est & <-).
  pose proof (sound_refl sid w Hs) as Hrefl. unfold handlePairingPending.
  destruct (pb.payload m) as [[]|] eqn:Em;
    try (eapply refuse; [done|done|apply closeWithError_ends; done|done]).
  destruct (d_pairing (deps_ (ses w sid))) eqn:Ed; cbn [negb].
  2: { eapply refuse; [done|done|apply sendAuthReject_ends; done|].
       cbn. rewrite Ed. done. }
  destruct (PairingManager.completePairing _ _ _ _ _) as [k granted] eqn:Eg.
  set (w1 := w <| keys := k |>).
  assert (data_step sid w w1) as D1 by (apply (data_keys sid (fun _ => k)); done).
  assert (sound w1) as Hs1 by (by eapply data_sound).
  destruct granted as [cid|].
  - destruct (data_name sid (fun s => s <| clientId_ := cid |>
                                        <| clientName_ := helloName_ s |>) w1) as [D Hk'];
      [done..|].
    eapply accept; [eapply data_trans; [exact D1|exact D]
                   |apply goReady_advances; [by eapply data_sound|exact Hk']| |constructor].
    cbn. rewrite Ed, Eg. done.
  - eapply refuse; [done|apply D1|apply sendAuthReject_ends, Hs1|].
    cbn. rewrite Ed, Eg. done.
Qed.

(** ** The steps of the server *)

(** An event of the main loop. *)
Inductive step (w : World) : World -> Prop :=
| st_receive sid bs : step w (onMessageReceived bs sid w)
| st_transportClosed sid : step w (onTransportClosed sid w)
| st_timeout sid :
    is_Some (handshakeTimer_ (ses w sid)) -> step w (onHandshakeTimeout sid w)
| st_status tp bs : step w (statusReady tp bs w)
| st_adopt sid tr deps : ~ has w sid -> step w (adoptSession sid tr deps w)
| st_sink w' : sink_step w w' -> step w w'
| st_window : step w (w <| keys ::= PairingManager.timeout |>).

Definition init (k : keyring) (snk : K) : World := mkWorld ∅ [] k snk [].

Definition reachable (k : keyring) (snk : K) (w : World) : Prop := rtc step (init k snk) w.

Lemma init_sound k snk : sound (init k snk).
Proof.
  assert (forall j, ~ has (init k snk) j) as Hn.
  { intros j [s Hs]. unfold init in Hs. cbn in Hs. rewrite lookup_empty in Hs. done. }
  split; [split|]; try intros j; try rewrite decide_False by apply Hn;
    rewrite ?(ses_none _ j) by apply Hn; try done.
  - split; [intros []; done|intros []; done].
  - constructor.
  - split; [intros H; inversion H|done].
  - unfold ready_once. rewrite (ses_none _ j) by apply Hn. apply Nat.le_0_l.
Qed.

(** A handshake message, whatever it is, meets the specification. *)
Lemma receive_handshake bs sid w :
  sound w -> handshaking (ses w sid) ->
  settled sid w (onMessageReceived bs sid w) /\
  match parse bs with
  | Some m => spec_step w sid (pb.payload m) (phase (ses w sid))
                (phase (ses (onMessageReceived bs sid w) sid))
  | None => phase (ses (onMessageReceived bs sid w) sid) = PGone
  end.
Proof.
  intros Hs Hk. unfold onMessageReceived.
  pose proof (closeWithError_ends 0 pb.ERROR_CODE_INVALID_REQUEST "parse failure" sid w
                (proj1 Hs)) as He.
  pose proof (ends_settled _ _ _ Hs He) as Hes. destruct He as (_ & Hg & _).
  destruct (phase (ses w sid)) as [|cid nonce|nonce| |] eqn:Hp.
  4, 5: unfold handshaking in Hk; rewrite Hp in Hk; destruct Hk; done.
  - assert (state_ (ses w sid) = ExpectHello) as -> by
      (unfold phase in Hp; destruct (state_ _); done).
    destruct (parse bs) as [m|]; [|done]. apply handleExpectHello_spec; done.
  - destruct (phase_challenge _ _ _ Hp) as (-> & _).
    destruct (parse bs) as [m|]; [|done]. apply handleAuthPending_spec; done.
  - destruct (phase_pairing _ _ Hp) as (-> & _).
    destruct (parse bs) as [m|]; [|done]. apply handlePairingPending_spec; done.
Qed.

Lemma receive_moves bs sid w :
  phase (ses w sid) = PAuthorized -> moves w (onMessageReceived bs sid w).
Proof.
  intros Hp. unfold onMessageReceived.
  assert (state_ (ses w sid) = Ready) as -> by
    (unfold phase in Hp; destruct (state_ _); done).
  destruct (parse bs); [apply handleReady_moves|apply closeWithError_moves].
Qed.

Lemma receive_gone bs sid w : phase (ses w sid) = PGone -> onMessageReceived bs sid w = w.
Proof.
  intros Hp. unfold onMessageReceived.
  assert (state_ (ses w sid) = Closed) as -> by
    (unfold phase in Hp; destruct (state_ _); done). done.
Qed.

Lemma phase_cases s : handshaking s \/ phase s = PAuthorized \/ phase s = PGone.
Proof. unfold handshaking. destruct (phase s); auto; left; done. Qed.

Lemma adopt_sound sid tr deps w :
  ~ has w sid -> sound w -> sound (adoptSession sid tr deps w).
Proof.
  intros Hn [L R]. destruct L.
  assert (forall j, (j = sid /\ ses (adoptSession sid tr deps w) j = create (Some tr) deps /\
                     has (adoptSession sid tr deps w) j) \/
                    (j <> sid /\ ses (adoptSession sid tr deps w) j = ses w j /\
                     (has (adoptSession sid tr deps w) j <-> has w j))) as C.
  { intros j. unfold ses, has, adoptSession. cbn.
    destruct (decide (j = sid)) as [->|Hj]; [left|right].
    - rewrite lookup_insert_eq. eauto.
    - rewrite lookup_insert_ne by done. done. }
  assert (sid ∉ sessions_ w) as Hl by (rewrite l_live0, ses_none; done).
  split; [split|].
  - intros j. destruct (C j) as [(-> & -> & _)|(_ & -> & _)]; [split; done|auto].
  - intros j. destruct (C j) as [(-> & -> & _)|(_ & -> & _)]; [|auto].
    cbn. split; [done|eauto].
  - cbn. apply NoDup_app. split_and!; [done| |apply NoDup_singleton].
    intros x Hx ->%list_elem_of_singleton. done.
  - intros j. change (sessions_ (adoptSession sid tr deps w)) with (sessions_ w ++ [sid]).
    rewrite elem_of_app, list_elem_of_singleton, l_live0.
    destruct (C j) as [(-> & -> & _)|(Hj & -> & _)]; cbn; naive_solver.
  - intros j. change (log (adoptSession sid tr deps w)) with (log w). rewrite l_terminated0.
    destruct (C j) as [(-> & -> & Hh)|(Hj & -> & Hh)]; [|by rewrite (has_iff _ _ _ Hh)].
    rewrite decide_False by done. destruct (decide _); done.
  - intros j. change (log (adoptSession sid tr deps w)) with (log w). rewrite l_sinkClosed0.
    destruct (C j) as [(-> & -> & Hh)|(Hj & -> & Hh)]; [|by rewrite (has_iff _ _ _ Hh)].
    rewrite decide_False by done. destruct (decide _); done.
  - intros j. specialize (R j).
    destruct (C j) as [(-> & E & Hh)|(Hj & E & Hh)].
    + unfold ready_once in *. rewrite ses_none, decide_False in R by done. rewrite E.
      change (log (adoptSession sid tr deps w)) with (log w). cbn in *. lia.
    + eapply ready_once_other; [exact E|done|exact Hh|exact R].
Qed.

(** A step either is a received message or makes moves only. *)
Lemma step_sound w w' :
  step w w' -> sound w -> sound w' /\
  ((exists sid bs, w' = onMessageReceived bs sid w /\ handshaking (ses w sid)) \/
   (exists sid tr deps, ~ has w sid /\ w' = adoptSession sid tr deps w) \/
   moves w w').
Proof.
  intros H Hs.
  assert (moves w w' -> sound w' /\
    ((exists sid bs, w' = onMessageReceived bs sid w /\ handshaking (ses w sid)) \/
     (exists sid tr deps, ~ has w sid /\ w' = adoptSession sid tr deps w) \/ moves w w')) as Hm.
  { intros M. split; [by eapply sound_moves|auto]. }
  destruct H as [sid bs|sid|sid Ht|tp bs|sid tr deps Hn|w' Hk|].
  - destruct (phase_cases (ses w sid)) as [Hh|[Hp|Hp]].
    + split; [|left; eauto]. destruct (receive_handshake bs sid w Hs Hh) as [S1 _].
      by eapply settled_sound.
    + apply Hm, receive_moves. done.
    + apply Hm. rewrite receive_gone by done. done.
  - apply Hm, teardown_moves.
  - apply Hm, closeWithError_moves.
  - apply Hm, statusReady_moves.
  - split; [by apply adopt_sound|right; left; eauto].
  - apply Hm, sink_step_moves, Hk.
  - apply Hm, rtc_once. apply (mv_env w (sink w)).
Qed.

Lemma reachable_sound k snk w : reachable k snk w -> sound w.
Proof.
  unfold reachable. intros H. pose proof (init_sound k snk) as H0. revert H0.
  induction H as [|x y z Hxy _ IH]; [done|]. intros Hx. apply IH.
  apply (step_sound _ _ Hxy Hx).
Qed.

(** C36. Nobody gets in without a right to. In every state the server can
    reach, and for every event of its main loop, a session that is ready after
    the event and was not before has just received one message that entitles
    it: a version-1 hello from a trusted (loopback) peer; or the answer to the
    nonce this session was challenged with, which is the HMAC of that nonce
    under the secret the store holds, at that moment, for the client id the
    challenge was issued to, with a current credential; or the answer to a
    pairing challenge, while the pairing window is open, which is the HMAC of
    the issued nonce under the secret derived from the displayed code. *)
Theorem ready_needs_proof (k : keyring) (snk : K) (w w' : World) (sid : nat) :
  reachable k snk w -> step w w' ->
  state_ (ses w' sid) = Ready -> state_ (ses w sid) <> Ready ->
  let s := ses w sid in
  exists bs m, w' = onMessageReceived bs sid w /\ parse bs = Some m /\
    ((exists minor nm kd auth,
        pb.payload m = Some (pb.ClientHello 1 minor nm kd auth) /\
        state_ s = ExpectHello /\ trusted s = true) \/
     (exists x c,
        pb.payload m = Some (pb.AuthResponse x (hmacProof (secret c) (nonce_ s))) /\
        state_ s = AuthPending /\ storeFind (authClientId_ s) sid w = Some c /\
        kSecureCodeCredentialGeneration <= credentialGeneration c) \/
     (pb.payload m = Some (pb.PairingResponse
        (hmacProof (deriveSecret (PairingManager.currentCode (keys w))
                                 (PairingManager.currentSalt (keys w))) (nonce_ s))) /\
      state_ s = PairingPending /\ PairingManager.windowOpen (keys w) = true)).
Proof.
  intros Hr Hst Hready Hnot s. pose proof (reachable_sound _ _ _ Hr) as Hs.
  assert (phase (ses w' sid) = PAuthorized) as Hp' by (unfold phase; rewrite Hready; done).
  assert (phase s <> PAuthorized) as Hp
    by (subst s; unfold phase; destruct (state_ (ses w sid)); done).
  destruct (step_sound _ _ Hst Hs) as [_ [(i & bs & -> & Hk)|[(i & tr & d & Hn & ->)|M]]].
  - destruct (receive_handshake bs i w Hs Hk) as [Hset Hspec].
    destruct (decide (sid = i)) as [->|Hne].
    2: { destruct Hset as [Ho _ _]. rewrite Ho in Hp' by done. done. }
    exists bs. destruct (parse bs) as [m|]; [|congruence].
    exists m. split; [done|]. split; [done|]. rewrite Hp' in Hspec.
    unfold spec_step in Hspec. destruct (accepts _ _ _ _) eqn:Ea; [|done].
    destruct Hspec as [Hn|[? _]]; [|done]. fold s in Hn, Ea, Hk.
    inversion Hn as [major minor nm kd auth Ht Em Eph| | |cid nonce x proof Em Eph
                    |nonce proof Em Eph]; rewrite <- Em, <- Eph in Ea; cbn in Ea.
    + left. destruct (major =? 1) eqn:E1; [|done]. breflect. subst major.
      exists minor, nm, kd, auth. split_and!; [done| |done].
      symmetry in Eph. unfold phase in Eph. destruct (state_ s); done.
    + right; left. symmetry in Eph. destruct (phase_challenge _ _ _ Eph) as (Est & <- & <-).
      unfold known in Ea. destruct (storeFind _ i w) as [c|] eqn:Ec; [|done].
      destruct (_ <=? _) eqn:Eg; [|done]. breflect. subst proof. exists x, c. done.
    + right; right. symmetry in Eph. destruct (phase_pairing _ _ Eph) as (Est & <-).
      destruct (d_pairing _); [|done]. cbn in Ea. breflect.
      unfold PairingManager.completePairing in Ea. fold (PairingManager.windowOpen (keys w)) in Ea.
      destruct (PairingManager.windowOpen (keys w)) eqn:Ew; [|by destruct Ea].
      rewrite constantTimeEquals_spec in Ea. cbn [negb] in Ea.
      destruct (bool_decide (_ = proof)) eqn:Ep; [|by destruct Ea]. breflect.
      subst proof. done.
  - destruct (decide (sid = i)) as [->|Hne].
    + unfold ses, adoptSession in Hready. cbn in Hready.
      rewrite lookup_insert_eq in Hready. done.
    + unfold ses, adoptSession in Hready. cbn in Hready.
      rewrite lookup_insert_ne in Hready by done. done.
  - destruct (moves_phase _ _ sid M) as [E|E]; [|congruence]. subst s. congruence.
Qed.

(** C37. The handshake code refines the handshake machine. In every reachable
    state, a message that arrives on a session takes its phase exactly where
    [spec_step] says: a message the phase accepts leads to the one phase
    [next] allows, with a fresh nonce of 32 bytes for a challenge (or to the
    end, when the reply does not fit the outbound queue), and any other
    message, unparseable ones included, ends the session; no other session is
    touched. A ready session stays ready or ends, and a closed one ignores its
    input. *)
Theorem handshake_refinement (k : keyring) (snk : K) (w : World) (bs : bytes) (sid : nat) :
  reachable k snk w ->
  let w' := onMessageReceived bs sid w in
  match phase (ses w sid) with
  | PGone => w' = w
  | PAuthorized => phase (ses w' sid) = PAuthorized \/ phase (ses w' sid) = PGone
  | ph =>
      (forall j, j <> sid -> ses w' j = ses w j) /\
      match parse bs with
      | Some m => spec_step w sid (pb.payload m) ph (phase (ses w' sid))
      | None => phase (ses w' sid) = PGone
      end
  end.
Proof.
  intros Hr w'. pose proof (reachable_sound _ _ _ Hr) as Hs.
  assert (handshaking (ses w sid) ->
    (forall j, j <> sid -> ses w' j = ses w j) /\
    match parse bs with
    | Some m => spec_step w sid (pb.payload m) (phase (ses w sid)) (phase (ses w' sid))
    | None => phase (ses w' sid) = PGone
    end) as H.
  { intros Hk. destruct (receive_handshake bs sid w Hs Hk) as [[] H]. done. }
  unfold handshaking in H. subst w'.
  destruct (phase (ses w sid)) eqn:Ep; try (apply H; done).
  - destruct (moves_phase _ _ sid (receive_moves bs sid w Ep)) as [->| ->]; auto.
  - apply receive_gone. done.
Qed.

(** C38. Every session is cleaned up exactly once. In every reachable state,
    for every session that was adopted: the handshake timer runs exactly while
    the session is in its handshake, so no connection can stay there for ever;
    the server lists the session (once) exactly while it is not closed; the
    sink was told of the end and [terminated] was emitted once if it is
    closed and never otherwise, however close paths re-entered each other; and
    [becameReady] was emitted once if it is ready, never during the handshake
    and at most once by a closed session. *)
Theorem session_lifecycle (k : keyring) (snk : K) (w : World) (sid : nat) :
  reachable k snk w -> has w sid ->
  let s := ses w sid in
  (is_Some (handshakeTimer_ s) <-> state_ s <> Ready /\ state_ s <> Closed) /\
  NoDup (sessions_ w) /\ (sid ∈ sessions_ w <-> state_ s <> Closed) /\
  (tornDown_ s = true <-> state_ s = Closed) /\
  count (terminated sid) (log w) = (if decide (state_ s = Closed) then 1 else 0)%nat /\
  (d_requests (deps_ s) = true ->
     count (sinkClosed sid) (log w) = (if decide (state_ s = Closed) then 1 else 0)%nat) /\
  match state_ s with
  | Ready => count (becameReady sid) (log w) = 1%nat
  | Closed => (count (becameReady sid) (log w) <= 1)%nat
  | _ => count (becameReady sid) (log w) = 0%nat
  end.
Proof.
  intros Hr Hh s. destruct (reachable_sound _ _ _ Hr) as [[] R].
  specialize (R sid). unfold ready_once in R. rewrite decide_True in R by done.
  specialize (l_torn0 sid). specialize (l_timer0 sid). specialize (l_live0 sid).
  specialize (l_terminated0 sid). specialize (l_sinkClosed0 sid).
  rewrite decide_True in l_terminated0, l_sinkClosed0 by done. fold s in R, l_torn0, l_timer0,
    l_live0, l_terminated0, l_sinkClosed0.
  rewrite phase_Ready, phase_Closed in l_timer0. rewrite phase_Closed in l_torn0.
  assert (tornDown_ s = bool_decide (state_ s = Closed)) as Et
    by (apply eq_true_iff_eq; rewrite bool_decide_eq_true; done).
  rewrite Et in *. clear Et.
  split; [exact l_timer0|]. split; [done|].
  split; [rewrite l_live0, bool_decide_eq_false; done|]. split; [exact l_torn0|].
  split; [|split].
  - rewrite l_terminated0. case_bool_decide; case_decide; done.
  - intros Hq. rewrite l_sinkClosed0, Hq, andb_true_r.
    case_bool_decide; case_decide; done.
  - unfold phase in R. destruct (state_ s); exact R.
Qed.

(** ** How the session code reaches the sink

    Everything but a forwarded request changes the sink through [teardown]
    only. *)

Inductive tmove (w : World) : World -> Prop :=
| tm_upd sid f :
    (forall s, tornDown_ (f s) = tornDown_ s /\ deps_ (f s) = deps_ s) -> tmove w (upd sid f w)
| tm_rest w' : objects w' = objects w -> sink w' = sink w -> tmove w w'
| tm_teardown mode sid : tmove w (teardown mode sid w).

Abbreviation tmoves := (rtc tmove).

Lemma tm_trans w1 w2 w3 : tmoves w1 w2 -> tmove w2 w3 -> tmoves w1 w3.
Proof. apply rtc_r. Qed.

Lemma write_tm bs sid w : tmoves w (writeOrTeardown bs sid w).
Proof.
  unfold writeOrTeardown. destruct (transport_ _); [|done]. destruct (tornDown_ _); [done|].
  apply rtc_once. destruct (_ <? _); [apply tm_teardown|by apply tm_upd].
Qed.

Lemma send_tm id m sid w : tmoves w (sendMessage id m sid w).
Proof. apply write_tm. Qed.

Lemma close_tm m sid w : tmoves w (teardown Graceful sid (sendRaw m sid w)).
Proof.
  eapply tm_trans; [|apply tm_teardown]. unfold sendRaw.
  destruct (transport_ _); [|done]. destruct (tornDown_ _); [done|].
  apply rtc_once. by apply tm_upd.
Qed.

Lemma closeWithError_tm id c tx sid w : tmoves w (closeWithError id c tx sid w).
Proof. apply close_tm. Qed.

Lemma sendAuthReject_tm id r c sid w : tmoves w (sendAuthReject id r c sid w).
Proof. apply close_tm. Qed.

Lemma goReady_tm id g sid w : tmoves w (goReady id g sid w).
Proof.
  unfold goReady. destruct (createUuid _) as [gen uuid].
  set (w1 := upd sid _ w). set (w2 := w1 <| keys ::= _ |>).
  assert (tmoves w w2) as H2.
  { apply (tm_trans _ w1); [by apply rtc_once, tm_upd|by apply tm_rest]. }
  set (w3 := sendMessage _ _ _ _).
  assert (tmoves w w3) as H3 by (etransitivity; [exact H2|apply send_tm]).
  destruct (decide _); [|done]. eapply tm_trans; [exact H3|]. by apply tm_rest.
Qed.

Lemma startTimer_tm st sid w : tmoves w (startTimer st sid w).
Proof. unfold startTimer. destruct (decide _); [|done]. apply rtc_once. by apply tm_upd. Qed.

Lemma challengeClient_tm id cid sid w : tmoves w (challengeClient id cid sid w).
Proof.
  unfold challengeClient. destruct (randomBytes 32 _) as [g nonce].
  etransitivity; [|apply startTimer_tm]. etransitivity; [|apply send_tm].
  eapply tm_trans; [|by apply tm_upd].
  eapply (tm_trans _ (upd sid (fun s => s <| authClientId_ := cid |>) w)); [|by apply tm_rest].
  by apply rtc_once, tm_upd.
Qed.

Lemma challengePairing_tm id sid w : tmoves w (challengePairing id sid w).
Proof.
  unfold challengePairing. destruct (PairingManager.makeNonce _) as [k nonce].
  etransitivity; [|apply startTimer_tm]. etransitivity; [|apply send_tm].
  eapply (tm_trans _ (w <| keys := k |>)); [|by apply tm_upd]. apply rtc_once. by apply tm_rest.
Qed.

Lemma handshake_tm m sid w :
  tmoves w (handleExpectHello m sid w) /\ tmoves w (handleAuthPending m sid w) /\
  tmoves w (handlePairingPending m sid w).
Proof.
  split; [|split].
  - unfold handleExpectHello.
    destruct (pb.payload m) as [[]|]; try apply closeWithError_tm.
    destruct (negb _); [apply closeWithError_tm|].
    set (w1 := upd sid _ w). assert (tmoves w w1) as H1 by (by apply rtc_once, tm_upd).
    etransitivity; [exact H1|]. destruct (trusted _).
    { etransitivity; [|apply goReady_tm]. by apply rtc_once, tm_upd. }
    destruct (negb _).
    + destruct (storeFind _ _ _); [|apply sendAuthReject_tm].
      destruct (_ <? _); [apply sendAuthReject_tm|apply challengeClient_tm].
    + destruct (pb.pairing_request _); [|apply sendAuthReject_tm].
      destruct (_ || _); [apply closeWithError_tm|apply challengePairing_tm].
  - unfold handleAuthPending.
    destruct (pb.payload m) as [[]|]; try apply closeWithError_tm.
    destruct (storeFind _ _ _); [|apply sendAuthReject_tm].
    destruct (_ <? _); [apply sendAuthReject_tm|].
    destruct (constantTimeEquals _ _); [|apply sendAuthReject_tm].
    etransitivity; [|apply goReady_tm]. by apply rtc_once, tm_upd.
  - unfold handlePairingPending.
    destruct (pb.payload m) as [[]|]; try apply closeWithError_tm.
    destruct (negb _); [apply sendAuthReject_tm|].
    destruct (PairingManager.completePairing _ _ _ _ _) as [k granted].
    etransitivity; [apply rtc_once; by apply (tm_rest w (w <| keys := k |>))|].
    destruct granted; [|apply sendAuthReject_tm].
    etransitivity; [|apply goReady_tm]. by apply rtc_once, tm_upd.
Qed.

Lemma sendSnapshots_tm l sid w : tmoves w (sendSnapshots l sid w).
Proof.
  revert w. induction l as [|b l IH]; intros w; [done|]. cbn [sendSnapshots].
  destruct (tornDown_ _); [done|]. etransitivity; [apply write_tm|apply IH].
Qed.

(** A received message: session code only, or a request for the sink from a
    session that is ready. *)
Lemma receive_tm bs sid w :
  tmoves w (onMessageReceived bs sid w) \/
  (state_ (ses w sid) = Ready /\
   exists m, onMessageReceived bs sid w = handleRequest sid (pb.request_id m) m w).
Proof.
  unfold onMessageReceived. destruct (state_ (ses w sid)) eqn:Est; [| | | |by left];
    (destruct (parse bs) as [m|]; [|left; apply closeWithError_tm]).
  1-3: left; apply (handshake_tm m sid w).
  unfold handleReady, forwardToSink.
  destruct (pb.payload m) as [p|]; [destruct p|];
    try (destruct (negb _); [left; apply closeWithError_tm|right; eauto]).
  - left. apply send_tm.
  - left. unfold handleSubscribe. etransitivity; [|apply sendSnapshots_tm].
    etransitivity; [|apply send_tm]. by apply rtc_once, tm_upd.
  - left. unfold handleUnsubscribe. etransitivity; [|apply send_tm]. by apply rtc_once, tm_upd.
  - left. apply send_tm.
Qed.

Lemma statusReady_tm tp bs w : tmoves w (statusReady tp bs w).
Proof.
  unfold statusReady. generalize (sessions_ w) as l. intros l. revert w.
  induction l as [|sid l IH]; intros w; [done|]. cbn [foldl].
  etransitivity; [|apply IH]. destruct (_ && _); [|done].
  unfold deliver. destruct (negb _); [done|]. destruct (parse bs); [|done].
  destruct (_ || _); [done|apply write_tm].
Qed.

(** What a teardown does to the sink. *)
Lemma closeTransport_sink mode sid w :
  tornDown_ (ses w sid) = true ->
  sink (closeTransport (teardownWith (fun w => w) Graceful sid) mode sid w) = sink w.
Proof.
  intros Ht. unfold closeTransport. destruct (transport_ _) as [tr|]; [|done].
  destruct (match mode with Discard => _ | Graceful => _ end) as [tr' closed].
  destruct closed; [|done]. unfold teardownWith.
  assert (has w sid \/ ~ has w sid) as [Hh|Hn] by (destruct (decide (has w sid)); auto).
  - rewrite ses_upd_eq by done. cbn [tornDown_ set_field record_set]. rewrite Ht. done.
  - rewrite ses_none by (rewrite has_upd; done). done.
Qed.

Lemma teardown_sink mode sid w :
  tornDown_ (ses w sid) = false -> d_requests (deps_ (ses w sid)) = true ->
  sink (teardown mode sid w) = sessionClosed sid (sink w).
Proof.
  intros Ha Hd. pose proof (alive_has _ _ Ha) as Hh.
  unfold teardown. unfold teardownWith at 1. rewrite Ha. set (w1 := upd sid _ w).
  assert (ses w1 sid = shut (transport_ (ses w sid)) (ses w sid)) as E1
    by (unfold w1; rewrite ses_upd_eq by done; destruct (ses w sid); done).
  rewrite E1. cbn [deps_ shut set_field record_set]. rewrite Hd.
  set (w2 := emit _ _). change (sink (emitTerminated sid ?x)) with (sink x).
  rewrite closeTransport_sink; [done|].
  change (ses w2 sid) with (ses w1 sid). rewrite E1. done.
Qed.

End Session.

(** ** A concrete server

    A codec that knows one message, a transport that records what it is given,
    a sink that ignores its requests. *)
Module Sample.
Import ApiAuth.Sample.

Definition hello : pb.ApiMessage :=
  pb.mkMessage 1 (Some (pb.ClientHello 1 0 "widget" 2 (pb.mkAuth "" false))).

#[export] Instance proto : Protobuf := {|
  serialize _ := [Byte.x2a];
  parse b := if bool_decide (b = [Byte.x01]) then Some hello else None
|}.

#[export] Instance transport : IApiTransport (list bytes) := {|
  t_sendMessage b l := l ++ [b];
  t_bytesToWrite l := blen (concat l);
  t_close l := (l, true);
  t_abort l := ([], true);
  t_isLoopback _ := true;
  t_peerHost _ := "127.0.0.1"
|}.

#[export] Instance sinkClosed : SinkClosed nat := {| sessionClosed _ n := Datatypes.S n |}.

Abbreviation World := (@World (list bytes) (option bytes) Z nat).

#[export] Instance sinkRequests : @SinkRequests (list bytes) (option bytes) Z nat :=
  {| handleRequest _ _ _ w := w |}.

#[export] Instance sinkLaws :
  SinkLaws (T := list bytes) (S := option bytes) (G := Z) (K := nat).
Proof. split. intros. constructor. Qed.

Definition deps : @ApiSessionDeps nat :=
  mkDeps true true None None true "Prodigy" "1" "id" 1000 5000.

Definition keys0 : PairingManager.keyring (S := option bytes) (G := Z) :=
  PairingManager.mkKeyring PairingManager.create (Some PairedClientStore.sample_store)
    None 7 [].

Definition w1 : World := adoptSession 0 [] deps (init keys0 0%nat).

Lemma w1_reachable : reachable keys0 0%nat w1.
Proof.
  apply rtc_once. apply st_adopt. intros [s Hs].
  unfold init in Hs. cbn in Hs. rewrite lookup_empty in Hs. done.
Qed.

End Sample.

Import ApiAuth.Sample Sample.

Lemma ready_needs_proof_witness :
  let w' := onMessageReceived [Byte.x01] 0 Sample.w1 in
  state_ (ses w' 0) = Ready /\
  exists bs m, w' = onMessageReceived bs 0 Sample.w1 /\ parse bs = Some m.
Proof.
  intros w'. assert (state_ (ses w' 0) = Ready) as Hr by (vm_compute; reflexivity).
  split; [exact Hr|].
  destruct (ready_needs_proof Sample.keys0 0%nat Sample.w1 w' 0 Sample.w1_reachable
              (st_receive _ 0 [Byte.x01]) Hr) as (bs & m & E & P & _).
  - vm_compute. discriminate.
  - exists bs, m. split; [exact E|exact P].
Defined.

Lemma handshake_refinement_witness :
  phase (ses (onMessageReceived [Byte.x00] 0 Sample.w1) 0) = PGone.
Proof.
  exact (proj2 (handshake_refinement Sample.keys0 0%nat Sample.w1 [Byte.x00] 0
                  Sample.w1_reachable)).
Defined.

Lemma session_lifecycle_witness :
  has Sample.w1 0 /\ is_Some (handshakeTimer_ (ses Sample.w1 0)) /\ 0%nat ∈ sessions_ Sample.w1.
Proof.
  assert (has Sample.w1 0) as Hh by (eexists; vm_compute; reflexivity).
  destruct (session_lifecycle Sample.keys0 0%nat Sample.w1 0 Sample.w1_reachable Hh)
    as (H1 & _ & H2 & _).
  split; [exact Hh|]. split.
  - apply H1. split; vm_compute; discriminate.
  - apply H2. vm_compute. discriminate.
Defined.

End ApiSession.
