(* ===== verification/ApiHandlers.v ===== *)
(** The requests of a ready API session: actions, notifications, phone
    commands and the companion's reports.

    Source: src/core/api/ApiRequestHandlers, src/core/api/ApiInboundState,
    src/core/services/ActionRegistry, src/core/services/NotificationService and
    the pairing entry points of src/core/api/ApiServer. The state of the
    handlers is the sink of the sessions' world, and this file gives the
    instances of the interfaces the sessions are written against. The data
    bridge is not attached ([Deps::dataRegistry] is null). *)

From stdpp Require Import strings pretty.
From S2P Require Import Prelude ApiFramer ApiAuth ApiSession.
From Stdlib Require Import Ascii String SpecFloat.

#[global] Open Scope string_scope.
#[global] Open Scope list_scope.
#[global] Open Scope Z_scope.

(** [QJsonDocument]: a document that is an array, compact text of an array;
    the null test of a value; and the time-zone database. *)
Class QJson (V : Type) := {
  json_array : string -> option (list V);
  json_compact : list V -> string;
  json_isNull : V -> bool
}.

Class TimeZones := { isTimeZoneIdAvailable : string -> bool }.

(** [IPhoneStateService]: the commands with their dispatched result. *)
Class IPhoneStateService (P : Type) := {
  telephonyAvailable : P -> bool;
  ph_dial : string -> P -> P * bool;
  ph_answer : P -> P * bool;
  ph_hangup : P -> P * bool;
  ph_sendDtmf : string -> P -> P * bool
}.

(** ** Action registry *)

Module ActionRegistry.

(** The closures the program stores: the forwarder of a client's action, the
    two pairing actions, and the head unit's own, by name. *)
Inductive Handler := Forward (id : string) | StartPairing | CancelPairing | Host (name : string).

#[export] Instance Handler_eq_dec : EqDecision Handler.
Proof. solve_decision. Defined.

Record t := mk {
  handlers_ : gmap string Handler;
  actionDispatched : list string
}.

#[global] Instance t_settable : Settable t := {| eta_record r :=
  mk (handlers_ r) (actionDispatched r) |}.

Definition registerAction (id : string) (h : Handler) (r : t) : t :=
  r <| handlers_ ::= <[id := h]> |>.

Definition unregisterAction (id : string) (r : t) : t :=
  r <| handlers_ ::= delete id |>.

Definition registeredActions (r : t) : list string := (map_to_list (handlers_ r)).*1.

End ActionRegistry.

(** ** Notifications *)

Module NotificationService.

Record Notification := mkNote {
  id : string; kind : string; message : string; sourcePluginId : string;
  priority : Z; ttlMs : Z
}.

(** The keys of the posted map the service reads. *)
Record PostData := mkPost {
  p_kind : string; p_message : string; p_sourcePluginId : string;
  p_priority : option Z; p_ttlMs : option Z
}.

Inductive Signal := notificationAdded (n : Notification) | notificationRemoved (nid : string).

(** [timers]: the single-shot dismissals started, with their delays. *)
Record t := mk {
  notifications_ : list Notification;
  timers : list (Z * string);
  signals : list Signal
}.

#[global] Instance t_settable : Settable t := {| eta_record r :=
  mk (notifications_ r) (timers r) (signals r) |}.

Section Notifications.
Context {G : Type} {entropy : Entropy G}.

Definition post (data : PostData) (g : G) (n : t) : G * t * string :=
  let '(g, nid) := createUuid g in
  let ttl := default 0 (p_ttlMs data) in
  let ttl := if bool_decide (p_kind data = "toast") && (ttl <=? 0) then 5000 else ttl in
  let note := mkNote nid (p_kind data) (p_message data) (p_sourcePluginId data)
                (default 50 (p_priority data)) ttl in
  let n := n <| notifications_ ::= fun l => l ++ [note] |>
             <| signals ::= fun l => l ++ [notificationAdded note] |> in
  let n := if 0 <? ttl then n <| timers ::= fun l => l ++ [(ttl, nid)] |> else n in
  (g, n, nid).

End Notifications.

Definition dismiss (nid : string) (n : t) : t :=
  match list_find (fun x => id x = nid) (notifications_ n) with
  | Some (i, _) => n <| notifications_ ::= delete i |>
                     <| signals ::= fun l => l ++ [notificationRemoved nid] |>
  | None => n
  end.

End NotificationService.

(** ** The cache of the companion's reports *)

Module ApiInboundState.

Inductive Signal :=
| connectedChanged | gpsChanged | batteryChanged | internetChanged
| timeReported (unixMs : Z) | timezoneReported (ianaId : string)
| proxyRouteChanged (active : bool) (host : string) (port : Z) (password : string).

(** [fixTimer_] is the time of the last restart, none when invalid. *)
Record t := mk {
  connected_ : bool;
  gpsValid_ : bool;
  gpsLat_ : spec_float; gpsLon_ : spec_float; gpsSpeedMps_ : spec_float;
  gpsAccuracy_ : spec_float; gpsBearing_ : spec_float;
  phoneBattery_ : Z;
  phoneCharging_ : bool;
  internetAvailable_ : bool;
  proxyActive_ : bool;
  proxyAddress_ : string;
  hasConnectivityTuple_ : bool;
  proxyHost_ : string;
  proxyPort_ : Z;
  proxyPassword_ : string;
  fixTimer_ : option Z;
  fixAgeMs_ : Z;
  staleThresholdMs_ : Z;
  staleTicker_ : bool;
  signals : list Signal
}.

#[global] Instance t_settable : Settable t := {| eta_record r :=
  mk (connected_ r) (gpsValid_ r) (gpsLat_ r) (gpsLon_ r) (gpsSpeedMps_ r)
     (gpsAccuracy_ r) (gpsBearing_ r) (phoneBattery_ r) (phoneCharging_ r)
     (internetAvailable_ r) (proxyActive_ r) (proxyAddress_ r)
     (hasConnectivityTuple_ r) (proxyHost_ r) (proxyPort_ r) (proxyPassword_ r)
     (fixTimer_ r) (fixAgeMs_ r) (staleThresholdMs_ r) (staleTicker_ r) (signals r) |}.

Definition dbl (z : Z) : spec_float := binary_normalize 53 1024 z 0 false.

Definition create : t :=
  mk false false (dbl 0) (dbl 0) (dbl 0) (dbl 0) (dbl 0) (-1) false false false ""
     false "" 0 "" None 0 30000 false [].

Definition emit (s : Signal) (r : t) : t := r <| signals ::= fun l => l ++ [s] |>.

Definition gpsStale (now : Z) (r : t) : bool :=
  if negb (gpsValid_ r) then true
  else
    let elapsed := match fixTimer_ r with Some t0 => now - t0 | None => 0 end in
    staleThresholdMs_ r <? elapsed + fixAgeMs_ r.

(** The ticker's timeout, every five seconds while it runs. *)
Definition staleTick (r : t) : t := if gpsValid_ r then emit gpsChanged r else r.

Definition setGps (lat lon speedMps bearingDeg accuracyM : spec_float) (ageMs now : Z)
    (r : t) : t :=
  emit gpsChanged
    (r <| gpsValid_ := true |> <| gpsLat_ := lat |> <| gpsLon_ := lon |>
       <| gpsSpeedMps_ := speedMps |> <| gpsBearing_ := bearingDeg |>
       <| gpsAccuracy_ := accuracyM |> <| fixAgeMs_ := ageMs |>
       <| fixTimer_ := Some now |> <| staleTicker_ := true |>).

Definition clearGps (r : t) : t :=
  let wasValid := gpsValid_ r in
  let r := r <| staleTicker_ := false |> <| fixTimer_ := None |> <| fixAgeMs_ := 0 |>
             <| gpsLat_ := dbl 0 |> <| gpsLon_ := dbl 0 |> <| gpsSpeedMps_ := dbl 0 |>
             <| gpsBearing_ := dbl 0 |> <| gpsAccuracy_ := dbl 0 |>
             <| gpsValid_ := false |> in
  if wasValid then emit gpsChanged r else r.

Definition setBattery (percent : Z) (charging : bool) (r : t) : t :=
  emit batteryChanged (r <| phoneBattery_ := percent |> <| phoneCharging_ := charging |>).

Definition clearBattery (r : t) : t :=
  emit batteryChanged (r <| phoneBattery_ := -1 |> <| phoneCharging_ := false |>).

Definition setOwnerPresent (present : bool) (r : t) : t :=
  if bool_decide (connected_ r = present) then r
  else emit connectedChanged (r <| connected_ := present |>).

Definition setConnectivity (peerHost : string) (active : bool) (port : Z)
    (password : string) (r : t) : t :=
  let address := if active then "socks5://" +:+ peerHost +:+ ":" +:+ pretty port else "" in
  let observableChanged :=
    negb (bool_decide (internetAvailable_ r = active))
    || negb (bool_decide (proxyActive_ r = active))
    || negb (bool_decide (proxyAddress_ r = address)) in
  let routeChanged :=
    negb (hasConnectivityTuple_ r)
    || negb (bool_decide (proxyHost_ r = peerHost))
    || negb (bool_decide (proxyActive_ r = active))
    || negb (bool_decide (proxyPort_ r = port))
    || negb (bool_decide (proxyPassword_ r = password)) in
  let r := r <| internetAvailable_ := active |> <| proxyActive_ := active |>
             <| proxyAddress_ := address |> <| hasConnectivityTuple_ := true |>
             <| proxyHost_ := peerHost |> <| proxyPort_ := port |>
             <| proxyPassword_ := password |> in
  let r := if observableChanged then emit internetChanged r else r in
  if routeChanged then emit (proxyRouteChanged active peerHost port password) r else r.

Definition setTime (unixMs : Z) (r : t) : t := emit (timeReported unixMs) r.
Definition setTimezone (ianaId : string) (r : t) : t := emit (timezoneReported ianaId) r.

End ApiInboundState.

(** ** The handlers *)

Module ApiRequestHandlers.
Import ActionRegistry ApiSession.

Section Handlers.
Context {V : Type} {json : QJson V} {zones : TimeZones}.
Context {P : Type} {phoneService : IPhoneStateService P}.
Context {proto : Protobuf} {T : Type} {transport : IApiTransport T}.
Context {crypto : Crypto} {yaml : Yaml} {S : Type} {storeFile : StoreFile S}.
Context {G : Type} {entropy : Entropy G}.

(** [actions] to [inbound] are the services of [Deps], each nullable. [clock]
    is the monotonic time, [invoked] the calls of the head unit's own actions,
    [started_] and [pairingTimeoutS_] belong to the server. *)
Record t := mk {
  actions : option ActionRegistry.t;
  notifications : option NotificationService.t;
  phone : option P;
  inbound : option ApiInboundState.t;
  clientOwners_ : gmap string nat;
  clientLabels_ : gmap string string;
  notificationOwners_ : gmap nat (gset string);
  reportingSessions_ : gset nat;
  gpsOwner_ : option nat;
  batteryOwner_ : option nat;
  connectivityOwner_ : option nat;
  lastReportMs_ : gmap nat Z;
  livenessThresholdMs_ : Z;
  livenessTimer_ : bool;
  clock : Z;
  invoked : list (string * option V);
  started_ : bool;
  pairingTimeoutS_ : Z
}.

#[global] Instance t_settable : Settable t := {| eta_record r :=
  mk (actions r) (notifications r) (phone r) (inbound r) (clientOwners_ r)
     (clientLabels_ r) (notificationOwners_ r) (reportingSessions_ r) (gpsOwner_ r)
     (batteryOwner_ r) (connectivityOwner_ r) (lastReportMs_ r) (livenessThresholdMs_ r)
     (livenessTimer_ r) (clock r) (invoked r) (started_ r) (pairingTimeoutS_ r) |}.

Definition create (a : option ActionRegistry.t) (n : option NotificationService.t)
    (p : option P) (i : option ApiInboundState.t) : t :=
  mk a n p i ∅ ∅ ∅ ∅ None None None ∅ 30000 false 0 [] false 120.

Abbreviation World := (@ApiSession.World T S G t).

(** Acting on a service that may be absent. *)
Definition onInbound (f : ApiInboundState.t -> ApiInboundState.t) (h : t) : t :=
  h <| inbound ::= option_map f |>.
Definition onActions (f : ActionRegistry.t -> ActionRegistry.t) (h : t) : t :=
  h <| actions ::= option_map f |>.

Definition kReservedPrefixes : list string :=
  ["app."; "aa."; "navbar."; "theme."; "media."; "phone."; "system."; "overlay."; "api."].

Definition hasReservedPrefix (id : string) : bool :=
  existsb (fun p => String.prefix p id) kReservedPrefixes.

(** Wrapping in one-element arrays, and the inverse. *)
Definition jsonToVariant (js : string) : option V :=
  match json_array ("[" +:+ js +:+ "]") with
  | Some (v :: _) => Some v
  | _ => None
  end.

Definition variantToJson (v : V) : string :=
  let bytes := json_compact [v] in
  let n := String.length bytes in
  if (2 <=? Z.of_nat n) && bool_decide (String.get 0 bytes = Some "["%char)
     && bool_decide (String.get (n - 1) bytes = Some "]"%char)
  then String.substring 1 (n - 2) bytes else bytes.

(** *** Reporting sessions *)

Definition recomputeOwnerPresence (h : t) : t :=
  let present := negb (bool_decide (reportingSessions_ h = ∅)) in
  onInbound (ApiInboundState.setOwnerPresent present) h.

Definition updateLivenessTimer (h : t) : t :=
  h <| livenessTimer_ := negb (bool_decide (reportingSessions_ h = ∅)) |>.

Definition clearReportingState (sid : nat) (h : t) : t :=
  let h := if bool_decide (gpsOwner_ h = Some sid)
           then onInbound ApiInboundState.clearGps (h <| gpsOwner_ := None |>) else h in
  let h := if bool_decide (batteryOwner_ h = Some sid)
           then onInbound ApiInboundState.clearBattery (h <| batteryOwner_ := None |>) else h in
  let h := if bool_decide (connectivityOwner_ h = Some sid)
           then onInbound (ApiInboundState.setConnectivity "" false 0 "")
                  (h <| connectivityOwner_ := None |>) else h in
  let h := h <| reportingSessions_ ::= fun x => x ∖ {[sid]} |>
             <| lastReportMs_ ::= delete sid |> in
  updateLivenessTimer (recomputeOwnerPresence h).

Definition noteReportAccepted (sid : nat) (h : t) : t :=
  let h := h <| reportingSessions_ ::= fun x => {[sid]} ∪ x |>
             <| lastReportMs_ ::= <[sid := clock h]> |> in
  updateLivenessTimer (recomputeOwnerPresence h).

(** The sweep over a snapshot of the reporting sessions. *)
Definition expireOne (now : Z) (sid : nat) (h : t) : t :=
  let age := now - default 0 (lastReportMs_ h !! sid) in
  if livenessThresholdMs_ h <? age then clearReportingState sid h else h.

Definition expireStaleReportingSessions (h : t) : t :=
  let now := clock h in
  foldl (fun h sid => expireOne now sid h) h (map_to_list (lastReportMs_ h)).*1.

(** *** A session's end *)

Definition releaseAction (sid : nat) (h : t) (id : string) : t :=
  if bool_decide (clientOwners_ h !! id = Some sid)
  then onActions (unregisterAction id)
         (h <| clientOwners_ ::= delete id |> <| clientLabels_ ::= delete id |>)
  else h.

Definition sessionClosed (sid : nat) (h : t) : t :=
  let ids := (map_to_list (clientOwners_ h)).*1 in
  let h := foldl (releaseAction sid) h ids in
  let h := h <| notificationOwners_ ::= delete sid |> in
  clearReportingState sid h.

#[export] Instance sinkClosed : SinkClosed t := {| ApiSession.sessionClosed := sessionClosed |}.

Definition onSink (f : t -> t) (w : World) : World := w <| sink ::= f |>.

(** [sendError]: a request-scoped error. *)
Definition sendError (sid : nat) (requestId : Z) (code : pb.ErrorCode) (text : string)
    (w : World) : World :=
  sendMessage requestId (pb.Error code text) sid w.

(** *** Actions *)

Definition handleListActions (sid : nat) (requestId : Z) (w : World) : World :=
  let h := sink w in
  let infos := match actions h with
               | Some r => map (fun id => pb.mkActionInfo id
                             (default "" (clientLabels_ h !! id))
                             (bool_decide (is_Some (clientOwners_ h !! id))))
                             (registeredActions r)
               | None => []
               end in
  sendMessage requestId (pb.ListActionsResponse infos) sid w.

Definition forwardInvocation (id : string) (payload : option V) (w : World) : World :=
  match clientOwners_ (sink w) !! id with
  | None => w
  | Some owner =>
      let js := match payload with
                | Some v => if json_isNull v then None else Some (variantToJson v)
                | None => None
                end in
      sendMessage 0 (pb.ActionInvoked id js) owner w
  end.

(** [ApiServer::startPairing] and [cancelPairing]. *)
Definition startPairing (w : World) : World :=
  if started_ (sink w)
  then w <| keys ::= fun k => (PairingManager.startWindow (pairingTimeoutS_ (sink w)) k).1 |>
  else w.

Definition cancelPairing (w : World) : World :=
  w <| keys ::= PairingManager.cancelWindow |>.

Definition invoke (h : Handler) (payload : option V) (w : World) : World :=
  match h with
  | Forward id => forwardInvocation id payload w
  | StartPairing => startPairing w
  | CancelPairing => cancelPairing w
  | Host name => onSink (fun s => s <| invoked ::= fun l => l ++ [(name, payload)] |>) w
  end.

(** [ActionRegistry::dispatch]: the handler is a copy, so that a teardown it
    causes may unregister it. *)
Definition dispatch (id : string) (payload : option V) (w : World) : World * bool :=
  match actions (sink w) ≫= (fun r => handlers_ r !! id) with
  | None => (w, false)
  | Some h =>
      let w := invoke h payload w in
      (onSink (onActions (fun r => r <| actionDispatched ::= fun l => l ++ [id] |>)) w, true)
  end.

Definition handleDispatchAction (sid : nat) (requestId : Z) (id : string)
    (payload_json : option string) (w : World) : World :=
  let '(w, dispatched) := dispatch id (payload_json ≫= jsonToVariant) w in
  sendMessage requestId (pb.DispatchActionResponse dispatched) sid w.

Definition registerOne (sid : nat) (h : t) (spec : pb.ActionSpec)
    : t * pb.ActionRegistrationResult :=
  let id := pb.spec_id spec in
  match actions h with
  | None => (h, pb.mkRegResult id false "registry unavailable")
  | Some r =>
      if bool_decide (id ∈ registeredActions r)
      then (h, pb.mkRegResult id false "duplicate id")
      else if hasReservedPrefix id
      then (h, pb.mkRegResult id false "reserved prefix")
      else (h <| actions := Some (registerAction id (Forward id) r) |>
              <| clientOwners_ ::= <[id := sid]> |>
              <| clientLabels_ ::= <[id := pb.spec_label spec]> |>,
            pb.mkRegResult id true "")
  end.

Fixpoint registerAll (sid : nat) (h : t) (specs : list pb.ActionSpec)
    : t * list pb.ActionRegistrationResult :=
  match specs with
  | [] => (h, [])
  | spec :: specs =>
      let '(h, r) := registerOne sid h spec in
      let '(h, rs) := registerAll sid h specs in (h, r :: rs)
  end.

Definition handleRegisterActions (sid : nat) (requestId : Z) (specs : list pb.ActionSpec)
    (w : World) : World :=
  let '(h, results) := registerAll sid (sink w) specs in
  sendMessage requestId (pb.RegisterActionsResponse results) sid (w <| sink := h |>).

Definition handleUnregisterActions (sid : nat) (requestId : Z) (ids : list string)
    (w : World) : World :=
  let w := onSink (fun h => foldl (releaseAction sid) h ids) w in
  sendMessage requestId pb.Ack sid w.

(** *** Notifications *)

Definition handlePostNotification (sid : nat) (requestId : Z) (message : string)
    (priority : option Z) (ttl_ms : Z) (w : World) : World :=
  let cid := clientId_ (ses w sid) in
  let clientId := if bool_decide (cid = "") then "localhost" else cid in
  let data := NotificationService.mkPost "toast" message ("api:" +:+ clientId)
                (Some match priority with
                      | Some p => Z.max 0 (Z.min p 100)
                      | None => 50
                      end)
                (Some (ApiFramer.to_i32 ttl_ms)) in
  let '(w, notifId) :=
    match notifications (sink w) with
    | None => (w, "")
    | Some n =>
        let '(g, n, nid) := NotificationService.post data (PairingManager.rng (keys w)) n in
        (onSink (fun h => h <| notifications := Some n |>)
           (w <| keys ::= fun k => k <| PairingManager.rng := g |> |>), nid)
    end in
  let w := onSink (fun h => h <| notificationOwners_ ::=
                     partial_alter (fun o => Some ({[notifId]} ∪ default ∅ o)) sid |>) w in
  sendMessage requestId (pb.PostNotificationResponse notifId) sid w.

Definition handleDismissNotification (sid : nat) (requestId : Z) (id : string)
    (w : World) : World :=
  match notificationOwners_ (sink w) !! sid with
  | Some ids =>
      if bool_decide (id ∈ ids) then
        let w := onSink (fun h =>
                   h <| notifications ::= option_map (NotificationService.dismiss id) |>
                     <| notificationOwners_ ::= <[sid := ids ∖ {[id]}]> |>) w in
        sendMessage requestId pb.Ack sid w
      else sendError sid requestId pb.ERROR_CODE_NOT_FOUND "notification not found" w
  | None => sendError sid requestId pb.ERROR_CODE_NOT_FOUND "notification not found" w
  end.

(** *** Phone commands *)

Inductive PhoneOp := Dial | Answer | Hangup | SendDtmf.

Definition phoneCommand (op : PhoneOp) (arg : string) (h : t)
    : t * pb.PhoneCommandResult * string :=
  match phone h with
  | Some p =>
      if negb (telephonyAvailable p)
      then (h, pb.PHONE_COMMAND_RESULT_UNAVAILABLE, "telephony unavailable")
      else
        let '(p, dispatched) := match op with
                                | Dial => ph_dial arg p
                                | Answer => ph_answer p
                                | Hangup => ph_hangup p
                                | SendDtmf => ph_sendDtmf arg p
                                end in
        let h := h <| phone := Some p |> in
        if (dispatched : bool) then (h, pb.PHONE_COMMAND_RESULT_OK, "")
        else (h, pb.PHONE_COMMAND_RESULT_FAILED, "rejected in current call state")
  | None => (h, pb.PHONE_COMMAND_RESULT_UNAVAILABLE, "telephony unavailable")
  end.

Definition handlePhoneCommand (sid : nat) (requestId : Z) (op : PhoneOp) (arg : string)
    (w : World) : World :=
  let '(h, result, detail) := phoneCommand op arg (sink w) in
  sendMessage requestId (pb.PhoneCommandResponse result detail) sid (w <| sink := h |>).

(** *** Reports *)

Definition isfinite (x : spec_float) : bool :=
  match x with S754_zero _ | S754_finite _ _ _ => true | _ => false end.

Definition gpsWellFormed (r : pb.GpsReport) : bool :=
  let d := ApiInboundState.dbl in
  let lat := pb.latitude r in let lon := pb.longitude r in
  let speed := pb.speed_mps r in let bearing := pb.bearing_deg r in
  let accuracy := pb.accuracy_m r in
  if negb (isfinite lat) || negb (isfinite lon)
     || SFltb lat (d (-90)) || SFltb (d 90) lat || SFltb lon (d (-180)) || SFltb (d 180) lon
  then false
  else if negb (isfinite speed) || negb (isfinite bearing) || negb (isfinite accuracy)
          || SFltb speed (d 0) || SFltb accuracy (d 0) || SFltb bearing (d 0)
          || SFleb (d 360) bearing
  then false else true.

Definition handleReport (sid : nat) (host : string) (p : pb.Payload) (h : t) : t :=
  match inbound h with
  | None => h
  | Some _ =>
      match p with
      | pb.GpsReport_ r =>
          if gpsWellFormed r then
            let h := onInbound (ApiInboundState.setGps (pb.latitude r) (pb.longitude r)
                       (pb.speed_mps r) (pb.bearing_deg r) (pb.accuracy_m r) (pb.age_ms r)
                       (clock h)) h in
            noteReportAccepted sid (h <| gpsOwner_ := Some sid |>)
          else h
      | pb.BatteryReport percent charging =>
          if 100 <? percent then h
          else
            let h := onInbound (ApiInboundState.setBattery percent charging) h in
            noteReportAccepted sid (h <| batteryOwner_ := Some sid |>)
      | pb.ConnectivityReport internet_available socks5_active port socks5_password =>
          let active := internet_available && socks5_active in
          if active && ((port =? 0) || (65535 <? port) || bool_decide (host = ""))
          then h
          else
            let h := onInbound (ApiInboundState.setConnectivity host active (port mod 2 ^ 16)
                                  (default "" socks5_password)) h in
            noteReportAccepted sid
              (h <| connectivityOwner_ := if active then Some sid else None |>)
      | pb.TimeReport tm timezone_id =>
          if tm <=? 0 then h
          else
            let h := onInbound (ApiInboundState.setTime tm) h in
            let h := noteReportAccepted sid h in
            match timezone_id with
            | Some tz => if isTimeZoneIdAvailable tz
                         then onInbound (ApiInboundState.setTimezone tz) h else h
            | None => h
            end
      | _ => h
      end
  end.

(** *** Routing *)

Definition handleRequest (sid : nat) (requestId : Z) (msg : pb.ApiMessage) (w : World)
    : World :=
  match pb.payload msg with
  | Some pb.ListActionsRequest => handleListActions sid requestId w
  | Some (pb.DispatchActionRequest id js) => handleDispatchAction sid requestId id js w
  | Some (pb.RegisterActionsRequest specs) => handleRegisterActions sid requestId specs w
  | Some (pb.UnregisterActionsRequest ids) => handleUnregisterActions sid requestId ids w
  | Some (pb.PostNotificationRequest _ message prio ttl) =>
      handlePostNotification sid requestId message prio ttl w
  | Some (pb.DismissNotificationRequest id) => handleDismissNotification sid requestId id w
  | Some (pb.DialRequest number) => handlePhoneCommand sid requestId Dial number w
  | Some pb.AnswerCallRequest => handlePhoneCommand sid requestId Answer "" w
  | Some pb.HangupRequest => handlePhoneCommand sid requestId Hangup "" w
  | Some (pb.SendDtmfRequest tones) => handlePhoneCommand sid requestId SendDtmf tones w
  | Some (pb.GpsReport_ _ as p) | Some (pb.BatteryReport _ _ as p)
  | Some (pb.ConnectivityReport _ _ _ _ as p) | Some (pb.TimeReport _ _ as p) =>
      onSink (handleReport sid (peerHost (ses w sid)) p) w
  | _ => closeWithError requestId pb.ERROR_CODE_INVALID_REQUEST "unroutable payload" sid w
  end.

#[export] Instance sinkRequests : SinkRequests (T := T) (S := S) (G := G) (K := t) :=
  {| ApiSession.handleRequest := handleRequest |}.

(** ** The sink's contract holds *)

Abbreviation steps := (rtc sink_step).

Lemma onSink_steps f (w : World) : steps w (onSink f w).
Proof. apply rtc_once. apply (ss_sink w (f (sink w))). Qed.

Lemma setSink_steps k (w : World) : steps w (w <| sink := k |>).
Proof. apply rtc_once, ss_sink. Qed.

Lemma send_steps id m sid (w : World) : steps w (sendMessage id m sid w).
Proof. apply rtc_once, ss_send. Qed.

Lemma invoke_steps h payload (w : World) : steps w (invoke h payload w).
Proof.
  destruct h as [id| | |name]; cbn [invoke].
  - unfold forwardInvocation. destruct (_ !! id); [apply send_steps|done].
  - unfold startPairing. destruct (started_ _); [|done]. apply rtc_once, ss_startPairing.
  - apply rtc_once, ss_cancelPairing.
  - apply onSink_steps.
Qed.

Lemma dispatch_steps id payload (w : World) : steps w (dispatch id payload w).1.
Proof.
  unfold dispatch. destruct (_ ≫= _) as [h|]; [|done].
  etransitivity; [apply invoke_steps|]. apply onSink_steps.
Qed.

(** ** Who owns what *)

Definition live (w : World) (sid : nat) : Prop := tornDown_ (ses w sid) = false.

(** The handlers' state, given the sessions that are open. *)
Definition registry (h : t) : option (gmap string Handler) :=
  option_map handlers_ (actions h).

Record owned (A : nat -> Prop) (h : t) : Prop := {
  o_owner id sid : clientOwners_ h !! id = Some sid ->
    A sid /\ hasReservedPrefix id = false /\
    exists m, registry h = Some m /\ m !! id = Some (Forward id);
  o_forward m id i : registry h = Some m -> m !! id = Some (Forward i) ->
    i = id /\ is_Some (clientOwners_ h !! id);
  o_labels : dom (clientLabels_ h) = dom (clientOwners_ h);
  o_notes sid : is_Some (notificationOwners_ h !! sid) -> A sid;
  o_reports : dom (lastReportMs_ h) = reportingSessions_ h;
  o_alive sid : sid ∈ reportingSessions_ h -> A sid;
  o_sources sid : gpsOwner_ h = Some sid \/ batteryOwner_ h = Some sid \/
    connectivityOwner_ h = Some sid -> sid ∈ reportingSessions_ h;
  o_timer : livenessTimer_ h = negb (bool_decide (reportingSessions_ h = ∅));
  o_cache i : inbound h = Some i ->
    ApiInboundState.connected_ i = negb (bool_decide (reportingSessions_ h = ∅)) /\
    ApiInboundState.gpsValid_ i = bool_decide (is_Some (gpsOwner_ h)) /\
    (batteryOwner_ h = None -> ApiInboundState.phoneBattery_ i = -1) /\
    ApiInboundState.proxyActive_ i = bool_decide (is_Some (connectivityOwner_ h))
}.

Lemma owned_mono (A B : nat -> Prop) h : (forall s, A s -> B s) -> owned A h -> owned B h.
Proof.
  intros HAB []. split; try done.
  - intros id sid H. destruct (o_owner0 _ _ H). auto.
  - auto.
  - auto.
Qed.

(** A state that differs in other fields. *)
Definition view (h : t) :=
  (registry h, clientOwners_ h, clientLabels_ h, notificationOwners_ h,
   (reportingSessions_ h, gpsOwner_ h, batteryOwner_ h, connectivityOwner_ h),
   (lastReportMs_ h, livenessTimer_ h, inbound h)).

Lemma owned_same A h h' : view h' = view h -> owned A h -> owned A h'.
Proof.
  intros E []. unfold view in E. injection E as E1 E2 E3 E4 E5 E6 E7 E8 E9 E10 E11.
  split; rewrite ?E1, ?E2, ?E3, ?E4, ?E5, ?E6, ?E7, ?E8, ?E9, ?E10, ?E11; done.
Qed.

(** *** Reports *)

(** Presence and timer recomputed from a new set of reporters. *)
Lemma owned_present A h :
  (forall id sid, clientOwners_ h !! id = Some sid ->
    A sid /\ hasReservedPrefix id = false /\
    exists m, registry h = Some m /\ m !! id = Some (Forward id)) ->
  (forall m id i, registry h = Some m -> m !! id = Some (Forward i) ->
    i = id /\ is_Some (clientOwners_ h !! id)) ->
  dom (clientLabels_ h) = dom (clientOwners_ h) ->
  (forall sid, is_Some (notificationOwners_ h !! sid) -> A sid) ->
  dom (lastReportMs_ h) = reportingSessions_ h ->
  (forall sid, sid ∈ reportingSessions_ h -> A sid) ->
  (forall sid, gpsOwner_ h = Some sid \/ batteryOwner_ h = Some sid \/
    connectivityOwner_ h = Some sid -> sid ∈ reportingSessions_ h) ->
  (forall i, inbound h = Some i ->
    ApiInboundState.gpsValid_ i = bool_decide (is_Some (gpsOwner_ h)) /\
    (batteryOwner_ h = None -> ApiInboundState.phoneBattery_ i = -1) /\
    ApiInboundState.proxyActive_ i = bool_decide (is_Some (connectivityOwner_ h))) ->
  owned A (updateLivenessTimer (recomputeOwnerPresence h)).
Proof.
  intros H1 H2 H3 H4 H5 H6 H7 H8. split; try done.
  intros i Hi. unfold updateLivenessTimer, recomputeOwnerPresence, onInbound in *.
  cbn in Hi. destruct (inbound h) as [i0|] eqn:Ei; [|done]. cbn in Hi. simplify_eq.
  destruct (H8 i0 eq_refl) as (G1 & G2 & G3).
  unfold ApiInboundState.setOwnerPresent.
  destruct (bool_decide (ApiInboundState.connected_ i0 = _)) eqn:Eb; breflect;
    (split; [exact Eb || reflexivity|split_and!; done]).
Qed.

Lemma inbound_setConnectivity ho a po pw r :
  let r' := ApiInboundState.setConnectivity ho a po pw r in
  ApiInboundState.proxyActive_ r' = a /\
  ApiInboundState.gpsValid_ r' = ApiInboundState.gpsValid_ r /\
  ApiInboundState.phoneBattery_ r' = ApiInboundState.phoneBattery_ r.
Proof.
  cbv zeta. unfold ApiInboundState.setConnectivity.
  destruct (_ || _), (_ || _); done.
Qed.

Lemma inbound_clearGps r :
  ApiInboundState.gpsValid_ (ApiInboundState.clearGps r) = false /\
  ApiInboundState.phoneBattery_ (ApiInboundState.clearGps r) = ApiInboundState.phoneBattery_ r /\
  ApiInboundState.proxyActive_ (ApiInboundState.clearGps r) = ApiInboundState.proxyActive_ r.
Proof. unfold ApiInboundState.clearGps. destruct (ApiInboundState.gpsValid_ r); done. Qed.

(** The cache agrees with the owners. *)
Definition cacheOk (h : t) : Prop := forall i, inbound h = Some i ->
  ApiInboundState.gpsValid_ i = bool_decide (is_Some (gpsOwner_ h)) /\
  (batteryOwner_ h = None -> ApiInboundState.phoneBattery_ i = -1) /\
  ApiInboundState.proxyActive_ i = bool_decide (is_Some (connectivityOwner_ h)).

Definition dropGps (sid : nat) (h : t) : t :=
  if bool_decide (gpsOwner_ h = Some sid)
  then onInbound ApiInboundState.clearGps (h <| gpsOwner_ := None |>) else h.
Definition dropBattery (sid : nat) (h : t) : t :=
  if bool_decide (batteryOwner_ h = Some sid)
  then onInbound ApiInboundState.clearBattery (h <| batteryOwner_ := None |>) else h.
Definition dropConnectivity (sid : nat) (h : t) : t :=
  if bool_decide (connectivityOwner_ h = Some sid)
  then onInbound (ApiInboundState.setConnectivity "" false 0 "")
         (h <| connectivityOwner_ := None |>) else h.

Lemma clearReportingState_drops sid h :
  clearReportingState sid h =
    let h := dropConnectivity sid (dropBattery sid (dropGps sid h)) in
    updateLivenessTimer (recomputeOwnerPresence
      (h <| reportingSessions_ ::= fun x => x ∖ {[sid]} |> <| lastReportMs_ ::= delete sid |>)).
Proof. done. Qed.

Lemma cacheOk_drops sid h :
  cacheOk h -> cacheOk (dropConnectivity sid (dropBattery sid (dropGps sid h))).
Proof.
  intros H.
  assert (cacheOk (dropGps sid h)) as H1.
  { unfold dropGps. case_bool_decide as E; [|done]. intros i Hi. unfold onInbound in Hi.
    cbn in Hi. destruct (inbound h) as [i0|] eqn:Ei; [|done]. cbn in Hi. simplify_eq.
    destruct (H i0 Ei) as (G1 & G2 & G3).
    destruct (inbound_clearGps i0) as (-> & -> & ->). done. }
  assert (cacheOk (dropBattery sid (dropGps sid h))) as H2.
  { revert H1. generalize (dropGps sid h) as g. intros g Hg. unfold dropBattery.
    case_bool_decide as E; [|done]. intros i Hi. unfold onInbound in Hi.
    cbn in Hi. destruct (inbound g) as [i0|] eqn:Ei; [|done]. cbn in Hi. simplify_eq.
    destruct (Hg i0 Ei) as (G1 & G2 & G3). done. }
  revert H2. generalize (dropBattery sid (dropGps sid h)) as g. intros g Hg.
  unfold dropConnectivity. case_bool_decide as E; [|done]. intros i Hi. unfold onInbound in Hi.
  cbn in Hi. destruct (inbound g) as [i0|] eqn:Ei; [|done]. cbn in Hi. simplify_eq.
  destruct (Hg i0 Ei) as (G1 & G2 & G3).
  destruct (inbound_setConnectivity "" false 0 "" i0) as (-> & -> & ->). done.
Qed.

(** The drops keep the rest, and [sid] owns no report afterwards. *)
Lemma drops_view sid h :
  let h' := dropConnectivity sid (dropBattery sid (dropGps sid h)) in
  (registry h', clientOwners_ h', clientLabels_ h', notificationOwners_ h',
   reportingSessions_ h', lastReportMs_ h') =
  (registry h, clientOwners_ h, clientLabels_ h, notificationOwners_ h,
   reportingSessions_ h, lastReportMs_ h) /\
  gpsOwner_ h' = (if decide (gpsOwner_ h = Some sid) then None else gpsOwner_ h) /\
  batteryOwner_ h' = (if decide (batteryOwner_ h = Some sid) then None else batteryOwner_ h) /\
  connectivityOwner_ h' =
    (if decide (connectivityOwner_ h = Some sid) then None else connectivityOwner_ h).
Proof.
  cbv zeta. unfold dropConnectivity, dropBattery, dropGps.
  destruct (bool_decide (gpsOwner_ h = Some sid)) eqn:E1; breflect; cbn;
  destruct (bool_decide (batteryOwner_ h = Some sid)) eqn:E2; breflect; cbn;
  destruct (bool_decide (connectivityOwner_ h = Some sid)) eqn:E3; breflect; cbn;
  repeat case_decide; done.
Qed.

(** A session that closes or expires gives up its reporting role. *)
Lemma clearReportingState_owned A sid h : owned A h -> owned A (clearReportingState sid h).
Proof.
  intros []. rewrite clearReportingState_drops. cbv zeta.
  destruct (drops_view sid h) as (Ev & E1 & E2 & E3).
  pose proof (cacheOk_drops sid h) as Hc.
  set (g := dropConnectivity sid _) in *. clearbody g.
  injection Ev as V1 V2 V3 V4 V5 V6.
  rewrite <- V1, <- V2 in o_owner0. rewrite <- V1, <- V2 in o_forward0.
  rewrite <- V3, <- V2 in o_labels0. rewrite <- V4 in o_notes0.
  rewrite <- V6, <- V5 in o_reports0. rewrite <- V5 in o_alive0.
  apply owned_present; [exact o_owner0|exact o_forward0|exact o_labels0|exact o_notes0|..].
  - cbn. rewrite dom_delete_L, o_reports0. done.
  - intros s [Hs _]%elem_of_difference. auto.
  - intros s Hs. cbn in Hs |- *. rewrite E1, E2, E3 in Hs. rewrite V5.
    apply elem_of_difference. rewrite elem_of_singleton.
    destruct Hs as [Hs|[Hs|Hs]]; case_decide; try done;
      (split; [apply o_sources0; auto|congruence]).
  - intros i Hi. apply Hc; [|exact Hi]. intros i' Hi'. apply (o_cache0 _ Hi').
Qed.

(** An accepted report, whatever its kind. *)
Lemma noteReportAccepted_owned A sid h :
  A sid -> (exists h0, owned A h0 /\
    (registry h, clientOwners_ h, clientLabels_ h, notificationOwners_ h,
     reportingSessions_ h, lastReportMs_ h) =
    (registry h0, clientOwners_ h0, clientLabels_ h0, notificationOwners_ h0,
     reportingSessions_ h0, lastReportMs_ h0) /\
    forall s, gpsOwner_ h = Some s \/ batteryOwner_ h = Some s \/
      connectivityOwner_ h = Some s -> s = sid \/ gpsOwner_ h0 = Some s \/
      batteryOwner_ h0 = Some s \/ connectivityOwner_ h0 = Some s) ->
  cacheOk h -> owned A (noteReportAccepted sid h).
Proof.
  intros HA (h0 & [] & Ev & Hs) Hc. injection Ev as V1 V2 V3 V4 V5 V6.
  rewrite <- V1, <- V2 in o_owner0. rewrite <- V1, <- V2 in o_forward0.
  rewrite <- V3, <- V2 in o_labels0. rewrite <- V4 in o_notes0.
  rewrite <- V6, <- V5 in o_reports0. rewrite <- V5 in o_alive0.
  unfold noteReportAccepted.
  apply owned_present; [exact o_owner0|exact o_forward0|exact o_labels0|exact o_notes0|..].
  - cbn. rewrite dom_insert_L, o_reports0. done.
  - intros s [->%elem_of_singleton|Hin]%elem_of_union; auto.
  - intros s Hin. cbn in Hin |- *. rewrite V5. apply elem_of_union.
    rewrite elem_of_singleton. destruct (Hs s Hin) as [->|Hin']; auto.
  - exact Hc.
Qed.

Lemma handleReport_owned A sid host p h :
  A sid -> owned A h -> owned A (handleReport sid host p h).
Proof.
  intros HA Ho. unfold handleReport. destruct (inbound h) as [i0|] eqn:Ei; [|done].
  pose proof (o_cache _ _ Ho i0 Ei) as (C1 & C2 & C3 & C4).
  assert (forall f h1, owned A h1 -> inbound h1 <> None ->
    (forall i, ApiInboundState.connected_ (f i) = ApiInboundState.connected_ i /\
       ApiInboundState.gpsValid_ (f i) = ApiInboundState.gpsValid_ i /\
       ApiInboundState.phoneBattery_ (f i) = ApiInboundState.phoneBattery_ i /\
       ApiInboundState.proxyActive_ (f i) = ApiInboundState.proxyActive_ i) ->
    owned A (onInbound f h1)) as Hemit.
  { intros f h1 [] _ Hf. split; try done. intros i Hi. unfold onInbound in Hi. cbn in Hi.
    destruct (inbound h1) as [i1|]; [|done]. cbn in Hi. simplify_eq.
    destruct (Hf i1) as (-> & -> & -> & ->). exact (o_cache0 i1 eq_refl). }
  destruct p; try exact Ho.
  - destruct (gpsWellFormed r); [|done].
    apply noteReportAccepted_owned; [done|exists h; split_and!; [done|done|]|].
    + cbn. intros s [[= ->]|Hs]; auto.
    + intros i Hi. cbn in Hi. rewrite Ei in Hi. cbn in Hi. simplify_eq. done.
  - destruct (100 <? percent); [done|].
    apply noteReportAccepted_owned; [done|exists h; split_and!; [done|done|]|].
    + cbn. intros s [Hs|[[= ->]|Hs]]; auto.
    + intros i Hi. cbn in Hi. rewrite Ei in Hi. cbn in Hi. simplify_eq. done.
  - set (active := internet_available && socks5_active). destruct (active && _); [done|].
    apply noteReportAccepted_owned; [done|exists h; split_and!; [done|done|]|].
    + cbn. intros s [Hs|[Hs|Hs]]; auto. destruct active; [|done]. simplify_eq. auto.
    + intros i Hi. cbn in Hi. rewrite Ei in Hi. cbn in Hi. simplify_eq.
      destruct (inbound_setConnectivity host active (socks5_port `mod` 2 ^ 16)
                  (default "" socks5_password) i0) as (-> & -> & ->).
      split_and!; [done|done|]. cbn. destruct active; done.
  - destruct (unix_time_ms <=? 0); [done|].
    assert (owned A (noteReportAccepted sid
              (onInbound (ApiInboundState.setTime unix_time_ms) h))) as Ht.
    { apply noteReportAccepted_owned; [done|exists h; split_and!; [done|done|]|].
      - cbn. intros s Hs. auto.
      - intros i Hi. cbn in Hi. rewrite Ei in Hi. cbn in Hi. simplify_eq. done. }
    destruct timezone_id as [tz|]; [|done].
    destruct (isTimeZoneIdAvailable tz); [|done].
    apply Hemit; [done| |done]. unfold noteReportAccepted, updateLivenessTimer,
      recomputeOwnerPresence, onInbound. cbn. rewrite Ei. done.
Qed.

Lemma expire_owned A h : owned A h -> owned A (expireStaleReportingSessions h).
Proof.
  unfold expireStaleReportingSessions. generalize (map_to_list (lastReportMs_ h)).*1 as l.
  generalize (clock h) as now. intros now l. revert h.
  induction l as [|sid l IH]; intros h Ho; [done|]. cbn [foldl]. apply IH.
  unfold expireOne. destruct (_ <? _); [|done]. apply clearReportingState_owned, Ho.
Qed.

(** *** Actions *)

Lemma releaseAction_owned A sid id h : owned A h -> owned A (releaseAction sid h id).
Proof.
  intros Ho. unfold releaseAction. case_bool_decide as E; [|done]. destruct Ho.
  set (h' := onActions _ _).
  assert (registry h' = delete id <$> registry h) as Er
    by (unfold h', registry, onActions; cbn; destruct (actions h); done).
  split; try done.
  - intros i s. change (clientOwners_ h') with (delete id (clientOwners_ h)).
    rewrite lookup_delete_Some. intros [Hi H].
    destruct (o_owner0 _ _ H) as (HA & Hp & m & Hm & Hl). split_and!; [done|done|].
    exists (delete id m). rewrite Er, Hm. cbn. rewrite lookup_delete_ne by done. done.
  - intros m i j. rewrite Er. destruct (registry h) as [m0|] eqn:Em; [|done]. cbn.
    intros [= <-]. rewrite lookup_delete_Some. intros [Hi H].
    destruct (o_forward0 _ _ _ eq_refl H) as [-> Hs]. split; [done|].
    change (clientOwners_ h') with (delete id (clientOwners_ h)).
    rewrite lookup_delete_ne by done. done.
  - cbn. rewrite !dom_delete_L, o_labels0. done.
Qed.

Lemma releaseAll_owned A sid ids h : owned A h -> owned A (foldl (releaseAction sid) h ids).
Proof.
  revert h. induction ids as [|id ids IH]; intros h Ho; [done|].
  apply IH, releaseAction_owned, Ho.
Qed.

(** After the release of every key, the session owns none. *)
Lemma releaseAction_owner sid id h i s :
  clientOwners_ (releaseAction sid h id) !! i = Some s ->
  clientOwners_ h !! i = Some s /\ (i = id -> s <> sid).
Proof.
  unfold releaseAction. case_bool_decide as E; cbn.
  - rewrite lookup_delete_Some. intros [Hi H]. split; [done|]. congruence.
  - intros H. split; [done|]. intros -> ->. done.
Qed.

Lemma releaseAll_owner sid ids h i s :
  clientOwners_ (foldl (releaseAction sid) h ids) !! i = Some s ->
  clientOwners_ h !! i = Some s /\ (i ∈ ids -> s <> sid).
Proof.
  revert h. induction ids as [|id ids IH]; intros h; cbn [foldl].
  { intros H. split; [done|]. intros Hi. inversion Hi. }
  intros H. apply IH in H as [H1 H2]. apply releaseAction_owner in H1 as [H1 H3].
  split; [done|]. intros [->|Hi]%elem_of_cons; auto.
Qed.

Lemma clearReportingState_owners sid h :
  clientOwners_ (clearReportingState sid h) = clientOwners_ h /\
  notificationOwners_ (clearReportingState sid h) = notificationOwners_ h /\
  reportingSessions_ (clearReportingState sid h) = reportingSessions_ h ∖ {[sid]}.
Proof.
  rewrite clearReportingState_drops. cbv zeta.
  destruct (drops_view sid h) as (Ev & _). set (g := dropConnectivity sid _) in *.
  clearbody g. injection Ev as V1 V2 V3 V4 V5 V6. cbn. rewrite V2, V4, V5. done.
Qed.

(** The end of a session removes it from every table. *)
Lemma sessionClosed_owned A sid h :
  owned A h -> owned (fun s => A s /\ s <> sid) (sessionClosed sid h).
Proof.
  intros Ho. unfold sessionClosed.
  set (ids := (map_to_list (clientOwners_ h)).*1).
  set (h1 := foldl _ h ids).
  assert (owned A h1) as H1 by (apply releaseAll_owned; done).
  assert (forall i s, clientOwners_ h1 !! i = Some s -> s <> sid) as N1.
  { intros i s Hi. apply releaseAll_owner in Hi as [Hi Hn]. apply Hn.
    unfold ids. apply list_elem_of_fmap. exists (i, s). split; [done|].
    apply elem_of_map_to_list. done. }
  clearbody h1. set (h2 := h1 <| notificationOwners_ ::= delete sid |>).
  assert (owned A h2) as H2.
  { destruct H1. split; try done. intros s [x Hx]. cbn in Hx.
    apply lookup_delete_Some in Hx as [_ Hx]. eauto. }
  pose proof (clearReportingState_owned A sid h2 H2) as H3.
  destruct (clearReportingState_owners sid h2) as (E1 & E2 & E3).
  generalize dependent (clearReportingState sid h2). intros h3 [] E1 E2 E3.
  split; try assumption.
  - intros id s Hi. destruct (o_owner0 id s Hi) as (HA & ?). split; [|done].
    split; [done|]. rewrite E1 in Hi. exact (N1 _ _ Hi).
  - intros s Hs. split; [auto|]. intros ->. rewrite E2 in Hs. cbn in Hs.
    rewrite lookup_delete_eq in Hs. destruct Hs. done.
  - intros s Hs. split; [auto|]. intros ->. rewrite E3 in Hs.
    apply elem_of_difference in Hs as [_ Hs]. apply Hs, elem_of_singleton. done.
Qed.

Lemma registeredActions_spec id r : id ∈ registeredActions r <-> is_Some (handlers_ r !! id).
Proof.
  unfold registeredActions. rewrite list_elem_of_fmap. split.
  - intros ([i h] & -> & H%elem_of_map_to_list). eauto.
  - intros [h H]. exists (id, h). split; [done|]. apply elem_of_map_to_list. done.
Qed.

Lemma registerOne_owned A sid h spec :
  A sid -> owned A h -> owned A (registerOne sid h spec).1.
Proof.
  intros HA Ho. unfold registerOne. destruct (actions h) as [r|] eqn:Ea; [|done].
  set (id := pb.spec_id spec).
  destruct (bool_decide (id ∈ _)) eqn:Ein; [done|]. breflect.
  rewrite registeredActions_spec in Ein.
  destruct (hasReservedPrefix id) eqn:Ep; [done|]. destruct Ho.
  assert (registry h = Some (handlers_ r)) as Er by (unfold registry; rewrite Ea; done).
  split; try done; cbn.
  - intros i s Hi. unfold registry. cbn.
    destruct (decide (i = id)) as [->|Hne].
    + rewrite lookup_insert_eq in Hi. simplify_eq. split_and!; [done|done|].
      eexists. split; [done|]. apply lookup_insert_eq.
    + rewrite lookup_insert_ne in Hi by done.
      destruct (o_owner0 _ _ Hi) as (? & ? & m & Hm & Hl). split_and!; [done|done|].
      rewrite Er in Hm. simplify_eq. eexists. split; [done|].
      rewrite lookup_insert_ne by done. done.
  - intros m i j. unfold registry. cbn. intros [= <-]. cbn.
    destruct (decide (i = id)) as [->|Hne].
    + rewrite !lookup_insert_eq. intros [= ->]. eauto.
    + rewrite !lookup_insert_ne by done. apply o_forward0. done.
  - rewrite !dom_insert_L, o_labels0. done.
Qed.

Lemma registerAll_owned A sid specs h :
  A sid -> owned A h -> owned A (registerAll sid h specs).1.
Proof.
  intros HA. revert h. induction specs as [|spec specs IH]; intros h Ho; [done|].
  cbn [registerAll]. pose proof (registerOne_owned A sid h spec HA Ho) as H1.
  destruct (registerOne sid h spec) as [h1 r1]. specialize (IH h1 H1).
  destruct (registerAll sid h1 specs) as [h2 rs]. done.
Qed.

(** ** The server's world *)

(** Every session was adopted with the handlers as its sink, and the tables
    mention open sessions only. *)
Definition winv (w : World) : Prop :=
  (forall sid, has w sid -> d_requests (deps_ (ses w sid)) = true) /\
  owned (live w) (sink w).

Lemma winv_upd sid f (w : World) :
  (forall s, tornDown_ (f s) = tornDown_ s /\ deps_ (f s) = deps_ s) ->
  winv w -> winv (upd sid f w).
Proof.
  intros Hf [H1 H2].
  assert (forall j, tornDown_ (ses (upd sid f w) j) = tornDown_ (ses w j) /\
                    deps_ (ses (upd sid f w) j) = deps_ (ses w j)) as E.
  { intros j. destruct (decide (j = sid)) as [->|Hj]; [|by rewrite ses_upd_ne].
    destruct (decide (has w sid)) as [Hh|Hn]; [by rewrite ses_upd_eq|].
    rewrite !ses_none; [done|done|]. rewrite has_upd. done. }
  split.
  - intros j Hj. rewrite has_upd in Hj. destruct (E j) as [_ ->]. auto.
  - eapply owned_mono; [|exact H2]. intros j Hj. unfold live in *.
    destruct (E j) as [-> _]. done.
Qed.

Lemma winv_teardown mode sid (w : World) : winv w -> winv (teardown mode sid w).
Proof.
  intros [H1 H2]. destruct (tornDown_ (ses w sid)) eqn:Ha.
  { rewrite teardown_torn by done. done. }
  pose proof (alive_has _ _ Ha) as Hh.
  pose proof (teardown_sink mode sid w Ha (H1 _ Hh)) as Es.
  destruct (teardown_killed mode sid w Ha) as [[tr K1] K2 K3 _ _ _].
  split.
  - intros j Hj. apply K3 in Hj. destruct (decide (j = sid)) as [->|Hne].
    + rewrite K1. cbn. auto.
    + rewrite K2 by done. auto.
  - rewrite Es. eapply owned_mono; [|apply sessionClosed_owned; exact H2].
    intros j [Hj Hne]. unfold live. rewrite K2 by done. exact Hj.
Qed.

Lemma winv_sink (w : World) h : winv w -> owned (live w) h -> winv (w <| sink := h |>).
Proof. intros [H1 _] H2. split; done. Qed.

Lemma winv_tmoves (w w' : World) : rtc tmove w w' -> winv w -> winv w'.
Proof.
  induction 1 as [|x y z Hxy _ IH]; [done|]. intros Hx. apply IH.
  destruct Hxy as [sid f Hf|w' Ho Hk|mode sid].
  - apply winv_upd; done.
  - destruct Hx as [H1 H2].
    assert (forall j, ses w' j = ses x j) as E by (intros j; unfold ses; rewrite Ho; done).
    split.
    + intros j Hj. rewrite E. apply H1. unfold has in *. rewrite <- Ho. done.
    + rewrite Hk. eapply owned_mono; [|exact H2]. intros j. unfold live. rewrite E. done.
  - apply winv_teardown, Hx.
Qed.

Lemma winv_send id m sid (w : World) : winv w -> winv (sendMessage id m sid w).
Proof. apply winv_tmoves, send_tm. Qed.

Lemma winv_same (w : World) h : view h = view (sink w) -> winv w -> winv (w <| sink := h |>).
Proof. intros E Hw. apply winv_sink; [done|]. eapply owned_same; [exact E|apply Hw]. Qed.

Lemma winv_keys (w : World) k : winv w -> winv (w <| keys := k |>).
Proof. done. Qed.

Lemma invoke_winv h payload (w : World) : winv w -> winv (invoke h payload w).
Proof.
  intros Hw. destruct h as [id| | |name]; cbn [invoke].
  - unfold forwardInvocation. destruct (_ !! id); [by apply winv_send|done].
  - unfold startPairing. destruct (started_ _); done.
  - done.
  - apply winv_same; done.
Qed.

Lemma dispatch_winv id payload (w : World) : winv w -> winv (dispatch id payload w).1.
Proof.
  intros Hw. unfold dispatch. destruct (_ ≫= _) as [h|]; [|done].
  pose proof (invoke_winv h payload w Hw) as H1. cbn [fst].
  apply winv_same; [|exact H1]. unfold view, registry, onActions. cbn.
  destruct (actions _); done.
Qed.

(** A request from an open session, whatever it asks. *)
Lemma handleRequest_winv sid id m (w : World) :
  live w sid -> winv w -> winv (handleRequest sid id m w).
Proof.
  intros Hl Hw. unfold handleRequest.
  assert (winv (closeWithError id pb.ERROR_CODE_INVALID_REQUEST "unroutable payload" sid w))
    as Hc by (eapply winv_tmoves; [apply closeWithError_tm|done]).
  assert (forall op arg, winv (handlePhoneCommand sid id op arg w)) as Hphone.
  { intros op arg. unfold handlePhoneCommand.
    destruct (phoneCommand op arg (sink w)) as [[h r] d] eqn:Ep.
    apply winv_send, winv_same; [|done]. unfold phoneCommand in Ep.
    split_matches_in Ep; simplify_eq; done. }
  assert (forall p, winv (onSink (handleReport sid (peerHost (ses w sid)) p) w)) as Hrep.
  { intros p. apply winv_sink; [done|]. apply handleReport_owned; [done|apply Hw]. }
  destruct (pb.payload m) as [p|]; [|done]. destruct p; try done.
  - by apply winv_send.
  - unfold handleDispatchAction. destruct (dispatch _ _ w) as [w1 d] eqn:Ed.
    apply winv_send. pose proof (dispatch_winv id0 (payload_json ≫= jsonToVariant) w Hw) as H.
    rewrite Ed in H. exact H.
  - unfold handleRegisterActions. destruct (registerAll sid (sink w) actions0) as [h rs] eqn:Er.
    apply winv_send, winv_sink; [done|].
    pose proof (registerAll_owned (live w) sid actions0 (sink w) Hl (proj2 Hw)) as H.
    rewrite Er in H. exact H.
  - apply winv_send, winv_sink; [done|]. apply releaseAll_owned, Hw.
  - unfold handlePostNotification.
    destruct (match notifications (sink w) with
              | Some n => _ | None => _ end) as [w1 nid] eqn:En.
    assert (winv w1 /\ live w1 sid) as [H1 L1].
    { destruct (notifications (sink w)) as [n|]; [|simplify_eq; done].
      destruct (NotificationService.post _ _ _) as [[g n'] nid']. simplify_eq.
      split; [|exact Hl]. apply winv_same; [done|]. exact Hw. }
    apply winv_send, winv_sink; [done|]. destruct (proj2 H1). split; try done.
    intros s Hs. cbn in Hs. destruct (decide (s = sid)) as [->|Hne]; [done|].
    rewrite lookup_partial_alter_ne in Hs by done. auto.
  - unfold handleDismissNotification, sendError.
    destruct (notificationOwners_ (sink w) !! sid) as [ids|] eqn:En; [|by apply winv_send].
    case_bool_decide; [|by apply winv_send].
    apply winv_send, winv_sink; [done|]. destruct (proj2 Hw). split; try done.
    intros s Hs. cbn in Hs. destruct (decide (s = sid)) as [->|Hne]; [done|].
    rewrite lookup_insert_ne in Hs by done. auto.
Qed.

#[export] Instance sinkLaws : SinkLaws (T := T) (S := S) (G := G) (K := t).
Proof.
  split. intros sid id m w. cbn. unfold handleRequest.
  assert (steps w (closeWithError id pb.ERROR_CODE_INVALID_REQUEST "unroutable payload" sid w))
    as Hc by apply rtc_once, ss_close.
  assert (forall op arg, steps w (handlePhoneCommand sid id op arg w)) as Hphone.
  { intros op arg. unfold handlePhoneCommand.
    destruct (phoneCommand op arg (sink w)) as [[h r] d].
    etransitivity; [apply setSink_steps|apply send_steps]. }
  destruct (pb.payload m) as [p|]; [|done].
  destruct p; try done; try apply onSink_steps.
  - apply send_steps.
  - unfold handleDispatchAction.
    pose proof (dispatch_steps id0 (payload_json ≫= jsonToVariant) w) as H.
    destruct (dispatch _ _ w) as [w1 d]. etransitivity; [exact H|apply send_steps].
  - unfold handleRegisterActions. destruct (registerAll sid (sink w) actions0) as [h rs].
    etransitivity; [apply setSink_steps|apply send_steps].
  - etransitivity; [apply onSink_steps|apply send_steps].
  - unfold handlePostNotification.
    destruct (match notifications (sink w) with
              | Some n => _ | None => _ end) as [w1 nid] eqn:En.
    assert (steps w w1) as H1.
    { destruct (notifications (sink w)) as [n|]; [|simplify_eq; done].
      destruct (NotificationService.post _ _ _) as [[g n'] nid']. simplify_eq.
      etransitivity; [apply rtc_once, (ss_random w g)|apply onSink_steps]. }
    etransitivity; [exact H1|]. etransitivity; [apply onSink_steps|apply send_steps].
  - unfold handleDismissNotification, sendError.
    destruct (_ !! sid) as [ids|]; [|apply send_steps].
    case_bool_decide; [|apply send_steps].
    etransitivity; [apply onSink_steps|apply send_steps].
Qed.

(** ** The liveness sweep *)

Lemma clearReportingState_last sid h :
  lastReportMs_ (clearReportingState sid h) = delete sid (lastReportMs_ h) /\
  livenessThresholdMs_ (clearReportingState sid h) = livenessThresholdMs_ h.
Proof.
  unfold clearReportingState, updateLivenessTimer, recomputeOwnerPresence, onInbound.
  destruct (bool_decide (gpsOwner_ h = Some sid)); cbn;
  destruct (bool_decide (batteryOwner_ h = Some sid)); cbn;
  destruct (bool_decide (connectivityOwner_ h = Some sid)); done.
Qed.

Lemma expireOne_last now sid h s tm :
  lastReportMs_ (expireOne now sid h) !! s = Some tm ->
  lastReportMs_ h !! s = Some tm /\ (s = sid -> now - tm <= livenessThresholdMs_ h) /\
  livenessThresholdMs_ (expireOne now sid h) = livenessThresholdMs_ h.
Proof.
  unfold expireOne. destruct (clearReportingState_last sid h) as [E1 E2].
  destruct (_ <? _) eqn:E; breflect.
  - rewrite E1, lookup_delete_Some. intros [Hne H]. split_and!; [done|congruence|done].
  - intros H. split_and!; [done| |done]. intros ->. rewrite H in E. cbn in E. lia.
Qed.

(** After a sweep every reporter's last report is within the threshold. *)
Lemma expire_fresh h s tm :
  lastReportMs_ (expireStaleReportingSessions h) !! s = Some tm ->
  clock h - tm <= livenessThresholdMs_ h.
Proof.
  unfold expireStaleReportingSessions.
  assert (forall now l g, lastReportMs_ (foldl (fun h sid => expireOne now sid h) g l) !! s = Some tm ->
            lastReportMs_ g !! s = Some tm /\
            (s ∈ l -> now - tm <= livenessThresholdMs_ g)) as H.
  { intros now l. induction l as [|x l IH]; intros g; cbn [foldl].
    { intros H. split; [done|]. intros Hin. inversion Hin. }
    intros H. apply IH in H as [H1 H2]. apply expireOne_last in H1 as (H1 & H3 & E).
    split; [done|]. intros [->|Hin]%elem_of_cons; [auto|]. rewrite <- E. auto. }
  intros Hs. apply H in Hs as [H1 H2]. apply H2.
  apply list_elem_of_fmap. exists (s, tm). split; [done|]. apply elem_of_map_to_list. done.
Qed.

(** ** The steps of the server *)

Inductive sstep (w : World) : World -> Prop :=
| sv_receive sid bs : sstep w (onMessageReceived bs sid w)
| sv_transportClosed sid : sstep w (onTransportClosed sid w)
| sv_timeout sid :
    is_Some (handshakeTimer_ (ses w sid)) -> sstep w (onHandshakeTimeout sid w)
| sv_status tp bs : sstep w (statusReady tp bs w)
| sv_adopt sid tr deps :
    ~ has w sid -> d_requests deps = true -> sstep w (adoptSession sid tr deps w)
| sv_window : sstep w (w <| keys ::= PairingManager.timeout |>)
| sv_startPairing : sstep w (startPairing w)
| sv_cancelPairing : sstep w (cancelPairing w)
| sv_sweep : livenessTimer_ (sink w) = true -> sstep w (onSink expireStaleReportingSessions w)
| sv_clock d : 0 <= d -> sstep w (onSink (fun h => h <| clock ::= Z.add d |>) w)
| sv_toast nid :
    sstep w (onSink (fun h => h <| notifications ::= option_map (NotificationService.dismiss nid) |>) w)
| sv_staleTick : sstep w (onSink (onInbound ApiInboundState.staleTick) w)
| sv_phone p : sstep w (onSink (fun h => h <| phone := p |>) w)
(** The head unit registers and unregisters under its own prefixes. *)
| sv_register id h :
    hasReservedPrefix id = true -> (forall i, h <> Forward i) ->
    sstep w (onSink (onActions (registerAction id h)) w)
| sv_unregister id :
    hasReservedPrefix id = true -> sstep w (onSink (onActions (unregisterAction id)) w)
| sv_dispatch id payload : sstep w (dispatch id payload w).1.

Definition server0 (n : option NotificationService.t) (p : option P) : t :=
  create (Some (ActionRegistry.mk ∅ [])) n p (Some ApiInboundState.create).

Definition server_reachable (k : PairingManager.keyring) (n : option NotificationService.t)
    (p : option P) (w : World) : Prop :=
  rtc sstep (init k (server0 n p)) w.

Lemma sstep_steps (w w' : World) : sstep w w' -> rtc step w w'.
Proof.
  assert (forall w w' : World, rtc sink_step w w' -> rtc step w w') as Hs.
  { induction 1 as [|x y z H _ IH]; [done|]. eapply rtc_l; [by apply st_sink|exact IH]. }
  destruct 1; try (apply Hs, onSink_steps).
  - apply rtc_once, st_receive.
  - apply rtc_once, st_transportClosed.
  - by apply rtc_once, st_timeout.
  - apply rtc_once, st_status.
  - by apply rtc_once, st_adopt.
  - apply rtc_once, st_window.
  - apply Hs, (invoke_steps StartPairing None).
  - apply Hs, (invoke_steps CancelPairing None).
  - apply Hs, dispatch_steps.
Qed.

Lemma server_reachable_sound k n p (w : World) : server_reachable k n p w -> sound w.
Proof.
  intros H. apply (reachable_sound k (server0 n p)). unfold reachable.
  induction H as [|x y z Hxy _ IH]; [done|].
  etransitivity; [by apply sstep_steps|exact IH].
Qed.

Lemma hostAction_owned A f h :
  (forall r, exists id hd, hasReservedPrefix id = true /\ (forall i, hd <> Some (Forward i)) /\
     forall j, handlers_ (f r) !! j = if decide (j = id) then hd else handlers_ r !! j) ->
  owned A h -> owned A (onActions f h).
Proof.
  intros Hf []. split; try done.
  - intros id s Hi. destruct (o_owner0 id s Hi) as (HA & Hp & m & Hm & Hl).
    split_and!; [done|done|]. unfold registry, onActions in *. cbn in *.
    destruct (actions h) as [r|]; [|done]. cbn in *. simplify_eq.
    destruct (Hf r) as (id' & hd & Hp' & _ & E). eexists. split; [done|].
    rewrite E. rewrite decide_False; [done|]. intros ->. congruence.
  - intros m id i Hm Hl. unfold registry, onActions in *. cbn in *.
    destruct (actions h) as [r|]; [|done]. cbn in *. simplify_eq.
    destruct (Hf r) as (id' & hd & Hp' & Hn & E). rewrite E in Hl.
    case_decide; [subst; by destruct (Hn i)|]. by apply (o_forward0 (handlers_ r)).
Qed.

Lemma sstep_winv (w w' : World) : sstep w w' -> sound w -> winv w -> winv w'.
Proof.
  intros Hst [L _] Hw.
  destruct Hst as [sid bs|sid|sid Ht|tp bs|sid tr deps Hn Hd| | | |Ht|d Hd|nid| |p|id h Hp Hh
                  |id Hp|id payload]; try exact Hw.
  - destruct (receive_tm bs sid w) as [Ht|[Hr (m & ->)]]; [by eapply winv_tmoves|].
    apply handleRequest_winv; [|done]. unfold live. apply not_true_iff_false.
    rewrite (l_torn w L). unfold phase. rewrite Hr. done.
  - by apply winv_teardown.
  - eapply winv_tmoves; [apply closeWithError_tm|done].
  - eapply winv_tmoves; [apply statusReady_tm|done].
  - destruct Hw as [H1 H2]. split.
    + intros j Hj. unfold ses, has, adoptSession in *. cbn in *.
      destruct (decide (j = sid)) as [->|Hne]; [rewrite lookup_insert_eq; done|].
      rewrite lookup_insert_ne in * by done. apply H1, Hj.
    + eapply owned_mono; [|exact H2]. intros j Hj. unfold live, ses, adoptSession in *. cbn.
      destruct (decide (j = sid)) as [->|Hne]; [rewrite lookup_insert_eq; done|].
      rewrite lookup_insert_ne by done. exact Hj.
  - apply (invoke_winv StartPairing None w Hw).
  - apply winv_sink; [done|]. apply expire_owned, Hw.
  - apply winv_same; done.
  - apply winv_same; done.
  - apply winv_sink; [done|]. destruct (proj2 Hw). split; try done.
    intros i Hi. unfold onInbound in Hi. cbn in Hi.
    destruct (inbound (sink w)) as [i0|] eqn:Ei; [|done]. cbn in Hi. simplify_eq.
    specialize (o_cache0 i0 eq_refl). unfold ApiInboundState.staleTick.
    destruct (ApiInboundState.gpsValid_ i0) eqn:Eg; exact o_cache0 || (cbn; rewrite Eg; exact o_cache0).
  - apply winv_same; done.
  - apply winv_sink; [done|]. apply hostAction_owned; [|apply Hw]. intros r.
    exists id, (Some h). split_and!; [done|intros i [= ->]; by destruct (Hh i)|].
    intros j. cbn. case_decide as E; [subst; apply lookup_insert_eq|by apply lookup_insert_ne].
  - apply winv_sink; [done|]. apply hostAction_owned; [|apply Hw]. intros r.
    exists id, None. split_and!; [done|done|].
    intros j. cbn. case_decide as E; [subst; apply lookup_delete_eq|by apply lookup_delete_ne].
  - by apply dispatch_winv.
Qed.

Lemma server_winv k n p (w : World) : server_reachable k n p w -> winv w.
Proof.
  intros H. assert (sound w /\ winv w) as [_ Hw]; [|exact Hw].
  assert (winv (init k (server0 n p))) as H0.
  { split; [intros sid [s Hs]; unfold init in Hs; cbn in Hs; rewrite lookup_empty in Hs; done|].
    split; cbn; try done.
    - intros m id i [= <-]. rewrite lookup_empty. done.
    - intros sid [x Hx]. done.
    - naive_solver.
    - intros i [= <-]. done. }
  pose proof (init_sound (T := T) k (server0 n p)) as S0. revert S0 H0.
  induction H as [|x y z Hxy _ IH]; [done|]. intros Sx Wx. apply IH.
  - assert (rtc step x y) as St by (by apply sstep_steps). clear -St Sx.
    induction St as [|a b c Hab _ IHs]; [done|]. apply IHs, (step_sound _ _ Hab Sx).
  - by eapply sstep_winv.
Qed.

(** C39. Nothing a client leaves behind outlives its session. In every state
    the server reaches, whatever the clients, the head unit and the clock did:
    an action handler forwards to a client exactly when the client tables know
    the action, its owner is an open session of the server's list, its id is
    under no reserved prefix, and the handler is the one that forwards that id;
    notification ownership and report roles belong to open sessions; the owner
    of the position, the battery level and the proxy route are reporting
    sessions, and the cached state is valid only while such an owner exists;
    [connected] and the liveness timer are on exactly while some session
    reports; and after a liveness sweep no reporting session's last report is
    older than the threshold. *)
Theorem client_ownership (k : PairingManager.keyring) (n : option NotificationService.t)
    (p : option P) (w : World) :
  server_reachable k n p w ->
  let h := sink w in
  (forall id, is_Some (clientOwners_ h !! id) <->
     exists m i, registry h = Some m /\ m !! id = Some (Forward i)) /\
  (forall id sid, clientOwners_ h !! id = Some sid ->
     sid ∈ sessions_ w /\ hasReservedPrefix id = false /\ is_Some (clientLabels_ h !! id) /\
     exists m, registry h = Some m /\ m !! id = Some (Forward id)) /\
  (forall sid, is_Some (notificationOwners_ h !! sid) -> sid ∈ sessions_ w) /\
  (forall sid, sid ∈ reportingSessions_ h -> sid ∈ sessions_ w) /\
  (forall sid, gpsOwner_ h = Some sid \/ batteryOwner_ h = Some sid \/
     connectivityOwner_ h = Some sid -> sid ∈ reportingSessions_ h) /\
  livenessTimer_ h = negb (bool_decide (reportingSessions_ h = ∅)) /\
  (forall i, inbound h = Some i ->
     ApiInboundState.connected_ i = negb (bool_decide (reportingSessions_ h = ∅)) /\
     ApiInboundState.gpsValid_ i = bool_decide (is_Some (gpsOwner_ h)) /\
     (batteryOwner_ h = None -> ApiInboundState.phoneBattery_ i = -1) /\
     ApiInboundState.proxyActive_ i = bool_decide (is_Some (connectivityOwner_ h))) /\
  (forall sid tm, lastReportMs_ (expireStaleReportingSessions h) !! sid = Some tm ->
     clock h - tm <= livenessThresholdMs_ h).
Proof.
  intros Hr h. destruct (server_reachable_sound _ _ _ _ Hr) as [L _].
  destruct (server_winv _ _ _ _ Hr) as [_ []]. fold h in o_owner0, o_forward0, o_labels0,
    o_notes0, o_reports0, o_alive0, o_sources0, o_timer0, o_cache0.
  assert (forall sid, live w sid -> sid ∈ sessions_ w) as HL
    by (intros sid Hl; apply (l_live w L), Hl).
  split_and!; auto.
  - intros id. split; [intros [sid Hs]|intros (m & i & Hm & Hl)].
    + destruct (o_owner0 id sid Hs) as (_ & _ & m & Hm & Hl). eauto.
    + destruct (o_forward0 m id i Hm Hl) as [_ Ho]. exact Ho.
  - intros id sid Hs. destruct (o_owner0 id sid Hs) as (HA & Hp & Hm).
    split_and!; [auto|done| |done].
    apply elem_of_dom. rewrite o_labels0. apply elem_of_dom. eauto.
  - intros sid tm. apply expire_fresh.
Qed.

End Handlers.

(** ** A concrete server with a client's action *)

Module Sample.
Import ApiAuth.Sample.

#[export] Instance json : QJson unit :=
  {| json_array _ := None; json_compact _ := ""; json_isNull _ := false |}.
#[export] Instance zones : TimeZones := {| isTimeZoneIdAvailable _ := false |}.
#[export] Instance phoneService : IPhoneStateService unit := {|
  telephonyAvailable _ := false;
  ph_dial _ p := (p, false); ph_answer p := (p, false); ph_hangup p := (p, false);
  ph_sendDtmf _ p := (p, false)
|}.

(** A codec with a hello and a registration. *)
#[export] Instance proto : Protobuf := {|
  serialize _ := [Byte.x2a];
  parse b :=
    if bool_decide (b = [Byte.x01]) then Some ApiSession.Sample.hello
    else if bool_decide (b = [Byte.x02]) then
      Some (pb.mkMessage 2 (Some (pb.RegisterActionsRequest [pb.mkActionSpec "door.open" "Door"])))
    else None
|}.

Definition w0 : ApiSession.World (T := list bytes) (S := option bytes) (G := Z) :=
  init ApiSession.Sample.keys0 (server0 (V := unit) None (None : option unit)).

Definition deps : @ApiSessionDeps (t (V := unit) (P := unit)) :=
  mkDeps true true None None true "Prodigy" "1" "id" 1000 5000.

#[export] Instance transport : IApiTransport (list bytes) := ApiSession.Sample.transport.

Definition w1 := adoptSession 0 [] deps w0.
Definition w2 := onMessageReceived [Byte.x01] 0 w1.
Definition w3 := onMessageReceived [Byte.x02] 0 w2.

Lemma w3_reachable : server_reachable ApiSession.Sample.keys0 None (None : option unit) w3.
Proof.
  apply (rtc_r _ w2); [apply (rtc_r _ w1); [apply rtc_once|]|].
  - apply sv_adopt; [|done]. intros [s Hs]. cbn in Hs. rewrite lookup_empty in Hs. done.
  - apply sv_receive.
  - apply sv_receive.
Qed.

End Sample.

Import ApiAuth.Sample Sample.

Lemma client_ownership_witness :
  clientOwners_ (sink Sample.w3) !! "door.open" = Some 0%nat /\ 0%nat ∈ sessions_ Sample.w3.
Proof.
  assert (clientOwners_ (sink Sample.w3) !! "door.open" = Some 0%nat) as Ho
    by (vm_compute; reflexivity).
  split; [exact Ho|].
  exact (proj1 (proj1 (proj2 (client_ownership _ _ _ _ Sample.w3_reachable)) _ _ Ho)).
Defined.

End ApiRequestHandlers.
