(* ===== verification/DataRegistry.v ===== *)
(** Live data of external providers: namespaces owned by API sessions, typed
    channels, one retained sample per channel and a catalog revision.

    Source: src/core/services/DataRegistry. An operation returns the registry
    with the signals it emits in order; a signal carries the revision the
    registry has when it is raised, so the revision is not part of it. Text is
    ASCII, [double] is IEEE binary64, an owner token is a session number. *)

From stdpp Require Import strings sorting.
From S2P Require Import Prelude.
From Stdlib Require Import SpecFloat.

#[global] Open Scope string_scope.
#[global] Open Scope list_scope.
#[global] Open Scope Z_scope.

Module data.

Inductive ValueType :=
| Unspecified | Double | SignedInteger | UnsignedInteger | Boolean | String | Enum.

Inductive Quality := Unknown | Good | Degraded | Stale | Invalid | Unavailable.

Inductive UnavailableReason :=
| None_ | ProviderAbsent | ChannelAbsent | ProviderDisconnected | ChannelRemoved.

#[export] Instance ValueType_eq_dec : EqDecision ValueType.
Proof. solve_decision. Defined.
#[export] Instance Quality_eq_dec : EqDecision Quality.
Proof. solve_decision. Defined.
#[export] Instance UnavailableReason_eq_dec : EqDecision UnavailableReason.
Proof. solve_decision. Defined.

Inductive Scalar :=
| DoubleScalar (x : spec_float)
| SignedScalar (z : Z)
| UnsignedScalar (z : Z)
| BoolScalar (b : bool)
| StringScalar (s : string)
| EnumScalar (z : Z).

(** Provider namespace and channel name. *)
Definition ChannelRef : Type := string * string.

Record ProviderDefinition := mkProvider {
  providerNamespace : string;
  displayName : string;
  description : option string;
  providerVersion : option string
}.

#[export] Instance ProviderDefinition_eq_dec : EqDecision ProviderDefinition.
Proof. solve_decision. Defined.

Record EnumOption := mkOption { value : Z; label : string }.

#[export] Instance EnumOption_eq_dec : EqDecision EnumOption.
Proof. solve_decision. Defined.

Record ChannelDefinition := mkChannel {
  channelName : string;
  c_displayName : string;
  valueType : ValueType;
  unit : option string;
  c_description : option string;
  nominalIntervalMs : option Z;
  staleAfterMs : option Z;
  suggestedMinimum : option spec_float;
  suggestedMaximum : option spec_float;
  enumOptions : list EnumOption
}.

(** [==] of [std::optional<double>]: NaN differs from itself. *)
Definition optionDoubleEq (x y : option spec_float) : bool :=
  match x, y with
  | Some x, Some y => SFeqb x y
  | None, None => true
  | _, _ => false
  end.

(** [operator==] of channel definitions. *)
Definition definitionEq (l r : ChannelDefinition) : bool :=
  bool_decide (channelName l = channelName r) && bool_decide (c_displayName l = c_displayName r)
  && bool_decide (valueType l = valueType r) && bool_decide (unit l = unit r)
  && bool_decide (c_description l = c_description r)
  && bool_decide (nominalIntervalMs l = nominalIntervalMs r)
  && bool_decide (staleAfterMs l = staleAfterMs r)
  && optionDoubleEq (suggestedMinimum l) (suggestedMinimum r)
  && optionDoubleEq (suggestedMaximum l) (suggestedMaximum r)
  && bool_decide (enumOptions l = enumOptions r).

Record Sample := mkSample {
  s_channelName : string;
  s_value : option Scalar;
  observedAtUnixMs : option Z;
  quality : Quality
}.

Record ProviderCatalog := mkProviderCatalog {
  provider : ProviderDefinition;
  channels : list ChannelDefinition
}.

Record Catalog := mkCatalog { revision : Z; providers : list ProviderCatalog }.

End data.

Import data.

Module DataRegistry.

(** *** Identifiers *)

Definition identStart (c : Ascii.ascii) : bool :=
  let n := Z.of_N (Ascii.N_of_ascii c) in
  ((97 <=? n) && (n <=? 122)) || ((48 <=? n) && (n <=? 57)).
Definition identChar (c : Ascii.ascii) : bool :=
  let n := Z.of_N (Ascii.N_of_ascii c) in
  identStart c || (n =? 46) || (n =? 95) || (n =? 45).

Definition identifier (l : list Ascii.ascii) : bool :=
  match l with
  | [] => false
  | c :: l => identStart c && forallb identChar l && (length l <=? 127)%nat
  end.

(** [^[a-z0-9][a-z0-9._-]{0,127}$]: the [$] of the pattern also matches before
    one newline at the very end. *)
Definition validIdentifier (s : string) : bool :=
  let l := String.list_ascii_of_string s in
  identifier l
  || (bool_decide (last l = Some (Ascii.ascii_of_N 10)) && identifier (removelast l)).

(** A name that ends in a newline is a valid identifier. *)
Example newline_identifier :
  validIdentifier ("obd" +:+ String.String (Ascii.ascii_of_N 10) String.EmptyString) = true.
Proof. reflexivity. Qed.

Definition scalarMatches (ty : ValueType) (x : Scalar) : bool :=
  match ty, x with
  | Double, DoubleScalar _ | SignedInteger, SignedScalar _
  | UnsignedInteger, UnsignedScalar _ | Boolean, BoolScalar _
  | String, StringScalar _ | Enum, EnumScalar _ => true
  | _, _ => false
  end.

(** *** State *)

Record ChannelState := mkChannelState {
  definition : ChannelDefinition;
  latest : option Sample
}.

#[global] Instance ChannelState_settable : Settable ChannelState := {| eta_record r :=
  mkChannelState (definition r) (latest r) |}.

Record ProviderState := mkProviderState {
  owner : nat;
  p_definition : ProviderDefinition;
  p_channels : gmap string ChannelState
}.

#[global] Instance ProviderState_settable : Settable ProviderState := {| eta_record r :=
  mkProviderState (owner r) (p_definition r) (p_channels r) |}.

Record t := mk {
  providers_ : gmap string ProviderState;
  ownerNamespaces_ : gmap nat string;
  revision_ : Z
}.

#[global] Instance t_settable : Settable t := {| eta_record r :=
  mk (providers_ r) (ownerNamespaces_ r) (revision_ r) |}.

Definition create : t := mk ∅ ∅ 0.

Inductive Signal :=
| catalogChanged
| availabilityChanged (ref : ChannelRef) (available : bool) (reason : UnavailableReason)
| valuesAccepted (providerNamespace : string) (samples : list Sample).

(** [++revision_] on a [quint64] *)
Definition bump (r : t) : t := r <| revision_ ::= fun v => (v + 1) mod 2 ^ 64 |>.

Definition providerForOwner (o : nat) (r : t) : option (string * ProviderState) :=
  match ownerNamespaces_ r !! o with
  | None => None
  | Some ns => match providers_ r !! ns with Some p => Some (ns, p) | None => None end
  end.

(** *** Providers *)

Record RegistrationResult := mkRegistration { accepted : bool; reason : string }.

Definition registerProvider (o : nat) (def : ProviderDefinition) (r : t)
    : t * list Signal * RegistrationResult :=
  let ns := providerNamespace def in
  if negb (validIdentifier ns) then (r, [], mkRegistration false "invalid provider namespace")
  else if match ownerNamespaces_ r !! o with
          | Some n => negb (bool_decide (n = ns))
          | None => false
          end
  then (r, [], mkRegistration false "session already owns a provider namespace")
  else match providers_ r !! ns with
       | Some p =>
           if negb (bool_decide (owner p = o))
           then (r, [], mkRegistration false "provider namespace already active")
           else if negb (bool_decide (p_definition p = def))
           then (bump (r <| providers_ ::= <[ns := p <| p_definition := def |>]> |>),
                 [catalogChanged], mkRegistration true "")
           else (r, [], mkRegistration true "")
       | None =>
           (bump (r <| providers_ ::= <[ns := mkProviderState o def ∅]> |>
                    <| ownerNamespaces_ ::= <[o := ns]> |>),
            [catalogChanged], mkRegistration true "")
       end.

(** *** Channels *)

Record DeclarationResult := mkDeclaration { d_channelName : string; d_accepted : bool;
                                            d_reason : string }.

(** One definition: the channels, its result, and whether it changed anything. *)
Definition declareOne (def : ChannelDefinition) (chans : gmap string ChannelState)
    : gmap string ChannelState * DeclarationResult * bool :=
  let name := channelName def in
  if negb (validIdentifier name) then
    (chans, mkDeclaration name false "invalid channel name", false)
  else if bool_decide (valueType def = Unspecified) then
    (chans, mkDeclaration name false "invalid value type", false)
  else match chans !! name with
       | Some c =>
           if negb (bool_decide (valueType (definition c) = valueType def)) then
             (chans, mkDeclaration name false "active channel type cannot change", false)
           else if definitionEq (definition c) def then
             (chans, mkDeclaration name true "", false)
           else (<[name := c <| definition := def |>]> chans, mkDeclaration name true "", true)
       | None =>
           (<[name := mkChannelState def None]> chans, mkDeclaration name true "", true)
       end.

(** The loop: channels, results, and the changed names, each once, in order. *)
Fixpoint declareLoop (defs : list ChannelDefinition) (chans : gmap string ChannelState)
    (results : list DeclarationResult) (changedOrder : list string)
    : gmap string ChannelState * list DeclarationResult * list string :=
  match defs with
  | [] => (chans, results, changedOrder)
  | def :: defs =>
      let '(chans, res, changed) := declareOne def chans in
      let changedOrder :=
        if changed && negb (bool_decide (channelName def ∈ changedOrder))
        then changedOrder ++ [channelName def] else changedOrder in
      declareLoop defs chans (results ++ [res]) changedOrder
  end.

Definition declareChannels (o : nat) (defs : list ChannelDefinition) (r : t)
    : t * list Signal * list DeclarationResult :=
  match providerForOwner o r with
  | None => (r, [], map (fun d => mkDeclaration (channelName d) false "provider not registered") defs)
  | Some (ns, p) =>
      let '(chans, results, changedOrder) := declareLoop defs (p_channels p) [] [] in
      let r := r <| providers_ ::= <[ns := p <| p_channels := chans |>]> |> in
      if bool_decide (changedOrder = []) then (r, [], results)
      else
        let prov := providerNamespace (p_definition p) in
        (bump r, map (fun c => availabilityChanged (prov, c) true None_) changedOrder
                   ++ [catalogChanged], results)
  end.

(** The channels without the named ones; the names removed, each once. *)
Fixpoint removeLoop (names seen : list string) (chans : gmap string ChannelState)
    : gmap string ChannelState * list string :=
  match names with
  | [] => (chans, [])
  | n :: names =>
      if bool_decide (n ∈ seen) then removeLoop names seen chans
      else match chans !! n with
           | Some _ =>
               let '(chans, removed) := removeLoop names (n :: seen) (delete n chans) in
               (chans, n :: removed)
           | None => removeLoop names (n :: seen) chans
           end
  end.

Definition removeChannels (o : nat) (names : list string) (r : t) : t * list Signal :=
  match providerForOwner o r with
  | None => (r, [])
  | Some (ns, p) =>
      let '(chans, removed) := removeLoop names [] (p_channels p) in
      let r := r <| providers_ ::= <[ns := p <| p_channels := chans |>]> |> in
      if bool_decide (removed = []) then (r, [])
      else
        let prov := providerNamespace (p_definition p) in
        (bump r, map (fun c => availabilityChanged (prov, c) false ChannelRemoved) removed
                   ++ [catalogChanged])
  end.

(** *** Samples *)

(** The index of the last sample of each channel, in order. *)
Fixpoint lastIndices (i : nat) (names : list string) (m : gmap string nat) : gmap string nat :=
  match names with
  | [] => m
  | n :: names => lastIndices (S i) names (<[n := i]> m)
  end.

Definition winnerIndices (names : list string) : list nat :=
  merge_sort le (map snd (map_to_list (lastIndices 0 names ∅))).

Definition usable (q : Quality) : bool :=
  match q with Unknown | Good | Degraded => true | _ => false end.

Record PublishDiagnostic := mkDiagnostic { g_channelName : string; g_reason : string }.

(** One sample against the channels; [now] is read when it has no time. *)
Definition publishOne (now : Z) (s : Sample) (chans : gmap string ChannelState)
    : gmap string ChannelState * (PublishDiagnostic + Sample) :=
  let name := s_channelName s in
  match chans !! name with
  | None => (chans, inl (mkDiagnostic name "channel not declared"))
  | Some c =>
      if usable (quality s) && bool_decide (s_value s = None)
      then (chans, inl (mkDiagnostic name "usable quality requires value"))
      else if match s_value s with
              | Some x => negb (scalarMatches (valueType (definition c)) x)
              | None => false
              end
      then (chans, inl (mkDiagnostic name "scalar type mismatch"))
      else
        let s := mkSample name (s_value s) (Some (default now (observedAtUnixMs s))) (quality s) in
        (<[name := c <| latest := Some s |>]> chans, inr s)
  end.

Fixpoint publishLoop (now : nat -> Z) (l : list (nat * Sample)) (chans : gmap string ChannelState)
    (acc : list Sample) (diags : list PublishDiagnostic)
    : gmap string ChannelState * list Sample * list PublishDiagnostic :=
  match l with
  | [] => (chans, acc, diags)
  | (i, s) :: l =>
      match publishOne (now i) s chans with
      | (chans, inl d) => publishLoop now l chans acc (diags ++ [d])
      | (chans, inr s) => publishLoop now l chans (acc ++ [s]) diags
      end
  end.

(** [now i]: the clock when sample [i] is stamped. *)
Definition publish (now : nat -> Z) (o : nat) (samples : list Sample) (r : t)
    : t * list Signal * (list Sample * list PublishDiagnostic) :=
  match providerForOwner o r with
  | None => (r, [], ([], map (fun s => mkDiagnostic (s_channelName s) "provider not registered") samples))
  | Some (ns, p) =>
      let winners := omap (fun i => match samples !! i with Some s => Some (i, s) | None => None end)
                       (winnerIndices (map s_channelName samples)) in
      let '(chans, acc, diags) := publishLoop now winners (p_channels p) [] [] in
      let r := r <| providers_ ::= <[ns := p <| p_channels := chans |>]> |> in
      (r, if bool_decide (acc = []) then []
          else [valuesAccepted (providerNamespace (p_definition p)) acc], (acc, diags))
  end.

(** *** Owners and queries *)

#[global] Instance str_leb_dec : RelDecision (fun a b : string => String.leb a b = true).
Proof. intros a b. apply _. Defined.

(** [std::sort] of the keys of a hash. *)
Definition sortedKeys {A} (m : gmap string A) : list string :=
  merge_sort (fun a b => String.leb a b = true) (map fst (map_to_list m)).

Definition removeOwner (o : nat) (r : t) : t * list Signal :=
  match ownerNamespaces_ r !! o with
  | None => (r, [])
  | Some ns =>
      let r := r <| ownerNamespaces_ ::= delete o |> in
      match providers_ r !! ns with
      | None => (r, [])
      | Some p =>
          (bump (r <| providers_ ::= delete ns |>),
           map (fun c => availabilityChanged (ns, c) false ProviderDisconnected)
             (sortedKeys (p_channels p)) ++ [catalogChanged])
      end
  end.

Definition catalog (r : t) : Catalog :=
  mkCatalog (revision_ r)
    (omap (fun ns => match providers_ r !! ns with
                     | None => None
                     | Some p => Some (mkProviderCatalog (p_definition p)
                         (omap (fun c => option_map definition (p_channels p !! c))
                            (sortedKeys (p_channels p))))
                     end) (sortedKeys (providers_ r))).

Definition channelState (ref : ChannelRef) (r : t) : option ChannelState :=
  match providers_ r !! ref.1 with Some p => p_channels p !! ref.2 | None => None end.

Definition definitionOf (ref : ChannelRef) (r : t) : option ChannelDefinition :=
  option_map definition (channelState ref r).

Definition latestSample (ref : ChannelRef) (r : t) : option Sample :=
  match channelState ref r with Some c => latest c | None => None end.

Definition providerExists (ns : string) (r : t) : bool := bool_decide (is_Some (providers_ r !! ns)).

(** *** Invariant *)

(** A retained sample fits its channel. *)
Definition sampleOk (c : string) (ty : ValueType) (s : Sample) : Prop :=
  s_channelName s = c /\ is_Some (observedAtUnixMs s)
  /\ (forall x, s_value s = Some x -> scalarMatches ty x = true)
  /\ (usable (quality s) = true -> is_Some (s_value s)).

Definition channelOk (c : string) (st : ChannelState) : Prop :=
  channelName (definition st) = c /\ validIdentifier c = true
  /\ valueType (definition st) <> Unspecified
  /\ (forall s, latest st = Some s -> sampleOk c (valueType (definition st)) s).

Definition providerOk (ns : string) (p : ProviderState) : Prop :=
  providerNamespace (p_definition p) = ns /\ validIdentifier ns = true
  /\ map_Forall channelOk (p_channels p).

Record wf (r : t) : Prop := {
  wf_owners o ns : ownerNamespaces_ r !! o = Some ns <->
    exists p, providers_ r !! ns = Some p /\ owner p = o;
  wf_providers : map_Forall providerOk (providers_ r)
}.

Lemma registry_create_wf : wf create.
Proof.
  split; [|apply map_Forall_empty]. intros o ns. simpl. rewrite lookup_empty.
  split; [done|]. intros (p & Hp & _). by rewrite lookup_empty in Hp.
Qed.

(** The owner of a namespace has no other. *)
Lemma providerForOwner_spec o r ns p : wf r ->
  providerForOwner o r = Some (ns, p) <-> providers_ r !! ns = Some p /\ owner p = o.
Proof.
  intros Hw. unfold providerForOwner. split.
  - destruct (ownerNamespaces_ r !! o) as [n|] eqn:E; [|done].
    apply (wf_owners _ Hw) in E as (q & Hq & Ho). rewrite Hq. intros [= -> ->]. done.
  - intros [Hp Ho]. assert (ownerNamespaces_ r !! o = Some ns) as -> by (apply Hw; eauto).
    by rewrite Hp.
Qed.

Lemma providerForOwner_none o r ns p : wf r ->
  ownerNamespaces_ r !! o = None -> providers_ r !! ns = Some p -> owner p <> o.
Proof.
  intros Hw E Hp Ho. assert (ownerNamespaces_ r !! o = Some ns) by (apply Hw; eauto). congruence.
Qed.

(** Replacing a provider's data, not its owner or namespace. *)
Lemma update_wf r ns p q : wf r -> providers_ r !! ns = Some p -> owner q = owner p ->
  providerOk ns q -> wf (r <| providers_ ::= <[ns := q]> |>).
Proof.
  intros Hw Hp Ho Hq. split; simpl.
  - intros o n. rewrite (wf_owners _ Hw). split; intros (p' & Hp' & E).
    + destruct (decide (n = ns)) as [->|Hne].
      * exists q. rewrite lookup_insert_eq. simplify_eq. by rewrite Ho.
      * exists p'. by rewrite lookup_insert_ne.
    + destruct (decide (n = ns)) as [->|Hne].
      * rewrite lookup_insert_eq in Hp'. simplify_eq. eauto.
      * rewrite lookup_insert_ne in Hp' by done. eauto.
  - apply map_Forall_insert_2; [done|apply Hw].
Qed.

Lemma bump_wf r : wf r -> wf (bump r).
Proof. intros []. by split. Qed.

Lemma registerProvider_wf o def r : wf r -> wf (registerProvider o def r).1.1.
Proof.
  intros Hw. unfold registerProvider.
  destruct (validIdentifier _) eqn:Ev; [|done]. simpl.
  destruct (match ownerNamespaces_ r !! o with Some n => _ | None => _ end) eqn:Eo; [done|].
  destruct (providers_ r !! providerNamespace def) as [p|] eqn:Ep.
  - destruct (bool_decide_reflect (owner p = o)); [|done].
    destruct (bool_decide_reflect (p_definition p = def)); [done|].
    apply bump_wf. eapply update_wf; [done..|]. split_and!; try done.
    apply (wf_providers _ Hw _ _ Ep).
  - apply bump_wf. split; simpl.
    + assert (Hno : ownerNamespaces_ r !! o = None).
      { destruct (ownerNamespaces_ r !! o) as [n|] eqn:E; [|done].
        apply negb_false_iff, bool_decide_eq_true in Eo as ->.
        apply Hw in E as (? & ? & _). congruence. }
      intros o' n. destruct (decide (o' = o)) as [->|Hne].
      * rewrite lookup_insert_eq. split.
        -- intros [= <-]. eexists. by rewrite lookup_insert_eq.
        -- intros (p & Hp & E). destruct (decide (providerNamespace def = n)) as [->|]; [done|].
           rewrite lookup_insert_ne in Hp by done.
           destruct (providerForOwner_none _ _ _ _ Hw Hno Hp E).
      * rewrite lookup_insert_ne by done. rewrite (wf_owners _ Hw). split; intros (p & Hp & E).
        -- exists p. rewrite lookup_insert_ne by congruence. done.
        -- destruct (decide (providerNamespace def = n)) as [<-|].
           ++ rewrite lookup_insert_eq in Hp. simplify_eq.
           ++ rewrite lookup_insert_ne in Hp by done. eauto.
    + apply map_Forall_insert_2; [|apply Hw]. split_and!; [done..|]. apply map_Forall_empty.
Qed.

Lemma declareOne_ok def chans : map_Forall channelOk chans ->
  map_Forall channelOk (declareOne def chans).1.1.
Proof.
  intros Hc. unfold declareOne. destruct (validIdentifier _) eqn:Ev; [|done]. simpl.
  destruct (bool_decide_reflect (valueType def = Unspecified)); [done|].
  destruct (chans !! channelName def) as [c|] eqn:E.
  - destruct (bool_decide_reflect (valueType (definition c) = valueType def)) as [Et|]; [|done].
    simpl. destruct (definitionEq _ _); [done|]. apply map_Forall_insert_2; [|done].
    destruct (Hc _ _ E) as (_ & _ & _ & Hs). split_and!; [done..|]. simpl. by rewrite <- Et.
  - by apply map_Forall_insert_2.
Qed.

Lemma declareLoop_ok defs chans res ch : map_Forall channelOk chans ->
  map_Forall channelOk (declareLoop defs chans res ch).1.1.
Proof.
  induction defs as [|d defs IH] in chans, res, ch |- *; intros Hc; [done|].
  simpl. pose proof (declareOne_ok d chans Hc) as H1.
  destruct (declareOne d chans) as [[chans1 r1] b1]. by apply IH.
Qed.

Lemma declareChannels_wf o defs r : wf r -> wf (declareChannels o defs r).1.1.
Proof.
  intros Hw. unfold declareChannels.
  destruct (providerForOwner o r) as [[ns p]|] eqn:E; [|done].
  apply providerForOwner_spec in E as [Hp <-]; [|done].
  destruct (wf_providers _ Hw _ _ Hp) as (H1 & H2 & H3).
  pose proof (declareLoop_ok defs (p_channels p) [] [] H3) as H4.
  destruct (declareLoop _ _ _ _) as [[chans res] ch].
  assert (wf (r <| providers_ ::= <[ns := p <| p_channels := chans |>]> |>))
    by (eapply update_wf; done).
  by destruct (bool_decide (ch = [])); [|apply bump_wf].
Qed.

Lemma removeLoop_ok names seen chans : map_Forall channelOk chans ->
  map_Forall channelOk (removeLoop names seen chans).1.
Proof.
  induction names as [|n names IH] in seen, chans |- *; intros Hc; [done|]. simpl.
  destruct (bool_decide (n ∈ seen)); [auto|]. destruct (chans !! n); [|auto].
  pose proof (IH (n :: seen) (delete n chans) (map_Forall_delete _ _ _ Hc)).
  by destruct (removeLoop _ _ _).
Qed.

Lemma removeChannels_wf o names r : wf r -> wf (removeChannels o names r).1.
Proof.
  intros Hw. unfold removeChannels.
  destruct (providerForOwner o r) as [[ns p]|] eqn:E; [|done].
  apply providerForOwner_spec in E as [Hp <-]; [|done].
  destruct (wf_providers _ Hw _ _ Hp) as (H1 & H2 & H3).
  pose proof (removeLoop_ok names [] (p_channels p) H3) as H4.
  destruct (removeLoop _ _ _) as [chans rm].
  assert (wf (r <| providers_ ::= <[ns := p <| p_channels := chans |>]> |>))
    by (eapply update_wf; done).
  by destruct (bool_decide (rm = [])); [|apply bump_wf].
Qed.

(** The definitions of channels are the same. *)
Definition sameDefinitions (c1 c2 : gmap string ChannelState) : Prop :=
  forall n, option_map definition (c1 !! n) = option_map definition (c2 !! n).

Lemma publishOne_ok now s chans : map_Forall channelOk chans ->
  map_Forall channelOk (publishOne now s chans).1
  /\ sameDefinitions chans (publishOne now s chans).1.
Proof.
  intros Hc. unfold publishOne. destruct (chans !! s_channelName s) as [c|] eqn:E; [|done].
  destruct (usable (quality s) && _) eqn:Eu; [done|].
  destruct (match s_value s with Some x => _ | None => _ end) eqn:Em; [done|]. simpl. split.
  - apply map_Forall_insert_2; [|done]. destruct (Hc _ _ E) as (H1 & H2 & H3 & H4).
    split_and!; [done..|]. simpl. intros s' [= <-]. split_and!; simpl; [done|eauto| |].
    + intros x Hx. rewrite Hx in Em. by apply negb_false_iff in Em.
    + intros Hu. rewrite Hu in Eu. simpl in Eu. apply bool_decide_eq_false in Eu.
      by apply not_eq_None_Some.
  - intros n. destruct (decide (s_channelName s = n)) as [<-|].
    + by rewrite lookup_insert_eq, E.
    + by rewrite lookup_insert_ne.
Qed.

Lemma publishLoop_ok now l chans acc dg : map_Forall channelOk chans ->
  map_Forall channelOk (publishLoop now l chans acc dg).1.1
  /\ sameDefinitions chans (publishLoop now l chans acc dg).1.1.
Proof.
  induction l as [|[i s] l IH] in chans, acc, dg |- *; intros Hc; [done|]. simpl.
  destruct (publishOne_ok (now i) s chans Hc) as [H1 H2].
  destruct (publishOne (now i) s chans) as [c1 [d|x]]; simpl in *;
    (eapply IH in H1 as [H3 H4]; split; [exact H3|intros n; by rewrite H2]).
Qed.

Lemma publish_wf now o l r : wf r -> wf (publish now o l r).1.1.
Proof.
  intros Hw. unfold publish.
  destruct (providerForOwner o r) as [[ns p]|] eqn:E; [|done].
  apply providerForOwner_spec in E as [Hp <-]; [|done].
  destruct (wf_providers _ Hw _ _ Hp) as (H1 & H2 & H3).
  match goal with |- context [publishLoop now ?w _ _ _] =>
    pose proof (publishLoop_ok now w (p_channels p) [] [] H3) as [H4 _] end.
  destruct (publishLoop _ _ _ _ _) as [[chans acc] dg]. simpl in *. by eapply update_wf.
Qed.

Lemma removeOwner_wf o r : wf r -> wf (removeOwner o r).1.
Proof.
  intros Hw. unfold removeOwner. destruct (ownerNamespaces_ r !! o) as [ns|] eqn:E; [|done].
  pose proof E as E2. apply Hw in E2 as (p & Hp & Ho). simpl. rewrite Hp.
  apply bump_wf. split; simpl; [|apply map_Forall_delete, Hw].
  intros o' n. destruct (decide (o' = o)) as [->|Hne].
  - rewrite lookup_delete_eq. split; [done|]. intros (q & Hq & Eq).
    apply lookup_delete_Some in Hq as [Hn Hq].
    assert (ownerNamespaces_ r !! o = Some n) by (apply Hw; eauto). congruence.
  - rewrite lookup_delete_ne by done. rewrite (wf_owners _ Hw). split; intros (q & Hq & Eq).
    + exists q. split; [|done]. apply lookup_delete_Some. split; [congruence|done].
    + apply lookup_delete_Some in Hq as [_ Hq]. eauto.
Qed.

(** *** What an operation tells *)

(** Only the provider of [o] differs. *)
Definition touches (o : nat) (r r' : t) : Prop :=
  forall ns p, owner p <> o -> providers_ r !! ns = Some p <-> providers_ r' !! ns = Some p.

(** Definitions and providers are the same. *)
Definition sameCatalog (r r' : t) : Prop :=
  (forall ref, definitionOf ref r' = definitionOf ref r)
  /\ (forall ns, providerExists ns r' = providerExists ns r).

Definition isAvailability (s : Signal) : Prop :=
  match s with
  | availabilityChanged _ true rs => rs = None_
  | availabilityChanged _ false _ => True
  | _ => False
  end.

(** Either the catalog is untouched and at most values are announced, or the
    availability of channels is, and at last the change of the catalog. *)
Definition announces (r r' : t) (l : list Signal) : Prop :=
  (sameCatalog r r' /\ match l with [] | [valuesAccepted _ _] => True | _ => False end)
  \/ exists avs, l = avs ++ [catalogChanged] /\ Forall isAvailability avs.

Lemma sameCatalog_refl r : sameCatalog r r.
Proof. done. Qed.

Lemma touches_refl o r : touches o r r.
Proof. done. Qed.

Lemma touches_update o r ns p q : owner q = o -> providers_ r !! ns = Some p -> owner p = o ->
  touches o r (r <| providers_ ::= <[ns := q]> |>).
Proof.
  intros Hq Hp Ho n p' Hne. simpl. destruct (decide (ns = n)) as [->|].
  - rewrite lookup_insert_eq, Hp. split; intros [= <-]; congruence.
  - by rewrite lookup_insert_ne.
Qed.

Lemma same_definitions_catalog r ns p chans : providers_ r !! ns = Some p ->
  sameDefinitions (p_channels p) chans ->
  sameCatalog r (r <| providers_ ::= <[ns := p <| p_channels := chans |>]> |>).
Proof.
  intros Hp Hs. split.
  - intros [n c]. unfold definitionOf, channelState. simpl.
    destruct (decide (ns = n)) as [->|]; [|by rewrite lookup_insert_ne].
    rewrite lookup_insert_eq, Hp. simpl. by rewrite Hs.
  - intros n. unfold providerExists. simpl. destruct (decide (ns = n)) as [->|].
    + by rewrite lookup_insert_eq, Hp.
    + by rewrite lookup_insert_ne.
Qed.

Lemma isAvailability_true prov l :
  Forall isAvailability (map (fun c => availabilityChanged (prov, c) true None_) l).
Proof. induction l; by constructor. Qed.

Lemma isAvailability_false prov rs l :
  Forall isAvailability (map (fun c => availabilityChanged (prov, c) false rs) l).
Proof. induction l; by constructor. Qed.

Lemma registerProvider_tells o def r : wf r ->
  let res := registerProvider o def r in
  announces r res.1.1 res.1.2 /\ touches o r res.1.1.
Proof.
  intros Hw. unfold registerProvider.
  destruct (negb (validIdentifier _)); [by split; [left|]|].
  destruct (match ownerNamespaces_ r !! o with Some n => _ | None => _ end); [by split; [left|]|].
  destruct (providers_ r !! providerNamespace def) as [p|] eqn:Ep.
  - destruct (bool_decide_reflect (owner p = o)) as [Ho|]; [|by split; [left|]].
    destruct (bool_decide_reflect (p_definition p = def)); [by split; [left|]|].
    split; [right; exists []; by split|]. by eapply touches_update.
  - split; [right; exists []; by split|]. intros n p Hne. simpl.
    destruct (decide (providerNamespace def = n)) as [<-|].
    + rewrite lookup_insert_eq, Ep. split; [done|]. intros [= <-]. by destruct Hne.
    + by rewrite lookup_insert_ne.
Qed.

Lemma declareLoop_unchanged defs chans res ch :
  (declareLoop defs chans res ch).2 = [] -> (declareLoop defs chans res ch).1.1 = chans /\ ch = [].
Proof.
  induction defs as [|d defs IH] in chans, res, ch |- *; [done|]. simpl.
  destruct (declareOne d chans) as [[c1 r1] b] eqn:E. intros H.
  apply IH in H as [H1 H2]. rewrite H1.
  destruct b; simpl in H2.
  - destruct (bool_decide_reflect (channelName d ∈ ch)) as [Hin|]; simpl in H2.
    + subst ch. by apply elem_of_nil in Hin.
    + by destruct ch.
  - split; [|done]. unfold declareOne in E. repeat case_match; by simplify_eq.
Qed.

Lemma declareChannels_tells o defs r : wf r ->
  let res := declareChannels o defs r in
  announces r res.1.1 res.1.2 /\ touches o r res.1.1.
Proof.
  intros Hw. unfold declareChannels.
  destruct (providerForOwner o r) as [[ns p]|] eqn:E; [|by split; [left|]].
  apply providerForOwner_spec in E as [Hp Ho]; [|done].
  pose proof (declareLoop_unchanged defs (p_channels p) [] []) as Hu.
  destruct (declareLoop _ _ _ _) as [[chans res] ch]. simpl in Hu.
  assert (touches o r (r <| providers_ ::= <[ns := p <| p_channels := chans |>]> |>))
    by (by eapply touches_update).
  destruct (bool_decide_reflect (ch = [])) as [->|]; (split; [|done]).
  - destruct (Hu eq_refl) as [-> _]. left. split; [|done]. by apply same_definitions_catalog.
  - right. eexists. split; [done|]. apply isAvailability_true.
Qed.

Lemma removeLoop_unchanged names seen chans :
  (removeLoop names seen chans).2 = [] -> (removeLoop names seen chans).1 = chans.
Proof.
  induction names as [|n names IH] in seen, chans |- *; [done|]. simpl.
  destruct (bool_decide (n ∈ seen)); [auto|]. destruct (chans !! n); [|auto].
  by destruct (removeLoop _ _ _).
Qed.

Lemma removeChannels_tells o names r : wf r ->
  let res := removeChannels o names r in
  announces r res.1 res.2 /\ touches o r res.1.
Proof.
  intros Hw. unfold removeChannels.
  destruct (providerForOwner o r) as [[ns p]|] eqn:E; [|by split; [left|]].
  apply providerForOwner_spec in E as [Hp Ho]; [|done].
  pose proof (removeLoop_unchanged names [] (p_channels p)) as Hu.
  destruct (removeLoop _ _ _) as [chans rm]. simpl in Hu.
  assert (touches o r (r <| providers_ ::= <[ns := p <| p_channels := chans |>]> |>))
    by (by eapply touches_update).
  destruct (bool_decide_reflect (rm = [])) as [->|]; (split; [|done]).
  - rewrite Hu by done. left. split; [|done]. by apply same_definitions_catalog.
  - right. eexists. split; [done|]. apply isAvailability_false.
Qed.

Lemma publish_tells now o l r : wf r ->
  let res := publish now o l r in
  announces r res.1.1 res.1.2 /\ touches o r res.1.1.
Proof.
  intros Hw. unfold publish.
  destruct (providerForOwner o r) as [[ns p]|] eqn:E; [|by split; [left|]].
  apply providerForOwner_spec in E as [Hp Ho]; [|done].
  destruct (wf_providers _ Hw _ _ Hp) as (_ & _ & H3).
  match goal with |- context [publishLoop now ?w _ _ _] =>
    pose proof (publishLoop_ok now w (p_channels p) [] [] H3) as [_ H4] end.
  destruct (publishLoop _ _ _ _ _) as [[chans acc] dg]. cbn [fst snd] in *.
  split; [|by eapply touches_update]. left. split; [by apply same_definitions_catalog|].
  by destruct (bool_decide (acc = [])).
Qed.

(** Removing an owner: all providers of others stay, its own goes. *)
Lemma removeOwner_tells o r : wf r ->
  let res := removeOwner o r in
  (res = (r, []) \/ exists avs, res.2 = avs ++ [catalogChanged] /\ Forall isAvailability avs)
  /\ touches o r res.1 /\ forall ns p, providers_ res.1 !! ns = Some p -> owner p <> o.
Proof.
  intros Hw. unfold removeOwner. destruct (ownerNamespaces_ r !! o) as [ns|] eqn:E.
  - pose proof E as E2. apply Hw in E2 as (p & Hp & Ho). simpl. rewrite Hp. simpl. split_and!.
    + right. eexists. split; [done|]. apply isAvailability_false.
    + intros n q Hq. simpl. rewrite lookup_delete_Some. split; [|by intros [_ ?]].
      intros Hl. split; [|done]. intros ->. congruence.
    + intros n q Hq Eq. apply lookup_delete_Some in Hq as [Hn Hq].
      assert (ownerNamespaces_ r !! o = Some n) by (apply Hw; eauto). congruence.
  - split_and!; [by left|done|]. intros ns p Hp. by eapply providerForOwner_none.
Qed.

End DataRegistry.
