(* ===== verification/ApiDataBridge.v ===== *)
(** The external API's live data: providers and subscribers behind sessions.

    Source: src/core/api/ApiDataBridge. Sending to a session can end sessions
    (its own, when the transport fails), which calls [sessionClosed], which
    changes the registry, whose signals fan out to further sessions: all of it
    inside the send. [ends k] is the list of sessions that end during the
    [k]-th send. Functions that may send return [None] when the fuel [n] is
    used up; it bounds both the nesting and the rounds of a loop. *)

From stdpp Require Import strings sorting.
From S2P Require Import Prelude DataRegistry.
From Stdlib Require Import SpecFloat.

#[global] Open Scope string_scope.
#[global] Open Scope list_scope.
#[global] Open Scope Z_scope.

Import data.

(** ** Messages *)

Module pbdata.

Record DataProviderDefinition := mkProvider {
  provider_namespace : string; display_name : string;
  description : option string; provider_version : option string
}.

Record DataChannelDefinition := mkChannel {
  channel_name : string; c_display_name : string; value_type : Z;
  unit : option string; c_description : option string;
  nominal_interval_ms : option Z; stale_after_ms : option Z;
  suggested_minimum : option spec_float; suggested_maximum : option spec_float;
  enum_options : list (Z * string)
}.

Record DataChannelRef := mkRef { r_provider_namespace : string; r_channel_name : string }.

Inductive DataScalar :=
| VALUE_NOT_SET
| double_value (x : spec_float)
| signed_integer_value (z : Z)
| unsigned_integer_value (z : Z)
| boolean_value (b : bool)
| string_value (s : string)
| enum_value (z : Z).

Record DataSample := mkSample {
  s_channel_name : string; value : option DataScalar;
  observed_at_unix_ms : option Z; quality : Z
}.

Record DataProviderCatalog := mkProviderCatalog {
  provider : DataProviderDefinition; channels : list DataChannelDefinition
}.

Record DataCatalog := mkCatalog {
  catalog_revision : Z; providers : list DataProviderCatalog
}.

Inductive ErrorCode := ERROR_CODE_INVALID_REQUEST.

(** The payloads of [ApiMessage] the bridge reads or writes. *)
Inductive ApiMessage :=
| RegisterDataProviderRequest (provider : DataProviderDefinition)
| DeclareDataChannelsRequest (channels : list DataChannelDefinition)
| RemoveDataChannelsRequest (channel_names : list string)
| PublishDataValues (samples : list DataSample)
| ListDataCatalogRequest
| WatchDataCatalogRequest (enabled : bool)
| SubscribeDataChannelsRequest (channels : list DataChannelRef)
| UnsubscribeDataChannelsRequest (channels : list DataChannelRef)
| RegisterDataProviderResponse (accepted : bool) (reason : string)
| DeclareDataChannelsResponse (results : list (string * bool * string))
| ListDataCatalogResponse (catalog : DataCatalog)
| SubscribeDataChannelsResponse (results : list (DataChannelRef * bool * string))
| DataValuesEvent (provider_namespace : string) (samples : list DataSample)
| DataCatalogEvent (catalog : DataCatalog)
| DataChannelAvailabilityEvent (channel : DataChannelRef) (availability : Z)
    (definition : option DataChannelDefinition) (unavailable_reason : Z) (catalog_revision : Z)
| Ack
| Error (code : ErrorCode) (message : string)
| OtherPayload.

End pbdata.

Import pbdata.

Module ApiDataBridge.
Import DataRegistry.

Definition providerFromProto (s : DataProviderDefinition) : ProviderDefinition :=
  data.mkProvider (provider_namespace s) (display_name s) (pbdata.description s)
    (provider_version s).

(** The numbers of the enums in proto/api/data.proto. *)
Definition valueTypeFromProto (ty : Z) : ValueType :=
  if ty =? 1 then Double
  else if ty =? 2 then SignedInteger
  else if ty =? 3 then UnsignedInteger
  else if ty =? 4 then Boolean
  else if ty =? 5 then String
  else if ty =? 6 then Enum
  else Unspecified.

Definition valueTypeToProto (ty : ValueType) : Z :=
  match ty with
  | Double => 1 | SignedInteger => 2 | UnsignedInteger => 3
  | Boolean => 4 | String => 5 | Enum => 6 | Unspecified => 0
  end.

Definition channelFromProto (s : DataChannelDefinition) : ChannelDefinition :=
  data.mkChannel (channel_name s) (c_display_name s) (valueTypeFromProto (value_type s))
    (pbdata.unit s) (pbdata.c_description s) (nominal_interval_ms s) (stale_after_ms s)
    (suggested_minimum s) (suggested_maximum s)
    (map (fun o => mkOption o.1 o.2) (enum_options s)).

Definition providerToProto (s : ProviderDefinition) : DataProviderDefinition :=
  pbdata.mkProvider (providerNamespace s) (displayName s) (data.description s)
    (providerVersion s).

Definition channelToProto (s : ChannelDefinition) : DataChannelDefinition :=
  pbdata.mkChannel (channelName s) (c_displayName s) (valueTypeToProto (valueType s))
    (data.unit s) (data.c_description s) (nominalIntervalMs s) (staleAfterMs s)
    (suggestedMinimum s) (suggestedMaximum s)
    (map (fun o => (data.value o, label o)) (enumOptions s)).

Definition catalogToProto (s : Catalog) : DataCatalog :=
  pbdata.mkCatalog (data.revision s)
    (map (fun p => pbdata.mkProviderCatalog (providerToProto (data.provider p))
                     (map channelToProto (data.channels p))) (data.providers s)).

Definition qualityToProto (q : Quality) : Z :=
  match q with
  | Unknown => 0 | Good => 1 | Degraded => 2 | Stale => 3 | Invalid => 4 | Unavailable => 5
  end.

Definition reasonToProto (r : UnavailableReason) : Z :=
  match r with
  | ProviderAbsent => 1 | ChannelAbsent => 2 | ProviderDisconnected => 3
  | ChannelRemoved => 4 | None_ => 0
  end.

Definition refToProto (r : ChannelRef) : DataChannelRef := mkRef r.1 r.2.

Definition scalarToProto (x : Scalar) : DataScalar :=
  match x with
  | DoubleScalar x => double_value x
  | SignedScalar z => signed_integer_value z
  | UnsignedScalar z => unsigned_integer_value z
  | BoolScalar b => boolean_value b
  | StringScalar s => string_value s
  | EnumScalar z => enum_value z
  end.

Definition sampleToProto (s : Sample) : DataSample :=
  pbdata.mkSample (s_channelName s) (option_map scalarToProto (s_value s)) (observedAtUnixMs s)
    (qualityToProto (data.quality s)).

Definition refFromProto (r : DataChannelRef) : ChannelRef :=
  (r_provider_namespace r, r_channel_name r).

Definition qualityFromProto (q : Z) : option Quality :=
  if q =? 0 then Some Unknown
  else if q =? 1 then Some Good
  else if q =? 2 then Some Degraded
  else if q =? 3 then Some Stale
  else if q =? 4 then Some Invalid
  else if q =? 5 then Some Unavailable
  else None.

Definition scalarFromProto (x : DataScalar) : option Scalar :=
  match x with
  | double_value x => Some (DoubleScalar x)
  | signed_integer_value z => Some (SignedScalar z)
  | unsigned_integer_value z => Some (UnsignedScalar z)
  | boolean_value b => Some (BoolScalar b)
  | string_value s => Some (StringScalar s)
  | enum_value z => Some (EnumScalar z)
  | VALUE_NOT_SET => None
  end.

Definition sampleFromProto (s : DataSample) : option Sample :=
  match qualityFromProto (quality s) with
  | None => None
  | Some q =>
      Some (data.mkSample (s_channel_name s)
              (match value s with Some x => scalarFromProto x | None => None end)
              (observed_at_unix_ms s) q)
  end.

Definition isServerOnlyDataPayload (m : ApiMessage) : bool :=
  match m with
  | RegisterDataProviderResponse _ _ | DeclareDataChannelsResponse _
  | ListDataCatalogResponse _ | SubscribeDataChannelsResponse _
  | DataValuesEvent _ _ | DataCatalogEvent _ | DataChannelAvailabilityEvent _ _ _ _ _ => true
  | _ => false
  end.

(** ** State *)

Record AvailabilityBoundary := mkBoundary {
  available : bool;
  b_reason : UnavailableReason;
  b_definition : option ChannelDefinition
}.

#[global] Instance AvailabilityBoundary_settable : Settable AvailabilityBoundary :=
  {| eta_record r := mkBoundary (available r) (b_reason r) (b_definition r) |}.

Definition optionDefinitionEq (x y : option ChannelDefinition) : bool :=
  match x, y with
  | Some x, Some y => definitionEq x y
  | None, None => true
  | _, _ => false
  end.

(** [operator==] of boundaries. *)
Definition boundaryEq (l r : AvailabilityBoundary) : bool :=
  eqb (available l) (available r) && bool_decide (b_reason l = b_reason r)
  && optionDefinitionEq (b_definition l) (b_definition r).

Record SessionState := mkSession {
  subscriptions : gset ChannelRef;
  lastAvailability : gmap ChannelRef AvailabilityBoundary;
  watchesCatalog : bool;
  s_providerNamespace : string
}.

#[global] Instance SessionState_settable : Settable SessionState := {| eta_record r :=
  mkSession (subscriptions r) (lastAvailability r) (watchesCatalog r) (s_providerNamespace r) |}.

Definition newSession : SessionState := mkSession ∅ ∅ false "".

Record AvailabilityWork := mkWork {
  ref : ChannelRef; boundary : AvailabilityBoundary; w_revision : Z
}.

(** The bridge with its registry and the sessions: [ready] is those in state
    Ready, [sent] what they were sent, oldest first. *)
Record W := mk {
  registry_ : DataRegistry.t;
  sessions_ : gmap nat SessionState;
  pendingCatalogs_ : list Catalog;
  catalogFanOutActive_ : bool;
  pendingAvailability_ : list AvailabilityWork;
  availabilityFanOutActive_ : bool;
  ready : gset nat;
  sent : list (nat * Z * ApiMessage)
}.

#[global] Instance W_settable : Settable W := {| eta_record r :=
  mk (registry_ r) (sessions_ r) (pendingCatalogs_ r) (catalogFanOutActive_ r)
    (pendingAvailability_ r) (availabilityFanOutActive_ r) (ready r) (sent r) |}.

Definition create : W := mk DataRegistry.create ∅ [] false [] false ∅ [].

(** [sessions_[sid]], created when absent. *)
Definition sessionOf (sid : nat) (w : W) : SessionState := default newSession (sessions_ w !! sid).
Definition updSession (sid : nat) (f : SessionState -> SessionState) (w : W) : W :=
  w <| sessions_ := <[sid := f (sessionOf sid w)]> (sessions_ w) |>.

Definition isReady (sid : nat) (w : W) : bool := bool_decide (sid ∈ ready w).

(** The sessions whose state satisfies [p], in the order of the hash. *)
Definition sessionsWith (p : SessionState -> bool) (w : W) : list nat :=
  map fst (List.filter (fun e => p (snd e)) (map_to_list (sessions_ w))).

Definition subscribed (ref : ChannelRef) (s : SessionState) : bool :=
  bool_decide (ref ∈ subscriptions s).

(** A loop whose body may send. *)
Fixpoint forEach {A} (f : A -> W -> option W) (l : list A) (w : W) : option W :=
  match l with
  | [] => Some w
  | a :: l => w ← f a w; forEach f l w
  end.

Definition currentBoundary (ref : ChannelRef) (w : W) : AvailabilityBoundary :=
  if negb (providerExists ref.1 (registry_ w)) then mkBoundary false ProviderAbsent None
  else match definitionOf ref (registry_ w) with
       | None => mkBoundary false ChannelAbsent None
       | Some d => mkBoundary true None_ (Some d)
       end.

(** ** Fan-outs *)

Section Bridge.
Variable ends : nat -> list nat.

Section Open.
(** [ApiSession::sendMessage], and the rounds a loop may take. *)
Variable sendMessage : nat -> Z -> ApiMessage -> W -> option W.
Variable n : nat.

Definition sendCatalogEvent (sid : nat) (c : Catalog) (w : W) : option W :=
  sendMessage sid 0 (DataCatalogEvent (catalogToProto c)) w.

Definition availabilityMessage (ref : ChannelRef) (b : AvailabilityBoundary) (rev : Z)
    : ApiMessage :=
  if available b
  then DataChannelAvailabilityEvent (refToProto ref) 1 (option_map channelToProto (b_definition b)) 0 rev
  else DataChannelAvailabilityEvent (refToProto ref) 2 None (reasonToProto (b_reason b)) rev.

Definition sendAvailability (sid : nat) (ref : ChannelRef) (b : AvailabilityBoundary) (rev : Z)
    (w : W) : option W :=
  sendMessage sid 0 (availabilityMessage ref b rev) w.

Definition sendValues (sid : nat) (ns : string) (samples : list Sample) (w : W) : option W :=
  if bool_decide (samples = []) then Some w
  else sendMessage sid 0 (DataValuesEvent ns (map sampleToProto samples)) w.

(** One piece of work for one destination. *)
Definition deliver (work : AvailabilityWork) (sid : nat) (w : W) : option W :=
  if negb (isReady sid w) then Some w
  else match sessions_ w !! sid with
       | None => Some w
       | Some st =>
           if negb (subscribed (ref work) st) then Some w
           else if match lastAvailability st !! ref work with
                   | Some b => boundaryEq b (boundary work)
                   | None => false
                   end
           then Some w
           else sendAvailability sid (ref work) (boundary work) (w_revision work)
                  (updSession sid (fun s => s <| lastAvailability ::= <[ref work := boundary work]> |>) w)
       end.

Fixpoint availabilityLoop (k : nat) (w : W) : option W :=
  match pendingAvailability_ w with
  | [] => Some w
  | work :: rest =>
      match k with
      | O => None
      | S k =>
          let w := w <| pendingAvailability_ := rest |> in
          w ← forEach (deliver work) (sessionsWith (subscribed (ref work)) w) w;
          availabilityLoop k w
      end
  end.

Definition fanOutAvailability (ref : ChannelRef) (b : AvailabilityBoundary) (rev : Z) (w : W)
    : option W :=
  let w := w <| pendingAvailability_ ::= fun l => l ++ [mkWork ref b rev] |> in
  if availabilityFanOutActive_ w then Some w
  else
    w ← availabilityLoop n (w <| availabilityFanOutActive_ := true |>);
    Some (w <| availabilityFanOutActive_ := false |>).

(** The boundary to announce: an explicit earlier one is kept while it fits. *)
Definition reconciled (last : option AvailabilityBoundary) (ref : ChannelRef) (w : W)
    : AvailabilityBoundary :=
  let cur := currentBoundary ref w in
  match last with
  | Some l =>
      if available cur then cur
      else if providerExists ref.1 (registry_ w)
              && (bool_decide (b_reason l = ChannelRemoved) || bool_decide (b_reason l = ChannelAbsent))
      then l
      else if negb (providerExists ref.1 (registry_ w))
              && (bool_decide (b_reason l = ProviderDisconnected)
                  || bool_decide (b_reason l = ProviderAbsent))
      then l
      else cur
  | None => cur
  end.

Definition reconcileOne (i : nat * ChannelRef) (w : W) : option W :=
  let '(sid, ref) := i in
  if negb (isReady sid w) then Some w
  else match sessions_ w !! sid with
       | None => Some w
       | Some st =>
           if negb (subscribed ref st) then Some w
           else
             let last := lastAvailability st !! ref in
             let b := reconciled last ref w in
             if match last with Some l => boundaryEq l b | None => false end then Some w
             else fanOutAvailability ref b (revision_ (registry_ w)) w
       end.

Definition interests (w : W) : list (nat * ChannelRef) :=
  concat (map (fun e => map (pair e.1) (elements (subscriptions (snd e))))
            (map_to_list (sessions_ w))).

Definition reconcileAvailability (w : W) : option W := forEach reconcileOne (interests w) w.

Definition deliverCatalog (c : Catalog) (sid : nat) (w : W) : option W :=
  if negb (isReady sid w) then Some w
  else match sessions_ w !! sid with
       | None => Some w
       | Some st => if negb (watchesCatalog st) then Some w else sendCatalogEvent sid c w
       end.

Fixpoint catalogLoop (k : nat) (w : W) : option W :=
  match pendingCatalogs_ w with
  | [] => Some w
  | c :: rest =>
      match k with
      | O => None
      | S k =>
          w ← reconcileAvailability (w <| pendingCatalogs_ := rest |>);
          w ← forEach (deliverCatalog c) (sessionsWith watchesCatalog w) w;
          catalogLoop k w
      end
  end.

Definition fanOutCatalog (c : Catalog) (w : W) : option W :=
  let w := w <| pendingCatalogs_ ::= fun l => l ++ [c] |> in
  if catalogFanOutActive_ w then Some w
  else
    w ← catalogLoop n (w <| catalogFanOutActive_ := true |>);
    Some (w <| catalogFanOutActive_ := false |>).

Definition wanted (ns : string) (samples : list Sample) (s : SessionState) : list Sample :=
  List.filter (fun x => subscribed (ns, s_channelName x) s) samples.

Definition deliverValues (ns : string) (samples : list Sample) (sid : nat) (w : W) : option W :=
  if negb (isReady sid w) then Some w
  else match sessions_ w !! sid with
       | None => Some w
       | Some st =>
           let filtered := wanted ns samples st in
           if bool_decide (filtered = []) then Some w else sendValues sid ns filtered w
       end.

Definition fanOutValues (ns : string) (samples : list Sample) (w : W) : option W :=
  forEach (deliverValues ns samples)
    (sessionsWith (fun s => existsb (fun x => subscribed (ns, s_channelName x) s) samples) w) w.

(** A signal of the registry reaches the bridge. *)
Definition raise (s : Signal) (w : W) : option W :=
  match s with
  | catalogChanged => fanOutCatalog (catalog (registry_ w)) w
  | availabilityChanged ref av rs =>
      let d := if av then definitionOf ref (registry_ w) else None in
      fanOutAvailability ref (mkBoundary av rs d) (revision_ (registry_ w)) w
  | valuesAccepted ns samples => fanOutValues ns samples w
  end.

Definition sessionClosed (sid : nat) (w : W) : option W :=
  let w := w <| sessions_ ::= delete sid |> in
  let '(r, signals) := removeOwner sid (registry_ w) in
  forEach raise signals (w <| registry_ := r |>).

(** A session ends: it leaves Ready, and its sink is told. *)
Definition endSession (sid : nat) (w : W) : option W :=
  if isReady sid w then sessionClosed sid (w <| ready ::= fun s => s ∖ {[sid]} |>) else Some w.

End Open.

(** A session that is not ready is closed or closing, and drops the message. *)
Fixpoint sendMessage (n : nat) (sid : nat) (requestId : Z) (m : ApiMessage) (w : W) : option W :=
  match n with
  | O => None
  | S n =>
      if isReady sid w then
        forEach (endSession (sendMessage n) n) (ends (length (sent w)))
          (w <| sent ::= fun l => l ++ [(sid, requestId, m)] |>)
      else Some w
  end.

(** ** Requests *)

Section Requests.
Variable n : nat.
Let send := sendMessage n.

Definition closeWithError (sid : nat) (requestId : Z) (code : ErrorCode) (text : string) (w : W)
    : option W :=
  w ← send sid requestId (Error code text) w;
  endSession send n sid w.

Definition signalAll (l : list Signal) (w : W) : option W := forEach (raise send n) l w.

Definition handleRegister (sid : nat) (requestId : Z) (provider : DataProviderDefinition) (w : W)
    : option W :=
  let '(r, signals, result) := registerProvider sid (providerFromProto provider) (registry_ w) in
  w ← signalAll signals (w <| registry_ := r |>);
  let w := if accepted result
           then updSession sid (fun s => s <| s_providerNamespace := provider_namespace provider |>) w
           else w in
  send sid requestId (RegisterDataProviderResponse (accepted result) (reason result)) w.

Definition handleDeclare (sid : nat) (requestId : Z) (channels : list DataChannelDefinition) (w : W)
    : option W :=
  let '(r, signals, results) := declareChannels sid (map channelFromProto channels) (registry_ w) in
  w ← signalAll signals (w <| registry_ := r |>);
  send sid requestId
    (DeclareDataChannelsResponse
       (map (fun d => (d_channelName d, d_accepted d, d_reason d)) results)) w.

Definition handleRemove (sid : nat) (requestId : Z) (names : list string) (w : W) : option W :=
  let '(r, signals) := removeChannels sid names (registry_ w) in
  w ← signalAll signals (w <| registry_ := r |>);
  send sid requestId Ack w.

(** [now i]: the clock when the [i]-th sample kept is stamped. *)
Definition handlePublish (now : nat -> Z) (sid : nat) (requestId : Z) (samples : list DataSample)
    (w : W) : option W :=
  if negb (requestId =? 0) then Some w
  else
    let winners := omap (fun i => samples !! i) (winnerIndices (map s_channel_name samples)) in
    let '(r, signals, _) := publish now sid (omap sampleFromProto winners) (registry_ w) in
    signalAll signals (w <| registry_ := r |>).

Definition handleListCatalog (sid : nat) (requestId : Z) (w : W) : option W :=
  send sid requestId (ListDataCatalogResponse (catalogToProto (catalog (registry_ w)))) w.

Definition handleWatchCatalog (sid : nat) (requestId : Z) (enabled : bool) (w : W) : option W :=
  w ← send sid requestId Ack (updSession sid (fun s => s <| watchesCatalog := enabled |>) w);
  if enabled && isReady sid w
     && match sessions_ w !! sid with Some s => watchesCatalog s | None => false end
  then sendCatalogEvent send sid (catalog (registry_ w)) w
  else Some w.

Definition validRef (r : ChannelRef) : bool := validIdentifier r.1 && validIdentifier r.2.

(** The loop over the accepted references; it ends with the session. *)
Fixpoint announceLoop (sid : nat) (refs : list ChannelRef) (w : W) : option W :=
  match refs with
  | [] => Some w
  | ref :: refs =>
      if negb (isReady sid w) then Some w
      else match sessions_ w !! sid with
           | None => announceLoop sid refs w
           | Some st =>
               if negb (subscribed ref st) then announceLoop sid refs w
               else
                 let b := currentBoundary ref w in
                 w ← sendAvailability send sid ref b (revision_ (registry_ w))
                       (updSession sid (fun s => s <| lastAvailability ::= <[ref := b]> |>) w);
                 if negb (isReady sid w) then Some w
                 else if negb (available b) then announceLoop sid refs w
                 else
                   w ← match latestSample ref (registry_ w) with
                       | Some x => sendValues send sid ref.1 [x] w
                       | None => Some w
                       end;
                   announceLoop sid refs w
           end
  end.

Definition handleSubscribe (sid : nat) (requestId : Z) (channels : list DataChannelRef) (w : W)
    : option W :=
  let refs := map refFromProto channels in
  let accepted := List.filter validRef refs in
  let results := map (fun r => (refToProto r, validRef r,
                                if validRef r then "" else "invalid channel reference")) refs in
  w ← send sid requestId (SubscribeDataChannelsResponse results)
        (updSession sid (fun s => s <| subscriptions ::= fun x => x ∪ list_to_set accepted |>) w);
  announceLoop sid accepted w.

Definition handleUnsubscribe (sid : nat) (requestId : Z) (channels : list DataChannelRef) (w : W)
    : option W :=
  let w := match sessions_ w !! sid with
           | None => w
           | Some _ =>
               let refs := list_to_set (map refFromProto channels) : gset ChannelRef in
               updSession sid (fun s => s <| subscriptions ::= fun x => x ∖ refs |>
                                          <| lastAvailability ::= filter (fun e => e.1 ∉ refs) |>) w
           end in
  send sid requestId Ack w.

(** Whether the payload was the bridge's, and the state after it. *)
Definition handleRequest (now : nat -> Z) (sid : nat) (requestId : Z) (m : ApiMessage) (w : W)
    : option W * bool :=
  let required (f : W -> option W) :=
    if negb (requestId =? 0) then f w
    else closeWithError sid 0 ERROR_CODE_INVALID_REQUEST "data request requires nonzero request_id" w in
  match m with
  | RegisterDataProviderRequest p => (required (handleRegister sid requestId p), true)
  | DeclareDataChannelsRequest l => (required (handleDeclare sid requestId l), true)
  | RemoveDataChannelsRequest l => (required (handleRemove sid requestId l), true)
  | PublishDataValues l => (handlePublish now sid requestId l w, true)
  | ListDataCatalogRequest => (required (handleListCatalog sid requestId), true)
  | WatchDataCatalogRequest b => (required (handleWatchCatalog sid requestId b), true)
  | SubscribeDataChannelsRequest l => (required (handleSubscribe sid requestId l), true)
  | UnsubscribeDataChannelsRequest l => (required (handleUnsubscribe sid requestId l), true)
  | _ =>
      if negb (isServerOnlyDataPayload m) then (Some w, false)
      else (closeWithError sid requestId ERROR_CODE_INVALID_REQUEST "server-only data payload" w, true)
  end.

End Requests.

(** ** Runs *)

(** A session becomes ready, sends a data message, or ends. *)
Inductive Op :=
| Opens (sid : nat)
| Request (sid : nat) (requestId : Z) (m : ApiMessage) (now : nat -> Z)
| Ends (sid : nat).

Definition perform (n : nat) (op : Op) (w : W) : option W :=
  match op with
  | Opens sid => Some (w <| ready ::= fun s => s ∪ {[sid]} |>)
  | Request sid requestId m now =>
      if isReady sid w then (handleRequest n now sid requestId m w).1 else Some w
  | Ends sid => endSession (sendMessage n) n sid w
  end.

Definition runOps (n : nat) (ops : list Op) (w : W) : option W := forEach (perform n) ops w.

End Bridge.

(** ** What subscribers know *)

(** The availability and definition in the last event about [r] to [sid]. *)
Definition toldBy (sid : nat) (r : ChannelRef) (e : nat * Z * ApiMessage)
    : option (Z * option DataChannelDefinition) :=
  match e with
  | (s, _, DataChannelAvailabilityEvent c av d _ _) =>
      if bool_decide (s = sid /\ refFromProto c = r) then Some (av, d) else None
  | _ => None
  end.

Definition told (sid : nat) (r : ChannelRef) (l : list (nat * Z * ApiMessage))
    : option (Z * option DataChannelDefinition) :=
  fold_left (fun acc e => match toldBy sid r e with Some x => Some x | None => acc end) l None.

Definition shown (b : AvailabilityBoundary) : Z * option DataChannelDefinition :=
  if available b then (1, option_map channelToProto (b_definition b)) else (2, None).

(** A boundary with a reason says the channel is unavailable. *)
Definition boundaryOk (b : AvailabilityBoundary) : Prop := b_reason b <> None_ -> available b = false.

(** The boundary is what the registry says, up to [==] of definitions. *)
Definition agrees (r : DataRegistry.t) (ref : ChannelRef) (b : AvailabilityBoundary) : Prop :=
  match definitionOf ref r with
  | Some d => available b = true /\
      exists d', b_definition b = Some d' /\ (d' = d \/ definitionEq d' d = true)
  | None => available b = false
  end.

(** Every ready subscriber was told what the registry says, except [X]. *)
Definition consistentBut (X : nat -> ChannelRef -> Prop) (w : W) : Prop :=
  forall sid st ref, sid ∈ ready w -> sessions_ w !! sid = Some st -> ref ∈ subscriptions st ->
    X sid ref \/ exists b, lastAvailability st !! ref = Some b /\ agrees (registry_ w) ref b.

Definition nobody (sid : nat) (ref : ChannelRef) : Prop := False.
Abbreviation consistent := (consistentBut nobody).

Record Inv (w : W) : Prop := {
  inv_reg : wf (registry_ w);
  inv_owner ns p : providers_ (registry_ w) !! ns = Some p -> owner p ∈ ready w;
  inv_sess sid st : sessions_ w !! sid = Some st ->
    sid ∈ ready w \/ (subscriptions st = ∅ /\ watchesCatalog st = false);
  inv_last sid st ref b : sessions_ w !! sid = Some st -> lastAvailability st !! ref = Some b ->
    ref ∈ subscriptions st /\ boundaryOk b /\ told sid ref (sent w) = Some (shown b);
  inv_work : Forall (fun k => boundaryOk (boundary k)) (pendingAvailability_ w);
  inv_noWork : availabilityFanOutActive_ w = false -> pendingAvailability_ w = [];
  inv_noCatalog : catalogFanOutActive_ w = false -> pendingCatalogs_ w = []
}.

(** ** Total correctness of the functions that send *)

(** With enough fuel [m] returns a state with [Q]. *)
Definition tot (m : nat -> option W) (Q : W -> Prop) : Prop :=
  exists N w, (forall n, (N <= n)%nat -> m n = Some w) /\ Q w.

Lemma tot_ret w (Q : W -> Prop) : Q w -> tot (fun _ => Some w) Q.
Proof. intros HQ. by exists 0%nat, w. Qed.

Lemma tot_bind (m : nat -> option W) (g : nat -> W -> option W) Q :
  tot m (fun w => tot (fun n => g n w) Q) -> tot (fun n => w ← m n; g n w) Q.
Proof.
  intros (N & w & H1 & N2 & w2 & H2 & HQ). exists (max N N2), w2. split; [|done].
  intros n Hn. rewrite H1 by lia. simpl. apply H2. lia.
Qed.

Lemma tot_mono m (P Q : W -> Prop) : tot m P -> (forall w, P w -> Q w) -> tot m Q.
Proof. intros (N & w & H1 & H2) HPQ. exists N, w. auto. Qed.

Lemma tot_shift (m : nat -> option W) Q : tot (fun n => m (S n)) Q -> tot m Q.
Proof.
  intros (N & w & H1 & H2). exists (S N), w. split; [|done]. intros [|n] Hn; [lia|].
  apply H1. lia.
Qed.

(** A loop whose own rounds are counted: with enough rounds and fuel. *)
Definition totLoop (m : nat -> nat -> option W) (Q : W -> Prop) : Prop :=
  exists N w, (forall n k, (N <= n)%nat -> (N <= k)%nat -> m n k = Some w) /\ Q w.

Lemma totLoop_diag (m : nat -> nat -> option W) Q : totLoop m Q -> tot (fun n => m n n) Q.
Proof. intros (N & w & H1 & H2). exists N, w. auto. Qed.

Lemma totLoop_step (m : nat -> option W) (g : nat -> nat -> W -> option W) Q :
  tot m (fun w => totLoop (fun n k => g n k w) Q) ->
  totLoop (fun n k => match k with O => None | S k => w ← m n; g n k w end) Q.
Proof.
  intros (N & w & H1 & N2 & w2 & H2 & HQ). exists (S (max N N2)), w2. split; [|done].
  intros n [|k] Hn Hk; [lia|]. rewrite H1 by lia. simpl. apply H2; lia.
Qed.

Lemma totLoop_ret w (Q : W -> Prop) : Q w -> totLoop (fun _ _ => Some w) Q.
Proof. intros HQ. by exists 0%nat, w. Qed.

(** [I l w]: the elements [l] are still to do. *)
Lemma tot_forEach {A} (f : nat -> A -> W -> option W) (I : list A -> W -> Prop) l w :
  I l w -> (forall a l w, I (a :: l) w -> tot (fun n => f n a w) (I l)) ->
  tot (fun n => forEach (f n) l w) (I []).
Proof.
  intros H0 HS. induction l as [|a l IH] in w, H0 |- *; simpl; [by apply tot_ret|].
  apply (tot_bind (fun n => f n a w) (fun n w => forEach (f n) l w)).
  eapply tot_mono; [by apply HS|]. apply IH.
Qed.

(** ** How the world evolves inside a send *)

Definition sameSubs (s s' : SessionState) : Prop :=
  subscriptions s' = subscriptions s /\ watchesCatalog s' = watchesCatalog s.

(** Sessions only end, and with them their providers. *)
Record evolve (w w' : W) : Prop := {
  ev_ready : ready w' ⊆ ready w;
  ev_reg ns p : providers_ (registry_ w') !! ns = Some p -> providers_ (registry_ w) !! ns = Some p;
  ev_sess sid st' : sid ∈ ready w' -> sessions_ w' !! sid = Some st' ->
    exists st, sessions_ w !! sid = Some st /\ sameSubs st st';
  ev_cat : catalogFanOutActive_ w' = catalogFanOutActive_ w;
  ev_avail : availabilityFanOutActive_ w' = availabilityFanOutActive_ w
}.

Lemma evolve_refl w : evolve w w.
Proof. split; try done. intros sid st' _ H. by exists st'. Qed.

Lemma evolve_trans w1 w2 w3 : evolve w1 w2 -> evolve w2 w3 -> evolve w1 w3.
Proof.
  intros H1 H2. split.
  - transitivity (ready w2); [apply H2|apply H1].
  - intros ns p Hp. by apply H1, H2.
  - intros sid st3 Hr H3. destruct (ev_sess _ _ H2 _ _ Hr H3) as (st2 & Hs2 & E2 & F2).
    destruct (ev_sess _ _ H1 sid st2) as (st1 & Hs1 & E1 & F1); [by apply H2|done|].
    exists st1. split; [done|]. split; congruence.
  - rewrite (ev_cat _ _ H2). apply H1.
  - rewrite (ev_avail _ _ H2). apply H1.
Qed.

(** Nothing of the bridge and the registry changed but for the sessions that ended. *)
Record undisturbed (w w' : W) : Prop := {
  un_reg : registry_ w' = registry_ w;
  un_cat : pendingCatalogs_ w' = pendingCatalogs_ w;
  un_work : pendingAvailability_ w' = pendingAvailability_ w;
  un_sess sid : sid ∈ ready w' -> sessions_ w' !! sid = sessions_ w !! sid
}.

Lemma undisturbed_refl w : undisturbed w w.
Proof. by split. Qed.

Lemma undisturbed_trans w1 w2 w3 : ready w3 ⊆ ready w2 ->
  undisturbed w1 w2 -> undisturbed w2 w3 -> undisturbed w1 w3.
Proof.
  intros Hr [E1 F1 G1 H1] [E2 F2 G2 H2]. split; try congruence.
  intros sid Hs. rewrite H2 by done. apply H1. set_solver.
Qed.

Lemma undisturbed_consistent X w w' : evolve w w' -> undisturbed w w' ->
  consistentBut X w -> consistentBut X w'.
Proof.
  intros He Hu Hc sid st ref Hr Hs Href. rewrite (un_reg _ _ Hu).
  apply (Hc sid); [by apply He|by rewrite <- (un_sess _ _ Hu)|done].
Qed.

Lemma ready_squeeze (a b c : gset nat) : c ⊆ b -> b ⊆ a -> c = a -> b = a /\ c = b.
Proof. set_solver. Qed.

(** A provider went: its catalog change is pending, or has been told. *)
Definition disturbed (w w' : W) : Prop :=
  ready w' <> ready w
  /\ (catalogFanOutActive_ w = true -> pendingCatalogs_ w' <> [])
  /\ (catalogFanOutActive_ w = false -> availabilityFanOutActive_ w = false -> consistent w').

Definition sendPost (w w' : W) : Prop :=
  evolve w w' /\ Inv w' /\ (undisturbed w w' \/ disturbed w w').

Lemma sendPost_refl w : Inv w -> sendPost w w.
Proof. intros HI. split_and!; [apply evolve_refl|done|left; apply undisturbed_refl]. Qed.

Lemma sendPost_trans w1 w2 w3 : sendPost w1 w2 -> sendPost w2 w3 -> sendPost w1 w3.
Proof.
  intros (E1 & I1 & D1) (E2 & I2 & D2). pose proof (ev_ready _ _ E1). pose proof (ev_ready _ _ E2).
  split_and!; [by eapply evolve_trans|done|].
  assert (Hq : ready w3 = ready w1 -> ready w2 = ready w1 /\ ready w3 = ready w2)
    by (by apply ready_squeeze).
  destruct D1 as [U1|(N1 & P1 & C1)], D2 as [U2|(N2 & P2 & C2)].
  - left. by eapply undisturbed_trans.
  - right. rewrite (ev_cat _ _ E1), (ev_avail _ _ E1) in *. split; [|done]. tauto.
  - right. split_and!; [tauto| |].
    + intros Ha. rewrite (un_cat _ _ U2). auto.
    + intros Ha Hb. eapply undisturbed_consistent; eauto.
  - right. rewrite (ev_cat _ _ E1), (ev_avail _ _ E1) in *. split_and!; [tauto|done|done].
Qed.

(** The looser relation of the fan-outs. *)
Definition fanPost (w w' : W) : Prop :=
  evolve w w' /\ Inv w'
  /\ (catalogFanOutActive_ w = true -> pendingCatalogs_ w <> [] -> pendingCatalogs_ w' <> [])
  /\ (ready w' = ready w -> pendingCatalogs_ w' = pendingCatalogs_ w).

Lemma fanPost_refl w : Inv w -> fanPost w w.
Proof. intros HI. split_and!; [apply evolve_refl|done..]. Qed.

Lemma fanPost_trans w1 w2 w3 : fanPost w1 w2 -> fanPost w2 w3 -> fanPost w1 w3.
Proof.
  intros (E1 & I1 & N1 & C1) (E2 & I2 & N2 & C2).
  pose proof (ev_ready _ _ E1). pose proof (ev_ready _ _ E2).
  rewrite (ev_cat _ _ E1) in N2. split_and!; [by eapply evolve_trans|done|auto|].
  intros E. destruct (ready_squeeze (ready w1) (ready w2) (ready w3)); [done..|].
  by rewrite C2, C1.
Qed.

Lemma sendPost_fan w w' : sendPost w w' -> fanPost w w'.
Proof.
  intros (E & I & [U|(N & P & _)]); (split_and!; [done..| |]).
  - intros _. by rewrite (un_cat _ _ U).
  - intros _. apply U.
  - auto.
  - done.
Qed.

(** ** Sending *)

Lemma told_snoc sid r l e :
  told sid r (l ++ [e]) = match toldBy sid r e with Some x => Some x | None => told sid r l end.
Proof. unfold told. by rewrite fold_left_app. Qed.

Definition plain (m : ApiMessage) : Prop :=
  match m with DataChannelAvailabilityEvent _ _ _ _ _ => False | _ => True end.

Definition logged (sid : nat) (id : Z) (m : ApiMessage) (w : W) : W :=
  w <| sent ::= fun l => l ++ [(sid, id, m)] |>.

Lemma logged_Inv sid id m w : plain m -> Inv w -> Inv (logged sid id m w).
Proof.
  intros Hm []. split; try done. intros s st ref b Hs Hb.
  destruct (inv_last0 _ _ _ _ Hs Hb) as (H1 & H2 & H3). split_and!; [done..|].
  simpl. rewrite told_snoc. by destruct m.
Qed.

Lemma logged_post sid id m w : Inv (logged sid id m w) -> sendPost w (logged sid id m w).
Proof.
  intros HI. split_and!; [|done|left; by split]. split; try done. intros s st' _ H. by exists st'.
Qed.

(** The state after a subscriber is told a boundary. *)
Definition announced (sid : nat) (ref : ChannelRef) (b : AvailabilityBoundary) (rev : Z) (w : W) : W :=
  logged sid 0 (availabilityMessage ref b rev)
    (updSession sid (fun s => s <| lastAvailability ::= <[ref := b]> |>) w).

Lemma toldBy_availability sid s r ref b rev :
  toldBy sid r (s, 0, availabilityMessage ref b rev) =
    if bool_decide (s = sid /\ ref = r) then Some (shown b) else None.
Proof.
  unfold availabilityMessage, shown. destruct (available b); simpl; by destruct ref.
Qed.

Lemma announced_session sid ref b rev w st s : sessions_ w !! sid = Some st ->
  sessions_ (announced sid ref b rev w) !! s =
    if decide (s = sid) then Some (st <| lastAvailability ::= <[ref := b]> |>) else sessions_ w !! s.
Proof.
  intros Hs. unfold announced, updSession, sessionOf. simpl. rewrite Hs. simpl.
  destruct (decide (s = sid)) as [->|]; [by rewrite lookup_insert_eq|by rewrite lookup_insert_ne].
Qed.

Lemma announced_Inv sid ref b rev w st : Inv w -> sid ∈ ready w ->
  sessions_ w !! sid = Some st -> ref ∈ subscriptions st -> boundaryOk b ->
  Inv (announced sid ref b rev w).
Proof.
  intros [] Hr Hs Href Hb. split; try done.
  - intros s st'. rewrite (announced_session _ _ _ _ _ _ _ Hs).
    destruct (decide (s = sid)) as [->|]; [by left|]. apply inv_sess0.
  - intros s st' r x. rewrite (announced_session _ _ _ _ _ _ _ Hs).
    change (sent (announced sid ref b rev w))
      with (sent w ++ [(sid, 0, availabilityMessage ref b rev)]).
    rewrite told_snoc, toldBy_availability. destruct (decide (s = sid)) as [->|Hne].
    + intros [= <-]. simpl. destruct (decide (r = ref)) as [->|Hr'].
      * rewrite lookup_insert_eq. intros [= <-]. by rewrite bool_decide_true.
      * rewrite lookup_insert_ne by done. intros Hx. rewrite bool_decide_false by naive_solver.
        by apply inv_last0.
    + intros Hs' Hx. rewrite bool_decide_false by naive_solver. by eapply inv_last0.
Qed.

Section Ends.
Variable ends : nat -> list nat.
Abbreviation send := (sendMessage ends).

(** Ending sessions is as it should be in worlds with at most [j] ready ones. *)
Definition CloseOK (j : nat) : Prop := forall w l, (size (ready w) <= j)%nat -> Inv w ->
  tot (fun n => forEach (endSession (send n) n) l w) (sendPost w).

Section Bounded.
Variable j : nat.
Hypothesis HC : CloseOK j.

Lemma send_ready sid id m w : (size (ready w) <= j)%nat -> sid ∈ ready w ->
  Inv (logged sid id m w) -> tot (fun n => send n sid id m w) (sendPost (logged sid id m w)).
Proof.
  intros Hj Hr HI. apply tot_shift. simpl. unfold isReady. rewrite bool_decide_true by done.
  by apply HC.
Qed.

Lemma send_plain sid id m w : (size (ready w) <= j)%nat -> Inv w -> plain m ->
  tot (fun n => send n sid id m w) (sendPost w).
Proof.
  intros Hj HI Hm. destruct (decide (sid ∈ ready w)) as [Hr|Hr].
  - pose proof (logged_Inv sid id m w Hm HI) as HI'.
    eapply tot_mono; [by apply send_ready|]. intros w' H.
    eapply sendPost_trans; [by apply logged_post|done].
  - apply tot_shift. simpl. unfold isReady. rewrite bool_decide_false by done.
    apply tot_ret. by apply sendPost_refl.
Qed.

Lemma evolve_size w w' : evolve w w' -> (size (ready w') <= size (ready w))%nat.
Proof. intros H. apply subseteq_size, H. Qed.

(** *** Telling one boundary *)

(** What a subscriber believes is [b], up to [==]. *)
Definition near (o : option AvailabilityBoundary) (b : AvailabilityBoundary) : Prop :=
  exists l, o = Some l /\ (l = b \/ boundaryEq l b = true).

(** Only beliefs about [ref] changed, to [b]; the sessions of [S] have it. *)
Record telling (ref : ChannelRef) (b : AvailabilityBoundary) (S : list nat) (w w' : W) : Prop := {
  te_reg : registry_ w' = registry_ w;
  te_cat : pendingCatalogs_ w' = pendingCatalogs_ w;
  te_work : pendingAvailability_ w' = pendingAvailability_ w;
  te_sess s st' : s ∈ ready w' -> sessions_ w' !! s = Some st' ->
    exists st, sessions_ w !! s = Some st /\ sameSubs st st'
    /\ (forall r, r <> ref -> lastAvailability st' !! r = lastAvailability st !! r)
    /\ (lastAvailability st' !! ref = lastAvailability st !! ref \/ near (lastAvailability st' !! ref) b)
    /\ (s ∈ S -> ref ∈ subscriptions st' -> near (lastAvailability st' !! ref) b)
}.

Lemma near_self b : near (Some b) b.
Proof. exists b. auto. Qed.

Lemma telling_undisturbed ref b S w w1 w2 : ready w2 ⊆ ready w1 ->
  telling ref b S w w1 -> undisturbed w1 w2 -> telling ref b S w w2.
Proof.
  intros Hr [] []. split; try congruence. intros s st' Hs2 Hst.
  rewrite un_sess0 in Hst by done. apply te_sess0; [set_solver|done].
Qed.

Lemma telling_trans ref b S1 S2 w1 w2 w3 : ready w3 ⊆ ready w2 ->
  telling ref b S1 w1 w2 -> telling ref b S2 w2 w3 -> telling ref b (S1 ++ S2) w1 w3.
Proof.
  intros Hr [] []. split; try congruence. intros s st3 Hs3 Hst3.
  destruct (te_sess1 s st3 Hs3 Hst3) as (st2 & Hst2 & [E1 F1] & L1 & N1 & M1).
  destruct (te_sess0 s st2) as (st1 & Hst1 & [E2 F2] & L2 & N2 & M2); [set_solver|done|].
  exists st1. split_and!.
  - done.
  - split; congruence.
  - intros r Hne. by rewrite L1, L2.
  - destruct N1 as [->|]; [|by right]. done.
  - intros [Hin|Hin]%elem_of_app Href; [|auto].
    destruct N1 as [->|]; [|done]. apply M2; [done|congruence].
Qed.

Lemma telling_refl ref b w : telling ref b [] w w.
Proof. split; try done. intros s st _ Hst. exists st. split_and!; try done; [by left|]. set_solver. Qed.

Definition deliverPost (work : AvailabilityWork) (S : list nat) (w w' : W) : Prop :=
  fanPost w w'
  /\ (ready w' = ready w -> pendingAvailability_ w' = pendingAvailability_ w)
  /\ (telling (ref work) (boundary work) S w w'
      \/ (catalogFanOutActive_ w = true -> pendingCatalogs_ w' <> [])).

Lemma deliver_skip work sid w : Inv w ->
  (forall st, sid ∈ ready w -> sessions_ w !! sid = Some st -> ref work ∈ subscriptions st ->
     near (lastAvailability st !! ref work) (boundary work)) ->
  deliverPost work [sid] w w.
Proof.
  intros HI Hn. split_and!; [by apply fanPost_refl|done|]. left. split; try done.
  intros s st' Hr Hst. exists st'. split_and!; try done; [by left|].
  intros ->%list_elem_of_singleton Href. by apply Hn.
Qed.

Lemma deliver_spec work sid w : (size (ready w) <= j)%nat -> Inv w -> boundaryOk (boundary work) ->
  tot (fun n => deliver (send n) work sid w) (deliverPost work [sid] w).
Proof.
  intros Hj HI Hb. unfold deliver, isReady, subscribed.
  destruct (bool_decide_reflect (sid ∈ ready w)) as [Hr|Hr]; simpl.
  2: { by apply tot_ret, deliver_skip. }
  destruct (sessions_ w !! sid) as [st|] eqn:Hs.
  2: { apply tot_ret, deliver_skip; [done|]. congruence. }
  destruct (bool_decide_reflect (ref work ∈ subscriptions st)) as [Href|Href]; simpl.
  2: { apply tot_ret, deliver_skip; [done|]. intros ? _ ? ?. by simplify_eq. }
  destruct (match lastAvailability st !! ref work with Some b => _ | None => _ end) eqn:El.
  { apply tot_ret, deliver_skip; [done|]. intros ? _ ? _. simplify_eq.
    destruct (lastAvailability st !! ref work) as [l|] eqn:E; [|done]. exists l. auto. }
  unfold sendAvailability.
  pose proof (announced_Inv sid (ref work) (boundary work) (w_revision work) w st
    HI Hr Hs Href Hb) as HI'.
  eapply tot_mono; [by apply send_ready|]. intros w' (E & I & D).
  fold (announced sid (ref work) (boundary work) (w_revision work) w) in E, D.
  set (wa := announced _ _ _ _ w) in *.
  assert (Ha : telling (ref work) (boundary work) [sid] w wa).
  { split; try done. intros s st' Hrs. unfold wa. rewrite (announced_session _ _ _ _ _ _ _ Hs).
    destruct (decide (s = sid)) as [->|Hne].
    - intros [= <-]. exists st. simpl. rewrite lookup_insert_eq.
      split_and!; try done; [|right; apply near_self|intros; apply near_self].
      intros r Hr'. by rewrite lookup_insert_ne.
    - intros Hst. exists st'. split_and!; try done; [by left|].
      intros ?%list_elem_of_singleton. done. }
  assert (Ev : evolve w wa).
  { split; try done. intros s st' Hrs Hst. destruct (te_sess _ _ _ _ _ Ha s st' Hrs Hst)
      as (st0 & ? & ? & _). eauto. }
  pose proof (ev_ready _ _ E) as Hre. split_and!.
  - split_and!; [by eapply evolve_trans|done| |].
    + intros Hc Hne. destruct D as [U|(_ & P & _)]; [by rewrite (un_cat _ _ U)|by apply P].
    + intros Er. destruct D as [U|(N & _)]; [by rewrite (un_cat _ _ U)|by destruct N].
  - intros Er. destruct D as [U|(N & _)]; [by rewrite (un_work _ _ U)|by destruct N].
  - destruct D as [U|(_ & P & _)]; [left|by right]. by eapply telling_undisturbed.
Qed.

Lemma deliverPost_trans work S1 S2 w1 w2 w3 :
  deliverPost work S1 w1 w2 -> deliverPost work S2 w2 w3 -> deliverPost work (S1 ++ S2) w1 w3.
Proof.
  intros (F1 & K1 & D1) (F2 & K2 & D2).
  assert (E1 := proj1 F1). assert (E2 := proj1 F2).
  split_and!; [by eapply fanPost_trans| |].
  - intros E. destruct (ready_squeeze (ready w1) (ready w2) (ready w3)); [apply E2|apply E1|done|].
    by rewrite K2, K1.
  - destruct D2 as [D2|D2]; [|right; by rewrite <- (ev_cat _ _ E1)].
    destruct D1 as [D1|D1].
    + left. eapply telling_trans; [apply E2|done..].
    + right. intros Hc. rewrite (te_cat _ _ _ _ _ D2). auto.
Qed.

Lemma deliver_all work l w : (size (ready w) <= j)%nat -> Inv w -> boundaryOk (boundary work) ->
  tot (fun n => forEach (deliver (send n) work) l w) (deliverPost work l w).
Proof.
  intros Hj HI Hb.
  eapply tot_mono; [apply (tot_forEach (fun n => deliver (send n) work)
    (fun r w' => exists p, l = p ++ r /\ deliverPost work p w w'))|].
  - exists []. split; [done|]. split_and!; [by apply fanPost_refl|done|left; apply telling_refl].
  - intros s r w1 (p & -> & H1). assert (E1 := proj1 (proj1 H1)).
    eapply tot_mono; [apply deliver_spec; [pose proof (evolve_size _ _ E1); lia|apply H1|done]|].
    intros w2 H2. exists (p ++ [s]). rewrite <- app_assoc. split; [done|].
    by eapply deliverPost_trans.
  - intros w' (p & E & H). rewrite app_nil_r in E. by subst p.
Qed.

(** *** Availability fan-outs *)

Lemma totLoop_ext (m m' : nat -> nat -> option W) Q :
  (forall n k, m n k = m' n k) -> totLoop m' Q -> totLoop m Q.
Proof. intros He (N & w & H1 & H2). exists N, w. split; [|done]. intros. rewrite He. auto. Qed.

Lemma same_ready (a b : gset nat) : a ⊆ b -> (size b <= size a)%nat -> a = b.
Proof. intros. by apply leibniz_equiv, set_subseteq_size_equiv. Qed.

Lemma availabilityLoop_eq snd k w :
  availabilityLoop snd k w =
    match pendingAvailability_ w with
    | [] => Some w
    | work :: rest =>
        match k with
        | O => None
        | S k =>
            let w := w <| pendingAvailability_ := rest |> in
            w ← forEach (deliver snd work) (sessionsWith (subscribed (ref work)) w) w;
            availabilityLoop snd k w
        end
    end.
Proof. by destruct k. Qed.

Lemma takeWork_Inv w work rest : Inv w -> availabilityFanOutActive_ w = true ->
  pendingAvailability_ w = work :: rest ->
  boundaryOk (boundary work) /\ Inv (w <| pendingAvailability_ := rest |>).
Proof.
  intros [] Ha Hp. rewrite Hp in inv_work0. apply Forall_cons in inv_work0 as [Hb Hr].
  split; [done|]. split; try done. simpl. congruence.
Qed.

Lemma evolve_pending w l : evolve w (w <| pendingAvailability_ := l |>).
Proof. split; try done. intros s st' _ H. by exists st'. Qed.

Lemma availabilityLoop_spec w : (size (ready w) <= j)%nat -> Inv w ->
  availabilityFanOutActive_ w = true ->
  totLoop (fun n k => availabilityLoop (send n) k w)
    (fun w' => fanPost w w' /\ pendingAvailability_ w' = []).
Proof.
  intros Hj HI Ha. remember (size (ready w)) as s eqn:Es.
  revert w Es HI Ha Hj. induction (lt_wf s) as [s _ IHs]. intros w Es HI Ha Hj.
  remember (length (pendingAvailability_ w)) as p eqn:Ep.
  revert w Es Ep HI Ha. induction p as [|p IHp]; intros w Es Ep HI Ha;
    destruct (pendingAvailability_ w) as [|work rest] eqn:Hp; try done;
    (eapply totLoop_ext; [intros; by rewrite availabilityLoop_eq, Hp|]).
  { apply totLoop_ret. split; [by apply fanPost_refl|done]. }
  cbv zeta. destruct (takeWork_Inv w work rest HI Ha Hp) as [Hb HI1].
  set (w1 := w <| pendingAvailability_ := rest |>) in *.
  assert (F1 : fanPost w w1) by (split_and!; [apply evolve_pending|done..]).
  apply (totLoop_step (fun n => forEach (deliver (send n) work)
           (sessionsWith (subscribed (ref work)) w1) w1)
         (fun n k w => availabilityLoop (send n) k w)).
  eapply tot_mono; [apply deliver_all; [simpl; lia|done|done]|].
  intros w2 (F2 & K2 & _). pose proof (fanPost_trans _ _ _ F1 F2) as F12.
  destruct F2 as (E2 & I2 & _). pose proof (evolve_size _ _ E2) as Hsz. simpl in Hsz.
  assert (Ha2 : availabilityFanOutActive_ w2 = true) by (by rewrite (ev_avail _ _ E2)).
  assert (Hgo : totLoop (fun n k => availabilityLoop (send n) k w2)
            (fun w' => fanPost w2 w' /\ pendingAvailability_ w' = [])).
  { destruct (decide (size (ready w2) = s)) as [Heq|Hne].
    - apply IHp; auto. rewrite K2; [simpl in *; congruence|].
      apply same_ready; [apply E2|simpl; lia].
    - eapply IHs; [|done|done|done|]; lia. }
  destruct Hgo as (N & w3 & H1 & F3 & H3). exists N, w3. split; [done|]. split; [|done].
  by eapply fanPost_trans.
Qed.

(** Every ready subscriber of [ref] has [b]; the rest is as it was. *)
Definition toldAll (ref : ChannelRef) (b : AvailabilityBoundary) (w w' : W) : Prop :=
  registry_ w' = registry_ w /\ forall s st', s ∈ ready w' -> sessions_ w' !! s = Some st' ->
    exists st, sessions_ w !! s = Some st /\ sameSubs st st'
    /\ (forall r, r <> ref -> lastAvailability st' !! r = lastAvailability st !! r)
    /\ (ref ∈ subscriptions st' -> near (lastAvailability st' !! ref) b).

Definition pendingCatalog (w w' : W) : Prop :=
  catalogFanOutActive_ w = true -> pendingCatalogs_ w' <> [].

Lemma elem_sessionsWith p w s st : sessions_ w !! s = Some st -> p st = true ->
  s ∈ sessionsWith p w.
Proof.
  intros Hs Hp. unfold sessionsWith. apply list_elem_of_fmap. exists (s, st). split; [done|].
  apply list_elem_of_In, List.filter_In. split; [|done].
  apply list_elem_of_In. by apply elem_of_map_to_list.
Qed.

Lemma telling_all ref b w w' :
  telling ref b (sessionsWith (subscribed ref) w) w w' -> toldAll ref b w w'.
Proof.
  intros T. split; [apply T|]. intros s st' Hr Hst.
  destruct (te_sess _ _ _ _ _ T s st' Hr Hst) as (st & Hst0 & Hss & L & _ & N).
  exists st. split_and!; try done. intros Href. apply N; [|done].
  eapply elem_sessionsWith; [done|]. apply bool_decide_true. destruct Hss as [E _].
  by rewrite <- E.
Qed.

(** Running the queue with one piece of work in it. *)
Lemma availabilityLoop_one w work : (size (ready w) <= j)%nat -> Inv w ->
  availabilityFanOutActive_ w = true -> pendingAvailability_ w = [work] ->
  totLoop (fun n k => availabilityLoop (send n) k w)
    (fun w' => fanPost w w' /\ pendingAvailability_ w' = []
       /\ (toldAll (ref work) (boundary work) w w' \/ pendingCatalog w w')).
Proof.
  intros Hj HI Ha Hp. eapply totLoop_ext; [intros; by rewrite availabilityLoop_eq, Hp|].
  cbv zeta. destruct (takeWork_Inv w work [] HI Ha Hp) as [Hb HI1].
  set (w1 := w <| pendingAvailability_ := [] |>) in *.
  assert (F1 : fanPost w w1) by (split_and!; [apply evolve_pending|done..]).
  apply (totLoop_step (fun n => forEach (deliver (send n) work)
           (sessionsWith (subscribed (ref work)) w1) w1)
         (fun n k w => availabilityLoop (send n) k w)).
  eapply tot_mono; [apply deliver_all; [simpl; lia|done|done]|].
  intros w2 (F2 & K2 & D2). pose proof (fanPost_trans _ _ _ F1 F2) as F12.
  destruct F2 as (E2 & I2 & _). pose proof (evolve_size _ _ E2) as Hsz. simpl in Hsz.
  assert (Ha2 : availabilityFanOutActive_ w2 = true) by (by rewrite (ev_avail _ _ E2)).
  destruct D2 as [T|P].
  - eapply totLoop_ext; [intros; by rewrite availabilityLoop_eq, (te_work _ _ _ _ _ T)|].
    apply totLoop_ret. split_and!; [done|by rewrite (te_work _ _ _ _ _ T)|left].
    exact (telling_all (ref work) (boundary work) w1 w2 T).
  - destruct (availabilityLoop_spec w2) as (N & w3 & H1 & F3 & H3); [lia|done..|].
    exists N, w3. split; [done|]. split_and!; [by eapply fanPost_trans|done|right].
    intros Hc. destruct F3 as (_ & _ & N3 & _). apply N3; [by rewrite (ev_cat _ _ E2)|].
    by apply P.
Qed.

Lemma flag_Inv w b : Inv w -> pendingAvailability_ w = [] ->
  Inv (w <| availabilityFanOutActive_ := b |>).
Proof. intros [] Hp. by split. Qed.

Lemma enqueue_Inv w ref b rev act : Inv w -> boundaryOk b -> act = true ->
  Inv (w <| pendingAvailability_ ::= fun l => l ++ [mkWork ref b rev] |>
         <| availabilityFanOutActive_ := act |>).
Proof.
  intros [] Hb ->. split; try done. simpl. apply Forall_app. split; [done|].
  by apply Forall_singleton.
Qed.

Lemma fanOutAvailability_spec ref b rev w : (size (ready w) <= j)%nat -> Inv w -> boundaryOk b ->
  tot (fun n => fanOutAvailability (send n) n ref b rev w)
    (fun w' => fanPost w w' /\ (availabilityFanOutActive_ w = false ->
       toldAll ref b w w' \/ pendingCatalog w w')).
Proof.
  intros Hj HI Hb. unfold fanOutAvailability. cbv zeta.
  set (w1 := w <| pendingAvailability_ ::= fun l => l ++ [mkWork ref b rev] |>).
  change (availabilityFanOutActive_ w1) with (availabilityFanOutActive_ w).
  destruct (availabilityFanOutActive_ w) eqn:Ha.
  - apply tot_ret. split; [|done]. split_and!; [apply evolve_pending| |done|done].
    pose proof (enqueue_Inv w ref b rev _ HI Hb Ha) as H.
    replace w1 with (w1 <| availabilityFanOutActive_ := availabilityFanOutActive_ w |>); [done|].
    unfold w1. by destruct w.
  - set (w2 := w1 <| availabilityFanOutActive_ := true |>).
    assert (HI2 : Inv w2) by (by apply enqueue_Inv).
    assert (Hp2 : pendingAvailability_ w2 = [mkWork ref b rev]).
    { simpl. rewrite (inv_noWork _ HI Ha). done. }
    apply (tot_bind (fun n => availabilityLoop (send n) n w2)
      (fun n w => Some (w <| availabilityFanOutActive_ := false |>))).
    eapply tot_mono; [apply (totLoop_diag (fun n k => availabilityLoop (send n) k w2)),
      (availabilityLoop_one w2 _ Hj HI2 eq_refl Hp2)|].
    intros w3 ((E & I & N & C) & Hp3 & D). apply tot_ret.
    assert (Ev : evolve w (w3 <| availabilityFanOutActive_ := false |>)).
    { destruct E. by split. }
    split.
    + split_and!; [done|by apply flag_Inv|exact N|exact C].
    + intros _. destruct D as [D|D]; [left; exact D|right; exact D].
Qed.

(** *** Reconciling *)

Lemma channelState_provider ref r c : channelState ref r = Some c ->
  providerExists ref.1 r = true.
Proof.
  unfold channelState, providerExists. intros H. apply bool_decide_true.
  destruct (providers_ r !! ref.1); [eauto|done].
Qed.

Lemma currentBoundary_eq ref w :
  currentBoundary ref w =
    match definitionOf ref (registry_ w) with
    | Some d => mkBoundary true None_ (Some d)
    | None => mkBoundary false (if providerExists ref.1 (registry_ w)
                                then ChannelAbsent else ProviderAbsent) None
    end.
Proof.
  unfold currentBoundary. destruct (providerExists ref.1 (registry_ w)) eqn:E; simpl; [done|].
  unfold definitionOf. destruct (channelState ref (registry_ w)) eqn:Ec; [|done].
  apply channelState_provider in Ec. congruence.
Qed.

Lemma currentBoundary_ok ref w : boundaryOk (currentBoundary ref w).
Proof.
  rewrite currentBoundary_eq. destruct (definitionOf ref (registry_ w)); intros H; [|done].
  by destruct H.
Qed.

Lemma currentBoundary_agrees ref w : agrees (registry_ w) ref (currentBoundary ref w).
Proof.
  rewrite currentBoundary_eq. unfold agrees. destruct (definitionOf ref (registry_ w)); [|done].
  split; [done|]. eauto.
Qed.

(** What [reconciled] announces: the current state, or an unavailable boundary. *)
Lemma reconciled_spec last ref w : (forall l, last = Some l -> boundaryOk l) ->
  let b := reconciled last ref w in
  boundaryOk b /\ (b = currentBoundary ref w
    \/ available b = false /\ definitionOf ref (registry_ w) = None).
Proof.
  intros Hl b. unfold b, reconciled. clear b. cbv zeta.
  pose proof (currentBoundary_ok ref w) as Hc.
  destruct last as [l|]; [|by auto]. specialize (Hl l eq_refl).
  rewrite currentBoundary_eq in Hc |- *.
  destruct (definitionOf ref (registry_ w)) as [d|]; [by auto|]. cbn [available].
  assert (Hkeep : forall x y, x <> None_ -> y <> None_ ->
    (bool_decide (b_reason l = x) || bool_decide (b_reason l = y))%bool = true ->
    available l = false).
  { intros x y Hx Hy H. apply Hl. apply orb_prop in H as [H|H];
      apply bool_decide_eq_true in H; by rewrite H. }
  destruct (providerExists ref.1 (registry_ w)); cbn [andb negb orb];
    match goal with |- context [if ?c then l else _] => destruct c eqn:E end;
    (split; [done|]); auto; right; (split; [by eapply Hkeep in E|done]).
Qed.

Lemma boundaryEq_spec l b : boundaryEq l b = true ->
  available l = available b /\ optionDefinitionEq (b_definition l) (b_definition b) = true.
Proof.
  unfold boundaryEq. intros H. breflect. split; [by apply eqb_prop|done].
Qed.

(** A belief near what is announced agrees with the registry. *)
Lemma near_agrees ref w o b :
  (b = currentBoundary ref w \/ available b = false /\ definitionOf ref (registry_ w) = None) ->
  near o b -> exists l, o = Some l /\ agrees (registry_ w) ref l.
Proof.
  intros Hb (l & -> & Hl). exists l. split; [done|].
  destruct Hl as [->|Hl].
  - destruct Hb as [->|[H1 H2]]; [apply currentBoundary_agrees|]. unfold agrees. by rewrite H2.
  - apply boundaryEq_spec in Hl as [H1 H2]. destruct Hb as [->|[H3 H4]].
    + rewrite currentBoundary_eq in H1, H2. unfold agrees.
      destruct (definitionOf ref (registry_ w)) as [d|]; simpl in *; [|done]. split; [done|].
      destruct (b_definition l) as [d'|]; [|done]. eauto.
    + unfold agrees. rewrite H4. congruence.
Qed.

(** Session [sid], if it is there and subscribed, knows the truth about [ref]. *)
Definition knows (w : W) (i : nat * ChannelRef) : Prop :=
  forall st, i.1 ∈ ready w -> sessions_ w !! i.1 = Some st -> i.2 ∈ subscriptions st ->
    exists b, lastAvailability st !! i.2 = Some b /\ agrees (registry_ w) i.2 b.

(** The interests [done] of the loop so far. *)
Definition progress (w0 : W) (done : list (nat * ChannelRef)) (w : W) : Prop :=
  fanPost w0 w /\ (availabilityFanOutActive_ w0 = false ->
    pendingCatalogs_ w <> [] \/ Forall (knows w) done).

Lemma knows_toldAll ref b w w' i : ready w' ⊆ ready w ->
  (b = currentBoundary ref w \/ available b = false /\ definitionOf ref (registry_ w) = None) ->
  toldAll ref b w w' -> knows w i \/ i.2 = ref -> knows w' i.
Proof.
  intros Hr Hb [Ereg Hs] Hk st' Hi Hst Href.
  destruct (Hs _ _ Hi Hst) as (st & Hst0 & [Esub _] & L & N). rewrite Ereg.
  destruct (decide (i.2 = ref)) as [<-|Hne].
  - destruct (near_agrees i.2 w _ b Hb (N Href)) as (l & El & Hl). eauto.
  - destruct Hk as [Hk|]; [|done]. rewrite L by done. apply (Hk st); [set_solver|done|].
    by rewrite <- Esub.
Qed.

Lemma reconcileOne_spec w0 dn i w : catalogFanOutActive_ w0 = true ->
  (size (ready w0) <= j)%nat -> progress w0 dn w ->
  tot (fun n => reconcileOne (send n) n i w) (progress w0 (dn ++ [i])).
Proof.
  intros Hcat Hj (F & P). destruct i as [sid ref]. assert (E := proj1 F).
  assert (HI : Inv w) by apply F. pose proof (evolve_size _ _ E) as Hsz.
  assert (Hskip : knows w (sid, ref) -> progress w0 (dn ++ [(sid, ref)]) w).
  { intros Hk. split; [done|]. intros Ha. destruct (P Ha) as [|Hd]; [by left|right].
    apply Forall_app. split; [done|]. by apply Forall_singleton. }
  unfold reconcileOne, isReady, subscribed.
  destruct (bool_decide_reflect (sid ∈ ready w)) as [Hr|Hr]; simpl.
  2: { apply tot_ret, Hskip. by intros st ?. }
  destruct (sessions_ w !! sid) as [st|] eqn:Hs.
  2: { apply tot_ret, Hskip. intros st _ ?. simpl in *. congruence. }
  destruct (bool_decide_reflect (ref ∈ subscriptions st)) as [Href|Href]; simpl.
  2: { apply tot_ret, Hskip. intros st' _ ?. simpl in *. congruence. }
  cbv zeta. destruct (reconciled_spec (lastAvailability st !! ref) ref w) as [Hb Hcur].
  { intros l Hl. by destruct (inv_last _ HI _ _ _ _ Hs Hl) as (_ & ? & _). }
  destruct (match lastAvailability st !! ref with Some l => _ | None => _ end) eqn:El.
  { apply tot_ret, Hskip. intros st' _ Hst' _. simpl in *. simplify_eq.
    apply (near_agrees ref w _ _ Hcur).
    destruct (lastAvailability st !! ref) as [l|] eqn:Ell; [|done]. exists l. auto. }
  eapply tot_mono; [apply fanOutAvailability_spec; [lia|done|done]|].
  intros w' [F' T]. assert (E' := proj1 F'). split; [by eapply fanPost_trans|]. intros Ha.
  destruct F' as (_ & _ & NZ & _). rewrite (ev_cat _ _ E) in NZ.
  destruct (P Ha) as [Hne|Hd]; [by left; apply NZ|].
  destruct T as [T|T]; [by rewrite (ev_avail _ _ E)| |].
  - right. apply Forall_app. split; [|apply Forall_singleton].
    + eapply Forall_impl; [done|]. intros i Hk. eapply knows_toldAll; [apply E'|done|done|by left].
    + eapply knows_toldAll; [apply E'|done|done|by right].
  - left. apply T. by rewrite (ev_cat _ _ E).
Qed.

Lemma elem_interests w sid st ref : sessions_ w !! sid = Some st -> ref ∈ subscriptions st ->
  (sid, ref) ∈ interests w.
Proof.
  intros Hs Hr. unfold interests. apply list_elem_of_In, List.in_concat.
  exists (map (pair sid) (elements (subscriptions st))). split.
  - apply List.in_map_iff. exists (sid, st). split; [done|]. apply list_elem_of_In.
    by apply elem_of_map_to_list.
  - apply List.in_map. apply list_elem_of_In. by apply elem_of_elements.
Qed.

Lemma reconcile_spec w : catalogFanOutActive_ w = true -> (size (ready w) <= j)%nat -> Inv w ->
  tot (fun n => reconcileAvailability (send n) n w)
    (fun w' => fanPost w w' /\ (availabilityFanOutActive_ w = false ->
       pendingCatalogs_ w' <> [] \/ consistent w')).
Proof.
  intros Hcat Hj HI. unfold reconcileAvailability.
  eapply tot_mono; [apply (tot_forEach (fun n => reconcileOne (send n) n)
    (fun r w' => exists p, interests w = p ++ r /\ progress w p w'))|].
  - exists []. split; [done|]. split; [by apply fanPost_refl|]. intros _. by right.
  - intros i r w1 (p & E & H1). eapply tot_mono; [by apply reconcileOne_spec|].
    intros w2 H2. exists (p ++ [i]). rewrite <- app_assoc. by split.
  - intros w' (p & E & F & P). rewrite app_nil_r in E. subst p. split; [done|].
    intros Ha. destruct (P Ha) as [|Hk]; [by left|right]. intros sid st' ref Hr Hst Href.
    right. destruct (ev_sess _ _ (proj1 F) _ _ Hr Hst) as (st & Hst0 & Esub & _).
    rewrite Forall_forall in Hk. apply (Hk (sid, ref)); [|done..].
    eapply elem_interests; [done|]. simpl. by rewrite <- Esub.
Qed.

(** *** Catalog fan-outs *)

Lemma send_all {A} (f : nat -> A -> W -> option W) (l : list A) w :
  (forall a w, (size (ready w) <= j)%nat -> Inv w -> tot (fun n => f n a w) (sendPost w)) ->
  (size (ready w) <= j)%nat -> Inv w -> tot (fun n => forEach (f n) l w) (sendPost w).
Proof.
  intros Hf Hj HI. apply (tot_forEach f (fun _ w' => sendPost w w')); [by apply sendPost_refl|].
  intros a _ w1 H1. pose proof (evolve_size _ _ (proj1 H1)).
  eapply tot_mono; [apply Hf; [lia|apply H1]|]. intros w2 H2. by eapply sendPost_trans.
Qed.

Lemma deliverCatalog_spec c sid w : (size (ready w) <= j)%nat -> Inv w ->
  tot (fun n => deliverCatalog (send n) c sid w) (sendPost w).
Proof.
  intros Hj HI. unfold deliverCatalog, sendCatalogEvent.
  assert (H0 : tot (fun _ => Some w) (sendPost w)) by (by apply tot_ret, sendPost_refl).
  destruct (negb (isReady sid w)); [done|]. destruct (sessions_ w !! sid) as [st|]; [|done].
  destruct (negb (watchesCatalog st)); [done|]. by apply send_plain.
Qed.

Lemma catalogLoop_eq snd n k w :
  catalogLoop snd n k w =
    match pendingCatalogs_ w with
    | [] => Some w
    | c :: rest =>
        match k with
        | O => None
        | S k =>
            w ← (w ← reconcileAvailability snd n (w <| pendingCatalogs_ := rest |>);
                 forEach (deliverCatalog snd c) (sessionsWith watchesCatalog w) w);
            catalogLoop snd n k w
        end
    end.
Proof.
  destruct k; simpl; [done|]. destruct (pendingCatalogs_ w) as [|c rest]; [done|].
  by destruct (reconcileAvailability _ _ _).
Qed.

(** One round of the loop. *)
Lemma catalogRound w c rest : (size (ready w) <= j)%nat -> Inv w ->
  catalogFanOutActive_ w = true -> pendingCatalogs_ w = c :: rest ->
  tot (fun n => w ← reconcileAvailability (send n) n (w <| pendingCatalogs_ := rest |>);
                forEach (deliverCatalog (send n) c) (sessionsWith watchesCatalog w) w)
    (fun w' => evolve w w' /\ Inv w'
       /\ (ready w' = ready w -> pendingCatalogs_ w' = rest)
       /\ (availabilityFanOutActive_ w = false -> pendingCatalogs_ w' <> [] \/ consistent w')).
Proof.
  intros Hj HI Hc Hp. set (w1 := w <| pendingCatalogs_ := rest |>).
  assert (HI1 : Inv w1). { destruct HI. split; try done. simpl. congruence. }
  assert (E1 : evolve w w1) by (split; try done; intros s st' _ H; by exists st').
  apply (tot_bind (fun n => reconcileAvailability (send n) n w1) (fun n w =>
    forEach (deliverCatalog (send n) c) (sessionsWith watchesCatalog w) w)).
  eapply tot_mono; [by apply reconcile_spec|].
  intros w2 ((E2 & I2 & NZ2 & C2) & P2). pose proof (evolve_size _ _ E2) as Hsz. simpl in Hsz.
  eapply tot_mono; [apply (send_all (fun n => deliverCatalog (send n) c)); [|lia|done];
    intros; by apply deliverCatalog_spec|].
  intros w3 (E3 & I3 & D3). pose proof (ev_ready _ _ E3). pose proof (ev_ready _ _ E2).
  split_and!; [eapply evolve_trans; [done|]; by eapply evolve_trans|done| |].
  - intros Er. destruct (ready_squeeze (ready w1) (ready w2) (ready w3)) as [Q1 Q2]; [done..|].
    destruct D3 as [U|(N & _)]; [|by destruct N]. rewrite (un_cat _ _ U). by apply C2.
  - intros Ha. destruct D3 as [U|(_ & P & _)].
    + rewrite (un_cat _ _ U). destruct (P2 Ha); [by left|right]. by eapply undisturbed_consistent.
    + left. apply P. by rewrite (ev_cat _ _ E2).
Qed.

Lemma catalogLoop_spec w : (size (ready w) <= j)%nat -> Inv w ->
  catalogFanOutActive_ w = true ->
  (availabilityFanOutActive_ w = false -> pendingCatalogs_ w <> [] \/ consistent w) ->
  totLoop (fun n k => catalogLoop (send n) n k w)
    (fun w' => evolve w w' /\ Inv w' /\ pendingCatalogs_ w' = []
       /\ (availabilityFanOutActive_ w = false -> consistent w')).
Proof.
  intros Hj HI Ha Hpre. remember (size (ready w)) as s eqn:Es.
  revert w Es HI Ha Hj Hpre. induction (lt_wf s) as [s _ IHs]. intros w Es HI Ha Hj Hpre.
  remember (length (pendingCatalogs_ w)) as p eqn:Ep.
  revert w Es Ep HI Ha Hpre. induction p as [|p IHp]; intros w Es Ep HI Ha Hpre;
    destruct (pendingCatalogs_ w) as [|c rest] eqn:Hp; try done;
    (eapply totLoop_ext; [intros; by rewrite catalogLoop_eq, Hp|]).
  { apply totLoop_ret. split_and!; [apply evolve_refl|done|done|].
    intros Hav. by destruct (Hpre Hav). }
  apply (totLoop_step (fun n =>
      w ← reconcileAvailability (send n) n (w <| pendingCatalogs_ := rest |>);
      forEach (deliverCatalog (send n) c) (sessionsWith watchesCatalog w) w)
    (fun n k w => catalogLoop (send n) n k w)).
  eapply tot_mono; [apply catalogRound; [lia|done..]|].
  intros w2 (E2 & I2 & K2 & P2). pose proof (evolve_size _ _ E2) as Hsz.
  assert (Ha2 : catalogFanOutActive_ w2 = true) by (by rewrite (ev_cat _ _ E2)).
  assert (Hgo : totLoop (fun n k => catalogLoop (send n) n k w2)
     (fun w' => evolve w2 w' /\ Inv w' /\ pendingCatalogs_ w' = []
       /\ (availabilityFanOutActive_ w2 = false -> consistent w'))).
  { rewrite <- (ev_avail _ _ E2) in P2.
    destruct (decide (size (ready w2) = s)) as [Heq|Hne].
    - apply IHp; auto. rewrite K2; [simpl in *; congruence|].
      apply same_ready; [apply E2|lia].
    - eapply IHs; [|done|done|done| |done]; lia. }
  destruct Hgo as (N & w3 & H1 & E3 & I3 & H3 & H4). exists N, w3. split; [done|].
  rewrite (ev_avail _ _ E2) in H4. split_and!; [by eapply evolve_trans|done..].
Qed.

Lemma fanOutCatalog_spec c w : (size (ready w) <= j)%nat -> Inv w ->
  tot (fun n => fanOutCatalog (send n) n c w)
    (fun w' => evolve w w' /\ Inv w' /\ pendingCatalog w w'
       /\ (catalogFanOutActive_ w = false -> availabilityFanOutActive_ w = false -> consistent w')).
Proof.
  intros Hj HI. unfold fanOutCatalog. cbv zeta.
  set (w1 := w <| pendingCatalogs_ ::= fun l => l ++ [c] |>).
  change (catalogFanOutActive_ w1) with (catalogFanOutActive_ w).
  destruct (catalogFanOutActive_ w) eqn:Ha.
  - apply tot_ret. split_and!; [|destruct HI; split; try done; simpl; congruence| |done].
    + split; try done. intros s st' _ H. by exists st'.
    + intros _ Hn. simpl in Hn. by apply app_nil in Hn as [_ ?].
  - set (w2 := w1 <| catalogFanOutActive_ := true |>).
    assert (HI2 : Inv w2) by (destruct HI; by split).
    apply (tot_bind (fun n => catalogLoop (send n) n n w2)
      (fun n w => Some (w <| catalogFanOutActive_ := false |>))).
    eapply tot_mono; [apply (totLoop_diag (fun n k => catalogLoop (send n) n k w2)),
      (catalogLoop_spec w2 Hj HI2 eq_refl)|].
    + intros _. left. simpl. intros Hn. by apply app_nil in Hn as [_ ?].
    + intros w3 (E & I & Hp3 & D). apply tot_ret. split_and!.
      * destruct E. by split.
      * destruct I. by split.
      * unfold pendingCatalog. by rewrite Ha.
      * intros _ Hb. exact (D Hb).
Qed.

(** *** Values and signals *)

Lemma sendValues_spec sid ns l w : (size (ready w) <= j)%nat -> Inv w ->
  tot (fun n => sendValues (send n) sid ns l w) (sendPost w).
Proof.
  intros Hj HI. unfold sendValues. destruct (bool_decide (l = [])).
  - by apply tot_ret, sendPost_refl.
  - by apply send_plain.
Qed.

Lemma fanOutValues_spec ns l w : (size (ready w) <= j)%nat -> Inv w ->
  tot (fun n => fanOutValues (send n) ns l w) (sendPost w).
Proof.
  intros Hj HI. apply (send_all (fun n => deliverValues (send n) ns l)); [|done..].
  intros sid w1 Hj1 HI1. unfold deliverValues.
  assert (H0 : tot (fun _ => Some w1) (sendPost w1)) by (by apply tot_ret, sendPost_refl).
  destruct (negb (isReady sid w1)); [done|]. destruct (sessions_ w1 !! sid) as [st|]; [|done].
  cbv zeta. destruct (bool_decide (wanted ns l st = [])); [done|]. by apply sendValues_spec.
Qed.

(** Announcements of availability keep the world sound. *)
Lemma raise_availability l w : (size (ready w) <= j)%nat -> Inv w -> Forall isAvailability l ->
  tot (fun n => forEach (raise (send n) n) l w) (fun w' => evolve w w' /\ Inv w').
Proof.
  intros Hj HI Hl.
  eapply tot_mono; [apply (tot_forEach (fun n => raise (send n) n)
    (fun r w' => (evolve w w' /\ Inv w') /\ Forall isAvailability r))|by intros w' [? _]].
  - split; [split; [apply evolve_refl|done]|done].
  - intros s r w1 [[E1 I1] [Hs Hr]%Forall_cons]. pose proof (evolve_size _ _ E1).
    destruct s as [|ref av rs|]; [done| |done]. simpl.
    eapply tot_mono; [apply fanOutAvailability_spec; [lia|done|]|].
    + intros Hne. simpl in *. by destruct av.
    + intros w2 [F _]. split; [|done]. split; [eapply evolve_trans; [done|]|]; apply F.
Qed.

Lemma forEach_app {A} (f : A -> W -> option W) l1 l2 w :
  forEach f (l1 ++ l2) w = (w ← forEach f l1 w; forEach f l2 w).
Proof.
  induction l1 as [|a l1 IH] in w |- *; simpl; [done|].
  destruct (f a w); simpl; [apply IH|done].
Qed.

Lemma tot_ext (m m' : nat -> option W) Q : (forall n, m n = m' n) -> tot m' Q -> tot m Q.
Proof. intros He (N & w & H1 & H2). exists N, w. split; [|done]. intros. rewrite He. auto. Qed.

(** A change of the catalog: its announcements, then the catalog. *)
Lemma raise_change avs w : (size (ready w) <= j)%nat -> Inv w -> Forall isAvailability avs ->
  tot (fun n => forEach (raise (send n) n) (avs ++ [catalogChanged]) w)
    (fun w' => evolve w w' /\ Inv w' /\ pendingCatalog w w'
       /\ (catalogFanOutActive_ w = false -> availabilityFanOutActive_ w = false -> consistent w')).
Proof.
  intros Hj HI Ha. eapply tot_ext; [intros; apply forEach_app|].
  apply (tot_bind (fun n => forEach (raise (send n) n) avs w)
    (fun n w => forEach (raise (send n) n) [catalogChanged] w)).
  eapply tot_mono; [by apply raise_availability|]. intros w1 [E1 I1]. simpl.
  pose proof (evolve_size _ _ E1).
  apply (tot_bind (fun n => fanOutCatalog (send n) n (catalog (registry_ w1)) w1)
    (fun _ w => Some w)).
  eapply tot_mono; [apply fanOutCatalog_spec; [lia|done]|].
  intros w2 (E2 & I2 & P2 & C2). apply tot_ret. unfold pendingCatalog in *.
  rewrite (ev_cat _ _ E1), (ev_avail _ _ E1) in *. split_and!; [by eapply evolve_trans|done..].
Qed.

(** *** The end of a session *)

Lemma close_one sid w : (size (ready w) <= S j)%nat -> Inv w ->
  tot (fun n => endSession (send n) n sid w) (sendPost w).
Proof.
  intros Hj HI. unfold endSession, isReady.
  destruct (bool_decide_reflect (sid ∈ ready w)) as [Hr|Hr];
    [|by apply tot_ret, sendPost_refl].
  unfold sessionClosed. simpl.
  destruct (removeOwner_tells sid (registry_ w) (inv_reg _ HI)) as (Hsig & Ht & Ho).
  pose proof (removeOwner_wf sid _ (inv_reg _ HI)) as Hwf.
  destruct (removeOwner sid (registry_ w)) as [r sig]. simpl in Hsig, Ht, Ho, Hwf.
  match goal with |- tot (fun n => forEach _ sig ?x) _ => set (w1 := x) end.
  assert (Hr1 : ready w1 = ready w ∖ {[sid]}) by done.
  assert (Hreg : forall ns p, providers_ r !! ns = Some p ->
    providers_ (registry_ w) !! ns = Some p).
  { intros ns p Hp. apply Ht; [by eapply Ho|done]. }
  assert (HI1 : Inv w1).
  { pose proof Ho as Ho'. destruct HI. split; try done; simpl.
    - intros ns p Hp. apply elem_of_difference. split; [by eapply inv_owner0, Hreg|].
      rewrite elem_of_singleton. by eapply Ho'.
    - intros s st Hst. apply lookup_delete_Some in Hst as [Hne Hst].
      destruct (inv_sess0 _ _ Hst) as [|?]; [left; set_solver|by right].
    - intros s st ref b Hst. apply lookup_delete_Some in Hst as [Hne Hst]. by eapply inv_last0. }
  assert (E1 : evolve w w1).
  { split; try done; simpl; [set_solver|].
    intros s st' Hs Hst. apply lookup_delete_Some in Hst as [_ Hst]. by exists st'. }
  assert (Hlt : (size (ready w1) < size (ready w))%nat).
  { rewrite Hr1. apply subset_size. set_solver. }
  assert (Hne : forall w', evolve w1 w' -> ready w' <> ready w).
  { intros w' E' E. pose proof (ev_ready _ _ E') as H. rewrite E, Hr1 in H. set_solver. }
  destruct Hsig as [[= -> ->]|(avs & -> & Hav)].
  - apply tot_ret. split_and!; [done|done|left]. split; try done.
    intros s Hs. simpl. rewrite lookup_delete_ne; [done|]. rewrite Hr1 in Hs. set_solver.
  - eapply tot_mono; [apply raise_change; [lia|done|done]|].
    intros w2 (E2 & I2 & P2 & C2). split_and!; [by eapply evolve_trans|done|right].
    split_and!; [by apply Hne|exact P2|exact C2].
Qed.

End Bounded.

Lemma CloseOK_all j : CloseOK j.
Proof.
  induction j as [|j IH]; intros w l Hj HI.
  - apply (tot_forEach (fun n => endSession (send n) n) (fun _ w' => sendPost w w'));
      [by apply sendPost_refl|].
    intros sid _ w1 H1. unfold endSession, isReady.
    rewrite bool_decide_false; [by apply tot_ret|]. intros Hin. apply (ev_ready _ _ (proj1 H1)) in Hin.
    apply Nat.le_0_r, size_empty_inv in Hj. set_solver.
  - apply (tot_forEach (fun n => endSession (send n) n) (fun _ w' => sendPost w w'));
      [by apply sendPost_refl|].
    intros sid _ w1 H1. pose proof (evolve_size _ _ (proj1 H1)).
    eapply tot_mono; [apply (close_one j IH); [lia|apply H1]|].
    intros w2 H2. by eapply sendPost_trans.
Qed.

(** *** Between requests *)

Definition idle (w : W) : Prop :=
  Inv w /\ catalogFanOutActive_ w = false /\ availabilityFanOutActive_ w = false.

Definition settled (w : W) : Prop := idle w /\ consistent w.

Lemma consistent_but X w : consistent w -> consistentBut X w.
Proof. intros Hc sid st ref H1 H2 H3. destruct (Hc sid st ref H1 H2 H3) as [[]|]. by right. Qed.

Lemma idle_post w w' : idle w -> sendPost w w' ->
  idle w' /\ forall X, consistentBut X w -> consistentBut X w'.
Proof.
  intros (HI & Hc & Ha) (E & I & D). split.
  { split_and!; [done|by rewrite (ev_cat _ _ E)|by rewrite (ev_avail _ _ E)]. }
  intros X HX. destruct D as [U|(_ & _ & C)]; [by eapply undisturbed_consistent|].
  apply consistent_but. auto.
Qed.

Lemma settled_post w w' : settled w -> sendPost w w' -> settled w'.
Proof. intros [HI Hc] H. destruct (idle_post w w' HI H) as [H1 H2]. split; auto. Qed.

Lemma send_ok sid id m w : Inv w -> plain m -> tot (fun n => send n sid id m w) (sendPost w).
Proof. intros. by apply (send_plain (size (ready w)) (CloseOK_all _)). Qed.

Lemma send_settled sid id m w : settled w -> plain m ->
  tot (fun n => send n sid id m w) settled.
Proof.
  intros Hs Hm. eapply tot_mono; [apply send_ok; [apply Hs|done]|]. intros w' H.
  by eapply settled_post.
Qed.

Lemma endSession_settled sid w : settled w ->
  tot (fun n => endSession (send n) n sid w) settled.
Proof.
  intros Hs. eapply tot_mono; [apply (close_one _ (CloseOK_all (size (ready w)))); [lia|apply Hs]|].
  intros w' H. by eapply settled_post.
Qed.

Lemma closeWithError_settled sid id code text w : settled w ->
  tot (fun n => closeWithError ends n sid id code text w) settled.
Proof.
  intros Hs. apply (tot_bind (fun n => send n sid id (Error code text) w)
    (fun n w => endSession (send n) n sid w)).
  eapply tot_mono; [by apply send_settled|]. intros w' H. by apply endSession_settled.
Qed.

(** An operation of the registry by a ready session, with its signals. *)
Lemma signalAll_settled sid r sig w : settled w -> sid ∈ ready w -> wf r ->
  announces (registry_ w) r sig -> touches sid (registry_ w) r ->
  tot (fun n => signalAll ends n sig (w <| registry_ := r |>)) settled.
Proof.
  intros [(HI & Hc & Ha) Hcons] Hr Hwf Han Ht.
  assert (HI1 : Inv (w <| registry_ := r |>)).
  { destruct HI. split; try done. simpl. intros ns p Hp.
    destruct (decide (owner p = sid)) as [->|Hne]; [done|]. eapply inv_owner0. by apply Ht. }
  set (w1 := w <| registry_ := r |>) in *.
  assert (Hi1 : idle w1) by done. unfold signalAll.
  destruct Han as [[[Hd He] Hsig]|(avs & -> & Hav)].
  - assert (Hc1 : consistent w1).
    { intros s st ref H1 H2 H3. destruct (Hcons s st ref H1 H2 H3) as [[]|(b & Hb & Hag)].
      right. exists b. split; [done|]. unfold agrees in *. simpl. by rewrite Hd. }
    destruct sig as [|[| |ns l] [|]]; try done; [by apply tot_ret|]. simpl.
    apply (tot_bind (fun n => fanOutValues (send n) ns l w1) (fun _ w => Some w)).
    eapply tot_mono; [apply (fanOutValues_spec _ (CloseOK_all (size (ready w1)))); [done|apply Hi1]|].
    intros w2 H2. apply tot_ret. by eapply settled_post.
  - eapply tot_mono; [apply (raise_change _ (CloseOK_all (size (ready w1)))); [done|apply Hi1|done]|].
    intros w2 (E & I & _ & C). split; [|by apply C]. split_and!; [done| |].
    + by rewrite (ev_cat _ _ E).
    + by rewrite (ev_avail _ _ E).
Qed.

(** Changing a session's record, not its subscriptions or beliefs. *)
Lemma updSession_settled sid f w : settled w ->
  (forall s, subscriptions (f s) = subscriptions s /\ lastAvailability (f s) = lastAvailability s) ->
  (sid ∈ ready w \/ forall s, watchesCatalog (f s) = watchesCatalog s) ->
  settled (updSession sid f w).
Proof.
  intros [(HI & Hc & Ha) Hcons] Hf Hw. unfold updSession.
  assert (Hs : forall s st, <[sid := f (sessionOf sid w)]> (sessions_ w) !! s = Some st ->
    sessions_ w !! s = Some st \/ s = sid /\ st = f (sessionOf sid w)).
  { intros s st. destruct (decide (sid = s)) as [->|].
    - rewrite lookup_insert_eq. intros [= <-]. by right.
    - rewrite lookup_insert_ne by done. by left. }
  assert (Hold : sessionOf sid w = newSession \/ sessions_ w !! sid = Some (sessionOf sid w)).
  { unfold sessionOf. destruct (sessions_ w !! sid); auto. }
  destruct (Hf (sessionOf sid w)) as [Hsub Hlast].
  split; [split_and!; [|done|done]|].
  - destruct HI. split; try done; simpl.
    + intros s st [Hst|[-> ->]]%Hs; [by apply inv_sess0|].
      destruct Hw as [Hw|Hw]; [by left|]. rewrite Hsub, Hw.
      destruct Hold as [->|Hold]; [by right|by apply inv_sess0].
    + intros s st ref b [Hst|[-> ->]]%Hs; [by apply inv_last0|]. rewrite Hlast, Hsub.
      destruct Hold as [->|Hold]; [done|by apply inv_last0].
  - intros s st ref Hr [Hst|[-> ->]]%Hs Href; [by apply (Hcons s)|]. rewrite Hsub in Href.
    rewrite Hlast. destruct Hold as [E|Hold]; [by rewrite E in Href|by apply (Hcons sid)].
Qed.

Lemma handleRegister_settled sid id p w : settled w -> sid ∈ ready w ->
  tot (fun n => handleRegister ends n sid id p w) settled.
Proof.
  intros Hs Hr. assert (Hwf := inv_reg _ (proj1 (proj1 Hs))). unfold handleRegister.
  pose proof (registerProvider_wf sid (providerFromProto p) _ Hwf) as H1.
  destruct (registerProvider_tells sid (providerFromProto p) _ Hwf) as [H2 H3].
  destruct (registerProvider _ _ _) as [[r sig] res]. simpl in H1, H2, H3.
  apply (tot_bind (fun n => signalAll ends n sig (w <| registry_ := r |>)) (fun n w => send n sid id
    (RegisterDataProviderResponse (accepted res) (reason res))
    (if accepted res then updSession sid (fun s => s <| s_providerNamespace := provider_namespace p |>) w
     else w))).
  eapply tot_mono; [by eapply signalAll_settled|]. intros w1 Hs1. apply send_settled; [|done].
  destruct (accepted res); [|done]. apply updSession_settled; [done|done|by right].
Qed.

Lemma handleDeclare_settled sid id l w : settled w -> sid ∈ ready w ->
  tot (fun n => handleDeclare ends n sid id l w) settled.
Proof.
  intros Hs Hr. assert (Hwf := inv_reg _ (proj1 (proj1 Hs))). unfold handleDeclare.
  pose proof (declareChannels_wf sid (map channelFromProto l) _ Hwf) as H1.
  destruct (declareChannels_tells sid (map channelFromProto l) _ Hwf) as [H2 H3].
  destruct (declareChannels _ _ _) as [[r sig] res]. simpl in H1, H2, H3.
  apply (tot_bind (fun n => signalAll ends n sig (w <| registry_ := r |>)) (fun n w => send n sid id
    (DeclareDataChannelsResponse (map (fun d => (d_channelName d, d_accepted d, d_reason d)) res)) w)).
  eapply tot_mono; [by eapply signalAll_settled|]. intros w1 Hs1. by apply send_settled.
Qed.

Lemma handleRemove_settled sid id l w : settled w -> sid ∈ ready w ->
  tot (fun n => handleRemove ends n sid id l w) settled.
Proof.
  intros Hs Hr. assert (Hwf := inv_reg _ (proj1 (proj1 Hs))). unfold handleRemove.
  pose proof (removeChannels_wf sid l _ Hwf) as H1.
  destruct (removeChannels_tells sid l _ Hwf) as [H2 H3].
  destruct (removeChannels _ _ _) as [r sig]. simpl in H1, H2, H3.
  apply (tot_bind (fun n => signalAll ends n sig (w <| registry_ := r |>))
    (fun n w => send n sid id Ack w)).
  eapply tot_mono; [by eapply signalAll_settled|]. intros w1 Hs1. by apply send_settled.
Qed.

Lemma handlePublish_settled now sid id l w : settled w -> sid ∈ ready w ->
  tot (fun n => handlePublish ends n now sid id l w) settled.
Proof.
  intros Hs Hr. assert (Hwf := inv_reg _ (proj1 (proj1 Hs))). unfold handlePublish.
  destruct (negb (id =? 0)); [by apply tot_ret|]. cbv zeta.
  match goal with |- context [publish now sid ?l0 _] => set (l' := l0) end.
  pose proof (publish_wf now sid l' _ Hwf) as H1.
  destruct (publish_tells now sid l' _ Hwf) as [H2 H3].
  destruct (publish now sid l' _) as [[r sig] res]. simpl in H1, H2, H3.
  by eapply signalAll_settled.
Qed.

Lemma handleWatchCatalog_settled sid id b w : settled w -> sid ∈ ready w ->
  tot (fun n => handleWatchCatalog ends n sid id b w) settled.
Proof.
  intros Hs Hr. unfold handleWatchCatalog.
  set (w1 := updSession sid (fun s => s <| watchesCatalog := b |>) w).
  assert (Hs1 : settled w1) by (apply updSession_settled; [done|done|by left]).
  apply (tot_bind (fun n => send n sid id Ack w1) (fun n w =>
    if b && isReady sid w
       && match sessions_ w !! sid with Some s => watchesCatalog s | None => false end
    then sendCatalogEvent (send n) sid (catalog (registry_ w)) w else Some w)).
  eapply tot_mono; [by apply send_settled|]. intros w2 Hs2.
  destruct (_ && match _ with _ => _ end); [by apply send_settled|by apply tot_ret].
Qed.

(** *** Subscribing *)

(** Only [sid] may not know about the references [l]. *)
Definition awaiting (sid : nat) (l : list ChannelRef) (s : nat) (r : ChannelRef) : Prop :=
  s = sid /\ r ∈ l.

Lemma awaiting_gone sid l w : sid ∉ ready w -> consistentBut (awaiting sid l) w -> consistent w.
Proof.
  intros Hr Hc s st ref H1 H2 H3. destruct (Hc s st ref H1 H2 H3) as [[-> _]|]; [done|by right].
Qed.

Lemma awaiting_skip sid r l w : consistentBut (awaiting sid (r :: l)) w ->
  (forall st, sessions_ w !! sid = Some st -> r ∈ subscriptions st ->
     exists b, lastAvailability st !! r = Some b /\ agrees (registry_ w) r b) ->
  consistentBut (awaiting sid l) w.
Proof.
  intros Hc Hk s st ref H1 H2 H3. destruct (Hc s st ref H1 H2 H3) as [[-> Hin]|]; [|by right].
  destruct (decide (ref = r)) as [->|Hne]; [right; by apply Hk|].
  left. split; [done|]. by apply elem_of_cons in Hin as [|].
Qed.

(** Telling the subscriber the current state of [r]. *)
Lemma announce_current sid r l rev w st : idle w -> sid ∈ ready w ->
  sessions_ w !! sid = Some st -> r ∈ subscriptions st ->
  consistentBut (awaiting sid (r :: l)) w ->
  idle (announced sid r (currentBoundary r w) rev w)
  /\ consistentBut (awaiting sid l) (announced sid r (currentBoundary r w) rev w).
Proof.
  intros (HI & Hc & Ha) Hr Hs Href Hcons. split.
  { split_and!; [|done|done]. eapply announced_Inv; eauto using currentBoundary_ok. }
  intros s st' ref H1. rewrite (announced_session _ _ _ _ _ _ _ Hs).
  destruct (decide (s = sid)) as [->|Hne].
  - intros [= <-]. simpl. intros Href'. destruct (decide (ref = r)) as [->|Hner].
    + right. exists (currentBoundary r w). rewrite lookup_insert_eq.
      split; [done|]. apply currentBoundary_agrees.
    + destruct (Hcons sid st ref Hr Hs Href') as [[_ Hin]|Hk].
      * left. split; [done|]. by apply elem_of_cons in Hin as [|].
      * right. by rewrite lookup_insert_ne.
  - intros H2 H3. destruct (Hcons s st' ref H1 H2 H3) as [[? _]|Hk]; [done|by right].
Qed.

Lemma announceLoop_settled sid l w : idle w -> consistentBut (awaiting sid l) w ->
  tot (fun n => announceLoop ends n sid l w) settled.
Proof.
  induction l as [|r l IH] in w |- *; intros Hi Hc; cbn [announceLoop].
  { apply tot_ret. split; [done|]. intros s st ref H1 H2 H3.
    destruct (Hc s st ref H1 H2 H3) as [[_ Hin]|]; [by apply elem_of_nil in Hin|by right]. }
  unfold isReady. destruct (bool_decide_reflect (sid ∈ ready w)) as [Hr|Hr]; cbn [negb].
  2: { apply tot_ret. split; [done|]. by eapply awaiting_gone. }
  destruct (sessions_ w !! sid) as [st|] eqn:Hs.
  2: { apply IH; [done|]. eapply awaiting_skip; [done|]. congruence. }
  unfold subscribed. destruct (bool_decide_reflect (r ∈ subscriptions st)) as [Href|Href]; cbn [negb].
  2: { apply IH; [done|]. eapply awaiting_skip; [done|]. congruence. }
  cbv zeta. set (rev := revision_ (registry_ w)).
  destruct (announce_current sid r l rev w st Hi Hr Hs Href Hc) as [Hia Hca].
  set (b := currentBoundary r w) in *.
  apply (tot_bind (fun n => sendAvailability (send n) sid r b rev
      (updSession sid (fun s => s <| lastAvailability ::= <[r := b]> |>) w))
    (fun n w => if negb (bool_decide (sid ∈ ready w)) then Some w
       else if negb (available b) then announceLoop ends n sid l w
       else w ← match latestSample r (registry_ w) with
                | Some x => sendValues (send n) sid r.1 [x] w
                | None => Some w
                end; announceLoop ends n sid l w)).
  eapply tot_mono; [apply (send_ready _ (CloseOK_all (size (ready w)))); [done|done|apply Hia]|].
  intros w1 H1. destruct (idle_post _ _ Hia H1) as [Hi1 Hc1]. specialize (Hc1 _ Hca).
  destruct (bool_decide_reflect (sid ∈ ready w1)) as [Hr1|Hr1]; simpl.
  2: { apply tot_ret. split; [done|]. by eapply awaiting_gone. }
  destruct (negb (available b)); [by apply IH|].
  apply (tot_bind (fun n => match latestSample r (registry_ w1) with
                | Some x => sendValues (send n) sid r.1 [x] w1
                | None => Some w1
                end) (fun n w => announceLoop ends n sid l w)).
  destruct (latestSample r (registry_ w1)) as [x|]; [|by apply tot_ret, IH].
  eapply tot_mono; [apply (sendValues_spec _ (CloseOK_all (size (ready w1)))); [done|apply Hi1]|].
  intros w2 H2. destruct (idle_post _ _ Hi1 H2) as [Hi2 Hc2]. apply IH; auto.
Qed.

Lemma subscribe_start sid l w : settled w -> sid ∈ ready w ->
  let w1 := updSession sid (fun s => s <| subscriptions ::= fun x => x ∪ list_to_set l |>) w in
  idle w1 /\ consistentBut (awaiting sid l) w1.
Proof.
  intros [(HI & Hc & Ha) Hcons] Hr w1.
  assert (Hold : sessionOf sid w = newSession \/ sessions_ w !! sid = Some (sessionOf sid w)).
  { unfold sessionOf. destruct (sessions_ w !! sid); auto. }
  assert (Hs : forall s st, sessions_ w1 !! s = Some st ->
    s <> sid /\ sessions_ w !! s = Some st
    \/ s = sid /\ subscriptions st = subscriptions (sessionOf sid w) ∪ list_to_set l
       /\ lastAvailability st = lastAvailability (sessionOf sid w)).
  { intros s st. unfold w1, updSession. simpl. destruct (decide (sid = s)) as [->|].
    - rewrite lookup_insert_eq. intros [= <-]. by right.
    - rewrite lookup_insert_ne by done. by left. }
  split; [split_and!; [|done|done]|].
  - destruct HI. split; try done.
    + intros s st [[_ Hst]|[-> _]]%Hs; [by apply inv_sess0|by left].
    + intros s st ref b [[_ Hst]|(-> & Es & El)]%Hs; [by apply inv_last0|]. rewrite Es, El.
      destruct Hold as [->|Hold]; [done|]. intros Hb.
      destruct (inv_last0 _ _ _ _ Hold Hb) as (? & ? & ?). split_and!; [set_solver|done..].
  - intros s st ref Hrs [[Hne Hst]|(-> & Es & El)]%Hs Href.
    { destruct (Hcons s st ref Hrs Hst Href) as [[]|]. by right. }
    rewrite Es in Href. rewrite El. apply elem_of_union in Href as [Href|Href].
    + destruct Hold as [E|Hold]; [by rewrite E in Href|].
      destruct (Hcons sid _ ref Hr Hold Href) as [[]|]. by right.
    + left. split; [done|]. by apply elem_of_list_to_set in Href.
Qed.

Lemma handleSubscribe_settled sid id l w : settled w -> sid ∈ ready w ->
  tot (fun n => handleSubscribe ends n sid id l w) settled.
Proof.
  intros Hs Hr. unfold handleSubscribe. cbv zeta.
  set (acc := List.filter validRef (map refFromProto l)).
  destruct (subscribe_start sid acc w Hs Hr) as [Hi Hc].
  match goal with |- tot (fun n => w ← send n sid id ?m ?w0; _) _ =>
    apply (tot_bind (fun n => send n sid id m w0) (fun n w => announceLoop ends n sid acc w)) end.
  eapply tot_mono; [apply send_ok; [apply Hi|done]|]. intros w1 H1.
  destruct (idle_post _ _ Hi H1) as [Hi1 Hc1]. apply announceLoop_settled; auto.
Qed.

Lemma handleUnsubscribe_settled sid id l w : settled w -> sid ∈ ready w ->
  tot (fun n => handleUnsubscribe ends n sid id l w) settled.
Proof.
  intros Hs Hr. unfold handleUnsubscribe. cbv zeta.
  destruct (sessions_ w !! sid) as [st0|] eqn:E; [|by apply send_settled].
  apply send_settled; [|done]. destruct Hs as [(HI & Hc & Ha) Hcons].
  unfold updSession, sessionOf. rewrite E. simpl.
  set (refs := list_to_set (map refFromProto l) : gset ChannelRef).
  set (st1 := mkSession _ _ _ _).
  assert (Hst : forall s st, <[sid := st1]> (sessions_ w) !! s = Some st ->
    sessions_ w !! s = Some st \/ s = sid /\ st = st1).
  { intros s st. destruct (decide (sid = s)) as [->|].
    - rewrite lookup_insert_eq. intros [= <-]. by right.
    - rewrite lookup_insert_ne by done. by left. }
  assert (Hlast : forall r b, lastAvailability st1 !! r = Some b ->
    lastAvailability st0 !! r = Some b /\ r ∉ refs).
  { intros r b Hb. by apply map_lookup_filter_Some in Hb. }
  split; [split_and!; [|done|done]|].
  - destruct HI. split; try done; simpl.
    + intros s st [H|[-> ->]]%Hst; [by apply inv_sess0|by left].
    + intros s st r b [H|[-> ->]]%Hst; [by apply inv_last0|]. intros [Hb Hn]%Hlast.
      destruct (inv_last0 _ _ _ _ E Hb) as (? & ? & ?). split_and!; [|done..].
      simpl. set_solver.
  - intros s st r H1 [H|[-> ->]]%Hst Href; [by apply (Hcons s)|].
    simpl in Href. apply elem_of_difference in Href as [Href Hn].
    destruct (Hcons sid st0 r Hr E Href) as [[]|(b & Hb & Hag)]. right. exists b.
    split; [|done]. by apply map_lookup_filter_Some.
Qed.

(** *** Runs *)

Lemma handleRequest_settled now sid id m w : settled w -> sid ∈ ready w ->
  tot (fun n => (handleRequest ends n now sid id m w).1) settled.
Proof.
  intros Hs Hr. unfold handleRequest. cbv zeta.
  destruct m; cbn [fst negb isServerOnlyDataPayload];
    try (by apply tot_ret); try (by apply closeWithError_settled);
    try (by apply handlePublish_settled);
    (destruct (negb (id =? 0)); [|by apply closeWithError_settled]).
  - by apply handleRegister_settled.
  - by apply handleDeclare_settled.
  - by apply handleRemove_settled.
  - by apply send_settled.
  - by apply handleWatchCatalog_settled.
  - by apply handleSubscribe_settled.
  - by apply handleUnsubscribe_settled.
Qed.

Lemma opens_settled sid w : settled w -> settled (w <| ready ::= fun s => s ∪ {[sid]} |>).
Proof.
  intros [(HI & Hc & Ha) Hcons]. split; [split_and!; [|done|done]|].
  - destruct HI. split; try done; simpl.
    + intros ns p Hp. apply elem_of_union_l. by eapply inv_owner0.
    + intros s st Hst. destruct (inv_sess0 s st Hst); [left; set_solver|by right].
  - intros s st ref Hr Hst Href. simpl in *. apply elem_of_union in Hr as [Hr|_].
    + by apply (Hcons s).
    + destruct (inv_sess _ HI s st Hst) as [Hr|[E _]]; [by apply (Hcons s)|].
      rewrite E in Href. set_solver.
Qed.

Lemma perform_settled op w : settled w -> tot (fun n => perform ends n op w) settled.
Proof.
  intros Hs. destruct op as [sid|sid id m now|sid]; simpl.
  - apply tot_ret. by apply opens_settled.
  - unfold isReady. destruct (bool_decide_reflect (sid ∈ ready w)); [|by apply tot_ret].
    by apply handleRequest_settled.
  - by apply endSession_settled.
Qed.

Lemma create_settled : settled create.
Proof.
  split; [split_and!; [|done|done]|].
  - split; try done; try apply registry_create_wf.
  - intros sid st ref Hr. simpl in Hr. set_solver.
Qed.

Lemma runOps_settled ops w : settled w -> tot (fun n => runOps ends n ops w) settled.
Proof.
  intros Hs. apply (tot_forEach (perform ends) (fun _ => settled)); [done|].
  intros op _ w1 H1. by apply perform_settled.
Qed.

(** What was last told is what is believed. *)
Lemma settled_told w sid st ref : settled w -> sid ∈ ready w -> sessions_ w !! sid = Some st ->
  ref ∈ subscriptions st ->
  match definitionOf ref (registry_ w) with
  | Some d => exists d', (d' = d \/ definitionEq d' d = true)
      /\ told sid ref (sent w) = Some (1, Some (channelToProto d'))
  | None => told sid ref (sent w) = Some (2, None)
  end.
Proof.
  intros [(HI & _) Hc] Hr Hst Href. destruct (Hc sid st ref Hr Hst Href) as [[]|(b & Hb & Hag)].
  destruct (inv_last _ HI _ _ _ _ Hst Hb) as (_ & _ & ->). unfold agrees in Hag. unfold shown.
  destruct (definitionOf ref (registry_ w)) as [d|].
  - destruct Hag as [-> (d' & -> & Hd)]. by exists d'.
  - by rewrite Hag.
Qed.

(** C40. Whatever data requests the sessions send, in any order, and whichever
    sessions end during any of the sends this causes: every request returns,
    with no fan-out left active and no work pending; then every ready session
    has last been told the truth about every channel it subscribes to, that
    is, AVAILABLE with the channel's definition when the channel exists and
    UNAVAILABLE when it does not; and every provider belongs to a ready
    session, under a valid namespace, with typed channels whose retained
    samples have the declared type. *)
Theorem data_subscribers_told (ops : list Op) :
  exists N w, (forall n, (N <= n)%nat -> runOps ends n ops create = Some w)
  /\ (forall sid st ref, sid ∈ ready w -> sessions_ w !! sid = Some st ->
        ref ∈ subscriptions st ->
        match definitionOf ref (registry_ w) with
        | Some d => exists d', (d' = d \/ definitionEq d' d = true)
            /\ told sid ref (sent w) = Some (1, Some (channelToProto d'))
        | None => told sid ref (sent w) = Some (2, None)
        end)
  /\ (forall ns p, providers_ (registry_ w) !! ns = Some p -> owner p ∈ ready w /\ providerOk ns p)
  /\ pendingCatalogs_ w = [] /\ pendingAvailability_ w = []
  /\ catalogFanOutActive_ w = false /\ availabilityFanOutActive_ w = false.
Proof.
  destruct (runOps_settled ops create create_settled) as (N & w & H1 & Hs).
  exists N, w. pose proof Hs as [(HI & Hc & Ha) _]. split_and!; [done| |..|done|done].
  - intros sid st ref. by apply settled_told.
  - intros ns p Hp. split; [by eapply inv_owner|]. by apply (wf_providers _ (inv_reg _ HI)).
  - by apply HI.
  - by apply HI.
Qed.

End Ends.

(** ** Conversions *)

Lemma channel_proto d : channelFromProto (channelToProto d) = d.
Proof.
  destruct d as [n dn ty u ds ni st mi ma os]. unfold channelFromProto, channelToProto. simpl.
  f_equal; [by destruct ty|]. rewrite map_map.
  rewrite <- (map_id os) at 2. apply map_ext. by intros [].
Qed.

Lemma sample_proto s : sampleFromProto (sampleToProto s) = Some s.
Proof.
  destruct s as [n v o q]. unfold sampleFromProto, sampleToProto. simpl.
  assert (Hv : match option_map scalarToProto v with Some x => scalarFromProto x | None => None end = v)
    by (by destruct v as [[]|]).
  rewrite Hv. by destruct q.
Qed.

(** ** Examples *)

Definition obd : DataProviderDefinition := pbdata.mkProvider "obd" "Car" None None.
Definition chan (name : string) : DataChannelDefinition :=
  pbdata.mkChannel name name 1 None None None None None None [].

Definition at0 (sid : nat) (id : Z) (m : ApiMessage) : Op := Request sid id m (fun _ => 0).

(** A provider that subscribes to its own first channel, and another session
    that subscribes to the second; the provider ends while it is told. *)
Definition dying : list Op :=
  [Opens 1; Opens 2;
   at0 1 1 (RegisterDataProviderRequest obd);
   at0 1 2 (SubscribeDataChannelsRequest [mkRef "obd" "rpm"]);
   at0 2 1 (SubscribeDataChannelsRequest [mkRef "obd" "speed"]);
   at0 1 3 (DeclareDataChannelsRequest [chan "rpm"; chan "speed"])].

Definition endsAt (k sid : nat) : nat -> list nat :=
  fun i => if decide (i = k) then [sid] else [].

Definition availabilityOf (sid : nat) (w : W) : list (Z * bool) :=
  omap (fun e => match e with
                 | (s, _, DataChannelAvailabilityEvent _ av d _ _) =>
                     if decide (s = sid) then Some (av, bool_decide (is_Some d)) else None
                 | _ => None
                 end) (sent w).

(** The other session is told AVAILABLE, without a definition, about a channel
    that no longer exists, before it is told the truth. *)
Example stale_available :
  option_map (availabilityOf 2) (runOps (endsAt 5 1) 50 dying create)
  = Some [(2, false); (2, false); (2, false); (1, false); (2, false)].
Proof. vm_compute. reflexivity. Qed.

(** A session that ends while its registration is announced to it leaves an
    entry behind. *)
Example session_left_behind :
  option_map (fun w => (bool_decide (1%nat ∈ ready w), option_map s_providerNamespace (sessions_ w !! 1%nat)))
    (runOps (endsAt 2 1) 50
       [Opens 1; at0 1 1 (WatchDataCatalogRequest true); at0 1 2 (RegisterDataProviderRequest obd)]
       create)
  = Some (false, Some "obd").
Proof. vm_compute. reflexivity. Qed.

Lemma data_subscribers_told_witness :
  exists N w, (forall n, (N <= n)%nat -> runOps (endsAt 5 1) n dying create = Some w)
    /\ pendingAvailability_ w = [].
Proof.
  destruct (data_subscribers_told (endsAt 5 1) dying) as (N & w & H1 & _ & _ & _ & H2 & _).
  exists N, w. exact (conj H1 H2).
Defined.

End ApiDataBridge.
 
