(* ===== verification/Touch.v ===== *)
(** Touch input: from the slots of a Linux multi-touch device to the pointer
    messages of the phone, around the zones the head unit claims for itself.

    Source: src/core/aa/TouchRouter, src/core/aa/EvdevCoordBridge and
    src/core/aa/EvdevTouchReader. [float] is IEEE binary32. The reader is a
    thread: each turn of its loop is a function of the device's answer, and
    what the main thread does meanwhile (zones, grab and mapping requests) is
    an input of the turn. The axis ranges and events are the device's. *)

From stdpp Require Import strings sorting.
From S2P Require Import Prelude.
From Stdlib Require Import SpecFloat Sorting.Sorted.

#[global] Open Scope string_scope.
#[global] Open Scope list_scope.
#[global] Open Scope Z_scope.

(** ** [float] *)

Abbreviation float := spec_float (only parsing).
Definition f32 (z : Z) : float := binary_normalize 24 128 z 0 false.
Definition fadd : float -> float -> float := SFadd 24 128.
Definition fsub : float -> float -> float := SFsub 24 128.
Definition fmul : float -> float -> float := SFmul 24 128.
Definition fdiv : float -> float -> float := SFdiv 24 128.

(** [static_cast<int>]: towards zero; undefined out of range, here 0. *)
Definition f2i (x : float) : Z :=
  match x with
  | S754_finite s m e =>
      let v := if 0 <=? e then Zpos m * 2 ^ e else Zpos m / 2 ^ (- e) in
      if s then - v else v
  | _ => 0
  end.

(** [std::clamp] *)
Definition fclamp (v lo hi : float) : float :=
  if SFltb v lo then lo else if SFltb hi v then hi else v.

Inductive TouchEvent := Down | Move | Up.

#[export] Instance TouchEvent_eq_dec : EqDecision TouchEvent.
Proof. solve_decision. Defined.

Definition MAX_SLOTS : nat := 10.

(** ** The router *)

Module TouchRouter.

(** A callback is known by the zone it belongs to. *)
Record TouchZone := mkZone {
  id : string;
  priority : Z;
  x0 : float; y0 : float; x1 : float; y1 : float
}.

(** [std::sort] by descending priority; the order of equals is open. *)
Class ZoneSort := {
  sort_zones : list TouchZone -> list TouchZone;
  sort_zones_perm l : sort_zones l ≡ₚ l;
  sort_zones_sorted l : StronglySorted (fun a b => priority b <= priority a) (sort_zones l)
}.

(** A call of a zone's callback. *)
Record Call := mkCall { c_zone : string; c_slot : nat; c_x : float; c_y : float;
                        c_event : TouchEvent }.

Record t := mk {
  zones_ : list TouchZone;
  claimedZone_ : list string;
  calls : list Call
}.

#[global] Instance t_settable : Settable t := {| eta_record r :=
  mk (zones_ r) (claimedZone_ r) (calls r) |}.

Definition create : t := mk [] (replicate MAX_SLOTS "") [].

Definition zoneNamed (c : string) (zs : list TouchZone) : bool :=
  existsb (fun z => bool_decide (id z = c)) zs.

Definition claimOf (slot : nat) (r : t) : string := default "" (claimedZone_ r !! slot).

Definition setClaim (slot : nat) (c : string) (r : t) : t :=
  r <| claimedZone_ ::= <[slot := c]> |>.

Section Router.
Context {zsort : ZoneSort}.

Definition setZones (zones : list TouchZone) (r : t) : t :=
  let zs := sort_zones zones in
  r <| zones_ := zs |>
    <| claimedZone_ ::= map (fun c => if bool_decide (c = "") then c
                                      else if zoneNamed c zs then c else "") |>.

End Router.

Definition inside (x y : float) (z : TouchZone) : bool :=
  SFleb (x0 z) x && SFleb x (x1 z) && SFleb (y0 z) y && SFleb y (y1 z).

Definition call (z : string) (slot : nat) (x y : float) (ev : TouchEvent) (r : t) : t :=
  r <| calls ::= fun l => l ++ [mkCall z slot x y ev] |>.

Definition dispatch (slot : nat) (x y : float) (ev : TouchEvent) (r : t) : t * bool :=
  if (MAX_SLOTS <=? slot)%nat then (r, false)
  else
    let claimed := claimOf slot r in
    if negb (bool_decide (claimed = "")) && zoneNamed claimed (zones_ r) then
      let r := call claimed slot x y ev r in
      (if decide (ev = Up) then setClaim slot "" r else r, true)
    else
      let r := if bool_decide (claimed = "") then r else setClaim slot "" r in
      if negb (bool_decide (ev = Down)) then (r, false)
      else match List.find (inside x y) (zones_ r) with
           | Some z => (call (id z) slot x y ev (setClaim slot (id z) r), true)
           | None => (r, false)
           end.

Definition resetClaims (r : t) : t :=
  r <| claimedZone_ ::= map (fun _ => "") |>.

End TouchRouter.

(** ** Zones in display pixels *)

Module EvdevCoordBridge.
Import TouchRouter.

Record ZoneEntry := mkEntry {
  e_id : string; e_priority : Z; px : float; py : float; pw : float; ph : float
}.

Record t := mk {
  displayW_ : Z; displayH_ : Z; evdevMaxX_ : Z; evdevMaxY_ : Z;
  zones_ : list ZoneEntry
}.

#[global] Instance t_settable : Settable t := {| eta_record r :=
  mk (displayW_ r) (displayH_ r) (evdevMaxX_ r) (evdevMaxY_ r) (zones_ r) |}.

Definition create : t := mk 1024 600 4095 4095 [].

Definition pixelToEvdevX (p : float) (b : t) : float :=
  if displayW_ b <=? 0 then f32 0 else fdiv (fmul p (f32 (evdevMaxX_ b))) (f32 (displayW_ b)).
Definition pixelToEvdevY (p : float) (b : t) : float :=
  if displayH_ b <=? 0 then f32 0 else fdiv (fmul p (f32 (evdevMaxY_ b))) (f32 (displayH_ b)).

(** The zones pushed to the router. *)
Definition routerZone (b : t) (e : ZoneEntry) : TouchZone :=
  mkZone (e_id e) (e_priority e) (pixelToEvdevX (px e) b) (pixelToEvdevY (py e) b)
    (pixelToEvdevX (fadd (px e) (pw e)) b) (pixelToEvdevY (fadd (py e) (ph e)) b).

Section Bridge.
Context {zsort : ZoneSort}.

Definition rebuildAndPush (b : t) (r : TouchRouter.t) : TouchRouter.t :=
  setZones (map (routerZone b) (zones_ b)) r.

Definition updateZone (e : ZoneEntry) (b : t) (r : TouchRouter.t) : t * TouchRouter.t :=
  let b := b <| zones_ ::= fun l =>
             match list_find (fun x => e_id x = e_id e) l with
             | Some (i, _) => <[i := e]> l
             | None => l ++ [e]
             end |> in
  (b, rebuildAndPush b r).

Definition removeZone (id : string) (b : t) (r : TouchRouter.t) : t * TouchRouter.t :=
  let b := b <| zones_ ::= List.filter (fun x => negb (bool_decide (e_id x = id))) |> in
  (b, rebuildAndPush b r).

End Bridge.

Definition setDisplayMapping (dw dh mx my : Z) (b : t) : t :=
  b <| displayW_ := dw |> <| displayH_ := dh |> <| evdevMaxX_ := mx |> <| evdevMaxY_ := my |>.

End EvdevCoordBridge.

(** ** The reader *)

Module EvdevTouchReader.
Import TouchRouter.

Definition GESTURE_FINGER_COUNT : Z := 3.
Definition GESTURE_WINDOW_MS : Z := 200.

Record Slot := mkSlot { trackingId : Z; x : Z; y : Z; dirty : bool }.

#[global] Instance Slot_settable : Settable Slot := {| eta_record s :=
  mkSlot (trackingId s) (x s) (y s) (dirty s) |}.

Definition noSlot : Slot := mkSlot (-1) 0 0 false.

Record MappingConfig := mkMapping {
  m_aaWidth : Z; m_aaHeight : Z; m_displayWidth : Z; m_displayHeight : Z;
  m_contentWidth : Z; m_contentHeight : Z;
  m_navbarEnabled : bool; m_navbarThickness : Z; m_navbarEdge : string;
  m_version : Z
}.

#[global] Instance MappingConfig_settable : Settable MappingConfig := {| eta_record m :=
  mkMapping (m_aaWidth m) (m_aaHeight m) (m_displayWidth m) (m_displayHeight m)
    (m_contentWidth m) (m_contentHeight m) (m_navbarEnabled m) (m_navbarThickness m)
    (m_navbarEdge m) (m_version m) |}.

(** [oaa::hu::InputChannelHandler::Pointer] *)
Record Pointer := mkPointer { p_x : Z; p_y : Z; p_id : nat }.

(** What leaves the reader: a touch message handed to the handler, content
    dimensions posted to it, the gesture signal. *)
Inductive Out :=
| TouchIndication (pointers : list Pointer) (actionIdx : nat) (action : Z)
| ContentDims (w h : Z)
| gestureDetected.

(** The thread is between openings, polling an open device, or over. *)
Inductive Phase := Closed | Polling | Finished.

#[global] Instance Phase_eq_dec : EqDecision Phase.
Proof. solve_decision. Defined.

Record t := mk {
  handler_ : bool;
  screenWidth_ : Z; screenHeight_ : Z;
  aaWidth_ : Z; aaHeight_ : Z; displayWidth_ : Z; displayHeight_ : Z;
  videoEvdevX0_ : float; videoEvdevY0_ : float;
  videoEvdevW_ : float; videoEvdevH_ : float;
  visibleAAWidth_ : float; visibleAAHeight_ : float;
  slots_ : list Slot; prevSlots_ : list Slot; aaActive_ : list bool;
  currentSlot_ : nat;
  stopRequested_ : bool; requestedGrab_ : bool; deviceGrabbed_ : bool;
  fd_ : bool;
  gestureActive_ : bool; gestureMaxFingers_ : Z;
  firstFingerTime_ : Z; prevActiveCount_ : Z;
  contentWidth_ : Z; contentHeight_ : Z;
  navbarEnabled_ : bool; navbarThickness_ : Z; navbarEdge_ : string;
  router_ : TouchRouter.t;
  requestedMapping_ : MappingConfig; appliedMappingVersion_ : Z;
  phase : Phase;
  out : list Out
}.

#[global] Instance t_settable : Settable t := {| eta_record r :=
  mk (handler_ r) (screenWidth_ r) (screenHeight_ r) (aaWidth_ r) (aaHeight_ r)
    (displayWidth_ r) (displayHeight_ r) (videoEvdevX0_ r) (videoEvdevY0_ r)
    (videoEvdevW_ r) (videoEvdevH_ r) (visibleAAWidth_ r) (visibleAAHeight_ r)
    (slots_ r) (prevSlots_ r) (aaActive_ r) (currentSlot_ r)
    (stopRequested_ r) (requestedGrab_ r) (deviceGrabbed_ r) (fd_ r)
    (gestureActive_ r) (gestureMaxFingers_ r) (firstFingerTime_ r) (prevActiveCount_ r)
    (contentWidth_ r) (contentHeight_ r) (navbarEnabled_ r) (navbarThickness_ r)
    (navbarEdge_ r) (router_ r) (requestedMapping_ r) (appliedMappingVersion_ r)
    (phase r) (out r) |}.

(** [hasHandler]: the [TouchHandler*] is not null. *)
Definition create (hasHandler : bool) (aaW aaH dispW dispH : Z) : t :=
  mk hasHandler 4095 4095 aaW aaH dispW dispH
    (f32 0) (f32 0) (f32 0) (f32 0) (f32 0) (f32 0)
    (replicate MAX_SLOTS noSlot) (replicate MAX_SLOTS noSlot) (replicate MAX_SLOTS false) 0%nat
    false false false false false 0 0 0 0 0 false 0 "bottom"
    TouchRouter.create (mkMapping aaW aaH dispW dispH 0 0 false 0 "bottom" 1) 0 Closed [].

Definition emit (o : Out) (r : t) : t := r <| out ::= fun l => l ++ [o] |>.

(** *** Coordinates *)

Definition clamp01 (rel : float) : float := fclamp rel (f32 0) (f32 1).

Definition mapX (rawX : Z) (r : t) : Z :=
  f2i (fmul (clamp01 (fdiv (fsub (f32 rawX) (videoEvdevX0_ r)) (videoEvdevW_ r)))
        (visibleAAWidth_ r)).
Definition mapY (rawY : Z) (r : t) : Z :=
  f2i (fmul (clamp01 (fdiv (fsub (f32 rawY) (videoEvdevY0_ r)) (videoEvdevH_ r)))
        (visibleAAHeight_ r)).

Definition horizontal (r : t) : bool :=
  bool_decide (navbarEdge_ r = "top") || bool_decide (navbarEdge_ r = "bottom").

(** The display less the navbar: width, height, left, top. *)
Definition effectiveDisplay (r : t) : Z * Z * Z * Z :=
  let W := displayWidth_ r in let H := displayHeight_ r in
  let n := navbarThickness_ r in
  if navbarEnabled_ r && (0 <? n) then
    if horizontal r
    then (W, H - n, 0, if bool_decide (navbarEdge_ r = "top") then n else 0)
    else (W - n, H, (if bool_decide (navbarEdge_ r = "left") then n else 0), 0)
  else (W, H, 0, 0).

(** The video in the effective display, in pixels: width, height, left, top. *)
Definition videoPixels (w h x0 y0 : Z) (contentAspect : float) : float * float * float * float :=
  if SFltb (fdiv (f32 w) (f32 h)) contentAspect then
    let ph := fdiv (f32 w) contentAspect in
    (f32 w, ph, f32 x0, fadd (f32 y0) (fdiv (fsub (f32 h) ph) (f32 2)))
  else
    let pw := fmul (f32 h) contentAspect in
    (pw, f32 h, fadd (f32 x0) (fdiv (fsub (f32 w) pw) (f32 2)), f32 y0).

Definition computeLetterbox (r : t) : t :=
  let '(w, h, x0, y0) := effectiveDisplay r in
  let w := Z.max 1 w in let h := Z.max 1 h in
  let r := r <| displayWidth_ ::= Z.max 1 |> <| displayHeight_ ::= Z.max 1 |> in
  let perX := fdiv (f32 (screenWidth_ r)) (f32 (displayWidth_ r)) in
  let perY := fdiv (f32 (screenHeight_ r)) (f32 (displayHeight_ r)) in
  let vw := f32 (if 0 <? contentWidth_ r then contentWidth_ r else aaWidth_ r) in
  let vh := f32 (if 0 <? contentHeight_ r then contentHeight_ r else aaHeight_ r) in
  let '(pw, ph, px, py) := videoPixels w h x0 y0 (fdiv vw vh) in
  let r := r <| visibleAAWidth_ := vw |> <| visibleAAHeight_ := vh |>
             <| videoEvdevX0_ := fmul px perX |> <| videoEvdevY0_ := fmul py perY |>
             <| videoEvdevW_ := fmul pw perX |> <| videoEvdevH_ := fmul ph perY |> in
  if handler_ r then emit (ContentDims (f2i vw) (f2i vh)) r else r.

(** *** Requests of the main thread *)

Inductive Request :=
| setNavbar (enabled : bool) (thickness : Z) (edge : string)
| setVideoMapping (aaW aaH contentW contentH : Z)
| setDisplayDimensions (w h : Z)
| grab | ungrab | requestStop
| zonesChanged (zones : list TouchZone).

(** [++version] on a [quint64] *)
Definition bump (m : MappingConfig) : MappingConfig :=
  m <| m_version ::= fun v => (v + 1) mod 2 ^ 64 |>.

Section Reader.
Context {zsort : ZoneSort}.

Definition request (q : Request) (r : t) : t :=
  match q with
  | setNavbar en th ed =>
      r <| requestedMapping_ ::= fun m =>
             bump (m <| m_navbarEnabled := en |> <| m_navbarThickness := th |>
                     <| m_navbarEdge := ed |>) |>
  | setVideoMapping w h cw ch =>
      r <| requestedMapping_ ::= fun m =>
             bump (m <| m_aaWidth := w |> <| m_aaHeight := h |>
                     <| m_contentWidth := cw |> <| m_contentHeight := ch |>) |>
  | setDisplayDimensions w h =>
      r <| requestedMapping_ ::= fun m =>
             bump (m <| m_displayWidth := w |> <| m_displayHeight := h |>) |>
  | grab => r <| requestedGrab_ := true |>
  | ungrab => r <| requestedGrab_ := false |>
  | requestStop => r <| stopRequested_ := true |>
  | zonesChanged zs => r <| router_ ::= setZones zs |>
  end.

Definition applyPendingMapping (force : bool) (r : t) : t :=
  let m := requestedMapping_ r in
  if negb force && (m_version m =? appliedMappingVersion_ r) then r
  else computeLetterbox
    (r <| aaWidth_ := m_aaWidth m |> <| aaHeight_ := m_aaHeight m |>
       <| displayWidth_ := m_displayWidth m |> <| displayHeight_ := m_displayHeight m |>
       <| contentWidth_ := m_contentWidth m |> <| contentHeight_ := m_contentHeight m |>
       <| navbarEnabled_ := m_navbarEnabled m |> <| navbarThickness_ := m_navbarThickness m |>
       <| navbarEdge_ := m_navbarEdge m |> <| appliedMappingVersion_ := m_version m |>).

(** *** The pointers the phone knows *)

Definition slotOf (l : list Slot) (i : nat) : Slot := default noSlot (l !! i).
Definition activeOf (r : t) (i : nat) : bool := default false (aaActive_ r !! i).
Definition down (s : Slot) : bool := 0 <=? trackingId s.

Definition pointerAt (r : t) (i : nat) : Pointer :=
  let s := slotOf (if down (slotOf (slots_ r) i) then slots_ r else prevSlots_ r) i in
  mkPointer (mapX (x s) r) (mapY (y s) r) i.

Definition activeIds (r : t) : list nat := List.filter (activeOf r) (seq 0 MAX_SLOTS).

Definition buildAaPointers (r : t) : list Pointer := map (pointerAt r) (activeIds r).

(** [std::distance] to the pointer with that id; its length if there is none. *)
Fixpoint indexOf (i : nat) (l : list Pointer) : nat :=
  match l with
  | [] => 0%nat
  | p :: l => if decide (p_id p = i) then 0%nat else S (indexOf i l)
  end.

(** A boundary message about pointer [i]; [single] for a phone with one
    pointer, [several] with more. *)
Definition sendBoundary (i : nat) (single several : Z) (r : t) : t :=
  let ps := buildAaPointers r in
  if handler_ r
  then emit (TouchIndication ps (indexOf i ps)
               (if (length ps =? 1)%nat then single else several)) r
  else r.

Definition setActive (i : nat) (b : bool) (r : t) : t := r <| aaActive_ ::= <[i := b]> |>.

Definition retire (i : nat) (r : t) : t := setActive i false (sendBoundary i 1 6 r).

Definition releaseAaTouchStream (r : t) : t :=
  fold_left (fun r i => if activeOf r i then retire i r else r) (seq 0 MAX_SLOTS) r.

Definition resetTouchState (r : t) : t :=
  let r := releaseAaTouchStream r in
  r <| slots_ := replicate MAX_SLOTS noSlot |> <| prevSlots_ := replicate MAX_SLOTS noSlot |>
    <| aaActive_ := replicate MAX_SLOTS false |> <| currentSlot_ := 0%nat |>
    <| gestureActive_ := false |> <| gestureMaxFingers_ := 0 |> <| prevActiveCount_ := 0 |>
    <| router_ ::= resetClaims |>.

(** [ioctl]: what [EVIOCGRAB] answers. *)
Definition applyRequestedGrab (ioctl : bool) (r : t) : t :=
  let requested := requestedGrab_ r in
  if eqb requested (deviceGrabbed_ r) || negb (fd_ r) then r
  else if negb ioctl then r
  else
    let r := r <| deviceGrabbed_ := requested |> in
    if requested then r else resetTouchState r.

(** *** One report of the device *)

Definition countActive (r : t) : Z := blen (List.filter down (slots_ r)).

(** The two readings of the clock, in nanoseconds. *)
Record Clock := mkClock { now1 : Z; now2 : Z }.

Definition trackFingers (clk : Clock) (nowActive : Z) (r : t) : t :=
  let r := if (0 <? nowActive) && (prevActiveCount_ r =? 0) then
             r <| firstFingerTime_ := now1 clk |> <| gestureMaxFingers_ := 1 |>
               <| gestureActive_ := false |>
           else if gestureMaxFingers_ r <? nowActive then r <| gestureMaxFingers_ := nowActive |>
           else r in
  r <| prevActiveCount_ := nowActive |>.

Definition detectGesture (clk : Clock) (r : t) : t :=
  if (GESTURE_FINGER_COUNT <=? gestureMaxFingers_ r) && negb (gestureActive_ r) then
    let ms := Z.quot (now2 clk - firstFingerTime_ r) 1000000 in
    if ms <=? GESTURE_WINDOW_MS
    then emit gestureDetected (r <| gestureActive_ := true |>)
    else r
  else r.

Definition checkGesture (clk : Clock) (r : t) : t * bool :=
  let nowActive := countActive r in
  let r := detectGesture clk (trackFingers clk nowActive r) in
  let r := if (nowActive =? 0) && gestureActive_ r
           then r <| gestureActive_ := false |> <| gestureMaxFingers_ := 0 |> else r in
  (r, gestureActive_ r).

(** The event of a changed slot, with the slot it takes the point from. *)
Definition slotEvent (prev cur : Slot) : option (TouchEvent * Slot) :=
  match down prev, down cur with
  | false, true => Some (Down, cur)
  | true, true => Some (Move, cur)
  | true, false => Some (Up, prev)
  | false, false => None
  end.

(** [zonesAt i]: the main thread changes the zones just before slot [i]. *)
Definition dispatchSlot (zonesAt : nat -> option (list TouchZone)) (i : nat)
    (st : t * list bool) : t * list bool :=
  let '(r, consumed) := st in
  let r := match zonesAt i with Some zs => request (zonesChanged zs) r | None => r end in
  let cur := slotOf (slots_ r) i in
  if negb (dirty cur) then (r, consumed)
  else match slotEvent (slotOf (prevSlots_ r) i) cur with
       | None => (r, consumed)
       | Some (evt, s) =>
           let '(rt, c) := dispatch i (f32 (x s)) (f32 (y s)) evt (router_ r) in
           (r <| router_ := rt |>, <[i := c]> consumed)
       end.

Definition dispatchAll (zonesAt : nat -> option (list TouchZone)) (r : t) : t * list bool :=
  fold_left (fun st i => dispatchSlot zonesAt i st) (seq 0 MAX_SLOTS)
    (r, replicate MAX_SLOTS false).

Definition isConsumed (consumed : list bool) (i : nat) : bool := default false (consumed !! i).

(** Changed, and not a zone's. *)
Definition ours (consumed : list bool) (r : t) (i : nat) : bool :=
  dirty (slotOf (slots_ r) i) && negb (isConsumed consumed i).

Definition lifted (r : t) (i : nat) : bool :=
  down (slotOf (prevSlots_ r) i) && negb (down (slotOf (slots_ r) i)).
Definition pressed (r : t) (i : nat) : bool :=
  negb (down (slotOf (prevSlots_ r) i)) && down (slotOf (slots_ r) i).

Definition retireStep (consumed : list bool) (st : t * bool) (i : nat) : t * bool :=
  let '(r, sent) := st in
  if ours consumed r i && activeOf r i && lifted r i then (retire i r, true) else (r, sent).

Definition admitStep (consumed : list bool) (st : t * bool) (i : nat) : t * bool :=
  let '(r, sent) := st in
  if ours consumed r i && pressed r i
  then (sendBoundary i 0 5 (setActive i true r), true) else (r, sent).

Definition moved (consumed : list bool) (r : t) (i : nat) : bool :=
  let cur := slotOf (slots_ r) i in let prev := slotOf (prevSlots_ r) i in
  ours consumed r i && activeOf r i && down cur && down prev
    && (negb (x cur =? x prev) || negb (y cur =? y prev)).

Definition clearDirty (r : t) : t :=
  let r := r <| slots_ ::= map (fun s => s <| dirty := false |>) |> in
  r <| prevSlots_ := slots_ r |>.

Definition sendMoves (consumed : list bool) (sentBoundary : bool) (r : t) : t :=
  if existsb (moved consumed r) (seq 0 MAX_SLOTS) && negb sentBoundary then
    let ps := buildAaPointers r in
    if handler_ r && negb (bool_decide (ps = [])) then emit (TouchIndication ps 0 2) r else r
  else r.

(** What the clock and the main thread do during a report. *)
Record SyncEnv := mkSync {
  late : list Request; clock : Clock; zonesAt : nat -> option (list TouchZone)
}.

(** Three fingers: nothing reaches the phone. *)
Definition suppress (r : t) : t :=
  let r := releaseAaTouchStream r in
  clearDirty (r <| aaActive_ := replicate MAX_SLOTS false |>).

(** Lifted pointers first, then the new ones, one message each; a move
    message only when there was none. *)
Definition forward (consumed : list bool) (r : t) : t :=
  let '(r, sent) := fold_left (retireStep consumed) (seq 0 MAX_SLOTS) (r, false) in
  let '(r, sent) := fold_left (admitStep consumed) (seq 0 MAX_SLOTS) (r, sent) in
  clearDirty (sendMoves consumed sent r).

Definition processSync (e : SyncEnv) (r : t) : t :=
  let r := applyPendingMapping false r in
  let '(r, gestureBlocking) := checkGesture (clock e) r in
  let '(r, consumed) := dispatchAll (zonesAt e) r in
  if gestureBlocking then suppress r else forward consumed r.

(** *** The loop of the thread *)

(** [ev.type] and [ev.code] of linux/input.h *)
Inductive InputEvent :=
| ABS_MT_SLOT (v : Z) | ABS_MT_TRACKING_ID (v : Z)
| ABS_MT_POSITION_X (v : Z) | ABS_MT_POSITION_Y (v : Z)
| SYN_REPORT | OtherEvent.

Definition updateCurrent (f : Slot -> Slot) (r : t) : t :=
  r <| slots_ ::= alter (fun s => f s <| dirty := true |>) (currentSlot_ r) |>.

Definition handleEvent (e : SyncEnv) (ev : InputEvent) (r : t) : t :=
  match ev with
  | ABS_MT_SLOT v => r <| currentSlot_ := Z.to_nat (Z.min (Z.max v 0) (Z.of_nat MAX_SLOTS - 1)) |>
  | ABS_MT_TRACKING_ID v => updateCurrent (fun s => s <| trackingId := v |>) r
  | ABS_MT_POSITION_X v => updateCurrent (fun s => s <| x := v |>) r
  | ABS_MT_POSITION_Y v => updateCurrent (fun s => s <| y := v |>) r
  | SYN_REPORT =>
      let r := fold_left (fun r q => request q r) (late e) r in
      if deviceGrabbed_ r then processSync e r
      else clearDirty (fst (checkGesture (clock e) r))
  | OtherEvent => r
  end.

(** What [poll] and [read] report of the device. *)
Inductive Poll :=
| PollTimeout | PollInterrupted | PollFailed | PollUnavailable | PollOther
| ReadInterrupted | ReadFailed
| ReadEvent (ev : InputEvent).

(** The answers of the system in a step of the thread. *)
Inductive Input :=
| Main (q : Request)
| OpenFails
| Opens (absX absY : option Z) (ioctl : bool)
| Polls (ioctl : bool) (p : Poll) (e : SyncEnv).

Definition openDevice (r : t) : t := r <| fd_ := true |>.

Definition closeDevice (r : t) : t :=
  if fd_ r then r <| fd_ := false |> <| deviceGrabbed_ := false |> else r.

Definition queryAxisRanges (absX absY : option Z) (r : t) : t :=
  let r := match absX with Some m => r <| screenWidth_ := Z.max 1 m |> | None => r end in
  match absY with Some m => r <| screenHeight_ := Z.max 1 m |> | None => r end.

(** The device is lost, or the reader stops: the end of the outer loop. *)
Definition leaveDevice (r : t) : t :=
  resetTouchState (closeDevice r) <| phase := Closed |>.

Definition turn (ioctl : bool) (p : Poll) (e : SyncEnv) (r : t) : t :=
  let r := applyRequestedGrab ioctl (applyPendingMapping false r) in
  match p with
  | PollTimeout | PollInterrupted | PollOther | ReadInterrupted => r
  | PollFailed | PollUnavailable | ReadFailed => leaveDevice r
  | ReadEvent ev => handleEvent e ev r
  end.

(** [run], one round of its loops at a time. *)
Definition run1 (r : t) (i : Input) : t :=
  match i with
  | Main q => request q r
  | OpenFails =>
      match phase r with
      | Closed => if stopRequested_ r then closeDevice r <| phase := Finished |> else r
      | _ => r
      end
  | Opens absX absY ioctl =>
      match phase r with
      | Closed =>
          if stopRequested_ r then closeDevice r <| phase := Finished |>
          else
            let r := openDevice r <| phase := Polling |> in
            let r := applyPendingMapping true (queryAxisRanges absX absY r) in
            applyRequestedGrab ioctl (resetTouchState r)
      | _ => r
      end
  | Polls ioctl p e =>
      match phase r with
      | Polling => if stopRequested_ r then leaveDevice r else turn ioctl p e r
      | _ => r
      end
  end.

Definition run (l : list Input) (r : t) : t := fold_left run1 l r.

End Reader.

(** *** The phone

    Android's rules for a stream of touch messages, as a machine whose state
    is the pointers on the glass: 0 is DOWN, 1 UP, 2 MOVE, 5 POINTER_DOWN and
    6 POINTER_UP, and every message lists all pointers it is about. *)
Definition android (st : option (list nat)) (o : Out) : option (list nat) :=
  match st, o with
  | Some ids, TouchIndication ps idx action =>
      let pids := map p_id ps in
      let legal :=
        if action =? 0 then bool_decide (ids = []) && (length pids =? 1)%nat && (idx =? 0)%nat
        else if action =? 5 then
          negb (bool_decide (ids = [])) && bool_decide (NoDup pids) && (idx <? length pids)%nat
            && bool_decide (delete idx pids = ids)
        else if action =? 2 then
          negb (bool_decide (ids = [])) && bool_decide (pids = ids) && (idx =? 0)%nat
        else if action =? 6 then
          (2 <=? length ids)%nat && bool_decide (pids = ids) && (idx <? length ids)%nat
        else if action =? 1 then
          (length ids =? 1)%nat && bool_decide (pids = ids) && (idx =? 0)%nat
        else false in
      if legal then
        Some (if (action =? 6) || (action =? 1) then delete idx ids else pids)
      else None
  | st, _ => st
  end.

Definition phone (l : list Out) : option (list nat) := fold_left android l (Some []).

(** ** Correctness *)

Lemma fold_seq_ind {A} (P : nat -> A -> Prop) (f : A -> nat -> A) (n : nat) (a : A) :
  P 0%nat a -> (forall i a, (i < n)%nat -> P i a -> P (S i) (f a i)) ->
  P n (fold_left f (seq 0 n) a).
Proof.
  intros H0 HS. induction n as [|n IH] in HS |- *; [done|].
  rewrite seq_S, fold_left_app. simpl. apply HS; [lia|]. apply IH. auto with lia.
Qed.

(** *** Sets of pointers *)

Lemma map_pointerAt_id r l : map p_id (map (pointerAt r) l) = l.
Proof. induction l; simpl; [done|]. by f_equal. Qed.

Lemma ids_of_pointers r : map p_id (buildAaPointers r) = activeIds r.
Proof. unfold buildAaPointers. rewrite map_pointerAt_id. done. Qed.

Lemma activeIds_NoDup r : List.NoDup (activeIds r).
Proof. apply List.NoDup_filter, List.seq_NoDup. Qed.

Lemma elem_activeIds r i : In i (activeIds r) <-> (i < MAX_SLOTS)%nat /\ activeOf r i = true.
Proof.
  unfold activeIds. rewrite List.filter_In, List.in_seq. intuition lia.
Qed.

(** Switching pointer [i] off deletes its index. *)
Lemma filter_delete (mkp : nat -> Pointer) (f g : nat -> bool) (i : nat) (l : list nat) :
  (forall j, p_id (mkp j) = j) -> List.NoDup l -> In i l -> f i = true -> g i = false ->
  (forall j, j <> i -> g j = f j) ->
  let k := indexOf i (map mkp (List.filter f l)) in
  List.filter g l = delete k (List.filter f l) /\ (k < length (List.filter f l))%nat.
Proof.
  intros Hp Hn Hin Hf Hg He. cbv zeta.
  induction l as [|a l IH]; [done|]. apply List.NoDup_cons_iff in Hn as [Ha Hn].
  simpl. destruct (decide (a = i)) as [->|Hne].
  - rewrite Hf, Hg. simpl. rewrite Hp. destruct (decide (i = i)); [|done]. split; [|simpl; lia].
    simpl. apply List.filter_ext_in. intros b Hb. apply He. intros ->. done.
  - destruct Hin as [->|Hin]; [done|]. destruct (IH Hn Hin) as [E Hk].
    rewrite (He a Hne). destruct (f a); [|done].
    simpl. rewrite Hp. destruct (decide (a = i)); [done|].
    simpl. rewrite E. split; [done|lia].
Qed.

Lemma activeOf_set r i b j : length (aaActive_ r) = MAX_SLOTS -> (i < MAX_SLOTS)%nat ->
  activeOf (setActive i b r) j = if decide (j = i) then b else activeOf r j.
Proof.
  intros Hl Hi. unfold activeOf, setActive. simpl. destruct (decide (j = i)) as [->|].
  - rewrite list_lookup_insert_eq by lia. done.
  - by rewrite list_lookup_insert_ne.
Qed.

(** *** Messages keep the phone and the reader in step *)

(** The phone's pointers are [ids]. *)
Definition sees (r : t) (ids : list nat) : Prop := handler_ r = true -> phone (out r) = Some ids.

(** The pointers of the phone are the active ones. *)
Definition insync (r : t) : Prop :=
  length (aaActive_ r) = MAX_SLOTS /\ sees r (activeIds r).

Lemma sees_emit r o ids ids' :
  sees r ids -> android (Some ids) o = Some ids' -> sees (emit o r) ids'.
Proof.
  intros H1 H2 Hh. unfold phone, emit. simpl. rewrite fold_left_app. simpl.
  fold (phone (out r)). rewrite (H1 Hh). done.
Qed.

(** Nothing but the active set and the messages differs. *)
Definition frame (r r' : t) : Prop := r' = r <| aaActive_ := aaActive_ r' |> <| out := out r' |>.

Lemma frame_refl r : frame r r.
Proof. by destruct r. Qed.

Lemma frame_trans r1 r2 r3 : frame r1 r2 -> frame r2 r3 -> frame r1 r3.
Proof. unfold frame. intros -> ->. done. Qed.

Lemma frame_sendBoundary i a b r : frame r (sendBoundary i a b r).
Proof. unfold frame, sendBoundary. destruct (handler_ r) eqn:E; by destruct r. Qed.

Lemma frame_setActive i b r : frame r (setActive i b r).
Proof. by destruct r. Qed.

Lemma frame_retire i r : frame r (retire i r).
Proof. eapply frame_trans; [apply frame_sendBoundary|apply frame_setActive]. Qed.

Lemma aaActive_sendBoundary i a b r : aaActive_ (sendBoundary i a b r) = aaActive_ r.
Proof. unfold sendBoundary. by destruct (handler_ r). Qed.

Lemma handler_sendBoundary i a b r : handler_ (sendBoundary i a b r) = handler_ r.
Proof. unfold sendBoundary. destruct (handler_ r) eqn:E; exact E. Qed.

Lemma delete_lt_length {A} k (l : list A) :
  (k < length l)%nat -> length (delete k l) = (length l - 1)%nat.
Proof. intros H. apply length_delete. by apply lookup_lt_is_Some. Qed.

(** Switching pointer [i] of a synchronised state. *)
Lemma activeIds_switch r i f : length (aaActive_ r) = MAX_SLOTS -> (i < MAX_SLOTS)%nat ->
  activeOf r i = true ->
  let k := indexOf i (map f (activeIds r)) in (forall j, p_id (f j) = j) ->
  activeIds (setActive i false r) = delete k (activeIds r) /\ (k < length (activeIds r))%nat.
Proof.
  intros Hl Hi Ha k Hf. apply filter_delete; auto using List.seq_NoDup.
  - apply List.in_seq. lia.
  - rewrite activeOf_set by done. by destruct (decide (i = i)).
  - intros j Hj. rewrite activeOf_set by done. by destruct (decide (j = i)).
Qed.

Lemma retire_insync r i : (i < MAX_SLOTS)%nat -> activeOf r i = true ->
  insync r -> insync (retire i r).
Proof.
  intros Hi Ha [Hl Hs]. split.
  { simpl. rewrite aaActive_sendBoundary. by rewrite length_insert. }
  destruct (activeIds_switch r i (pointerAt r) Hl Hi Ha ltac:(done)) as [E Hk].
  assert (E' : activeIds (retire i r) = activeIds (setActive i false r)).
  { unfold activeIds, activeOf, retire, setActive. simpl. by rewrite aaActive_sendBoundary. }
  rewrite E', E. unfold retire.
  intros Hh. change (out (setActive i false (sendBoundary i 1 6 r)))
    with (out (sendBoundary i 1 6 r)).
  change (handler_ (setActive i false (sendBoundary i 1 6 r)))
    with (handler_ (sendBoundary i 1 6 r)) in Hh.
  assert (handler_ r = true) as Hr by (by rewrite handler_sendBoundary in Hh).
  unfold sendBoundary. rewrite Hr. refine (sees_emit _ _ _ _ Hs _ Hr).
  unfold android. rewrite ids_of_pointers. fold (buildAaPointers r) in Hk |- *.
  assert (Hlen : length (buildAaPointers r) = length (activeIds r)) by apply length_map.
  rewrite Hlen. set (k := indexOf i (buildAaPointers r)) in *.
  destruct (Nat.eqb_spec (length (activeIds r)) 1) as [E1|E1]; simpl.
  - assert (k = 0%nat) as -> by lia. rewrite bool_decide_true by done. done.
  - rewrite bool_decide_true by done.
    destruct (length (activeIds r)) as [|[|n]] eqn:El; [lia|lia|]. rewrite <- El in *.
    destruct (Nat.ltb_spec k (length (activeIds r))); [|lia]. done.
Qed.

Lemma setActive_self r i b b' : setActive i b (setActive i b' r) = setActive i b r.
Proof. unfold setActive. destruct r. cbn. by rewrite list_insert_insert_eq. Qed.

Lemma setActive_same r i : activeOf r i = false -> setActive i false r = r.
Proof.
  intros H. unfold setActive, activeOf in *. destruct r. cbn in *. f_equal.
  destruct (aaActive_0 !! i) eqn:E; simpl in H; subst.
  - by apply list_insert_id.
  - apply list_insert_ge. by apply lookup_ge_None.
Qed.

Lemma admit_insync r i : (i < MAX_SLOTS)%nat -> activeOf r i = false ->
  insync r -> insync (sendBoundary i 0 5 (setActive i true r)).
Proof.
  intros Hi Ha [Hl Hs]. set (r1 := setActive i true r).
  assert (Hl1 : length (aaActive_ r1) = MAX_SLOTS) by (simpl; by rewrite length_insert).
  assert (Ha1 : activeOf r1 i = true).
  { unfold r1. rewrite activeOf_set by done. by destruct (decide (i = i)). }
  split; [by rewrite aaActive_sendBoundary|].
  destruct (activeIds_switch r1 i (pointerAt r1) Hl1 Hi Ha1 ltac:(done)) as [E Hk].
  assert (Hback : setActive i false r1 = r).
  { unfold r1. rewrite setActive_self. by apply setActive_same. }
  rewrite Hback in E.
  intros Hh. assert (handler_ r1 = true) as Hr
    by (by rewrite handler_sendBoundary in Hh).
  unfold sendBoundary. rewrite Hr.
  assert (Hs1 : sees r1 (activeIds r)) by exact Hs.
  refine (sees_emit _ _ _ _ Hs1 _ Hr).
  unfold android. rewrite ids_of_pointers. fold (buildAaPointers r1) in Hk, E |- *.
  assert (Hlen : length (buildAaPointers r1) = length (activeIds r1)) by apply length_map.
  rewrite Hlen. set (k := indexOf i (buildAaPointers r1)) in *.
  pose proof (delete_lt_length _ _ Hk) as Hd.
  destruct (Nat.eqb_spec (length (activeIds r1)) 1) as [E1|E1]; simpl.
  - assert (k = 0%nat) as Ek by lia. rewrite Ek. simpl. rewrite bool_decide_true; [done|].
    apply length_zero_iff_nil. rewrite E, Hd. lia.
  - rewrite (bool_decide_false (activeIds r = [])).
    2: { intros E0. rewrite E, <- length_zero_iff_nil, Hd in E0. lia. }
    rewrite bool_decide_true by (apply NoDup_ListNoDup, activeIds_NoDup).
    destruct (Nat.ltb_spec k (length (activeIds r1))); [|lia].
    rewrite bool_decide_true by (by rewrite E). done.
Qed.

Lemma moves_insync c b r : insync r -> insync (sendMoves c b r).
Proof.
  intros [Hl Hs]. unfold sendMoves. destruct (existsb _ _ && negb b); [|done].
  destruct (handler_ r) eqn:Hr; [|done]. simpl.
  destruct (bool_decide_reflect (buildAaPointers r = [])) as [E|E]; [done|]. simpl.
  split; [done|]. apply (sees_emit r _ (activeIds r)); [done|].
  unfold android. rewrite ids_of_pointers. simpl.
  rewrite bool_decide_false, bool_decide_true by (try done; intros E'; apply E;
    by rewrite <- length_zero_iff_nil, <- (ids_of_pointers r), length_map,
      length_zero_iff_nil in E').
  done.
Qed.

Lemma frame_sendMoves c b r : frame r (sendMoves c b r).
Proof.
  unfold frame, sendMoves. destruct (existsb _ _ && negb b); [|by destruct r].
  destruct (handler_ r && _); by destruct r.
Qed.

(** Withdrawing the pointers: the phone ends with none. *)
Lemma releaseAa_spec r : insync r ->
  let r' := releaseAaTouchStream r in
  insync r' /\ frame r r' /\ forall i, activeOf r' i = false.
Proof.
  intros Hs r'.
  assert (H : insync r' /\ frame r r' /\
    forall i, (i < MAX_SLOTS)%nat -> activeOf r' i = false).
  { apply (fold_seq_ind (fun k r' => insync r' /\ frame r r' /\
      forall i, (i < k)%nat -> activeOf r' i = false)).
    { split_and!; [done|apply frame_refl|lia]. }
    intros i a Hi (H1 & H2 & H3). destruct (activeOf a i) eqn:Ea.
    - split_and!; [by apply retire_insync|by eapply frame_trans; [|apply frame_retire]|].
      intros j Hj. unfold retire. rewrite activeOf_set;
        [|rewrite aaActive_sendBoundary; apply H1|done].
      destruct (decide (j = i)); [done|].
      unfold activeOf. rewrite aaActive_sendBoundary. apply H3. lia.
    - split_and!; [done|done|]. intros j Hj. destruct (decide (j = i)) as [->|]; [done|].
      apply H3. lia. }
  destruct H as (H1 & H2 & H3). split_and!; [done|done|]. intros i.
  destruct (decide (i < MAX_SLOTS)%nat); [auto|].
  unfold activeOf. rewrite lookup_ge_None_2; [done|]. destruct H1 as [-> _]. lia.
Qed.

Lemma activeIds_none r : (forall i, activeOf r i = false) -> activeIds r = [].
Proof.
  intros H. unfold activeIds. induction (seq 0 MAX_SLOTS) as [|a l IH]; [done|].
  simpl. by rewrite H.
Qed.

(** *** The state between two reports *)

Record Inv (r : t) : Prop := {
  inv_handler : handler_ r = true;
  inv_sync : insync r;
  inv_slots : length (slots_ r) = MAX_SLOTS;
  inv_prev : length (prevSlots_ r) = MAX_SLOTS;
  inv_claims : length (claimedZone_ (router_ r)) = MAX_SLOTS;
  inv_down i : activeOf r i = true -> down (slotOf (prevSlots_ r) i) = true;
  inv_claim i : claimOf i (router_ r) <> "" -> activeOf r i = false;
  inv_clean i : dirty (slotOf (slots_ r) i) = false ->
    down (slotOf (slots_ r) i) = down (slotOf (prevSlots_ r) i);
  inv_grab : deviceGrabbed_ r = false -> forall i, activeOf r i = false;
  inv_fd : fd_ r = false -> deviceGrabbed_ r = false;
  inv_phase : phase r <> Polling -> fd_ r = false
}.

(** The part of the state the invariant is about, the messages apart. *)
Definition core (r : t) :=
  (handler_ r, slots_ r, prevSlots_ r, aaActive_ r, router_ r, deviceGrabbed_ r, fd_ r, phase r).

(** [r'] differs from [r] by nothing the phone or the invariant notice. *)
Definition quiet (r r' : t) : Prop :=
  core r' = core r /\ phone (out r') = phone (out r).

Lemma quiet_refl r : quiet r r.
Proof. done. Qed.

Lemma quiet_trans r1 r2 r3 : quiet r1 r2 -> quiet r2 r3 -> quiet r1 r3.
Proof. intros [H1 H2] [H3 H4]. split; congruence. Qed.

Lemma quiet_out o r : (forall st, android st o = st) -> quiet r (emit o r).
Proof.
  intros H. split; [done|]. unfold phone, emit. simpl. rewrite fold_left_app. simpl. apply H.
Qed.

Lemma quiet_Inv r r' : quiet r r' -> Inv r -> Inv r'.
Proof.
  intros [Hc Hp] [Hh0 [Hl Hs] ? ? ? ? ? ? Hg ? ?].
  injection Hc as E1 E2 E3 E4 E5 E6 E7 E8.
  assert (Ha : forall i, activeOf r' i = activeOf r i) by (unfold activeOf; congruence).
  assert (Hi : activeIds r' = activeIds r) by (apply List.filter_ext, Ha).
  split; rewrite ?E2, ?E3, ?E5, ?E6, ?E7, ?E8; try intros i; rewrite ?Ha; auto; try congruence.
  - split; [congruence|]. intros Hh. rewrite Hp, Hi. apply Hs. congruence.
  - intros j. rewrite Ha. by apply Hg.
Qed.

#[local] Hint Resolve quiet_refl : core.

Lemma computeLetterbox_quiet r : quiet r (computeLetterbox r).
Proof.
  unfold computeLetterbox. destruct (effectiveDisplay r) as [[[w h] x0] y0].
  destruct (videoPixels _ _ _ _ _) as [[[pw ph] px] py].
  match goal with |- quiet r (if _ then emit ?o ?r' else _) =>
    assert (quiet r r') by (by destruct r); generalize dependent r' end.
  intros r' Hq. destruct (handler_ r'); [|done].
  eapply quiet_trans; [apply Hq|]. apply quiet_out. by intros [].
Qed.

Lemma applyPendingMapping_quiet f r : quiet r (applyPendingMapping f r).
Proof.
  unfold applyPendingMapping. destruct (negb f && _); [done|].
  eapply quiet_trans; [|apply computeLetterbox_quiet]. by destruct r.
Qed.

Lemma checkGesture_quiet c r : quiet r (fst (checkGesture c r)).
Proof.
  unfold checkGesture. cbn [fst].
  eapply (quiet_trans _ (trackFingers c (countActive r) r)).
  { unfold trackFingers. split; destruct (_ && _); [done| |done|]; by destruct (_ <? _). }
  generalize (trackFingers c (countActive r) r). intros r1.
  eapply (quiet_trans _ (detectGesture c r1)).
  { unfold detectGesture. destruct (_ && _); [|done]. destruct (_ <=? _); [|done].
    eapply quiet_trans; [|apply quiet_out; by intros []]. done. }
  generalize (detectGesture c r1). intros r2. by destruct (_ && _).
Qed.

Lemma slotOf_replicate n i : slotOf (replicate n noSlot) i = noSlot.
Proof.
  unfold slotOf. destruct (replicate n noSlot !! i) eqn:E; [|done].
  apply lookup_replicate in E as [-> _]. done.
Qed.

Lemma reset_Inv r : handler_ r = true -> insync r -> length (claimedZone_ (router_ r)) = MAX_SLOTS ->
  (fd_ r = false -> deviceGrabbed_ r = false) -> (phase r <> Polling -> fd_ r = false) ->
  Inv (resetTouchState r) /\ forall i, activeOf (resetTouchState r) i = false.
Proof.
  intros Hh Hs Hc Hf Hp. destruct (releaseAa_spec r Hs) as ([Hl Hs'] & Hfr & Hno).
  assert (Hact : forall i, activeOf (resetTouchState r) i = false).
  { intros i. unfold activeOf, resetTouchState. cbn -[replicate MAX_SLOTS releaseAaTouchStream].
    destruct (replicate MAX_SLOTS false !! i) eqn:E; [|done].
    apply lookup_replicate in E as [-> _]. done. }
  unfold resetTouchState in *. generalize dependent (releaseAaTouchStream r).
  intros r1 Hl Hs' Hfr Hno Hact. split; [|done].
  split; cbn -[replicate MAX_SLOTS]; try done.
  - rewrite Hfr. exact Hh.
  - split; [done|]. rewrite activeIds_none by done.
    rewrite activeIds_none in Hs' by done. exact Hs'.
  - rewrite length_map, Hfr. done.
  - intros i Hi. by rewrite Hact in Hi.
  - rewrite Hfr. done.
  - rewrite Hfr. done.
Qed.

Lemma applyRequestedGrab_Inv ioctl r : Inv r -> Inv (applyRequestedGrab ioctl r).
Proof.
  intros HI. unfold applyRequestedGrab.
  destruct (eqb _ _ || negb (fd_ r)) eqn:E; [done|]. breflect.
  destruct ioctl; [|done]. simpl.
  destruct HI. destruct (requestedGrab_ r) eqn:Eg.
  - split; try done. simpl. congruence.
  - apply reset_Inv; try done.
Qed.

Lemma phase_Inv p r : Inv r -> (p <> Polling -> fd_ r = false) -> Inv (r <| phase := p |>).
Proof. intros [] Hp. by split. Qed.

Lemma closeDevice_fd r : (fd_ r = false -> deviceGrabbed_ r = false) ->
  fd_ (closeDevice r) = false /\ deviceGrabbed_ (closeDevice r) = false.
Proof. unfold closeDevice. destruct (fd_ r) eqn:E; simpl; auto. Qed.

Lemma resetTouchState_fd r : insync r ->
  fd_ (resetTouchState r) = fd_ r /\ deviceGrabbed_ (resetTouchState r) = deviceGrabbed_ r.
Proof.
  intros Hs. destruct (releaseAa_spec r Hs) as (_ & Hf & _).
  unfold resetTouchState. rewrite Hf. done.
Qed.

Lemma leaveDevice_Inv r : Inv r -> Inv (leaveDevice r).
Proof.
  intros HI. destruct HI. destruct (closeDevice_fd r) as [E1 E2]; [done|].
  assert (Hs : insync (closeDevice r)) by (unfold closeDevice; by destruct (fd_ r)).
  assert (Hh : handler_ (closeDevice r) = handler_ r) by (unfold closeDevice; by destruct (fd_ r)).
  assert (Hc : router_ (closeDevice r) = router_ r) by (unfold closeDevice; by destruct (fd_ r)).
  unfold leaveDevice. apply phase_Inv.
  - apply reset_Inv; [by rewrite Hh|done|by rewrite Hc|done|done].
  - intros _. destruct (resetTouchState_fd _ Hs) as [-> _]. done.
Qed.

(** *** The router *)

Lemma claimOf_set rt i c j : length (claimedZone_ rt) = MAX_SLOTS -> (i < MAX_SLOTS)%nat ->
  claimOf j (setClaim i c rt) = if decide (j = i) then c else claimOf j rt.
Proof.
  intros Hl Hi. unfold claimOf, setClaim. simpl. destruct (decide (j = i)) as [->|].
  - by rewrite list_lookup_insert_eq by lia.
  - by rewrite list_lookup_insert_ne.
Qed.

Lemma claimOf_setZones {zsort : ZoneSort} zs rt i :
  claimOf i (setZones zs rt) = claimOf i rt \/ claimOf i (setZones zs rt) = "".
Proof.
  unfold claimOf, setZones. simpl. rewrite list_lookup_fmap.
  destruct (claimedZone_ rt !! i) as [c|]; [|by left]. simpl.
  destruct (bool_decide_reflect (c = "")); [by left|]. destruct (zoneNamed _ _); auto.
Qed.

(** What [dispatch] does to the claims, and when it consumes a touch. *)
Definition dispatched (i : nat) (ev : TouchEvent) (rt : TouchRouter.t)
    (res : TouchRouter.t * bool) : Prop :=
  let '(rt', c) := res in
  length (claimedZone_ rt') = MAX_SLOTS
  /\ (forall j, j <> i -> claimOf j rt' = claimOf j rt)
  /\ (c = false -> claimOf i rt' = "")
  /\ (c = true -> ev = Down \/ claimOf i rt <> "")
  /\ (ev <> Down -> claimOf i rt' <> "" -> claimOf i rt <> "").

Section Dispatch.
Variables (i : nat) (px py : float) (ev : TouchEvent) (rt : TouchRouter.t).
Hypothesis Hl : length (claimedZone_ rt) = MAX_SLOTS.
Hypothesis Hi : (i < MAX_SLOTS)%nat.

Lemma claim_length c : length (claimedZone_ (setClaim i c rt)) = MAX_SLOTS.
Proof. simpl. by rewrite length_insert. Qed.

Lemma claim_other c j : j <> i -> claimOf j (setClaim i c rt) = claimOf j rt.
Proof. intros Hj. rewrite claimOf_set by done. by destruct (decide (j = i)). Qed.

Lemma claim_self c : claimOf i (setClaim i c rt) = c.
Proof. rewrite claimOf_set by done. by destruct (decide (i = i)). Qed.

(** A slot without a claim. *)
Lemma dispatch_fresh : claimOf i rt = "" ->
  dispatched i ev rt
    (if negb (bool_decide (ev = Down)) then (rt, false)
     else match List.find (inside px py) (TouchRouter.zones_ rt) with
          | Some z => (call (id z) i px py ev (setClaim i (id z) rt), true)
          | None => (rt, false)
          end).
Proof.
  intros E. destruct (bool_decide_reflect (ev = Down)) as [->|Hev]; simpl.
  - destruct (List.find _ _) as [z|].
    + refine (conj (claim_length _) (conj (claim_other (id z)) (conj _ (conj _ _)))); auto; done.
    + refine (conj Hl (conj _ (conj _ (conj _ _)))); auto; done.
  - refine (conj Hl (conj _ (conj _ (conj _ _)))); auto; done.
Qed.

End Dispatch.

Lemma dispatch_spec rt i px py ev : length (claimedZone_ rt) = MAX_SLOTS -> (i < MAX_SLOTS)%nat ->
  dispatched i ev rt (dispatch i px py ev rt).
Proof.
  intros Hl Hi. unfold dispatch. destruct (Nat.leb_spec MAX_SLOTS i); [lia|].
  destruct (bool_decide_reflect (claimOf i rt = "")) as [E|E].
  { by apply dispatch_fresh. }
  cbn [negb andb]. destruct (zoneNamed _ _).
  - cbv zeta. set (rt1 := call _ _ _ _ _ rt).
    assert (Hl1 : length (claimedZone_ rt1) = MAX_SLOTS) by done.
    destruct (decide (ev = Up)).
    + refine (conj (claim_length i rt1 Hl1 "") (conj _ (conj _ (conj _ _)))); auto.
      * intros j Hj. by rewrite claim_other.
      * done.
    + refine (conj Hl1 (conj _ (conj _ (conj _ _)))); auto; done.
  - assert (Hc : claimOf i (setClaim i "" rt) = "") by (by apply claim_self).
    pose proof (dispatch_fresh i px py ev (setClaim i "" rt)
      (claim_length i rt Hl "") Hi Hc) as H1.
    unfold dispatched in H1 |- *. change (TouchRouter.zones_ (setClaim i "" rt))
      with (TouchRouter.zones_ rt) in H1.
    destruct (if negb (bool_decide (ev = Down)) then _ else _) as [rt' c].
    destruct H1 as (L & O & F & T & N). refine (conj L (conj _ (conj F (conj _ _)))); auto.
    intros j Hj. rewrite O by done. by apply claim_other.
Qed.

(** *** A report *)

Section Sync.
Context {zsort : ZoneSort}.

Definition routed (r r' : t) : Prop := r' = r <| router_ := router_ r' |>.

Lemma routed_set r r' rt : routed r r' -> routed r (r' <| router_ := rt |>).
Proof. unfold routed. intros H. rewrite H. done. Qed.

(** The claims and consumed slots after the first [k] slots went to the router. *)
Definition routing (r : t) (k : nat) (st : t * list bool) : Prop :=
  let '(r', consumed) := st in
  routed r r' /\ length (claimedZone_ (router_ r')) = MAX_SLOTS
  /\ length consumed = MAX_SLOTS
  /\ (forall i, claimOf i (router_ r') <> "" -> activeOf r i = false)
  /\ (forall i, isConsumed consumed i = true -> activeOf r i = false)
  /\ (forall i, (i < k)%nat -> dirty (slotOf (slots_ r) i) = true -> pressed r i = true ->
        isConsumed consumed i = false -> claimOf i (router_ r') = "").

Lemma isConsumed_set l i c j : length l = MAX_SLOTS -> (i < MAX_SLOTS)%nat ->
  isConsumed (<[i := c]> l) j = if decide (j = i) then c else isConsumed l j.
Proof.
  intros Hl Hi. unfold isConsumed. destruct (decide (j = i)) as [->|].
  - by rewrite list_lookup_insert_eq by lia.
  - by rewrite list_lookup_insert_ne.
Qed.

(** A change of the zones only removes claims. *)
Lemma routing_zones r k zs r' c :
  routing r k (r', c) -> routing r k (request (zonesChanged zs) r', c).
Proof.
  intros (H1 & H2 & H3 & H4 & H5 & H6).
  assert (Hz : forall i, claimOf i (router_ (request (zonesChanged zs) r')) = claimOf i (router_ r')
    \/ claimOf i (router_ (request (zonesChanged zs) r')) = "")
    by (intros i; apply claimOf_setZones).
  split_and!; auto.
  - by apply (routed_set r r').
  - simpl. by rewrite length_map.
  - intros i Hi. destruct (Hz i) as [E|E]; [apply H4; by rewrite <- E|done].
  - intros i Hi Hd Hp Hc. destruct (Hz i) as [E|E]; [rewrite E; by apply H6|done].
Qed.

Lemma dispatchSlot_routing zs r i st : Inv r -> (i < MAX_SLOTS)%nat ->
  routing r i st -> routing r (S i) (dispatchSlot zs i st).
Proof.
  intros HI Hi. destruct st as [r0 c]. intros H0. unfold dispatchSlot.
  set (r1 := match zs i with Some z => _ | None => r0 end).
  assert (H1 : routing r i (r1, c)) by (unfold r1; destruct (zs i); [by apply routing_zones|done]).
  clearbody r1. clear H0 r0. destruct H1 as (Hr & Hl & Hc & H4 & H5 & H6).
  assert (Es : slots_ r1 = slots_ r) by (by rewrite Hr).
  assert (Ep : prevSlots_ r1 = prevSlots_ r) by (by rewrite Hr).
  rewrite Es, Ep.
  destruct (dirty (slotOf (slots_ r) i)) eqn:Ed; simpl.
  2: { split_and!; auto. intros j Hj Hd. destruct (decide (j = i)) as [->|]; [congruence|].
       apply H6; [lia|done]. }
  destruct (slotEvent (slotOf (prevSlots_ r) i) (slotOf (slots_ r) i)) as [[ev s]|] eqn:Ee.
  2: { split_and!; auto. intros j Hj Hd Hp. destruct (decide (j = i)) as [->|].
       - unfold slotEvent in Ee. unfold pressed in Hp. by destruct (down _), (down _).
       - apply H6; [lia|done|done]. }
  pose proof (dispatch_spec (router_ r1) i (f32 (x s)) (f32 (y s)) ev Hl Hi) as Hd.
  destruct (dispatch _ _ _ _ _) as [rt b]. destruct Hd as (L & O & F & T & N).
  assert (Hdown : ev = Down -> activeOf r i = false).
  { intros ->. destruct (activeOf r i) eqn:Ea; [|done].
    apply (inv_down _ HI) in Ea. unfold slotEvent in Ee. rewrite Ea in Ee.
    by destruct (down _). }
  split_and!; auto.
  - by apply routed_set.
  - by rewrite length_insert.
  - intros j Hj. simpl in Hj. destruct (decide (j = i)) as [->|]; [|apply H4; by rewrite <- O].
    destruct (decide (ev = Down)); [auto|]. apply H4. auto.
  - intros j Hj. rewrite isConsumed_set in Hj by done.
    destruct (decide (j = i)) as [->|]; [|auto]. destruct (T Hj); auto.
  - intros j Hj Hdj Hp Hcj. rewrite isConsumed_set in Hcj by done. simpl.
    destruct (decide (j = i)) as [->|]; [auto|]. rewrite O by done. apply H6; auto with lia.
Qed.

Lemma dispatchAll_routing zs r : Inv r -> routing r MAX_SLOTS (dispatchAll zs r).
Proof.
  intros HI. apply (fold_seq_ind (routing r)).
  - split_and!; try done; try apply HI; [by destruct r| |lia].
    intros i Hi. unfold isConsumed in Hi.
    destruct (replicate MAX_SLOTS false !! i) eqn:E; [|done].
    apply lookup_replicate in E as [-> _]. done.
  - intros. by apply dispatchSlot_routing.
Qed.

(** Pointer [i] leaves, or enters, the phone in this report. *)
Definition leaves (c : list bool) (r : t) (i : nat) : bool := ours c r i && lifted r i.
Definition enters (c : list bool) (r : t) (i : nat) : bool := ours c r i && pressed r i.

Lemma frame_tests r r' c i : frame r r' ->
  ours c r' i = ours c r i /\ lifted r' i = lifted r i /\ pressed r' i = pressed r i.
Proof. intros ->. done. Qed.

Lemma retire_loop c r : insync r ->
  let r' := fst (fold_left (retireStep c) (seq 0 MAX_SLOTS) (r, false)) in
  insync r' /\ frame r r' /\
  forall i, (i < MAX_SLOTS)%nat -> activeOf r' i = activeOf r i && negb (leaves c r i).
Proof.
  intros Hs r'.
  assert (H : insync r' /\ frame r r' /\ forall i, (i < MAX_SLOTS)%nat ->
    activeOf r' i = activeOf r i && negb ((i <? MAX_SLOTS)%nat && leaves c r i)).
  { apply (fold_seq_ind (fun k st => insync (fst st) /\ frame r (fst st) /\
      forall i, (i < MAX_SLOTS)%nat ->
        activeOf (fst st) i = activeOf r i && negb ((i <? k)%nat && leaves c r i))).
    { split_and!; [done|apply frame_refl|]. intros i _. by rewrite andb_true_r. }
    intros i [a b] Hi (H1 & H2 & H3). simpl in *.
    destruct (frame_tests r a c i H2) as (Eo & El & _). rewrite Eo, El.
    assert (Hlt : (i <? S i)%nat = true) by (apply Nat.ltb_lt; lia).
    assert (Hj : forall j, j <> i -> (j <? S i)%nat = (j <? i)%nat).
    { intros j Hj. destruct (Nat.ltb_spec j i), (Nat.ltb_spec j (S i)); lia. }
    destruct (ours c r i && activeOf a i && lifted r i) eqn:E; simpl.
    - breflect. split_and!;
        [by apply retire_insync|by eapply frame_trans; [|apply frame_retire]|].
      intros j Hjl. unfold retire. rewrite activeOf_set
        by (try rewrite aaActive_sendBoundary; first [apply H1|done]).
      destruct (decide (j = i)) as [->|Hne].
      + rewrite Hlt. unfold leaves. destruct (activeOf r i); [|done].
        destruct (ours c r i), (lifted r i); done.
      + unfold activeOf at 1. rewrite aaActive_sendBoundary. rewrite Hj by done. by apply H3.
    - split_and!; [done|done|]. intros j Hjl. destruct (decide (j = i)) as [->|Hne].
      + rewrite Hlt. rewrite H3 in E |- * by done. unfold leaves.
        rewrite (proj2 (Nat.ltb_ge i i)) in E |- * by lia. simpl in *.
        destruct (activeOf r i), (ours c r i), (lifted r i); done.
      + rewrite Hj by done. by apply H3. }
  destruct H as (H1 & H2 & H3). split_and!; [done|done|]. intros i Hi. rewrite H3 by done.
  by rewrite (proj2 (Nat.ltb_lt _ _) Hi).
Qed.

Lemma admit_loop c b r :
  insync r -> (forall i, (i < MAX_SLOTS)%nat -> enters c r i = true -> activeOf r i = false) ->
  let r' := fst (fold_left (admitStep c) (seq 0 MAX_SLOTS) (r, b)) in
  insync r' /\ frame r r' /\
  forall i, (i < MAX_SLOTS)%nat -> activeOf r' i = activeOf r i || enters c r i.
Proof.
  intros Hs Hno r'.
  assert (H : insync r' /\ frame r r' /\ forall i, (i < MAX_SLOTS)%nat ->
    activeOf r' i = activeOf r i || ((i <? MAX_SLOTS)%nat && enters c r i)).
  { apply (fold_seq_ind (fun k st => insync (fst st) /\ frame r (fst st) /\
      forall i, (i < MAX_SLOTS)%nat ->
        activeOf (fst st) i = activeOf r i || ((i <? k)%nat && enters c r i))).
    { split_and!; [done|apply frame_refl|]. intros i _. by rewrite orb_false_r. }
    intros i [a s] Hi (H1 & H2 & H3). simpl in *.
    destruct (frame_tests r a c i H2) as (Eo & _ & El). rewrite Eo, El.
    assert (Hlt : (i <? S i)%nat = true) by (apply Nat.ltb_lt; lia).
    assert (Hii : (i <? i)%nat = false) by (apply Nat.ltb_ge; lia).
    assert (Hj : forall j, j <> i -> (j <? S i)%nat = (j <? i)%nat).
    { intros j Hj. destruct (Nat.ltb_spec j i), (Nat.ltb_spec j (S i)); lia. }
    fold (enters c r i). destruct (enters c r i) eqn:E; cbn [fst].
    - split_and!.
      + apply admit_insync; [done| |done]. rewrite H3, Hii by done. by rewrite Hno.
      + eapply frame_trans; [done|]. eapply frame_trans; [apply frame_setActive|].
        apply frame_sendBoundary.
      + intros j Hjl. unfold activeOf at 1. rewrite aaActive_sendBoundary.
        fold (activeOf (setActive i true a) j). rewrite activeOf_set by (done || apply H1).
        destruct (decide (j = i)) as [->|Hne].
        * rewrite Hlt, E. by rewrite orb_true_r.
        * rewrite Hj by done. by apply H3.
    - split_and!; [done|done|]. intros j Hjl. destruct (decide (j = i)) as [->|Hne].
      + rewrite H3, E by done. by rewrite !andb_false_r.
      + rewrite Hj by done. by apply H3. }
  destruct H as (H1 & H2 & H3). split_and!; [done|done|]. intros i Hi. rewrite H3 by done.
  by rewrite (proj2 (Nat.ltb_lt _ _) Hi).
Qed.

Lemma activeOf_out r i : length (aaActive_ r) = MAX_SLOTS -> (MAX_SLOTS <= i)%nat ->
  activeOf r i = false.
Proof. intros Hl Hi. unfold activeOf. by rewrite lookup_ge_None_2 by lia. Qed.

Lemma slotOf_clean r i : slotOf (slots_ (clearDirty r)) i = slotOf (slots_ r) i <| dirty := false |>.
Proof.
  unfold slotOf, clearDirty. simpl. rewrite list_lookup_fmap. by destruct (slots_ r !! i).
Qed.

Lemma activeOf_clean r i : activeOf (clearDirty r) i = activeOf r i.
Proof. done. Qed.

Lemma activeOf_cleared r i :
  activeOf (r <| aaActive_ := replicate MAX_SLOTS false |>) i = false.
Proof.
  unfold activeOf. simpl. change (default false (replicate MAX_SLOTS false !! i) = false).
  destruct (replicate MAX_SLOTS false !! i) eqn:E; [|done].
  apply lookup_replicate in E as [-> _]. done.
Qed.

(** Closing a report: every active pointer's finger is down, and no zone has it. *)
Lemma clearDirty_Inv r :
  handler_ r = true -> insync r -> length (slots_ r) = MAX_SLOTS -> length (claimedZone_ (router_ r)) = MAX_SLOTS ->
  (forall i, activeOf r i = true -> down (slotOf (slots_ r) i) = true) ->
  (forall i, claimOf i (router_ r) <> "" -> activeOf r i = false) ->
  (deviceGrabbed_ r = false -> forall i, activeOf r i = false) ->
  (fd_ r = false -> deviceGrabbed_ r = false) -> (phase r <> Polling -> fd_ r = false) ->
  Inv (clearDirty r).
Proof.
  intros Hh Hs Hl Hc Hd Hz Hg Hf Hp. split; auto.
  - simpl. by rewrite length_map.
  - simpl. by rewrite length_map.
  - intros i Hi. change (prevSlots_ (clearDirty r)) with (slots_ (clearDirty r)).
    rewrite slotOf_clean. exact (Hd i Hi).
Qed.

Lemma activeOf_moves c b r i : activeOf (sendMoves c b r) i = activeOf r i.
Proof. unfold activeOf, sendMoves. by repeat case_match. Qed.

(** A grabbed device is open and polled. *)
Lemma grabbed_polling r : Inv r -> deviceGrabbed_ r = true -> fd_ r = true /\ phase r = Polling.
Proof.
  intros HI Hg. destruct (fd_ r) eqn:E; [|apply (inv_fd _ HI) in E; congruence].
  destruct (decide (phase r = Polling)) as [|Ep]; [done|].
  apply (inv_phase _ HI) in Ep. congruence.
Qed.

Section Forward.
Variables (r r2 : t) (c : list bool).
Hypothesis HI : Inv r.
Hypothesis Hgr : deviceGrabbed_ r = true.
Hypothesis Hrt : routing r MAX_SLOTS (r2, c).

Lemma routed_sync : handler_ r2 = true /\ insync r2 /\ slots_ r2 = slots_ r /\ prevSlots_ r2 = prevSlots_ r
  /\ deviceGrabbed_ r2 = true /\ fd_ r2 = true /\ phase r2 = Polling
  /\ forall i, activeOf r2 i = activeOf r i.
Proof.
  destruct Hrt as [-> _]. destruct (grabbed_polling r HI Hgr). split_and!; try done; apply HI.
Qed.

Lemma suppress_spec : Inv (suppress r2) /\ forall i, activeOf (suppress r2) i = false.
Proof.
  destruct routed_sync as (Hh2 & Hs2 & Esl & _ & Hg2 & Hf2 & Hph2 & _).
  destruct Hrt as (_ & Hl2 & _ & H4 & _).
  destruct (releaseAa_spec r2 Hs2) as ([Hl3 Hs3] & Hfr & Hno). unfold suppress.
  generalize dependent (releaseAaTouchStream r2). intros r3 Hl3 Hs3 Hfr Hno.
  cbv zeta. set (r4 := r3 <| aaActive_ := replicate MAX_SLOTS false |>).
  assert (Hno' : forall i, activeOf r4 i = false) by apply activeOf_cleared.
  assert (Hs4 : insync r4).
  { split; [done|]. rewrite activeIds_none by done. rewrite activeIds_none in Hs3 by done.
    exact Hs3. }
  assert (E4 : handler_ r4 = handler_ r2 /\ slots_ r4 = slots_ r2 /\ router_ r4 = router_ r2 /\ fd_ r4 = fd_ r2
    /\ deviceGrabbed_ r4 = deviceGrabbed_ r2 /\ phase r4 = phase r2)
    by (unfold r4; by rewrite Hfr).
  destruct E4 as (E0 & E1 & E2 & E3 & E4 & E5). clearbody r4.
  split; [|intros i; rewrite activeOf_clean; apply Hno'].
  apply clearDirty_Inv; rewrite ?E0, ?E1, ?E2, ?E3, ?E4, ?E5, ?Esl; auto; try congruence.
  apply HI.
Qed.

Lemma enters_inactive i : enters c r i = true -> activeOf r i = false.
Proof.
  intros E. unfold enters, pressed in E. breflect.
  destruct (activeOf r i) eqn:E'; [|done]. apply (inv_down _ HI) in E'. congruence.
Qed.

(** The loops of [forward] before the report is closed. *)
Lemma forward_loops :
  exists r5, forward c r2 = clearDirty r5 /\ insync r5 /\ frame r2 r5
  /\ forall i, (i < MAX_SLOTS)%nat ->
       activeOf r5 i = activeOf r i && negb (leaves c r i) || enters c r i.
Proof.
  destruct routed_sync as (Hh2 & Hs2 & Esl & Epl & _ & _ & _ & Ea).
  assert (Hte : forall i, enters c r2 i = enters c r i /\ leaves c r2 i = leaves c r i)
    by (intros i; unfold enters, leaves, ours, lifted, pressed; by rewrite Esl, Epl).
  destruct (retire_loop c r2 Hs2) as (Hs3 & F3 & A3). unfold forward.
  destruct (fold_left (retireStep c) _ _) as [r3 b3]. cbn [fst] in *.
  assert (Ht3 : forall i, enters c r3 i = enters c r i).
  { intros i. unfold enters. destruct (frame_tests r2 r3 c i F3) as (-> & _ & ->). apply Hte. }
  destruct (admit_loop c b3 r3 Hs3) as (Hs4 & F4 & A4).
  { intros i Hi E. rewrite Ht3 in E. rewrite A3, Ea, enters_inactive by done. done. }
  destruct (fold_left (admitStep c) _ _) as [r4 b4]. cbn [fst] in *.
  eexists. split; [done|]. split; [by apply moves_insync|]. split.
  { eapply frame_trans; [|apply frame_sendMoves]. by eapply frame_trans. }
  intros i Hi. rewrite activeOf_moves, A4, A3, Ea, Ht3 by done. by destruct (Hte i) as [_ ->].
Qed.

(** A pointer that stays has its finger down. *)
Lemma stays_down i : activeOf r i = true -> leaves c r i = false ->
  down (slotOf (slots_ r) i) = true.
Proof.
  intros Hi1 Hi2. pose proof (inv_down _ HI i Hi1) as Hdn.
  destruct (dirty (slotOf (slots_ r) i)) eqn:Ed; [|by rewrite (inv_clean _ HI)].
  assert (isConsumed c i = false) as Hc.
  { destruct (isConsumed c i) eqn:E; [|done]. apply Hrt in E. congruence. }
  unfold leaves, ours, lifted in Hi2. rewrite Ed, Hc, Hdn in Hi2. simpl in Hi2.
  by apply negb_false_iff in Hi2.
Qed.

Lemma forward_spec : Inv (forward c r2) /\ forall i, (i < MAX_SLOTS)%nat ->
  activeOf (forward c r2) i = activeOf r i && negb (leaves c r i) || enters c r i.
Proof.
  destruct forward_loops as (r5 & -> & Hs5 & F5 & A5). split; [|exact A5].
  destruct routed_sync as (Hh2 & Hs2 & Esl & Epl & Hg2 & Hf2 & Hph2 & Ea).
  destruct Hrt as (_ & Hl2 & _ & H4 & _ & H6).
  assert (E5 : handler_ r5 = true /\ slots_ r5 = slots_ r /\ router_ r5 = router_ r2 /\ fd_ r5 = true
    /\ deviceGrabbed_ r5 = true /\ phase r5 = Polling).
  { rewrite F5. split_and!; done. }
  destruct E5 as (E0 & E1 & E2 & E3 & E4 & E5).
  assert (Hact : forall i, activeOf r5 i = true -> (i < MAX_SLOTS)%nat /\
    ((activeOf r i = true /\ leaves c r i = false) \/ enters c r i = true)).
  { intros i Hi. destruct (decide (i < MAX_SLOTS)%nat) as [Hlt|Hlt].
    - split; [done|]. rewrite A5 in Hi by done. apply orb_prop in Hi as [Hi|Hi]; [left|by right].
      apply andb_prop in Hi as [? Hi]. by apply negb_true_iff in Hi.
    - rewrite activeOf_out in Hi; [done|apply Hs5|lia]. }
  apply clearDirty_Inv; rewrite ?E0, ?E1, ?E2, ?E3, ?E4, ?E5; try done; [apply HI| |].
  - intros i Hi. destruct (Hact i Hi) as [_ [[Hi1 Hi2]|Hi1]]; [by apply stays_down|].
    unfold enters, pressed in Hi1. by breflect.
  - intros i Hi. destruct (activeOf r5 i) eqn:E; [|done]. exfalso.
    destruct (Hact i E) as [Hlt [[Hi1 _]|Hi1]]; [rewrite H4 in Hi1; done|].
    apply Hi. unfold enters, ours in Hi1. breflect. by apply H6.
Qed.

End Forward.

Definition consumedOf (e : SyncEnv) (r : t) : list bool :=
  snd (dispatchAll (zonesAt e) (fst (checkGesture (clock e) (applyPendingMapping false r)))).
Definition blocks (e : SyncEnv) (r : t) : bool :=
  snd (checkGesture (clock e) (applyPendingMapping false r)).

Lemma quiet_tests r r' c i : quiet r r' -> activeOf r' i = activeOf r i
  /\ leaves c r' i = leaves c r i /\ enters c r' i = enters c r i
  /\ deviceGrabbed_ r' = deviceGrabbed_ r.
Proof.
  intros [Hc _]. injection Hc. intros.
  unfold activeOf, leaves, enters, ours, pressed, lifted. split_and!; congruence.
Qed.

(** A report of a grabbed device: the invariant, and the phone's new set. *)
Lemma processSync_spec e r : Inv r -> deviceGrabbed_ r = true ->
  Inv (processSync e r) /\ forall i, (i < MAX_SLOTS)%nat ->
    activeOf (processSync e r) i =
      negb (blocks e r) && (activeOf r i && negb (leaves (consumedOf e r) r i)
                            || enters (consumedOf e r) r i).
Proof.
  intros HI Hgr.
  assert (Hq : quiet r (fst (checkGesture (clock e) (applyPendingMapping false r)))).
  { eapply quiet_trans; [apply applyPendingMapping_quiet|apply checkGesture_quiet]. }
  unfold processSync, consumedOf, blocks.
  destruct (checkGesture _ _) as [r1 bl]. cbn [fst snd] in Hq |- *.
  pose proof (quiet_Inv _ _ Hq HI) as HI1.
  assert (Hgr1 : deviceGrabbed_ r1 = true).
  { destruct (quiet_tests r r1 [] 0 Hq) as (_ & _ & _ & ->). done. }
  pose proof (dispatchAll_routing (zonesAt e) r1 HI1) as Hd.
  destruct (dispatchAll (zonesAt e) r1) as [r2 c]. cbn [snd].
  destruct bl; cbn [negb andb].
  - destruct (suppress_spec r1 r2 c HI1 Hgr1 Hd) as [H1 H2]. split; [done|]. auto.
  - destruct (forward_spec r1 r2 c HI1 Hgr1 Hd) as [H1 H2]. split; [done|].
    intros i Hi. rewrite H2 by done. by destruct (quiet_tests r r1 c i Hq) as (-> & -> & -> & _).
Qed.

(** *** The thread *)

Lemma request_Inv q r : Inv r -> Inv (request q r).
Proof.
  intros HI. destruct q; try (by apply (quiet_Inv r)).
  destruct HI. split; auto; simpl.
  - by rewrite length_map.
  - intros i Hi. destruct (claimOf_setZones zones (router_ r) i) as [E|E].
    + apply inv_claim0. by rewrite <- E.
    + destruct (Hi E).
Qed.

Lemma requests_Inv l r : Inv r -> Inv (fold_left (fun r q => request q r) l r).
Proof. induction l as [|q l IH] in r |- *; simpl; [done|]. intros HI. by apply IH, request_Inv. Qed.

Lemma updateCurrent_Inv f r : Inv r -> Inv (updateCurrent f r).
Proof.
  intros HI. destruct HI. unfold updateCurrent. split; auto; simpl.
  - by rewrite length_alter.
  - intros i. unfold slotOf. destruct (decide (i = currentSlot_ r)) as [->|Hne].
    + rewrite list_lookup_alter_eq. destruct (slots_ r !! currentSlot_ r) eqn:E; [done|].
      intros _. specialize (inv_clean0 (currentSlot_ r)). unfold slotOf in inv_clean0.
      rewrite E in inv_clean0. by apply inv_clean0.
    + rewrite list_lookup_alter_ne by done. apply inv_clean0.
Qed.

Lemma handleEvent_Inv e ev r : Inv r -> Inv (handleEvent e ev r).
Proof.
  intros HI. destruct ev; cbn [handleEvent]; try (by apply updateCurrent_Inv); try done.
  { by apply (quiet_Inv r). }
  pose proof (requests_Inv (late e) r HI) as HI1.
  generalize dependent (fold_left (fun r q => request q r) (late e) r). intros r1 HI1.
  destruct (deviceGrabbed_ r1) eqn:Eg; [by apply processSync_spec|].
  pose proof (checkGesture_quiet (clock e) r1) as Hq.
  pose proof (quiet_Inv _ _ Hq HI1) as HI2.
  destruct (quiet_tests _ _ [] 0 Hq) as (_ & _ & _ & Eg2). rewrite Eg in Eg2.
  generalize dependent (fst (checkGesture (clock e) r1)). intros r2 Hq HI2 Eg2.
  destruct HI2. apply clearDirty_Inv; auto.
  intros i Hi. by rewrite inv_grab0 in Hi.
Qed.

Lemma queryAxisRanges_quiet ax ay r : quiet r (queryAxisRanges ax ay r).
Proof. unfold queryAxisRanges. by destruct ax, ay. Qed.

Lemma run1_Inv r i : Inv r -> Inv (run1 r i).
Proof.
  intros HI. destruct i as [q| |ax ay io|io p e]; cbn [run1].
  - by apply request_Inv.
  - destruct (phase r) eqn:Ep; [|done|done]. destruct (stopRequested_ r); [|done].
    assert (fd_ r = false) as Hf by (apply HI; congruence).
    apply phase_Inv; unfold closeDevice; rewrite Hf; done.
  - destruct (phase r) eqn:Ep; [|done|done].
    assert (fd_ r = false) as Hf by (apply HI; congruence).
    destruct (stopRequested_ r).
    { apply phase_Inv; unfold closeDevice; rewrite Hf; done. }
    assert (HI1 : Inv (openDevice r <| phase := Polling |>)) by (destruct HI; by split).
    apply applyRequestedGrab_Inv.
    eapply quiet_Inv in HI1; [|eapply quiet_trans;
      [apply (queryAxisRanges_quiet ax ay)|apply (applyPendingMapping_quiet true)]].
    destruct HI1. by apply reset_Inv.
  - destruct (phase r) eqn:Ep; [done| |done].
    destruct (stopRequested_ r); [by apply leaveDevice_Inv|]. unfold turn.
    assert (HI1 : Inv (applyRequestedGrab io (applyPendingMapping false r))).
    { apply applyRequestedGrab_Inv. eapply quiet_Inv; [apply applyPendingMapping_quiet|done]. }
    destruct p; try done; try (by apply leaveDevice_Inv). by apply handleEvent_Inv.
Qed.

Lemma create_Inv aw ah dw dh : Inv (create true aw ah dw dh).
Proof.
  split; try done.
  - intros i Hi. unfold activeOf in Hi.
    change (default false (replicate MAX_SLOTS false !! i) = true) in Hi.
    destruct (replicate MAX_SLOTS false !! i) eqn:E; [|done].
    apply lookup_replicate in E as [-> _]. done.
  - intros i Hi. destruct Hi. unfold claimOf.
    change (default "" (replicate MAX_SLOTS "" !! i) = "").
    destruct (replicate MAX_SLOTS "" !! i) eqn:E; [|done].
    apply lookup_replicate in E as [-> _]. done.
  - intros _ i. apply (activeOf_cleared (create true aw ah dw dh)).
Qed.

Lemma run_Inv l r : Inv r -> Inv (run l r).
Proof. induction l as [|i l IH] in r |- *; simpl; [done|]. intros HI. by apply IH, run1_Inv. Qed.

(** C32. Whatever the touch device reports, however often it is lost and
    reopened, and whatever the main thread asks meanwhile (zones, grab,
    mapping, stop), even in the middle of a report: the messages sent to the
    phone follow Android's rules for pointers (DOWN first and UP last, one
    POINTER_DOWN or POINTER_UP for each pointer in between, moves that name
    exactly the pointers on the glass), and the phone's pointers are the
    reader's. A pointer the phone knows has its finger on the glass at the last
    report and no zone has claimed it; with the device not grabbed the phone
    has none. A report of a grabbed device removes the pointers that lifted,
    adds those pressed outside the zones, and keeps the others, and a gesture
    in progress withdraws all of them. *)
Theorem touch_stream (aw ah dw dh : Z) (l : list Input) :
  let r := run l (create true aw ah dw dh) in
  phone (out r) = Some (activeIds r)
  /\ (forall i, activeOf r i = true ->
        0 <= trackingId (slotOf (prevSlots_ r) i) /\ claimOf i (router_ r) = "")
  /\ (deviceGrabbed_ r = false -> activeIds r = [])
  /\ forall e i, deviceGrabbed_ r = true -> (i < MAX_SLOTS)%nat ->
       activeOf (processSync e r) i =
         negb (blocks e r) && (activeOf r i && negb (leaves (consumedOf e r) r i)
                               || enters (consumedOf e r) r i).
Proof.
  intros r. assert (HI : Inv r) by (apply run_Inv, create_Inv). clearbody r. split_and!.
  - apply HI, HI.
  - intros i Hi. split.
    + apply (inv_down _ HI) in Hi. unfold down in Hi. by breflect.
    + destruct (decide (claimOf i (router_ r) = "")) as [|E]; [done|].
      apply (inv_claim _ HI) in E. congruence.
  - intros Hg. apply activeIds_none. by apply HI.
  - intros e i Hg Hi. by apply processSync_spec.
Qed.

End Sync.
End EvdevTouchReader.

(** ** An example *)

Module Sample.
Import TouchRouter EvdevTouchReader.

#[export] Instance byPriority_dec : RelDecision (fun a b : TouchZone => priority b <= priority a).
Proof. intros a b. exact _. Defined.

#[export] Instance byPriority_trans : Transitive (fun a b : TouchZone => priority b <= priority a).
Proof. intros a b c. lia. Qed.

#[export] Instance byPriority_total : Total (fun a b : TouchZone => priority b <= priority a).
Proof. intros a b. lia. Qed.

#[export] Program Instance mergeSorted : ZoneSort := {|
  sort_zones := merge_sort (fun a b => priority b <= priority a)
|}.
Next Obligation. intros l. apply merge_sort_Permutation. Qed.
Next Obligation. intros l. apply StronglySorted_merge_sort; exact _. Qed.

Definition idle (now : Z) : SyncEnv := mkSync [] (mkClock now now) (fun _ => None).

Definition ev (now : Z) (e : InputEvent) : Input := Polls true (ReadEvent e) (idle now).

Definition finger (now slot tid px py : Z) : list Input :=
  map (ev now) [ABS_MT_SLOT slot; ABS_MT_TRACKING_ID tid;
                ABS_MT_POSITION_X px; ABS_MT_POSITION_Y py].

(** Two fingers in one report, a third on the navbar's zone a second later,
    then the first one lifts. *)
Definition touches : list Input :=
  [Main grab; Main (zonesChanged [mkZone "page" 1 (f32 0) (f32 0) (f32 100) (f32 100);
                                  mkZone "navbar" 9 (f32 0) (f32 3600) (f32 4095) (f32 4095)]);
   Opens (Some 4095) (Some 4095) true]
  ++ finger 0 0 7 2048 1024 ++ finger 0 1 8 1024 2048 ++ [ev 0 SYN_REPORT]
  ++ finger 1000000000 2 9 500 4000 ++ [ev 1000000000 SYN_REPORT]
  ++ map (ev 1100000000) [ABS_MT_SLOT 0; ABS_MT_TRACKING_ID (-1); SYN_REPORT].

Definition reader : t := run touches (create true 1280 720 1024 600).

Lemma touch_stream_witness :
  map (fun o => match o with
                | TouchIndication ps idx a => Some (map p_id ps, idx, a)
                | _ => None
                end) (out reader)
    = [None; Some ([0%nat], 0%nat, 0); Some ([0%nat; 1%nat], 1%nat, 5);
       Some ([0%nat; 1%nat], 0%nat, 6)]
  /\ map c_zone (calls (router_ reader)) = ["navbar"]
  /\ phone (out reader) = Some [1%nat].
Proof.
  split; [vm_compute; reflexivity|]. split; [vm_compute; reflexivity|].
  destruct (touch_stream 1280 720 1024 600 touches) as [H _]. etransitivity; [exact H|].
  vm_compute. reflexivity.
Defined.

End Sample.
